(* ===== verification/_CoqProject ===== *)
-Q . S2P
Prelude.v
Ranges.v
GoFloat.v
CacheState.v
MemPiece.v
Reader.v
PieceCache.v
Shield.v
LruCache.v
GoStrings.v
InodeMap.v
Vfs.v
TailRange.v
Warmup.v
RaCache.v
Pump.v
Native.v
FuseRead.v
PumpLife.v
PumpLoop.v
Scheduler.v
Flac.v
Cue.v
CueSplit.v
Paths.v
Naming.v
Sources.v
AudioRegistry.v
Stub.v
AudioNamespace.v
AudioTxn.v
TxnInv.v
TxnRuns.v
Videos.v
VideoStubs.v
VideoPacks.v
VideoPaths.v
TvSync.v
Refresh.v
Locks.v
