(* ===== verification/Prelude.v ===== *)
(** * Tiramisu: a verification library

    Tiramisu presents torrents as files of a FUSE file system.  A read of a file goes
    through several caches before it waits for peers: the read-ahead cache filled by a
    pump goroutine (main.go), the head and tail files kept on SSD (internal/warmup), and
    the piece cache of the torrent storage (internal/gostorm/torr/storage/torrstor), whose
    readers also tell the BitTorrent client what to ask for next.  What files there are is
    decided by the library (internal/library): an add turns the files of a torrent into
    stubs, small texts on disk that name a stream, with rows of a registry
    (internal/metadb); the file system (internal/vfs) reads the stubs, keeps directory
    listings and gives every file an inode that survives a restart.  A scheduler
    (internal/syncer/scheduler) starts the jobs that look for new titles.

    This library models those parts and proves what their users rely on: a read returns
    the right bytes and returns; buffers are neither lost nor reused too early; memory and
    disk stay within their budgets; registry, stubs, published names and torrents agree
    through failures, interleavings and crashes; texts and names read back as written.

    *** The files

    Shared:
    - [Prelude]: Go integers with their wrap-around ([i64], [+!], [/!]), slices ([index],
      [slice], [copy_at]; [None] is a panic), [sort.Search], and the interface [GoRuntime]
      for what the run time leaves open (the order of equal elements in [sort.Slice], the
      order of a map range, a float conversion out of range); theorems hold for every
      instance, witnesses run on [reference_runtime].
    - [GoFloat]: the float64 operations the windows and the consumption rate use, on the
      Standard Library's [SpecFloat], with the rounding bounds.
    - [GoStrings]: the string functions used, with their round trips.

    The storage of a torrent (torrstor):
    - [Ranges]: ranges.go.  Merging reader windows, the in-range bitmap, the budget.
    - [CacheState]: the memory of one piece cache: pieces, readers, the freelist and what
      the cache sees of its torrent.  Objects reached through pointers live in heaps keyed
      by identity.
    - [MemPiece]: mempiece.go, piecefake.go and the piece side of piece.go.
    - [Reader]: reader.go and deadline.go.  Parking and resuming, reads in flight, windows,
      playout deadlines; the operations of all readers interleave as steps.
    - [PieceCache]: cache.go.  Priorities, eviction, life cycle, the state report.
    - [Shield]: the corruption shield of piece.go with its watchdog goroutines.

    Reading a file:
    - [TailRange], [Warmup]: warmup.go.  The set of written ranges, then the whole cache
      over a directory of inodes; each system call may fail.
    - [RaCache]: the read-ahead cache of main.go with its pooled arrays.
    - [Native]: native.go and stream.go, the pipe between the file system and the engine.
    - [Pump]: one turn of the pump over [RaCache] and [Warmup], the promotion of the handle
      it follows, and the decision functions of main.go; [PumpLoop] is its loop,
      [PumpLife] the starts, attachments, timers and ends of pumps and handles.
    - [FuseRead]: the read of an open file and of a cue track over all of the above, with
      the goroutines it leaves behind.
    - [Vfs]: segments of images and the directory cache; [InodeMap]: inodemap.go and the
      inode table; [LruCache]: lrucache.go, against the list of entries as specification.

    The library:
    - [Flac], [Cue], [CueSplit]: albums in one file.  flacsplit.go finds whole frames,
      cue.go reads the sheet, cuesplit.go cuts the tracks of a request.
    - [Paths], [Sources]: pathvalidation.go and sourceresolve.go, the names a request may
      give and the files it may mean; [Naming]: naming.go, the names of videos.
    - [Stub]: the text of a stub, written (bootstrap.go) and read (metadata.go).
    - [AudioRegistry]: the table of audio projections with its constraints, and the
      planning of an add (idempotency.go); [AudioNamespace]: the published view (audio.go).
    - [AudioTxn], [TxnInv], [TxnRuns]: adding (atomicadd.go), removing (removal.go) and
      recovering (recovery.go, startup.go), one call at a time, with crashes; the
      invariant; the theorems on runs.
    - [Videos], [VideoStubs], [VideoPacks], [VideoPaths]: manager.go.  Adding and removing
      movies and episodes; stubs and torrents; packs and their undoing; the paths clients
      are told.
    - [Refresh]: refresh.go, the rescans of the media server; [Locks]: the locks by key of
      the library (locks.go) and of the file system (internal/lockmgr).
    - [Scheduler]: scheduler.go; [TvSync]: the passes of the TV sync that adopt, delete and
      reap episodes (tv_go.go, tv_reaper.go), over the same disk and tables as [Videos].

    *** What the theorems show

    - A read: [FuseRead.read_serves_file] (the right bytes in every reachable state),
      [read_delivers] (and all of them, when the torrent delivers), [cue_read_serves_track];
      below it [RaCache.ra_reads_content], [Warmup.warm_reads_exact],
      [Native.ReadAt_exact], [Pump.pump_turn_exact], [PumpLoop.pump_run_exact] and
      [pump_reaches_end], [MemPiece.WriteAt_ReadAt_roundtrip],
      [TailRange.tail_coverage_exact], [Warmup.fill_ends_complete].
    - Pumps: [PumpLife.pump_tokens_balance], [grace_spares_readers],
      [Pump.pump_follows_one_primary].
    - Memory and requests: [PieceCache.cleanPieces_evicts_safely],
      [evict_reaches_capacity], [load_reader_exact], [Reader.reader_reachable_safe],
      [windows_leave_room], [RaCache.ra_budget], [Warmup.enforceQuota_evicts_oldest],
      [Ranges.mergeRange_correct], [LruCache.lru_refines], [Shield.shield_always_watched].
    - Albums: [Flac.Boundary_exact], [CueSplit.cue_track_streams],
      [cue_tracks_contiguous], [cueSegments_each]; [Cue.Parse_print] and [Parse_accepts].
    - Requests to the library: [Paths.validated_path_contained] and
      [KeepComponent_accepted], [Sources.ResolveSources_exact],
      [Naming.video_paths_contained] and [ParseSeasonEpisode_EpisodeFilename].
    - Audio transactions: [AudioRegistry.planned_batch_stages] and [registry_stays_ok],
      [TxnRuns.registry_and_files_agree], [boot_restores], [add_touches_its_own],
      [AudioNamespace.waiters_released], [Stub.stub_roundtrip].
    - Videos: [VideoStubs.stubs_keep_torrents], [VideoPacks.pack_filed] and
      [failed_add_undone], [VideoPaths.fuse_path_resolves]; against the sync,
      [TvSync.registered_survives] and [reaper_removes_only_dead].
    - Coordination: [Locks.keys_exclude], [Locks.LockManager_refines] (the lock of the
      file system refines that of the library), [Refresh.refreshes_follow_requests],
      [Scheduler.job_runs_once], [Vfs.dircache_never_stale].
    - Inodes: registration, namespaces, pruning and both persistence round trips in
      [InodeMap] ([saveToDB_loadFromDB] among them).
    - Behaviours that look unintended are proved as they are, by lemmas on sample states
      at the end of the files: [Reader.Close_in_flight_leaks], [Shield.shield_race],
      [InodeMap.RemoveFile_breaks_sibling], [Native.error_page_is_data],
      [PumpLife.double_release_kills_reader], [Scheduler.trigger_race],
      [Flac.silence_hides_boundary], [TxnRuns.recovery_deletes_foreign],
      [VideoPacks.other_show_removed], [TvSync.replaced_release_removed],
      [TvSync.film_loses_torrent] and others.

    *** Conventions

    Times are nanoseconds, passed as [now].  A lock section, or an operation that runs
    under one lock, is one step; where the code drops a lock in the middle the sections
    are separate definitions.  The recovery of a boot is one step, before requests are
    taken, and its calls to the registry are taken to work; a request of the video library
    is one step, since requests for one torrent or one episode exclude each other by the
    locks of [Locks].  Hypotheses bound sizes and offsets (2^60 bytes and the like) so that
    64-bit arithmetic does not wrap; they are stated with each theorem.

    Loops that are not structural carry fuel, each proved enough: the binary search the
    length of the searched interval, the eviction loop of the LRU cache the number of
    entries, the tail fill the number of bytes of the window, the probes of a FLAC
    boundary the bound in the code.  The JSON parser has twice the length of the text and
    two, since every call consumes a byte or follows one that did; the decoder of runes
    the number of bytes.

    Code outside the repository is a parameter: the hash [xxhash], Unicode normalization
    and case tables, the Windows-1251 table, what the network returns, what the operating
    system and the engine answer.  encoding/json, net/url, path/filepath and regular
    expressions are modelled as far as the code uses them.

    *** Not modelled

    - The BitTorrent client, a fork of a third-party library: only the entry points the
      readers call are modelled.  The life cycle of torrents over it (torr/torrent.go) and
      torrstor/storage.go, a map of caches.
    - Open, lookup, attributes and renames of the FUSE nodes; the playback registry and the
      matching of webhooks: tables of sessions fed by other programs.
    - What the sync engines and the import of music search for and choose, by the answers
      of external services, and the other passes of those engines; indexers, updater, MCP, web interface and HTTP handlers.
    - Settings and configuration, whose values are arguments; SQL beyond the tables named
      above; the rate limiter, the tuner and NAT-PMP. *)

From Stdlib Require Export ZArith Lia.
From Stdlib Require Import SpecFloat.
From stdpp Require Export base gmap list sorting strings numbers.
#[global] Set Default Goal Selector "!".
#[global] Open Scope Z_scope.

(** ** Machine integers

    Go's [int] and [int64] are 64-bit two's complement on every platform the
    program is built for (amd64 and arm64); [+], [-] and [*] wrap silently,
    [/] and [%] truncate toward zero. *)

Definition wrap_s (w z : Z) : Z := (z + 2 ^ (w - 1)) mod 2 ^ w - 2 ^ (w - 1).

Definition i64 (z : Z) : Z := wrap_s 64 z.
Definition i32 (z : Z) : Z := wrap_s 32 z.
Definition u64 (z : Z) : Z := z mod 2 ^ 64.

#[global] Arguments wrap_s : simpl never.
#[global] Arguments i64 : simpl never.
#[global] Arguments i32 : simpl never.
#[global] Arguments u64 : simpl never.

Definition max_i64 : Z := 9223372036854775807.
Definition min_i64 : Z := -9223372036854775808.

Definition in_i64 (z : Z) : Prop := -9223372036854775808 ≤ z ≤ 9223372036854775807.

Declare Scope go_scope.
Delimit Scope go_scope with go.
Notation "x +! y" := (i64 (x + y)) (at level 50, left associativity) : go_scope.
Notation "x -! y" := (i64 (x - y)) (at level 50, left associativity) : go_scope.
Notation "x *! y" := (i64 (x * y)) (at level 40, left associativity) : go_scope.
Notation "x /! y" := (i64 (Z.quot x y)) (at level 40, left associativity) : go_scope.
Notation "x %! y" := (Z.rem x y) (at level 40, left associativity) : go_scope.

(** ** Slices

    [len s] is the length of a slice as a Go [int]; [index s i] is [s[i]], and
    [None] is the run-time panic of an index out of range. *)

Definition len {A} (l : list A) : Z := Z.of_nat (length l).

Definition index {A} (l : list A) (i : Z) : option A :=
  if decide (0 ≤ i) then l !! Z.to_nat i else None.

Definition store {A} (l : list A) (i : Z) (x : A) : option (list A) :=
  if decide (0 ≤ i < len l) then Some (<[Z.to_nat i := x]> l) else None.

(** [s[lo:hi]] on a slice whose capacity is its length: [None] is the panic. *)
Definition slice {A} (l : list A) (lo hi : Z) : option (list A) :=
  if decide (0 ≤ lo ≤ hi ∧ hi ≤ len l)
  then Some (take (Z.to_nat (hi - lo)) (drop (Z.to_nat lo) l)) else None.

(** [copy(dst[off:], src)]: the destination after the copy and the count. *)
Definition copy_at {A} (dst : list A) (off : Z) (src : list A) : option (list A * Z) :=
  if decide (0 ≤ off ≤ len dst)
  then let n := Z.min (len src) (len dst - off) in
       Some (take (Z.to_nat off) dst ++ take (Z.to_nat n) src
             ++ drop (Z.to_nat (off + n)) dst, n)
  else None.

(** ** [sort.Search]

    The binary search of package [sort], with the loop bound by the length of
    the searched interval. *)

Fixpoint search_loop (fuel : nat) (f : nat → bool) (i j : nat) : nat :=
  match fuel with
  | O => i
  | S fuel =>
      if (i <? j)%nat then
        let h := Nat.div2 (i + j) in
        if f h then search_loop fuel f i h else search_loop fuel f (S h) j
      else i
  end.

Definition sort_search (n : nat) (f : nat → bool) : nat := search_loop n f 0 n.

(** ** What the Go run time leaves open

    [sort.Slice] promises a sorted permutation and nothing about ties; ranging
    over a map visits every entry once in an arbitrary order; converting a
    floating-point value the integer type cannot hold gives an
    implementation-dependent result.  The model takes the three as an interface,
    and the theorems hold for every implementation. *)

Definition strict_weak {A} (less : A → A → bool) : Prop :=
  (∀ x, less x x = false) ∧
  (∀ x y z, less y x = false → less z y = false → less z x = false) ∧
  (∀ x y, less x y = true → less y x = false).

Class GoRuntime := {
  sort_slice : ∀ {A : Type}, (A → A → bool) → list A → list A;
  sort_slice_perm : ∀ (A : Type) (less : A → A → bool) (l : list A),
    sort_slice less l ≡ₚ l;
  sort_slice_sorted : ∀ (A : Type) (less : A → A → bool) (l : list A),
    strict_weak less →
    StronglySorted (λ x y, less y x = false) (sort_slice less l);
  map_range : ∀ {K V : Type} {EqK : EqDecision K} {CountK : Countable K},
    gmap K V → list (K * V);
  map_range_perm : ∀ (K V : Type) (EqK : EqDecision K) (CountK : Countable K)
    (m : gmap K V), map_range m ≡ₚ map_to_list m;
  conv_overflow : spec_float → Z
}.

(** The reference implementation: insertion sort and [map_to_list]. *)
Fixpoint insert_by {A} (less : A → A → bool) (x : A) (l : list A) : list A :=
  match l with
  | [] => [x]
  | y :: l' => if less x y then x :: y :: l' else y :: insert_by less x l'
  end.

Definition insertion_sort {A} (less : A → A → bool) (l : list A) : list A :=
  foldl (λ acc x, insert_by less x acc) [] l.

Definition sumZ {A} (f : A → Z) (l : list A) : Z := foldr (λ x s, f x + s) 0 l.

(** ** Automation *)

Create HintDb tiramisu.

Ltac bool_simpl :=
  repeat match goal with
  | H : _ && _ = true |- _ => apply andb_true_iff in H; destruct H
  | H : _ || _ = false |- _ => apply orb_false_iff in H; destruct H
  | H : negb _ = true |- _ => apply negb_true_iff in H
  | H : negb _ = false |- _ => apply negb_false_iff in H
  | H : (_ <? _) = true |- _ => apply Z.ltb_lt in H
  | H : (_ <? _) = false |- _ => apply Z.ltb_ge in H
  | H : (_ <=? _) = true |- _ => apply Z.leb_le in H
  | H : (_ <=? _) = false |- _ => apply Z.leb_gt in H
  | H : (_ =? _) = true |- _ => apply Z.eqb_eq in H
  | H : (_ =? _) = false |- _ => apply Z.eqb_neq in H
  end.

(** Case analysis on every boolean comparison the goal branches on. *)
Ltac case_if :=
  match goal with
  | |- context [if ?b then _ else _] => destruct b eqn:?
  end; bool_simpl.

(** ** Generic lemmas *)

Section machine_integers.
Lemma i64_id z : in_i64 z → i64 z = z.
Proof.
  unfold in_i64, i64, wrap_s. intros H.
  change (2 ^ (64 - 1)) with 9223372036854775808.
  change (2 ^ 64) with 18446744073709551616.
  rewrite Z.mod_small; lia.
Qed.

Lemma i64_range z : in_i64 (i64 z).
Proof.
  unfold in_i64, i64, wrap_s.
  change (2 ^ (64 - 1)) with 9223372036854775808.
  change (2 ^ 64) with 18446744073709551616.
  pose proof (Z.mod_pos_bound (z + 9223372036854775808) 18446744073709551616).
  lia.
Qed.

Lemma i64_idemp z : i64 (i64 z) = i64 z.
Proof. apply i64_id, i64_range. Qed.

Lemma u64_range z : 0 ≤ u64 z < 2 ^ 64.
Proof. apply Z.mod_pos_bound. lia. Qed.

Lemma u64_id z : 0 ≤ z < 2 ^ 64 → u64 z = z.
Proof. apply Z.mod_small. Qed.

(** Reading the same 64 bits as signed and back loses nothing. *)
Lemma u64_i64 z : 0 ≤ z < 2 ^ 64 → u64 (i64 z) = z.
Proof.
  intros Hz. unfold u64, i64, wrap_s.
  rewrite Zminus_mod, Zmod_mod, <-Zminus_mod.
  replace (z + 2 ^ (64 - 1) - 2 ^ (64 - 1)) with z by lia.
  by apply Z.mod_small.
Qed.

Lemma quot_nonneg a b : 0 ≤ a → 0 < b → 0 ≤ Z.quot a b ≤ a.
Proof.
  intros Ha Hb. rewrite Z.quot_div_nonneg by lia.
  split; [apply Z.div_pos; lia|]. apply Z.div_le_upper_bound; nia.
Qed.

Lemma quot_mul_le a b : 0 ≤ a → 0 < b → b * Z.quot a b ≤ a.
Proof.
  intros Ha Hb. rewrite Z.quot_div_nonneg by lia. by apply Z.mul_div_le.
Qed.

Lemma quot_mul_gt a b : 0 ≤ a → 0 < b → a < b * (Z.quot a b + 1).
Proof.
  intros Ha Hb. rewrite Z.quot_div_nonneg by lia.
  pose proof (Z.mul_succ_div_gt a b Hb). lia.
Qed.

Lemma quot_mono a b c : 0 ≤ a ≤ b → 0 < c → Z.quot a c ≤ Z.quot b c.
Proof. intros ? ?. rewrite !Z.quot_div_nonneg by lia. apply Z.div_le_mono; lia. Qed.
End machine_integers.

#[export] Hint Resolve i64_range u64_range : tiramisu.

(** [go_lia]: drop the wrap-around of operations whose value is in range. *)
Ltac go_simpl :=
  repeat match goal with
  | |- context [i64 ?z] => rewrite (i64_id z) by (unfold in_i64 in *; lia)
  | H : context [i64 ?z] |- _ => rewrite (i64_id z) in H by (unfold in_i64 in *; lia)
  end.

Section int32.
Lemma i32_id z : -2147483648 ≤ z ≤ 2147483647 → i32 z = z.
Proof.
  unfold i32, wrap_s. intros H.
  change (2 ^ (32 - 1)) with 2147483648. change (2 ^ 32) with 4294967296.
  rewrite Z.mod_small; lia.
Qed.

(** Counting modulo the width: a wrapped counter still counts. *)
Lemma i32_add z k : i32 (i32 z + k) = i32 (z + k).
Proof.
  unfold i32, wrap_s. f_equal.
  replace ((z + 2 ^ (32 - 1)) mod 2 ^ 32 - 2 ^ (32 - 1) + k + 2 ^ (32 - 1))
    with ((z + 2 ^ (32 - 1)) mod 2 ^ 32 + k) by lia.
  rewrite Zplus_mod_idemp_l. f_equal. lia.
Qed.
End int32.

Section slices.
Context {A : Type}.
Implicit Types l s dst src : list A.

Lemma len_nonneg l : 0 ≤ len l.
Proof. unfold len. lia. Qed.

Lemma len_nil : len (@nil A) = 0.
Proof. done. Qed.

Lemma len_app l1 l2 : len (l1 ++ l2) = len l1 + len l2.
Proof. unfold len. rewrite length_app. lia. Qed.

Lemma len_cons x l : len (x :: l) = len l + 1.
Proof. unfold len. simpl. lia. Qed.

Lemma len_take n l : len (take n l) = Z.min (Z.of_nat n) (len l).
Proof. unfold len. rewrite length_take. lia. Qed.

Lemma len_drop n l : len (drop n l) = Z.max 0 (len l - Z.of_nat n).
Proof. unfold len. rewrite length_drop. lia. Qed.

Lemma len_replicate n (x : A) : len (replicate n x) = Z.of_nat n.
Proof. unfold len. by rewrite length_replicate. Qed.

Lemma store_spec l i x l' :
  store l i x = Some l' → 0 ≤ i < len l ∧ l' = <[Z.to_nat i := x]> l.
Proof. unfold store. case_decide as Hi; [|done]. by intros [= <-]. Qed.

Lemma slice_spec l lo hi s :
  slice l lo hi = Some s →
  0 ≤ lo ≤ hi ∧ hi ≤ len l ∧ len s = hi - lo ∧
  ∀ k, 0 ≤ k < hi - lo → s !! Z.to_nat k = l !! Z.to_nat (lo + k).
Proof.
  unfold slice. case_decide as H; [|done]. intros [= <-].
  split; [lia|]. split; [lia|]. split.
  { rewrite len_take, len_drop. lia. }
  intros k Hk. rewrite lookup_take_lt, lookup_drop by lia. f_equal. lia.
Qed.

Lemma slice_some l lo hi : 0 ≤ lo ≤ hi → hi ≤ len l → is_Some (slice l lo hi).
Proof. intros. unfold slice. rewrite decide_True by lia. eauto. Qed.

Lemma copy_at_spec dst off src dst' n :
  copy_at dst off src = Some (dst', n) →
  0 ≤ off ≤ len dst ∧ n = Z.min (len src) (len dst - off) ∧ len dst' = len dst ∧
  ∀ k, 0 ≤ k < len dst →
    dst' !! Z.to_nat k =
      if decide (off ≤ k < off + n) then src !! Z.to_nat (k - off) else dst !! Z.to_nat k.
Proof.
  unfold copy_at. case_decide as H; [|done]. intros [= <- <-].
  pose proof (len_nonneg src).
  split; [lia|]. split; [done|]. split.
  { rewrite !len_app, !len_take, len_drop. lia. }
  intros k Hk.
  assert (Hl : length (take (Z.to_nat off) dst) = Z.to_nat off).
  { rewrite length_take. unfold len in *. lia. }
  destruct (decide (k < off)) as [Hlt|Hge].
  { rewrite decide_False by lia. rewrite lookup_app_l by lia.
    by rewrite lookup_take_lt by lia. }
  rewrite lookup_app_r by lia. rewrite Hl.
  assert (Hs : length (take (Z.to_nat (Z.min (len src) (len dst - off))) src)
               = Z.to_nat (Z.min (len src) (len dst - off))).
  { rewrite length_take. unfold len in *. lia. }
  case_decide as Hin.
  - rewrite lookup_app_l by lia. rewrite lookup_take_lt by lia. f_equal. lia.
  - rewrite lookup_app_r by lia. rewrite Hs, lookup_drop. f_equal. lia.
Qed.

Lemma copy_at_some dst off src : 0 ≤ off ≤ len dst → is_Some (copy_at dst off src).
Proof. intros. unfold copy_at. rewrite decide_True by lia. eauto. Qed.
End slices.

Section search.
(** The predicate is false on a prefix and true on the rest. *)
Definition monotone (n : nat) (f : nat → bool) : Prop :=
  ∀ i j, (i ≤ j < n)%nat → f i = true → f j = true.

Lemma search_loop_spec fuel n f i j :
  monotone n f → (i ≤ j ≤ n)%nat → (j - i ≤ fuel)%nat →
  (∀ k, (k < i)%nat → f k = false) → (∀ k, (j ≤ k < n)%nat → f k = true) →
  let r := search_loop fuel f i j in
  (r ≤ n)%nat ∧ (∀ k, (k < r)%nat → f k = false) ∧ (∀ k, (r ≤ k < n)%nat → f k = true).
Proof.
  intros Hm. revert i j. induction fuel as [|fuel IH]; intros i j Hij Hf Hlo Hhi; simpl.
  { split; [lia|]. split; [done|]. intros k Hk. apply Hhi. lia. }
  destruct (i <? j)%nat eqn:E.
  2:{ apply Nat.ltb_ge in E. split; [lia|]. split; [done|]. intros; apply Hhi; lia. }
  apply Nat.ltb_lt in E.
  assert (Hh : (i ≤ Nat.div2 (i + j) < j)%nat).
  { rewrite Nat.div2_div. pose proof (Nat.div_mod_eq (i + j) 2).
    pose proof (Nat.mod_upper_bound (i + j) 2). lia. }
  destruct (f (Nat.div2 (i + j))) eqn:Ef.
  - apply IH; [lia|lia|done|]. intros k Hk.
    apply (Hm (Nat.div2 (i + j)) k); [lia|done].
  - apply IH; [lia|lia| |done]. intros k Hk.
    destruct (f k) eqn:Ek; [|done].
    rewrite (Hm k (Nat.div2 (i + j))) in Ef; [done|lia|done].
Qed.

Lemma sort_search_spec n f :
  monotone n f →
  (sort_search n f ≤ n)%nat ∧ (∀ k, (k < sort_search n f)%nat → f k = false) ∧
  (∀ k, (sort_search n f ≤ k < n)%nat → f k = true).
Proof. intros Hm. apply search_loop_spec; [done|lia|lia|lia|lia]. Qed.
End search.

Section runtime.
Context {A : Type} (less : A → A → bool).

Lemma insert_by_perm x l : insert_by less x l ≡ₚ x :: l.
Proof.
  induction l as [|y l IH]; simpl; [done|]. destruct (less x y); [done|].
  rewrite IH. by constructor.
Qed.

Lemma insertion_sort_perm l : insertion_sort less l ≡ₚ l.
Proof.
  unfold insertion_sort.
  assert (∀ acc, foldl (λ acc x, insert_by less x acc) acc l ≡ₚ acc ++ l) as Hgen.
  { induction l as [|x l IH]; intros acc; simpl; [by rewrite app_nil_r|].
    rewrite IH, insert_by_perm. simpl. by rewrite Permutation_middle. }
  apply Hgen.
Qed.

Lemma insert_by_sorted x l :
  strict_weak less →
  StronglySorted (λ x y, less y x = false) l →
  StronglySorted (λ x y, less y x = false) (insert_by less x l).
Proof.
  intros (Hir & Htr & Has) Hs. induction Hs as [|y l Hs IH Hall]; simpl.
  { repeat constructor. }
  destruct (less x y) eqn:E.
  - constructor; [by constructor|]. constructor; [by apply Has|].
    rewrite list.Forall_forall in Hall |- *. intros z Hz.
    apply (Htr x y z); [by apply Has|]. by apply Hall.
  - constructor; [done|]. rewrite list.Forall_forall in Hall |- *. intros z Hz.
    rewrite insert_by_perm in Hz. apply elem_of_cons in Hz as [->|Hz]; auto.
Qed.

Lemma insertion_sort_sorted l :
  strict_weak less →
  StronglySorted (λ x y, less y x = false) (insertion_sort less l).
Proof.
  intros Hw. unfold insertion_sort.
  assert (∀ acc, StronglySorted (λ x y, less y x = false) acc →
    StronglySorted (λ x y, less y x = false)
      (foldl (λ acc x, insert_by less x acc) acc l)) as Hgen.
  { induction l as [|x l IH]; intros acc Hacc; simpl; [done|].
    apply IH. by apply insert_by_sorted. }
  apply Hgen. constructor.
Qed.
End runtime.

#[export] Instance reference_runtime : GoRuntime := {|
  sort_slice := @insertion_sort;
  sort_slice_perm := @insertion_sort_perm;
  sort_slice_sorted := @insertion_sort_sorted;
  map_range := λ K V _ _ m, map_to_list m;
  map_range_perm := λ K V _ _ m, reflexivity _;
  conv_overflow := λ _, min_i64
|}.

Lemma sorted_lookup {A} (R : relation A) (l : list A) :
  StronglySorted R l → ∀ i j a b, (i < j)%nat →
  l !! i = Some a → l !! j = Some b → R a b.
Proof.
  induction 1 as [|x l Hs IH Hall]; intros i j a b Hij Ha Hb; [done|].
  rewrite list.Forall_forall in Hall.
  destruct i as [|i], j as [|j]; simpl in *; simplify_eq; try lia.
  - by apply Hall, list_elem_of_lookup_2 with j.
  - eapply (IH i j); eauto. lia.
Qed.

Lemma list_filter_all {A} (P : A → Prop) `{!∀ x, Decision (P x)} (l : list A) :
  (∀ x, x ∈ l → P x) → filter P l = l.
Proof.
  induction l as [|x l IH]; intros Hl; [done|]. rewrite filter_cons, decide_True.
  - rewrite IH; [done|]. intros y Hy. apply Hl. by right.
  - apply Hl. by left.
Qed.

Lemma StronglySorted_weaken {A} (R S : relation A) (l : list A) :
  (∀ x y, R x y → S x y) → StronglySorted R l → StronglySorted S l.
Proof.
  intros HRS. induction 1 as [|x l Hs IH Hall]; constructor; [done|].
  eapply list.Forall_impl; [done|]. simpl. auto.
Qed.

Section sums.
Context {A : Type} (f : A → Z).

Lemma sumZ_app l1 l2 : sumZ f (l1 ++ l2) = sumZ f l1 + sumZ f l2.
Proof. induction l1; simpl; lia. Qed.

#[export] Instance sumZ_perm : Proper ((≡ₚ) ==> (=)) (sumZ f).
Proof. induction 1; simpl; lia. Qed.

Lemma sumZ_nonneg l : (∀ x, x ∈ l → 0 ≤ f x) → 0 ≤ sumZ f l.
Proof.
  induction l as [|x l IH]; simpl; [lia|]. intros H.
  pose proof (H x ltac:(left)). assert (0 ≤ sumZ f l); [|lia].
  apply IH. intros y Hy. apply H. by right.
Qed.

Lemma sumZ_ge_len l k : (∀ x, x ∈ l → k ≤ f x) → k * len l ≤ sumZ f l.
Proof.
  induction l as [|x l IH]; simpl; intros H; [rewrite len_nil; lia|].
  rewrite len_cons. pose proof (H x ltac:(left)).
  assert (k * len l ≤ sumZ f l); [|lia]. apply IH. intros y Hy. apply H. by right.
Qed.
End sums.

#[export] Existing Instance sumZ_perm.

Section map_range.
Context `{GoRuntime} {K V : Type} `{Countable K}.

Lemma elem_of_map_range (m : gmap K V) k v :
  (k, v) ∈ map_range m ↔ m !! k = Some v.
Proof. rewrite map_range_perm. apply elem_of_map_to_list. Qed.

Lemma NoDup_map_range_fst (m : gmap K V) : NoDup ((map_range m).*1).
Proof.
  rewrite (fmap_Permutation fst _ _ (map_range_perm _ _ _ _ m)).
  apply NoDup_fst_map_to_list.
Qed.
End map_range.

(** ** Sums over a map

    The accounting invariants of the caches say that a counter is the sum of a
    measure over the entries of a map. *)

Section sum_map.
Context {K V : Type} `{Countable K} (f : V → Z).

Definition sum_map (m : gmap K V) : Z := sumZ (λ kv, f kv.2) (map_to_list m).

Lemma sum_map_empty : sum_map ∅ = 0.
Proof. unfold sum_map. by rewrite map_to_list_empty. Qed.

Lemma sum_map_insert_fresh m k x : m !! k = None → sum_map (<[k := x]> m) = f x + sum_map m.
Proof. intros Hk. unfold sum_map. by rewrite map_to_list_insert. Qed.

Lemma sum_map_delete m k : sum_map (delete k m) = sum_map m - from_option f 0 (m !! k).
Proof.
  destruct (m !! k) as [y|] eqn:Hk; simpl.
  - rewrite <-(insert_delete_id m k y Hk) at 2.
    rewrite sum_map_insert_fresh by apply lookup_delete_eq. lia.
  - rewrite delete_id by done. lia.
Qed.

Lemma sum_map_insert m k x :
  sum_map (<[k := x]> m) = sum_map m - from_option f 0 (m !! k) + f x.
Proof.
  rewrite <-insert_delete_eq, sum_map_insert_fresh by apply lookup_delete_eq.
  rewrite sum_map_delete. lia.
Qed.

Lemma sum_map_alter m k g :
  sum_map (alter g k m) = sum_map m - from_option f 0 (m !! k)
                          + from_option f 0 (g <$> m !! k).
Proof.
  destruct (m !! k) as [y|] eqn:Hk; simpl.
  - assert (alter g k m = <[k := g y]> m) as ->.
    { apply map_eq. intros i. destruct (decide (i = k)) as [->|].
      - by rewrite lookup_alter_eq, lookup_insert_eq, Hk.
      - by rewrite lookup_alter_ne, lookup_insert_ne. }
    rewrite sum_map_insert, Hk. done.
  - rewrite alter_id; [lia|]. intros z. by rewrite Hk.
Qed.

Lemma sum_map_nonneg m : (∀ k x, m !! k = Some x → 0 ≤ f x) → 0 ≤ sum_map m.
Proof.
  intros Hm. apply sumZ_nonneg. intros [k x] Hin. simpl.
  apply elem_of_map_to_list in Hin. eauto.
Qed.

Lemma sum_map_le (g : V → Z) (w : Z) m :
  (∀ k x, m !! k = Some x → f x ≤ w * g x) →
  sum_map m ≤ w * sumZ (λ kv, g kv.2) (map_to_list m).
Proof.
  intros Hm. unfold sum_map.
  assert (Hl : ∀ kv, kv ∈ map_to_list m → f kv.2 ≤ w * g kv.2).
  { intros [k x] Hin%elem_of_map_to_list. simpl. eauto. }
  revert Hl. induction (map_to_list m) as [|kv l IH]; simpl; intros Hl; [lia|].
  pose proof (Hl kv ltac:(left)). assert (∀ kv, kv ∈ l → f kv.2 ≤ w * g kv.2) as Hl'.
  { intros kv' Hin. apply Hl. by right. }
  specialize (IH Hl'). lia.
Qed.

Lemma sum_map_ge m k x :
  (∀ k x, m !! k = Some x → 0 ≤ f x) → m !! k = Some x → f x ≤ sum_map m.
Proof.
  intros Hm Hk. rewrite <-(insert_delete_id m k x Hk), sum_map_insert_fresh
    by apply lookup_delete_eq.
  assert (0 ≤ sum_map (delete k m)); [|lia].
  apply sum_map_nonneg. intros k' y [_ Hy]%lookup_delete_Some. eauto.
Qed.
End sum_map.
