(* ===== verification/Ranges.v ===== *)
(** * Piece windows (internal/gostorm/torr/storage/torrstor/ranges.go)

    The arithmetic the piece cache decides eviction and prefetch with: the
    merge of the readers' windows, the binary search over the merged list, the
    eviction bitmap, and the two byte budgets.  The theorems relate each of
    them to the set of pieces the readers' windows cover. *)

From S2P Require Import Prelude.
Local Open Scope go_scope.

(** What the cache uses of a [*torrent.File]: where it starts in the torrent
    and how long it is. *)
Record TFile := mkTFile { file_offset : Z; file_length : Z }.

Record Range := mkRange { Start : Z; End : Z; File : TFile }.

Definition inRanges (ranges : list Range) (ind : Z) : bool :=
  let i := sort_search (length ranges)
             (λ i, match ranges !! i with Some r => ind <=? End r | None => false end) in
  match ranges !! i with
  | Some r => Start r <=? ind
  | None => false
  end.

(** The inner loop [for i := start; i <= end; i++ { dst[i] = true }], [n] being
    the number of iterations. *)
Fixpoint mark_loop (dst : list bool) (i : Z) (n : nat) : option (list bool) :=
  match n with
  | O => Some dst
  | S n => dst' ← store dst i true; mark_loop dst' (i + 1) n
  end.

Definition mark_range (pieceCount : Z) (dst : list bool) (rng : Range) : option (list bool) :=
  let start := if Start rng <? 0 then 0 else Start rng in
  let end_ := if pieceCount <=? End rng then pieceCount -! 1 else End rng in
  mark_loop dst start (Z.to_nat (end_ + 1 - start)).

(** [None] is an index out of range. *)
Definition fillPieceInRange (dst : list bool) (ranges : list Range) (pieceCount : Z)
    : option (list bool) :=
  foldl (λ acc rng, d ← acc; mark_range pieceCount d rng)
        (Some (replicate (length dst) false)) ranges.

Definition pieceEvictable (size : Z) (complete inReaderWindow : bool) : bool :=
  (0 <? size) && complete && negb inReaderWindow.

Definition range_less (a b : Range) : bool :=
  if Start a <? Start b then true
  else if (Start a =? Start b) && (End a <? End b) then true
  else false.

(** The compaction loop of [mergeRange]: [cur] is [merged[j]]. *)
Fixpoint merge_loop (cur : Range) (rest : list Range) : list Range :=
  match rest with
  | [] => [cur]
  | r :: rest =>
      if Start r <=? End cur then
        if End cur <? End r then merge_loop (mkRange (Start cur) (End r) (File cur)) rest
        else merge_loop cur rest
      else cur :: merge_loop r rest
  end.

Definition mergeRange `{GoRuntime} (ranges : list Range) : list Range :=
  if len ranges <=? 1 then ranges
  else match sort_slice range_less ranges with
       | [] => []
       | r :: rest => merge_loop r rest
       end.

Definition prefetchBudgetPct : Z := 40.

Definition pieceBudgetCount (count capacity pieceLength : Z) : Z :=
  if (count <=? 1) || (capacity <=? 0) || (pieceLength <=? 0) then count
  else
    let max := capacity *! prefetchBudgetPct /! 100 /! pieceLength in
    let max := if max <? 1 then 1 else max in
    if max <? count then max else count.

Definition minPerReaderReadahead : Z := Z.shiftl 8 20.

Definition perReaderReadahead (total readers : Z) : Z :=
  let readers := if readers <? 1 then 1 else readers in
  let ra := total /! readers in
  let ra := if ra <? minPerReaderReadahead then minPerReaderReadahead else ra in
  if total <? ra then total else ra.

(** ** Specification: the pieces a list of windows covers *)

Definition in_range (i : Z) (r : Range) : Prop := Start r ≤ i ≤ End r.
Definition covered (ranges : list Range) (i : Z) : Prop := ∃ r, r ∈ ranges ∧ in_range i r.

(** Two lists of windows are equivalent when they cover the same pieces. *)
Definition same_cover (l1 l2 : list Range) : Prop := ∀ i, covered l1 i ↔ covered l2 i.

(** Consecutive windows are disjoint and in order. *)
Definition separated (l : list Range) : Prop := StronglySorted (λ a b, End a < Start b) l.

Definition well_formed (r : Range) : Prop := Start r ≤ End r.

#[export] Instance same_cover_equiv : Equivalence same_cover.
Proof. split; unfold same_cover; repeat intro; naive_solver. Qed.

#[export] Instance covered_proper : Proper (same_cover ==> (=) ==> iff) covered.
Proof. intros l1 l2 H ? i ->. apply H. Qed.

#[export] Instance cons_same_cover_proper r : Proper (same_cover ==> same_cover) (cons r).
Proof.
  intros l1 l2 H i. specialize (H i). unfold covered in *.
  setoid_rewrite elem_of_cons. naive_solver.
Qed.

Lemma covered_nil i : covered [] i ↔ False.
Proof. unfold covered. set_solver. Qed.

Lemma covered_cons r l i : covered (r :: l) i ↔ in_range i r ∨ covered l i.
Proof. unfold covered. setoid_rewrite elem_of_cons. naive_solver. Qed.

Lemma same_cover_perm l1 l2 : l1 ≡ₚ l2 → same_cover l1 l2.
Proof. intros H i. unfold covered. by setoid_rewrite H. Qed.

#[export] Hint Resolve same_cover_perm : tiramisu.

Lemma range_less_false a b :
  range_less b a = false ↔ Start a < Start b ∨ (Start a = Start b ∧ End a ≤ End b).
Proof.
  unfold range_less.
  destruct (Z.ltb_spec (Start b) (Start a)), (Z.eqb_spec (Start b) (Start a)),
    (Z.ltb_spec (End b) (End a)); simpl; split; intros; simplify_eq; lia.
Qed.

Lemma range_less_weak : strict_weak range_less.
Proof.
  split_and!.
  - intros x. apply range_less_false. lia.
  - intros x y z. rewrite !range_less_false. lia.
  - intros x y H. apply range_less_false. apply not_false_iff_true in H.
    rewrite range_less_false in H. lia.
Qed.

Lemma mergeRange_long `{GoRuntime} ranges :
  1 < len ranges →
  ∃ r rest, sort_slice range_less ranges = r :: rest ∧ mergeRange ranges = merge_loop r rest.
Proof.
  intros Hl. unfold mergeRange. case_if; [lia|].
  destruct (sort_slice range_less ranges) as [|r rest] eqn:E; [|eauto].
  pose proof (sort_slice_perm Range range_less ranges) as HP. rewrite E in HP.
  apply Permutation_nil in HP. subst. done.
Qed.

Section merge.
Implicit Types r cur : Range.

Lemma merge_loop_cover cur rest :
  Forall (λ r, Start cur ≤ Start r) rest →
  StronglySorted (λ a b, Start a ≤ Start b) rest →
  same_cover (merge_loop cur rest) (cur :: rest).
Proof.
  revert cur. induction rest as [|r rest IH]; intros cur Hle Hs; simpl; [done|].
  apply Forall_cons_1 in Hle as [Hr Hle]. apply StronglySorted_cons in Hs as [Hrs Hs].
  repeat case_if; bool_simpl.
  - rewrite IH by done. intros i. rewrite !covered_cons. unfold in_range; simpl.
    assert (Start cur ≤ i ≤ End r ↔ (Start cur ≤ i ≤ End cur) ∨ (Start r ≤ i ≤ End r)); [lia|].
    naive_solver.
  - rewrite IH by done. intros i. rewrite !covered_cons. unfold in_range.
    assert ((Start r ≤ i ≤ End r) → (Start cur ≤ i ≤ End cur)); [lia|]. naive_solver.
  - by rewrite IH.
Qed.

Lemma merge_loop_start cur rest :
  Forall (λ r, Start cur ≤ Start r) rest →
  StronglySorted (λ a b, Start a ≤ Start b) rest →
  Forall (λ r, Start cur ≤ Start r) (merge_loop cur rest).
Proof.
  revert cur. induction rest as [|r rest IH]; intros cur Hle Hs; simpl.
  { by constructor. }
  apply Forall_cons_1 in Hle as [Hr Hle]. apply StronglySorted_cons in Hs as [Hrs Hs].
  repeat case_if; bool_simpl.
  - by apply (IH (mkRange (Start cur) (End r) (File cur))).
  - by apply IH.
  - constructor; [done|]. eapply list.Forall_impl; [by apply IH|]. simpl. lia.
Qed.

Lemma merge_loop_separated cur rest :
  Forall (λ r, Start cur ≤ Start r) rest →
  StronglySorted (λ a b, Start a ≤ Start b) rest →
  separated (merge_loop cur rest).
Proof.
  revert cur. induction rest as [|r rest IH]; intros cur Hle Hs; simpl.
  { repeat constructor. }
  apply Forall_cons_1 in Hle as [Hr Hle]. apply StronglySorted_cons in Hs as [Hrs Hs].
  repeat case_if; bool_simpl.
  - by apply IH.
  - by apply IH.
  - apply StronglySorted_cons. split; [|by apply IH].
    eapply list.Forall_impl; [by apply merge_loop_start|]. simpl. lia.
Qed.

Lemma merge_loop_wf cur rest :
  Forall well_formed (cur :: rest) → Forall well_formed (merge_loop cur rest).
Proof.
  revert cur. induction rest as [|r rest IH]; intros cur; simpl; [done|].
  intros [Hc [Hr Hw]%Forall_cons_1]%Forall_cons_1. unfold well_formed in *.
  repeat case_if; bool_simpl.
  - apply IH. constructor; [simpl; lia|done].
  - apply IH. by constructor.
  - constructor; [done|]. apply IH. by constructor.
Qed.

Lemma sorted_starts `{GoRuntime} ranges :
  StronglySorted (λ a b, Start a ≤ Start b) (sort_slice range_less ranges).
Proof.
  pose proof (sort_slice_sorted Range range_less ranges range_less_weak) as Hs.
  induction Hs as [|x l Hs IH Hall]; constructor; [done|].
  eapply list.Forall_impl; [done|]. simpl. intros y Hy.
  apply range_less_false in Hy. lia.
Qed.

Lemma separated_ends_mono l :
  separated l → Forall well_formed l →
  ∀ i j a b, (i ≤ j)%nat → l !! i = Some a → l !! j = Some b → End a ≤ End b.
Proof.
  intros Hs. induction Hs as [|x l Hs IH Hall]; intros Hw i j a b Hij Ha Hb; [done|].
  apply Forall_cons_1 in Hw as [Hx Hw].
  destruct i as [|i], j as [|j]; simpl in *; simplify_eq; try lia.
  - rewrite list.Forall_forall in Hall, Hw. apply list_elem_of_lookup_2 in Hb.
    specialize (Hall _ Hb). specialize (Hw _ Hb). unfold well_formed in *. lia.
  - eapply (IH Hw i j); eauto. lia.
Qed.

Lemma separated_unique l :
  separated l → ∀ i j a b x, l !! i = Some a → l !! j = Some b →
  in_range x a → in_range x b → i = j.
Proof.
  intros Hs. induction Hs as [|y l Hs IH Hall]; intros i j a b x Ha Hb Hia Hib; [done|].
  rewrite list.Forall_forall in Hall.
  destruct i as [|i], j as [|j]; simpl in *; simplify_eq; [done|..].
  - apply list_elem_of_lookup_2, Hall in Hb. unfold in_range in *. lia.
  - apply list_elem_of_lookup_2, Hall in Ha. unfold in_range in *. lia.
  - f_equal. eauto.
Qed.

(** The binary search finds the window holding a piece, when the list is
    separated and no window is empty. *)
Lemma inRanges_separated l ind :
  separated l → Forall well_formed l → inRanges l ind = true ↔ covered l ind.
Proof.
  intros Hs Hw. unfold inRanges.
  set (f := λ i, match l !! i with Some r => ind <=? End r | None => false end).
  assert (Hm : monotone (length l) f).
  { intros i j Hij. unfold f. destruct (l !! i) as [a|] eqn:Ea; [|done].
    destruct (lookup_lt_is_Some_2 l j ltac:(lia)) as [b Hb]. rewrite Hb.
    rewrite !Z.leb_le. pose proof (separated_ends_mono l Hs Hw i j a b ltac:(lia) Ea Hb). lia. }
  destruct (sort_search_spec _ _ Hm) as (Hle & Hbelow & Habove).
  set (k := sort_search (length l) f) in *. split.
  - destruct (l !! k) as [r|] eqn:Ek; [|done]. intros Hst%Z.leb_le.
    exists r. split; [by eapply list_elem_of_lookup_2|]. split; [done|].
    specialize (Habove k ltac:(apply lookup_lt_Some in Ek; lia)).
    unfold f in Habove. rewrite Ek in Habove. by apply Z.leb_le.
  - intros (r & [j Hj]%list_elem_of_lookup & Hr).
    assert (Hfj : f j = true). { unfold f. rewrite Hj. apply Z.leb_le. apply Hr. }
    assert (k ≤ j)%nat as Hkj.
    { destruct (decide (j < k)%nat) as [Hlt|]; [|lia]. by rewrite Hbelow in Hfj. }
    destruct (lookup_lt_is_Some_2 l k) as [b Hb].
    { apply lookup_lt_Some in Hj. lia. }
    rewrite Hb. apply Z.leb_le.
    destruct (decide (k = j)) as [->|Hne]; [simplify_eq; apply Hr|].
    specialize (Habove k ltac:(apply lookup_lt_Some in Hb; lia)).
    unfold f in Habove. rewrite Hb in Habove. bool_simpl.
    assert (Start b ≤ End b) by (eapply (Forall_lookup_1 _ _ _ _ Hw Hb)).
    assert (End b < Start r).
    { eapply (sorted_lookup _ _ Hs k j); eauto. lia. }
    unfold in_range in Hr. lia.
Qed.
End merge.

Section fill.
Lemma mark_loop_spec n dst i :
  0 ≤ i → i + Z.of_nat n ≤ len dst →
  ∃ d, mark_loop dst i n = Some d ∧ len d = len dst ∧
    ∀ k, 0 ≤ k < len dst →
      d !! Z.to_nat k =
        if decide (i ≤ k < i + Z.of_nat n) then Some true else dst !! Z.to_nat k.
Proof.
  revert dst i. induction n as [|n IH]; intros dst i Hi Hn; simpl.
  { eexists. split; [done|]. split; [done|]. intros. by rewrite decide_False by lia. }
  unfold store at 1. rewrite decide_True by lia. simpl.
  assert (Hl : len (<[Z.to_nat i:=true]> dst) = len dst) by (unfold len; by rewrite length_insert).
  destruct (IH (<[Z.to_nat i:=true]> dst) (i + 1)) as (d & -> & Hd & Hk); [lia|lia|].
  exists d. split; [done|]. split; [lia|]. intros k Hkl. rewrite Hk by lia.
  destruct (decide (k = i)) as [->|].
  - rewrite decide_False by lia. rewrite decide_True by lia.
    apply list_lookup_insert_eq. unfold len in *. lia.
  - case_decide; case_decide; try done; [lia..|].
    apply list_lookup_insert_ne. lia.
Qed.

(** One window marks exactly its pieces and never leaves the slice. *)
Lemma mark_range_spec dst rng :
  in_i64 (len dst) →
  ∃ d, mark_range (len dst) dst rng = Some d ∧ len d = len dst ∧
    ∀ k, 0 ≤ k < len dst →
      d !! Z.to_nat k = if decide (in_range k rng) then Some true else dst !! Z.to_nat k.
Proof.
  intros Hin. unfold mark_range. pose proof (len_nonneg dst).
  assert (Hdec : ∀ lo hi k, 0 ≤ k < len dst → (lo ≤ k ≤ hi ↔ in_range k rng) →
    (if decide (lo ≤ k < lo + Z.of_nat (Z.to_nat (hi + 1 - lo))) then Some true
     else dst !! Z.to_nat k)
    = if decide (in_range k rng) then Some true else dst !! Z.to_nat k).
  { intros lo hi k Hk Hiff. unfold in_range in *. repeat case_decide; try done; exfalso; lia. }
  repeat case_if; bool_simpl; rewrite ?i64_id by (unfold in_i64 in *; lia);
    match goal with
    | |- context [mark_loop _ ?lo ?n] =>
        destruct (decide (lo + Z.of_nat n ≤ len dst)) as [Hle|Hgt];
        [ destruct (mark_loop_spec n dst lo) as (d & -> & Hd & Hk); [lia|lia|];
          exists d; split; [done|]; split; [done|]; intros k Hkl; rewrite Hk by done;
          apply Hdec; [done|]; unfold in_range; lia
        | idtac ]
    end.
  all: match goal with
    | |- context [mark_loop _ ?lo (Z.to_nat ?n)] =>
        assert (Hz : Z.to_nat n = O) by lia; rewrite Hz; simpl; exists dst;
        split; [done|]; split; [done|]; intros k Hkl; unfold in_range;
        rewrite decide_False by lia; done
    end.
Qed.

Lemma fill_fold_spec ranges dst :
  in_i64 (len dst) →
  ∃ d, foldl (λ acc rng, d ← acc; mark_range (len dst) d rng) (Some dst) ranges = Some d ∧
    len d = len dst ∧
    ∀ k, 0 ≤ k < len dst →
      (d !! Z.to_nat k = Some true ↔ dst !! Z.to_nat k = Some true ∨ covered ranges k).
Proof.
  revert dst. induction ranges as [|rng ranges IH]; intros dst Hin; simpl.
  { exists dst. split; [done|]. split; [done|]. intros. rewrite covered_nil. naive_solver. }
  destruct (mark_range_spec dst rng Hin) as (d & -> & Hd & Hk).
  rewrite <-Hd in Hin |- *.
  destruct (IH d Hin) as (d' & -> & Hd' & Hk'). exists d'.
  split; [done|]. split; [done|]. intros k Hkl.
  rewrite Hk' by done. rewrite Hk by lia. rewrite covered_cons.
  case_decide; naive_solver.
Qed.
End fill.

Lemma mergeRange_cover `{GoRuntime} ranges : same_cover (mergeRange ranges) ranges.
Proof.
  destruct (decide (1 < len ranges)) as [Hl|Hl].
  - destruct (mergeRange_long ranges Hl) as (r & rest & Es & ->).
    pose proof (sorted_starts ranges) as Hs. rewrite Es in Hs.
    apply StronglySorted_cons in Hs as [Hle Hs].
    rewrite merge_loop_cover by done. apply same_cover_perm.
    rewrite <-Es. apply sort_slice_perm.
  - unfold mergeRange. case_if; [done|lia].
Qed.

Lemma mergeRange_separated `{GoRuntime} ranges : separated (mergeRange ranges).
Proof.
  destruct (decide (1 < len ranges)) as [Hl|Hl].
  - destruct (mergeRange_long ranges Hl) as (r & rest & Es & ->).
    pose proof (sorted_starts ranges) as Hs. rewrite Es in Hs.
    apply StronglySorted_cons in Hs as [Hle Hs]. by apply merge_loop_separated.
  - unfold mergeRange. case_if; [|lia].
    destruct ranges as [|r [|r' l]]; [constructor|repeat constructor|].
    exfalso. rewrite !len_cons in Hl. pose proof (len_nonneg l). lia.
Qed.

Lemma mergeRange_wf `{GoRuntime} ranges :
  Forall well_formed ranges → Forall well_formed (mergeRange ranges).
Proof.
  intros Hw. destruct (decide (1 < len ranges)) as [Hl|Hl].
  - destruct (mergeRange_long ranges Hl) as (r & rest & Es & ->).
    apply merge_loop_wf. rewrite <-Es. by rewrite sort_slice_perm.
  - unfold mergeRange. case_if; [done|lia].
Qed.

(** The cache asks [inRanges] only of merged windows. *)
Lemma inRanges_merged `{GoRuntime} ranges ind :
  Forall well_formed ranges → inRanges (mergeRange ranges) ind = true ↔ covered ranges ind.
Proof.
  intros Hw. rewrite inRanges_separated.
  - by rewrite mergeRange_cover.
  - apply mergeRange_separated.
  - by apply mergeRange_wf.
Qed.

(** ** Properties *)

(** [mergeRange] covers exactly the pieces its argument covers, and its
    result is sorted with pairwise disjoint windows, whatever order [sort.Slice]
    leaves equal windows in. *)
Theorem mergeRange_correct `{GoRuntime} ranges :
  same_cover (mergeRange ranges) ranges ∧ separated (mergeRange ranges).
Proof. split; [apply mergeRange_cover|apply mergeRange_separated]. Qed.

(** on merged windows that each hold at least one piece, the binary search
    of [inRanges] answers exactly whether some reader's window holds the piece. *)
Theorem inRanges_mergeRange `{GoRuntime} ranges ind :
  Forall well_formed ranges → inRanges (mergeRange ranges) ind = true ↔ covered ranges ind.
Proof. apply inRanges_merged. Qed.

Definition sample_ranges : list Range :=
  [mkRange 10 20 (mkTFile 0 100); mkRange 3 7 (mkTFile 0 100); mkRange 18 25 (mkTFile 0 100)].

Lemma inRanges_mergeRange_witness :
  inRanges (mergeRange sample_ranges) 22 = true ↔ covered sample_ranges 22.
Proof.
  apply inRanges_mergeRange. repeat constructor; unfold well_formed; simpl; lia.
Defined.

Lemma fillPieceInRange_spec dst ranges :
  in_i64 (len dst) →
  ∃ d, fillPieceInRange dst ranges (len dst) = Some d ∧ len d = len dst ∧
    ∀ k, 0 ≤ k < len dst → (d !! Z.to_nat k = Some true ↔ covered ranges k).
Proof.
  intros Hin. unfold fillPieceInRange.
  assert (Hr : len (replicate (length dst) false) = len dst)
    by (unfold len; by rewrite length_replicate).
  rewrite <-Hr in Hin |- *.
  destruct (fill_fold_spec ranges _ Hin) as (d & Ed & Hd & Hk).
  exists d. split; [done|]. split; [lia|]. intros k Hkl. rewrite Hk by lia.
  rewrite lookup_replicate. naive_solver.
Qed.

(** [fillPieceInRange] never indexes outside the bitmap, resets it, and
    marks exactly the pieces some window covers, malformed windows included. *)
Theorem fillPieceInRange_exact dst ranges :
  in_i64 (len dst) →
  ∃ d, fillPieceInRange dst ranges (len dst) = Some d ∧ len d = len dst ∧
    ∀ k, 0 ≤ k < len dst → (d !! Z.to_nat k = Some true ↔ covered ranges k).
Proof. apply fillPieceInRange_spec. Qed.

Lemma fillPieceInRange_exact_witness :
  ∃ d, fillPieceInRange [true; true; true; true; true] [mkRange (-2) 1 (mkTFile 0 9); mkRange 4 9 (mkTFile 0 9)]
         (len [true; true; true; true; true]) = Some d ∧ len d = 5 ∧
    ∀ k, 0 ≤ k < 5 → (d !! Z.to_nat k = Some true ↔
      covered [mkRange (-2) 1 (mkTFile 0 9); mkRange 4 9 (mkTFile 0 9)] k).
Proof. apply (fillPieceInRange_exact [true; true; true; true; true]). unfold in_i64, len; simpl. lia. Defined.

Example fillPieceInRange_sample :
  fillPieceInRange [true; true; true; true; true]
    [mkRange (-2) 1 (mkTFile 0 9); mkRange 4 9 (mkTFile 0 9)] 5
  = Some [true; true; false; false; true].
Proof. reflexivity. Qed.

(** [pieceBudgetCount] only ever lowers the prefetch count, keeps at least
    one piece of a non-empty count, and a count above one pins at most
    [prefetchBudgetPct] percent of the cache. *)
Theorem pieceBudgetCount_bounds count capacity pieceLength :
  0 < capacity → capacity * 40 ≤ max_i64 → 0 < pieceLength →
  let n := pieceBudgetCount count capacity pieceLength in
  n ≤ count ∧ (1 ≤ count → 1 ≤ n) ∧ (1 < n → n * pieceLength * 100 ≤ capacity * prefetchBudgetPct).
Proof.
  intros Hc Hov Hp. simpl. unfold pieceBudgetCount, prefetchBudgetPct, max_i64 in *.
  destruct (Z.leb_spec count 1); [simpl; lia|].
  destruct (Z.leb_spec capacity 0); [simpl; lia|].
  destruct (Z.leb_spec pieceLength 0); [simpl; lia|]. simpl.
  rewrite (i64_id (capacity * 40)) by (unfold in_i64; lia).
  pose proof (quot_nonneg (capacity * 40) 100 ltac:(lia) ltac:(lia)) as Hq1.
  pose proof (quot_mul_le (capacity * 40) 100 ltac:(lia) ltac:(lia)) as Hq1'.
  rewrite (i64_id (Z.quot (capacity * 40) 100)) by (unfold in_i64; lia).
  set (q := Z.quot (capacity * 40) 100) in *.
  pose proof (quot_nonneg q pieceLength ltac:(lia) ltac:(lia)) as Hq2.
  pose proof (quot_mul_le q pieceLength ltac:(lia) ltac:(lia)) as Hq2'.
  rewrite (i64_id (Z.quot q pieceLength)) by (unfold in_i64; lia).
  set (m := Z.quot q pieceLength) in *. clearbody q m.
  assert (Hmul : ∀ n, n ≤ m → n * pieceLength ≤ pieceLength * m) by (intros; nia).
  pose proof (Hmul m ltac:(lia)).
  destruct (Z.ltb_spec m 1), (Z.ltb_spec m count); repeat case_if; split_and!; try lia;
    intros Hn; specialize (Hmul count); lia.
Qed.

Lemma pieceBudgetCount_bounds_witness :
  let n := pieceBudgetCount 25 134217728 4194304 in
  n ≤ 25 ∧ (1 ≤ 25 → 1 ≤ n) ∧ (1 < n → n * 4194304 * 100 ≤ 134217728 * prefetchBudgetPct).
Proof. apply pieceBudgetCount_bounds; unfold max_i64; lia. Defined.

(** The production configuration of the comment on [prefetchBudgetPct]: a
    128 MB cache of 4 MB pieces keeps the count of 12. *)
Example pieceBudgetCount_production : pieceBudgetCount 25 134217728 4194304 = 12.
Proof. reflexivity. Qed.

(** the readahead of one reader never exceeds the whole-cache readahead,
    keeps the 8 MiB floor when the total allows it, and whenever the floor fits
    every reader the shares together stay within the total. *)
Theorem perReaderReadahead_bounds total readers :
  0 ≤ total ≤ max_i64 → readers ≤ max_i64 →
  let ra := perReaderReadahead total readers in
  0 ≤ ra ≤ total ∧ (minPerReaderReadahead ≤ total → minPerReaderReadahead ≤ ra) ∧
  (1 ≤ readers → minPerReaderReadahead * readers ≤ total → ra * readers ≤ total).
Proof.
  intros Ht Hr. simpl. unfold perReaderReadahead, max_i64 in *.
  change minPerReaderReadahead with 8388608.
  set (n := if readers <? 1 then 1 else readers).
  assert (Hn : 1 ≤ n ∧ (1 ≤ readers → n = readers)).
  { unfold n. destruct (Z.ltb_spec readers 1); lia. }
  pose proof (quot_nonneg total n ltac:(lia) ltac:(lia)).
  pose proof (quot_mul_le total n ltac:(lia) ltac:(lia)).
  pose proof (quot_mul_gt total n ltac:(lia) ltac:(lia)).
  rewrite (i64_id (Z.quot total n)) by (unfold in_i64; lia).
  set (q := Z.quot total n) in *. clearbody q n.
  assert (Hlow : q < 8388608 → n * (q + 1) ≤ n * 8388608) by (intros; nia).
  destruct (Z.ltb_spec q 8388608); case_if; split_and!; try lia; intros Hr1 Hfit;
    rewrite <-(proj2 Hn Hr1) in *; lia.
Qed.

Lemma perReaderReadahead_bounds_witness :
  let ra := perReaderReadahead 134217728 3 in
  0 ≤ ra ≤ 134217728 ∧ (minPerReaderReadahead ≤ 134217728 → minPerReaderReadahead ≤ ra) ∧
  (1 ≤ 3 → minPerReaderReadahead * 3 ≤ 134217728 → ra * 3 ≤ 134217728).
Proof. apply perReaderReadahead_bounds; unfold max_i64; lia. Defined.
