(* ===== verification/GoFloat.v ===== *)
(** * Go's float64 on the operations the program uses

    [float64] is IEEE 754 binary64 with round-to-nearest-even; the operations
    are those of [SpecFloat] at precision 53 and maximal exponent 1024, which
    compute.  [f_to_i64] is the conversion [int64(f)]: truncation toward zero,
    and the run time's choice when the value does not fit.

    The lemmas bound the rounding error of a product and of a quotient of
    positive numbers of ordinary size by the factor [1 + 2^-51], on integers
    scaled by [2^scale]. *)

From S2P Require Import Prelude.
From Stdlib Require Export SpecFloat.

Abbreviation float64 := spec_float.

Definition f_prec : Z := 53.
Definition f_emax : Z := 1024.

Definition f_of_int (z : Z) : float64 := binary_normalize f_prec f_emax z 0 false.
Definition f_mul (x y : float64) : float64 := SFmul f_prec f_emax x y.
Definition f_div (x y : float64) : float64 := SFdiv f_prec f_emax x y.
Definition f_add (x y : float64) : float64 := SFadd f_prec f_emax x y.
Definition f_ltb (x y : float64) : bool := SFltb x y.
Definition f_leb (x y : float64) : bool := SFleb x y.
Definition f_eqb (x y : float64) : bool := SFeqb x y.
Definition f_zero : float64 := S754_zero false.

(** The integer part of a finite value. *)
Definition f_trunc (f : float64) : option Z :=
  match f with
  | S754_zero _ => Some 0
  | S754_finite s m e =>
      let v := if 0 <=? e then Zpos m * 2 ^ e else Zpos m / 2 ^ (- e) in
      Some (if s then - v else v)
  | _ => None
  end.

Definition f_to_i64 `{GoRuntime} (f : float64) : Z :=
  match f_trunc f with
  | Some z => if (min_i64 <=? z) && (z <=? max_i64) then z else conv_overflow f
  | None => conv_overflow f
  end.

(** ** Values of positive finite numbers, scaled to integers *)

Definition scale : Z := 1200.

Definition normal (m : positive) : Prop := 2 ^ 52 ≤ Zpos m < 2 ^ 53.

(** [fpos E f v]: [f] is a positive normal number whose exponent is at most [E]
    in absolute value, and its value is [v / 2^scale]. *)
Definition fpos (E : Z) (f : float64) (v : Z) : Prop :=
  ∃ m e, f = S754_finite false m e ∧ normal m ∧ - E ≤ e ≤ E ∧ v = Zpos m * 2 ^ (e + scale).

Section digits.
Lemma digits2_pos_bounds m :
  2 ^ (Zpos (digits2_pos m) - 1) ≤ Zpos m < 2 ^ Zpos (digits2_pos m).
Proof.
  induction m as [m IH|m IH|]; simpl digits2_pos; [| |simpl; lia].
  - rewrite Pos2Z.inj_succ.
    replace (Z.succ (Zpos (digits2_pos m)) - 1) with (Z.succ (Zpos (digits2_pos m) - 1)) by lia.
    rewrite !Z.pow_succ_r by lia. lia.
  - rewrite Pos2Z.inj_succ.
    replace (Z.succ (Zpos (digits2_pos m)) - 1) with (Z.succ (Zpos (digits2_pos m) - 1)) by lia.
    rewrite !Z.pow_succ_r by lia. lia.
Qed.

Lemma Zdigits2_bounds m : 0 < m → 2 ^ (Zdigits2 m - 1) ≤ m < 2 ^ Zdigits2 m.
Proof. destruct m; [lia| |lia]. intros _. apply digits2_pos_bounds. Qed.

Lemma Zdigits2_pos m : 0 < m → 0 < Zdigits2 m.
Proof. destruct m; simpl; lia. Qed.

Lemma Zdigits2_le m k : 0 < m → m < 2 ^ k → Zdigits2 m ≤ k.
Proof.
  intros Hm Hk. destruct (Zdigits2_bounds m Hm) as [Hlo _].
  pose proof (Zdigits2_pos m Hm).
  destruct (decide (Zdigits2 m ≤ k)); [done|]. exfalso.
  assert (2 ^ k ≤ 2 ^ (Zdigits2 m - 1)) by (apply Z.pow_le_mono_r; lia). lia.
Qed.
End digits.

Section shift.
Lemma shr_1_m mrs : 0 ≤ shr_m mrs → shr_m (shr_1 mrs) = shr_m mrs / 2.
Proof.
  destruct mrs as [m r s]; simpl. destruct m as [|[p|p|]|p]; intros; try lia; simpl.
  - done.
  - rewrite <-(Z.div_unique (Zpos p~1) 2 (Zpos p) 1); lia.
  - rewrite <-(Z.div_unique (Zpos p~0) 2 (Zpos p) 0); lia.
  - done.
Qed.

Lemma iter_pos_m p mrs :
  0 ≤ shr_m mrs → shr_m (iter_pos shr_1 p mrs) = shr_m mrs / 2 ^ Zpos p.
Proof.
  revert mrs. induction p as [p IH|p IH|]; intros mrs Hm; simpl iter_pos.
  - assert (H0 : 0 ≤ shr_m (shr_1 mrs)) by (rewrite shr_1_m by done; apply Z.div_pos; lia).
    assert (H1 : 0 ≤ shr_m (iter_pos shr_1 p (shr_1 mrs))).
    { rewrite IH by done. apply Z.div_pos; lia. }
    rewrite (IH _ H1), (IH _ H0), shr_1_m by done.
    rewrite !Z.div_div by lia. f_equal.
    replace (Zpos p~1) with (1 + Zpos p + Zpos p) by lia.
    rewrite !Z.pow_add_r by lia. lia.
  - assert (H0 : 0 ≤ shr_m (iter_pos shr_1 p mrs)).
    { rewrite IH by done. apply Z.div_pos; lia. }
    rewrite (IH _ H0), (IH _ Hm), Z.div_div by lia. f_equal.
    replace (Zpos p~0) with (Zpos p + Zpos p) by lia.
    rewrite Z.pow_add_r by lia. lia.
  - by rewrite shr_1_m.
Qed.

Lemma shr_m_of_loc m l : shr_m (shr_record_of_loc m l) = m.
Proof. by destruct l as [|[]]. Qed.

Lemma shr_spec mrs e n :
  0 ≤ shr_m mrs →
  shr_m (fst (shr mrs e n)) = shr_m mrs / 2 ^ Z.max 0 n ∧ snd (shr mrs e n) = e + Z.max 0 n.
Proof.
  intros Hm. destruct n as [|p|p]; simpl.
  - split; [by rewrite Z.div_1_r|lia].
  - split; [by rewrite iter_pos_m|lia].
  - split; [by rewrite Z.div_1_r|lia].
Qed.

Lemma round_ne_bounds m l : m ≤ round_nearest_even m l ≤ m + 1.
Proof. destruct l as [|[]]; simpl; try lia. destruct (Z.even m); lia. Qed.

Lemma round_ne_exact m : round_nearest_even m loc_Exact = m.
Proof. done. Qed.
End shift.

Section rounding.
Definition f_fexp (e : Z) : Z := Z.max (e - 53) (-1074).

Lemma fexp_eq e : fexp f_prec f_emax e = f_fexp e.
Proof. done. Qed.

(** What one rounding step does to an integer mantissa: with [n] the number of
    bits dropped, the result lies within one unit of the quotient. *)
Lemma shr_fexp_spec m e l :
  0 < m →
  let n := Z.max 0 (f_fexp (Zdigits2 m + e) - e) in
  shr_m (fst (shr_fexp f_prec f_emax m e l)) = m / 2 ^ n ∧
  snd (shr_fexp f_prec f_emax m e l) = e + n.
Proof.
  intros Hm. unfold shr_fexp. rewrite fexp_eq.
  destruct (shr_spec (shr_record_of_loc m l) e (f_fexp (Zdigits2 m + e) - e)) as [H1 H2].
  { rewrite shr_m_of_loc. lia. }
  rewrite shr_m_of_loc in H1. done.
Qed.

(** A mantissa of at most [2^53] survives the second rounding step exactly. *)
Lemma shr_fexp_small m e :
  2 ^ 52 ≤ m ≤ 2 ^ 53 → -1074 ≤ e →
  let r := shr_fexp f_prec f_emax m e loc_Exact in
  shr_m (fst r) * 2 ^ (snd r - e) = m ∧ e ≤ snd r ≤ e + 1 ∧
  2 ^ 52 ≤ shr_m (fst r) < 2 ^ 53.
Proof.
  intros Hm He r. destruct (shr_fexp_spec m e loc_Exact ltac:(lia)) as [H1 H2].
  fold r in H1, H2. rewrite H1, H2. unfold f_fexp in *.
  destruct (decide (m = 2 ^ 53)) as [->|Hne].
  - change (Zdigits2 (2 ^ 53)) with 54 in *.
    replace (Z.max 0 (Z.max (54 + e - 53) (-1074) - e)) with 1 by lia.
    replace (e + 1 - e) with 1 by lia. change (2 ^ 53 / 2 ^ 1) with (2 ^ 52). lia.
  - assert (Zdigits2 m ≤ 53) by (apply Zdigits2_le; lia).
    replace (Z.max 0 (Z.max (Zdigits2 m + e - 53) (-1074) - e)) with 0 by lia.
    replace (e + 0 - e) with 0 by lia. rewrite Z.div_1_r. lia.
Qed.

(** Rounding a positive mantissa of at least 53 bits to nearest: the result is
    finite, positive and normal, and its value exceeds the argument's by at
    most the weight [2^n] of the last bit kept. *)
Lemma round_aux_spec m e l :
  0 < m → 53 ≤ Zdigits2 m → -1074 ≤ e → Zdigits2 m + e ≤ 900 →
  let n := Zdigits2 m - 53 in
  ∃ m' e', binary_round_aux f_prec f_emax false m e l = S754_finite false m' e' ∧
    normal m' ∧ e + n ≤ e' ≤ e + n + 1 ∧ Zpos m' * 2 ^ (e' - e) ≤ m + 2 ^ n.
Proof.
  intros Hm H53 He Hd n. unfold binary_round_aux.
  destruct (shr_fexp_spec m e l Hm) as [H1 H2].
  assert (Hn : Z.max 0 (f_fexp (Zdigits2 m + e) - e) = n) by (unfold f_fexp, n; lia).
  rewrite Hn in H1, H2. destruct (shr_fexp f_prec f_emax m e l) as [mrs e1]. simpl in H1, H2.
  set (m1 := round_nearest_even _ _).
  assert (Hm1 : m / 2 ^ n ≤ m1 ≤ m / 2 ^ n + 1).
  { unfold m1. pose proof (round_ne_bounds (shr_m mrs) (loc_of_shr_record mrs)). lia. }
  assert (Hpn : 0 < 2 ^ n) by (apply Z.pow_pos_nonneg; lia).
  assert (Hdiv : m / 2 ^ n * 2 ^ n ≤ m) by (rewrite Z.mul_comm; by apply Z.mul_div_le).
  destruct (Zdigits2_bounds m Hm) as [Hlo Hhi].
  assert (Hq : 2 ^ 52 ≤ m / 2 ^ n).
  { apply Z.div_le_lower_bound; [lia|]. rewrite <-Z.pow_add_r by lia.
    by replace (n + 52) with (Zdigits2 m - 1) by lia. }
  assert (Hq53 : m / 2 ^ n < 2 ^ 53).
  { apply Z.div_lt_upper_bound; [lia|]. rewrite <-Z.pow_add_r by lia.
    by replace (n + 53) with (Zdigits2 m) by lia. }
  subst e1. destruct (shr_fexp_small m1 (e + n)) as (Hx & Hy & Hz); [lia|lia|].
  destruct (shr_fexp f_prec f_emax m1 (e + n) loc_Exact) as [mrs2 e2]. simpl in Hx, Hy, Hz.
  destruct (shr_m mrs2) as [|m2|m2] eqn:E2; [lia| |lia].
  rewrite (proj2 (Z.leb_le e2 (f_emax - f_prec))) by (unfold f_emax, f_prec; lia).
  exists m2, e2. split; [done|]. split; [done|]. split; [lia|].
  replace (e2 - e) with (e2 - (e + n) + n) by lia.
  rewrite Z.pow_add_r by lia. nia.
Qed.

(** The weight of the last bit is at most [2^-52] of the value. *)
Lemma round_aux_rel m e l :
  0 < m → 53 ≤ Zdigits2 m → -1074 ≤ e → Zdigits2 m + e ≤ 900 →
  ∃ m' e', binary_round_aux f_prec f_emax false m e l = S754_finite false m' e' ∧
    normal m' ∧ e ≤ e' ≤ e + Zdigits2 m - 52 ∧
    Zpos m' * 2 ^ (e' - e) * 2 ^ 52 ≤ m * (2 ^ 52 + 1).
Proof.
  intros Hm H53 He Hd. destruct (round_aux_spec m e l Hm H53 He Hd) as (m' & e' & Heq & Hnm & He' & Hv).
  exists m', e'. split; [done|]. split; [done|]. split; [lia|].
  destruct (Zdigits2_bounds m Hm) as [Hlo _].
  assert (2 ^ (Zdigits2 m - 53) * 2 ^ 52 ≤ m).
  { rewrite <-Z.pow_add_r by lia. by replace (Zdigits2 m - 53 + 52) with (Zdigits2 m - 1) by lia. }
  nia.
Qed.

Lemma normal_digits m : normal m → digits2_pos m = 53%positive.
Proof.
  intros [Hlo Hhi]. pose proof (digits2_pos_bounds m) as [Hl Hh].
  assert (Zpos (digits2_pos m) ≤ 53).
  { change (Zpos (digits2_pos m)) with (Zdigits2 (Zpos m)). apply Zdigits2_le; lia. }
  assert (53 ≤ Zpos (digits2_pos m)); [|lia].
  destruct (decide (53 ≤ Zpos (digits2_pos m))); [done|].
  assert (2 ^ Zpos (digits2_pos m) ≤ 2 ^ 52) by (apply Z.pow_le_mono_r; lia). lia.
Qed.

Lemma fpos_pow e : -1100 ≤ e → 0 < 2 ^ (e + scale).
Proof. intros. apply Z.pow_pos_nonneg; unfold scale; lia. Qed.

Lemma f_mul_fpos E1 E2 x y vx vy :
  fpos E1 x vx → fpos E2 y vy → 0 ≤ E1 → 0 ≤ E2 → E1 + E2 ≤ 700 →
  ∃ v, fpos (E1 + E2 + 60) (f_mul x y) v ∧
    v * 2 ^ scale * 2 ^ 52 ≤ vx * vy * (2 ^ 52 + 1).
Proof.
  intros (m1 & e1 & -> & Hm1 & He1 & ->) (m2 & e2 & -> & Hm2 & He2 & ->) HE1 HE2 HE.
  unfold f_mul; simpl.
  assert (Hlow : 2 ^ 104 ≤ Zpos m1 * Zpos m2) by (unfold normal in *; nia).
  assert (Hup : Zpos m1 * Zpos m2 < 2 ^ 106) by (unfold normal in *; nia).
  assert (Hdig : 53 ≤ Zdigits2 (Zpos (m1 * m2)) ≤ 106).
  { rewrite Pos2Z.inj_mul. split; [|apply Zdigits2_le; lia].
    destruct (Zdigits2_bounds (Zpos m1 * Zpos m2)) as [_ Hh]; [lia|].
    destruct (decide (53 ≤ Zdigits2 (Zpos m1 * Zpos m2))); [done|].
    assert (2 ^ Zdigits2 (Zpos m1 * Zpos m2) ≤ 2 ^ 53) by (apply Z.pow_le_mono_r; lia). lia. }
  destruct (round_aux_rel (Zpos (m1 * m2)) (e1 + e2) loc_Exact)
    as (m' & e' & -> & Hn & He' & Hv); [lia..|].
  eexists. split; [exists m', e'; split; [done|]; split; [done|]; split; [lia|done]|].
  replace (e' + scale) with ((e' - (e1 + e2)) + (e1 + e2 + scale)) by lia.
  rewrite Z.pow_add_r by (unfold scale; lia).
  replace (Zpos m1 * 2 ^ (e1 + scale) * (Zpos m2 * 2 ^ (e2 + scale)))
    with (Zpos m1 * Zpos m2 * (2 ^ (e1 + e2 + scale) * 2 ^ scale)).
  2:{ rewrite <-Z.pow_add_r by (unfold scale; lia).
      replace (e1 + e2 + scale + scale) with ((e1 + scale) + (e2 + scale)) by lia.
      rewrite Z.pow_add_r by (unfold scale; lia). lia. }
  pose proof (fpos_pow (e1 + e2) ltac:(lia)). pose proof (fpos_pow 0 ltac:(lia)).
  rewrite Pos2Z.inj_mul in Hv. change (0 + scale) with scale in *.
  set (P := 2 ^ (e1 + e2 + scale)) in *. set (Q := 2 ^ scale) in *.
  set (D := 2 ^ (e' - (e1 + e2))) in *. clearbody P Q D.
  replace (Zpos m' * (D * P) * Q * 2 ^ 52) with (Zpos m' * D * 2 ^ 52 * (P * Q)) by lia.
  replace (Zpos m1 * Zpos m2 * (P * Q) * (2 ^ 52 + 1))
    with (Zpos m1 * Zpos m2 * (2 ^ 52 + 1) * (P * Q)) by lia.
  apply Z.mul_le_mono_nonneg_r; nia.
Qed.

Lemma SFdiv_core_normal m1 e1 m2 e2 :
  normal m1 → normal m2 → -900 ≤ e1 - e2 →
  ∃ l, SFdiv_core_binary f_prec f_emax (Zpos m1) e1 (Zpos m2) e2
       = (Zpos m1 * 2 ^ 53 / Zpos m2, e1 - e2 - 53, l).
Proof.
  intros H1 H2 He. unfold SFdiv_core_binary, Zdigits2.
  rewrite !normal_digits by done. rewrite fexp_eq. unfold f_fexp.
  replace (Z.min (Z.max (53 + e1 - (53 + e2) - 53) (-1074)) (e1 - e2))
    with (e1 - e2 - 53) by lia.
  replace (e1 - e2 - (e1 - e2 - 53)) with 53 by lia.
  rewrite Z.shiftl_mul_pow2 by lia.
  pose proof (Z_div_mod_eq_full (Zpos m1 * 2 ^ 53) (Zpos m2)) as _.
  unfold Z.div at 1. destruct (Z.div_eucl (Zpos m1 * 2 ^ 53) (Zpos m2)) as [q r].
  eauto.
Qed.

Lemma f_div_fpos E1 E2 x y vx vy :
  fpos E1 x vx → fpos E2 y vy → 0 ≤ E1 → 0 ≤ E2 → E1 + E2 ≤ 700 →
  ∃ v, fpos (E1 + E2 + 60) (f_div x y) v ∧
    v * vy * 2 ^ 52 ≤ vx * 2 ^ scale * (2 ^ 52 + 1).
Proof.
  intros (m1 & e1 & -> & Hm1 & He1 & ->) (m2 & e2 & -> & Hm2 & He2 & ->) HE1 HE2 HE.
  unfold f_div; simpl SFdiv.
  destruct (SFdiv_core_normal m1 e1 m2 e2 Hm1 Hm2) as [l ->]; [lia|].
  set (q := Zpos m1 * 2 ^ 53 / Zpos m2).
  assert (Hqm : q * Zpos m2 ≤ Zpos m1 * 2 ^ 53).
  { unfold q. rewrite Z.mul_comm. by apply Z.mul_div_le. }
  assert (Hlow : 2 ^ 52 ≤ q).
  { unfold q. apply Z.div_le_lower_bound; [lia|]. unfold normal in *. nia. }
  assert (Hup : q < 2 ^ 54).
  { unfold q. apply Z.div_lt_upper_bound; [lia|]. unfold normal in *. nia. }
  assert (Hdig : 53 ≤ Zdigits2 q ≤ 54).
  { split; [|apply Zdigits2_le; lia].
    destruct (Zdigits2_bounds q) as [_ Hh]; [lia|].
    destruct (decide (53 ≤ Zdigits2 q)); [done|].
    assert (2 ^ Zdigits2 q ≤ 2 ^ 52) by (apply Z.pow_le_mono_r; lia). lia. }
  destruct (round_aux_rel q (e1 - e2 - 53) l) as (m' & e' & -> & Hn & He' & Hv); [lia..|].
  eexists. split; [exists m', e'; split; [done|]; split; [done|]; split; [lia|done]|].
  replace (e' + scale) with ((e' - (e1 - e2 - 53)) + (e1 - e2 - 53 + scale)) by lia.
  rewrite Z.pow_add_r by (unfold scale; lia).
  assert (HP : 2 ^ (e1 - e2 - 53 + scale) * 2 ^ (e2 + scale) * 2 ^ 53
               = 2 ^ (e1 + scale) * 2 ^ scale).
  { rewrite <-!Z.pow_add_r by (unfold scale; lia). f_equal. lia. }
  pose proof (fpos_pow (e1 - e2 - 53) ltac:(lia)). pose proof (fpos_pow e2 ltac:(lia)).
  set (P := 2 ^ (e1 - e2 - 53 + scale)) in *. set (Q := 2 ^ (e2 + scale)) in *.
  set (R := 2 ^ (e1 + scale) * 2 ^ scale) in *.
  set (D := 2 ^ (e' - (e1 - e2 - 53))) in *.
  replace (Zpos m1 * 2 ^ (e1 + scale) * 2 ^ scale * (2 ^ 52 + 1))
    with (Zpos m1 * (2 ^ 52 + 1) * R) by (unfold R; lia).
  clearbody P Q R D q. rewrite <-HP.
  replace (Zpos m' * (D * P) * (Zpos m2 * Q) * 2 ^ 52)
    with (Zpos m' * D * 2 ^ 52 * (Zpos m2 * (P * Q))) by lia.
  transitivity (q * (2 ^ 52 + 1) * (Zpos m2 * (P * Q))).
  { apply Z.mul_le_mono_nonneg_r; nia. }
  replace (q * (2 ^ 52 + 1) * (Zpos m2 * (P * Q)))
    with (q * Zpos m2 * ((2 ^ 52 + 1) * (P * Q))) by lia.
  replace (Zpos m1 * (2 ^ 52 + 1) * (P * Q * 2 ^ 53))
    with (Zpos m1 * 2 ^ 53 * ((2 ^ 52 + 1) * (P * Q))) by lia.
  apply Z.mul_le_mono_nonneg_r; nia.
Qed.

(** An exact mantissa of 53 bits is left alone. *)
Lemma round_aux_normal m e :
  normal m → -1000 ≤ e ≤ 900 →
  binary_round_aux f_prec f_emax false (Zpos m) e loc_Exact = S754_finite false m e.
Proof.
  intros Hm He. unfold binary_round_aux, shr_fexp, Zdigits2. rewrite normal_digits by done.
  rewrite fexp_eq. unfold f_fexp.
  replace (Z.max (53 + e - 53) (-1074) - e) with 0 by lia. simpl.
  rewrite normal_digits by done. rewrite fexp_eq. unfold f_fexp.
  replace (Z.max (53 + e - 53) (-1074) - e) with 0 by lia. simpl.
  rewrite (proj2 (Z.leb_le e (f_emax - f_prec))) by (unfold f_emax, f_prec; lia). done.
Qed.

Lemma iter_xO m d : Zpos (Pos.iter xO m d) = Zpos m * 2 ^ Zpos d.
Proof.
  revert m. induction d as [|d IH] using Pos.peano_ind; intros m; [simpl; lia|].
  rewrite Pos.iter_succ, Pos2Z.inj_succ, Z.pow_succ_r by lia.
  rewrite (Pos2Z.inj_xO (Pos.iter xO m d)), IH. lia.
Qed.

(** Integers below [2^53] convert exactly. *)
Lemma f_of_int_fpos z : 0 < z < 2 ^ 53 → fpos 53 (f_of_int z) (z * 2 ^ scale).
Proof.
  intros Hz. destruct z as [|m|m]; [lia| |lia].
  pose proof (digits2_pos_bounds m) as [Hl Hh].
  assert (Hd : Zpos (digits2_pos m) ≤ 53).
  { change (Zpos (digits2_pos m)) with (Zdigits2 (Zpos m)). apply Zdigits2_le; lia. }
  unfold f_of_int, binary_normalize, binary_round. rewrite fexp_eq. unfold f_fexp.
  replace (Z.max (Zpos (digits2_pos m) + 0 - 53) (-1074)) with (Zpos (digits2_pos m) - 53) by lia.
  set (d := Zpos (digits2_pos m)) in *.
  assert (Hal : ∃ mz, shl_align m 0 (d - 53) = (mz, d - 53) ∧ Zpos mz = Zpos m * 2 ^ (53 - d)).
  { unfold shl_align. destruct (d - 53 - 0) as [|p|p] eqn:Ep; [|lia|].
    - exists m. replace (d - 53) with 0 by lia. replace (53 - d) with 0 by lia. split; [done|lia].
    - exists (Pos.iter xO m p). split; [done|]. rewrite iter_xO. do 2 f_equal. lia. }
  destruct Hal as (mz & -> & Hmz).
  assert (Hp : 2 ^ (d - 1) * 2 ^ (53 - d) = 2 ^ 52) by (rewrite <-Z.pow_add_r by lia; f_equal; lia).
  assert (Hp' : 2 ^ d * 2 ^ (53 - d) = 2 ^ 53) by (rewrite <-Z.pow_add_r by lia; f_equal; lia).
  assert (Hpp : 0 < 2 ^ (53 - d)) by (apply Z.pow_pos_nonneg; lia).
  assert (Hn : normal mz) by (unfold normal; rewrite Hmz; nia).
  rewrite round_aux_normal by (done || lia).
  exists mz, (d - 53). split; [done|]. split; [done|]. split; [lia|].
  rewrite Hmz, <-Z.mul_assoc, <-Z.pow_add_r by (unfold scale; lia). do 2 f_equal. lia.
Qed.

Lemma f_trunc_fpos E f v :
  fpos E f v → E ≤ 1000 → f_trunc f = Some (v / 2 ^ scale).
Proof.
  intros (m & e & -> & Hm & He & ->) HE. simpl. f_equal. destruct (Z.leb_spec 0 e).
  - rewrite Z.pow_add_r, Z.mul_assoc by (unfold scale; lia).
    by rewrite Z.div_mul by (apply Z.pow_nonzero; unfold scale; lia).
  - replace (2 ^ scale) with (2 ^ (- e) * 2 ^ (e + scale)).
    2:{ rewrite <-Z.pow_add_r by (unfold scale; lia). f_equal. lia. }
    symmetry. apply Z.div_mul_cancel_r; apply Z.pow_nonzero; unfold scale; lia.
Qed.
End rounding.
