(* ===== verification/CacheState.v ===== *)
(** * State of the piece cache (torrstor: cache.go, piece.go, mempiece.go, reader.go)

    One [Cache] value is the memory a torrent's cache, its pieces, its readers
    and the torrent they drive occupy.  Objects Go reaches through pointers live
    in heaps keyed by identity, so that an object dropped from a map keeps its
    state: [pieceHeap] holds every [*Piece] (the torrent keeps them reachable
    after [Close] drops the map, [piecesNil]), [readerHeap] every [*Reader] ever
    created, and [readers] the set [c.readers] ([None] is the nil map).

    Times are nanoseconds since the epoch; [None] is the zero [time.Time]. *)

From S2P Require Import Prelude GoFloat Ranges.

Abbreviation byte := Byte.byte.

(** ** Settings the cache reads ([settings.BTsets]) *)
Record BTSets := mkBTSets {
  CacheSize : Z;
  ReaderReadAHead : Z;
  ConnectionsLimit : Z
}.

(** ** The torrent side *)
Inductive PiecePriority :=
  | PiecePriorityNone
  | PiecePriorityNormal
  | PiecePriorityHigh
  | PiecePriorityReadahead
  | PiecePriorityNext
  | PiecePriorityNow.

#[export] Instance PiecePriority_eq_dec : EqDecision PiecePriority.
Proof. solve_decision. Defined.

Definition prio_int (p : PiecePriority) : Z :=
  match p with
  | PiecePriorityNone => 0
  | PiecePriorityNormal => 1
  | PiecePriorityHigh => 2
  | PiecePriorityReadahead => 3
  | PiecePriorityNext => 4
  | PiecePriorityNow => 5
  end.

(** What the cache uses of [*torrent.Torrent]: the piece count, whether the
    info is known, each piece's priority field and the playout deadlines
    (milliseconds).  The request order these feed is not part of the state. *)
Record Torrent := mkTorrent {
  t_numPieces : Z;
  t_info : bool;
  t_prio : gmap Z PiecePriority;
  t_deadlines : gmap Z Z
}.

(** ** Pieces *)
Record Piece := mkPiece {
  Id : Z;
  Size : Z;
  Complete : bool;
  Accessed : Z;
  buffer : option (list byte)
}.

(** ** Readers

    [under_pos], [under_ra] and [under_closed] are the embedded torrent reader;
    its readahead is [None] while the adaptive default function is in force. *)
Record Reader := mkReader {
  under_pos : Z;
  under_ra : option Z;
  under_closed : bool;
  offset : Z;
  readahead : Z;
  file : TFile;
  r_isClosed : bool;
  lastAccess : Z;
  isUse : bool;
  inFlight : Z;
  deadlineBytes : Z;
  deadlineRate : float64;
  deadlineRateAt : option Z;
  deadlineSetAt : option Z
}.

(** ** The cache *)
Record Cache := mkCache {
  capacity : Z;
  filled : Z;
  hash : string;
  pieceLength : Z;
  pieceCount : Z;
  pieceHeap : gmap Z Piece;
  piecesNil : bool;
  readerHeap : gmap nat Reader;
  readers : option (gmap nat ());
  activeReaders : Z;
  isRemove : bool;
  isClosed : bool;
  IsAggressive : bool;
  MasterLimit : Z;
  lastCleanNS : Z;
  tor : Torrent;
  torrentSet : bool;
  cleanTrigger : bool;
  localPriority : gmap Z PiecePriority;
  pieceInRange : list bool;
  free : list (list byte);
  freeCap : Z
}.

(** ** Field updates *)
Definition set_t_prio (x : gmap Z PiecePriority) (t : Torrent) : Torrent :=
  mkTorrent (t_numPieces t) (t_info t) x (t_deadlines t).
Definition set_t_deadlines (x : gmap Z Z) (t : Torrent) : Torrent :=
  mkTorrent (t_numPieces t) (t_info t) (t_prio t) x.
Definition set_Size (x : Z) (p : Piece) : Piece :=
  mkPiece (Id p) x (Complete p) (Accessed p) (buffer p).
Definition set_Complete (x : bool) (p : Piece) : Piece :=
  mkPiece (Id p) (Size p) x (Accessed p) (buffer p).
Definition set_Accessed (x : Z) (p : Piece) : Piece :=
  mkPiece (Id p) (Size p) (Complete p) x (buffer p).
Definition set_buffer (x : option (list byte)) (p : Piece) : Piece :=
  mkPiece (Id p) (Size p) (Complete p) (Accessed p) x.
Definition set_under_pos (x : Z) (r : Reader) : Reader :=
  mkReader x (under_ra r) (under_closed r) (offset r) (readahead r) (file r) (r_isClosed r) (lastAccess r) (isUse r) (inFlight r) (deadlineBytes r) (deadlineRate r) (deadlineRateAt r) (deadlineSetAt r).
Definition set_under_ra (x : option Z) (r : Reader) : Reader :=
  mkReader (under_pos r) x (under_closed r) (offset r) (readahead r) (file r) (r_isClosed r) (lastAccess r) (isUse r) (inFlight r) (deadlineBytes r) (deadlineRate r) (deadlineRateAt r) (deadlineSetAt r).
Definition set_under_closed (x : bool) (r : Reader) : Reader :=
  mkReader (under_pos r) (under_ra r) x (offset r) (readahead r) (file r) (r_isClosed r) (lastAccess r) (isUse r) (inFlight r) (deadlineBytes r) (deadlineRate r) (deadlineRateAt r) (deadlineSetAt r).
Definition set_offset (x : Z) (r : Reader) : Reader :=
  mkReader (under_pos r) (under_ra r) (under_closed r) x (readahead r) (file r) (r_isClosed r) (lastAccess r) (isUse r) (inFlight r) (deadlineBytes r) (deadlineRate r) (deadlineRateAt r) (deadlineSetAt r).
Definition set_readahead (x : Z) (r : Reader) : Reader :=
  mkReader (under_pos r) (under_ra r) (under_closed r) (offset r) x (file r) (r_isClosed r) (lastAccess r) (isUse r) (inFlight r) (deadlineBytes r) (deadlineRate r) (deadlineRateAt r) (deadlineSetAt r).
Definition set_r_isClosed (x : bool) (r : Reader) : Reader :=
  mkReader (under_pos r) (under_ra r) (under_closed r) (offset r) (readahead r) (file r) x (lastAccess r) (isUse r) (inFlight r) (deadlineBytes r) (deadlineRate r) (deadlineRateAt r) (deadlineSetAt r).
Definition set_lastAccess (x : Z) (r : Reader) : Reader :=
  mkReader (under_pos r) (under_ra r) (under_closed r) (offset r) (readahead r) (file r) (r_isClosed r) x (isUse r) (inFlight r) (deadlineBytes r) (deadlineRate r) (deadlineRateAt r) (deadlineSetAt r).
Definition set_isUse (x : bool) (r : Reader) : Reader :=
  mkReader (under_pos r) (under_ra r) (under_closed r) (offset r) (readahead r) (file r) (r_isClosed r) (lastAccess r) x (inFlight r) (deadlineBytes r) (deadlineRate r) (deadlineRateAt r) (deadlineSetAt r).
Definition set_inFlight (x : Z) (r : Reader) : Reader :=
  mkReader (under_pos r) (under_ra r) (under_closed r) (offset r) (readahead r) (file r) (r_isClosed r) (lastAccess r) (isUse r) x (deadlineBytes r) (deadlineRate r) (deadlineRateAt r) (deadlineSetAt r).
Definition set_deadlineBytes (x : Z) (r : Reader) : Reader :=
  mkReader (under_pos r) (under_ra r) (under_closed r) (offset r) (readahead r) (file r) (r_isClosed r) (lastAccess r) (isUse r) (inFlight r) x (deadlineRate r) (deadlineRateAt r) (deadlineSetAt r).
Definition set_deadlineRate (x : float64) (r : Reader) : Reader :=
  mkReader (under_pos r) (under_ra r) (under_closed r) (offset r) (readahead r) (file r) (r_isClosed r) (lastAccess r) (isUse r) (inFlight r) (deadlineBytes r) x (deadlineRateAt r) (deadlineSetAt r).
Definition set_deadlineRateAt (x : option Z) (r : Reader) : Reader :=
  mkReader (under_pos r) (under_ra r) (under_closed r) (offset r) (readahead r) (file r) (r_isClosed r) (lastAccess r) (isUse r) (inFlight r) (deadlineBytes r) (deadlineRate r) x (deadlineSetAt r).
Definition set_deadlineSetAt (x : option Z) (r : Reader) : Reader :=
  mkReader (under_pos r) (under_ra r) (under_closed r) (offset r) (readahead r) (file r) (r_isClosed r) (lastAccess r) (isUse r) (inFlight r) (deadlineBytes r) (deadlineRate r) (deadlineRateAt r) x.
Definition set_capacity (x : Z) (c : Cache) : Cache :=
  mkCache x (filled c) (hash c) (pieceLength c) (pieceCount c) (pieceHeap c) (piecesNil c) (readerHeap c) (readers c) (activeReaders c) (isRemove c) (isClosed c) (IsAggressive c) (MasterLimit c) (lastCleanNS c) (tor c) (torrentSet c) (cleanTrigger c) (localPriority c) (pieceInRange c) (free c) (freeCap c).
Definition set_filled (x : Z) (c : Cache) : Cache :=
  mkCache (capacity c) x (hash c) (pieceLength c) (pieceCount c) (pieceHeap c) (piecesNil c) (readerHeap c) (readers c) (activeReaders c) (isRemove c) (isClosed c) (IsAggressive c) (MasterLimit c) (lastCleanNS c) (tor c) (torrentSet c) (cleanTrigger c) (localPriority c) (pieceInRange c) (free c) (freeCap c).
Definition set_hash (x : string) (c : Cache) : Cache :=
  mkCache (capacity c) (filled c) x (pieceLength c) (pieceCount c) (pieceHeap c) (piecesNil c) (readerHeap c) (readers c) (activeReaders c) (isRemove c) (isClosed c) (IsAggressive c) (MasterLimit c) (lastCleanNS c) (tor c) (torrentSet c) (cleanTrigger c) (localPriority c) (pieceInRange c) (free c) (freeCap c).
Definition set_pieceLength (x : Z) (c : Cache) : Cache :=
  mkCache (capacity c) (filled c) (hash c) x (pieceCount c) (pieceHeap c) (piecesNil c) (readerHeap c) (readers c) (activeReaders c) (isRemove c) (isClosed c) (IsAggressive c) (MasterLimit c) (lastCleanNS c) (tor c) (torrentSet c) (cleanTrigger c) (localPriority c) (pieceInRange c) (free c) (freeCap c).
Definition set_pieceCount (x : Z) (c : Cache) : Cache :=
  mkCache (capacity c) (filled c) (hash c) (pieceLength c) x (pieceHeap c) (piecesNil c) (readerHeap c) (readers c) (activeReaders c) (isRemove c) (isClosed c) (IsAggressive c) (MasterLimit c) (lastCleanNS c) (tor c) (torrentSet c) (cleanTrigger c) (localPriority c) (pieceInRange c) (free c) (freeCap c).
Definition set_pieceHeap (x : gmap Z Piece) (c : Cache) : Cache :=
  mkCache (capacity c) (filled c) (hash c) (pieceLength c) (pieceCount c) x (piecesNil c) (readerHeap c) (readers c) (activeReaders c) (isRemove c) (isClosed c) (IsAggressive c) (MasterLimit c) (lastCleanNS c) (tor c) (torrentSet c) (cleanTrigger c) (localPriority c) (pieceInRange c) (free c) (freeCap c).
Definition set_piecesNil (x : bool) (c : Cache) : Cache :=
  mkCache (capacity c) (filled c) (hash c) (pieceLength c) (pieceCount c) (pieceHeap c) x (readerHeap c) (readers c) (activeReaders c) (isRemove c) (isClosed c) (IsAggressive c) (MasterLimit c) (lastCleanNS c) (tor c) (torrentSet c) (cleanTrigger c) (localPriority c) (pieceInRange c) (free c) (freeCap c).
Definition set_readerHeap (x : gmap nat Reader) (c : Cache) : Cache :=
  mkCache (capacity c) (filled c) (hash c) (pieceLength c) (pieceCount c) (pieceHeap c) (piecesNil c) x (readers c) (activeReaders c) (isRemove c) (isClosed c) (IsAggressive c) (MasterLimit c) (lastCleanNS c) (tor c) (torrentSet c) (cleanTrigger c) (localPriority c) (pieceInRange c) (free c) (freeCap c).
Definition set_readers (x : option (gmap nat ())) (c : Cache) : Cache :=
  mkCache (capacity c) (filled c) (hash c) (pieceLength c) (pieceCount c) (pieceHeap c) (piecesNil c) (readerHeap c) x (activeReaders c) (isRemove c) (isClosed c) (IsAggressive c) (MasterLimit c) (lastCleanNS c) (tor c) (torrentSet c) (cleanTrigger c) (localPriority c) (pieceInRange c) (free c) (freeCap c).
Definition set_activeReaders (x : Z) (c : Cache) : Cache :=
  mkCache (capacity c) (filled c) (hash c) (pieceLength c) (pieceCount c) (pieceHeap c) (piecesNil c) (readerHeap c) (readers c) x (isRemove c) (isClosed c) (IsAggressive c) (MasterLimit c) (lastCleanNS c) (tor c) (torrentSet c) (cleanTrigger c) (localPriority c) (pieceInRange c) (free c) (freeCap c).
Definition set_isRemove (x : bool) (c : Cache) : Cache :=
  mkCache (capacity c) (filled c) (hash c) (pieceLength c) (pieceCount c) (pieceHeap c) (piecesNil c) (readerHeap c) (readers c) (activeReaders c) x (isClosed c) (IsAggressive c) (MasterLimit c) (lastCleanNS c) (tor c) (torrentSet c) (cleanTrigger c) (localPriority c) (pieceInRange c) (free c) (freeCap c).
Definition set_isClosed (x : bool) (c : Cache) : Cache :=
  mkCache (capacity c) (filled c) (hash c) (pieceLength c) (pieceCount c) (pieceHeap c) (piecesNil c) (readerHeap c) (readers c) (activeReaders c) (isRemove c) x (IsAggressive c) (MasterLimit c) (lastCleanNS c) (tor c) (torrentSet c) (cleanTrigger c) (localPriority c) (pieceInRange c) (free c) (freeCap c).
Definition set_IsAggressive (x : bool) (c : Cache) : Cache :=
  mkCache (capacity c) (filled c) (hash c) (pieceLength c) (pieceCount c) (pieceHeap c) (piecesNil c) (readerHeap c) (readers c) (activeReaders c) (isRemove c) (isClosed c) x (MasterLimit c) (lastCleanNS c) (tor c) (torrentSet c) (cleanTrigger c) (localPriority c) (pieceInRange c) (free c) (freeCap c).
Definition set_MasterLimit (x : Z) (c : Cache) : Cache :=
  mkCache (capacity c) (filled c) (hash c) (pieceLength c) (pieceCount c) (pieceHeap c) (piecesNil c) (readerHeap c) (readers c) (activeReaders c) (isRemove c) (isClosed c) (IsAggressive c) x (lastCleanNS c) (tor c) (torrentSet c) (cleanTrigger c) (localPriority c) (pieceInRange c) (free c) (freeCap c).
Definition set_lastCleanNS (x : Z) (c : Cache) : Cache :=
  mkCache (capacity c) (filled c) (hash c) (pieceLength c) (pieceCount c) (pieceHeap c) (piecesNil c) (readerHeap c) (readers c) (activeReaders c) (isRemove c) (isClosed c) (IsAggressive c) (MasterLimit c) x (tor c) (torrentSet c) (cleanTrigger c) (localPriority c) (pieceInRange c) (free c) (freeCap c).
Definition set_tor (x : Torrent) (c : Cache) : Cache :=
  mkCache (capacity c) (filled c) (hash c) (pieceLength c) (pieceCount c) (pieceHeap c) (piecesNil c) (readerHeap c) (readers c) (activeReaders c) (isRemove c) (isClosed c) (IsAggressive c) (MasterLimit c) (lastCleanNS c) x (torrentSet c) (cleanTrigger c) (localPriority c) (pieceInRange c) (free c) (freeCap c).
Definition set_torrentSet (x : bool) (c : Cache) : Cache :=
  mkCache (capacity c) (filled c) (hash c) (pieceLength c) (pieceCount c) (pieceHeap c) (piecesNil c) (readerHeap c) (readers c) (activeReaders c) (isRemove c) (isClosed c) (IsAggressive c) (MasterLimit c) (lastCleanNS c) (tor c) x (cleanTrigger c) (localPriority c) (pieceInRange c) (free c) (freeCap c).
Definition set_cleanTrigger (x : bool) (c : Cache) : Cache :=
  mkCache (capacity c) (filled c) (hash c) (pieceLength c) (pieceCount c) (pieceHeap c) (piecesNil c) (readerHeap c) (readers c) (activeReaders c) (isRemove c) (isClosed c) (IsAggressive c) (MasterLimit c) (lastCleanNS c) (tor c) (torrentSet c) x (localPriority c) (pieceInRange c) (free c) (freeCap c).
Definition set_localPriority (x : gmap Z PiecePriority) (c : Cache) : Cache :=
  mkCache (capacity c) (filled c) (hash c) (pieceLength c) (pieceCount c) (pieceHeap c) (piecesNil c) (readerHeap c) (readers c) (activeReaders c) (isRemove c) (isClosed c) (IsAggressive c) (MasterLimit c) (lastCleanNS c) (tor c) (torrentSet c) (cleanTrigger c) x (pieceInRange c) (free c) (freeCap c).
Definition set_pieceInRange (x : list bool) (c : Cache) : Cache :=
  mkCache (capacity c) (filled c) (hash c) (pieceLength c) (pieceCount c) (pieceHeap c) (piecesNil c) (readerHeap c) (readers c) (activeReaders c) (isRemove c) (isClosed c) (IsAggressive c) (MasterLimit c) (lastCleanNS c) (tor c) (torrentSet c) (cleanTrigger c) (localPriority c) x (free c) (freeCap c).
Definition set_free (x : list (list byte)) (c : Cache) : Cache :=
  mkCache (capacity c) (filled c) (hash c) (pieceLength c) (pieceCount c) (pieceHeap c) (piecesNil c) (readerHeap c) (readers c) (activeReaders c) (isRemove c) (isClosed c) (IsAggressive c) (MasterLimit c) (lastCleanNS c) (tor c) (torrentSet c) (cleanTrigger c) (localPriority c) (pieceInRange c) x (freeCap c).
Definition set_freeCap (x : Z) (c : Cache) : Cache :=
  mkCache (capacity c) (filled c) (hash c) (pieceLength c) (pieceCount c) (pieceHeap c) (piecesNil c) (readerHeap c) (readers c) (activeReaders c) (isRemove c) (isClosed c) (IsAggressive c) (MasterLimit c) (lastCleanNS c) (tor c) (torrentSet c) (cleanTrigger c) (localPriority c) (pieceInRange c) (free c) x.

Definition upd_piece (id : Z) (f : Piece → Piece) (c : Cache) : Cache :=
  set_pieceHeap (alter f id (pieceHeap c)) c.
Definition upd_reader (id : nat) (f : Reader → Reader) (c : Cache) : Cache :=
  set_readerHeap (alter f id (readerHeap c)) c.
Definition upd_tor (f : Torrent → Torrent) (c : Cache) : Cache := set_tor (f (tor c)) c.

(** The non-blocking send on the one-slot channel [cleanTrigger]. *)
Definition trigger_clean (c : Cache) : Cache := set_cleanTrigger true c.

Definition unix (now : Z) : Z := now / 1000000000.

(** [c.pieces[i]] as a map lookup: nothing once the map is nil. *)
Definition piece_at (c : Cache) (i : Z) : option Piece :=
  if piecesNil c then None else pieceHeap c !! i.

(** ** Torrent operations the cache calls *)

(** [Piece.SetPriority]. *)
Definition SetPriority (i : Z) (prio : PiecePriority) (t : Torrent) : Torrent :=
  set_t_prio (<[i := prio]> (t_prio t)) t.

(** [Torrent.SetPiecePriorities]: indices outside the torrent are skipped. *)
Definition SetPiecePriorities `{GoRuntime} (batch : gmap Z PiecePriority) (t : Torrent) : Torrent :=
  foldl (λ t '(i, prio),
           if (0 <=? i) && (i <? t_numPieces t) then SetPriority i prio t else t)
        t (map_range batch).

(** The loop of [SetStreamDeadlines]: [n] pieces remain, the next is the
    [k]-th of the run. *)
Fixpoint set_deadlines_loop (t : Torrent) (firstPiece k first interval : Z) (n : nat) : Torrent :=
  match n with
  | O => t
  | S n =>
      let i := firstPiece + k in
      let ms := Z.div (first + i64 (k * interval)) 1000000 in
      let t' := if (i <? 0) || (t_numPieces t <=? i) then t
                else if default 0 (t_deadlines t !! i) =? ms then t
                else set_t_deadlines (<[i := ms]> (t_deadlines t)) t in
      set_deadlines_loop t' firstPiece (k + 1) first interval n
  end.

Definition SetStreamDeadlines (firstPiece numPieces first pieceInterval : Z) (t : Torrent)
    : Torrent :=
  if (numPieces <=? 0) || (pieceInterval <=? 0) then t
  else set_deadlines_loop t firstPiece 0 first pieceInterval (Z.to_nat numPieces).

Definition ClearStreamDeadlinesRange (firstPiece numPieces : Z) (t : Torrent) : Torrent :=
  if numPieces <=? 0 then t
  else
    let end_ := firstPiece + numPieces in
    set_t_deadlines (filter (λ '(i, _), ¬ (firstPiece ≤ i < end_)) (t_deadlines t)) t.
