(* ===== verification/MemPiece.v ===== *)
(** * Piece buffers (torrstor: mempiece.go, the storage side of piece.go, piecefake.go)

    A piece keeps its bytes in a buffer of the torrent's piece length, taken
    from the cache's freelist on the first write and given back on release.
    [None] results are run-time panics (slice bounds, nil pointers). *)

From S2P Require Import Prelude GoFloat Ranges CacheState.
Local Open Scope go_scope.

Inductive io_error := EOF | ErrFake.

(** ** The freelist (cache.go) *)

Definition getBuffer (c : Cache) : Cache * option (list byte) :=
  match list.last (free c) with
  | None => (c, None)
  | Some b => (set_free (take (length (free c) - 1) (free c)) c, Some b)
  end.

Definition putBuffer (b : list byte) (c : Cache) : Cache :=
  if negb (len b =? pieceLength c) || (pieceLength c =? 0) || isClosed c then c
  else if freeCap c <=? len (free c) then c
  else set_free (free c ++ [b]) c.

(** ** MemPiece *)

(** The buffer a write lands in: the piece's own, a spare one, or a fresh one. *)
Definition write_buffer (p : Piece) (c : Cache) : Cache * list byte :=
  match buffer p with
  | Some b => (c, b)
  | None =>
      let '(c, b) := getBuffer (trigger_clean c) in
      (c, default (replicate (Z.to_nat (pieceLength c)) Byte.x00) b)
  end.

Definition MemPiece_WriteAt (id : Z) (b : list byte) (off now : Z) (c : Cache)
    : option (Cache * Z) :=
  p ← pieceHeap c !! id;
  let '(c, buf) := write_buffer p c in
  '(buf', n) ← copy_at buf off b;
  let sz := Size p +! n in
  let sz := if pieceLength c <? sz then pieceLength c else sz in
  Some (upd_piece id (λ p, set_Accessed (unix now) (set_Size sz (set_buffer (Some buf') p))) c, n).

(** [n] is the length of the caller's slice; the bytes read come back with the
    error. *)
Definition MemPiece_ReadAt (id n off now : Z) (c : Cache)
    : option (Cache * list byte * option io_error) :=
  p ← pieceHeap c !! id;
  let buf := default [] (buffer p) in
  let size := if len buf <? n +! off
              then (let s := len buf -! off in if s <? 0 then 0 else s) else n in
  if (len buf <? off) || (len buf <? off +! size) then Some (c, [], Some EOF)
  else
    d ← slice buf off (off +! size);
    let c := upd_piece id (set_Accessed (unix now)) c in
    let c := if Size p <=? n +! off then trigger_clean c else c in
    Some (if len d =? 0 then (c, [], Some EOF) else (c, d, None)).

Definition MemPiece_Release (id : Z) (c : Cache) : Cache :=
  let c := match pieceHeap c !! id with
           | Some p => match buffer p with
                       | Some b => upd_piece id (set_buffer None) (putBuffer b c)
                       | None => c
                       end
           | None => c
           end in
  upd_piece id (λ p, set_Complete false (set_Size 0 p)) c.

Definition MemPiece_drop (p : Piece) : Piece :=
  set_Complete false (set_Size 0 (set_buffer None p)).

(** ** Piece *)

Definition NewPiece (id : Z) : Piece := mkPiece id 0 false 0 None.

Definition Piece_WriteAt := MemPiece_WriteAt.
Definition Piece_ReadAt := MemPiece_ReadAt.

Definition MarkComplete (id : Z) (c : Cache) : Cache := upd_piece id (set_Complete true) c.

(** [storage.Completion] is a pair of flags. *)
Definition Completion (p : Piece) : bool * bool := (Complete p, true).

(** [torr.Piece(id)] indexes the torrent's pieces; [UpdateCompletion] re-reads
    the completion of the storage and leaves the state modelled here alone. *)
Definition Piece_Release (id : Z) (c : Cache) : Cache :=
  let c := MemPiece_Release id c in
  if negb (isClosed c) && torrentSet c then upd_tor (SetPriority id PiecePriorityNone) c else c.

(** ** PieceFake: the storage of a piece the cache does not have *)

Definition PieceFake_ReadAt (n off : Z) : list byte * option io_error := ([], Some ErrFake).
Definition PieceFake_WriteAt (b : list byte) (off : Z) : Z * option io_error := (0, Some ErrFake).
Definition PieceFake_MarkComplete : option io_error := Some ErrFake.
Definition PieceFake_MarkNotComplete : option io_error := Some ErrFake.
Definition PieceFake_Completion : bool * bool := (false, true).

(** ** Invariant of the buffers *)

Record piece_ok (pl : Z) (id : Z) (p : Piece) : Prop := {
  ok_id : Id p = id;
  ok_size : 0 ≤ Size p ≤ pl;
  ok_buffer : ∀ b, buffer p = Some b → len b = pl;
  ok_empty : buffer p = None → Size p = 0
}.

Record buffers_ok (c : Cache) : Prop := {
  ok_len : 0 < pieceLength c < 2 ^ 62;
  ok_pieces : map_Forall (piece_ok (pieceLength c)) (pieceHeap c);
  ok_free : Forall (λ b, len b = pieceLength c) (free c);
  ok_freeCap : len (free c) ≤ freeCap c
}.

Section freelist.
Lemma getBuffer_spec c c' ob :
  getBuffer c = (c', ob) →
  (∃ l, c' = set_free l c ∧ match ob with
                            | Some b => free c = l ++ [b]
                            | None => l = free c
                            end) .
Proof.
  unfold getBuffer. destruct (list.last (free c)) as [b|] eqn:E; intros [= <- <-].
  - exists (take (length (free c) - 1) (free c)). split; [done|].
    apply list.last_Some in E as [l ->]. rewrite length_app. simpl.
    replace (length l + 1 - 1)%nat with (length l) by lia. by rewrite take_app_length.
  - exists (free c). split; [by destruct c|done].
Qed.

Lemma set_free_ok l c :
  buffers_ok c → Forall (λ b, len b = pieceLength c) l → len l ≤ freeCap c →
  buffers_ok (set_free l c).
Proof. intros [H1 H2 H3 H4] Hl Hc. split; simpl; auto. Qed.

Lemma getBuffer_ok c c' ob :
  buffers_ok c → getBuffer c = (c', ob) →
  buffers_ok c' ∧ pieceLength c' = pieceLength c ∧ pieceHeap c' = pieceHeap c ∧
  match ob with Some b => len b = pieceLength c | None => True end.
Proof.
  intros Hok (l & -> & Hl)%getBuffer_spec. destruct ob as [b|]; subst.
  - pose proof (ok_free c Hok) as H3. pose proof (ok_freeCap c Hok) as H4.
    rewrite Hl in H3, H4. rewrite len_app in H4. pose proof (len_nonneg [b]).
    apply Forall_app in H3 as [H3 Hb]. inv Hb.
    split; [|done]. apply set_free_ok; [done|done|lia].
  - split; [|done]. apply set_free_ok; [done|apply Hok|apply Hok].
Qed.

Lemma putBuffer_cases b c :
  putBuffer b c = c ∨
  (putBuffer b c = set_free (free c ++ [b]) c ∧ len b = pieceLength c ∧
   len (free c) < freeCap c).
Proof.
  unfold putBuffer. destruct (Z.eqb_spec (len b) (pieceLength c)); simpl; [|by left].
  destruct (_ || _); [by left|]. destruct (Z.leb_spec (freeCap c) (len (free c))); auto.
Qed.

Lemma putBuffer_ok b c : buffers_ok c → buffers_ok (putBuffer b c).
Proof.
  intros Hok. destruct (putBuffer_cases b c) as [->|(-> & Hb & Hc)]; [done|].
  apply set_free_ok; [done| |].
  - apply Forall_app_2; [apply Hok|by constructor].
  - rewrite len_app. unfold len at 2. simpl. lia.
Qed.

Lemma putBuffer_frame b c :
  pieceLength (putBuffer b c) = pieceLength c ∧ pieceHeap (putBuffer b c) = pieceHeap c ∧
  isClosed (putBuffer b c) = isClosed c ∧ torrentSet (putBuffer b c) = torrentSet c.
Proof. by destruct (putBuffer_cases b c) as [->|(-> & _)]. Qed.
End freelist.

#[export] Hint Resolve putBuffer_ok : tiramisu.

Section preservation.
Implicit Types c : Cache.

Lemma upd_piece_ok id f c :
  buffers_ok c →
  (∀ p, pieceHeap c !! id = Some p → piece_ok (pieceLength c) id (f p)) →
  buffers_ok (upd_piece id f c).
Proof.
  intros [H1 H2 H3 H4] Hf. split; simpl; auto.
  intros i p. rewrite lookup_alter. case_decide as Hi; subst.
  - destruct (pieceHeap c !! i) as [q|] eqn:E; simpl; [|done]. intros [= <-]. by apply Hf.
  - apply H2.
Qed.

Lemma trigger_clean_ok c : buffers_ok c → buffers_ok (trigger_clean c).
Proof. by intros []. Qed.

Lemma write_buffer_ok p c c' buf id :
  buffers_ok c → pieceHeap c !! id = Some p → write_buffer p c = (c', buf) →
  buffers_ok c' ∧ pieceLength c' = pieceLength c ∧ pieceHeap c' = pieceHeap c ∧
  len buf = pieceLength c.
Proof.
  intros Hok Hp. unfold write_buffer. destruct (buffer p) as [b|] eqn:Eb.
  { intros [= <- <-]. split; [done|]. split; [done|]. split; [done|].
    eapply ok_buffer; [by apply Hok|done]. }
  destruct (getBuffer (trigger_clean c)) as [c1 ob] eqn:Eg. intros [= <- <-].
  apply getBuffer_ok in Eg as (H1 & H2 & H3 & H4); [|by apply trigger_clean_ok].
  simpl in *. split; [done|]. split; [done|]. split; [done|].
  destruct ob as [b|]; simpl; [done|]. unfold len. rewrite length_replicate, H2.
  pose proof (ok_len c Hok). lia.
Qed.

Lemma WriteAt_spec id b off now c c' n :
  buffers_ok c → MemPiece_WriteAt id b off now c = Some (c', n) →
  ∃ p buf buf' c1, pieceHeap c !! id = Some p ∧ write_buffer p c = (c1, buf) ∧
    buffers_ok c1 ∧ pieceHeap c1 = pieceHeap c ∧ pieceLength c1 = pieceLength c ∧
    len buf = pieceLength c ∧ copy_at buf off b = Some (buf', n) ∧
    c' = upd_piece id (λ p, set_Accessed (unix now)
           (set_Size (Z.min (pieceLength c) (Size p + n)) (set_buffer (Some buf') p))) c1.
Proof.
  intros Hok. unfold MemPiece_WriteAt.
  destruct (pieceHeap c !! id) as [p|] eqn:Ep; simpl; [|done].
  destruct (write_buffer p c) as [c1 buf] eqn:Ew.
  destruct (write_buffer_ok p c c1 buf id Hok Ep Ew) as (Hok1 & Hpl & Hh & Hlen).
  destruct (copy_at buf off b) as [[buf' n']|] eqn:Ec; simpl; [|done]. intros [= <- <-].
  exists p, buf, buf', c1. do 7 (split; [done|]).
  apply copy_at_spec in Ec as (Ho & Hn & _).
  pose proof (ok_len c Hok). destruct (ok_pieces c Hok _ _ Ep) as [_ Hs _ _].
  pose proof (len_nonneg b).
  unfold upd_piece. f_equal. apply map_eq. intros i. rewrite !lookup_alter, Hh.
  case_decide; [|done]. subst. rewrite Ep. simpl. do 3 f_equal.
  rewrite Hpl. go_simpl. case_if; lia.
Qed.

Lemma WriteAt_ok id b off now c c' n :
  buffers_ok c → MemPiece_WriteAt id b off now c = Some (c', n) → buffers_ok c'.
Proof.
  intros Hok (p & buf & buf' & c1 & Hp & Hw & Hok1 & Hh & Hpl & Hlen & Hc & ->)%WriteAt_spec; [|done].
  apply upd_piece_ok; [done|]. intros q Hq. rewrite Hh, Hp in Hq. simplify_eq.
  destruct (ok_pieces c Hok _ _ Hp) as [Hid Hs Hb He].
  apply copy_at_spec in Hc as (Ho & Hn & Hl & _). pose proof (len_nonneg b).
  pose proof (ok_len c Hok).
  split; simpl; [done|rewrite Hpl; lia| |done]. intros ? [= <-]. lia.
Qed.

Lemma set_Accessed_ok pl id t p : piece_ok pl id p → piece_ok pl id (set_Accessed t p).
Proof. by intros []. Qed.

Lemma set_Complete_ok pl id x p : piece_ok pl id p → piece_ok pl id (set_Complete x p).
Proof. by intros []. Qed.

Lemma ReadAt_ok id n off now c c' d e :
  buffers_ok c → MemPiece_ReadAt id n off now c = Some (c', d, e) → buffers_ok c'.
Proof.
  intros Hok. unfold MemPiece_ReadAt.
  destruct (pieceHeap c !! id) as [p|] eqn:Ep; simpl; [|done].
  case_if; [by intros [= <- <- <-]|].
  destruct (slice _ _ _) as [s|]; simpl; [|done].
  assert (buffers_ok (upd_piece id (set_Accessed (unix now)) c)).
  { apply upd_piece_ok; [done|]. intros q Hq. apply set_Accessed_ok. by apply Hok. }
  intros [= Heq]. destruct (len s =? 0); destruct (Size p <=? _); simplify_eq;
    auto using trigger_clean_ok.
Qed.

Lemma Release_ok id c : buffers_ok c → buffers_ok (MemPiece_Release id c).
Proof.
  intros Hok. unfold MemPiece_Release.
  destruct (pieceHeap c !! id) as [p|] eqn:Ep.
  2:{ apply upd_piece_ok; [done|]. intros q Hq. by rewrite Ep in Hq. }
  pose proof (ok_len c Hok). destruct (buffer p) as [b|] eqn:Eb.
  - destruct (putBuffer_frame b c) as (Hpl & Hh & _).
    assert (Hok' : buffers_ok (putBuffer b c)) by auto with tiramisu.
    destruct Hok' as [H1 H2 H3 H4]. split; simpl; auto.
    intros i q. destruct (decide (id = i)) as [<-|Hi].
    2:{ rewrite !lookup_alter_ne by done. apply H2. }
    rewrite !lookup_alter_eq, Hh, Ep. simpl. intros [= <-].
    destruct (ok_pieces c Hok _ _ Ep) as [Hid _ _ _].
    split; simpl; [done|lia|done|done].
  - apply upd_piece_ok; [done|]. intros q Hq. assert (q = p) as -> by congruence.
    destruct (ok_pieces c Hok _ _ Ep) as [Hid _ _ _]. split; simpl; [done|lia|congruence|done].
Qed.

Lemma Piece_Release_ok id c : buffers_ok c → buffers_ok (Piece_Release id c).
Proof.
  intros Hok%(Release_ok id). unfold Piece_Release. case_if; [|done]. by destruct Hok.
Qed.
End preservation.

#[export] Hint Resolve Release_ok Piece_Release_ok WriteAt_ok ReadAt_ok : tiramisu.

(** ** Properties *)

(** every storage operation on a piece (write, read, release) keeps the
    buffer invariant: a held buffer has exactly the piece length, the recorded
    size stays within it, a piece without a buffer has size zero, and the
    freelist never exceeds [freeCap] nor holds a buffer of another length. *)
Theorem piece_io_preserves_buffers id b n off now c :
  buffers_ok c →
  (∀ c' k, MemPiece_WriteAt id b off now c = Some (c', k) → buffers_ok c') ∧
  (∀ c' d e, MemPiece_ReadAt id n off now c = Some (c', d, e) → buffers_ok c') ∧
  buffers_ok (Piece_Release id c).
Proof. intros Hok. split_and!; intros; eauto with tiramisu. Qed.

(** a write at an offset inside the piece never panics, stores the prefix
    of the bytes that fits, and a read of that range right after it returns
    exactly those bytes. *)
Theorem WriteAt_ReadAt_roundtrip id b off now now' c p :
  buffers_ok c → pieceHeap c !! id = Some p → 0 ≤ off < pieceLength c → 0 < len b →
  ∃ c' n, MemPiece_WriteAt id b off now c = Some (c', n) ∧
    n = Z.min (len b) (pieceLength c - off) ∧
    ∃ c'', MemPiece_ReadAt id n off now' c' = Some (c'', take (Z.to_nat n) b, None).
Proof.
  intros Hok Hp Hoff Hb. pose proof (ok_len c Hok) as Hpl.
  destruct (write_buffer p c) as [c1 buf] eqn:Ew.
  destruct (write_buffer_ok p c c1 buf id Hok Hp Ew) as (Hok1 & Hpl1 & Hh & Hlen).
  destruct (copy_at_some buf off b) as [[buf' n] Hc]; [lia|].
  destruct (MemPiece_WriteAt id b off now c) as [[c' n']|] eqn:HW.
  2:{ exfalso. unfold MemPiece_WriteAt in HW. rewrite Hp in HW; simpl in HW.
      rewrite Ew in HW. by rewrite Hc in HW. }
  exists c', n'. split; [done|].
  destruct (WriteAt_spec _ _ _ _ _ _ _ Hok HW)
    as (p2 & buf2 & buf2' & c2 & Hp2 & Hw2 & _ & Hh2 & _ & Hl2 & Hc2 & ->).
  simplify_eq. rewrite Ew in Hw2. simplify_eq.
  pose proof (copy_at_spec _ _ _ _ _ Hc) as (_ & Hn & Hl & Hk).
  split; [lia|]. unfold MemPiece_ReadAt, upd_piece; simpl.
  rewrite lookup_alter_eq, Hh, Hp; simpl.
  rewrite (i64_id (n + off)) by (unfold in_i64; lia).
  destruct (Z.ltb_spec (len buf') (n + off)); [lia|].
  rewrite (i64_id (off + n)) by (unfold in_i64; lia).
  destruct (Z.ltb_spec (len buf') off); [lia|]. simpl.
  destruct (Z.ltb_spec (len buf') (off + n)); [lia|].
  destruct (slice_some buf' off (off + n)) as [s Hs]; [lia..|]. rewrite Hs; simpl.
  pose proof (slice_spec _ _ _ _ Hs) as (_ & _ & Hsl & Hsk).
  destruct (Z.eqb_spec (len s) 0); [lia|].
  assert (s = take (Z.to_nat n) b) as ->; [|eauto].
  apply list_eq_same_length with (n := Z.to_nat n).
  - rewrite ?length_take. unfold len in *. lia.
  - rewrite ?length_take. unfold len in *. lia.
  - intros k x y Hk1 Hx Hy. rewrite lookup_take_lt in Hy by lia.
    specialize (Hsk (Z.of_nat k) ltac:(lia)). rewrite Hk in Hsk by lia.
    rewrite decide_True in Hsk by lia. rewrite Nat2Z.id in Hsk.
    replace (Z.to_nat (off + Z.of_nat k - off)) with k in Hsk by lia. congruence.
Qed.

(** A cache of two four-byte pieces, one of them written. *)
Definition sample_cache : Cache :=
  mkCache 16 0 "h" 4 2
    (<[0 := mkPiece 0 0 false 0 None]> (<[1 := mkPiece 1 4 true 7 (Some [Byte.x01; Byte.x02; Byte.x03; Byte.x04])]> ∅))
    false ∅ (Some ∅) 0 false false false 0 0 (mkTorrent 2 true ∅ ∅) true false ∅
    [false; false] [[Byte.x09; Byte.x09; Byte.x09; Byte.x09]] 2.

Lemma sample_cache_ok : buffers_ok sample_cache.
Proof.
  split; simpl; [lia| |by repeat constructor|unfold len; simpl; lia].
  intros i p H. unfold sample_cache in H; simpl in H.
  apply lookup_insert_Some in H as [[<- <-]|[_ H]].
  { split; simpl; [done|lia|done|done]. }
  apply lookup_insert_Some in H as [[<- <-]|[_ H]]; [|by rewrite lookup_empty in H].
  split; simpl; [done|lia|by intros ? [= <-]|done].
Qed.

Lemma piece_io_preserves_buffers_witness :
  (∀ c' k, MemPiece_WriteAt 0 [Byte.x05; Byte.x06] 1 5000000000 sample_cache = Some (c', k) →
     buffers_ok c') ∧
  (∀ c' d e, MemPiece_ReadAt 0 3 1 5000000000 sample_cache = Some (c', d, e) → buffers_ok c') ∧
  buffers_ok (Piece_Release 0 sample_cache).
Proof. apply piece_io_preserves_buffers, sample_cache_ok. Defined.

Lemma WriteAt_ReadAt_roundtrip_witness :
  ∃ c' n, MemPiece_WriteAt 0 [Byte.x05; Byte.x06] 1 5000000000 sample_cache = Some (c', n) ∧
    n = 2 ∧
    ∃ c'', MemPiece_ReadAt 0 n 1 6000000000 c' = Some (c'', take (Z.to_nat n) [Byte.x05; Byte.x06], None).
Proof.
  apply (WriteAt_ReadAt_roundtrip 0 [Byte.x05; Byte.x06] 1 5000000000 6000000000 sample_cache
           (mkPiece 0 0 false 0 None));
    [apply sample_cache_ok|done|simpl; lia|unfold len; simpl; lia].
Defined.

(** A recycled buffer is not cleared: the bytes a piece did not write yet are
    the previous owner's. *)
Example recycled_buffer_is_stale :
  (r ← MemPiece_WriteAt 0 [Byte.x05] 0 0 sample_cache;
   s ← MemPiece_ReadAt 0 4 0 0 (fst r);
   Some (snd (fst s))) = Some [Byte.x05; Byte.x09; Byte.x09; Byte.x09].
Proof. reflexivity. Qed.
