(* ===== verification/Reader.v ===== *)
(** * Readers (torrstor: reader.go, deadline.go)

    A reader wraps the torrent's own reader: it parks it when idle, keeps the
    window of pieces the cache must not evict, and turns the rate it is drained
    at into a playout schedule.  Each operation is one transition of the cache
    state; [beginIO] and [endIO] are also transitions of their own, because the
    read between them can block while others run.  [rid] is the identity of the
    reader object. *)

From S2P Require Import Prelude GoFloat Ranges CacheState MemPiece.
Local Open Scope go_scope.

Inductive whence := SeekStart | SeekCurrent | SeekEnd | SeekOther.
Inductive seek_error := SeekEOF | BadWhence.

(** ** The embedded torrent reader (anacrolix-torrent/reader.go) *)

Definition under_Seek (off : Z) (w : whence) (r : Reader) : Reader * Z * option seek_error :=
  match w with
  | SeekStart => (set_under_pos off r, off, None)
  | SeekCurrent => let n := under_pos r +! off in (set_under_pos n r, n, None)
  | SeekEnd => let n := file_length (file r) +! off in (set_under_pos n r, n, None)
  | SeekOther => (r, 0, Some BadWhence)
  end.

Definition under_SetReadahead (ra : Z) (r : Reader) : Reader := set_under_ra (Some ra) r.

(** ** Parking and resuming *)

Definition SetReadahead (length : Z) (r : Reader) : Reader :=
  let r := if isUse r then under_SetReadahead length r else r in
  set_readahead length r.

Definition resume_reader (r : Reader) : Reader :=
  let r := if under_pos r =? 0 then set_under_pos (offset r) r else r in
  let r := set_isUse true r in
  SetReadahead (readahead r) r.

Definition resume (rid : nat) (c : Cache) : Cache :=
  match readerHeap c !! rid with
  | Some r =>
      if isUse r then c
      else set_activeReaders (i32 (activeReaders c + 1)) (upd_reader rid resume_reader c)
  | None => c
  end.

Definition readerOn (rid : nat) (c : Cache) : Cache := resume rid c.

Definition beginIO (rid : nat) (c : Cache) : Cache :=
  upd_reader rid (λ r, set_inFlight (inFlight r +! 1) r) (resume rid c).

Definition endIO (rid : nat) (c : Cache) : Cache :=
  upd_reader rid (λ r, set_inFlight (inFlight r -! 1) r) c.

Definition park_reader (r : Reader) : Reader :=
  let r := set_isUse false (under_SetReadahead 0 r) in
  if 0 <? offset r then set_under_pos 0 r else r.

Definition readerOff (rid : nat) (c : Cache) : Cache :=
  match readerHeap c !! rid with
  | Some r =>
      if 0 <? inFlight r then c
      else if isUse r
      then set_activeReaders (i32 (activeReaders c - 1)) (upd_reader rid park_reader c)
      else c
  | None => c
  end.

(** ** The protected window *)

Definition getUseReaders (c : Cache) : Z := activeReaders c.

Definition getPieceNum (off : Z) (r : Reader) (c : Cache) : Z :=
  (off +! file_offset (file r)) /! pieceLength c.

Definition safetyFactor : float64 := S754_finite false 7656119366529843 (-53).   (* 0.85 *)

(** [int64(float64(share)*safetyFactor*float64(pct)/100.0)] *)
Definition window_share `{GoRuntime} (share pct : Z) : Z :=
  f_to_i64 (f_div (f_mul (f_mul (f_of_int share) safetyFactor) (f_of_int pct)) (f_of_int 100)).

Definition getOffsetRange `{GoRuntime} (bt : BTSets) (r : Reader) (c : Cache) : Z * Z :=
  let prc := ReaderReadAHead bt in
  let n := getUseReaders c in
  let n := if n =? 0 then 1 else n in
  let beginOffset := offset r -! window_share (capacity c /! n) (100 -! prc) in
  let endOffset := offset r +! window_share (capacity c /! n) prc in
  (if beginOffset <? 0 then 0 else beginOffset,
   if file_length (file r) <? endOffset then file_length (file r) else endOffset).

Definition getPiecesRange `{GoRuntime} (bt : BTSets) (r : Reader) (c : Cache) : Range :=
  let '(startOff, endOff) := getOffsetRange bt r c in
  mkRange (getPieceNum startOff r c) (getPieceNum endOff r c) (file r).

Definition getReaderPiece (r : Reader) (c : Cache) : Z := getPieceNum (offset r) r c.
Definition getReaderRAHPiece (r : Reader) (c : Cache) : Z :=
  getPieceNum (offset r +! readahead r) r c.

(** ** Playout deadlines (deadline.go) *)

Definition second : Z := 1000000000.
Definition deadlineRateInterval : Z := second.
Definition deadlineRateAlpha : float64 := S754_finite false 5404319552844595 (-54).      (* 0.3 *)
Definition deadlineRateBeta : float64 := S754_finite false 6305039478318694 (-53).       (* 1 - 0.3 *)
Definition deadlineUpdateInterval : Z := 2 * second.
Definition deadlineMaxPieces : Z := 64.
Definition deadlineMinRate : Z := 64 * 1024.
Definition deadlineStaleAfter : Z := 15 * second.

(** [Duration.Seconds] *)
Definition seconds (d : Z) : float64 :=
  f_add (f_of_int (d /! second)) (f_div (f_of_int (d %! second)) (f_of_int second)).

Definition deadlineSchedule `{GoRuntime} (abs pieceLen : Z) (rate : float64) (now : Z)
    : Z * Z * Z :=
  if (pieceLen <=? 0) || f_leb rate f_zero then (0, now, 0)
  else
    let remaining := pieceLen -! abs %! pieceLen in
    (abs /! pieceLen,
     now +! f_to_i64 (f_mul (f_div (f_of_int remaining) rate) (f_of_int second)),
     f_to_i64 (f_mul (f_div (f_of_int pieceLen) rate) (f_of_int second))).

(** First piece and number of pieces of the reader's file. *)
Definition filePieceRange (r : Reader) (c : Cache) : Z * Z :=
  let begin_ := file_offset (file r) in
  let end_ := begin_ +! file_length (file r) in
  let first := begin_ /! pieceLength c in
  let last_ := (end_ -! 1) /! pieceLength c in
  (first, last_ -! first +! 1).

(** Where the window of [n] pieces ends up after the cuts of [pushDeadlines]. *)
Definition deadline_window (readahead pieceLen first fileFirst fileCount : Z) : Z :=
  let n := deadlineMaxPieces in
  let window := readahead /! pieceLen +! 2 in
  let n := if window <? n then window else n in
  let last_ := fileFirst +! fileCount -! 1 in
  if last_ <? first +! n -! 1 then last_ -! first +! 1 else n.

Definition pushDeadlines `{GoRuntime} (rid : nat) (offset_ readahead_ : Z) (rate : float64)
    (now : Z) (c : Cache) : Cache * bool :=
  match readerHeap c !! rid with
  | None => (c, false)
  | Some r =>
      if f_ltb rate (f_of_int deadlineMinRate) || (pieceLength c <=? 0) then (c, false)
      else if negb (t_info (tor c)) then (c, false)
      else
        let abs := offset_ +! file_offset (file r) in
        let pieceLen := pieceLength c in
        let '(first, firstDue, interval) := deadlineSchedule abs pieceLen rate now in
        if interval <=? 0 then (c, false)
        else
          let '(fileFirst, fileCount) := filePieceRange r c in
          let n := deadline_window readahead_ pieceLen first fileFirst fileCount in
          if n <=? 0 then (c, false)
          else
            let t := tor c in
            let t := if fileFirst <? first
                     then ClearStreamDeadlinesRange fileFirst (first -! fileFirst) t else t in
            let end_ := first +! n in
            let t := if end_ <? fileFirst +! fileCount
                     then ClearStreamDeadlinesRange end_ (fileFirst +! fileCount -! end_) t
                     else t in
            (set_tor (SetStreamDeadlines first n firstDue interval t) c, true)
  end.

Definition reset_deadline_state (r : Reader) : Reader :=
  set_deadlineSetAt None (set_deadlineRateAt None
    (set_deadlineBytes 0 (set_deadlineRate f_zero r))).

Definition clearDeadlines (rid : nat) (c : Cache) : Cache :=
  match readerHeap c !! rid with
  | None => c
  | Some r =>
      let c := upd_reader rid reset_deadline_state c in
      if pieceLength c <=? 0 then c
      else let '(first, n) := filePieceRange r c in
           upd_tor (ClearStreamDeadlinesRange first n) c
  end.

Definition dropStaleDeadlines (rid : nat) (now : Z) (c : Cache) : Cache :=
  match readerHeap c !! rid with
  | None => c
  | Some r =>
      match deadlineSetAt r with
      | None => c
      | Some set_at => if now - set_at <? deadlineStaleAfter then c else clearDeadlines rid c
      end
  end.

(** The rate sample once a full interval has passed: [inst] folded into the
    moving average. *)
Definition fold_rate (r : Reader) (dt now : Z) : Reader :=
  let inst := f_div (f_of_int (deadlineBytes r)) (seconds dt) in
  let rate := if f_eqb (deadlineRate r) f_zero then inst
              else f_add (f_mul deadlineRateAlpha inst) (f_mul deadlineRateBeta (deadlineRate r)) in
  set_deadlineRate rate (set_deadlineRateAt (Some now) (set_deadlineBytes 0 r)).

Definition sampleConsumption `{GoRuntime} (rid : nat) (n now : Z) (c : Cache) : Cache :=
  if n <=? 0 then c
  else match readerHeap c !! rid with
  | None => c
  | Some r =>
      let r := set_deadlineBytes (deadlineBytes r +! n) r in
      match deadlineRateAt r with
      | None => upd_reader rid (λ _, set_deadlineRateAt (Some now) r) c
      | Some at_ =>
          let dt := now -! at_ in
          if dt <? deadlineRateInterval then upd_reader rid (λ _, r) c
          else
            let r := fold_rate r dt now in
            let c := upd_reader rid (λ _, r) c in
            let due := match deadlineSetAt r with
                       | None => true
                       | Some s => deadlineUpdateInterval <=? now -! s
                       end in
            if negb due then c
            else
              let '(c, ok) := pushDeadlines rid (offset r) (readahead r) (deadlineRate r) now c in
              if ok then upd_reader rid (set_deadlineSetAt (Some now)) c else c
      end
  end.

(** ** Reader operations *)

Definition SetAggressive (enabled : bool) (masterLimit : Z) (c : Cache) : Cache :=
  let c := set_IsAggressive enabled c in
  if 0 <? masterLimit then set_MasterLimit masterLimit c else c.

(** The reader [newReader] allocates; [SetReadahead(0)] runs before [r.cache] is
    set and returns at once, so the torrent reader keeps its adaptive default. *)
Definition fresh_reader (file : TFile) : Reader :=
  mkReader 0 None false 0 0 file false 0 true 0 0 f_zero None None.

Definition newReader (rid : nat) (file : TFile) (c : Cache) : Cache :=
  let c := SetAggressive true 0 c in
  let c := set_readerHeap (<[rid := fresh_reader file]> (readerHeap c)) c in
  let c := set_activeReaders (i32 (activeReaders c + 1)) c in
  match readers c with
  | Some rs => set_readers (Some (<[rid := tt]> rs)) c
  | None => c
  end.

(** The field [Seek] writes before it takes the reader. *)
Definition seek_offset (off : Z) (w : whence) (r : Reader) : Reader :=
  match w with
  | SeekStart => set_offset off r
  | SeekCurrent => set_offset (offset r +! off) r
  | SeekEnd => set_offset (file_length (file r) +! off) r
  | SeekOther => r
  end.

(** What [Seek] does once it holds the reader: the torrent reader moves, and the
    position it reports is stored back. *)
Definition seek_under (rid : nat) (off : Z) (w : whence) (now : Z) (c : Cache)
    : Cache * Z * option seek_error :=
  match readerHeap c !! rid with
  | None => (c, 0, None)
  | Some r =>
      let '(r, n, err) := under_Seek off w r in
      (upd_reader rid (λ _, set_lastAccess (unix now) (set_offset n r)) c, n, err)
  end.

Definition Reader_Seek (rid : nat) (off : Z) (w : whence) (now : Z) (c : Cache)
    : Cache * Z * option seek_error :=
  match readerHeap c !! rid with
  | None => (c, 0, None)
  | Some r =>
      if r_isClosed r then (c, 0, Some SeekEOF)
      else
        let c := beginIO rid (upd_reader rid (seek_offset off w) c) in
        let '(c, n, err) := seek_under rid off w now c in
        (endIO rid (clearDeadlines rid c), n, err)
  end.

(** [Read] and [ReadContext] differ in what bounds the wait; both return the
    count [n] the torrent reader produced, which moves its position.  The two
    halves are transitions of their own: the read blocks between them. *)
Definition Read_begin (rid : nat) (c : Cache) : option Cache :=
  match readerHeap c !! rid with
  | Some r => if r_isClosed r || negb (t_info (tor c)) then None else Some (beginIO rid c)
  | None => None
  end.

Definition read_advance (n now : Z) (r : Reader) : Reader :=
  set_lastAccess (unix now)
    (set_offset (offset r +! n) (set_under_pos (under_pos r +! n) r)).

Definition Read_end `{GoRuntime} (rid : nat) (n now : Z) (c : Cache) : Cache :=
  endIO rid (sampleConsumption rid n now (upd_reader rid (read_advance n now) c)).

Definition Reader_Read `{GoRuntime} (rid : nat) (n now : Z) (c : Cache) : Cache :=
  match Read_begin rid c with
  | Some c => Read_end rid n now c
  | None => c
  end.

Definition Offset (r : Reader) : Z := offset r.
Definition Readahead (r : Reader) : Z := readahead r.

(** [Close] up to the goroutine it starts, which runs [getRemPieces] later. *)
Definition Reader_Close (rid : nat) (c : Cache) : Cache :=
  match readerHeap c !! rid with
  | None => c
  | Some r =>
      if r_isClosed r then c
      else
        let c := upd_reader rid (set_r_isClosed true) c in
        let c := readerOff rid (clearDeadlines rid c) in
        upd_reader rid (set_under_closed true) c
  end.

Definition num_readers (c : Cache) : Z :=
  match readers c with Some rs => Z.of_nat (size rs) | None => 0 end.

Definition checkReader (now : Z) (rid : nat) (c : Cache) : Cache :=
  let c := dropStaleDeadlines rid now c in
  match readerHeap c !! rid with
  | None => c
  | Some r =>
      if (lastAccess r +! 60 <? unix now) && (1 <? num_readers c)
      then readerOff rid c else readerOn rid c
  end.

(** ** What one reader promises

    [claimed]: a reader inside a read or a seek is in use, so the idle sweep
    cannot move it.  [in_step]: the torrent reader stands where the reader says,
    or at the head while parked. *)

Definition in_use (r : Reader) : Z := if isUse r then 1 else 0.

Definition claimed (r : Reader) : Prop :=
  0 ≤ inFlight r ≤ max_i64 ∧ (0 < inFlight r → isUse r = true).

Definition in_step (r : Reader) : Prop :=
  if isUse r then under_pos r = offset r else under_pos r = 0 ∨ under_pos r = offset r.

Definition reader_ok (r : Reader) : Prop := claimed r ∧ in_step r.

(** The counter the window is divided by counts the readers in use. *)
Record readers_inv (P : nat → Reader → Prop) (c : Cache) : Prop := {
  inv_count : activeReaders c = i32 (sum_map in_use (readerHeap c));
  inv_each : ∀ rid r, readerHeap c !! rid = Some r → P rid r
}.

(** The transitions of the readers of one cache.  A read is two of them; the
    sweep ([checkReader]), [AdjustRA] and other readers run in between. *)
Inductive reader_step `{GoRuntime} : Cache → Cache → Prop :=
  | step_new c rid file :
      readerHeap c !! rid = None → reader_step c (newReader rid file c)
  | step_seek c rid off w now :
      w ≠ SeekOther →
      (∀ r, readerHeap c !! rid = Some r → inFlight r < max_i64) →
      reader_step c (Reader_Seek rid off w now c).1.1
  | step_read_begin c rid c' :
      (∀ r, readerHeap c !! rid = Some r → inFlight r < max_i64) →
      Read_begin rid c = Some c' → reader_step c c'
  | step_read_end c rid r n now :
      readerHeap c !! rid = Some r → 0 < inFlight r → reader_step c (Read_end rid n now c)
  | step_check c now rid : reader_step c (checkReader now rid c)
  | step_readahead c rid ra : reader_step c (upd_reader rid (SetReadahead ra) c)
  | step_close c rid : reader_step c (Reader_Close rid c).

Section reader_invariant.
Context `{GoRuntime}.
Implicit Types (c : Cache) (r : Reader) (P Q : nat → Reader → Prop).

Lemma readers_inv_ext P c c' :
  readerHeap c' = readerHeap c → activeReaders c' = activeReaders c →
  readers_inv P c → readers_inv P c'.
Proof. intros Hh Ha [? ?]. split; rewrite ?Hh, ?Ha; auto. Qed.

Lemma lookup_upd_reader rid f c k :
  readerHeap (upd_reader rid f c) !! k
  = if decide (k = rid) then f <$> readerHeap c !! k else readerHeap c !! k.
Proof.
  unfold upd_reader; simpl. case_decide as Hk.
  - subst. by rewrite lookup_alter_eq.
  - by rewrite lookup_alter_ne by congruence.
Qed.

Lemma inv_upd P Q c rid f :
  (∀ r, readerHeap c !! rid = Some r → P rid r → isUse (f r) = isUse r ∧ Q rid (f r)) →
  (∀ k r, k ≠ rid → P k r → Q k r) →
  readers_inv P c → readers_inv Q (upd_reader rid f c).
Proof.
  intros Hf HPQ [Hc He]. split.
  - unfold upd_reader; simpl. rewrite Hc, sum_map_alter. f_equal.
    destruct (readerHeap c !! rid) as [r|] eqn:E; simpl; [|lia].
    unfold in_use. destruct (Hf r) as [-> _]; auto. lia.
  - intros k r. rewrite lookup_upd_reader. case_decide as Hk; [subst k|by eauto].
    destruct (readerHeap c !! rid) as [r0|] eqn:E; [|done]. simpl. intros [= <-].
    apply Hf; auto.
Qed.

(** Switching one reader between in use and parked, the counter following. *)
Lemma inv_switch P Q c rid r f d :
  readerHeap c !! rid = Some r → in_use (f r) = in_use r + d →
  Q rid (f r) → (∀ k r, k ≠ rid → P k r → Q k r) →
  readers_inv P c →
  readers_inv Q (set_activeReaders (i32 (activeReaders c + d)) (upd_reader rid f c)).
Proof.
  intros Hr Hd HQ HPQ [Hc He]. split.
  - unfold upd_reader; simpl. rewrite Hc, i32_add, sum_map_alter, Hr; simpl. f_equal. lia.
  - intros k r'.
    change (readerHeap (set_activeReaders (i32 (activeReaders c + d)) (upd_reader rid f c)))
      with (readerHeap (upd_reader rid f c)).
    rewrite lookup_upd_reader. case_decide as Hk; [subst k|by eauto].
    rewrite Hr. simpl. by intros [= <-].
Qed.

Lemma inv_resume P Q c rid :
  (∀ r, isUse r = false → P rid r → Q rid (resume_reader r)) →
  (∀ k r, k ≠ rid ∨ isUse r = true → P k r → Q k r) →
  readers_inv P c → readers_inv Q (resume rid c).
Proof.
  intros Hs HPQ Hi. pose proof (inv_each _ _ Hi) as He. unfold resume.
  destruct (readerHeap c !! rid) as [r|] eqn:Er.
  - destruct (isUse r) eqn:Eu.
    + split; [apply Hi|]. intros k r' Hk. apply HPQ; [|by eauto].
      destruct (decide (k = rid)) as [->|]; [right; congruence|by left].
    + eapply inv_switch; [done| |by auto| |done].
      * unfold in_use. rewrite Eu. unfold resume_reader, SetReadahead.
        destruct (under_pos r =? 0); done.
      * intros k r' Hk. apply HPQ. by left.
  - split; [apply Hi|]. intros k r' Hk. apply HPQ; [|by eauto]. left. congruence.
Qed.

Lemma inv_readerOff c rid :
  readers_inv (λ _, reader_ok) c → readers_inv (λ _, reader_ok) (readerOff rid c).
Proof.
  intros Hi. unfold readerOff. destruct (readerHeap c !! rid) as [r|] eqn:Er; [|done].
  destruct (0 <? inFlight r) eqn:Ef; [done|]. bool_simpl.
  destruct (isUse r) eqn:Eu; [|done].
  replace (activeReaders c - 1) with (activeReaders c + -1) by lia.
  eapply (inv_switch (λ _, reader_ok)); [done| | |done|done].
  - unfold in_use. rewrite Eu. unfold park_reader.
    destruct (0 <? _); done.
  - destruct (inv_each _ _ Hi _ _ Er) as [[Hf _] Hs].
    unfold in_step in Hs. rewrite Eu in Hs.
    unfold reader_ok, claimed, in_step, park_reader. simpl.
    destruct (0 <? offset r) eqn:Eo; simpl; repeat split; auto; lia.
Qed.

Lemma resume_ok r : isUse r = false → reader_ok r → reader_ok (resume_reader r).
Proof.
  intros Hu [[Hf Hc] Hs]. unfold in_step in Hs. rewrite Hu in Hs.
  unfold reader_ok, claimed, in_step, resume_reader, SetReadahead.
  destruct (under_pos r =? 0) eqn:E; simpl; repeat split; auto; bool_simpl; lia.
Qed.

Lemma resume_claimed r : isUse r = false → claimed r → claimed (resume_reader r).
Proof.
  intros Hu [Hf Hc]. unfold claimed, resume_reader, SetReadahead.
  destruct (under_pos r =? 0); simpl; repeat split; auto; lia.
Qed.


(** Bookkeeping that touches neither the counter nor what a reader promises. *)
Definition same_position (r r' : Reader) : Prop :=
  isUse r' = isUse r ∧ inFlight r' = inFlight r ∧ under_pos r' = under_pos r ∧
  offset r' = offset r.

Lemma same_position_claimed r r' : same_position r r' → claimed r → claimed r'.
Proof. intros (Hu & Hf & _) Hc. unfold claimed. by rewrite Hu, Hf. Qed.

Lemma same_position_ok r r' : same_position r r' → reader_ok r → reader_ok r'.
Proof.
  intros Hsp [Hc Hs]. split; [by eapply same_position_claimed|].
  destruct Hsp as (Hu & _ & Hp & Ho). unfold in_step. by rewrite Hu, Hp, Ho.
Qed.

(** A predicate on readers that only looks at what [same_position] fixes. *)
Definition positional P : Prop := ∀ k r r', same_position r r' → P k r → P k r'.

Lemma inv_same_position P c rid f :
  positional P →
  (∀ r, readerHeap c !! rid = Some r → same_position r (f r)) →
  readers_inv P c → readers_inv P (upd_reader rid f c).
Proof.
  intros HP Hf. apply inv_upd; [|done]. intros r Hr Hok. split; [apply Hf, Hr|].
  eapply HP; [|done]. by apply Hf.
Qed.

Lemma inv_clearDeadlines P c rid :
  positional P → readers_inv P c → readers_inv P (clearDeadlines rid c).
Proof.
  intros HP Hi. unfold clearDeadlines. destruct (readerHeap c !! rid) as [r|]; [|done].
  assert (Hu : readers_inv P (upd_reader rid reset_deadline_state c))
    by (apply inv_same_position; done).
  simpl. destruct (pieceLength c <=? 0); [done|].
  eapply readers_inv_ext; [..|exact Hu]; done.
Qed.

Lemma pushDeadlines_only_torrent rid o ra rate now c :
  ∃ t, (pushDeadlines rid o ra rate now c).1 = set_tor t c.
Proof.
  assert (∃ t, c = set_tor t c) as Hid by (exists (tor c); by destruct c).
  unfold pushDeadlines. destruct (readerHeap c !! rid) as [r|]; [|done].
  destruct (_ || _); [done|]. destruct (negb _); [done|].
  destruct (deadlineSchedule _ _ _ _) as [[first due] interval].
  destruct (interval <=? 0); [done|]. destruct (filePieceRange r c) as [ff fc].
  destruct (_ <=? 0); [done|]. eexists. reflexivity.
Qed.

Lemma inv_sampleConsumption P c rid n now :
  positional P →
  readers_inv P c →
  readers_inv P (sampleConsumption rid n now c).
Proof.
  intros HP Hi. unfold sampleConsumption. destruct (n <=? 0); [done|].
  destruct (readerHeap c !! rid) as [r|] eqn:Er; [|done]. simpl.
  assert (Hset : ∀ r', same_position r r' →
    readers_inv P (upd_reader rid (λ _, r') c)).
  { intros r' Hr'. apply inv_same_position; [done| |done]. intros r0 Hr0. congruence. }
  destruct (deadlineRateAt r) as [at_|]; [|by apply Hset].
  destruct (_ <? _); [by apply Hset|].
  destruct (negb _); [by apply Hset|].
  match goal with |- context [pushDeadlines ?a ?b ?d ?e ?f ?g] =>
    pose proof (pushDeadlines_only_torrent a b d e f g) as [t Ht];
    destruct (pushDeadlines a b d e f g) as [c' ok] end.
  simpl in Ht. subst c'.
  match goal with |- context [set_tor t ?d] =>
    assert (readers_inv P (set_tor t d))
      by (eapply readers_inv_ext; [..|apply Hset]; done) end.
  destruct ok; [|done]. apply inv_same_position; [done| |done]. done.
Qed.

Lemma inv_beginIO P Q c rid :
  (∀ r, isUse r = false → P rid r →
     Q rid (set_inFlight (i64 (inFlight (resume_reader r) + 1)) (resume_reader r))) →
  (∀ r, isUse r = true → P rid r → Q rid (set_inFlight (i64 (inFlight r + 1)) r)) →
  (∀ k r, k ≠ rid → P k r → Q k r) →
  readers_inv P c → readers_inv Q (beginIO rid c).
Proof.
  intros H0 H1 Hk Hi. unfold beginIO.
  apply (inv_upd (λ k r, if decide (k = rid) then Q rid (set_inFlight (i64 (inFlight r + 1)) r)
                         else Q k r)).
  - intros r _. by rewrite decide_True.
  - intros k r Hne. by rewrite decide_False.
  - eapply inv_resume; [| |exact Hi].
    + intros r Hu HP. rewrite decide_True by done. auto.
    + intros k r Hor HP. case_decide as E; [|by auto]. subst. destruct Hor; [done|]. auto.
Qed.

Lemma begin_claimed r : claimed r → isUse r = true → inFlight r < max_i64 →
  claimed (set_inFlight (i64 (inFlight r + 1)) r).
Proof.
  intros [Hf Hc] Hu Hm. unfold claimed, max_i64 in *. simpl.
  rewrite i64_id by (unfold in_i64; lia). split; [lia|done].
Qed.

Lemma end_claimed r : claimed r → 0 < inFlight r →
  claimed (set_inFlight (i64 (inFlight r - 1)) r).
Proof.
  intros [Hf Hc] Hp. unfold claimed, max_i64 in *. simpl.
  rewrite i64_id by (unfold in_i64; lia). split; [lia|auto].
Qed.

Lemma resume_inFlight r : inFlight (resume_reader r) = inFlight r ∧ isUse (resume_reader r) = true.
Proof. unfold resume_reader, SetReadahead. by destruct (under_pos r =? 0). Qed.

Definition busy (rid k : nat) r : Prop := reader_ok r ∧ (k = rid → 0 < inFlight r).

Lemma positional_ok : positional (λ _, reader_ok).
Proof. intros k r r'. apply same_position_ok. Qed.

Lemma positional_busy rid : positional (busy rid).
Proof.
  intros k r r' Hs [Hok Hp]. split; [by eapply same_position_ok|].
  destruct Hs as (_ & -> & _). done.
Qed.

Lemma inv_read_begin c c' rid :
  (∀ r, readerHeap c !! rid = Some r → inFlight r < max_i64) →
  Read_begin rid c = Some c' →
  readers_inv (λ _, reader_ok) c → readers_inv (λ _, reader_ok) c'.
Proof.
  intros Hb Hr Hi. unfold Read_begin in Hr.
  destruct (readerHeap c !! rid) as [r|] eqn:Er; [|done].
  destruct (_ || _); [done|]. simplify_eq.
  apply (inv_beginIO (λ k r, reader_ok r ∧ (k = rid → inFlight r < max_i64))
           (λ _, reader_ok)).
  - intros r0 Hu [Hok Hm]. pose proof (resume_ok _ Hu Hok) as [Hc Hs].
    pose proof (resume_inFlight r0) as [E1 E2].
    split; [|exact Hs]. apply begin_claimed; [done..|]. rewrite E1. auto.
  - intros r0 Hu [[Hc Hs] Hm]. split; [apply begin_claimed; auto|exact Hs].
  - by intros k r0 _ [? _].
  - split; [apply Hi|]. intros k r0 Hk. split; [by eapply Hi|]. intros ->.
    apply Hb. congruence.
Qed.

Lemma inv_read_end c rid r n now :
  readerHeap c !! rid = Some r → 0 < inFlight r →
  readers_inv (λ _, reader_ok) c → readers_inv (λ _, reader_ok) (Read_end rid n now c).
Proof.
  intros Hr Hf Hi. unfold Read_end, endIO. apply (inv_upd (busy rid)).
  - intros r0 _ [[Hc Hs] Hp]. split; [done|].
    split; [by apply end_claimed; auto|exact Hs].
  - by intros k r0 _ [? _].
  - apply inv_sampleConsumption; [apply positional_busy|].
    apply (inv_upd (λ _, reader_ok)).
    + intros r0 Hr0 [Hc Hs]. simplify_eq.
      assert (Hu : isUse r = true) by (apply Hc; done).
      split; [done|]. split; [|by intros _].
      split; [exact Hc|]. unfold in_step in *. simpl. rewrite Hu in *. congruence.
    + intros k r0 Hne Hok. by split.
    + done.
Qed.

Definition seeking (rid k : nat) r : Prop :=
  if decide (k = rid) then claimed r ∧ isUse r = true ∧ 0 < inFlight r else reader_ok r.

Lemma inv_seek_begin c rid off w :
  (∀ r, readerHeap c !! rid = Some r → inFlight r < max_i64) →
  readers_inv (λ _, reader_ok) c →
  readers_inv (seeking rid) (beginIO rid (upd_reader rid (seek_offset off w) c)).
Proof.
  intros Hb Hi. unfold seeking.
  apply (inv_beginIO (λ k r, if decide (k = rid) then claimed r ∧ inFlight r < max_i64
                             else reader_ok r)).
  - intros r Hu. rewrite !decide_True by done. intros [Hc Hm].
    pose proof (resume_inFlight r) as [E1 E2].
    pose proof (resume_claimed _ Hu Hc) as Hc'.
    split; [apply begin_claimed; [done..|lia]|]. split; [done|].
    destruct Hc as [Hf _]. unfold max_i64 in *.
    change (inFlight (set_inFlight ?x ?r)) with x.
    rewrite E1, i64_id by (unfold in_i64; lia). lia.
  - intros r Hu. rewrite !decide_True by done. intros [Hc Hm].
    split; [by apply begin_claimed|]. split; [done|]. simpl.
    destruct Hc as [Hf _]. unfold max_i64 in *. rewrite i64_id by (unfold in_i64; lia). lia.
  - intros k r Hne. by rewrite !decide_False.
  - apply (inv_upd (λ _, reader_ok)); [| |done].
    + intros r Hr [Hc _]. rewrite decide_True by done. destruct w; simpl; auto.
    + intros k r Hne. by rewrite decide_False.
Qed.

Lemma inv_seek_under c rid off w now :
  w ≠ SeekOther → readers_inv (seeking rid) c →
  readers_inv (busy rid) (seek_under rid off w now c).1.1.
Proof.
  intros Hw Hi. unfold seek_under.
  assert (Hk : ∀ k r, k ≠ rid → seeking rid k r → busy rid k r).
  { intros k r Hne. unfold seeking, busy. by rewrite decide_False. }
  destruct (readerHeap c !! rid) as [r|] eqn:Er.
  - destruct (under_Seek off w r) as [[r' n] err] eqn:Es. simpl.
    eapply (inv_upd (seeking rid)); [|exact Hk|done].
    intros r0 Hr0. simplify_eq. unfold seeking, busy. rewrite decide_True by done.
    intros (Hc & Hu & Hp). unfold reader_ok, claimed, in_step in *.
    destruct w; simpl in Es; simplify_eq; simpl; rewrite ?Hu;
      split_and!; auto; lia.
  - split; [apply Hi|]. simpl. intros k r Hk'. apply Hk; [|by eapply Hi].
    intros ->. congruence.
Qed.

Lemma inv_seek c rid off w now :
  w ≠ SeekOther → (∀ r, readerHeap c !! rid = Some r → inFlight r < max_i64) →
  readers_inv (λ _, reader_ok) c →
  readers_inv (λ _, reader_ok) (Reader_Seek rid off w now c).1.1.
Proof.
  intros Hw Hb Hi. unfold Reader_Seek.
  destruct (readerHeap c !! rid) as [r|] eqn:Er; [|done].
  destruct (r_isClosed r); [done|].
  pose proof (inv_seek_under _ _ off w now Hw
    (inv_seek_begin _ _ off w ltac:(intros r0; rewrite Er; apply Hb) Hi)) as Hu.
  destruct (seek_under _ _ _ _ _) as [[c' n] err]. simpl in *.
  unfold endIO. eapply (inv_upd (busy rid)).
  - intros r0 _ [[Hc Hs] Hp]. split; [done|].
    split; [by apply end_claimed; auto|exact Hs].
  - by intros k r0 _ [? _].
  - apply inv_clearDeadlines; [apply positional_busy|done].
Qed.

Lemma inv_checkReader c now rid :
  readers_inv (λ _, reader_ok) c → readers_inv (λ _, reader_ok) (checkReader now rid c).
Proof.
  intros Hi. unfold checkReader.
  set (c1 := dropStaleDeadlines rid now c).
  assert (Hi1 : readers_inv (λ _, reader_ok) c1).
  { unfold c1, dropStaleDeadlines. destruct (readerHeap c !! rid) as [r|]; [|done].
    destruct (deadlineSetAt r); [|done]. case_if; [done|].
    by apply inv_clearDeadlines; [apply positional_ok|]. }
  destruct (readerHeap c1 !! rid); [|done].
  destruct (_ && _); [by apply inv_readerOff|].
  eapply (inv_resume (λ _, reader_ok)); [|done|done]. intros r1. apply resume_ok.
Qed.

Lemma inv_close c rid :
  readers_inv (λ _, reader_ok) c → readers_inv (λ _, reader_ok) (Reader_Close rid c).
Proof.
  intros Hi. unfold Reader_Close. destruct (readerHeap c !! rid) as [r|]; [|done].
  destruct (r_isClosed r); [done|].
  apply inv_same_position; [apply positional_ok|done|].
  apply inv_readerOff, inv_clearDeadlines; [apply positional_ok|].
  by apply inv_same_position; [apply positional_ok| |].
Qed.

Lemma fresh_reader_ok file : reader_ok (fresh_reader file).
Proof. unfold reader_ok, claimed, in_step, max_i64; simpl. lia. Qed.

Lemma inv_newReader c rid file :
  readerHeap c !! rid = None →
  readers_inv (λ _, reader_ok) c → readers_inv (λ _, reader_ok) (newReader rid file c).
Proof.
  intros Hn [Hc He].
  assert (E1 : readerHeap (newReader rid file c) = <[rid := fresh_reader file]> (readerHeap c)).
  { unfold newReader. simpl. by destruct (readers c). }
  assert (E2 : activeReaders (newReader rid file c) = i32 (activeReaders c + 1)).
  { unfold newReader. simpl. by destruct (readers c). }
  split.
  - rewrite E1, E2, Hc, i32_add, sum_map_insert_fresh by done. f_equal. unfold in_use; simpl. lia.
  - intros k r. rewrite E1, lookup_insert_Some.
    intros [[_ <-]|[_ Hk]]; [apply fresh_reader_ok|by eauto].
Qed.

Lemma inv_step c c' :
  reader_step c c' → readers_inv (λ _, reader_ok) c → readers_inv (λ _, reader_ok) c'.
Proof.
  intros Hs Hi. destruct Hs.
  - by apply inv_newReader.
  - by apply inv_seek.
  - by eapply inv_read_begin.
  - by eapply inv_read_end.
  - by apply inv_checkReader.
  - apply inv_same_position; [apply positional_ok| |done].
    intros r _. unfold SetReadahead. destruct (isUse r) eqn:E; repeat split; done.
  - by apply inv_close.
Qed.

Lemma inv_reachable c0 c :
  rtc reader_step c0 c → readerHeap c0 = ∅ → activeReaders c0 = 0 →
  readers_inv (λ _, reader_ok) c.
Proof.
  intros Hsteps Hh Ha.
  assert (readers_inv (λ _, reader_ok) c0) as H0.
  { split; rewrite Hh; [by rewrite Ha, sum_map_empty|]. intros rid r. by rewrite lookup_empty. }
  clear Hh Ha. induction Hsteps; [done|]. eauto using inv_step.
Qed.


(** parking a reader and resuming it is the identity on it, except that the
    torrent reader's readahead is set to the reader's own: the position is
    recovered and the counter comes back. *)
Theorem park_resume_roundtrip rid r c :
  readerHeap c !! rid = Some r → reader_ok r → isUse r = true → inFlight r = 0 →
  0 ≤ offset r → - 2 ^ 31 ≤ activeReaders c < 2 ^ 31 →
  readerOn rid (readerOff rid c) = upd_reader rid (set_under_ra (Some (readahead r))) c.
Proof.
  intros Hr [_ Hs] Hu Hf Ho Ha. unfold in_step in Hs. rewrite Hu in Hs.
  unfold readerOff. rewrite Hr, Hf, Hu; simpl.
  unfold readerOn, resume, upd_reader; simpl. rewrite lookup_alter_eq, Hr; simpl.
  assert (isUse (park_reader r) = false) as ->.
  { unfold park_reader; simpl. by destruct (0 <? offset r). }
  unfold upd_reader; simpl. replace (activeReaders c - 1) with (activeReaders c + -1) by lia.
  rewrite i32_add. replace (activeReaders c + -1 + 1) with (activeReaders c) by lia.
  rewrite i32_id by lia.
  assert (E : alter resume_reader rid (alter park_reader rid (readerHeap c))
              = alter (set_under_ra (Some (readahead r))) rid (readerHeap c)).
  { apply map_eq. intros k. destruct (decide (k = rid)) as [->|].
    - rewrite !lookup_alter_eq, Hr; simpl. f_equal.
      unfold park_reader, resume_reader, SetReadahead; simpl.
      destruct (Z.ltb_spec 0 (offset r)); simpl.
      + destruct r; simpl in *; subst; reflexivity.
      + rewrite Hs. assert (offset r = 0) as E0 by lia. rewrite E0; simpl.
        destruct r; simpl in *; subst; reflexivity.
    - by rewrite !lookup_alter_ne by congruence. }
  rewrite E. unfold set_readerHeap, set_activeReaders; simpl. by destruct c.
Qed.

(** Where a seek is asked to go. *)
Definition seek_target (off : Z) (w : whence) (r : Reader) : Z :=
  match w with
  | SeekStart => off
  | SeekCurrent => i64 (offset r + off)
  | SeekEnd => i64 (file_length (file r) + off)
  | SeekOther => 0
  end.

Lemma clearDeadlines_lookup rid c r :
  readerHeap c !! rid = Some r →
  readerHeap (clearDeadlines rid c) !! rid = Some (reset_deadline_state r).
Proof.
  intros Hr. unfold clearDeadlines. rewrite Hr. simpl. repeat case_match; simpl;
    by rewrite lookup_alter_eq, Hr.
Qed.

Lemma beginIO_lookup rid c r :
  readerHeap c !! rid = Some r →
  readerHeap (beginIO rid c) !! rid
  = Some (let r := if isUse r then r else resume_reader r in
          set_inFlight (i64 (inFlight r + 1)) r).
Proof.
  intros Hr. unfold beginIO. rewrite lookup_upd_reader, decide_True by done.
  unfold resume. rewrite Hr. destruct (isUse r); [by rewrite Hr|].
  unfold upd_reader; simpl. by rewrite lookup_alter_eq, Hr.
Qed.

(** The reader after a seek that is not refused, as one expression. *)
Lemma Seek_result rid off w now r c :
  readerHeap c !! rid = Some r → r_isClosed r = false →
  let r1 := seek_offset off w r in
  let r2 := if isUse r then r1 else resume_reader r1 in
  let '(r3, n, err) := under_Seek off w (set_inFlight (i64 (inFlight r2 + 1)) r2) in
  ∃ c', Reader_Seek rid off w now c = (c', n, err) ∧
    readerHeap c' !! rid =
      Some (let r4 := reset_deadline_state (set_lastAccess (unix now) (set_offset n r3)) in
            set_inFlight (i64 (inFlight r4 - 1)) r4).
Proof.
  intros Hr Hcl r1 r2. unfold Reader_Seek. rewrite Hr, Hcl. unfold seek_under.
  assert (Hr1 : readerHeap (upd_reader rid (seek_offset off w) c) !! rid = Some r1)
    by (rewrite lookup_upd_reader, decide_True, Hr; done).
  assert (Hu1 : isUse r1 = isUse r) by (unfold r1; by destruct w).
  rewrite (beginIO_lookup _ _ _ Hr1). rewrite Hu1. fold r2. cbv zeta.
  destruct (under_Seek off w _) as [[r3 n] err] eqn:Es.
  eexists. split; [reflexivity|]. unfold endIO. rewrite lookup_upd_reader, decide_True by done.
  erewrite clearDeadlines_lookup; [done|].
  by rewrite lookup_upd_reader, decide_True, (beginIO_lookup _ _ _ Hr1) by done.
Qed.

(** a seek on an open reader lands where it is asked to and leaves the
    reader in use and in step with the torrent reader, with its playout schedule
    reset; relative seeks do so on a reader that is not parked. *)
Theorem Seek_lands rid off w now r c :
  readerHeap c !! rid = Some r → reader_ok r → r_isClosed r = false →
  w ≠ SeekOther → (w = SeekCurrent → isUse r = true) →
  ∃ c' r', Reader_Seek rid off w now c = (c', seek_target off w r, None) ∧
    readerHeap c' !! rid = Some r' ∧ offset r' = seek_target off w r ∧
    under_pos r' = offset r' ∧ isUse r' = true ∧ inFlight r' = inFlight r ∧
    deadlineSetAt r' = None ∧ lastAccess r' = unix now.
Proof.
  intros Hr [[Hf _] Hs] Hcl Hw Hcur. unfold in_step in Hs.
  pose proof (Seek_result rid off w now r c Hr Hcl) as Hres. cbv zeta in Hres.
  set (r2 := if isUse r then seek_offset off w r else resume_reader (seek_offset off w r)) in *.
  assert (E2 : inFlight r2 = inFlight r ∧ isUse r2 = true ∧ file r2 = file r ∧
               (isUse r = true → under_pos r2 = under_pos r)).
  { unfold r2, resume_reader, SetReadahead.
    destruct w, (isUse r) eqn:Eu; simpl; try destruct (under_pos r =? 0); done. }
  destruct E2 as (Ef & Eu & Efile & Ep).
  assert (Efl : i64 (i64 (inFlight r + 1) - 1) = inFlight r).
  { unfold max_i64 in Hf. destruct (decide (inFlight r = 9223372036854775807)) as [->|]; [done|].
    rewrite (i64_id (_ + 1)), i64_id by (unfold in_i64; lia). lia. }
  clearbody r2.
  destruct w; simpl in Hres; rewrite ?Ef in Hres; [| | |done];
    destruct Hres as (c' & E & Hl).
  - exists c'. eexists. split; [exact E|]. split; [exact Hl|]. simpl. auto 10.
  - specialize (Hcur eq_refl). rewrite Hcur in Hs. rewrite (Ep Hcur), Hs in E, Hl.
    exists c'. eexists. split; [exact E|]. split; [exact Hl|]. simpl. auto 10.
  - rewrite Efile in E, Hl. exists c'. eexists. split; [exact E|]. split; [exact Hl|].
    simpl. auto 10.
Qed.

(** A relative seek on a parked reader moves twice: the offset is advanced
    before the reader is resumed, so the torrent reader is put back at the new
    offset and then moved by the same delta again. *)
Theorem Seek_current_parked rid d now r c :
  readerHeap c !! rid = Some r → r_isClosed r = false →
  isUse r = false → under_pos r = 0 →
  0 ≤ offset r → 0 ≤ d → offset r + 2 * d ≤ max_i64 →
  ∃ c', Reader_Seek rid d SeekCurrent now c = (c', offset r + 2 * d, None) ∧
    offset <$> readerHeap c' !! rid = Some (offset r + 2 * d).
Proof.
  intros Hr Hcl Hu Hp Ho Hd Hm. unfold max_i64 in Hm.
  pose proof (Seek_result rid d SeekCurrent now r c Hr Hcl) as Hres. cbv zeta in Hres.
  rewrite Hu in Hres. unfold resume_reader, SetReadahead in Hres. simpl in Hres.
  rewrite Hp in Hres. simpl in Hres. destruct Hres as (c' & E & Hl).
  rewrite (i64_id (offset r + d)), (i64_id (offset r + d + d)) in E, Hl by (unfold in_i64; lia).
  exists c'. rewrite E, Hl. simpl.
  by replace (offset r + d + d) with (offset r + 2 * d) by lia.
Qed.

Lemma sampleConsumption_active rid n now c :
  activeReaders (sampleConsumption rid n now c) = activeReaders c.
Proof.
  unfold sampleConsumption. destruct (n <=? 0); [done|].
  destruct (readerHeap c !! rid) as [r|]; [|done]. simpl.
  destruct (deadlineRateAt r); [|done]. destruct (_ <? _); [done|].
  destruct (negb _); [done|].
  match goal with |- context [pushDeadlines ?a ?b ?d ?e ?f ?g] =>
    pose proof (pushDeadlines_only_torrent a b d e f g) as [t Ht];
    destruct (pushDeadlines a b d e f g) as [c' ok] end.
  simpl in Ht. subst. by destruct ok.
Qed.

(** closing a reader while a read is in flight leaves it counted: the park
    is refused, the read's own end does not retry it, and closing again is a
    no-op, so the counter the window is divided by never comes down. *)
Theorem Close_in_flight_leaks rid r n now c :
  readerHeap c !! rid = Some r → isUse r = true → 0 < inFlight r → r_isClosed r = false →
  let c1 := Read_end rid n now (Reader_Close rid c) in
  activeReaders c1 = activeReaders c ∧
  Reader_Close rid (Reader_Close rid c) = Reader_Close rid c.
Proof.
  intros Hr Hu Hf Hcl. unfold Read_end, endIO; simpl. rewrite sampleConsumption_active; simpl.
  assert (E : ∃ r', readerHeap (clearDeadlines rid (upd_reader rid (set_r_isClosed true) c)) !! rid
              = Some r' ∧ inFlight r' = inFlight r ∧ r_isClosed r' = true).
  { eexists. split; [apply clearDeadlines_lookup; by rewrite lookup_upd_reader, decide_True, Hr|].
    done. }
  destruct E as (r' & Hr' & Hf' & Hcl').
  assert (Eoff : ∀ c2, readerHeap c2 !! rid = Some r' → readerOff rid c2 = c2).
  { intros c2 H2. unfold readerOff. rewrite H2.
    by rewrite (proj2 (Z.ltb_lt 0 (inFlight r')) ltac:(lia)). }
  assert (Ec : Reader_Close rid c = upd_reader rid (set_under_closed true)
      (clearDeadlines rid (upd_reader rid (set_r_isClosed true) c))).
  { unfold Reader_Close. rewrite Hr, Hcl. by rewrite Eoff. }
  split.
  - rewrite Ec. simpl. unfold clearDeadlines. rewrite lookup_upd_reader, decide_True, Hr by done.
    simpl. by repeat case_match.
  - rewrite Ec. unfold Reader_Close at 1. rewrite lookup_upd_reader, decide_True, Hr' by done.
    simpl. by rewrite Hcl'.
Qed.

End reader_invariant.

(** ** The protected window *)

Section window.
Context `{GoRuntime}.

Lemma safetyFactor_fpos : fpos 53 safetyFactor (7656119366529843 * 2 ^ (scale - 53)).
Proof.
  exists 7656119366529843%positive, (-53). unfold normal, scale. split; [done|].
  split; [lia|]. split; [lia|done].
Qed.

Lemma window_share_zero x p : x = 0 ∨ p = 0 → 0 ≤ x < 2 ^ 53 → 0 ≤ p ≤ 100 →
  window_share x p = 0.
Proof.
  intros H0 Hx Hp. unfold window_share.
  assert (Hz : ∀ z, 0 ≤ z < 2 ^ 53 → f_of_int z = f_zero ∨ ∃ v, fpos 53 (f_of_int z) v).
  { intros z Hz. destruct (decide (z = 0)) as [->|]; [by left|]. right.
    eexists. apply f_of_int_fpos. lia. }
  assert (Hm : ∀ y, y = f_zero ∨ (∃ v, fpos 166 y v) → f_mul f_zero y = f_zero ∧ f_mul y f_zero = f_zero).
  { intros y [->|(v & m & e & -> & _)]; done. }
  assert (E : f_mul (f_mul (f_of_int x) safetyFactor) (f_of_int p) = f_zero).
  { destruct H0 as [->| ->].
    - change (f_mul (f_of_int 0) safetyFactor) with f_zero. apply Hm.
      destruct (Hz p) as [->|[v (m & e & -> & ? & ? & ?)]]; [lia|by left|right].
      exists v, m, e. split_and!; [done..|lia|lia|done].
    - change (f_of_int 0) with f_zero. apply Hm.
      destruct (decide (x = 0)) as [->|]; [by left|right].
      destruct (f_mul_fpos 53 53 _ _ _ _ (f_of_int_fpos x ltac:(lia)) safetyFactor_fpos)
        as (v & Hv & _); [lia..|]. eauto. }
  by rewrite E.
Qed.

(** The floating-point share stays within 0.86 of the exact product, rounding
    included. *)
Lemma window_share_bounds x p : 0 ≤ x < 2 ^ 53 → 0 ≤ p ≤ 100 →
  0 ≤ window_share x p ∧ 10000 * window_share x p ≤ 86 * x * p.
Proof.
  intros Hx Hp.
  destruct (decide (x = 0 ∨ p = 0)) as [H0|Hn]; [rewrite window_share_zero; nia|].
  unfold window_share.
  destruct (f_mul_fpos 53 53 _ _ _ _ (f_of_int_fpos x ltac:(lia)) safetyFactor_fpos)
    as (v1 & Hf1 & Hv1); [lia..|].
  destruct (f_mul_fpos _ 53 _ _ _ _ Hf1 (f_of_int_fpos p ltac:(lia))) as (v2 & Hf2 & Hv2); [lia..|].
  destruct (f_div_fpos _ 53 _ _ _ _ Hf2 (f_of_int_fpos 100 ltac:(lia))) as (v3 & Hf3 & Hv3); [lia..|].
  unfold f_to_i64. rewrite (f_trunc_fpos _ _ _ Hf3) by lia.
  assert (Hpos : 0 < v3).
  { destruct Hf3 as (m & e & _ & _ & He & ->). apply Z.mul_pos_pos; [lia|].
    apply Z.pow_pos_nonneg; unfold scale; lia. }
  assert (Hpow : 2 ^ scale = 2 ^ (scale - 53) * 2 ^ 53).
  { rewrite <-Z.pow_add_r by (unfold scale; lia). f_equal. }
  assert (HS : 0 < 2 ^ (scale - 53)) by (apply Z.pow_pos_nonneg; unfold scale; lia).
  set (s := 2 ^ (scale - 53)) in *. rewrite Hpow in *. clearbody s.
  pose proof (Z.mul_div_le v3 (s * 2 ^ 53) ltac:(lia)) as Hq.
  pose proof (Z.div_pos v3 (s * 2 ^ 53) ltac:(lia) ltac:(lia)) as Hq0.
  set (q := v3 / (s * 2 ^ 53)) in *. clearbody q. clear Hf1 Hf2 Hf3 Hpow Hn.
  change (2 ^ 53) with 9007199254740992 in *. change (2 ^ 52) with 4503599627370496 in *.
  assert (H1 : v1 * 4503599627370496 ≤ x * 7656119366529843 * s * 4503599627370497) by nia.
  assert (H2 : v2 * 4503599627370496 ≤ v1 * p * 4503599627370497) by nia.
  assert (H3 : v3 * 100 * 4503599627370496 ≤ v2 * 4503599627370497) by nia.
  assert (H4 : q * 9007199254740992 * 100 * 4503599627370496 ^ 3
               ≤ x * p * 7656119366529843 * 4503599627370497 ^ 3).
  { apply (Z.mul_le_mono_pos_r _ _ s); [done|].
    assert (v2 * 4503599627370496 ^ 2 ≤ x * p * 7656119366529843 * s * 4503599627370497 ^ 2) by nia.
    assert (v3 * 100 * 4503599627370496 ^ 3
            ≤ x * p * 7656119366529843 * s * 4503599627370497 ^ 3) by nia.
    nia. }
  assert (Hr : 10000 * q ≤ 86 * x * p) by nia.
  assert (q ≤ max_i64 ∧ min_i64 ≤ q) as [Hm1 Hm2] by (unfold max_i64, min_i64; nia).
  rewrite (proj2 (Z.leb_le _ _) Hm1), (proj2 (Z.leb_le _ _) Hm2). simpl. lia.
Qed.

(** What the window computation assumes of the configuration and the reader. *)
Record window_input (bt : BTSets) (r : Reader) (c : Cache) : Prop := {
  wi_capacity : 0 ≤ capacity c < 2 ^ 53;
  wi_prc : 0 ≤ ReaderReadAHead bt ≤ 100;
  wi_active : 0 ≤ activeReaders c < 2 ^ 31;
  wi_offset : 0 ≤ offset r ≤ file_length (file r);
  wi_length : file_length (file r) < 2 ^ 62
}.

Definition window_divisor (c : Cache) : Z := if activeReaders c =? 0 then 1 else activeReaders c.

Lemma getOffsetRange_window bt r c :
  window_input bt r c →
  let '(b, e) := getOffsetRange bt r c in
  0 ≤ b ≤ offset r ∧ offset r ≤ e ≤ file_length (file r) ∧
  100 * window_divisor c * (e - b) ≤ 86 * capacity c.
Proof.
  intros [Hc Hp Ha Ho Hl]. unfold getOffsetRange, getUseReaders, window_divisor.
  set (n := if activeReaders c =? 0 then 1 else activeReaders c).
  assert (Hn : 1 ≤ n < 2 ^ 31) by (unfold n; case_if; lia).
  pose proof (quot_nonneg (capacity c) n ltac:(lia) ltac:(lia)) as Hq.
  pose proof (quot_mul_le (capacity c) n ltac:(lia) ltac:(lia)) as Hq'.
  rewrite (i64_id (Z.quot _ _)) by (unfold in_i64; lia).
  rewrite (i64_id (100 - _)) by (unfold in_i64; lia).
  set (x := Z.quot (capacity c) n) in *.
  pose proof (window_share_bounds x (100 - ReaderReadAHead bt) ltac:(lia) ltac:(lia)) as [H1 H1'].
  pose proof (window_share_bounds x (ReaderReadAHead bt) ltac:(lia) ltac:(lia)) as [H2 H2'].
  set (s1 := window_share x (100 - ReaderReadAHead bt)) in *.
  set (s2 := window_share x (ReaderReadAHead bt)) in *. clearbody s1 s2 x n.
  assert (Hs : 100 * (s1 + s2) ≤ 86 * x) by nia.
  rewrite !i64_id by (unfold in_i64; nia).
  assert (Hw : 100 * n * (s1 + s2) ≤ 86 * capacity c) by nia.
  assert (Hmono : ∀ w, w ≤ s1 + s2 → 100 * n * w ≤ 86 * capacity c) by (intros; nia).
  destruct (Z.ltb_spec (offset r - s1) 0), (Z.ltb_spec (file_length (file r)) (offset r + s2));
    split_and!; try lia; apply Hmono; lia.
Qed.

(** the window of bytes a reader protects from eviction contains its
    position, stays inside its file, and is at most 86% of the capacity divided
    by the readers in use: the 0.85 safety factor with its floating-point
    rounding. *)
Theorem getOffsetRange_bounds bt r c :
  window_input bt r c →
  let '(b, e) := getOffsetRange bt r c in
  0 ≤ b ≤ offset r ∧ offset r ≤ e ≤ file_length (file r) ∧
  100 * window_divisor c * (e - b) ≤ 86 * capacity c.
Proof. apply getOffsetRange_window. Qed.

Definition window_bytes (bt : BTSets) (c : Cache) (r : Reader) : Z :=
  if isUse r then (getOffsetRange bt r c).2 - (getOffsetRange bt r c).1 else 0.

(** in every state the readers can reach, the windows of all the readers in
    use together cover at most 86% of the capacity, so a full cache always has
    bytes outside them. *)
Theorem windows_leave_room bt c c0 :
  rtc reader_step c0 c → readerHeap c0 = ∅ → activeReaders c0 = 0 →
  Z.of_nat (size (readerHeap c)) < 2 ^ 31 →
  (∀ rid r, readerHeap c !! rid = Some r → window_input bt r c) →
  0 ≤ capacity c →
  100 * sum_map (window_bytes bt c) (readerHeap c) ≤ 86 * capacity c.
Proof.
  intros Hsteps Hh Ha Hsize Hin Hcap.
  destruct (inv_reachable _ _ Hsteps Hh Ha) as [Hcount _].
  assert (Hu : ∀ r, 0 ≤ in_use r ≤ 1) by (intros r; unfold in_use; by destruct (isUse r)).
  assert (Hb : 0 ≤ sum_map in_use (readerHeap c) ≤ 1 * sumZ (λ _, 1) (map_to_list (readerHeap c))).
  { split; [apply sum_map_nonneg; intros; apply Hu|].
    apply (sum_map_le in_use (λ _, 1) 1). intros k x _. specialize (Hu x). lia. }
  assert (Hone : sumZ (λ _ : nat * Reader, 1) (map_to_list (readerHeap c))
                 = Z.of_nat (size (readerHeap c))).
  { rewrite <-length_map_to_list. clear. induction (map_to_list _) as [|? ? IH]; [done|].
    simpl in *. lia. }
  rewrite i32_id in Hcount by lia.
  set (n := sum_map in_use (readerHeap c)) in *.
  destruct (decide (n = 0)) as [Hz|Hz].
  - assert (sum_map (window_bytes bt c) (readerHeap c) ≤ 0 * n) as Hle; [|nia].
    apply sum_map_le. intros k r Hr. unfold window_bytes.
    assert (in_use r ≤ n) by (apply sum_map_ge with k; [intros; apply Hu|done]).
    unfold in_use in *. destruct (isUse r); lia.
  - assert (Hd : window_divisor c = n) by (unfold window_divisor; case_if; lia).
    assert (sum_map (window_bytes bt c) (readerHeap c) ≤ (86 * capacity c / (100 * n)) * n) as Hle.
    { apply sum_map_le. intros k r Hr. unfold window_bytes, in_use.
      destruct (isUse r); [|lia].
      pose proof (getOffsetRange_window bt r c (Hin k r Hr)) as Hw.
      destruct (getOffsetRange bt r c) as [b e]. rewrite Hd in Hw. simpl.
      rewrite Z.mul_1_r. apply Z.div_le_lower_bound; lia. }
    pose proof (Z.mul_div_le (86 * capacity c) (100 * n) ltac:(lia)). nia.
Qed.

End window.

(** ** Playout deadlines *)

Section deadlines.
Context `{GoRuntime}.

(** The deadline of a piece, 0 when it has none, as the torrent stores it. *)
Definition deadline_of (t : Torrent) (i : Z) : Z := default 0 (t_deadlines t !! i).

Lemma set_deadlines_loop_spec n t fp k first iv :
  let t' := set_deadlines_loop t fp k first iv n in
  t_numPieces t' = t_numPieces t ∧ t_prio t' = t_prio t ∧
  ∀ i, deadline_of t' i =
    if decide (fp + k ≤ i < fp + k + Z.of_nat n ∧ 0 ≤ i < t_numPieces t)
    then (first + i64 ((i - fp) * iv)) / 1000000 else deadline_of t i.
Proof.
  revert t k. induction n as [|n IH]; intros t k.
  { simpl. split; [done|]. split; [done|]. intros i. rewrite decide_False by lia. done. }
  cbn [set_deadlines_loop].
  set (i0 := fp + k). set (ms := (first + i64 (k * iv)) / 1000000).
  set (t1 := if (i0 <? 0) || (t_numPieces t <=? i0) then t else _).
  assert (Ht1 : t_numPieces t1 = t_numPieces t ∧ t_prio t1 = t_prio t ∧
    ∀ i, deadline_of t1 i = if decide (i = i0 ∧ 0 ≤ i < t_numPieces t) then ms else deadline_of t i).
  { unfold t1. destruct (Z.ltb_spec i0 0), (Z.leb_spec (t_numPieces t) i0); simpl;
      [split_and!; try done; intros i; rewrite decide_False by lia; done..|].
    destruct (Z.eqb_spec (default 0 (t_deadlines t !! i0)) ms) as [E|E].
    - split_and!; try done. intros i. case_decide as Hi; [|done].
      destruct Hi as [-> _]. exact E.
    - split_and!; try done. intros i. unfold deadline_of; simpl.
      destruct (decide (i = i0)) as [->|Hne].
      + rewrite lookup_insert_eq, decide_True by lia. done.
      + rewrite lookup_insert_ne, decide_False by (congruence || lia). done. }
  destruct Ht1 as (Hn1 & Hp1 & Hd1). specialize (IH t1 (k + 1)) as (Hn & Hp & Hd).
  split; [congruence|]. split; [congruence|]. intros i. rewrite Hd, Hd1, Hn1.
  destruct (decide (i = i0)) as [->|Hne].
  - rewrite decide_False by (unfold i0; lia). destruct (decide (0 ≤ i0 < t_numPieces t)).
    + rewrite !decide_True by (unfold i0 in *; lia). unfold ms, i0. repeat f_equal. lia.
    + rewrite !decide_False by lia. done.
  - rewrite (decide_False (P := i = i0 ∧ _)) by lia.
    apply decide_ext. unfold i0 in *. lia.
Qed.

Lemma SetStreamDeadlines_spec fp n first iv t :
  0 < n → 0 < iv →
  t_numPieces (SetStreamDeadlines fp n first iv t) = t_numPieces t ∧
  ∀ i, 0 ≤ i < t_numPieces t →
    deadline_of (SetStreamDeadlines fp n first iv t) i =
    if decide (fp ≤ i < fp + n) then (first + i64 ((i - fp) * iv)) / 1000000 else deadline_of t i.
Proof.
  intros Hn Hiv. unfold SetStreamDeadlines.
  destruct (Z.leb_spec n 0); [lia|]. destruct (Z.leb_spec iv 0); [lia|]. simpl.
  pose proof (set_deadlines_loop_spec (Z.to_nat n) t fp 0 first iv) as (Hnp & _ & Hd).
  split; [done|]. intros i Hi. rewrite Hd. apply decide_ext. lia.
Qed.

Lemma Clear_spec fp n t i :
  deadline_of (ClearStreamDeadlinesRange fp n t) i =
  if decide (fp ≤ i < fp + n) then 0 else deadline_of t i.
Proof.
  unfold ClearStreamDeadlinesRange. destruct (Z.leb_spec n 0).
  { rewrite decide_False by lia. done. }
  unfold deadline_of. simpl.
  destruct (t_deadlines t !! i) as [d|] eqn:Ed.
  - case_decide as Hi.
    + rewrite map_lookup_filter_None_2; [done|]. right. intros x Hx Hn. tauto.
    + erewrite map_lookup_filter_Some_2; [done|done|done].
  - rewrite map_lookup_filter_None_2 by (left; done). by case_decide.
Qed.

Lemma Clear_numPieces fp n t : t_numPieces (ClearStreamDeadlinesRange fp n t) = t_numPieces t.
Proof. unfold ClearStreamDeadlinesRange. by case_if. Qed.

(** A reader's file lies in the torrent and the numbers stay clear of the
    64-bit limits. *)
Record file_input (r : Reader) (c : Cache) : Prop := {
  fi_len : 0 < pieceLength c ≤ 2 ^ 62;
  fi_off : 0 ≤ file_offset (file r);
  fi_length : 0 < file_length (file r);
  fi_end : file_offset (file r) + file_length (file r) ≤ 2 ^ 62
}.

Lemma filePieceRange_spec r c :
  file_input r c →
  filePieceRange r c =
    (file_offset (file r) / pieceLength c,
     (file_offset (file r) + file_length (file r) - 1) / pieceLength c
       - file_offset (file r) / pieceLength c + 1) ∧
  0 ≤ file_offset (file r) / pieceLength c
    ≤ (file_offset (file r) + file_length (file r) - 1) / pieceLength c ∧
  (file_offset (file r) + file_length (file r) - 1) / pieceLength c < 2 ^ 62.
Proof.
  intros [Hp Ho Hl He]. unfold filePieceRange.
  rewrite (i64_id (_ + file_length _)) by (unfold in_i64; lia).
  rewrite (i64_id (_ + file_length _ - 1)) by (unfold in_i64; lia).
  rewrite !Z.quot_div_nonneg by lia.
  assert (0 ≤ file_offset (file r) / pieceLength c) by (apply Z.div_pos; lia).
  assert (file_offset (file r) / pieceLength c
          ≤ (file_offset (file r) + file_length (file r) - 1) / pieceLength c)
    by (apply Z.div_le_mono; lia).
  assert ((file_offset (file r) + file_length (file r) - 1) / pieceLength c < 2 ^ 62)
    by (apply Z.div_lt_upper_bound; nia).
  go_simpl. split; [done|]. lia.
Qed.

(** a pushed schedule covers at most 64 pieces starting at the one being
    played, all of them pieces of the reader's own file; every other piece of
    that file loses its deadline and the pieces of other files keep theirs. *)
Theorem pushDeadlines_schedule rid r off ra rate now c c' :
  readerHeap c !! rid = Some r → file_input r c →
  0 ≤ off < file_length (file r) → 0 ≤ ra ≤ 2 ^ 62 →
  pushDeadlines rid off ra rate now c = (c', true) →
  let first := (off + file_offset (file r)) / pieceLength c in
  let ff := file_offset (file r) / pieceLength c in
  let fl := (file_offset (file r) + file_length (file r) - 1) / pieceLength c in
  ∃ n due interval, 1 ≤ n ≤ deadlineMaxPieces ∧ 0 < interval ∧
    ff ≤ first ∧ first + n - 1 ≤ fl ∧
    ∀ i, 0 ≤ i < t_numPieces (tor c) →
      deadline_of (tor c') i =
      if decide (first ≤ i < first + n) then (due + i64 ((i - first) * interval)) / 1000000
      else if decide (ff ≤ i ≤ fl) then 0 else deadline_of (tor c) i.
Proof.
  intros Hr Hfi Ho Hra. unfold pushDeadlines. rewrite Hr.
  destruct (_ || _) eqn:E1; [done|]. bool_simpl. destruct (negb _); [done|].
  destruct (filePieceRange_spec r c Hfi) as (-> & Hff & Hfl).
  destruct Hfi as [Hp Hfo Hlen Hend].
  set (first := (off + file_offset (file r)) / pieceLength c).
  set (ff := file_offset (file r) / pieceLength c) in *.
  set (fl := (file_offset (file r) + file_length (file r) - 1) / pieceLength c) in *.
  assert (Hfirst : ff ≤ first ≤ fl) by (split; apply Z.div_le_mono; lia).
  unfold deadlineSchedule.
  rewrite (i64_id (off + _)) by (unfold in_i64; lia).
  destruct ((pieceLength c <=? 0) || f_leb rate f_zero) eqn:E2; [simpl; done|].
  set (due := i64 (now + _)). set (iv := f_to_i64 (f_mul (f_div (f_of_int (pieceLength c)) rate) _)).
  clearbody due iv. simpl. rewrite Z.quot_div_nonneg by lia. fold first.
  rewrite (i64_id first) by (unfold in_i64; lia).
  destruct (Z.leb_spec iv 0); [done|].
  set (n := deadline_window ra (pieceLength c) first ff (fl - ff + 1)).
  destruct (Z.leb_spec n 0); [done|].
  assert (Hn : n ≤ deadlineMaxPieces ∧ first + n - 1 ≤ fl).
  { unfold n, deadline_window, deadlineMaxPieces.
    rewrite Z.quot_div_nonneg by lia.
    assert (0 ≤ ra / pieceLength c ≤ 2 ^ 62).
    { split; [apply Z.div_pos; lia|]. apply Z.div_le_upper_bound; nia. }
    rewrite (i64_id (ra / _)), (i64_id (ra / _ + 2)) by (unfold in_i64; lia).
    rewrite (i64_id (ff + _)), (i64_id (ff + _ - 1)) by (unfold in_i64; lia).
    destruct (Z.ltb_spec (ra / pieceLength c + 2) 64);
      rewrite (i64_id (first + _)), (i64_id (first + _ - 1)) by (unfold in_i64; lia);
      (case_if; [rewrite (i64_id (_ - first)), i64_id by (unfold in_i64; lia)|]; lia). }
  clearbody n. unfold deadlineMaxPieces in *.
  go_simpl. intros [= <-]. exists n, due, iv. split; [lia|]. split; [lia|]. split; [lia|].
  split; [lia|]. intros i Hi. simpl.
  set (t2 := if first + n <? ff + (fl - ff + 1) then _ else _).
  assert (Ht2 : t_numPieces t2 = t_numPieces (tor c) ∧
    deadline_of t2 i = if decide (ff ≤ i < first ∨ first + n ≤ i ≤ fl) then 0
                       else deadline_of (tor c) i).
  { unfold t2. destruct (Z.ltb_spec (first + n) (ff + (fl - ff + 1))), (Z.ltb_spec ff first);
      rewrite ?Clear_numPieces; (split; [done|]); rewrite ?Clear_spec;
      repeat case_decide; try done; lia. }
  destruct Ht2 as [Hn2 Hd2].
  destruct (SetStreamDeadlines_spec first n due iv t2) as [_ Hs]; [lia..|].
  rewrite Hs, Hd2 by lia. repeat case_decide; try done; lia.
Qed.

End deadlines.

(** ** Witnesses: two readers on a six-byte file of the sample cache *)

Definition sample_file : TFile := mkTFile 0 6.
Definition sample_sets : BTSets := mkBTSets 16 50 25.
Definition cache0 : Cache := sample_cache.
Definition cache1 : Cache := newReader 0 sample_file cache0.
Definition cache2 : Cache := (Reader_Seek 0 4 SeekStart 5000000000 cache1).1.1.
Definition reader2 : Reader := default (fresh_reader sample_file) (readerHeap cache2 !! 0%nat).
Definition parked : Cache := readerOff 0 cache2.
Definition reader_parked : Reader := default (fresh_reader sample_file) (readerHeap parked !! 0%nat).
Definition reading : Cache := beginIO 0 cache2.
Definition reader_reading : Reader := default (fresh_reader sample_file) (readerHeap reading !! 0%nat).
Definition sample_rate : float64 := f_of_int 1048576.
Definition scheduled : Cache := (pushDeadlines 0 4 8 sample_rate 7000000000 cache2).1.

Lemma reach1 : rtc reader_step cache0 cache1.
Proof. apply rtc_once, step_new. done. Defined.

Lemma reach2 : rtc reader_step cache0 cache2.
Proof.
  eapply rtc_r; [exact reach1|]. apply step_seek; [done|].
  intros r Hr. vm_compute in Hr. by injection Hr as <-.
Defined.


Lemma reader2_ok : reader_ok reader2.
Proof. unfold reader_ok, claimed, in_step, max_i64. vm_compute. intuition congruence. Qed.

Lemma park_resume_roundtrip_witness :
  readerOn 0 (readerOff 0 cache2) = upd_reader 0 (set_under_ra (Some (readahead reader2))) cache2.
Proof.
  apply park_resume_roundtrip; [by vm_compute|apply reader2_ok|done|done|..];
    vm_compute; intuition congruence.
Defined.

Lemma Seek_lands_witness :
  ∃ c' r', Reader_Seek 0 (-1) SeekCurrent 9000000000 cache2
           = (c', seek_target (-1) SeekCurrent reader2, None) ∧
    readerHeap c' !! 0%nat = Some r' ∧ offset r' = seek_target (-1) SeekCurrent reader2 ∧
    under_pos r' = offset r' ∧ isUse r' = true ∧ inFlight r' = inFlight reader2 ∧
    deadlineSetAt r' = None ∧ lastAccess r' = unix 9000000000.
Proof. apply Seek_lands; [by vm_compute|apply reader2_ok|done|done|done]. Defined.

Lemma Seek_current_parked_witness :
  ∃ c', Reader_Seek 0 1 SeekCurrent 9000000000 parked = (c', offset reader_parked + 2 * 1, None) ∧
    offset <$> readerHeap c' !! 0%nat = Some (offset reader_parked + 2 * 1).
Proof.
  apply Seek_current_parked; [by vm_compute|done|done|done|..]; vm_compute; congruence.
Defined.

Lemma Close_in_flight_leaks_witness :
  let c1 := Read_end 0 0 9000000000 (Reader_Close 0 reading) in
  activeReaders c1 = activeReaders reading ∧
  Reader_Close 0 (Reader_Close 0 reading) = Reader_Close 0 reading.
Proof. apply (Close_in_flight_leaks 0 reader_reading); [by vm_compute|done|done|done]. Defined.

Lemma window_input2 r rid : readerHeap cache2 !! rid = Some r → window_input sample_sets r cache2.
Proof.
  intros Hr. assert (rid = 0%nat ∧ r = reader2) as [-> ->].
  { assert (readerHeap cache2 = {[0%nat := reader2]}) as E by (vm_compute; reflexivity).
    rewrite E in Hr. by apply lookup_singleton_Some in Hr as [<- <-]. }
  split; vm_compute; intuition congruence.
Qed.

Lemma getOffsetRange_bounds_witness :
  let '(b, e) := getOffsetRange sample_sets reader2 cache2 in
  0 ≤ b ≤ offset reader2 ∧ offset reader2 ≤ e ≤ file_length (file reader2) ∧
  100 * window_divisor cache2 * (e - b) ≤ 86 * capacity cache2.
Proof. apply getOffsetRange_bounds, (window_input2 _ 0). by vm_compute. Defined.

Lemma windows_leave_room_witness :
  100 * sum_map (window_bytes sample_sets cache2) (readerHeap cache2) ≤ 86 * capacity cache2.
Proof.
  apply (windows_leave_room sample_sets cache2 cache0);
    [exact reach2|done|done|by vm_compute| |by vm_compute].
  intros rid r. apply window_input2.
Defined.

Lemma pushDeadlines_schedule_witness :
  let first := (4 + file_offset (file reader2)) / pieceLength cache2 in
  let ff := file_offset (file reader2) / pieceLength cache2 in
  let fl := (file_offset (file reader2) + file_length (file reader2) - 1) / pieceLength cache2 in
  ∃ n due interval, 1 ≤ n ≤ deadlineMaxPieces ∧ 0 < interval ∧
    ff ≤ first ∧ first + n - 1 ≤ fl ∧
    ∀ i, 0 ≤ i < t_numPieces (tor cache2) →
      deadline_of (tor scheduled) i =
      if decide (first ≤ i < first + n) then (due + i64 ((i - first) * interval)) / 1000000
      else if decide (ff ≤ i ≤ fl) then 0 else deadline_of (tor cache2) i.
Proof.
  apply (pushDeadlines_schedule 0 reader2 4 8 sample_rate 7000000000);
    [by vm_compute| |vm_compute; intuition congruence|vm_compute; intuition congruence
    |by vm_compute].
  split; vm_compute; intuition congruence.
Defined.
