(* ===== verification/PieceCache.v ===== *)
(** * The piece cache (torrstor: cache.go, storage.go)

    The cache decides which pieces are evicted and which are asked for.  Every
    handler of cache.go is one function on the [Cache] state of CacheState.v;
    [None] is a run-time panic, which the cleaner goroutine recovers from
    ([runRecovered]).  [now] is the clock, [bt] the settings. *)

From S2P Require Import Prelude GoFloat Ranges CacheState MemPiece Reader.
Local Open Scope go_scope.

(** ** Construction *)

Definition NewCache (cap : Z) : Cache :=
  mkCache cap 0 "" 0 0 ∅ false ∅ (Some ∅) 0 false false false 0 0
    (mkTorrent 0 false ∅ ∅) false false ∅ [] [] 0.

(** [metainfo.Info] as [Init] reads it. *)
Record Info := mkInfo { PieceLength : Z; NumPieces : Z }.

Definition init_pieces (n : Z) (m : gmap Z Piece) : gmap Z Piece :=
  foldl (λ m k, <[Z.of_nat k := NewPiece (Z.of_nat k)]> m) m (seq 0 (Z.to_nat n)).

(** A zero piece length divides by zero, a negative count has no slice. *)
Definition Init (info : Info) (h : string) (c : Cache) : option Cache :=
  let c := if capacity c =? 0 then set_capacity (PieceLength info *! 4) c else c in
  let c := set_hash h (set_pieceCount (NumPieces info) (set_pieceLength (PieceLength info) c)) in
  if (pieceLength c =? 0) || (pieceCount c <? 0) then None
  else
    let fc := capacity c /! 4 /! pieceLength c in
    let c := set_freeCap (if fc <? 2 then 2 else fc) c in
    let c := set_pieceInRange (replicate (Z.to_nat (pieceCount c)) false) c in
    Some (set_pieceHeap (init_pieces (pieceCount c) (pieceHeap c)) c).

Definition SetTorrent (t : Torrent) (c : Cache) : Cache := set_torrentSet true (set_tor t c).

(** [c.Piece]: the cached piece, or the fake storage. *)
Definition Cache_Piece (i : Z) (c : Cache) : option Piece := piece_at c i.

Definition Cache_Close (c : Cache) : Cache :=
  if isClosed c then c
  else
    let c := set_isClosed true c in
    let c := if piecesNil c then c else set_pieceHeap (MemPiece_drop <$> pieceHeap c) c in
    set_piecesNil true (set_readers None (set_free [] c)).

Definition removePiece (id : Z) (c : Cache) : Cache :=
  if isClosed c then c else Piece_Release id c.

(** ** Readers of the cache *)

Definition Cache_Readers (c : Cache) : Z := num_readers c.
Definition GetUseReaders (c : Cache) : Z := activeReaders c.
Definition GetCapacity (c : Cache) : Z := capacity c.
Definition Cache_NewReader := newReader.

(** [for r := range c.readers] *)
Definition reader_ids `{GoRuntime} (c : Cache) : list nat :=
  match readers c with Some rs => (map_range rs).*1 | None => [] end.

Definition AdjustRA `{GoRuntime} (bt : BTSets) (ra : Z) (c : Cache) : Cache :=
  let c := if CacheSize bt =? 0 then set_capacity (ra *! 3) c else c in
  if 0 <? Cache_Readers c then
    let perReader := perReaderReadahead ra (activeReaders c) in
    foldl (λ c rid, upd_reader rid (SetReadahead perReader) c) c (reader_ids c)
  else c.

(** ** Windows of the readers in use *)

Definition add_window `{GoRuntime} (bt : BTSets) (acc : Cache * list Range) (rid : nat)
    : Cache * list Range :=
  let '(c, ranges) := acc in
  match readerHeap c !! rid with
  | Some r => if isUse r then (c, ranges ++ [getPiecesRange bt r c]) else (c, ranges)
  | None => (c, ranges)
  end.

(** The loop of [refreshPriorities], and the one of [getRemPieces] and
    [clearPriority], which sweeps each reader first. *)
Definition reader_windows `{GoRuntime} (bt : BTSets) (c : Cache) : list Range :=
  (foldl (add_window bt) (c, []) (reader_ids c)).2.

Definition sweep_windows `{GoRuntime} (bt : BTSets) (now : Z) (c : Cache) : Cache * list Range :=
  foldl (λ acc rid, add_window bt (checkReader now rid acc.1, acc.2) rid) (c, []) (reader_ids c).

(** ** Head and tail of the files being read *)

Definition keep_bytes (c : Cache) : Z :=
  if pieceLength c <? Z.shiftl 8 20 then Z.shiftl 8 20 else pieceLength c.

Definition in_file_be (c : Cache) (id : Z) (rng : Range) : bool :=
  let f := File rng in
  let ss := file_offset f /! pieceLength c in
  let se := (file_offset f +! keep_bytes c) /! pieceLength c in
  let es := (file_offset f +! file_length f -! keep_bytes c) /! pieceLength c in
  let ee := (file_offset f +! file_length f) /! pieceLength c in
  ((ss <=? id) && (id <? se)) || ((es <? id) && (id <=? ee)).

Definition isIdInFileBE (ranges : list Range) (id : Z) (c : Cache) : bool :=
  existsb (in_file_be c id) ranges.

(** ** Priorities *)

Definition f_08 : float64 := S754_finite false 7205759403792794 (-53).   (* 0.8 *)

(** How many incomplete pieces one reader may ask for. *)
Definition load_count `{GoRuntime} (bt : BTSets) (c : Cache) : Z :=
  let numReaders := num_readers c in
  let numReaders := if numReaders =? 0 then 1 else numReaders in
  let effectiveLimit := if 0 <? MasterLimit c then MasterLimit c else ConnectionsLimit bt in
  let count := effectiveLimit /! numReaders in
  let count :=
    if IsAggressive c then
      let count := if capacity c <? filled c then 1
                   else f_to_i64 (f_mul (f_of_int effectiveLimit) f_08) in
      if count <? 1 then 1 else count
    else count in
  let count := pieceBudgetCount count (capacity c) (pieceLength c) in
  if count <? 1 then 1 else count.

Definition choose_prio (lp : gmap Z PiecePriority) (readerPos rahPos high i : Z) : PiecePriority :=
  let cur := default PiecePriorityNone (lp !! i) in
  if i =? readerPos then PiecePriorityNow
  else if i =? readerPos + 1 then PiecePriorityNext
  else if (readerPos <? i) && (i <=? rahPos) then PiecePriorityReadahead
  else if (rahPos <? i) && (i <=? rahPos + high) then
    (if decide (cur = PiecePriorityHigh) then PiecePriorityNone else PiecePriorityHigh)
  else if rahPos + high <? i then
    (if decide (cur = PiecePriorityNormal) then PiecePriorityNone else PiecePriorityNormal)
  else PiecePriorityNone.

(** The loop over the pieces ahead of one reader; [n] pieces remain before the
    end of the window, [limit] incomplete ones were passed. *)
Fixpoint prio_loop (c : Cache) (readerPos rahPos high count : Z) (n : nat) (i limit : Z)
    (lp batch : gmap Z PiecePriority) : option (gmap Z PiecePriority * gmap Z PiecePriority) :=
  match n with
  | O => Some (lp, batch)
  | S n =>
      if limit <? count then
        p ← piece_at c i;
        if Complete p then prio_loop c readerPos rahPos high count n (i + 1) limit lp batch
        else
          let prio := choose_prio lp readerPos rahPos high i in
          let '(lp, batch) :=
            if decide (prio = PiecePriorityNone) then (lp, batch)
            else (<[i := prio]> lp, <[i := prio]> batch) in
          prio_loop c readerPos rahPos high count n (i + 1) (limit + 1) lp batch
      else Some (lp, batch)
  end.

Definition high_window (c : Cache) : Z :=
  let w := capacity c /! pieceLength c /! 10 in if w <? 5 then 5 else w.

(** One iteration of [setLoadPriority]'s loop over the readers. *)
Definition load_reader `{GoRuntime} (bt : BTSets) (ranges : list Range) (c : Cache) (rid : nat)
    : option Cache :=
  match readerHeap c !! rid with
  | None => Some c
  | Some r =>
      if negb (isUse r) then Some c
      else if isIdInFileBE ranges (getReaderPiece r c) c then Some c
      else
        let readerPos := getReaderPiece r c in
        let rahPos := getReaderRAHPiece r c in
        let end_ := End (getPiecesRange bt r c) in
        let last_ := Z.min end_ (pieceCount c) in
        '(lp, batch) ← prio_loop c readerPos rahPos (high_window c) (load_count bt c)
                         (Z.to_nat (last_ - readerPos)) readerPos 0 (localPriority c) ∅;
        let c := set_localPriority lp c in
        Some (if decide (batch = ∅) then c else upd_tor (SetPiecePriorities batch) c)
  end.

Definition load_readers `{GoRuntime} (bt : BTSets) (ranges : list Range) (ids : list nat)
    (c : Cache) : option Cache :=
  foldl (λ oc rid, c ← oc; load_reader bt ranges c rid) (Some c) ids.

Definition setLoadPriority `{GoRuntime} (bt : BTSets) (ranges : list Range) (c : Cache)
    : option Cache :=
  if negb (torrentSet c) then Some c
  else if pieceLength c =? 0 then None
  else load_readers bt ranges (reader_ids c) c.

Definition refreshPriorities `{GoRuntime} (bt : BTSets) (c : Cache) : option Cache :=
  if isClosed c then Some c
  else match readers c with
  | None => Some c
  | Some _ =>
      if negb (torrentSet c) || piecesNil c then Some c
      else setLoadPriority bt (mergeRange (reader_windows bt c)) c
  end.

(** One entry of the loop of [clearPriority] over [localPriority]. *)
Definition clear_entry (ranges : list Range) (c : Cache) (id : Z) : Cache :=
  if (len ranges =? 0) || negb (inRanges ranges id)
  then set_localPriority (delete id (localPriority c))
         (upd_tor (SetPriority id PiecePriorityNone) c)
  else c.

Definition clearPriority `{GoRuntime} (bt : BTSets) (now : Z) (c : Cache) : Cache :=
  match readers c with
  | None => c
  | Some _ =>
      if isClosed c || negb (torrentSet c) || piecesNil c then c
      else
        let '(c, ranges) := sweep_windows bt now c in
        let ranges := mergeRange ranges in
        foldl (clear_entry ranges) c ((map_range (localPriority c)).*1)
  end.

(** ** Eviction *)

Definition accessed_less (a b : Piece) : bool := Accessed a <? Accessed b.

(** The scan over the captured map: bytes held and the pieces that may go. *)
Definition scan_piece (ranges : list Range) (c : Cache) (acc : Z * list Piece) (kv : Z * Piece)
    : Z * list Piece :=
  let '(fill, rem) := acc in
  let '(id, p) := kv in
  let fill := if 0 <? Size p then fill +! Size p else fill in
  let inRange := (id <? len (pieceInRange c)) && default false (index (pieceInRange c) id) in
  if negb (pieceEvictable (Size p) (Complete p) inRange) then (fill, rem)
  else if isIdInFileBE ranges id c then (fill, rem) else (fill, rem ++ [p]).

Definition getRemPieces `{GoRuntime} (bt : BTSets) (now : Z) (c : Cache)
    : option (Cache * list Piece) :=
  match readers c with
  | None => Some (c, [])
  | Some _ =>
      if isClosed c || piecesNil c then Some (c, [])
      else
        let '(c, ranges) := sweep_windows bt now c in
        let ranges := mergeRange ranges in
        bits ← fillPieceInRange (pieceInRange c) ranges (pieceCount c);
        let c := set_pieceInRange bits c in
        let '(fill, rem) := foldl (scan_piece ranges c) (0, []) (map_range (pieceHeap c)) in
        c ← setLoadPriority bt ranges (clearPriority bt now c);
        Some (set_filled fill c, sort_slice accessed_less rem)
  end.

(** Evicts from the front until the excess is gone. *)
Fixpoint remove_loop (rems : Z) (l : list Piece) (c : Cache) : Cache :=
  match l with
  | [] => c
  | p :: l =>
      let c := removePiece (Id p) c in
      let rems := rems -! 1 in
      if rems <=? 0 then c else remove_loop rems l c
  end.

(** What [cleanPieces] does once it holds [muRemove]. *)
Definition evict `{GoRuntime} (bt : BTSets) (now : Z) (c : Cache) : option Cache :=
  '(c, rem) ← getRemPieces bt now c;
  Some (if capacity c <? filled c
        then remove_loop ((filled c -! capacity c) /! pieceLength c +! 1) rem c
        else c).

(** [locked]: another eviction holds [muRemove]. *)
Definition cleanPieces `{GoRuntime} (bt : BTSets) (now : Z) (locked : bool) (c : Cache)
    : option Cache :=
  if isRemove c || isClosed c then Some c
  else
    c ← refreshPriorities bt c;
    if (now -! lastCleanNS c <? second) && (filled c <? (capacity c *! 9) /! 10) then Some c
    else if locked then Some c
    else
      c ← evict bt now (set_lastCleanNS now (set_isRemove true c));
      Some (set_isRemove false c).

(** [CloseReader] up to the goroutine that runs [clearPriority] later. *)
Definition CloseReader (rid : nat) (c : Cache) : Cache :=
  match readers c with
  | None => c
  | Some rs =>
      if isClosed c then c
      else set_readers (Some (delete rid rs)) (Reader_Close rid c)
  end.

(** ** The state report *)

Record ItemState := mkItemState {
  item_Id : Z; item_Length : Z; item_Size : Z; item_Completed : bool; item_Priority : Z
}.
Record ReaderState := mkReaderState { rs_Start : Z; rs_End : Z; rs_Reader : Z }.
Record StateReport := mkStateReport {
  st_Hash : string; st_Capacity : Z; st_Filled : Z; st_PiecesLength : Z; st_PiecesCount : Z;
  st_Pieces : gmap Z ItemState; st_Readers : list ReaderState
}.

(** [priority] is the torrent's effective priority of a piece
    ([Torrent.PieceState]), which is not part of the state here. *)
Definition report_piece (priority : Z → Z) (c : Cache) (acc : Z * gmap Z ItemState)
    (kv : Z * Piece) : Z * gmap Z ItemState :=
  let '(fill, m) := acc in
  let p := kv.2 in
  if 0 <? Size p then
    (fill +! Size p,
     <[Id p := mkItemState (Id p) (pieceLength c) (Size p) (Complete p)
                 (if torrentSet c then priority (Id p) else 0)]> m)
  else (fill, m).

Definition report_reader `{GoRuntime} (bt : BTSets) (c : Cache) (rid : nat) : option ReaderState :=
  r ← readerHeap c !! rid;
  let rng := getPiecesRange bt r c in
  Some (mkReaderState (Start rng) (End rng) (getReaderPiece r c)).

Definition GetState `{GoRuntime} (bt : BTSets) (priority : Z → Z) (c : Cache)
    : Cache * StateReport :=
  let '(fill, items) :=
    if piecesNil c then (0, ∅)
    else foldl (report_piece priority c) (0, ∅) (map_range (pieceHeap c)) in
  let rs := omap (report_reader bt c) (reader_ids c) in
  (set_filled fill c,
   mkStateReport (hash c) (capacity c) fill (pieceLength c) (pieceCount c) items rs).

(** ** What the handlers leave alone

    [store_of] is the part of the state eviction is about; sweeping readers and
    setting priorities do not touch it.  [reader_part] is what the windows are
    computed from; setting priorities does not touch it. *)

Definition store_of (c : Cache) :=
  (pieceHeap c, piecesNil c, capacity c, pieceLength c, pieceCount c, free c, freeCap c,
   pieceInRange c, isClosed c, torrentSet c, readers c, filled c, IsAggressive c, MasterLimit c).

Definition reader_part (c : Cache) :=
  (readerHeap c, readers c, activeReaders c, capacity c, pieceLength c).

Section frames.
Context `{GoRuntime}.
Implicit Types c : Cache.

Lemma store_clearDeadlines rid c : store_of (clearDeadlines rid c) = store_of c.
Proof. unfold clearDeadlines. by repeat case_match. Qed.

Lemma store_dropStale rid now c : store_of (dropStaleDeadlines rid now c) = store_of c.
Proof. unfold dropStaleDeadlines. repeat case_match; [done|apply store_clearDeadlines|done..]. Qed.

Lemma store_readerOff rid c : store_of (readerOff rid c) = store_of c.
Proof. unfold readerOff. by repeat case_match. Qed.

Lemma store_resume rid c : store_of (resume rid c) = store_of c.
Proof. unfold resume. by repeat case_match. Qed.

Lemma store_checkReader now rid c : store_of (checkReader now rid c) = store_of c.
Proof.
  unfold checkReader, readerOn. repeat case_match;
    rewrite ?store_readerOff, ?store_resume; apply store_dropStale.
Qed.

Lemma store_add_window bt c l rid : (add_window bt (c, l) rid).1 = c.
Proof. unfold add_window. by repeat case_match. Qed.

Lemma store_sweep bt now c : store_of (sweep_windows bt now c).1 = store_of c.
Proof.
  unfold sweep_windows. generalize (reader_ids c) as ids. intros ids.
  generalize (@nil Range) as l. revert c.
  induction ids as [|rid ids IH]; intros c l; cbn [foldl fst snd]; [done|].
  destruct (add_window bt (checkReader now rid c, l) rid) as [c1 l1] eqn:E.
  pose proof (store_add_window bt (checkReader now rid c) l rid) as Hc. rewrite E in Hc.
  simpl in Hc. subst c1. rewrite IH. apply store_checkReader.
Qed.

Lemma store_clear_entries ranges ids c : store_of (foldl (clear_entry ranges) c ids) = store_of c.
Proof.
  revert c. induction ids as [|id ids IH]; intros c; simpl; [done|].
  rewrite IH. unfold clear_entry. by case_match.
Qed.

Lemma store_clearPriority bt now c : store_of (clearPriority bt now c) = store_of c.
Proof.
  unfold clearPriority. destruct (readers c); [|done]. destruct (_ || _ || _); [done|].
  pose proof (store_sweep bt now c) as Hs.
  destruct (sweep_windows bt now c) as [c1 l]. rewrite store_clear_entries. exact Hs.
Qed.

Lemma load_reader_frame bt ranges c rid c' :
  load_reader bt ranges c rid = Some c' →
  store_of c' = store_of c ∧ reader_part c' = reader_part c ∧ isRemove c' = isRemove c ∧
  lastCleanNS c' = lastCleanNS c.
Proof.
  unfold load_reader. destruct (readerHeap c !! rid) as [r|]; [|by intros [= <-]].
  destruct (negb _); [by intros [= <-]|]. destruct (isIdInFileBE _ _ _); [by intros [= <-]|].
  destruct (prio_loop _ _ _ _ _ _ _ _ _ _) as [[lp batch]|]; [|done]. simpl. intros [= <-].
  by case_decide.
Qed.

Lemma load_readers_none bt ranges ids :
  foldl (λ oc rid, c ← oc; load_reader bt ranges c rid) None ids = None.
Proof. by induction ids. Qed.

Lemma setLoadPriority_frame bt ranges c c' :
  setLoadPriority bt ranges c = Some c' →
  store_of c' = store_of c ∧ reader_part c' = reader_part c ∧ isRemove c' = isRemove c ∧
  lastCleanNS c' = lastCleanNS c.
Proof.
  unfold setLoadPriority, load_readers. destruct (negb _); [by intros [= <-]|].
  destruct (_ =? _); [done|].
  generalize (reader_ids c) as ids. intros ids. revert c.
  induction ids as [|rid ids IH]; intros c; simpl; [by intros [= <-]|].
  destruct (load_reader bt ranges c rid) as [c1|] eqn:E; [|by rewrite load_readers_none].
  intros Hc'. apply load_reader_frame in E as (E1 & E2 & E3 & E4).
  apply IH in Hc' as (F1 & F2 & F3 & F4). split_and!; congruence.
Qed.

Lemma refreshPriorities_frame bt c c' :
  refreshPriorities bt c = Some c' →
  store_of c' = store_of c ∧ reader_part c' = reader_part c ∧ isRemove c' = isRemove c ∧
  lastCleanNS c' = lastCleanNS c.
Proof.
  unfold refreshPriorities. destruct (isClosed c); [by intros [= <-]|].
  destruct (readers c); [|by intros [= <-]]. destruct (_ || _); [by intros [= <-]|].
  apply setLoadPriority_frame.
Qed.

(** The windows a sweep collects depend on the readers only. *)
Lemma getOffsetRange_part bt r c1 c2 :
  activeReaders c1 = activeReaders c2 → capacity c1 = capacity c2 →
  getOffsetRange bt r c1 = getOffsetRange bt r c2.
Proof. intros E1 E2. unfold getOffsetRange, getUseReaders. by rewrite E1, E2. Qed.

Lemma getPiecesRange_part bt r c1 c2 :
  reader_part c1 = reader_part c2 → getPiecesRange bt r c1 = getPiecesRange bt r c2.
Proof.
  unfold reader_part. intros [=]. unfold getPiecesRange.
  rewrite (getOffsetRange_part bt r c1 c2) by done.
  destruct (getOffsetRange bt r c2). unfold getPieceNum. congruence.
Qed.

Lemma checkReader_part now rid c1 c2 :
  reader_part c1 = reader_part c2 →
  reader_part (checkReader now rid c1) = reader_part (checkReader now rid c2).
Proof.
  destruct c1, c2. unfold reader_part. simpl. intros [=]. subst.
  unfold checkReader, dropStaleDeadlines, clearDeadlines, readerOff, readerOn, resume, num_readers,
    filePieceRange, upd_tor, upd_reader.
  cbn -[i64 i32 deadlineStaleAfter unix ClearStreamDeadlinesRange].
  repeat (case_match; simplify_eq; cbn -[i64 i32 deadlineStaleAfter unix ClearStreamDeadlinesRange] in *);
    try done; congruence.
Qed.

Lemma sweep_part bt now c1 c2 :
  reader_part c1 = reader_part c2 → (sweep_windows bt now c1).2 = (sweep_windows bt now c2).2.
Proof.
  intros Hp. unfold sweep_windows.
  assert (reader_ids c1 = reader_ids c2) as ->.
  { unfold reader_part in Hp. injection Hp as _ E _ _ _. unfold reader_ids. by rewrite E. }
  generalize (@nil Range) as l. generalize (reader_ids c2) as ids. intros ids. revert c1 c2 Hp.
  induction ids as [|rid ids IH]; intros c1 c2 Hp l; cbn [foldl fst snd]; [done|].
  apply (checkReader_part now rid) in Hp.
  set (d1 := checkReader now rid c1) in *. set (d2 := checkReader now rid c2) in *.
  clearbody d1 d2. unfold add_window.
  assert (readerHeap d1 = readerHeap d2) as -> by (unfold reader_part in *; congruence).
  destruct (readerHeap d2 !! rid) as [r|]; [|by apply IH].
  destruct (isUse r); [|by apply IH].
  rewrite (getPiecesRange_part bt r d1 d2) by done. by apply IH.
Qed.

End frames.

(** ** Invariant of the cache *)

Record cache_ok (c : Cache) : Prop := {
  co_buf : buffers_ok c;
  co_count : 0 ≤ pieceCount c ≤ 2 ^ 62;
  co_bits : len (pieceInRange c) = pieceCount c;
  co_keys : ∀ i, is_Some (pieceHeap c !! i) ↔ 0 ≤ i < pieceCount c;
  co_total : pieceLength c * Z.of_nat (size (pieceHeap c)) ≤ 2 ^ 62
}.

(** Bytes the cache holds. *)
Definition bytes_held (c : Cache) : Z := sum_map Size (pieceHeap c).

(** What makes a piece a candidate for eviction. *)
Definition evictable (ranges : list Range) (c : Cache) (kv : Z * Piece) : bool :=
  pieceEvictable (Size kv.2) (Complete kv.2)
    ((kv.1 <? len (pieceInRange c)) && default false (index (pieceInRange c) kv.1))
  && negb (isIdInFileBE ranges kv.1 c).

Section eviction.
Context `{GoRuntime}.
Implicit Types c : Cache.

Lemma cache_ok_store c c' : store_of c' = store_of c → cache_ok c → cache_ok c'.
Proof.
  destruct c, c'. unfold store_of; simpl. intros [=]; subst. intros [[? ? ? ?] ? ? ? ?].
  split; [split|..]; assumption.
Qed.

Lemma cache_ok_bits l c : len l = pieceCount c → cache_ok c → cache_ok (set_pieceInRange l c).
Proof. intros Hl [[? ? ? ?] ? ? ? ?]. by split; [split|..]. Qed.

Lemma piece_size_ok c i p : cache_ok c → pieceHeap c !! i = Some p → 0 ≤ Size p ≤ pieceLength c.
Proof. intros Hok Hp. apply (ok_pieces _ (co_buf _ Hok) _ _ Hp). Qed.

Lemma bytes_held_bound c : cache_ok c → 0 ≤ bytes_held c ≤ 2 ^ 62.
Proof.
  intros Hok. split.
  - apply sum_map_nonneg. intros k p Hp. by apply (piece_size_ok c k p).
  - etrans; [|apply (co_total c Hok)]. etrans.
    + apply (sum_map_le Size (λ _, 1) (pieceLength c)). intros k p Hp.
      pose proof (piece_size_ok c k p Hok Hp). lia.
    + rewrite <-length_map_to_list.
      assert (sumZ (λ _ : Z * Piece, 1) (map_to_list (pieceHeap c))
              = Z.of_nat (length (map_to_list (pieceHeap c)))) as ->; [|done].
      induction (map_to_list (pieceHeap c)) as [|? ? IH]; simpl in *; lia.
Qed.

Lemma scan_fold ranges c l f0 r0 :
  (∀ kv, kv ∈ l → 0 ≤ Size kv.2) → 0 ≤ f0 → f0 + sumZ (λ kv, Size kv.2) l ≤ max_i64 →
  foldl (scan_piece ranges c) (f0, r0) l
  = (f0 + sumZ (λ kv, Size kv.2) l, r0 ++ (filter (λ kv, evictable ranges c kv = true) l).*2).
Proof.
  revert f0 r0. induction l as [|[id p] l IH]; intros f0 r0 Hs Hf Hm.
  { simpl. by rewrite Z.add_0_r, app_nil_r. }
  pose proof (Hs (id, p) ltac:(left)) as Hp. simpl in Hp.
  assert (Hl : ∀ kv, kv ∈ l → 0 ≤ Size kv.2) by (intros; apply Hs; by right).
  pose proof (sumZ_nonneg (λ kv, Size kv.2) l Hl) as Hnn. simpl in Hm.
  assert (Hstep : scan_piece ranges c (f0, r0) (id, p)
    = (f0 + Size p, if evictable ranges c (id, p) then r0 ++ [p] else r0)).
  { unfold scan_piece, evictable. simpl.
    assert ((if 0 <? Size p then i64 (f0 + Size p) else f0) = f0 + Size p) as ->.
    { unfold max_i64 in Hm. case_if; [rewrite i64_id by (unfold in_i64; lia); done|lia]. }
    destruct (pieceEvictable _ _ _), (isIdInFileBE _ _ _); done. }
  cbn [foldl]. rewrite Hstep, IH by (auto; lia). rewrite filter_cons.
  simpl. rewrite Z.add_assoc. f_equal.
  destruct (evictable ranges c (id, p)); simpl; [|done]. by rewrite <-app_assoc.
Qed.

(** Everything [getRemPieces] computes, on a cache whose invariant holds. *)
Lemma getRemPieces_spec bt now c c' rem :
  cache_ok c → isClosed c = false → piecesNil c = false → is_Some (readers c) →
  getRemPieces bt now c = Some (c', rem) →
  let windows := mergeRange (sweep_windows bt now c).2 in
  ∃ bits, len bits = pieceCount c ∧
    (∀ k, 0 ≤ k < pieceCount c → (bits !! Z.to_nat k = Some true ↔ covered windows k)) ∧
    store_of c' = store_of (set_filled (bytes_held c) (set_pieceInRange bits c)) ∧
    rem ≡ₚ (filter (λ kv, evictable windows (set_pieceInRange bits c) kv = true)
              (map_range (pieceHeap c))).*2 ∧
    StronglySorted (λ p q, Accessed p ≤ Accessed q) rem.
Proof.
  intros Hok Hcl Hnil [rs Hrs]. unfold getRemPieces. rewrite Hrs, Hcl, Hnil. simpl.
  pose proof (store_sweep bt now c) as Hst.
  destruct (sweep_windows bt now c) as [c1 l] eqn:Esw. simpl in *.
  set (windows := mergeRange l). unfold store_of in Hst. injection Hst as
    E1 E2 E3 E4 E5 E6 E7 E8 E9 E10 E11 E12 E13 E14.
  destruct (fillPieceInRange_spec (pieceInRange c1) windows) as (bits & Eb & Hlb & Hb).
  { rewrite E8, (co_bits c Hok). pose proof (co_count c Hok). unfold in_i64. lia. }
  assert (Elen : pieceCount c1 = len (pieceInRange c1))
    by (rewrite E5, E8; symmetry; apply (co_bits c Hok)).
  rewrite Elen, Eb. simpl. rewrite E1.
  pose proof (bytes_held_bound c Hok) as Hbh.
  assert (Hsum : sumZ (λ kv, Size kv.2) (map_range (pieceHeap c)) = bytes_held c)
    by (unfold bytes_held, sum_map; by rewrite map_range_perm).
  rewrite scan_fold.
  2:{ intros [i p] Hin%elem_of_map_range. by apply (piece_size_ok c i p). }
  2:{ lia. }
  2:{ rewrite Hsum. unfold max_i64. lia. }
  rewrite Hsum, Z.add_0_l.
  destruct (setLoadPriority bt windows _) as [c2|] eqn:El; [|done]. simpl. intros [= <- <-].
  exists bits. split_and!.
  - rewrite Hlb, E8. apply (co_bits c Hok).
  - intros k Hk. apply Hb. rewrite E8, (co_bits c Hok). done.
  - apply setLoadPriority_frame in El as (El & _). rewrite store_clearPriority in El.
    unfold store_of in *. simpl in *. injection El as F1 F2 F3 F4 F5 F6 F7 F8 F9 F10 F11 F12 F13 F14.
    congruence.
  - rewrite sort_slice_perm. simpl.
    assert (∀ kv, evictable windows (set_pieceInRange bits c1) kv
                  = evictable windows (set_pieceInRange bits c) kv) as Hev.
    { intros kv. unfold evictable, isIdInFileBE, in_file_be, keep_bytes; simpl. by rewrite E4. }
    rewrite (list_filter_iff _ (λ kv, evictable windows (set_pieceInRange bits c) kv = true));
      [done|]. intros kv. by rewrite Hev.
  - eapply StronglySorted_weaken; [|apply sort_slice_sorted].
    + intros p q. unfold accessed_less. intros Hlt. bool_simpl. lia.
    + unfold accessed_less. split_and!; intros; rewrite ?Z.ltb_ge, ?Z.ltb_lt in *; lia.
Qed.

(** [pieceEvictable] and the two protections, read as a proposition. *)
Lemma evictable_spec windows bits c id p :
  0 ≤ id < pieceCount c → len bits = pieceCount c →
  (∀ k, 0 ≤ k < pieceCount c → (bits !! Z.to_nat k = Some true ↔ covered windows k)) →
  evictable windows (set_pieceInRange bits c) (id, p) = true ↔
  0 < Size p ∧ Complete p = true ∧ ¬ covered windows id ∧ isIdInFileBE windows id c = false.
Proof.
  intros Hid Hlen Hb. unfold evictable, pieceEvictable. simpl.
  rewrite (proj2 (Z.ltb_lt id (len bits))) by lia. unfold index. rewrite decide_True by lia. simpl.
  specialize (Hb id Hid). unfold len in Hlen.
  change (isIdInFileBE windows id (set_pieceInRange bits c)) with (isIdInFileBE windows id c).
  rewrite !andb_true_iff, !negb_true_iff, Z.ltb_lt.
  destruct (lookup_lt_is_Some_2 bits (Z.to_nat id)) as [b Eb]; [lia|]. rewrite Eb in *. simpl.
  destruct b; naive_solver.
Qed.

Definition remove_all (ids : list Z) (c : Cache) : Cache := foldl (λ c id, removePiece id c) c ids.

Lemma remove_loop_take rems l c :
  0 < rems ≤ max_i64 → remove_loop rems l c = remove_all (Id <$> take (Z.to_nat rems) l) c.
Proof.
  revert rems c. induction l as [|p l IH]; intros rems c Hr; simpl.
  { by rewrite take_nil. }
  unfold max_i64 in *. rewrite i64_id by (unfold in_i64; lia).
  destruct (Z.leb_spec (rems - 1) 0).
  - replace rems with 1 by lia. done.
  - rewrite IH by lia. replace (Z.to_nat rems) with (S (Z.to_nat (rems - 1))) by lia. done.
Qed.

Lemma MemPiece_Release_heap id c :
  pieceHeap (MemPiece_Release id c) = alter MemPiece_drop id (pieceHeap c) ∧
  isClosed (MemPiece_Release id c) = isClosed c ∧
  capacity (MemPiece_Release id c) = capacity c ∧
  pieceLength (MemPiece_Release id c) = pieceLength c ∧
  pieceCount (MemPiece_Release id c) = pieceCount c ∧
  pieceInRange (MemPiece_Release id c) = pieceInRange c.
Proof.
  assert (Hput : ∀ b, ∃ l, putBuffer b c = set_free l c).
  { intros b. unfold putBuffer. repeat case_match; [exists (free c); by destruct c..|by eexists]. }
  unfold MemPiece_Release. destruct (pieceHeap c !! id) as [p|] eqn:Ep.
  - destruct (buffer p) as [b|] eqn:Eb.
    + destruct (Hput b) as [l ->]. split_and!; try done. unfold upd_piece; simpl.
      apply map_eq. intros i. destruct (decide (i = id)) as [->|].
      * by rewrite !lookup_alter_eq, Ep.
      * by rewrite !lookup_alter_ne by congruence.
    + split_and!; try done. unfold upd_piece; simpl.
      apply map_eq. intros i. destruct (decide (i = id)) as [->|].
      * rewrite !lookup_alter_eq, Ep. simpl. unfold MemPiece_drop. destruct p; simpl in *.
        by subst.
      * by rewrite !lookup_alter_ne by congruence.
  - split_and!; try done. unfold upd_piece; simpl.
    rewrite !alter_id; [done|intros x; rewrite Ep; done..].
Qed.

(** Fields an eviction keeps besides the pieces themselves. *)
Definition layout_of (c : Cache) :=
  (isClosed c, capacity c, pieceLength c, pieceCount c, pieceInRange c).

Lemma removePiece_spec id c :
  isClosed c = false →
  pieceHeap (removePiece id c) = alter MemPiece_drop id (pieceHeap c) ∧
  layout_of (removePiece id c) = layout_of c.
Proof.
  intros Hcl. unfold removePiece, Piece_Release, layout_of. rewrite Hcl.
  destruct (MemPiece_Release_heap id c) as (E1 & E2 & E3 & E4 & E5 & E6).
  set (c1 := MemPiece_Release id c) in *. clearbody c1.
  destruct (_ && _); simpl; rewrite E1, E2, E3, E4, E5, E6, ?Hcl; done.
Qed.

Lemma remove_all_spec ids c :
  isClosed c = false →
  (∀ i, pieceHeap (remove_all ids c) !! i =
        if decide (i ∈ ids) then MemPiece_drop <$> pieceHeap c !! i else pieceHeap c !! i) ∧
  layout_of (remove_all ids c) = layout_of c.
Proof.
  revert c. induction ids as [|id ids IH]; intros c Hcl.
  { split; [|done]. intros i. rewrite decide_False by apply not_elem_of_nil. done. }
  destruct (removePiece_spec id c Hcl) as [Eh El].
  assert (Hcl' : isClosed (removePiece id c) = false) by (unfold layout_of in El; congruence).
  destruct (IH _ Hcl') as [IH1 IH2]. simpl. split; [|congruence].
  intros i. rewrite IH1, Eh. destruct (decide (i = id)) as [->|Hne].
  - rewrite lookup_alter_eq, (decide_True (P := id ∈ id :: ids)) by left.
    case_decide; [|done]. destruct (pieceHeap c !! id) as [p|]; done.
  - rewrite lookup_alter_ne by congruence. apply decide_ext.
    rewrite elem_of_cons. naive_solver.
Qed.

Lemma remove_all_ok ids c :
  isClosed c = false → cache_ok c → cache_ok (remove_all ids c).
Proof.
  revert c. induction ids as [|id ids IH]; intros c Hcl Hok; [done|]. simpl.
  destruct (removePiece_spec id c Hcl) as [Eh El]. unfold layout_of in El.
  injection El as L1 L2 L3 L4 L5.
  apply IH; [congruence|]. destruct Hok as [Hb Hc Hbits Hk Ht].
  split; rewrite ?Eh, ?L3, ?L4, ?L5; auto.
  - unfold removePiece. rewrite Hcl. by apply Piece_Release_ok.
  - intros i. rewrite <-Hk. destruct (decide (i = id)) as [->|].
    + rewrite lookup_alter_eq. by rewrite fmap_is_Some.
    + by rewrite lookup_alter_ne by congruence.
  - by rewrite <-!size_dom, dom_alter_L, size_dom.
Qed.

Lemma remove_all_bytes ids c :
  isClosed c = false → NoDup ids →
  bytes_held (remove_all ids c)
  = bytes_held c - sumZ (λ i, from_option Size 0 (pieceHeap c !! i)) ids.
Proof.
  revert c. induction ids as [|id ids IH]; intros c Hcl Hnd; simpl; [lia|].
  apply list.NoDup_cons in Hnd as [Hni Hnd].
  destruct (removePiece_spec id c Hcl) as [Eh El]. unfold layout_of in El.
  rewrite IH; [|congruence|done]. unfold bytes_held. rewrite Eh, sum_map_alter.
  assert (sumZ (λ i, from_option Size 0 (alter MemPiece_drop id (pieceHeap c) !! i)) ids
          = sumZ (λ i, from_option Size 0 (pieceHeap c !! i)) ids) as ->.
  { clear IH Hnd. induction ids as [|i ids IH']; [done|]. simpl.
    apply not_elem_of_cons in Hni as [Hne Hni].
    rewrite IH', lookup_alter_ne by congruence. done. }
  destruct (pieceHeap c !! id); simpl; lia.
Qed.

End eviction.

(** ** Priorities *)

Definition incomplete (c : Cache) (i : Z) : Prop :=
  ∃ p, piece_at c i = Some p ∧ Complete p = false.

Section priorities.
Context `{GoRuntime}.
Implicit Types c : Cache.

Lemma prio_loop_spec c rp rah hi count n i limit lp batch lp' batch' :
  prio_loop c rp rah hi count n i limit lp batch = Some (lp', batch') →
  Z.of_nat (size batch') ≤ Z.of_nat (size batch) + Z.max 0 (count - limit) ∧
  ∀ j, (batch' !! j = batch !! j ∧ lp' !! j = lp !! j) ∨
       (i ≤ j < i + Z.of_nat n ∧ incomplete c j ∧
        ∃ prio, batch' !! j = Some prio ∧ lp' !! j = Some prio ∧ prio ≠ PiecePriorityNone).
Proof.
  revert i limit lp batch. induction n as [|n IH]; intros i limit lp batch; simpl.
  { intros [= <- <-]. split; [lia|]. by left. }
  destruct (Z.ltb_spec limit count); [|intros [= <- <-]; split; [lia|]; by left].
  destruct (piece_at c i) as [p|] eqn:Ep; [|done]. simpl.
  destruct (Complete p) eqn:Ec.
  { intros Hl. apply IH in Hl as [Hsz Hj]. split; [lia|]. intros j.
    destruct (Hj j) as [?|(? & ?)]; [by left|]. right. split; [lia|done]. }
  set (prio := choose_prio lp rp rah hi i).
  case_decide as Hp; intros Hl; apply IH in Hl as [Hsz Hj].
  { split; [lia|]. intros j. destruct (Hj j) as [?|(? & ?)]; [by left|]. right. split; [lia|done]. }
  split.
  { rewrite map_size_insert in Hsz. destruct (batch !! i); simpl in Hsz; lia. }
  intros j. destruct (Hj j) as [[E1 E2]|(? & ?)]; [|right; split; [lia|done]].
  destruct (decide (j = i)) as [->|].
  - rewrite lookup_insert_eq in E1, E2. right. split; [lia|]. split; [by exists p|]. eauto.
  - rewrite lookup_insert_ne in E1, E2 by congruence. by left.
Qed.

Lemma prio_loop_some c rp rah hi count n i limit lp batch :
  (∀ j, i ≤ j < i + Z.of_nat n → is_Some (piece_at c j)) →
  is_Some (prio_loop c rp rah hi count n i limit lp batch).
Proof.
  revert i limit lp batch. induction n as [|n IH]; intros i limit lp batch Hs; simpl; [by eexists|].
  destruct (limit <? count); [|by eexists].
  destruct (Hs i ltac:(lia)) as [p ->]. simpl.
  destruct (Complete p); [apply IH; intros; apply Hs; lia|].
  case_decide; apply IH; intros; apply Hs; lia.
Qed.

(** The first piece of the loop is the one being read. *)
Lemma prio_loop_now c rp rah hi count n lp lp' batch' :
  0 < count → incomplete c rp →
  prio_loop c rp rah hi count (S n) rp 0 lp ∅ = Some (lp', batch') →
  batch' !! rp = Some PiecePriorityNow.
Proof.
  intros Hc (p & Ep & Hp). cbn [prio_loop]. destruct (Z.ltb_spec 0 count); [|lia].
  rewrite Ep; simpl. rewrite Hp. unfold choose_prio. rewrite Z.eqb_refl. simpl.
  intros Hl. apply prio_loop_spec in Hl as [_ Hj].
  destruct (Hj rp) as [[E _]|(? & _)]; [|lia]. by rewrite E, lookup_insert_eq.
Qed.

Lemma set_priorities_fold l t j :
  NoDup l.*1 →
  t_numPieces (foldl (λ t '(i, prio),
    if (0 <=? i) && (i <? t_numPieces t) then SetPriority i prio t else t) t l) = t_numPieces t ∧
  t_prio (foldl (λ t '(i, prio),
    if (0 <=? i) && (i <? t_numPieces t) then SetPriority i prio t else t) t l) !! j =
  match (list_to_map l : gmap Z PiecePriority) !! j with
  | Some prio => if decide (0 ≤ j < t_numPieces t) then Some prio else t_prio t !! j
  | None => t_prio t !! j
  end.
Proof.
  revert t. induction l as [|[i prio] l IH]; intros t Hnd; [done|].
  simpl in Hnd. apply list.NoDup_cons in Hnd as [Hni Hnd]. cbn [foldl list_to_map foldr].
  set (t1 := if _ && _ then SetPriority i prio t else t).
  assert (Hn1 : t_numPieces t1 = t_numPieces t) by (unfold t1; by destruct (_ && _)).
  destruct (IH t1 Hnd) as [IHn IHp]. split; [congruence|]. rewrite IHp, Hn1.
  simpl. destruct (decide (j = i)) as [->|Hne].
  - rewrite lookup_insert_eq, not_elem_of_list_to_map_1 by done.
    unfold t1. destruct (Z.leb_spec 0 i), (Z.ltb_spec i (t_numPieces t)); simpl;
      [rewrite decide_True by lia; by rewrite lookup_insert_eq|
       rewrite decide_False by lia; done..].
  - rewrite lookup_insert_ne by congruence.
    assert (t_prio t1 !! j = t_prio t !! j) as ->; [|done].
    unfold t1. destruct (_ && _); [|done]. simpl. by rewrite lookup_insert_ne.
Qed.

Lemma SetPiecePriorities_spec batch t j :
  t_prio (SetPiecePriorities batch t) !! j =
  match batch !! j with
  | Some prio => if decide (0 ≤ j < t_numPieces t) then Some prio else t_prio t !! j
  | None => t_prio t !! j
  end.
Proof.
  unfold SetPiecePriorities.
  destruct (set_priorities_fold (map_range batch) t j (NoDup_map_range_fst batch)) as [_ ->].
  assert ((list_to_map (map_range batch) : gmap Z PiecePriority) = batch) as ->; [|done].
  rewrite <-(list_to_map_to_list batch) at 2. apply list_to_map_proper.
  - apply NoDup_map_range_fst.
  - apply map_range_perm.
Qed.

(** one reader's turn in [setLoadPriority] asks for at most [load_count]
    pieces, all of them incomplete pieces of the torrent between the reader and
    the end of its window; it records exactly what it asks for, asks for the
    piece being read at the highest priority, and changes no other piece. *)
Theorem load_reader_exact bt ranges c rid r c' :
  readerHeap c !! rid = Some r → isUse r = true →
  isIdInFileBE ranges (getReaderPiece r c) c = false →
  load_reader bt ranges c rid = Some c' →
  ∃ batch : gmap Z PiecePriority,
    Z.of_nat (size batch) ≤ load_count bt c ∧
    (∀ j prio, batch !! j = Some prio →
       getReaderPiece r c ≤ j < Z.min (End (getPiecesRange bt r c)) (pieceCount c) ∧
       incomplete c j ∧ prio ≠ PiecePriorityNone) ∧
    (incomplete c (getReaderPiece r c) →
     getReaderPiece r c < Z.min (End (getPiecesRange bt r c)) (pieceCount c) →
     batch !! getReaderPiece r c = Some PiecePriorityNow) ∧
    (∀ j, localPriority c' !! j = match batch !! j with
                                  | Some prio => Some prio
                                  | None => localPriority c !! j
                                  end) ∧
    (∀ j, 0 ≤ j < t_numPieces (tor c) →
       t_prio (tor c') !! j = match batch !! j with
                              | Some prio => Some prio
                              | None => t_prio (tor c) !! j
                              end).
Proof.
  intros Hr Hu Hbe. unfold load_reader. rewrite Hr, Hu, Hbe. cbn [negb].
  generalize (End (getPiecesRange bt r c)) as e. intros e.
  set (last_ := Z.min e (pieceCount c)). generalize (getReaderPiece r c) as rp. intros rp.
  destruct (prio_loop _ _ _ _ _ _ _ _ _ _) as [[lp batch]|] eqn:El; [|done].
  simpl. intros [= <-]. exists batch.
  assert (Hcount : 1 ≤ load_count bt c).
  { unfold load_count. cbv zeta.
    match goal with |- 1 ≤ (if ?x <? 1 then 1 else ?x) => destruct (Z.ltb_spec x 1); lia end. }
  pose proof (prio_loop_spec _ _ _ _ _ _ _ _ _ _ _ _ El) as [Hsz Hj].
  rewrite map_size_empty in Hsz. split; [lia|]. split_and!.
  - intros j prio Ej. destruct (Hj j) as [[E _]|(Hb & Hi & prio' & E & _ & Hne)].
    + by rewrite E, lookup_empty in Ej.
    + simplify_eq. split; [lia|]. done.
  - intros Hinc Hlt. destruct (Z.to_nat (last_ - rp)) as [|n] eqn:En; [lia|].
    by eapply prio_loop_now; [| |exact El]; [lia|].
  - intros j. assert (localPriority (if decide (batch = ∅) then set_localPriority lp c
      else upd_tor (SetPiecePriorities batch) (set_localPriority lp c)) = lp) as ->
      by (by case_decide).
    destruct (Hj j) as [[E1 E2]|(_ & _ & prio & E1 & E2 & _)].
    + by rewrite E1, E2, lookup_empty.
    + by rewrite E1, E2.
  - intros j Hj0. case_decide as Hb.
    + subst. by rewrite lookup_empty.
    + simpl. rewrite SetPiecePriorities_spec. simpl. destruct (batch !! j); [|done].
      by rewrite decide_True.
Qed.

Definition prio_part (c : Cache) := (localPriority c, t_prio (tor c)).

Lemma prio_clearDeadlines rid c : prio_part (clearDeadlines rid c) = prio_part c.
Proof.
  unfold clearDeadlines. destruct (readerHeap c !! rid) as [r|]; [|done].
  case_match; [done|]. destruct (filePieceRange _ _) as [ff n].
  unfold prio_part, ClearStreamDeadlinesRange; simpl. by case_match.
Qed.

Lemma prio_dropStale rid now c : prio_part (dropStaleDeadlines rid now c) = prio_part c.
Proof. unfold dropStaleDeadlines. repeat case_match; [done|apply prio_clearDeadlines|done..]. Qed.

Lemma prio_checkReader now rid c : prio_part (checkReader now rid c) = prio_part c.
Proof.
  rewrite <-(prio_dropStale rid now c). unfold checkReader.
  generalize (dropStaleDeadlines rid now c) as c1. intros c1.
  destruct (readerHeap c1 !! rid) as [r|]; [|done]. destruct (_ && _).
  - unfold readerOff. by repeat case_match.
  - unfold readerOn, resume. by repeat case_match.
Qed.

Lemma prio_sweep bt now c : prio_part (sweep_windows bt now c).1 = prio_part c.
Proof.
  unfold sweep_windows. generalize (reader_ids c) as ids. intros ids.
  generalize (@nil Range) as l. revert c.
  induction ids as [|rid ids IH]; intros c l; cbn [foldl fst snd]; [done|].
  destruct (add_window bt (checkReader now rid c, l) rid) as [c1 l1] eqn:E.
  pose proof (store_add_window bt (checkReader now rid c) l rid) as Hc. rewrite E in Hc.
  simpl in Hc. subst c1. rewrite IH. apply prio_checkReader.
Qed.

Lemma clear_entries_spec ranges ids c j :
  let drop := bool_decide (j ∈ ids) && ((len ranges =? 0) || negb (inRanges ranges j)) in
  let c' := foldl (clear_entry ranges) c ids in
  localPriority c' !! j = (if drop then None else localPriority c !! j) ∧
  t_prio (tor c') !! j = (if drop then Some PiecePriorityNone else t_prio (tor c) !! j).
Proof.
  revert c. induction ids as [|id ids IH]; intros c; cbn [foldl].
  { rewrite bool_decide_false by apply not_elem_of_nil. done. }
  destruct (IH (clear_entry ranges c id)) as [IH1 IH2]. rewrite IH1, IH2. clear IH IH1 IH2.
  unfold clear_entry. destruct (decide (j = id)) as [->|Hne].
  - rewrite (bool_decide_true (id ∈ id :: ids)) by left.
    destruct ((len ranges =? 0) || negb (inRanges ranges id)); simpl.
    + rewrite lookup_delete_eq, lookup_insert_eq. by destruct (bool_decide _).
    + by rewrite andb_false_r.
  - rewrite (bool_decide_ext (j ∈ id :: ids) (j ∈ ids)) by (rewrite elem_of_cons; naive_solver).
    destruct ((len ranges =? 0) || negb (inRanges ranges id)); [|done].
    simpl. rewrite lookup_delete_ne, lookup_insert_ne by congruence. done.
Qed.

(** [clearPriority] forgets exactly the pieces outside every window of the
    swept readers: those lose their torrent priority and their record, all other
    pieces keep both. *)
Theorem clearPriority_exact bt now c :
  isClosed c = false → torrentSet c = true → piecesNil c = false → is_Some (readers c) →
  Forall well_formed (sweep_windows bt now c).2 →
  let c' := clearPriority bt now c in
  (∀ id prio, localPriority c' !! id = Some prio ↔
     localPriority c !! id = Some prio ∧ covered (sweep_windows bt now c).2 id) ∧
  (∀ id, t_prio (tor c') !! id =
     if decide (is_Some (localPriority c !! id) ∧ localPriority c' !! id = None)
     then Some PiecePriorityNone else t_prio (tor c) !! id).
Proof.
  intros Hcl Hts Hnil [rs Hrs] Hwf. unfold clearPriority. rewrite Hrs, Hcl, Hts, Hnil. simpl.
  pose proof (prio_sweep bt now c) as Hp.
  destruct (sweep_windows bt now c) as [c1 l] eqn:Esw. simpl in *.
  unfold prio_part in Hp. injection Hp as Hp1 Hp2.
  set (ids := (map_range (localPriority c1)).*1).
  assert (Hids : ∀ j, j ∈ ids ↔ is_Some (localPriority c !! j)).
  { intros j. unfold ids. rewrite list_elem_of_fmap. split.
    - intros ([k v] & -> & Hin%elem_of_map_range). simpl. rewrite <-Hp1, Hin. by eexists.
    - intros [v Hv]. exists (j, v). split; [done|]. apply elem_of_map_range. by rewrite Hp1. }
  assert (Hkeep : ∀ j, (len (mergeRange l) =? 0) || negb (inRanges (mergeRange l) j) = false
                       ↔ covered l j).
  { intros j. rewrite <-(inRanges_merged l j Hwf), orb_false_iff, negb_false_iff.
    split; [tauto|]. intros Hin. split; [|done]. apply Z.eqb_neq. intros E0.
    destruct (mergeRange l) as [|x l']; [done|]. rewrite len_cons in E0.
    pose proof (len_nonneg l'). lia. }
  assert (Hdrop : ∀ j, bool_decide (j ∈ ids) &&
      ((len (mergeRange l) =? 0) || negb (inRanges (mergeRange l) j)) = true ↔
      is_Some (localPriority c !! j) ∧ ¬ covered l j).
  { intros j. rewrite andb_true_iff, bool_decide_eq_true, Hids, <-Hkeep.
    by rewrite not_false_iff_true. }
  pose proof (λ j, clear_entries_spec (mergeRange l) ids c1 j) as Hc. simpl in Hc.
  assert (Hlp : ∀ id prio, localPriority (foldl (clear_entry (mergeRange l)) c1 ids) !! id = Some prio
      ↔ localPriority c !! id = Some prio ∧ covered l id).
  { intros id prio. destruct (Hc id) as [-> _]. specialize (Hdrop id). rewrite Hp1.
    destruct (_ && _).
    - split; [done|]. intros [? ?]. exfalso. by apply Hdrop.
    - split; [|tauto]. intros E. split; [done|].
      destruct ((len (mergeRange l) =? 0) || negb (inRanges (mergeRange l) id)) eqn:Eb;
        [|by apply Hkeep].
      assert (¬ covered l id) by (rewrite <-Hkeep; congruence).
      exfalso. destruct Hdrop as [_ Hd]. discriminate Hd. split; [by eexists|done]. }
  split; [exact Hlp|]. intros id. destruct (Hc id) as [E1 E2]. rewrite E2, E1.
  specialize (Hdrop id). destruct (bool_decide (id ∈ ids) && _).
  - rewrite decide_True; [done|]. split; [|done]. by apply Hdrop.
  - rewrite decide_False; [by rewrite Hp2|]. rewrite Hp1. intros [[v Hv] Hn]. congruence.
Qed.

End priorities.

(** ** Properties of an eviction *)

(** The state an eviction starts from. *)
Definition open_cache (c : Cache) : Prop :=
  isClosed c = false ∧ piecesNil c = false ∧ is_Some (readers c).

(** How many candidates an eviction removes. *)
Definition evict_count (c : Cache) : nat :=
  if capacity c <? bytes_held c
  then Z.to_nat ((bytes_held c - capacity c) / pieceLength c + 1) else 0%nat.

(** The ideal candidate: complete, held, outside every window and outside the
    head and the tail of the files being read. *)
Definition candidate (windows : list Range) (c : Cache) (id : Z) (p : Piece) : Prop :=
  pieceHeap c !! id = Some p ∧ 0 < Size p ∧ Complete p = true ∧
  ¬ covered windows id ∧ isIdInFileBE windows id c = false.

Section evict_properties.
Context `{GoRuntime}.
Implicit Types c : Cache.

Lemma sum_sizes (h : gmap Z Piece) l :
  (∀ p, p ∈ l → h !! Id p = Some p) →
  sumZ (λ i, from_option Size 0 (h !! i)) (Id <$> l) = sumZ Size l.
Proof.
  induction l as [|p l IH]; intros Hl; [done|]. rewrite fmap_cons.
  unfold sumZ in *. cbn [foldr]. rewrite IH by (intros; apply Hl; by right).
  rewrite (Hl p) by left. done.
Qed.

Lemma evict_result bt now c c' :
  cache_ok c → open_cache c → 0 ≤ capacity c ≤ 2 ^ 62 → evict bt now c = Some c' →
  let windows := mergeRange (sweep_windows bt now c).2 in
  ∃ rem, StronglySorted (λ p q, Accessed p ≤ Accessed q) rem ∧ NoDup (Id <$> rem) ∧
    (∀ p, p ∈ rem ↔ candidate windows c (Id p) p) ∧
    (∀ i, pieceHeap c' !! i =
       if decide (i ∈ Id <$> take (evict_count c) rem)
       then MemPiece_drop <$> pieceHeap c !! i else pieceHeap c !! i) ∧
    bytes_held c' = bytes_held c - sumZ Size (take (evict_count c) rem) ∧
    cache_ok c' ∧ capacity c' = capacity c.
Proof.
  intros Hok (Hcl & Hnil & Hrs) Hcap. unfold evict.
  destruct (getRemPieces bt now c) as [[c1 rem]|] eqn:Eg; [|done]. simpl. intros Hev.
  destruct (getRemPieces_spec bt now c c1 rem Hok Hcl Hnil Hrs Eg)
    as (bits & Hlb & Hb & Hst & Hperm & Hsort).
  set (windows := mergeRange (sweep_windows bt now c).2) in *.
  assert (Hok1 : cache_ok c1).
  { eapply cache_ok_store; [exact Hst|].
    assert (cache_ok (set_pieceInRange bits c)) as [[? ? ? ?] ? ? ? ?]
      by (by apply cache_ok_bits). split; [split|..]; assumption. }
  unfold store_of in Hst. simpl in Hst.
  injection Hst as E1 E2 E3 E4 E5 E6 E7 E8 E9 E10 E11 E12 E13 E14.
  assert (Hmem : ∀ p, p ∈ rem ↔ candidate windows c (Id p) p).
  { intros p. rewrite Hperm, list_elem_of_fmap. split.
    - intros ([i q] & -> & Hin). simpl. apply list_elem_of_filter in Hin as [He Hin].
      apply elem_of_map_range in Hin.
      pose proof (ok_pieces _ (co_buf _ Hok) _ _ Hin) as Hp. rewrite (ok_id _ _ _ Hp).
      assert (Hi : 0 ≤ i < pieceCount c) by (apply (co_keys c Hok); by eexists).
      apply evictable_spec in He; [|done..]. unfold candidate. tauto.
    - intros (Hin & Hc). exists (Id p, p). split; [done|]. apply list_elem_of_filter.
      split; [|by apply elem_of_map_range].
      assert (Hi : 0 ≤ Id p < pieceCount c) by (apply (co_keys c Hok); by eexists).
      apply evictable_spec; tauto. }
  assert (Hnd : NoDup (Id <$> rem)).
  { rewrite (fmap_Permutation Id _ _ Hperm).
    assert (Hids : ∀ l, (∀ kv, kv ∈ l → pieceHeap c !! kv.1 = Some kv.2) → NoDup l.*1 →
      ∀ (P : Z * Piece → Prop) `{∀ x, Decision (P x)}, NoDup (Id <$> (filter P l).*2)).
    { clear -Hok. intros l. induction l as [|[i q] l IH]; intros Hl Hnd P HP; [constructor|].
      simpl in Hnd. apply list.NoDup_cons in Hnd as [Hni Hnd].
      assert (Hl' : ∀ kv, kv ∈ l → pieceHeap c !! kv.1 = Some kv.2) by (intros; apply Hl; by right).
      rewrite filter_cons. case_decide; [|by apply IH]. simpl. constructor; [|by apply IH].
      assert (Id q = i) as ->.
      { apply (ok_id _ _ _ (ok_pieces _ (co_buf _ Hok) _ _ (Hl (i, q) ltac:(left)))). }
      rewrite !list_elem_of_fmap. intros (q' & Eq & ([j q''] & -> & Hj)%list_elem_of_fmap).
      simpl in Eq. apply list_elem_of_filter in Hj as [_ Hj]. apply Hni.
      apply list_elem_of_fmap. exists (j, q''). split; [|done]. simpl. rewrite Eq.
      apply (ok_id _ _ _ (ok_pieces _ (co_buf _ Hok) _ _ (Hl' _ Hj))). }
    apply Hids; [|apply NoDup_map_range_fst]. intros [i q] Hin. by apply elem_of_map_range. }
  exists rem. split; [done|]. split; [done|]. split; [done|].
  assert (Hc' : c' = remove_all (Id <$> take (evict_count c) rem) c1).
  { unfold evict_count. rewrite E3, E12 in Hev. pose proof (bytes_held_bound c Hok).
    pose proof (ok_len _ (co_buf _ Hok)).
    destruct (Z.ltb_spec (capacity c) (bytes_held c)); [|by simplify_eq].
    injection Hev as <-. rewrite E4.
    rewrite (i64_id (_ - _)) by (unfold in_i64; lia). rewrite Z.quot_div_nonneg by lia.
    assert (0 ≤ (bytes_held c - capacity c) / pieceLength c ≤ 2 ^ 62).
    { split; [apply Z.div_pos; lia|]. apply Z.div_le_upper_bound; nia. }
    rewrite (i64_id (_ / _)), (i64_id (_ + 1)) by (unfold in_i64; lia).
    apply remove_loop_take. unfold max_i64. lia. }
  destruct (remove_all_spec (Id <$> take (evict_count c) rem) c1) as [Hh Hl]; [congruence|].
  rewrite <-Hc' in Hh, Hl. unfold layout_of in Hl.
  split; [intros i; by rewrite Hh, E1|]. split_and!; [|subst; apply remove_all_ok; congruence|congruence].
  rewrite Hc', remove_all_bytes; [|congruence|].
  2:{ eapply sublist_NoDup; [done|]. rewrite fmap_take. apply sublist_take. }
  unfold bytes_held. rewrite E1. f_equal.
  assert (Hsub : ∀ p, p ∈ take (evict_count c) rem → pieceHeap c !! Id p = Some p).
  { intros p Hp. apply Hmem. eapply elem_of_sublist; [done|apply sublist_take]. }
  rewrite <-(sum_sizes _ _ Hsub). done.
Qed.

(** An eviction that runs inside [cleanPieces]. *)
Lemma cleanPieces_cases bt now locked c c' :
  cleanPieces bt now locked c = Some c' →
  (∃ c1, refreshPriorities bt c = Some c1 ∧ c' = c1) ∨ c' = c ∨
  ∃ c1 c2, refreshPriorities bt c = Some c1 ∧
    evict bt now (set_lastCleanNS now (set_isRemove true c1)) = Some c2 ∧
    c' = set_isRemove false c2.
Proof.
  unfold cleanPieces. destruct (_ || _); [intros [= <-]; auto|].
  destruct (refreshPriorities bt c) as [c1|] eqn:Er; [|done]. cbn [mbind option_bind].
  destruct (_ && _); [intros [= <-]; left; eauto|]. destruct locked; [intros [= <-]; left; eauto|].
  destruct (evict _ _ _) as [c2|] eqn:Ee; [|done]. cbn [mbind option_bind]. intros [= <-].
  right; right. eauto.
Qed.

Lemma refreshed bt c c1 :
  refreshPriorities bt c = Some c1 → cache_ok c → open_cache c →
  let c2 b := set_lastCleanNS b (set_isRemove true c1) in
  ∀ now, cache_ok (c2 now) ∧ open_cache (c2 now) ∧ pieceHeap (c2 now) = pieceHeap c ∧
    capacity (c2 now) = capacity c ∧
    (sweep_windows bt now (c2 now)).2 = (sweep_windows bt now c).2 ∧
    (∀ l id, isIdInFileBE l id (c2 now) = isIdInFileBE l id c).
Proof.
  intros Hr Hok (Ho1 & Ho2 & Ho3) c2 now. apply refreshPriorities_frame in Hr as (Hst & Hp & _).
  assert (Hst2 : store_of (c2 now) = store_of c) by exact Hst.
  split; [by eapply cache_ok_store|]. unfold store_of in Hst. injection Hst as
    E1 E2 E3 E4 E5 E6 E7 E8 E9 E10 E11 E12 E13 E14.
  split; [split_and!; simpl; congruence|]. split; [done|]. split; [done|].
  split; [by apply sweep_part|]. intros l id.
  unfold isIdInFileBE, in_file_be, keep_bytes. simpl. by rewrite E4.
Qed.

(** C15: whatever a cleaning pass does, a piece either keeps its bytes or is
    released, and only a complete piece outside the window of every reader in
    use and outside the head and the tail of the files being read is released:
    a partly written piece is never dropped. *)
Theorem cleanPieces_evicts_safely bt now locked c c' :
  cache_ok c → open_cache c → 0 ≤ capacity c ≤ 2 ^ 62 →
  cleanPieces bt now locked c = Some c' →
  ∀ id p, pieceHeap c !! id = Some p →
    pieceHeap c' !! id = Some p ∨
    pieceHeap c' !! id = Some (MemPiece_drop p) ∧ Complete p = true ∧ 0 < Size p ∧
    ¬ covered (sweep_windows bt now c).2 id ∧
    isIdInFileBE (mergeRange (sweep_windows bt now c).2) id c = false.
Proof.
  intros Hok Hop Hcap Hcl id p Hp.
  destruct (cleanPieces_cases _ _ _ _ _ Hcl) as [(c1 & Hr & ->)|[->|(c1 & c2 & Hr & He & ->)]];
    [|by left|].
  { left. apply refreshPriorities_frame in Hr as (Hst & _). unfold store_of in Hst. congruence. }
  destruct (refreshed bt c c1 Hr Hok Hop now) as (Hok1 & Hop1 & Eh & Ec & Ew & Ebe).
  set (c1' := set_lastCleanNS now (set_isRemove true c1)) in *.
  apply evict_result in He as (rem & _ & _ & Hmem & Hh & _); [|done|done|by rewrite Ec].
  simpl. rewrite Hh, Eh, Hp. case_decide as Hin; [|by left]. right. split; [done|].
  apply list_elem_of_fmap in Hin as (q & Eq & Hq).
  apply elem_of_take in Hq as (k & Hk & _). apply list_elem_of_lookup_2 in Hk.
  apply Hmem in Hk as (Hqh & Hsz & Hcm & Hcov & Hbe). rewrite Eh, <-Eq, Hp in Hqh.
  injection Hqh as <-. rewrite Ew, <-Eq in Hcov. rewrite Ew, Ebe, <-Eq in Hbe.
  split_and!; [done..| |done]. intros Hc. apply Hcov. by apply mergeRange_cover.
Qed.

(** an eviction removes the least recently accessed candidates, as many as
    the excess needs: with full-size candidates enough, the bytes held come down
    to the capacity or just below it, and no candidate that stays was accessed
    before one that went. *)
Theorem evict_reaches_capacity bt now c c' :
  cache_ok c → open_cache c → 0 ≤ capacity c ≤ 2 ^ 62 → capacity c < bytes_held c →
  evict bt now c = Some c' →
  let windows := mergeRange (sweep_windows bt now c).2 in
  (∀ id p, candidate windows c id p → Size p = pieceLength c) →
  (∃ l, NoDup (Id <$> l) ∧ length l = evict_count c ∧ ∀ p, p ∈ l → candidate windows c (Id p) p) →
  capacity c - pieceLength c ≤ bytes_held c' ≤ capacity c ∧
  ∀ p q, candidate windows c (Id p) p → candidate windows c (Id q) q →
    pieceHeap c' !! Id p ≠ Some p → pieceHeap c' !! Id q = Some q → Accessed p ≤ Accessed q.
Proof.
  intros Hok Hop Hcap Hover He windows Hfull (l & Hlnd & Hlen & Hlc).
  destruct (evict_result _ _ _ _ Hok Hop Hcap He) as (rem & Hs & Hnd & Hmem & Hh & Hbytes & _).
  fold windows in Hmem. set (k := evict_count c) in *.
  assert (Hk : (k ≤ length rem)%nat).
  { rewrite <-Hlen, <-(length_fmap Id l), <-(length_fmap Id rem).
    apply submseteq_length, NoDup_submseteq; [done|].
    intros i (p & -> & Hp)%list_elem_of_fmap. apply list_elem_of_fmap. exists p.
    split; [done|]. by apply Hmem, Hlc. }
  pose proof (ok_len _ (co_buf _ Hok)) as Hpl.
  assert (Hsum : sumZ Size (take k rem) = pieceLength c * Z.of_nat k).
  { assert (Hall : ∀ p, p ∈ take k rem → Size p = pieceLength c).
    { intros p (j & Hj & _)%elem_of_take. apply list_elem_of_lookup_2, Hmem in Hj. eauto. }
    assert (Hlt : length (take k rem) = k) by (by apply length_take_le).
    rewrite <-Hlt at 2. revert Hall. clear. generalize (take k rem) as l'.
    induction l' as [|p l' IH]; intros Hall; simpl; [lia|].
    rewrite (Hall p) by left. rewrite IH by (intros; apply Hall; by right). lia. }
  split.
  - rewrite Hbytes, Hsum. unfold k, evict_count. rewrite (proj2 (Z.ltb_lt _ _) Hover).
    assert (0 ≤ (bytes_held c - capacity c) / pieceLength c) by (apply Z.div_pos; lia).
    rewrite Z2Nat.id by lia.
    pose proof (Z.mul_div_le (bytes_held c - capacity c) (pieceLength c) ltac:(lia)).
    pose proof (Z.mul_succ_div_gt (bytes_held c - capacity c) (pieceLength c) ltac:(lia)). lia.
  - intros p q Hp Hq Hpc Hqc.
    assert (Hpin : Id p ∈ Id <$> take k rem).
    { rewrite Hh in Hpc. case_decide as E; [done|]. destruct Hp as [Hp _]. by rewrite Hp in Hpc. }
    assert (Hqnot : Id q ∉ Id <$> take k rem).
    { rewrite Hh in Hqc. case_decide as E; [|done]. destruct Hq as (Hqh & Hsz & _).
      rewrite Hqh in Hqc. simpl in Hqc. injection Hqc as Hqc.
      rewrite <-Hqc in Hsz. simpl in Hsz. lia. }
    assert (Hpr : ∃ i, rem !! i = Some p ∧ (i < k)%nat).
    { apply list_elem_of_fmap in Hpin as (p' & Ep & (i & Hi & Hik)%elem_of_take).
      exists i. split; [|done]. rewrite Hi. f_equal.
      apply list_elem_of_lookup_2, Hmem in Hi as [Hi _]. destruct Hp as [Hp _]. congruence. }
    destruct Hpr as (i & Hi & Hik).
    assert (Hqr : ∃ j, rem !! j = Some q ∧ (k ≤ j)%nat).
    { apply Hmem, list_elem_of_lookup in Hq as [j Hj]. exists j. split; [done|].
      destruct (decide (j < k)%nat) as [Hjk|]; [|lia]. exfalso. apply Hqnot.
      apply list_elem_of_fmap. exists q. split; [done|]. apply elem_of_take. eauto. }
    destruct Hqr as (j & Hj & Hjk).
    apply (sorted_lookup _ _ Hs i j p q); [lia|done|done].
Qed.

End evict_properties.

(** ** The cleaner does not panic *)

(** Every reader stands at a non-negative position of the torrent. *)
Definition placed (r : Reader) : Prop :=
  0 ≤ offset r + file_offset (file r) ≤ max_i64.

Definition readers_placed (c : Cache) : Prop :=
  ∀ rid r, readerHeap c !! rid = Some r → placed r.

Section totality.
Context `{GoRuntime}.
Implicit Types c : Cache.

Lemma placed_upd rid f c :
  (∀ r, offset (f r) = offset r ∧ file (f r) = file r) →
  readers_placed c → readers_placed (upd_reader rid f c).
Proof.
  intros Hf Hp k r. rewrite lookup_upd_reader. case_decide; [|apply Hp].
  destruct (readerHeap c !! k) as [r0|] eqn:E; [|done]. simpl. intros [= <-].
  unfold placed. destruct (Hf r0) as [-> ->]. by eapply Hp.
Qed.

Lemma placed_checkReader now rid c : readers_placed c → readers_placed (checkReader now rid c).
Proof.
  intros Hp.
  assert (H1 : readers_placed (dropStaleDeadlines rid now c)).
  { unfold dropStaleDeadlines, clearDeadlines. repeat case_match; try done;
      by apply (placed_upd rid reset_deadline_state). }
  revert H1. unfold checkReader. generalize (dropStaleDeadlines rid now c) as c1. intros c1 H1.
  destruct (readerHeap c1 !! rid) as [r|]; [|done]. destruct (_ && _).
  - unfold readerOff. repeat case_match; try done. apply (placed_upd rid park_reader); [|done].
    intros r'. unfold park_reader. by case_match.
  - unfold readerOn, resume. repeat case_match; try done.
    apply (placed_upd rid resume_reader); [|done].
    intros r'. unfold resume_reader, SetReadahead. by destruct (under_pos r' =? 0).
Qed.

Lemma placed_sweep bt now c : readers_placed c → readers_placed (sweep_windows bt now c).1.
Proof.
  unfold sweep_windows. generalize (reader_ids c) as ids. intros ids.
  generalize (@nil Range) as l. revert c.
  induction ids as [|rid ids IH]; intros c l Hp; cbn [foldl fst snd]; [done|].
  destruct (add_window bt (checkReader now rid c, l) rid) as [c1 l1] eqn:E.
  pose proof (store_add_window bt (checkReader now rid c) l rid) as Hc. rewrite E in Hc.
  simpl in Hc. subst c1. by apply IH, placed_checkReader.
Qed.

Lemma placed_clearPriority bt now c : readers_placed c → readers_placed (clearPriority bt now c).
Proof.
  intros Hp. unfold clearPriority. destruct (readers c); [|done].
  destruct (_ || _ || _); [done|]. pose proof (placed_sweep bt now c Hp) as H1.
  destruct (sweep_windows bt now c) as [c1 l]. simpl in H1.
  generalize ((map_range (localPriority c1)).*1) as ids. intros ids. revert c1 H1.
  induction ids as [|id ids IH]; intros c1 H1; cbn [foldl]; [done|].
  apply IH. unfold clear_entry. by case_match.
Qed.

Lemma load_reader_total bt ranges c rid :
  cache_ok c → piecesNil c = false → readers_placed c → is_Some (load_reader bt ranges c rid).
Proof.
  intros Hok Hnil Hp. unfold load_reader. destruct (readerHeap c !! rid) as [r|] eqn:Er; [|by eexists].
  destruct (negb _); [by eexists|]. destruct (isIdInFileBE _ _ _); [by eexists|].
  cbv zeta. generalize (End (getPiecesRange bt r c)) as e. intros e.
  assert (H0 : 0 ≤ getReaderPiece r c).
  { unfold getReaderPiece, getPieceNum. pose proof (Hp _ _ Er) as Hr. unfold placed, max_i64 in Hr.
    pose proof (ok_len _ (co_buf _ Hok)).
    rewrite (i64_id (offset r + _)) by (unfold in_i64; lia).
    pose proof (quot_nonneg (offset r + file_offset (file r)) (pieceLength c) ltac:(lia) ltac:(lia)).
    rewrite i64_id by (unfold in_i64; lia). lia. }
  destruct (prio_loop_some c (getReaderPiece r c) (getReaderRAHPiece r c) (high_window c)
    (load_count bt c) (Z.to_nat (Z.min e (pieceCount c) - getReaderPiece r c))
    (getReaderPiece r c) 0 (localPriority c) ∅) as [[lp batch] ->]; [|by eexists].
  intros j Hj. unfold piece_at. rewrite Hnil. apply (co_keys c Hok). lia.
Qed.

Lemma setLoadPriority_total bt ranges c :
  cache_ok c → piecesNil c = false → readers_placed c → is_Some (setLoadPriority bt ranges c).
Proof.
  intros Hok Hnil Hp. unfold setLoadPriority, load_readers. destruct (negb _); [by eexists|].
  rewrite (proj2 (Z.eqb_neq _ _)) by (pose proof (ok_len _ (co_buf _ Hok)); lia).
  generalize (reader_ids c) as ids. intros ids. revert c Hok Hnil Hp.
  induction ids as [|rid ids IH]; intros c Hok Hnil Hp; simpl; [by eexists|].
  destruct (load_reader_total bt ranges c rid Hok Hnil Hp) as [c1 E]. rewrite E.
  apply load_reader_frame in E as (E1 & E2 & _). apply IH.
  - by eapply cache_ok_store.
  - unfold store_of in E1. congruence.
  - unfold reader_part in E2. intros k r Hr. apply (Hp k). congruence.
Qed.

Lemma refreshPriorities_total bt c :
  cache_ok c → readers_placed c → is_Some (refreshPriorities bt c).
Proof.
  intros Hok Hp. unfold refreshPriorities. destruct (isClosed c); [by eexists|].
  destruct (readers c); [|by eexists]. destruct (negb (torrentSet c)); [by eexists|]. simpl.
  destruct (piecesNil c) eqn:E; [by eexists|]. by apply setLoadPriority_total.
Qed.

Lemma getRemPieces_total bt now c :
  cache_ok c → readers_placed c → is_Some (getRemPieces bt now c).
Proof.
  intros Hok Hp. unfold getRemPieces. destruct (readers c); [|by eexists].
  destruct (isClosed c); [by eexists|]. simpl. destruct (piecesNil c) eqn:En; [by eexists|].
  pose proof (store_sweep bt now c) as Hst. pose proof (placed_sweep bt now c Hp) as Hp1.
  destruct (sweep_windows bt now c) as [c1 l]. simpl in *.
  assert (Hok1 : cache_ok c1) by (by eapply cache_ok_store).
  destruct (fillPieceInRange_spec (pieceInRange c1) (mergeRange l)) as (bits & Eb & Hlb & _).
  { rewrite (co_bits c1 Hok1). pose proof (co_count c1 Hok1). unfold in_i64. lia. }
  rewrite <-(co_bits c1 Hok1), Eb. cbn [mbind option_bind].
  destruct (foldl _ _ _) as [fill rem].
  assert (Hok2 : cache_ok (set_pieceInRange bits c1))
    by (apply cache_ok_bits; [by rewrite Hlb; apply co_bits|done]).
  assert (Hs2 : store_of (clearPriority bt now (set_pieceInRange bits c1))
                = store_of (set_pieceInRange bits c1)) by apply store_clearPriority.
  destruct (setLoadPriority_total bt (mergeRange l)
    (clearPriority bt now (set_pieceInRange bits c1))) as [c2 ->]; [| | |by eexists].
  - by eapply cache_ok_store.
  - unfold store_of in *. simpl in *. congruence.
  - by apply placed_clearPriority.
Qed.

(** on an open cache whose readers stand inside the torrent, a cleaning pass
    never panics (no bitmap index, nil piece or division fails) and gives back a
    cache whose invariant holds. *)
Theorem cleanPieces_total bt now locked c :
  cache_ok c → open_cache c → 0 ≤ capacity c ≤ 2 ^ 62 → readers_placed c →
  ∃ c', cleanPieces bt now locked c = Some c' ∧ cache_ok c'.
Proof.
  intros Hok Hop Hcap Hp.
  assert (Hsome : is_Some (cleanPieces bt now locked c)).
  { unfold cleanPieces. destruct (_ || _); [by eexists|].
    destruct (refreshPriorities_total bt c Hok Hp) as [c1 Hr]. rewrite Hr. cbn [mbind option_bind].
    destruct (_ && _); [by eexists|]. destruct locked; [by eexists|].
    destruct (refreshed bt c c1 Hr Hok Hop now) as (Hok1 & _).
    apply refreshPriorities_frame in Hr as (_ & Hrp & _).
    unfold evict. destruct (getRemPieces_total bt now (set_lastCleanNS now (set_isRemove true c1)))
      as [[c2 rem] ->]; [done| |by eexists].
    intros k r Hr. apply (Hp k). unfold reader_part in Hrp. simpl in Hr. congruence. }
  destruct Hsome as [c' Hc]. exists c'. split; [done|].
  destruct (cleanPieces_cases _ _ _ _ _ Hc) as [(c1 & Hr & ->)|[->|(c1 & c2 & Hr & He & ->)]]; [|done|].
  - apply refreshPriorities_frame in Hr as (Hst & _). by eapply cache_ok_store.
  - destruct (refreshed bt c c1 Hr Hok Hop now) as (Hok1 & Hop1 & _ & Ec & _).
    apply evict_result in He as (_ & _ & _ & _ & _ & _ & [[? ? ? ?] ? ? ? ?] & _);
      [|done|done|by rewrite Ec]. by split; [split|..].
Qed.

End totality.

(** ** Opening and closing *)

Lemma init_pieces_spec n m :
  (∀ i, init_pieces n m !! i = if decide (0 ≤ i < n) then Some (NewPiece i) else m !! i) ∧
  (m = ∅ → Z.of_nat (size (init_pieces n m)) = Z.max 0 n).
Proof.
  unfold init_pieces.
  assert (Hgen : ∀ k : nat,
    (∀ i, foldl (λ m k, <[Z.of_nat k := NewPiece (Z.of_nat k)]> m) m (seq 0 k) !! i
          = if decide (0 ≤ i < Z.of_nat k) then Some (NewPiece i) else m !! i) ∧
    (m = ∅ → Z.of_nat (size (foldl (λ m k, <[Z.of_nat k := NewPiece (Z.of_nat k)]> m) m (seq 0 k)))
             = Z.of_nat k)).
  { intros k. induction k as [|k [IH1 IH2]].
    { split; [intros i; by rewrite decide_False by lia|]. intros ->. simpl. by rewrite map_size_empty. }
    rewrite seq_S, foldl_app. simpl. split.
    - intros i. destruct (decide (i = Z.of_nat k)) as [->|].
      + by rewrite lookup_insert_eq, decide_True by lia.
      + rewrite lookup_insert_ne, IH1 by congruence. apply decide_ext. lia.
    - intros Hm. rewrite map_size_insert_None; [|].
      + specialize (IH2 Hm). lia.
      + rewrite IH1, decide_False by lia. by subst. }
  destruct (Hgen (Z.to_nat n)) as [H1 H2].
  split; [|intros Hm; specialize (H2 Hm); lia].
  intros i. rewrite H1. apply decide_ext. lia.
Qed.

Lemma Init_ok cap info h :
  0 ≤ cap ≤ 2 ^ 62 → 0 < PieceLength info < 2 ^ 60 → 0 ≤ NumPieces info ≤ 2 ^ 62 →
  PieceLength info * NumPieces info ≤ 2 ^ 62 →
  ∃ c, Init info h (NewCache cap) = Some c ∧ cache_ok c ∧ bytes_held c = 0 ∧
    (cap ≠ 0 → capacity c = cap) ∧ open_cache c ∧ readerHeap c = ∅ ∧ activeReaders c = 0.
Proof.
  intros Hcap Hpl Hn Hprod. unfold Init. simpl.
  set (c0 := if cap =? 0 then _ else _).
  assert (Hc0 : capacity c0 = (if cap =? 0 then i64 (PieceLength info * 4) else cap) ∧
                pieceHeap c0 = ∅ ∧ free c0 = [] ∧ open_cache c0 ∧ readerHeap c0 = ∅ ∧
                activeReaders c0 = 0)
    by (unfold c0, open_cache; destruct (cap =? 0); split_and!; try done; by eexists).
  destruct Hc0 as (Ecap & Eh & Ef & Ho & Erh & Ea). clearbody c0.
  destruct (Z.eqb_spec (PieceLength info) 0); [lia|]. destruct (Z.ltb_spec (NumPieces info) 0); [lia|].
  simpl. eexists. split; [reflexivity|].
  destruct (init_pieces_spec (NumPieces info) (pieceHeap c0)) as [Hl Hs].
  specialize (Hs Eh). rewrite Z.max_r in Hs by lia.
  assert (Hnew : ∀ i p, init_pieces (NumPieces info) (pieceHeap c0) !! i = Some p → p = NewPiece i).
  { intros i p. rewrite Hl, Eh. case_decide; [by intros [= <-]|by rewrite lookup_empty]. }
  split; [|split; [|split]].
  - split; simpl; [split; simpl|..].
    + lia.
    + intros i p Hp. apply Hnew in Hp as ->. split; simpl; [done|lia|done|done].
    + by rewrite Ef.
    + rewrite Ef, len_nil. case_if; lia.
    + lia.
    + unfold len. rewrite length_replicate. lia.
    + intros i. rewrite Hl, Eh. case_decide; [split; [lia|by eexists]|].
      rewrite lookup_empty. split; [by intros [? ?]|lia].
    + rewrite Hs. lia.
  - unfold bytes_held. simpl.
    assert (H0 : 0 ≤ sum_map Size (init_pieces (NumPieces info) (pieceHeap c0)) ≤
      0 * sumZ (λ _, 0) (map_to_list (init_pieces (NumPieces info) (pieceHeap c0)))); [|lia].
    split; [apply sum_map_nonneg|apply (sum_map_le Size (λ _, 0) 0)];
      intros i p Hp; apply Hnew in Hp as ->; simpl; lia.
  - simpl. intros Hne. rewrite Ecap. destruct (Z.eqb_spec cap 0); [lia|done].
  - done.
Qed.

(** opening a torrent gives a cache whose invariant holds: a piece object for
    every index, a bitmap of the right length, no bytes held; closing an open
    cache releases every buffer and drops the freelist, and closing again
    changes nothing. *)
Theorem Init_Close_lifecycle cap info h :
  0 ≤ cap ≤ 2 ^ 62 → 0 < PieceLength info < 2 ^ 60 → 0 ≤ NumPieces info ≤ 2 ^ 62 →
  PieceLength info * NumPieces info ≤ 2 ^ 62 →
  (∃ c, Init info h (NewCache cap) = Some c ∧ cache_ok c ∧ bytes_held c = 0 ∧
    (cap ≠ 0 → capacity c = cap)) ∧
  (∀ c1, isClosed c1 = false → piecesNil c1 = false →
     bytes_held (Cache_Close c1) = 0 ∧ free (Cache_Close c1) = [] ∧
     (∀ i p, pieceHeap (Cache_Close c1) !! i = Some p → buffer p = None) ∧
     Cache_Close (Cache_Close c1) = Cache_Close c1).
Proof.
  intros Hcap Hpl Hn Hprod. split.
  { destruct (Init_ok cap info h Hcap Hpl Hn Hprod) as (c & ? & ? & ? & ? & _). eauto 10. }
  intros c1 Hcl Hnil. unfold Cache_Close. rewrite Hcl. simpl. rewrite Hnil. simpl.
  unfold bytes_held. simpl. split_and!; [|done| |done].
  - assert (H0 : 0 ≤ sum_map Size (MemPiece_drop <$> pieceHeap c1) ≤
      0 * sumZ (λ _, 0) (map_to_list (MemPiece_drop <$> pieceHeap c1))); [|lia].
    split; [apply sum_map_nonneg|apply (sum_map_le Size (λ _, 0) 0)];
      intros i p (q & <- & _)%lookup_fmap_Some; simpl; lia.
  - intros i p (q & <- & _)%lookup_fmap_Some. done.
Qed.

(** ** Witnesses *)

Lemma Init_Close_lifecycle_witness :
  (∃ c, Init (mkInfo 1048576 64) "h" (NewCache 33554432) = Some c ∧ cache_ok c ∧ bytes_held c = 0 ∧
    (33554432 ≠ 0 → capacity c = 33554432)) ∧
  (∀ c1, isClosed c1 = false → piecesNil c1 = false →
     bytes_held (Cache_Close c1) = 0 ∧ free (Cache_Close c1) = [] ∧
     (∀ i p, pieceHeap (Cache_Close c1) !! i = Some p → buffer p = None) ∧
     Cache_Close (Cache_Close c1) = Cache_Close c1).
Proof. apply (Init_Close_lifecycle 33554432 (mkInfo 1048576 64) "h"); simpl; lia. Defined.

(** A 64-piece torrent of 1 MiB pieces, one file, one reader in the middle. *)
Definition film : TFile := mkTFile 0 67108864.
Definition film_sets : BTSets := mkBTSets 33554432 50 25.
Definition film_open : Cache :=
  default (NewCache 0) (Init (mkInfo 1048576 64) "h" (NewCache 33554432)).
Definition film_reader : Reader := set_under_pos 33554432 (set_offset 33554432 (fresh_reader film)).
Definition film_cache : Cache :=
  upd_reader 0 (λ _, film_reader) (newReader 0 film (SetTorrent (mkTorrent 64 true ∅ ∅) film_open)).

Lemma film_ok : cache_ok film_cache ∧ open_cache film_cache ∧ capacity film_cache = 33554432 ∧
  readers_placed film_cache.
Proof.
  unfold film_cache, film_open.
  destruct (Init_ok 33554432 (mkInfo 1048576 64) "h") as (c & -> & Hok & _ & Hc & Ho & Hr & _);
    [simpl; lia..|]. simpl.
  assert (Hrd : ∀ rs, readers c = Some rs → newReader 0 film (SetTorrent (mkTorrent 64 true ∅ ∅) c) =
    set_readers (Some (<[0%nat := tt]> rs)) (set_activeReaders (i32 (activeReaders c + 1))
      (set_readerHeap (<[0%nat := fresh_reader film]> (readerHeap c))
        (set_IsAggressive true (SetTorrent (mkTorrent 64 true ∅ ∅) c))))).
  { intros rs E. unfold newReader. simpl. by rewrite E. }
  destruct Ho as (Ho1 & Ho2 & [rs Ers]). rewrite (Hrd rs Ers).
  destruct Hok as [[? ? ? ?] ? ? ? ?]. split; [by split; [split|..]|].
  split; [split_and!; simpl; [done..|by eexists]|]. split; [by apply Hc|].
  intros k r. rewrite lookup_upd_reader. simpl. rewrite Hr. case_decide as Hk.
  - subst. rewrite lookup_insert_eq. simpl. intros [= <-]. unfold placed, max_i64. simpl. lia.
  - by rewrite lookup_insert_ne, lookup_empty by congruence.
Qed.

Lemma cleanPieces_total_witness :
  ∃ c', cleanPieces film_sets 2000000000 false film_cache = Some c' ∧ cache_ok c'.
Proof.
  apply cleanPieces_total; [apply film_ok..| |apply film_ok].
  rewrite (proj1 (proj2 (proj2 film_ok))). lia.
Defined.

Definition film_loaded : Cache := default film_cache (load_reader film_sets [] film_cache 0).

Lemma load_reader_exact_witness :
  ∃ batch : gmap Z PiecePriority,
    Z.of_nat (size batch) ≤ load_count film_sets film_cache ∧
    (∀ j prio, batch !! j = Some prio →
       getReaderPiece film_reader film_cache ≤ j
         < Z.min (End (getPiecesRange film_sets film_reader film_cache)) (pieceCount film_cache) ∧
       incomplete film_cache j ∧ prio ≠ PiecePriorityNone) ∧
    (incomplete film_cache (getReaderPiece film_reader film_cache) →
     getReaderPiece film_reader film_cache
       < Z.min (End (getPiecesRange film_sets film_reader film_cache)) (pieceCount film_cache) →
     batch !! getReaderPiece film_reader film_cache = Some PiecePriorityNow) ∧
    (∀ j, localPriority film_loaded !! j = match batch !! j with
                                  | Some prio => Some prio
                                  | None => localPriority film_cache !! j
                                  end) ∧
    (∀ j, 0 ≤ j < t_numPieces (tor film_cache) →
       t_prio (tor film_loaded) !! j = match batch !! j with
                              | Some prio => Some prio
                              | None => t_prio (tor film_cache) !! j
                              end).
Proof.
  apply (load_reader_exact film_sets [] film_cache 0 film_reader film_loaded);
    [by vm_compute|done|done|by vm_compute].
Defined.

(** The piece being read is asked for now, the next one next. *)
Example film_loaded_now :
  (localPriority film_loaded !! 32, localPriority film_loaded !! 33, localPriority film_loaded !! 31)
  = (Some PiecePriorityNow, Some PiecePriorityNext, None).
Proof. by vm_compute. Qed.

Lemma clearPriority_exact_witness :
  let c' := clearPriority film_sets 2000000000 film_loaded in
  (∀ id prio, localPriority c' !! id = Some prio ↔
     localPriority film_loaded !! id = Some prio ∧
     covered (sweep_windows film_sets 2000000000 film_loaded).2 id) ∧
  (∀ id, t_prio (tor c') !! id =
     if decide (is_Some (localPriority film_loaded !! id) ∧ localPriority c' !! id = None)
     then Some PiecePriorityNone else t_prio (tor film_loaded) !! id).
Proof.
  apply clearPriority_exact; [by vm_compute|by vm_compute|by vm_compute|by vm_compute; eexists|].
  assert (E : (sweep_windows film_sets 2000000000 film_loaded).2 = [mkRange 18 45 film])
    by (vm_compute; reflexivity).
  rewrite E. repeat constructor. unfold well_formed. simpl. lia.
Defined.

(** Two complete pieces in a cache with room for one. *)
Definition full_piece (id accessed : Z) : Piece :=
  mkPiece id 4 true accessed (Some [Byte.x01; Byte.x02; Byte.x03; Byte.x04]).
Definition over_cache : Cache :=
  set_piecesNil false (set_capacity 7 (set_pieceHeap (<[0 := full_piece 0 9]> (<[1 := full_piece 1 5]> ∅))
    sample_cache)).

Lemma over_ok : cache_ok over_cache ∧ open_cache over_cache.
Proof.
  split; [|split_and!; [done|done|by eexists]].
  assert (Hl : ∀ i p, pieceHeap over_cache !! i = Some p →
    (i = 0 ∧ p = full_piece 0 9) ∨ (i = 1 ∧ p = full_piece 1 5)).
  { intros i p Hp. unfold over_cache in Hp. simpl in Hp.
    apply lookup_insert_Some in Hp as [[<- <-]|[_ Hp]]; [by left|].
    apply lookup_insert_Some in Hp as [[<- <-]|[_ Hp]]; [by right|]. by rewrite lookup_empty in Hp. }
  split; simpl; [split; simpl|..].
  - lia.
  - intros i p Hp. destruct (Hl i p Hp) as [[-> ->]|[-> ->]];
      (split; simpl; [done|lia|by intros ? [= <-]|done]).
  - by repeat constructor.
  - unfold len; simpl; lia.
  - lia.
  - done.
  - intros i. split.
    + intros [p Hp]. destruct (Hl i p Hp) as [[-> _]|[-> _]]; lia.
    + intros Hi. assert (i = 0 ∨ i = 1) as [->| ->] by lia; by eexists.
  - by vm_compute.
Qed.

Definition over_evicted : Cache := default over_cache (evict film_sets 2000000000 over_cache).
Definition over_cleaned : Cache :=
  default over_cache (cleanPieces film_sets 2000000000 false over_cache).

Lemma cleanPieces_evicts_safely_witness :
  cleanPieces film_sets 2000000000 false over_cache = Some over_cleaned ∧
  ∀ id p, pieceHeap over_cache !! id = Some p →
    pieceHeap over_cleaned !! id = Some p ∨
    pieceHeap over_cleaned !! id = Some (MemPiece_drop p) ∧ Complete p = true ∧ 0 < Size p ∧
    ¬ covered (sweep_windows film_sets 2000000000 over_cache).2 id ∧
    isIdInFileBE (mergeRange (sweep_windows film_sets 2000000000 over_cache).2) id over_cache = false.
Proof.
  assert (E : cleanPieces film_sets 2000000000 false over_cache = Some over_cleaned) by (by vm_compute).
  split; [exact E|].
  apply (cleanPieces_evicts_safely film_sets 2000000000 false over_cache over_cleaned);
    [apply over_ok..|simpl; lia|exact E].
Defined.

Lemma evict_reaches_capacity_witness :
  capacity over_cache - pieceLength over_cache ≤ bytes_held over_evicted ≤ capacity over_cache ∧
  ∀ p q, candidate (mergeRange (sweep_windows film_sets 2000000000 over_cache).2) over_cache (Id p) p →
    candidate (mergeRange (sweep_windows film_sets 2000000000 over_cache).2) over_cache (Id q) q →
    pieceHeap over_evicted !! Id p ≠ Some p → pieceHeap over_evicted !! Id q = Some q →
    Accessed p ≤ Accessed q.
Proof.
  apply (evict_reaches_capacity film_sets 2000000000 over_cache over_evicted);
    [apply over_ok..|simpl; lia|by vm_compute|by vm_compute| |].
  - intros id p (Hp & _). unfold over_cache in Hp. simpl in Hp.
    apply lookup_insert_Some in Hp as [[<- <-]|[_ Hp]]; [done|].
    apply lookup_insert_Some in Hp as [[<- <-]|[_ Hp]]; [done|]. by rewrite lookup_empty in Hp.
  - exists [full_piece 1 5]. split; [repeat constructor; by apply not_elem_of_nil|].
    split; [by vm_compute|]. intros p ->%list_elem_of_singleton.
    split_and!; [done|simpl; lia|done| |done].
    change (mergeRange (sweep_windows film_sets 2000000000 over_cache).2) with (@nil Range).
    intros Hc. by apply covered_nil in Hc.
Defined.

(** Only the older of the two went. *)
Example over_evicted_lru :
  Complete <$> pieceHeap over_evicted !! 0 = Some true ∧
  Complete <$> pieceHeap over_evicted !! 1 = Some false.
Proof. by vm_compute. Qed.
