(* ===== verification/Shield.v ===== *)
(** * The adaptive corruption shield (torrstor: piece.go)

    A failed hash check on a piece that still holds its bytes is a corruption
    event.  The second event turns the shield on (strict mode); a watchdog turns
    it off after a clean streak whose length grows with the number of times the
    shield was raised.  The package variables are the fields of [Shield];
    [watchdogs] counts the live watchdog goroutines. *)

From S2P Require Import Prelude CacheState MemPiece.

Record Shield := mkShield {
  lastCorruptionUnix : Z;
  shieldActive : bool;
  isWatchdogRunning : bool;
  staticCorruptionCount : Z;
  strictCycleCount : Z;
  watchdogs : nat
}.

Definition no_shield : Shield := mkShield 0 false false 0 0 0.

(** The two settings an event reads. *)
Record ShieldSets := mkShieldSets { AdaptiveShield : bool; ResponsiveMode : bool }.

Definition strictEscalationCapSeconds : Z := 1800.

Definition IsResponsive (st : ShieldSets) (s : Shield) : bool :=
  ResponsiveMode st && negb (shieldActive s).

Definition ResetShield (s : Shield) : Shield :=
  mkShield (lastCorruptionUnix s) false false 0 (strictCycleCount s) (watchdogs s).

(** The counting half of a corruption event at Unix time [now]. *)
Definition count_corruption (st : ShieldSets) (now : Z) (s : Shield) : Shield :=
  if AdaptiveShield st && ResponsiveMode st && negb (shieldActive s) then
    let count := i32 (staticCorruptionCount s + 1) in
    if 1 <? count
    then mkShield now true (isWatchdogRunning s) count (i32 (strictCycleCount s + 1)) (watchdogs s)
    else mkShield now (shieldActive s) (isWatchdogRunning s) count (strictCycleCount s) (watchdogs s)
  else mkShield now (shieldActive s) (isWatchdogRunning s) (staticCorruptionCount s)
         (strictCycleCount s) (watchdogs s).

(** [staticCorruptionCount.Load() >= 1 && !isWatchdogRunning.Swap(true)] *)
Definition start_watchdog (s : Shield) : Shield :=
  if (1 <=? staticCorruptionCount s) && negb (isWatchdogRunning s)
  then mkShield (lastCorruptionUnix s) (shieldActive s) true (staticCorruptionCount s)
         (strictCycleCount s) (S (watchdogs s))
  else if 1 <=? staticCorruptionCount s
  then mkShield (lastCorruptionUnix s) (shieldActive s) true (staticCorruptionCount s)
         (strictCycleCount s) (watchdogs s)
  else s.

(** [MarkNotComplete] on piece [id] of a cache; an evicted piece (no buffer) is
    not a corruption event. *)
Definition MarkNotComplete (st : ShieldSets) (id now : Z) (c : Cache) (s : Shield)
    : Cache * Shield :=
  let c := upd_piece id (set_Complete false) c in
  match pieceHeap c !! id with
  | Some p => match buffer p with
              | Some _ => (c, start_watchdog (count_corruption st now s))
              | None => (c, s)
              end
  | None => (c, s)
  end.

(** The clean streak, in nanoseconds: [time.Duration(30*cycle) * time.Second]
    with the product in 32 bits, between 30 s and the cap. *)
Definition clean_needed (cycle : Z) : Z :=
  let d := i64 (i32 (30 * cycle) * 1000000000) in
  let d := if d <? 30 * 1000000000 then 30 * 1000000000 else d in
  if strictEscalationCapSeconds * 1000000000 <? d
  then strictEscalationCapSeconds * 1000000000 else d.

#[global] Arguments clean_needed : simpl never.

(** The four stores of a watchdog that ends, in order. *)
Definition dog_off (s : Shield) : Shield :=
  mkShield (lastCorruptionUnix s) false (isWatchdogRunning s) (staticCorruptionCount s)
    (strictCycleCount s) (watchdogs s).
Definition dog_count (s : Shield) : Shield :=
  mkShield (lastCorruptionUnix s) (shieldActive s) (isWatchdogRunning s) 0
    (strictCycleCount s) (watchdogs s).
Definition dog_cycle (s : Shield) : Shield :=
  mkShield (lastCorruptionUnix s) (shieldActive s) (isWatchdogRunning s)
    (staticCorruptionCount s) 0 (watchdogs s).
Definition dog_exit (s : Shield) : Shield :=
  mkShield (lastCorruptionUnix s) (shieldActive s) false (staticCorruptionCount s)
    (strictCycleCount s) (pred (watchdogs s)).

(** One wake-up of a watchdog at [now] nanoseconds. *)
Definition watchdog_tick (now : Z) (s : Shield) : Shield :=
  if clean_needed (strictCycleCount s) <? now - lastCorruptionUnix s * 1000000000
  then dog_exit (dog_cycle (dog_count (dog_off s))) else s.

(** ** Transitions

    A corruption event, a wake-up of a live watchdog, a stop of the player. *)
Inductive shield_step : Shield → Shield → Prop :=
  | step_corrupt st now s : shield_step s (start_watchdog (count_corruption st now s))
  | step_tick now s : (0 < watchdogs s)%nat → shield_step s (watchdog_tick now s)
  | step_reset s : shield_step s (ResetShield s).

(** An active shield, and a pending first event, have a live watchdog. *)
Record shield_inv (s : Shield) : Prop := {
  si_count : 0 ≤ staticCorruptionCount s ≤ 2;
  si_active : shieldActive s = true → staticCorruptionCount s = 2;
  si_watched : 1 ≤ staticCorruptionCount s → isWatchdogRunning s = true;
  si_alive : isWatchdogRunning s = true → (0 < watchdogs s)%nat;
  si_inactive : shieldActive s = false → staticCorruptionCount s ≤ 1
}.

Lemma count_corruption_inv st now s :
  shield_inv s →
  let s' := start_watchdog (count_corruption st now s) in shield_inv s'.
Proof.
  intros [Hc Ha Hw Hal Hi]. unfold start_watchdog, count_corruption.
  destruct (AdaptiveShield st && ResponsiveMode st && negb (shieldActive s)) eqn:E.
  - bool_simpl. specialize (Hi ltac:(done)). rewrite i32_id by lia.
    destruct (Z.ltb_spec 1 (staticCorruptionCount s + 1)); simpl;
      rewrite (proj2 (Z.leb_le 1 (staticCorruptionCount s + 1))) by lia;
      (destruct (isWatchdogRunning s) eqn:Er; simpl; split; simpl; intros; auto; try lia; congruence).
  - simpl. destruct (Z.leb_spec 1 (staticCorruptionCount s)); simpl.
    + rewrite Hw by done. simpl. split; simpl; auto.
    + split; simpl; intros; auto; try lia.
Qed.

Lemma shield_inv_step s s' : shield_step s s' → shield_inv s → shield_inv s'.
Proof.
  intros Hs Hi. destruct Hs.
  - by apply count_corruption_inv.
  - unfold watchdog_tick. case_if; [|done].
    destruct Hi. split; simpl; intros; auto; try lia; congruence.
  - destruct Hi. split; simpl; intros; auto; try lia; congruence.
Qed.

(** in every state corruption events, watchdog wake-ups and player stops can
    reach, an active shield (and a pending first event) has a live watchdog, so
    strict mode is never entered without somebody to leave it. *)
Theorem shield_always_watched s :
  rtc shield_step no_shield s →
  (shieldActive s = true ∨ 1 ≤ staticCorruptionCount s → (0 < watchdogs s)%nat) ∧
  (shieldActive s = true → staticCorruptionCount s = 2).
Proof.
  intros Hs. assert (Hi : shield_inv s).
  { assert (shield_inv no_shield) as H0 by (split; simpl; intros; done || lia).
    induction Hs; eauto using shield_inv_step. }
  destruct Hi as [Hc Ha Hw Hal Hi]. split; [|done]. intros [H|H]; apply Hal, Hw; [|done].
  rewrite (Ha H). lia.
Qed.

Definition fast : ShieldSets := mkShieldSets true true.

Lemma shield_always_watched_witness :
  let s := start_watchdog (count_corruption fast 6 (start_watchdog (count_corruption fast 5 no_shield))) in
  (shieldActive s = true ∨ 1 ≤ staticCorruptionCount s → (0 < watchdogs s)%nat) ∧
  (shieldActive s = true → staticCorruptionCount s = 2).
Proof.
  apply shield_always_watched.
  eapply rtc_l; [apply (step_corrupt fast 5)|]. eapply rtc_once, (step_corrupt fast 6).
Defined.

Lemma event_first st now s :
  AdaptiveShield st = true → ResponsiveMode st = true →
  shieldActive s = false → staticCorruptionCount s = 0 →
  start_watchdog (count_corruption st now s) =
  mkShield now false true 1 (strictCycleCount s)
    (if isWatchdogRunning s then watchdogs s else S (watchdogs s)).
Proof.
  intros HA HR Hs Hc. unfold count_corruption. rewrite HA, HR, Hs, Hc.
  change (i32 (0 + 1)) with 1. unfold start_watchdog. simpl. by destruct (isWatchdogRunning s).
Qed.

Lemma event_second st now s :
  AdaptiveShield st = true → ResponsiveMode st = true →
  shieldActive s = false → staticCorruptionCount s = 1 → isWatchdogRunning s = true →
  start_watchdog (count_corruption st now s) =
  mkShield now true true 2 (i32 (strictCycleCount s + 1)) (watchdogs s).
Proof.
  intros HA HR Hs Hc Hw. unfold count_corruption. rewrite HA, HR, Hs, Hc.
  change (i32 (1 + 1)) with 2. unfold start_watchdog. simpl. by rewrite Hw.
Qed.

(** the first corruption keeps the fast mode and the second one, without a
    clean streak in between, forces the strict mode and escalates; a watchdog
    wake-up after the clean streak restores the initial state. *)
Theorem shield_escalates st now1 now2 now3 id c p b s :
  AdaptiveShield st = true → ResponsiveMode st = true →
  pieceHeap c !! id = Some p → buffer p = Some b →
  shieldActive s = false → staticCorruptionCount s = 0 → 0 ≤ strictCycleCount s < 2 ^ 31 - 1 →
  let '(c1, s1) := MarkNotComplete st id now1 c s in
  let '(c2, s2) := MarkNotComplete st id now2 c1 s1 in
  IsResponsive st s1 = true ∧ IsResponsive st s2 = false ∧
  strictCycleCount s2 = strictCycleCount s + 1 ∧
  (clean_needed (strictCycleCount s2) < now3 - now2 * 1000000000 →
   IsResponsive st (watchdog_tick now3 s2) = true ∧
   staticCorruptionCount (watchdog_tick now3 s2) = 0 ∧
   strictCycleCount (watchdog_tick now3 s2) = 0 ∧
   isWatchdogRunning (watchdog_tick now3 s2) = false).
Proof.
  intros HA HR Hp Hb Hs Hc Hcy.
  assert (Hev : ∀ now c s, (∃ q, pieceHeap c !! id = Some q ∧ buffer q = Some b) →
    MarkNotComplete st id now c s
    = (upd_piece id (set_Complete false) c, start_watchdog (count_corruption st now s))).
  { intros now c0 s0 (q & Hq & Hqb). unfold MarkNotComplete, upd_piece. cbn [pieceHeap set_pieceHeap].
    rewrite lookup_alter_eq, Hq. cbn. by rewrite Hqb. }
  rewrite Hev by eauto. rewrite Hev.
  2:{ exists (set_Complete false p). unfold upd_piece. cbn [pieceHeap set_pieceHeap].
      by rewrite lookup_alter_eq, Hp. }
  rewrite (event_first st now1 s) by done.
  rewrite event_second by done. unfold IsResponsive. rewrite HR. cbn [shieldActive strictCycleCount].
  rewrite i32_id by lia. split; [done|]. split; [done|]. split; [done|]. intros Hn.
  unfold watchdog_tick. cbn [strictCycleCount lastCorruptionUnix].
  by rewrite (proj2 (Z.ltb_lt _ _) Hn).
Qed.

Lemma shield_escalates_witness :
  let '(c1, s1) := MarkNotComplete fast 1 5 sample_cache no_shield in
  let '(c2, s2) := MarkNotComplete fast 1 6 c1 s1 in
  IsResponsive fast s1 = true ∧ IsResponsive fast s2 = false ∧
  strictCycleCount s2 = strictCycleCount no_shield + 1 ∧
  (clean_needed (strictCycleCount s2) < 60000000000 - 6 * 1000000000 →
   IsResponsive fast (watchdog_tick 60000000000 s2) = true ∧
   staticCorruptionCount (watchdog_tick 60000000000 s2) = 0 ∧
   strictCycleCount (watchdog_tick 60000000000 s2) = 0 ∧
   isWatchdogRunning (watchdog_tick 60000000000 s2) = false).
Proof.
  apply (shield_escalates fast 5 6 60000000000 1 sample_cache
    (mkPiece 1 4 true 7 (Some [Byte.x01; Byte.x02; Byte.x03; Byte.x04]))
    [Byte.x01; Byte.x02; Byte.x03; Byte.x04] no_shield); try done; simpl; lia.
Defined.

(** The streak is 30 s per cycle, between 30 s and 30 minutes. *)
Lemma clean_needed_spec cycle :
  0 ≤ cycle ≤ 71582788 →
  clean_needed cycle = Z.min 1800 (Z.max 30 (30 * cycle)) * 1000000000.
Proof.
  intros Hc. unfold clean_needed, strictEscalationCapSeconds.
  rewrite i32_id by lia. rewrite i64_id by (unfold in_i64; lia).
  destruct (Z.ltb_spec (30 * cycle * 1000000000) (30 * 1000000000)); case_if; lia.
Qed.

(** ** Two findings

    The stores of an ending watchdog are not one step. *)

(** Two events that arrive between a watchdog's reset of the counters and its
    last store raise the shield with no watchdog left. *)
Lemma shield_race :
  let s := mkShield 0 false true 1 0 1 in
  let ending := dog_cycle (dog_count (dog_off s)) in
  let event now s := start_watchdog (count_corruption fast now s) in
  let s' := dog_exit (event 101 (event 100 ending)) in
  shieldActive s' = true ∧ isWatchdogRunning s' = false ∧ watchdogs s' = 0%nat.
Proof. done. Qed.

(** Every player stop followed by a corruption event starts one more
    watchdog next to the live ones: the stop clears the flag that is there to
    prevent it. *)
Theorem reset_multiplies_watchdogs st now n s :
  AdaptiveShield st = true → ResponsiveMode st = true →
  watchdogs (Nat.iter n (λ s, start_watchdog (count_corruption st now (ResetShield s))) s)
  = (watchdogs s + n)%nat.
Proof.
  intros HA HR. induction n as [|n IH]; simpl; [lia|].
  set (t := Nat.iter n _ s) in *. clearbody t.
  unfold count_corruption, ResetShield. simpl. rewrite HA, HR. simpl. lia.
Qed.

Lemma reset_multiplies_watchdogs_witness :
  watchdogs (Nat.iter 3 (λ s, start_watchdog (count_corruption fast 5 (ResetShield s))) no_shield)
  = (watchdogs no_shield + 3)%nat.
Proof. by apply reset_multiplies_watchdogs. Defined.
