(* ===== verification/LruCache.v ===== *)
(** * The sharded metadata cache (internal/cache/lrucache.go)

    [simpleLRUCache] is a map from keys to list elements and a doubly linked
    list of entries.  Elements are identities into a heap, as the pointers of
    [container/list] are; the list is the sequence of identities, front first.
    The specification is the list of entries itself, and [abs] reads it off the
    concrete state. *)

From S2P Require Import Prelude.
Local Open Scope go_scope.

Section lru.
Context {V : Type}.

(** ** Data *)

Record cacheEntry := mkEntry {
  key : string;
  value : V;
  size_ : Z;
  expiresAt : Z;
  lastPromoted : Z
}.

Record simpleLRUCache := mkLRU {
  capacity_ : Z;
  currentSize : Z;
  ttl : Z;
  items : gmap string nat;
  order : list nat;
  elems : gmap nat cacheEntry;
  nextElem : nat
}.

Definition newSimpleLRUCache (capacity ttl : Z) : simpleLRUCache :=
  mkLRU (if capacity =? 0 then 500 * 1024 * 1024 else capacity) 0
    (if ttl =? 0 then 24 * 3600 * 1000000000 else ttl) ∅ [] ∅ 0.

(** [list.List]: removing an element, and moving one to the front. *)
Definition list_remove (e : nat) (l : list nat) : list nat := filter (λ x, x ≠ e) l.
Definition MoveToFront (e : nat) (l : list nat) : list nat := e :: list_remove e l.

Definition removeElement (e : nat) (c : simpleLRUCache) : simpleLRUCache :=
  match elems c !! e with
  | None => c
  | Some en =>
      mkLRU (capacity_ c) (currentSize c -! size_ en) (ttl c) (delete (key en) (items c))
        (list_remove e (order c)) (elems c) (nextElem c)
  end.

(** ** Get, in its lock sections

    The read section decides; the write section runs later, under the other
    lock, with whatever happened in between. *)

Inductive get_next := Miss | Expired | Promote (v : V) | Fresh (v : V).

(** [10*time.Second] *)
Definition promote_after : Z := 10000000000.

Definition Get_read (k : string) (now : Z) (c : simpleLRUCache) : get_next :=
  match items c !! k with
  | None => Miss
  | Some e =>
      match elems c !! e with
      | None => Miss
      | Some en =>
          if expiresAt en <? now then Expired
          else if promote_after <? now - lastPromoted en then Promote (value en)
          else Fresh (value en)
      end
  end.

Definition set_promoted (now : Z) (en : cacheEntry) : cacheEntry :=
  mkEntry (key en) (value en) (size_ en) (expiresAt en) now.

Definition Get_write (k : string) (now : Z) (g : get_next) (c : simpleLRUCache) : simpleLRUCache :=
  match g, items c !! k with
  | Expired, Some e => removeElement e c
  | Promote _, Some e =>
      mkLRU (capacity_ c) (currentSize c) (ttl c) (items c) (MoveToFront e (order c))
        (alter (set_promoted now) e (elems c)) (nextElem c)
  | _, _ => c
  end.

Definition get_result (g : get_next) : option V :=
  match g with Promote v | Fresh v => Some v | _ => None end.

Definition Get (k : string) (now : Z) (c : simpleLRUCache) : simpleLRUCache * option V :=
  let g := Get_read k now c in (Get_write k now g c, get_result g).

(** ** Put *)

(** [for c.currentSize+size > c.capacity && c.order.Len() > 0] *)
Fixpoint evict_loop (fuel : nat) (size : Z) (c : simpleLRUCache) : simpleLRUCache :=
  match fuel with
  | O => c
  | S fuel =>
      if (capacity_ c <? currentSize c +! size) && (0 <? len (order c)) then
        match list.last (order c) with
        | Some oldest => evict_loop fuel size (removeElement oldest c)
        | None => c
        end
      else c
  end.

Definition Put (k : string) (v : V) (size now : Z) (c : simpleLRUCache) : simpleLRUCache :=
  match items c !! k with
  | Some e =>
      let old := from_option size_ 0 (elems c !! e) in
      mkLRU (capacity_ c) (currentSize c -! old +! size) (ttl c) (items c)
        (MoveToFront e (order c))
        (alter (λ en, mkEntry (key en) v size (now + ttl c) now) e (elems c)) (nextElem c)
  | None =>
      let c := evict_loop (length (order c)) size c in
      let e := nextElem c in
      mkLRU (capacity_ c) (currentSize c +! size) (ttl c) (<[k := e]> (items c)) (e :: order c)
        (<[e := mkEntry k v size (now + ttl c) now]> (elems c)) (S e)
  end.

Definition Delete (k : string) (c : simpleLRUCache) : simpleLRUCache * bool :=
  match items c !! k with
  | Some e => (removeElement e c, true)
  | None => (c, false)
  end.

Definition is_expired (now : Z) (c : simpleLRUCache) (e : nat) : bool :=
  match elems c !! e with Some en => expiresAt en <? now | None => false end.

Definition CleanupExpired (now : Z) (c : simpleLRUCache) : simpleLRUCache * Z :=
  let toRemove := filter (λ e, is_expired now c e = true) (order c) in
  (foldl (λ c e, removeElement e c) c toRemove, len toRemove).

Definition Lru_Len (c : simpleLRUCache) : Z := len (order c).

(** Size, capacity and number of entries. *)
Definition Lru_Stats (c : simpleLRUCache) : Z * Z * Z :=
  (currentSize c, capacity_ c, len (order c)).

(** ** Invariant and abstraction *)

Definition abs (c : simpleLRUCache) : list cacheEntry := omap (λ e, elems c !! e) (order c).

Record lru_ok (c : simpleLRUCache) : Prop := {
  lo_nodup : NoDup (order c);
  lo_elems : ∀ e, e ∈ order c → is_Some (elems c !! e);
  lo_items : ∀ k e, items c !! k = Some e ↔
    e ∈ order c ∧ ∃ en, elems c !! e = Some en ∧ key en = k;
  lo_fresh : ∀ e, e ∈ order c → (e < nextElem c)%nat;
  lo_sizes : ∀ en, en ∈ abs c → 0 ≤ size_ en;
  lo_size : currentSize c = sumZ size_ (abs c);
  lo_bound : currentSize c ≤ 2 ^ 62
}.

(** ** Specification: the entries, most recently used first *)

Definition drop_key (k : string) (l : list cacheEntry) : list cacheEntry :=
  filter (λ en, key en ≠ k) l.

Definition spec_find (k : string) (l : list cacheEntry) : option cacheEntry :=
  list_find (λ en, key en = k) l ≫= λ p, Some p.2.

(** Drops from the back until [size] more bytes fit. *)
Fixpoint spec_evict (fuel : nat) (room : Z) (l : list cacheEntry) : list cacheEntry :=
  match fuel with
  | O => l
  | S fuel => if room <? sumZ size_ l then spec_evict fuel room (removelast l) else l
  end.

Definition spec_put (cap ttl : Z) (k : string) (v : V) (size now : Z) (l : list cacheEntry)
    : list cacheEntry :=
  let en := mkEntry k v size (now + ttl) now in
  match spec_find k l with
  | Some _ => en :: drop_key k l
  | None => en :: spec_evict (length l) (cap - size) l
  end.

Definition spec_get (k : string) (now : Z) (l : list cacheEntry) : list cacheEntry * option V :=
  match spec_find k l with
  | None => (l, None)
  | Some en =>
      if expiresAt en <? now then (drop_key k l, None)
      else if promote_after <? now - lastPromoted en
      then (set_promoted now en :: drop_key k l, Some (value en))
      else (l, Some (value en))
  end.

(** ** The abstraction *)

Implicit Types c : simpleLRUCache.

Lemma omap_cons {A B} (f : A → option B) x l :
  omap f (x :: l) = match f x with Some y => y :: omap f l | None => omap f l end.
Proof. done. Qed.

Lemma elem_of_abs c en :
  en ∈ abs c ↔ ∃ e, e ∈ order c ∧ elems c !! e = Some en.
Proof. unfold abs. apply list_elem_of_omap. Qed.

(** Two live elements with the same key are the same element. *)
Lemma key_unique c e e' en en' :
  lru_ok c → e ∈ order c → e' ∈ order c → elems c !! e = Some en → elems c !! e' = Some en' →
  key en = key en' → e = e'.
Proof.
  intros Hok He He' Hen Hen' Hk.
  assert (items c !! key en = Some e) by (apply (lo_items c Hok); eauto).
  assert (items c !! key en = Some e') by (apply (lo_items c Hok); eauto). congruence.
Qed.

Lemma find_abs c k :
  lru_ok c → spec_find k (abs c) = items c !! k ≫= λ e, elems c !! e.
Proof.
  intros Hok. unfold spec_find.
  destruct (list_find _ (abs c)) as [[i en]|] eqn:E; simpl.
  - apply list_find_Some in E as (Hi & Hk & _). apply list_elem_of_lookup_2 in Hi.
    apply elem_of_abs in Hi as (e & He & Hen).
    assert (items c !! k = Some e) as -> by (apply (lo_items c Hok); eauto). by simpl.
  - apply list_find_None in E. destruct (items c !! k) as [e|] eqn:Ei; [|done]. simpl.
    apply (lo_items c Hok) in Ei as (He & en & Hen & Hk).
    rewrite list.Forall_forall in E. exfalso. apply (E en); [|done]. apply elem_of_abs. eauto.
Qed.

Lemma omap_filter (f : nat → option cacheEntry) (P : nat → Prop) (Q : cacheEntry → Prop)
    `{!∀ x, Decision (P x)} `{!∀ x, Decision (Q x)} (l : list nat) :
  (∀ x en, x ∈ l → f x = Some en → (P x ↔ Q en)) →
  omap f (filter P l) = filter Q (omap f l).
Proof.
  induction l as [|x l IH]; intros Hf; [done|].
  assert (IH' := IH ltac:(intros; apply Hf; [by right|done])). clear IH.
  rewrite filter_cons. destruct (f x) as [en|] eqn:Ex.
  - specialize (Hf x en ltac:(left) Ex).
    rewrite (omap_cons f x l), Ex, filter_cons.
    case_decide as H1; case_decide as H2; try naive_solver.
    by rewrite (omap_cons f x), Ex, IH'.
  - rewrite (omap_cons f x l), Ex. case_decide; [|done]. by rewrite (omap_cons f x), Ex.
Qed.

Lemma abs_remove c e en :
  lru_ok c → e ∈ order c → elems c !! e = Some en →
  abs (removeElement e c) = drop_key (key en) (abs c).
Proof.
  intros Hok He Hen. unfold removeElement. rewrite Hen. unfold abs at 1. simpl.
  apply omap_filter. intros x en' Hx Hen'. split; [|intros Hk ->; congruence].
  intros Hne Hk. apply Hne. symmetry. by apply (key_unique c e x en en').
Qed.

Lemma remove_perm e l : NoDup l → e ∈ l → l ≡ₚ e :: list_remove e l.
Proof.
  intros Hnd He. apply NoDup_Permutation; [done| |].
  - constructor; [|by apply list.NoDup_filter]. unfold list_remove. rewrite list_elem_of_filter. tauto.
  - intros x. unfold list_remove. rewrite elem_of_cons, list_elem_of_filter.
    destruct (decide (x = e)) as [->|]; tauto.
Qed.

(** The entry of an element, split off the list. *)
Lemma abs_split c e en :
  lru_ok c → e ∈ order c → elems c !! e = Some en →
  abs c ≡ₚ en :: drop_key (key en) (abs c).
Proof.
  intros Hok He Hen. rewrite <-(abs_remove c e en) by done. unfold removeElement. rewrite Hen.
  unfold abs. simpl. etrans; [apply omap_Permutation, (remove_perm e); [apply Hok|done]|].
  by rewrite (omap_cons _ e), Hen.
Qed.

Lemma sum_nonneg c : lru_ok c → 0 ≤ currentSize c.
Proof. intros Hok. rewrite (lo_size c Hok). apply sumZ_nonneg, Hok. Qed.

Lemma size_in_range c en : lru_ok c → en ∈ abs c → 0 ≤ size_ en ≤ currentSize c.
Proof.
  intros Hok Hen. split; [by apply Hok|]. rewrite (lo_size c Hok).
  pose proof (lo_sizes c Hok) as Hs. revert Hen Hs. generalize (abs c) as l. intros l.
  induction l as [|x l IH]; intros Hen Hs; [by apply not_elem_of_nil in Hen|]. simpl.
  pose proof (Hs x ltac:(left)).
  pose proof (sumZ_nonneg size_ l ltac:(intros; apply Hs; by right)).
  apply elem_of_cons in Hen as [->|Hen]; [lia|].
  specialize (IH Hen ltac:(intros; apply Hs; by right)). lia.
Qed.

Lemma removeElement_ok c e en :
  lru_ok c → e ∈ order c → elems c !! e = Some en →
  lru_ok (removeElement e c) ∧ currentSize (removeElement e c) = currentSize c - size_ en ∧
  capacity_ (removeElement e c) = capacity_ c ∧ ttl (removeElement e c) = ttl c ∧
  order (removeElement e c) = list_remove e (order c) ∧
  items (removeElement e c) = delete (key en) (items c).
Proof.
  intros Hok He Hen.
  pose proof (abs_remove c e en Hok He Hen) as Habs. pose proof (abs_split c e en Hok He Hen) as Hsp.
  assert (Hin : en ∈ abs c) by (apply elem_of_abs; eauto).
  pose proof (size_in_range c en Hok Hin). pose proof (lo_bound c Hok).
  assert (Hcs : currentSize (removeElement e c) = currentSize c - size_ en).
  { unfold removeElement. rewrite Hen. simpl. apply i64_id. unfold in_i64. lia. }
  assert (Hord : order (removeElement e c) = list_remove e (order c))
    by (unfold removeElement; by rewrite Hen).
  assert (Hsub : ∀ x, x ∈ list_remove e (order c) ↔ x ∈ order c ∧ x ≠ e).
  { intros x. unfold list_remove. rewrite list_elem_of_filter. tauto. }
  assert (Hel : elems (removeElement e c) = elems c) by (unfold removeElement; by rewrite Hen).
  assert (Hit : items (removeElement e c) = delete (key en) (items c))
    by (unfold removeElement; by rewrite Hen).
  split; [|split_and!; [done| | |done|done]; unfold removeElement; by rewrite Hen].
  split; rewrite ?Hord, ?Hel, ?Hit, ?Hcs.
  - apply list.NoDup_filter, Hok.
  - intros x [Hx _]%Hsub. by apply (lo_elems c Hok).
  - intros k x. rewrite lookup_delete_Some, (lo_items c Hok), Hsub. split.
    + intros (Hk & Hx & en' & Hen' & <-). split; [|by exists en']. split; [done|].
      intros ->. congruence.
    + intros ((Hx & Hne) & en' & Hen' & <-). split; [|by split; [|exists en']].
      intros Hk. apply Hne. symmetry. by apply (key_unique c e x en en').
  - intros x [Hx _]%Hsub. unfold removeElement. rewrite Hen. simpl. by apply (lo_fresh c Hok).
  - rewrite Habs. intros en' Hen'. unfold drop_key in Hen'.
    apply list_elem_of_filter in Hen' as [_ Hen']. by apply (lo_sizes c Hok).
  - rewrite Habs. rewrite (lo_size c Hok). rewrite Hsp at 1. simpl. lia.
  - lia.
Qed.

(** ** Refinement *)

Lemma spec_evict_nil n room : spec_evict n room [] = [].
Proof. induction n as [|n IH]; simpl; [done|]. by destruct (room <? 0). Qed.

Lemma evict_loop_spec fuel size c :
  lru_ok c → 0 ≤ size → currentSize c + size ≤ 2 ^ 62 →
  let c' := evict_loop fuel size c in
  lru_ok c' ∧ abs c' = spec_evict fuel (capacity_ c - size) (abs c) ∧
  capacity_ c' = capacity_ c ∧ ttl c' = ttl c ∧ currentSize c' ≤ currentSize c ∧
  (∀ k, items c !! k = None → items c' !! k = None).
Proof.
  revert c. induction fuel as [|fuel IH]; intros c Hok Hs Hb; simpl; [done|].
  pose proof (sum_nonneg c Hok) as Hcs.
  rewrite i64_id by (unfold in_i64; lia). rewrite <-(lo_size c Hok).
  destruct (Z.ltb_spec (capacity_ c) (currentSize c + size)),
    (Z.ltb_spec (capacity_ c - size) (currentSize c)); try lia; simpl; [|done].
  destruct (Z.ltb_spec 0 (len (order c))) as [Hlen|Hlen].
  2:{ assert (order c = []) as E by (destruct (order c); [done|]; unfold len in Hlen; simpl in *; lia).
      assert (abs c = []) as -> by (unfold abs; by rewrite E).
      simpl. by rewrite spec_evict_nil. }
  destruct (list.last (order c)) as [e|] eqn:El.
  2:{ apply list.last_None in El. unfold len in Hlen. rewrite El in Hlen. simpl in Hlen. lia. }
  apply list.last_Some in El as [l El].
  assert (He : e ∈ order c) by (rewrite El; apply elem_of_app; right; left).
  destruct (lo_elems c Hok e He) as [en Hen].
  destruct (removeElement_ok c e en Hok He Hen) as (Hok' & Hcs' & Hcap' & Httl' & Hord' & Hit').
  assert (Hin : en ∈ abs c) by (apply elem_of_abs; eauto).
  pose proof (size_in_range c en Hok Hin).
  assert (Habs : abs (removeElement e c) = removelast (abs c)).
  { unfold abs. rewrite El, omap_app. rewrite Hord', El.
    assert (list_remove e (l ++ [e]) = l) as ->.
    { pose proof (lo_nodup c Hok) as Hnd. rewrite El in Hnd.
      apply list.NoDup_app in Hnd as (_ & Hd & _).
      unfold list_remove. rewrite list.filter_app. rewrite filter_cons, decide_False by tauto.
      rewrite filter_nil, app_nil_r. clear -Hd. induction l as [|x l IH]; [done|].
      rewrite filter_cons, decide_True, IH; [done| |].
      - intros y Hy. apply Hd. by right.
      - intros ->. apply (Hd e); [left|left]. }
    rewrite (omap_cons _ e), Hen. simpl. rewrite removelast_last.
    unfold removeElement. by rewrite Hen. }
  destruct (IH _ Hok' Hs ltac:(lia)) as (Ha & Hb' & Hc & Hd & He' & Hf).
  rewrite Hcap', Httl', Habs in *. split; [done|]. split; [done|]. split; [done|]. split; [done|].
  split; [lia|]. intros k Hk. apply Hf. rewrite Hit'. apply lookup_delete_None. by right.
Qed.

(** Enough is evicted, whatever the fuel left over. *)
Lemma spec_evict_fits room l :
  (∀ en, en ∈ l → 0 ≤ size_ en) →
  sumZ size_ (spec_evict (length l) room l) ≤ room ∨ spec_evict (length l) room l = [].
Proof.
  assert (Hgen : ∀ n l, (length l ≤ n)%nat →
    sumZ size_ (spec_evict n room l) ≤ room ∨ spec_evict n room l = []).
  { clear l. intros n. induction n as [|n IH]; intros l Hn.
    { right. destruct l; [done|]. simpl in Hn. lia. }
    simpl. destruct (Z.ltb_spec room (sumZ size_ l)); [|by left].
    apply IH. destruct l as [|x l] using rev_ind; [simpl; lia|].
    rewrite removelast_last. rewrite length_app in Hn. simpl in Hn. lia. }
  intros _. by apply Hgen.
Qed.

Lemma Put_new_ok k v size now c :
  lru_ok c → 0 ≤ size → currentSize c + size ≤ 2 ^ 62 → items c !! k = None →
  lru_ok (Put k v size now c) ∧
  abs (Put k v size now c) = spec_put (capacity_ c) (ttl c) k v size now (abs c).
Proof.
  intros Hok Hs Hb Hk. unfold Put, spec_put. rewrite (find_abs c k Hok), Hk. simpl.
  assert (Hlen : length (order c) = length (abs c)).
  { unfold abs. pose proof (lo_elems c Hok) as He. revert He. generalize (order c) as l.
    induction l as [|x l IH]; intros He; [done|]. rewrite (omap_cons _ x).
    destruct (He x ltac:(left)) as [en ->]. simpl. rewrite IH; [done|].
    intros y Hy. apply He. by right. }
  destruct (evict_loop_spec (length (order c)) size c Hok Hs Hb) as (Hok' & Habs & Hcap & Httl & Hcs & Hit).
  set (c1 := evict_loop (length (order c)) size c) in *.
  specialize (Hit k Hk). rewrite Hlen in Habs.
  pose proof (sum_nonneg c1 Hok') as Hcs0.
  set (en := mkEntry k v size (now + ttl c1) now).
  assert (Hnew : nextElem c1 ∉ order c1) by (intros Hx%(lo_fresh c1 Hok'); lia).
  assert (Habs' : ∀ cp cs tl it nx,
    abs (mkLRU cp cs tl it (nextElem c1 :: order c1) (<[nextElem c1 := en]> (elems c1)) nx)
    = en :: abs c1).
  { intros. unfold abs at 1. cbn [order elems]. rewrite (omap_cons _ (nextElem c1)), lookup_insert_eq. f_equal. unfold abs.
    clear -Hnew. revert Hnew. generalize (order c1) as l. induction l as [|x l IH]; [done|].
    intros Hn. apply not_elem_of_cons in Hn as [Hx Hn].
    rewrite !(omap_cons _ x), lookup_insert_ne, IH by congruence. done. }
  split.
  - split; simpl.
    + constructor; [done|apply Hok'].
    + intros x [->|Hx]%elem_of_cons; [by rewrite lookup_insert_eq; eexists|].
      rewrite lookup_insert_ne by (intros <-; done). by apply (lo_elems c1 Hok').
    + intros k' x. rewrite lookup_insert_Some, elem_of_cons. split.
      * intros [[<- <-]|[Hne Hx]].
        -- split; [by left|]. exists en. by rewrite lookup_insert_eq.
        -- apply (lo_items c1 Hok') in Hx as (Hx & en' & He & Hk'). split; [by right|].
           exists en'. rewrite lookup_insert_ne by (intros <-; done). done.
      * intros [[->|Hx] (en' & He & Hk')].
        -- rewrite lookup_insert_eq in He. injection He as <-. by left.
        -- rewrite lookup_insert_ne in He by (intros <-; done). right.
           assert (items c1 !! k' = Some x) by (apply (lo_items c1 Hok'); eauto).
           split; [congruence|done].
    + intros x [->|Hx]%elem_of_cons; [lia|]. pose proof (lo_fresh c1 Hok' x Hx). lia.
    + rewrite Habs'. intros en' [->|Hen]%elem_of_cons; [done|].
      by apply (lo_sizes c1 Hok').
    + rewrite Habs'. simpl. rewrite i64_id by (unfold in_i64; lia).
      rewrite (lo_size c1 Hok'). lia.
    + rewrite i64_id by (unfold in_i64; lia). lia.
  - rewrite Habs'. unfold en. by rewrite Habs, Httl.
Qed.

(** Rewriting the entry of one element and moving it to the front. *)
Lemma touch_ok c e en f cs :
  lru_ok c → e ∈ order c → elems c !! e = Some en → key (f en) = key en → 0 ≤ size_ (f en) →
  cs = currentSize c - size_ en + size_ (f en) → cs ≤ 2 ^ 62 →
  let c' := mkLRU (capacity_ c) cs (ttl c) (items c) (MoveToFront e (order c))
              (alter f e (elems c)) (nextElem c) in
  lru_ok c' ∧ abs c' = f en :: drop_key (key en) (abs c).
Proof.
  intros Hok He Hen Hkf Hsf Hcs Hb c'.
  assert (Hmem : ∀ x, x ∈ MoveToFront e (order c) ↔ x ∈ order c).
  { intros x. unfold MoveToFront. by rewrite <-(remove_perm e) by (apply Hok || done). }
  assert (Hl : ∀ x, alter f e (elems c) !! x = if decide (x = e) then Some (f en) else elems c !! x).
  { intros x. case_decide as Hx; [subst; by rewrite lookup_alter_eq, Hen|].
    by rewrite lookup_alter_ne by congruence. }
  assert (Habs : abs c' = f en :: drop_key (key en) (abs c)).
  { unfold abs at 1, c'. cbn [order elems]. unfold MoveToFront.
    rewrite (omap_cons _ e), Hl, decide_True by done. f_equal.
    rewrite <-(abs_remove c e en) by done. unfold abs, removeElement. rewrite Hen.
    cbn [order elems]. unfold list_remove. generalize (order c) as l. induction l as [|x l IH]; [done|].
    rewrite !filter_cons. case_decide as Hx; [|done]. rewrite !(omap_cons _ x), Hl.
    rewrite decide_False by done. by rewrite IH. }
  split; [|done]. pose proof (abs_split c e en Hok He Hen) as Hsp.
  split; simpl.
  - unfold MoveToFront. rewrite <-(remove_perm e) by (apply Hok || done). apply Hok.
  - intros x Hx%Hmem. rewrite Hl. case_decide; [by eexists|]. by apply (lo_elems c Hok).
  - intros k x. rewrite (lo_items c Hok), Hmem, Hl.
    case_decide as Hx; [subst|done]. split; intros (H1 & en' & H2 & H3); (split; [done|]).
    + exists (f en). split; [done|]. congruence.
    + exists en. split; [done|]. congruence.
  - intros x Hx%Hmem. by apply (lo_fresh c Hok).
  - rewrite Habs. intros en' [->|Hen']%elem_of_cons; [done|].
    apply list_elem_of_filter in Hen' as [_ Hen']. by apply (lo_sizes c Hok).
  - rewrite Habs, Hcs, (lo_size c Hok). rewrite Hsp at 1. simpl. lia.
  - done.
Qed.

(** ** Operations as one type *)

Inductive lru_op :=
  | OpPut (k : string) (v : V) (size now : Z)
  | OpGet (k : string) (now : Z)
  | OpDelete (k : string)
  | OpCleanup (now : Z).

Definition apply_op (op : lru_op) (c : simpleLRUCache) : simpleLRUCache * option V :=
  match op with
  | OpPut k v size now => (Put k v size now c, None)
  | OpGet k now => Get k now c
  | OpDelete k => ((Delete k c).1, None)
  | OpCleanup now => ((CleanupExpired now c).1, None)
  end.

Definition spec_op (cap ttl : Z) (op : lru_op) (l : list cacheEntry)
    : list cacheEntry * option V :=
  match op with
  | OpPut k v size now => (spec_put cap ttl k v size now l, None)
  | OpGet k now => spec_get k now l
  | OpDelete k => (drop_key k l, None)
  | OpCleanup now => (filter (λ en, now ≤ expiresAt en) l, None)
  end.

(** Sizes are not negative and the counter stays clear of overflow. *)
Definition op_fits (op : lru_op) (c : simpleLRUCache) : Prop :=
  match op with
  | OpPut _ _ size _ => 0 ≤ size ∧ currentSize c + size ≤ 2 ^ 62
  | _ => True
  end.

Lemma drop_key_absent c k : lru_ok c → items c !! k = None → drop_key k (abs c) = abs c.
Proof.
  intros Hok Hk. unfold drop_key. apply list_filter_all. intros en Hen <-.
  apply elem_of_abs in Hen as (e & He & Hen).
  assert (items c !! key en = Some e) by (apply (lo_items c Hok); eauto). congruence.
Qed.

Lemma items_live c k e : lru_ok c → items c !! k = Some e →
  e ∈ order c ∧ ∃ en, elems c !! e = Some en ∧ key en = k.
Proof. intros Hok. apply (lo_items c Hok). Qed.

Lemma Put_update_ok k v size now c e :
  lru_ok c → 0 ≤ size → currentSize c + size ≤ 2 ^ 62 → items c !! k = Some e →
  lru_ok (Put k v size now c) ∧
  abs (Put k v size now c) = spec_put (capacity_ c) (ttl c) k v size now (abs c).
Proof.
  intros Hok Hs Hb Hk. destruct (items_live c k e Hok Hk) as (He & en & Hen & Hke).
  unfold Put, spec_put. rewrite (find_abs c k Hok), Hk. simpl. rewrite Hen. simpl.
  assert (Hin : en ∈ abs c) by (apply elem_of_abs; eauto).
  pose proof (size_in_range c en Hok Hin).
  rewrite (i64_id (_ - _)) by (unfold in_i64; lia). rewrite i64_id by (unfold in_i64; lia).
  destruct (touch_ok c e en (λ en, mkEntry (key en) v size (now + ttl c) now)
    (currentSize c - size_ en + size)) as [H1 H2]; try done; [simpl; lia|].
  split; [done|]. rewrite H2. simpl. by rewrite Hke.
Qed.

Lemma Get_ok k now c :
  lru_ok c → lru_ok (Get k now c).1 ∧ (abs (Get k now c).1, (Get k now c).2) = spec_get k now (abs c).
Proof.
  intros Hok. unfold Get, spec_get, Get_read, Get_write. rewrite (find_abs c k Hok).
  destruct (items c !! k) as [e|] eqn:Hk; [|done]. simpl.
  destruct (items_live c k e Hok Hk) as (He & en & Hen & Hke). rewrite Hen.
  destruct (expiresAt en <? now) eqn:Ex; cbn [fst snd get_result].
  - destruct (removeElement_ok c e en Hok He Hen) as [Hok' _]. split; [done|].
    by rewrite (abs_remove c e en Hok He Hen), Hke.
  - destruct (promote_after <? now - lastPromoted en); cbn [fst snd get_result]; [|done].
    destruct (touch_ok c e en (set_promoted now) (currentSize c)) as [H1 H2]; try done.
    + simpl. apply (lo_sizes c Hok), elem_of_abs. eauto.
    + simpl. lia.
    + apply Hok.
    + split; [done|]. rewrite H2. by rewrite Hke.
Qed.

Lemma remove_list_ok es c :
  lru_ok c → NoDup es → (∀ e, e ∈ es → e ∈ order c) →
  let c' := foldl (λ c e, removeElement e c) c es in
  lru_ok c' ∧ order c' = filter (λ e, e ∉ es) (order c) ∧ elems c' = elems c.
Proof.
  revert c. induction es as [|e es IH]; intros c Hok Hnd Hsub; simpl.
  { split; [done|]. split; [|done]. symmetry. apply list_filter_all. intros x _. apply not_elem_of_nil. }
  apply list.NoDup_cons in Hnd as [Hni Hnd].
  assert (He : e ∈ order c) by (apply Hsub; left).
  destruct (lo_elems c Hok e He) as [en Hen].
  destruct (removeElement_ok c e en Hok He Hen) as (Hok' & _ & _ & _ & Hord & _).
  destruct (IH _ Hok' Hnd) as (H1 & H2 & H3).
  { intros x Hx. rewrite Hord. unfold list_remove. apply list_elem_of_filter.
    split; [by intros ->|]. apply Hsub. by right. }
  split; [done|]. split.
  - rewrite H2, Hord. unfold list_remove. rewrite list_filter_filter. apply list_filter_iff.
    intros x. rewrite not_elem_of_cons. tauto.
  - rewrite H3. unfold removeElement. by rewrite Hen.
Qed.

Lemma Cleanup_ok now c :
  lru_ok c → lru_ok (CleanupExpired now c).1 ∧
  abs (CleanupExpired now c).1 = filter (λ en, now ≤ expiresAt en) (abs c).
Proof.
  intros Hok. unfold CleanupExpired. simpl.
  destruct (remove_list_ok (filter (λ e, is_expired now c e = true) (order c)) c Hok) as (H1 & H2 & H3).
  - apply list.NoDup_filter, Hok.
  - intros e He. by apply list_elem_of_filter in He as [_ ?].
  - split; [done|]. unfold abs at 1. rewrite H2, H3. apply omap_filter.
    intros x en Hx Hen. rewrite list_elem_of_filter. unfold is_expired. rewrite Hen, Z.ltb_lt.
    split; [|lia]. intros Hn. destruct (decide (expiresAt en < now)); [|lia]. exfalso. tauto.
Qed.

Lemma op_ok op c :
  lru_ok c → op_fits op c →
  lru_ok (apply_op op c).1 ∧
  (abs (apply_op op c).1, (apply_op op c).2) = spec_op (capacity_ c) (ttl c) op (abs c).
Proof.
  intros Hok Hf. destruct op as [k v size now|k now|k|now]; simpl.
  - destruct Hf as [Hs Hb]. destruct (items c !! k) as [e|] eqn:Hk.
    + destruct (Put_update_ok k v size now c e Hok Hs Hb Hk) as [? ->]. done.
    + destruct (Put_new_ok k v size now c Hok Hs Hb Hk) as [? ->]. done.
  - by apply Get_ok.
  - unfold Delete. destruct (items c !! k) as [e|] eqn:Hk; simpl.
    + destruct (items_live c k e Hok Hk) as (He & en & Hen & Hke).
      destruct (removeElement_ok c e en Hok He Hen) as [Hok' _].
      by rewrite (abs_remove c e en Hok He Hen), Hke.
    + by rewrite drop_key_absent.
  - destruct (Cleanup_ok now c Hok) as [? H2]. simpl in H2. by rewrite H2.
Qed.

(** C30: the map-and-linked-list cache implements the list of entries: from any
    state whose invariant holds, each operation keeps the invariant (unique
    keys, map and list agreeing, the counter the sum of the sizes) and does to
    the list what the specification does, returning the same value. *)
Theorem lru_refines op c :
  lru_ok c → op_fits op c →
  lru_ok (apply_op op c).1 ∧
  (abs (apply_op op c).1, (apply_op op c).2) = spec_op (capacity_ c) (ttl c) op (abs c).
Proof. apply op_ok. Qed.

Lemma spec_evict_prefix n room l : spec_evict n room l `prefix_of` l.
Proof.
  revert l. induction n as [|n IH]; intros l; simpl; [done|]. destruct (room <? _); [|done].
  etrans; [apply IH|]. destruct l as [|x l _] using rev_ind; [done|].
  rewrite removelast_last. by apply prefix_app_r.
Qed.

(** inserting a new key that fits the capacity leaves the cache within its
    capacity, and what it evicts are the least recently used entries, from the
    back of the list. *)
Theorem Put_new_within_capacity k v size now c :
  lru_ok c → 0 ≤ size ≤ capacity_ c → currentSize c + size ≤ 2 ^ 62 → items c !! k = None →
  currentSize (Put k v size now c) ≤ capacity_ c ∧
  ∃ l, abs (Put k v size now c) = mkEntry k v size (now + ttl c) now :: l ∧ l `prefix_of` abs c.
Proof.
  intros Hok Hs Hb Hk. destruct (Put_new_ok k v size now c Hok ltac:(lia) Hb Hk) as [Hok' Habs].
  rewrite (lo_size _ Hok'), Habs. unfold spec_put. rewrite (find_abs c k Hok), Hk. simpl.
  split; [|eexists; split; [done|apply spec_evict_prefix]].
  destruct (spec_evict_fits (capacity_ c - size) (abs c) (lo_sizes c Hok)) as [H| ->]; simpl; lia.
Qed.

Lemma Put_then_Get k v size now now' c :
  lru_ok c → 0 ≤ size → currentSize c + size ≤ 2 ^ 62 → now ≤ now' ≤ now + ttl c →
  (Get k now' (Put k v size now c)).2 = Some v.
Proof.
  intros Hok Hs Hb Hn. destruct (op_ok (OpPut k v size now) c Hok (conj Hs Hb)) as [Hok' Habs].
  simpl in *. injection Habs as Habs.
  destruct (Get_ok k now' _ Hok') as [_ Hg]. rewrite Habs in Hg.
  assert (Hf : ∀ l, spec_find k (mkEntry k v size (now + ttl c) now :: l)
               = Some (mkEntry k v size (now + ttl c) now)).
  { intros l. unfold spec_find. simpl. by rewrite decide_True by done. }
  assert (Hp : ∃ l, spec_put (capacity_ c) (ttl c) k v size now (abs c)
               = mkEntry k v size (now + ttl c) now :: l).
  { unfold spec_put. destruct (spec_find k (abs c)); eauto. }
  destruct Hp as [l Hp]. rewrite Hp in Hg. unfold spec_get in Hg. rewrite Hf in Hg. simpl in Hg.
  rewrite (proj2 (Z.ltb_ge _ _)) in Hg by lia.
  destruct (promote_after <? now' - now); congruence.
Qed.

(** A value just stored is the value found, for as long as its time to live,
    whatever was in the cache before. *)
Theorem Put_Get k v size now now' c :
  lru_ok c → 0 ≤ size → currentSize c + size ≤ 2 ^ 62 → now ≤ now' ≤ now + ttl c →
  (Get k now' (Put k v size now c)).2 = Some v.
Proof. apply Put_then_Get. Qed.

(** Storing under a key already present never evicts: the counter moves by
    the difference of the sizes and every other entry stays, so a larger value
    can take the cache above its capacity. *)
Theorem Put_update_never_evicts k v size now c e en :
  lru_ok c → 0 ≤ size → currentSize c + size ≤ 2 ^ 62 →
  items c !! k = Some e → elems c !! e = Some en →
  currentSize (Put k v size now c) = currentSize c - size_ en + size ∧
  abs (Put k v size now c) = mkEntry k v size (now + ttl c) now :: drop_key k (abs c).
Proof.
  intros Hok Hs Hb Hk Hen. destruct (Put_update_ok k v size now c e Hok Hs Hb Hk) as [_ Habs].
  rewrite Habs. unfold spec_put. rewrite (find_abs c k Hok), Hk. simpl. rewrite Hen.
  split; [|done]. unfold Put. rewrite Hk, Hen. simpl.
  destruct (items_live c k e Hok Hk) as (He & en' & Hen' & _). simplify_eq.
  pose proof (size_in_range c en Hok ltac:(apply elem_of_abs; eauto)).
  rewrite (i64_id (_ - _)) by (unfold in_i64; lia). by rewrite i64_id by (unfold in_i64; lia).
Qed.

(** A [Get] that saw an expired entry removes whatever is there when it gets the
    write lock, also an entry a [Put] stored in between. *)
Lemma get_race_drops_fresh k v size now c :
  lru_ok c → 0 ≤ size → currentSize c + size ≤ 2 ^ 62 → Get_read k now c = Expired →
  items (Get_write k now (Get_read k now c) (Put k v size now c)) !! k = None.
Proof.
  intros Hok Hs Hb Hr. rewrite Hr. unfold Get_read in Hr.
  destruct (items c !! k) as [e|] eqn:Hk; [|done].
  destruct (Put_update_ok k v size now c e Hok Hs Hb Hk) as [Hok' _].
  assert (Hi : items (Put k v size now c) !! k = Some e) by (unfold Put; by rewrite Hk).
  unfold Get_write. rewrite Hi. destruct (items_live _ k e Hok' Hi) as (He & en & Hen & <-).
  unfold removeElement. rewrite Hen. simpl. apply lookup_delete_eq.
Qed.

(** ** The sharded cache *)

Record LRUCache := mkSharded { shards : list simpleLRUCache }.

Definition numShards : Z := 32.
Definition shardMask : Z := 31.

Definition NewLRUCache (capacity ttl : Z) : LRUCache :=
  let shardCap := capacity /! numShards in
  let shardCap := if shardCap =? 0 then 1024 * 1024 else shardCap in
  mkSharded (replicate (Z.to_nat numShards) (newSimpleLRUCache shardCap ttl)).

(** [xxhash] is the 64-bit hash of a key (package xxhash). *)
Context (xxhash : string → Z).

Definition shard_index (k : string) : Z := Z.land (xxhash k) shardMask.

Definition getShard (k : string) (c : LRUCache) : option simpleLRUCache :=
  index (shards c) (shard_index k).

(** Runs [f] on the shard of [k]; [None] is an index out of range. *)
Definition on_shard {A} (k : string) (f : simpleLRUCache → simpleLRUCache * A) (c : LRUCache)
    : option (LRUCache * A) :=
  s ← getShard k c;
  let '(s, a) := f s in
  l ← store (shards c) (shard_index k) s;
  Some (mkSharded l, a).

Definition LRU_Get (k : string) (now : Z) : LRUCache → option (LRUCache * option V) :=
  on_shard k (Get k now).
Definition LRU_Put (k : string) (v : V) (size now : Z) : LRUCache → option (LRUCache * unit) :=
  on_shard k (λ s, (Put k v size now s, tt)).
Definition LRU_Delete (k : string) : LRUCache → option (LRUCache * bool) := on_shard k (Delete k).

Definition LRU_Len (c : LRUCache) : Z := foldl (λ t s, t +! Lru_Len s) 0 (shards c).

Definition LRU_CleanupExpired (now : Z) (c : LRUCache) : LRUCache * Z :=
  (mkSharded ((λ s, (CleanupExpired now s).1) <$> shards c),
   foldl (λ t s, t +! (CleanupExpired now s).2) 0 (shards c)).

Definition LRU_Stats (c : LRUCache) : Z * Z * Z :=
  foldl (λ t s, let '(a, b, n) := t in
                let '(a', b', n') := Lru_Stats s in (a +! a', b +! b', n +! n'))
        (0, 0, 0) (shards c).

Definition sharded_ok (c : LRUCache) : Prop :=
  len (shards c) = numShards ∧ Forall lru_ok (shards c).

Lemma shard_index_range k : 0 ≤ xxhash k < 2 ^ 64 → 0 ≤ shard_index k < numShards.
Proof.
  intros Hx. unfold shard_index, shardMask, numShards.
  change 31 with (Z.ones 5). rewrite Z.land_ones by lia. apply Z.mod_pos_bound. lia.
Qed.

(** with a hash in 64 bits every key has a shard, and an operation on one key
    changes that key's shard only: a stored value is found again, and lookups of
    keys of other shards do not notice. *)
Theorem sharded_Put_Get k v size now now' (c : LRUCache) s :
  0 ≤ xxhash k < 2 ^ 64 → sharded_ok c → getShard k c = Some s →
  0 ≤ size → currentSize s + size ≤ 2 ^ 62 → now ≤ now' ≤ now + ttl s →
  ∃ c' : LRUCache, LRU_Put k v size now c = Some (c', tt) ∧ sharded_ok c' ∧
    snd <$> LRU_Get k now' c' = Some (Some v) ∧
    ∀ k', shard_index k' ≠ shard_index k → 0 ≤ xxhash k' < 2 ^ 64 →
      snd <$> LRU_Get k' now' c' = snd <$> LRU_Get k' now' c.
Proof.
  intros Hx [Hl Hok] Hs Hsz Hb Hn. pose proof (shard_index_range k Hx) as Hi.
  assert (Hoks : lru_ok s).
  { unfold getShard, index in Hs. rewrite decide_True in Hs by lia.
    rewrite list.Forall_forall in Hok. by eapply Hok, list_elem_of_lookup_2. }
  destruct (op_ok (OpPut k v size now) s Hoks (conj Hsz Hb)) as [Hokp Habs]. simpl in Hokp.
  assert (Hst : ∀ x, store (shards c) (shard_index k) x = Some (<[Z.to_nat (shard_index k) := x]> (shards c))).
  { intros x. unfold store. rewrite decide_True by lia. done. }
  unfold LRU_Put, on_shard. rewrite Hs. simpl. rewrite Hst. simpl. eexists. split; [done|].
  assert (Hlen : len (<[Z.to_nat (shard_index k) := Put k v size now s]> (shards c)) = numShards)
    by (unfold len in *; by rewrite length_insert).
  assert (Hlt : (Z.to_nat (shard_index k) < length (shards c))%nat) by (unfold len in Hl; lia).
  split.
  - split; [done|]. simpl. apply list.Forall_insert; done.
  - split.
    + unfold LRU_Get, on_shard, getShard, index. rewrite decide_True by lia. simpl.
      rewrite list_lookup_insert_eq by done. simpl.
      assert (Hg : (Get k now' (Put k v size now s)).2 = Some v).
      { by apply Put_then_Get. }
      unfold store. rewrite decide_True by (simpl; lia). unfold Get in Hg. simpl in Hg |- *.
      by rewrite Hg.
    + intros k' Hne Hx'. pose proof (shard_index_range k' Hx') as Hi'.
      unfold LRU_Get, on_shard, getShard, index. rewrite !decide_True by lia. simpl.
      rewrite list_lookup_insert_ne by lia.
      destruct (shards c !! Z.to_nat (shard_index k')) as [s'|]; [|done]. simpl.
      destruct (Get k' now' s') as [s'' r]. unfold store.
      rewrite !decide_True by (simpl; lia). done.
Qed.

End lru.

Arguments cacheEntry : clear implicits.
Arguments simpleLRUCache : clear implicits.
Arguments get_next : clear implicits.
Arguments LRUCache : clear implicits.
Arguments lru_op : clear implicits.

(** ** Witnesses: a 100-byte cache of strings *)

Definition lru0 : simpleLRUCache string := newSimpleLRUCache 100 1000.
Definition lru1 : simpleLRUCache string := Put "a" "va" 60 5 lru0.

Lemma new_ok cap t : 0 ≤ cap → lru_ok (newSimpleLRUCache (V := string) cap t).
Proof.
  intros Hc. split; simpl.
  - constructor.
  - intros e He. by apply not_elem_of_nil in He.
  - intros k e. rewrite lookup_empty. split; [done|]. intros [He _]. by apply not_elem_of_nil in He.
  - intros e He. by apply not_elem_of_nil in He.
  - intros en He. by apply not_elem_of_nil in He.
  - done.
  - lia.
Qed.

Lemma lru1_ok : lru_ok lru1.
Proof.
  apply (Put_new_ok "a" "va" 60 5 lru0 (new_ok 100 1000 ltac:(lia))); [lia|simpl; lia|done].
Qed.

Lemma lru_refines_witness :
  lru_ok (apply_op (OpPut "b" "vb" 70 6) lru1).1 ∧
  (abs (apply_op (OpPut "b" "vb" 70 6) lru1).1, (apply_op (OpPut "b" "vb" 70 6) lru1).2)
  = spec_op (capacity_ lru1) (ttl lru1) (OpPut "b" "vb" 70 6) (abs lru1).
Proof.
  apply lru_refines; [apply lru1_ok|]. simpl.
  change (currentSize lru1) with 60. lia.
Defined.

Lemma Put_new_within_capacity_witness :
  currentSize (Put "b" "vb" 70 6 lru1) ≤ capacity_ lru1 ∧
  ∃ l, abs (Put "b" "vb" 70 6 lru1) = mkEntry "b" "vb" 70 (6 + ttl lru1) 6 :: l
       ∧ l `prefix_of` abs lru1.
Proof.
  apply Put_new_within_capacity; [apply lru1_ok|change (capacity_ lru1) with 100; lia|change (currentSize lru1) with 60; lia|done].
Defined.

Lemma Put_Get_witness : (Get "b" 500 (Put "b" "vb" 70 6 lru1)).2 = Some "vb".
Proof.
  apply Put_Get; [apply lru1_ok|lia|change (currentSize lru1) with 60; lia
    |change (ttl lru1) with 1000; lia].
Defined.

Lemma Put_update_never_evicts_witness :
  currentSize (Put "a" "big" 150 6 lru1) = 60 - 60 + 150 ∧
  abs (Put "a" "big" 150 6 lru1) = mkEntry "a" "big" 150 (6 + ttl lru1) 6 :: drop_key "a" (abs lru1).
Proof.
  apply (Put_update_never_evicts "a" "big" 150 6 lru1 0 (mkEntry "a" "va" 60 1005 5));
    [apply lru1_ok|lia|change (currentSize lru1) with 60; lia|done|done].
Defined.

(** The cache of capacity 100 now holds 150. *)
Example update_over_capacity :
  (capacity_ (Put "a" "big" 150 6 lru1) <? currentSize (Put "a" "big" 150 6 lru1)) = true.
Proof. done. Qed.

Definition sharded0 : LRUCache string := NewLRUCache 3200 1000.
Definition toy_hash (k : string) : Z := Z.of_nat (String.length k).

Lemma sharded_Put_Get_witness :
  ∃ c' : LRUCache string, LRU_Put toy_hash "key" "v" 10 6 sharded0 = Some (c', tt) ∧ sharded_ok c' ∧
    snd <$> LRU_Get toy_hash "key" 500 c' = Some (Some "v") ∧
    ∀ k', shard_index toy_hash k' ≠ shard_index toy_hash "key" → 0 ≤ toy_hash k' < 2 ^ 64 →
      snd <$> LRU_Get toy_hash k' 500 c' = snd <$> LRU_Get toy_hash k' 500 sharded0.
Proof.
  apply (sharded_Put_Get toy_hash "key" "v" 10 6 500 sharded0 (newSimpleLRUCache 100 1000)).
  - unfold toy_hash. simpl. lia.
  - split; [done|]. apply list.Forall_forall. intros s Hs.
    apply elem_of_replicate in Hs as [-> _]. apply new_ok. done.
  - done.
  - lia.
  - simpl. lia.
  - simpl. lia.
Defined.
