(* ===== verification/GoStrings.v ===== *)
(** * Strings as the code uses them

    [strings.ToLower], [strconv.Atoi], [strconv.ParseUint], the [%d] verb,
    [strings.SplitN] on a colon and [filepath.Base], on byte strings. *)

From Stdlib Require Import Ascii String DecimalString DecimalPos DecimalZ.
From S2P Require Import Prelude.
Local Open Scope string_scope.
Local Open Scope Z_scope.

(** [strings.ToLower] on ASCII, which is what info hashes are. *)
Definition lower_char (c : ascii) : ascii :=
  let n := N_of_ascii c in
  if ((65 <=? n) && (n <=? 90))%N then ascii_of_N (n + 32) else c.

Fixpoint ToLower (s : string) : string :=
  match s with
  | "" => ""
  | String c s => String (lower_char c) (ToLower s)
  end.

(** [%d] and [strconv.FormatUint]. *)
Definition itoa (z : Z) : string := NilZero.string_of_int (Z.to_int z).

(** [strconv.Atoi]: an optional sign, then digits, in the range of an int. *)
Definition Atoi (s : string) : option Z :=
  let r : option Z :=
    match s with
    | String c s' => if Ascii.eqb c "+" then Z.of_uint <$> NilZero.uint_of_string s'
                     else Z.of_int <$> NilZero.int_of_string s
    | "" => None
    end in
  r ≫= λ z, if (min_i64 <=? z) && (z <=? max_i64) then Some z else None.

(** [strconv.ParseUint(s, 10, 64)] *)
Definition ParseUint (s : string) : option Z :=
  (Z.of_uint <$> NilZero.uint_of_string s) ≫= λ z, if z <? 2 ^ 64 then Some z else None.

(** [strings.SplitN(s, ":", 2)]: the parts around the first colon. *)
Fixpoint split_colon (s : string) : option (string * string) :=
  match s with
  | "" => None
  | String c s => if Ascii.eqb c ":" then Some ("", s)
                  else '(a, b) ← split_colon s; Some (String c a, b)
  end.

Fixpoint has_char (c : ascii) (s : string) : bool :=
  match s with
  | "" => false
  | String d s => Ascii.eqb d c || has_char c s
  end.

(** [pathBase] (inodemap.go): what follows the last slash. *)
Fixpoint pathBase (s : string) : string :=
  match s with
  | "" => ""
  | String c s' => if has_char "/" s' then pathBase s' else if Ascii.eqb c "/" then s' else s
  end.

Fixpoint trim_slashes (s : string) : string :=
  match s with
  | "" => ""
  | String c s' => match trim_slashes s' with
                   | "" => if Ascii.eqb c "/" then "" else String c ""
                   | t => String c t
                   end
  end.

(** [filepath.Base] on Unix. *)
Definition filepath_Base (s : string) : string :=
  match s with
  | "" => "."
  | _ => match pathBase (trim_slashes s) with "" => "/" | b => b end
  end.

(** ** Lemmas *)

Lemma lower_char_idem c : lower_char (lower_char c) = lower_char c.
Proof. destruct c as [[] [] [] [] [] [] [] []]; reflexivity. Qed.

Lemma ToLower_idem s : ToLower (ToLower s) = ToLower s.
Proof. induction s as [|c s IH]; simpl; [done|]. by rewrite lower_char_idem, IH. Qed.

Lemma lower_char_colon c : lower_char c = ":"%char ↔ c = ":"%char.
Proof. destruct c as [[] [] [] [] [] [] [] []]; vm_compute; split; congruence. Qed.

Lemma ToLower_colon s : has_char ":" (ToLower s) = has_char ":" s.
Proof.
  induction s as [|c s IH]; simpl; [done|]. rewrite IH. f_equal.
  apply eq_true_iff_eq. rewrite !Ascii.eqb_eq. apply lower_char_colon.
Qed.

Lemma to_int_nonnil z : Z.to_int z ≠ Decimal.Pos Decimal.Nil ∧ Z.to_int z ≠ Decimal.Neg Decimal.Nil.
Proof.
  destruct z as [|p|p]; simpl; [done|..]; pose proof (Unsigned.to_uint_nonnil p); split; congruence.
Qed.

Lemma int_of_itoa z : NilZero.int_of_string (itoa z) = Some (Z.to_int z).
Proof. apply NilZero.isi; apply to_int_nonnil. Qed.

Lemma digits_head d s : d ≠ Decimal.Nil → NilZero.string_of_uint d = s →
  ∃ c t, s = String c t ∧ c ≠ "+"%char ∧ c ≠ "-"%char.
Proof. intros Hd <-. destruct d; try done; simpl; eexists _, _; split; try done. Qed.

Lemma Atoi_itoa z : in_i64 z → Atoi (itoa z) = Some z.
Proof.
  intros Hz. unfold Atoi.
  assert (E : match itoa z with
              | String c s' => if Ascii.eqb c "+" then Z.of_uint <$> NilZero.uint_of_string s'
                               else Z.of_int <$> NilZero.int_of_string (itoa z)
              | "" => None
              end = Some z).
  { assert (Hh : ∃ c t, itoa z = String c t ∧ c ≠ "+"%char).
    { unfold itoa. destruct z as [|p|p]; simpl.
      - by eexists _, _.
      - destruct (digits_head (Pos.to_uint p) _ (Unsigned.to_uint_nonnil p) eq_refl)
          as (c & t & E & Hc & _). eauto.
      - by eexists _, _. }
    destruct Hh as (c & t & E & Hc). rewrite int_of_itoa, E.
    rewrite (proj2 (Ascii.eqb_neq c "+")) by done. simpl. by rewrite DecimalZ.of_to. }
  rewrite E. simpl. unfold in_i64, min_i64, max_i64 in *.
  rewrite (proj2 (Z.leb_le _ _)) by lia. rewrite (proj2 (Z.leb_le _ _)) by lia. done.
Qed.

Lemma ParseUint_itoa z : 0 ≤ z < 2 ^ 64 → ParseUint (itoa z) = Some z.
Proof.
  intros Hz. unfold ParseUint, itoa.
  assert (E : Z.of_uint <$> NilZero.uint_of_string (NilZero.string_of_int (Z.to_int z)) = Some z).
  { destruct z as [|p|p]; [done| |lia]. simpl.
    rewrite NilZero.usu by apply Unsigned.to_uint_nonnil. simpl. f_equal.
    exact (DecimalZ.of_to (Zpos p)). }
  rewrite E. simpl. by rewrite (proj2 (Z.ltb_lt _ _)) by lia.
Qed.

Lemma split_colon_app a b : has_char ":" a = false → split_colon (a +:+ String ":" b) = Some (a, b).
Proof.
  induction a as [|c a IH]; simpl; [done|]. intros Hc.
  apply orb_false_iff in Hc as [-> Hc]. by rewrite IH.
Qed.

(** A path that does not end in a slash has one base name. *)
Definition ends_in_slash (s : string) : bool := bool_decide (trim_slashes s ≠ s).

Lemma Base_pathBase s :
  s ≠ "" → ends_in_slash s = false → pathBase s ≠ "" → filepath_Base s = pathBase s.
Proof.
  intros Hs He Hb. unfold ends_in_slash in He. apply bool_decide_eq_false in He.
  apply dec_stable in He. unfold filepath_Base. rewrite He.
  destruct s; [done|]. by destruct (pathBase _).
Qed.

(** ** Appending *)

Lemma append_cons_nil_inj a b c d :
  a +:+ String c "" = b +:+ String d "" → a = b ∧ c = d.
Proof.
  revert b. induction a as [|x a IH]; intros [|y b] E; simpl in E.
  - by injection E as ->.
  - injection E as _ E. by destruct b.
  - injection E as _ E. by destruct a.
  - injection E as -> E. apply IH in E as [-> ->]. done.
Qed.

Lemma append_assoc (a b c : string) : (a +:+ b) +:+ c = a +:+ (b +:+ c).
Proof. induction a as [|x a IH]; [done|]. exact (f_equal (String x) IH). Qed.

Lemma append_nil_r (a : string) : a +:+ "" = a.
Proof. induction a as [|x a IH]; [done|]. exact (f_equal (String x) IH). Qed.

Lemma append_inj_r a b s : a +:+ s = b +:+ s → a = b.
Proof.
  revert a b. induction s as [|c s IH]; intros a b E.
  - by rewrite !append_nil_r in E.
  - change (String c s) with (String c "" +:+ s) in E. rewrite <-!append_assoc in E.
    apply IH in E. by apply append_cons_nil_inj in E as [-> _].
Qed.

Lemma has_char_append c a b : has_char c (a +:+ b) = has_char c a || has_char c b.
Proof.
  induction a as [|x a IH]; [done|].
  change (has_char c (String x (a +:+ b)) = has_char c (String x a) || has_char c b).
  cbn [has_char]. by rewrite IH, orb_assoc.
Qed.

(** A string splits in one way at its last occurrence of a character. *)
Lemma split_last_inj c a b a' b' :
  has_char c b = false → has_char c b' = false →
  a +:+ String c b = a' +:+ String c b' → a = a' ∧ b = b'.
Proof.
  revert a'. induction a as [|x a IH]; intros [|y a'] Hb Hb' E; simpl in E.
  - by injection E as ->.
  - injection E as <- ->. rewrite has_char_append in Hb. simpl in Hb.
    by rewrite (proj2 (Ascii.eqb_eq c c) eq_refl), orb_true_r in Hb.
  - injection E as -> <-. rewrite has_char_append in Hb'. simpl in Hb'.
    by rewrite (proj2 (Ascii.eqb_eq c c) eq_refl), orb_true_r in Hb'.
  - injection E as -> E. destruct (IH a' Hb Hb' E) as [-> ->]. done.
Qed.

Lemma itoa_inj z z' : itoa z = itoa z' → z = z'.
Proof.
  intros E. pose proof (int_of_itoa z) as H. rewrite E, int_of_itoa in H.
  apply (inj Some) in H. rewrite <-(DecimalZ.of_to z), <-H. apply DecimalZ.of_to.
Qed.

Lemma uint_no_sign d : d ≠ Decimal.Nil →
  has_char "-" (NilZero.string_of_uint d) = false ∧ has_char ":" (NilZero.string_of_uint d) = false.
Proof.
  assert (Hn : ∀ d, has_char "-" (NilEmpty.string_of_uint d) = false ∧
                    has_char ":" (NilEmpty.string_of_uint d) = false).
  { intros d'. induction d'; simpl; done. }
  intros Hd. destruct d; try done; apply Hn.
Qed.

Lemma itoa_no_dash z : 0 ≤ z → has_char "-" (itoa z) = false.
Proof.
  intros Hz. unfold itoa. destruct z as [|p|p]; [done| |lia]. simpl.
  apply uint_no_sign, Unsigned.to_uint_nonnil.
Qed.

Lemma itoa_no_colon z : 0 ≤ z → has_char ":" (itoa z) = false.
Proof.
  intros Hz. unfold itoa. destruct z as [|p|p]; [done| |lia]. simpl.
  apply uint_no_sign, Unsigned.to_uint_nonnil.
Qed.
