(* ===== verification/InodeMap.v ===== *)
(** * Deterministic inodes (internal/vfs/inodemap.go, internal/metadb/inodes.go)

    Thirty-two shards, each with four maps, keyed by a 64-bit hash of the key:
    paths to content keys, content keys to inodes, base names to inodes and
    directories to inodes.  The maps are saved to and loaded from a table
    ([metadb]) or a JSON document.  [xxhash] is the hash of package xxhash: any
    function into 64 bits. *)

From Stdlib Require Import Ascii.
From stdpp Require Import functions.
From S2P Require Import Prelude GoStrings.
Local Open Scope string_scope.
Local Open Scope Z_scope.

Definition InodeFileMask : Z := 0x7FFFFFFFFFFFFFFF.
Definition InodeDirMask : Z := 0x8000000000000000.
Definition InodeRoot : Z := 1.

Record inodeShard := mkShard {
  fileMap : gmap string Z;
  dirMap : gmap string Z;
  nameMap : gmap string string;
  fastFileMap : gmap string Z
}.

Definition empty_shard : inodeShard := mkShard ∅ ∅ ∅ ∅.

Record InodeMap := mkInodeMap {
  im_shards : Z → inodeShard;
  im_dirty : bool;
  im_hits : Z;
  im_misses : Z
}.

Definition set_shards (f : Z → inodeShard) (im : InodeMap) : InodeMap :=
  mkInodeMap f (im_dirty im) (im_hits im) (im_misses im).
Definition setDirty (b : bool) (im : InodeMap) : InodeMap :=
  mkInodeMap (im_shards im) b (im_hits im) (im_misses im).
Definition IsDirty (im : InodeMap) : bool := im_dirty im.
Definition add_hit (im : InodeMap) : InodeMap :=
  mkInodeMap (im_shards im) (im_dirty im) (i64 (im_hits im + 1)) (im_misses im).
Definition add_miss (im : InodeMap) : InodeMap :=
  mkInodeMap (im_shards im) (im_dirty im) (im_hits im) (i64 (im_misses im + 1)).

Definition NewInodeMap : InodeMap :=
  mkInodeMap (λ i, if i =? 0 then mkShard ∅ {["/" := InodeRoot]} ∅ ∅ else empty_shard) false 0 0.

(** [fmt.Sprintf("%s:%d", ...)] *)
Definition inode_key (infohash : string) (index : Z) : string := infohash +:+ ":" +:+ itoa index.

Definition splitInodeKey (key : string) : string * Z :=
  match split_colon key with
  | None => (key, 0)
  | Some (a, b) => match Atoi b with Some idx => (a, idx) | None => (a, 0) end
  end.

(** ** The rows of the [inodes] table *)

Record InodeRow := mkRow {
  row_file : bool;               (* type: 'file' or 'dir' *)
  row_infohash : string;
  row_idx : Z;
  row_path : string;             (* full_path *)
  row_rel : option string;       (* rel_path, NULL for files *)
  row_base : string;
  row_inode : Z                  (* the column is a signed 64-bit integer *)
}.

(** The rows [INSERT OR REPLACE] removes: same path, or same relative path. *)
Definition row_conflict (r s : InodeRow) : bool :=
  bool_decide (row_path r = row_path s) ||
  match row_rel r, row_rel s with
  | Some a, Some b => bool_decide (a = b)
  | _, _ => false
  end.

Definition insert_or_replace (r : InodeRow) (rows : list InodeRow) : list InodeRow :=
  filter (λ s, row_conflict r s = false) rows ++ [r].

(** [DB.PruneMissing]: an empty set of valid files prunes nothing. *)
Definition DB_PruneMissing (valid : gmap string bool) (rows : list InodeRow) : list InodeRow * Z :=
  if decide (size valid = 0%nat) then (rows, 0)
  else
    let keep := filter (λ r, row_file r = false ∨ is_Some (valid !! row_path r)) rows in
    (keep, len rows - len keep).

(** [DB.GetDirInode]: the driver refuses to scan a negative column into a
    [uint64]; the outer [None] is that error. *)
Definition DB_GetDirInode (rel : string) (rows : list InodeRow) : option (option Z) :=
  match head (filter (λ r, row_file r = false ∧ row_rel r = Some rel) rows) with
  | None => Some None
  | Some r => if row_inode r <? 0 then None else Some (Some (row_inode r))
  end.

(** ** The JSON document, before encoding *)

Record InodeMapData := mkData {
  d_Version : Z;
  d_Files : gmap string string;
  d_Dirs : gmap string string;
  d_FilenameIndex : gmap string string
}.

Section inode_map.
Context `{GoRuntime}.
Context (xxhash : string → Z).

Definition GenerateFileInode (infohash : string) (index : Z) : Z :=
  Z.land (xxhash (inode_key (ToLower infohash) index)) InodeFileMask.

Definition GenerateDirInode (rel : string) : Z :=
  if bool_decide (rel = "/") || bool_decide (rel = "") then InodeRoot
  else Z.lor (xxhash rel) InodeDirMask.

(** ** Shards *)

Definition shard_of (k : string) : Z := Z.land (xxhash k) 31.

Definition upd_shard (k : string) (f : inodeShard → inodeShard) (im : InodeMap) : InodeMap :=
  set_shards (<[shard_of k := f (im_shards im (shard_of k))]> (im_shards im)) im.

Definition name_of (im : InodeMap) (p : string) : option string :=
  nameMap (im_shards im (shard_of p)) !! p.
Definition file_of (im : InodeMap) (k : string) : option Z :=
  fileMap (im_shards im (shard_of k)) !! k.
Definition fast_of (im : InodeMap) (n : string) : option Z :=
  fastFileMap (im_shards im (shard_of n)) !! n.
Definition dir_of (im : InodeMap) (d : string) : option Z :=
  dirMap (im_shards im (shard_of d)) !! d.

Definition put_name (p k : string) : InodeMap → InodeMap :=
  upd_shard p (λ s, mkShard (fileMap s) (dirMap s) (<[p := k]> (nameMap s)) (fastFileMap s)).
Definition put_file (k : string) (i : Z) : InodeMap → InodeMap :=
  upd_shard k (λ s, mkShard (<[k := i]> (fileMap s)) (dirMap s) (nameMap s) (fastFileMap s)).
Definition put_fast (n : string) (i : Z) : InodeMap → InodeMap :=
  upd_shard n (λ s, mkShard (fileMap s) (dirMap s) (nameMap s) (<[n := i]> (fastFileMap s))).
Definition put_dir (d : string) (i : Z) : InodeMap → InodeMap :=
  upd_shard d (λ s, mkShard (fileMap s) (<[d := i]> (dirMap s)) (nameMap s) (fastFileMap s)).
Definition del_name (p : string) : InodeMap → InodeMap :=
  upd_shard p (λ s, mkShard (fileMap s) (dirMap s) (delete p (nameMap s)) (fastFileMap s)).
Definition del_file (k : string) : InodeMap → InodeMap :=
  upd_shard k (λ s, mkShard (delete k (fileMap s)) (dirMap s) (nameMap s) (fastFileMap s)).
Definition del_fast (n : string) : InodeMap → InodeMap :=
  upd_shard n (λ s, mkShard (fileMap s) (dirMap s) (nameMap s) (delete n (fastFileMap s))).

(** ** Operations *)

Definition AddFile (fullPath infohash : string) (index : Z) (im : InodeMap) : InodeMap * Z :=
  if bool_decide (infohash = "") then (im, 0)
  else
    let key := inode_key (ToLower infohash) index in
    let inode := GenerateFileInode infohash index in
    if bool_decide (name_of im fullPath = Some key) then (im, inode)
    else
      let im := put_name fullPath key im in
      let im := put_file key inode im in
      let im := put_fast (filepath_Base fullPath) inode im in
      (setDirty true im, inode).

Definition AddDir (rel : string) (im : InodeMap) : InodeMap * Z :=
  let inode := GenerateDirInode rel in
  match dir_of im rel with
  | Some _ => (im, inode)
  | None => (setDirty true (put_dir rel inode im), inode)
  end.

Definition GetFileInode (fullPath : string) (im : InodeMap) : InodeMap * Z :=
  match name_of im fullPath ≫= file_of im with
  | Some inode => (add_hit im, inode)
  | None => (add_miss im, 0)
  end.

Definition GetFileInodeByName (filename : string) (im : InodeMap) : InodeMap * Z :=
  match fast_of im filename with
  | Some inode => (add_hit im, inode)
  | None => (add_miss im, 0)
  end.

Definition GetDirInode (rel : string) (im : InodeMap) : InodeMap * Z :=
  if bool_decide (rel = "/") || bool_decide (rel = "") then (im, InodeRoot)
  else match dir_of im rel with
       | Some inode => (im, inode)
       | None => AddDir rel im
       end.

Definition RemoveFile (fullPath : string) (im : InodeMap) : InodeMap :=
  match name_of im fullPath with
  | None => im
  | Some key =>
      let im := del_name fullPath im in
      let target := default 0 (file_of im key) in
      let im := del_file key im in
      let filename := filepath_Base fullPath in
      let im := if bool_decide (fast_of im filename = Some target)
                then del_fast filename im else im in
      setDirty true im
  end.

(** [for _, s := range im.shards] *)
Definition shard_ids : list Z := Z.of_nat <$> seq 0 32.

Definition all_names (im : InodeMap) : list string :=
  shard_ids ≫= λ i, (map_range (nameMap (im_shards im i))).*1.

(** [foundFiles] is a map to booleans: absent and false are the same here. *)
Definition is_found (found : gmap string bool) (p : string) : bool := default false (found !! p).

(** The in-memory passes of [PruneMissing]. *)
Definition PruneMissing (found : gmap string bool) (im : InodeMap) : InodeMap * Z :=
  let toRemove := filter (λ p, is_found found p = false) (all_names im) in
  let im := foldl (λ im p, RemoveFile p im) im toRemove in
  (if 0 <? len toRemove then setDirty true im else im, len toRemove).

Definition InodeMap_Stats (im : InodeMap) : Z * Z * Z * Z :=
  (foldl (λ n i, i64 (n + Z.of_nat (size (fileMap (im_shards im i))))) 0 shard_ids,
   foldl (λ n i, i64 (n + Z.of_nat (size (dirMap (im_shards im i))))) 0 shard_ids,
   im_hits im, im_misses im).

(** ** Persistence in the table *)

(** The snapshot: the maps of all the shards, later shards winning. *)
Definition merge_shards {A} (pr : inodeShard → gmap string A) (im : InodeMap) : gmap string A :=
  foldl (λ m i, pr (im_shards im i) ∪ m) ∅ shard_ids.

Definition file_row (files : gmap string Z) (p k : string) : InodeRow :=
  let '(infohash, idx) := splitInodeKey k in
  let inode := match files !! k with Some i => i | None => GenerateFileInode infohash idx end in
  mkRow true infohash idx p None (pathBase p) (i64 inode).

Definition dir_row (rel : string) (inode : Z) : InodeRow :=
  mkRow false "" 0 rel (Some rel) (pathBase rel) (i64 inode).

Definition saveToDB (im : InodeMap) : InodeMap * list InodeRow :=
  let names := merge_shards nameMap im in
  let files := merge_shards fileMap im in
  let dirs := merge_shards dirMap im in
  let rows := foldl (λ rows '(p, k), insert_or_replace (file_row files p k) rows) [] (map_range names) in
  let rows := foldl (λ rows '(d, i), insert_or_replace (dir_row d i) rows) rows (map_range dirs) in
  (setDirty false im, rows).

(** [LoadAll] reads the column back as the same 64 bits. *)
Definition load_row (im : InodeMap) (r : InodeRow) : InodeMap :=
  let inode := u64 (row_inode r) in
  if row_file r then
    let key := inode_key (row_infohash r) (row_idx r) in
    put_fast (row_base r) inode (put_file key inode (put_name (row_path r) key im))
  else put_dir (default "" (row_rel r)) inode im.

Definition loadFromDB (rows : list InodeRow) (im : InodeMap) : InodeMap := foldl load_row im rows.

(** ** Persistence in the JSON document *)

Definition saveToJSON (im : InodeMap) : InodeMap * InodeMapData :=
  (setDirty false im,
   mkData 2 (itoa <$> merge_shards fileMap im) (itoa <$> merge_shards dirMap im)
     (merge_shards nameMap im)).

Definition addLoadedFile (fullPath key : string) (inode : Z) (im : InodeMap) : InodeMap :=
  put_fast (filepath_Base fullPath) inode (put_file key inode (put_name fullPath key im)).

Definition load_name (files : gmap string Z) (im : InodeMap) (pk : string * string) : InodeMap :=
  match files !! pk.2 with
  | Some inode => addLoadedFile pk.1 pk.2 inode im
  | None => im
  end.

(** The V2 branch of [loadFromJSON]: values that do not parse are skipped. *)
Definition loadV2 (d : InodeMapData) (im : InodeMap) : InodeMap :=
  let files := omap ParseUint (d_Files d) in
  let im := foldl (load_name files) im (map_range (d_FilenameIndex d)) in
  foldl (λ im '(k, v), match ParseUint v with Some i => put_dir k i im | None => im end)
        im (map_range (d_Dirs d)).

Record InodeMapDataV1 := mkDataV1 {
  d1_Version : Z;
  d1_Files : gmap string Z;
  d1_Dirs : gmap string Z;
  d1_FilenameIndex : gmap string string
}.

Definition loadV1 (d : InodeMapDataV1) (im : InodeMap) : InodeMap :=
  if d1_Version d =? 1 then
    let im := foldl (load_name (d1_Files d)) im (map_range (d1_FilenameIndex d)) in
    setDirty true (foldl (λ im '(k, v), put_dir k v im) im (map_range (d1_Dirs d)))
  else im.

(** [loadFromJSON] on the two decodings of the file; [None] is a failed
    decoding. *)
Definition loadFromJSON (v2 : option InodeMapData) (v1 : option InodeMapDataV1) (im : InodeMap)
    : option InodeMap :=
  match v2 with
  | Some d => if d_Version d =? 2 then Some (loadV2 d im)
              else (λ d, loadV1 d im) <$> v1
  | None => (λ d, loadV1 d im) <$> v1
  end.

(** ** Lookups after updates *)

Implicit Types im : InodeMap.

Lemma shards_upd k f im i :
  im_shards (upd_shard k f im) i
  = if decide (i = shard_of k) then f (im_shards im (shard_of k)) else im_shards im i.
Proof.
  unfold upd_shard, set_shards; simpl. case_decide as Hi.
  - subst. by rewrite fn_lookup_insert.
  - by rewrite fn_lookup_insert_ne.
Qed.

Ltac lookup_tac :=
  unfold name_of, file_of, fast_of, dir_of, put_name, put_file, put_fast, put_dir,
    del_name, del_file, del_fast; rewrite ?shards_upd;
  repeat match goal with
  | |- context [decide (shard_of ?a = shard_of ?b)] =>
      destruct (decide (shard_of a = shard_of b)) as [?|?]; simpl
  end;
  repeat match goal with
  | |- context [decide (?a = ?b)] => destruct (decide (a = b)) as [?|?]; simpl; subst
  end;
  repeat match goal with
  | H : shard_of ?a = shard_of ?b |- _ => rewrite ?H; clear H
  end;
  rewrite ?lookup_insert_eq, ?lookup_delete_eq by done;
  rewrite ?lookup_insert_ne, ?lookup_delete_ne by congruence; try congruence; try done.

Lemma name_put_name p k im q :
  name_of (put_name p k im) q = if decide (q = p) then Some k else name_of im q.
Proof. lookup_tac. Qed.
Lemma file_put_name p k im q : file_of (put_name p k im) q = file_of im q.
Proof. lookup_tac. Qed.
Lemma dir_put_name p k im q : dir_of (put_name p k im) q = dir_of im q.
Proof. lookup_tac. Qed.
Lemma name_put_file k i im q : name_of (put_file k i im) q = name_of im q.
Proof. lookup_tac. Qed.
Lemma file_put_file k i im q :
  file_of (put_file k i im) q = if decide (q = k) then Some i else file_of im q.
Proof. lookup_tac. Qed.
Lemma name_put_fast n i im q : name_of (put_fast n i im) q = name_of im q.
Proof. lookup_tac. Qed.
Lemma file_put_fast n i im q : file_of (put_fast n i im) q = file_of im q.
Proof. lookup_tac. Qed.
Lemma name_put_dir n i im q : name_of (put_dir n i im) q = name_of im q.
Proof. lookup_tac. Qed.
Lemma file_put_dir n i im q : file_of (put_dir n i im) q = file_of im q.
Proof. lookup_tac. Qed.
Lemma name_del_name p im q : name_of (del_name p im) q = if decide (q = p) then None else name_of im q.
Proof. lookup_tac. Qed.
Lemma file_del_name p im q : file_of (del_name p im) q = file_of im q.
Proof. lookup_tac. Qed.
Lemma name_del_file k im q : name_of (del_file k im) q = name_of im q.
Proof. lookup_tac. Qed.
Lemma file_del_file k im q : file_of (del_file k im) q = if decide (q = k) then None else file_of im q.
Proof. lookup_tac. Qed.
Lemma name_del_fast n im q : name_of (del_fast n im) q = name_of im q.
Proof. lookup_tac. Qed.
Lemma file_del_fast n im q : file_of (del_fast n im) q = file_of im q.
Proof. lookup_tac. Qed.

(** The inode a content key determines. *)
Definition key_inode (k : string) : Z := Z.land (xxhash k) InodeFileMask.

(** Every registered path leads to the inode of its content. *)
Definition coherent im : Prop :=
  ∀ p k, name_of im p = Some k → file_of im k = Some (key_inode k).

(** What [GetFileInode] answers. *)
Definition inode_at im (p : string) : Z := (GetFileInode p im).2.

Lemma inode_at_eq im p : inode_at im p = default 0 (name_of im p ≫= file_of im).
Proof. unfold inode_at, GetFileInode. by destruct (name_of im p ≫= file_of im). Qed.

Lemma AddFile_lookups p h i im :
  h ≠ "" →
  let k := inode_key (ToLower h) i in
  let im' := (AddFile p h i im).1 in
  (name_of im p ≠ Some k →
   (∀ q, name_of im' q = if decide (q = p) then Some k else name_of im q) ∧
   (∀ q, file_of im' q = if decide (q = k) then Some (key_inode k) else file_of im q)) ∧
  (name_of im p = Some k → im' = im) ∧ (AddFile p h i im).2 = key_inode k.
Proof.
  intros Hh k im'. unfold im', AddFile. rewrite bool_decide_false by done. fold k.
  split; [|split].
  - intros Hne. rewrite bool_decide_false by done. simpl. split; intros q.
    + change (name_of (setDirty true ?x) q) with (name_of x q).
      by rewrite name_put_fast, name_put_file, name_put_name.
    + change (file_of (setDirty true ?x) q) with (file_of x q).
      rewrite file_put_fast, file_put_file, file_put_name. done.
  - intros He. by rewrite bool_decide_true.
  - by destruct (bool_decide (name_of im p = Some k)).
Qed.

Lemma coherent_AddFile p h i im : coherent im → h ≠ "" → coherent (AddFile p h i im).1.
Proof.
  intros Hc Hh. destruct (AddFile_lookups p h i im Hh) as (Hnew & Hold & _).
  destruct (decide (name_of im p = Some (inode_key (ToLower h) i))) as [E|E].
  { by rewrite Hold. }
  destruct (Hnew E) as [Hn Hf]. intros q k. rewrite Hn, Hf.
  destruct (decide (q = p)) as [->|]; [intros [= <-]; by rewrite decide_True|].
  intros Hq. case_decide as Hk; [by subst|]. by apply (Hc q).
Qed.

(** registering a path makes its lookup answer the inode of its content,
    which is a function of the hash and the index alone, and changes the answer
    for no other path. *)
Theorem AddFile_GetFileInode p h i im :
  coherent im → h ≠ "" →
  let im' := (AddFile p h i im).1 in
  coherent im' ∧ inode_at im' p = GenerateFileInode h i ∧
  (AddFile p h i im).2 = GenerateFileInode h i ∧
  ∀ q, q ≠ p → inode_at im' q = inode_at im q.
Proof.
  intros Hc Hh im'. pose proof (coherent_AddFile p h i im Hc Hh) as Hc'. fold im' in Hc'.
  split; [done|]. destruct (AddFile_lookups p h i im Hh) as (Hnew & Hold & Hres). fold im' in Hnew, Hold.
  set (k := inode_key (ToLower h) i) in *.
  assert (Hn : ∀ q, name_of im' q = if decide (q = p) then Some k else name_of im q).
  { destruct (decide (name_of im p = Some k)) as [E|E]; [|apply Hnew, E].
    intros q. rewrite (Hold E). case_decide; [by subst|done]. }
  split; [|split; [done|]].
  - rewrite inode_at_eq, Hn, decide_True by done. simpl.
    rewrite (Hc' p k) by (by rewrite Hn, decide_True). done.
  - intros q Hq. rewrite !inode_at_eq, Hn, decide_False by done.
    destruct (name_of im q) as [k'|] eqn:E; [|done]. simpl.
    rewrite (Hc' q k') by (by rewrite Hn, decide_False). by rewrite (Hc q k').
Qed.

Lemma RemoveFile_lookups p k im :
  name_of im p = Some k →
  (∀ q, name_of (RemoveFile p im) q = if decide (q = p) then None else name_of im q) ∧
  (∀ q, file_of (RemoveFile p im) q = if decide (q = k) then None else file_of im q).
Proof.
  intros Hp. unfold RemoveFile. rewrite Hp.
  split; intros q.
  - change (name_of (setDirty true ?x) q) with (name_of x q).
    case_match; rewrite ?name_del_fast, name_del_file, name_del_name; done.
  - change (file_of (setDirty true ?x) q) with (file_of x q).
    case_match; rewrite ?file_del_fast, file_del_file, file_del_name; done.
Qed.

(** two paths can share their content (the same torrent file under two
    names).  Removing one of them takes the inode away from the other, and
    registering the other again does not bring it back: the registration
    returns early because the path is still mapped. *)
Theorem RemoveFile_breaks_sibling p q h i im :
  h ≠ "" → p ≠ q →
  name_of im p = Some (inode_key (ToLower h) i) → name_of im q = Some (inode_key (ToLower h) i) →
  let im1 := RemoveFile p im in
  inode_at im1 q = 0 ∧ inode_at (AddFile q h i im1).1 q = 0 ∧
  (AddFile q h i im1).2 = GenerateFileInode h i.
Proof.
  intros Hh Hne Hp Hq im1. destruct (RemoveFile_lookups p _ im Hp) as [Hn Hf].
  assert (Hq1 : name_of im1 q = Some (inode_key (ToLower h) i)).
  { unfold im1. rewrite Hn, decide_False by congruence. done. }
  assert (H0 : inode_at im1 q = 0).
  { rewrite inode_at_eq, Hq1. simpl. unfold im1. rewrite Hf, decide_True by done. done. }
  split; [done|]. destruct (AddFile_lookups q h i im1 Hh) as (_ & Hold & Hres).
  rewrite (Hold Hq1). done.
Qed.

(** ** Snapshots *)

Context (xxhash_range : ∀ k, 0 ≤ xxhash k < 2 ^ 64).

Lemma elem_of_shard_ids i : i ∈ shard_ids ↔ 0 ≤ i < 32.
Proof.
  unfold shard_ids. rewrite list_elem_of_fmap. split.
  - intros (n & -> & Hn). apply elem_of_seq in Hn. lia.
  - intros Hi. exists (Z.to_nat i). split; [lia|]. apply elem_of_seq. lia.
Qed.

Lemma shard_of_range k : 0 ≤ shard_of k < 32.
Proof.
  unfold shard_of. change 31 with (Z.ones 5). rewrite Z.land_ones by lia.
  apply Z.mod_pos_bound. lia.
Qed.

Lemma merge_lookup {A} (pr : inodeShard → gmap string A) im k v :
  (∀ i j a b, pr (im_shards im i) !! k = Some a → pr (im_shards im j) !! k = Some b → a = b) →
  merge_shards pr im !! k = Some v ↔ ∃ i, 0 ≤ i < 32 ∧ pr (im_shards im i) !! k = Some v.
Proof.
  intros Hag. unfold merge_shards.
  assert (Hgen : ∀ ids m, foldl (λ m i, pr (im_shards im i) ∪ m) m ids !! k = Some v ↔
    (∃ i, i ∈ ids ∧ pr (im_shards im i) !! k = Some v) ∨
    ((∀ i, i ∈ ids → pr (im_shards im i) !! k = None) ∧ m !! k = Some v)).
  { induction ids as [|j ids IH]; intros m; simpl.
    - split; [intros Hm; right; split; [|done]; intros i Hi; by apply not_elem_of_nil in Hi|].
      intros [(i & Hi & _)|[_ Hm]]; [by apply not_elem_of_nil in Hi|done].
    - rewrite IH, lookup_union. destruct (pr (im_shards im j) !! k) as [a|] eqn:Ej.
      + assert (Hu : Some a ∪ m !! k = Some a) by (by destruct (m !! k)).
        rewrite Hu. split.
        * intros [(i & Hi & Hv)|[_ [= <-]]]; left; [exists i; split; [by right|done]|].
          exists j. split; [by left|done].
        * intros [(i & [->|Hi]%elem_of_cons & Hv)|[Hall _]].
          -- destruct (decide (Exists (λ i, is_Some (pr (im_shards im i) !! k)) ids)) as [He|Hno].
             { apply list.Exists_exists in He as (i & Hi & b & Hb). left. exists i. split; [done|].
               rewrite Hb. f_equal. rewrite <-(Hag _ _ _ _ Ej Hb). congruence. }
             right. split; [|congruence]. intros i Hi. apply eq_None_not_Some. intros Hs.
             apply Hno, list.Exists_exists. eauto.
          -- left. eauto.
          -- specialize (Hall j ltac:(left)). congruence.
      + assert (Hu : None ∪ m !! k = m !! k) by (by destruct (m !! k)). rewrite Hu. split.
        * intros [(i & Hi & Hv)|[Hall Hm]]; [left; exists i; split; [by right|done]|].
          right. split; [|done]. intros i [->|Hi]%elem_of_cons; auto.
        * intros [(i & [->|Hi]%elem_of_cons & Hv)|[Hall Hm]]; [congruence|left; eauto|].
          right. split; [|done]. intros i Hi. apply Hall. by right. }
  rewrite Hgen. setoid_rewrite elem_of_shard_ids. rewrite lookup_empty. naive_solver.
Qed.

(** Names and files live in the shard of their key. *)
Record shards_ok im : Prop := {
  so_name : ∀ i p k, nameMap (im_shards im i) !! p = Some k → i = shard_of p;
  so_file : ∀ i k v, fileMap (im_shards im i) !! k = Some v → i = shard_of k
}.

Lemma merge_names im p k : shards_ok im → merge_shards nameMap im !! p = Some k ↔ name_of im p = Some k.
Proof.
  intros [Hn _]. rewrite merge_lookup.
  2:{ intros i j a b Ha Hb. rewrite (Hn _ _ _ Ha) in Ha. rewrite (Hn _ _ _ Hb) in Hb. congruence. }
  unfold name_of. split.
  - intros (i & _ & Hi). by rewrite <-(Hn _ _ _ Hi).
  - intros Hp. exists (shard_of p). split; [apply shard_of_range|done].
Qed.

Lemma merge_files im k v : shards_ok im → merge_shards fileMap im !! k = Some v ↔ file_of im k = Some v.
Proof.
  intros [_ Hf]. rewrite merge_lookup.
  2:{ intros i j a b Ha Hb. rewrite (Hf _ _ _ Ha) in Ha. rewrite (Hf _ _ _ Hb) in Hb. congruence. }
  unfold file_of. split.
  - intros (i & _ & Hi). by rewrite <-(Hf _ _ _ Hi).
  - intros Hp. exists (shard_of k). split; [apply shard_of_range|done].
Qed.

(** ** Content keys print and parse back *)

Definition key_ok (k : string) : Prop :=
  ∃ h i, k = inode_key h i ∧ has_char ":"%char h = false ∧ in_i64 i ∧ ToLower h = h.

Lemma splitInodeKey_key h i :
  has_char ":"%char h = false → in_i64 i → splitInodeKey (inode_key h i) = (h, i).
Proof.
  intros Hh Hi. unfold splitInodeKey, inode_key.
  change (":" +:+ itoa i) with (String ":"%char (itoa i)). rewrite split_colon_app by done.
  by rewrite Atoi_itoa.
Qed.

Lemma key_inode_range k : 0 ≤ key_inode k < 2 ^ 63.
Proof.
  unfold key_inode. change InodeFileMask with (Z.ones 63). rewrite Z.land_ones by lia.
  apply Z.mod_pos_bound. lia.
Qed.

Lemma u64_i64_key k : u64 (i64 (key_inode k)) = key_inode k.
Proof. pose proof (key_inode_range k). apply u64_i64. lia. Qed.

Lemma file_row_key files p k :
  key_ok k → (∀ v, files !! k = Some v → v = key_inode k) →
  file_row files p k = mkRow true (splitInodeKey k).1 (splitInodeKey k).2 p None (pathBase p)
                         (i64 (key_inode k)) ∧
  inode_key (splitInodeKey k).1 (splitInodeKey k).2 = k.
Proof.
  intros (h & i & -> & Hh & Hi & Hl) Hf. unfold file_row. rewrite splitInodeKey_key by done. simpl.
  split; [|done]. destruct (files !! inode_key h i) as [v|] eqn:E.
  - by rewrite (Hf v eq_refl).
  - unfold GenerateFileInode. by rewrite Hl.
Qed.

Lemma dir_inode_range rel :
  rel ≠ "/" → rel ≠ "" → 2 ^ 63 ≤ GenerateDirInode rel < 2 ^ 64.
Proof.
  intros H1 H2. unfold GenerateDirInode. rewrite !bool_decide_false by done. simpl.
  pose proof (xxhash_range rel) as Hx. change InodeDirMask with (2 ^ 63).
  assert (H0 : 0 ≤ Z.lor (xxhash rel) (2 ^ 63)) by (apply Z.lor_nonneg; lia).
  split.
  - destruct (Z_le_gt_dec (2 ^ 63) (Z.lor (xxhash rel) (2 ^ 63))) as [|Hlt]; [done|exfalso].
    assert (Hb : Z.testbit (Z.lor (xxhash rel) (2 ^ 63)) 63 = true).
    { rewrite Z.lor_spec, Z.pow2_bits_true by lia. apply orb_true_r. }
    rewrite <-(Z.mod_small (Z.lor (xxhash rel) (2 ^ 63)) (2 ^ 63)) in Hb by lia.
    rewrite Z.mod_pow2_bits_high in Hb by lia. done.
  - assert (Hm : Z.lor (xxhash rel) (2 ^ 63) mod 2 ^ 64 = Z.lor (xxhash rel) (2 ^ 63)).
    { rewrite <-!Z.land_ones by lia. rewrite Z.land_lor_distr_l, !Z.land_ones by lia.
      rewrite !Z.mod_small by lia. done. }
    rewrite <-Hm. apply Z.mod_pos_bound. lia.
Qed.

(** file inodes keep bit 63 clear and directory inodes keep it set, so a
    file and a directory other than the root never share an inode. *)
Theorem inode_namespaces h i rel :
  rel ≠ "/" → rel ≠ "" →
  0 ≤ GenerateFileInode h i < 2 ^ 63 ∧ 2 ^ 63 ≤ GenerateDirInode rel < 2 ^ 64 ∧
  GenerateFileInode h i ≠ GenerateDirInode rel.
Proof.
  intros H1 H2. pose proof (key_inode_range (inode_key (ToLower h) i)) as Hf.
  pose proof (dir_inode_range rel H1 H2) as Hd.
  change (key_inode (inode_key (ToLower h) i)) with (GenerateFileInode h i) in Hf.
  split; [done|]. split; [done|]. lia.
Qed.

(** ** Save and load *)

Lemma load_pair_step p k n im :
  coherent im → name_of im p = None →
  let im' := put_fast n (key_inode k) (put_file k (key_inode k) (put_name p k im)) in
  coherent im' ∧ ∀ q j, name_of im' q = Some j ↔ (q, j) = (p, k) ∨ name_of im q = Some j.
Proof.
  intros Hc Hp im'.
  assert (Hn : ∀ q, name_of im' q = if decide (q = p) then Some k else name_of im q)
    by (intros q; unfold im'; by rewrite name_put_fast, name_put_file, name_put_name).
  split.
  - intros q j. rewrite Hn. unfold im'. rewrite file_put_fast, file_put_file, file_put_name.
    destruct (decide (q = p)) as [->|]; [intros [= <-]; by rewrite decide_True|].
    intros Hq. case_decide; [by subst|]. by apply (Hc q).
  - intros q j. rewrite Hn. case_decide as Hq; [subst|]; naive_solver.
Qed.

(** Loading pairs, whatever step loads one pair. *)
Lemma load_pairs (step : InodeMap → string * string → InodeMap) ps im :
  (∀ im p k, (p, k) ∈ ps → ∃ n, step im (p, k)
     = put_fast n (key_inode k) (put_file k (key_inode k) (put_name p k im))) →
  NoDup ps.*1 → coherent im → (∀ p, p ∈ ps.*1 → name_of im p = None) →
  let im' := foldl step im ps in
  coherent im' ∧ ∀ q j, name_of im' q = Some j ↔ (q, j) ∈ ps ∨ name_of im q = Some j.
Proof.
  revert im. induction ps as [|[p k] ps IH]; intros im Hst Hnd Hc Hnone; simpl.
  { split; [done|]. intros q j. split; [by right|]. intros [Hin|?]; [by apply not_elem_of_nil in Hin|done]. }
  simpl in Hnd. apply list.NoDup_cons in Hnd as [Hni Hnd].
  destruct (Hst im p k ltac:(left)) as [n Hn]. rewrite Hn.
  destruct (load_pair_step p k n im Hc (Hnone p ltac:(left))) as [Hc1 Hn1].
  destruct (IH _ ltac:(intros; apply Hst; by right) Hnd Hc1) as [Hc2 Hn2].
  { intros q Hq. destruct (name_of _ q) as [j|] eqn:E; [|done].
    apply Hn1 in E as [[= -> ->]|E]; [done|]. rewrite Hnone in E; [done|by right]. }
  split; [done|]. intros q j. rewrite Hn2, Hn1, elem_of_cons. tauto.
Qed.

Lemma put_dirs_frame {A} (step : InodeMap → string * A → InodeMap) l im :
  (∀ im x, step im x = im ∨ ∃ d i, step im x = put_dir d i im) →
  (∀ q, name_of (foldl step im l) q = name_of im q) ∧
  (∀ q, file_of (foldl step im l) q = file_of im q).
Proof.
  intros Hst. revert im. induction l as [|x l IH]; intros im; simpl; [done|].
  destruct (IH (step im x)) as [H1 H2].
  split; intros q; rewrite ?H1, ?H2; destruct (Hst im x) as [->|(d & i & ->)];
    rewrite ?name_put_dir, ?file_put_dir; done.
Qed.

Lemma rows_fold {A} (f : string → A → InodeRow) l acc :
  NoDup l.*1 → (∀ p k q j, p ≠ q → row_conflict (f p k) (f q j) = false) →
  (∀ r p k, r ∈ acc → (p, k) ∈ l → row_conflict (f p k) r = false) →
  foldl (λ rows '(p, k), insert_or_replace (f p k) rows) acc l
  = (acc ++ ((λ pk, f pk.1 pk.2) <$> l))%list.
Proof.
  intros Hnd Hd. revert acc Hnd. induction l as [|[p k] l IH]; intros acc Hnd Ha; simpl.
  { by rewrite app_nil_r. }
  simpl in Hnd. apply list.NoDup_cons in Hnd as [Hni Hnd].
  assert (insert_or_replace (f p k) acc = acc ++ [f p k])%list as ->.
  { unfold insert_or_replace. f_equal. apply list_filter_all. intros r Hr.
    apply (Ha r p k); [done|left]. }
  rewrite IH; [by rewrite <-app_assoc|done|].
  intros r q j [Hr|Hr]%elem_of_app Hin.
  - apply Ha; [done|by right].
  - apply list_elem_of_singleton in Hr as ->. apply Hd. intros ->. apply Hni.
    apply list_elem_of_fmap. exists (p, j). done.
Qed.

(** What a table or document must hold for the reload to be faithful: content
    keys are well formed, and stored inodes are those of their keys. *)
Record saveable im : Prop := {
  sv_shards : shards_ok im;
  sv_keys : ∀ p k, name_of im p = Some k → key_ok k;
  sv_files : ∀ k v, file_of im k = Some v → v = key_inode k
}.

Lemma NewInodeMap_empty : coherent NewInodeMap ∧ ∀ p, name_of NewInodeMap p = None.
Proof.
  assert (Hn : ∀ p, name_of NewInodeMap p = None).
  { intros p. unfold name_of, NewInodeMap; simpl. by destruct (_ =? 0). }
  split; [|done]. intros p k. by rewrite Hn.
Qed.

(** C39: saving to the table and loading it into a fresh map gives every
    registered path the inode of its content again, with one row per path, also
    for paths whose inode a removal had taken away; no other path appears. *)
Theorem saveToDB_loadFromDB im :
  saveable im →
  (∀ p k d i, name_of im p = Some k → merge_shards dirMap im !! d = Some i → p ≠ d) →
  let im' := loadFromDB (saveToDB im).2 NewInodeMap in
  (∀ p, name_of im' p = name_of im p) ∧
  (∀ p k, name_of im p = Some k → inode_at im' p = key_inode k) ∧
  (∀ p, name_of im p = None → inode_at im' p = 0).
Proof.
  intros [Hok Hkey Hfile] Hdisj. unfold saveToDB, loadFromDB. simpl.
  set (names := merge_shards nameMap im). set (files := merge_shards fileMap im).
  set (dirs := merge_shards dirMap im) in *.
  assert (Hnames : ∀ p k, (p, k) ∈ map_range names ↔ name_of im p = Some k)
    by (intros p k; rewrite elem_of_map_range; by apply merge_names).
  assert (Hfiles : ∀ k v, files !! k = Some v → v = key_inode k)
    by (intros k v Hk; apply Hfile; by apply merge_files).
  rewrite (rows_fold (file_row files) (map_range names) []).
  2:{ apply NoDup_map_range_fst. }
  2:{ intros p k q j Hne. unfold row_conflict, file_row. destruct (splitInodeKey k), (splitInodeKey j).
      simpl. by rewrite bool_decide_false. }
  2:{ intros r p k Hr. by apply not_elem_of_nil in Hr. }
  rewrite (rows_fold dir_row (map_range dirs)).
  2:{ apply NoDup_map_range_fst. }
  2:{ intros p k q j Hne. unfold row_conflict, dir_row. simpl. by rewrite !bool_decide_false. }
  2:{ intros r d i Hr Hd. apply elem_of_map_range in Hd.
      simpl in Hr. apply list_elem_of_fmap in Hr as ([p k] & -> & Hp%Hnames). simpl.
      unfold row_conflict, file_row, dir_row. destruct (splitInodeKey k). simpl.
      rewrite bool_decide_false; [done|]. intros <-. by apply (Hdisj d k d i). }
  rewrite foldl_app. simpl. rewrite !foldl_fmap.
  destruct NewInodeMap_empty as [Hc0 Hn0].
  destruct (load_pairs (λ im x, load_row im (file_row files x.1 x.2)) (map_range names) NewInodeMap)
    as [Hc1 Hn1]; [|apply NoDup_map_range_fst|done|done|].
  { intros im1 p k Hin%Hnames. exists (pathBase p). cbn [fst snd].
    destruct (file_row_key files p k (Hkey p k Hin) (Hfiles k)) as [-> Hk].
    unfold load_row; simpl. by rewrite Hk, u64_i64_key. }
  set (im1 := foldl _ NewInodeMap (map_range names)) in *.
  destruct (put_dirs_frame (λ im x, load_row im (dir_row x.1 x.2)) (map_range dirs) im1) as [Hn2 Hf2].
  { intros im2 [d i]. right. eexists _, _. unfold load_row, dir_row; simpl. reflexivity. }
  assert (Hname : ∀ p, name_of im1 p = name_of im p).
  { intros p. apply option_eq. intros k. rewrite Hn1, Hnames, Hn0. naive_solver. }
  split; [intros p; by rewrite Hn2, Hname|]. split.
  - intros p k Hp. rewrite inode_at_eq, Hn2, Hname, Hp. simpl. rewrite Hf2.
    rewrite (Hc1 p k) by (by rewrite Hname). done.
  - intros p Hp. by rewrite inode_at_eq, Hn2, Hname, Hp.
Qed.

(** the JSON document keeps every path whose inode is known, with the same
    inode, through a save and a load into a fresh map. *)
Theorem saveToJSON_loadFromJSON im :
  saveable im → coherent im →
  ∃ im', loadFromJSON (Some (saveToJSON im).2) None NewInodeMap = Some im' ∧
    (∀ p, name_of im' p = name_of im p) ∧ (∀ p, inode_at im' p = inode_at im p).
Proof.
  intros [Hok Hkey Hfile] Hcoh. unfold loadFromJSON, saveToJSON. simpl.
  eexists. split; [reflexivity|]. unfold loadV2. simpl.
  set (names := merge_shards nameMap im). set (files := omap ParseUint (itoa <$> merge_shards fileMap im)).
  assert (Hnames : ∀ p k, (p, k) ∈ map_range names ↔ name_of im p = Some k)
    by (intros p k; rewrite elem_of_map_range; by apply merge_names).
  assert (Hfiles : ∀ p k, name_of im p = Some k → files !! k = Some (key_inode k)).
  { intros p k Hp. unfold files. rewrite lookup_omap, lookup_fmap.
    rewrite (proj2 (merge_files im k (key_inode k) Hok) (Hcoh p k Hp)). simpl.
    apply ParseUint_itoa. pose proof (key_inode_range k). lia. }
  destruct NewInodeMap_empty as [Hc0 Hn0].
  destruct (load_pairs (load_name files) (map_range names) NewInodeMap) as [Hc1 Hn1];
    [|apply NoDup_map_range_fst|done|done|].
  { intros im1 p k Hin%Hnames. exists (filepath_Base p). unfold load_name; simpl.
    by rewrite (Hfiles p k Hin). }
  set (im1 := foldl (load_name files) NewInodeMap (map_range names)) in *.
  match goal with |- context [foldl ?f im1 ?l] =>
    destruct (put_dirs_frame f l im1) as [Hn2 Hf2] end.
  { intros im2 [d v]. destruct (ParseUint v); [right; by eexists _, _|by left]. }
  assert (Hname : ∀ p, name_of im1 p = name_of im p).
  { intros p. apply option_eq. intros k. rewrite Hn1, Hnames, Hn0. naive_solver. }
  split; [intros p; by rewrite Hn2, Hname|]. intros p.
  rewrite !inode_at_eq, Hn2, Hname. destruct (name_of im p) as [k|] eqn:Hp; [|done]. simpl.
  rewrite Hf2, (Hc1 p k) by (by rewrite Hname). by rewrite (Hcoh p k Hp).
Qed.

(** A directory inode has bit 63 set, so its column is negative and the point
    lookup of the table cannot read it back. *)
Lemma DB_GetDirInode_fails rel :
  rel ≠ "/" → rel ≠ "" → DB_GetDirInode rel [dir_row rel (GenerateDirInode rel)] = None.
Proof.
  intros H1 H2. pose proof (dir_inode_range rel H1 H2) as Hd.
  unfold DB_GetDirInode. rewrite filter_cons, decide_True by done. simpl.
  unfold i64, wrap_s.
  assert (E : (GenerateDirInode rel + 2 ^ 63) mod 2 ^ 64 = GenerateDirInode rel - 2 ^ 63).
  { symmetry. apply (Z.mod_unique_pos _ _ 1); lia. }
  change (64 - 1) with 63. rewrite E. rewrite (proj2 (Z.ltb_lt _ _)) by lia. done.
Qed.

(** ** Pruning *)

Lemma RemoveFile_names p im q :
  name_of (RemoveFile p im) q = if decide (q = p) then None else name_of im q.
Proof.
  destruct (name_of im p) as [k|] eqn:E; [by apply (RemoveFile_lookups p k)|].
  unfold RemoveFile. rewrite E. case_decide; [by subst|done].
Qed.

Lemma remove_names l im q :
  name_of (foldl (λ im p, RemoveFile p im) im l) q = if decide (q ∈ l) then None else name_of im q.
Proof.
  revert im. induction l as [|p l IH]; intros im; cbn [foldl].
  { by rewrite decide_False by apply not_elem_of_nil. }
  rewrite IH, RemoveFile_names. destruct (decide (q = p)) as [->|Hne].
  - rewrite (decide_True (P := p ∈ p :: l)) by left. by case_decide.
  - apply decide_ext. rewrite elem_of_cons. naive_solver.
Qed.

(** pruning forgets exactly the registered paths that were not found, counts
    them, and leaves the other registrations in place. *)
Theorem PruneMissing_exact found im :
  shards_ok im →
  let '(im', n) := PruneMissing found im in
  (∀ p, name_of im' p = if is_found found p then name_of im p else None) ∧
  (n = 0 → im' = im) ∧ (0 < n → im_dirty im' = true).
Proof.
  intros Hok. unfold PruneMissing. set (l := filter _ (all_names im)).
  assert (Hl : ∀ p, p ∈ l ↔ is_found found p = false ∧ is_Some (name_of im p)).
  { intros p. unfold l, all_names. rewrite list_elem_of_filter, list_elem_of_bind.
    split; intros [Hf Hx]; (split; [done|]).
    - destruct Hx as (i & Hi & Hin). apply list_elem_of_fmap in Hi as ([q k] & -> & Hk%elem_of_map_range).
      simpl. exists k. unfold name_of. by rewrite <-(so_name im Hok _ _ _ Hk).
    - destruct Hx as [k Hk]. exists (shard_of p). split.
      + apply list_elem_of_fmap. exists (p, k). split; [done|]. by apply elem_of_map_range.
      + apply elem_of_shard_ids, shard_of_range. }
  assert (Hn : ∀ p, name_of (foldl (λ im p, RemoveFile p im) im l) p
                = if is_found found p then name_of im p else None).
  { intros p. rewrite remove_names. specialize (Hl p). destruct (is_found found p) eqn:Ef.
    - rewrite decide_False; [done|]. intros Hin%Hl. naive_solver.
    - case_decide as Hin; [done|]. destruct (name_of im p) eqn:E; [|done].
      exfalso. apply Hin, Hl. by split. }
  destruct (Z.ltb_spec 0 (len l)).
  - split; [intros p; apply Hn|]. split; [lia|done].
  - assert (l = []) as E.
    { destruct l; [done|]. unfold len in *; simpl in *. lia. }
    rewrite E in *. simpl in *. split; [done|]. split; [done|lia].
Qed.

(** Registration keeps what saving needs. *)
Lemma shards_ok_upd k f im :
  shards_ok im →
  (∀ s p v, nameMap (f s) !! p = Some v → nameMap s !! p = Some v ∨ p = k) →
  (∀ s p v, fileMap (f s) !! p = Some v → fileMap s !! p = Some v ∨ p = k) →
  shards_ok (upd_shard k f im).
Proof.
  intros [Hn Hf] H1 H2. split; intros i p v; rewrite shards_upd; case_decide as Hi; eauto; subst.
  - intros [Hv|Hp]%H1; [by eapply Hn|by subst].
  - intros [Hv|Hp]%H2; [by eapply Hf|by subst].
Qed.

Lemma saveable_AddFile p h i im :
  saveable im → h ≠ "" → has_char ":"%char h = false → in_i64 i → saveable (AddFile p h i im).1.
Proof.
  intros [Hok Hk Hf] Hh Hc Hi. destruct (AddFile_lookups p h i im Hh) as (Hnew & Hold & _).
  destruct (decide (name_of im p = Some (inode_key (ToLower h) i))) as [E|E]; [by rewrite Hold|].
  destruct (Hnew E) as [Hn Hfl]. split.
  - unfold AddFile. rewrite !bool_decide_false by done. simpl.
    assert (Hs : ∀ im, shards_ok im → shards_ok (setDirty true im)) by (intros ? [? ?]; by split).
    apply Hs. repeat apply shards_ok_upd; try done; intros s q v; simpl;
      rewrite ?lookup_insert_Some; naive_solver.
  - intros q k. rewrite Hn. case_decide; [|by apply Hk]. intros [= <-].
    exists (ToLower h), i. rewrite ToLower_colon, ToLower_idem. done.
  - intros q v. rewrite Hfl. case_decide; [by intros [= <-]; subst|by apply Hf].
Qed.

End inode_map.

(** ** Witnesses *)

Definition len_hash (k : string) : Z := Z.of_nat (String.length k) mod 2 ^ 64.

Lemma len_hash_range k : 0 ≤ len_hash k < 2 ^ 64.
Proof. apply Z.mod_pos_bound. lia. Qed.

Lemma new_saveable : saveable len_hash NewInodeMap ∧ coherent len_hash NewInodeMap.
Proof.
  split; [|apply NewInodeMap_empty].
  split; [split|..].
  - intros i p k. simpl. by destruct (i =? 0).
  - intros i p k. simpl. by destruct (i =? 0).
  - intros p k. unfold name_of. simpl. by destruct (_ =? 0).
  - intros k v. unfold file_of. simpl. by destruct (_ =? 0).
Qed.

Definition two_paths : InodeMap :=
  (AddFile len_hash "/m/b.mkv" "AB" 3 (AddFile len_hash "/m/a.mkv" "ab" 3 NewInodeMap).1).1.

Lemma two_paths_saveable : saveable len_hash two_paths ∧ coherent len_hash two_paths.
Proof.
  destruct new_saveable as [Hs Hc]. unfold two_paths. split.
  - apply (saveable_AddFile len_hash len_hash_range); [|done|done|unfold in_i64; lia].
    apply (saveable_AddFile len_hash len_hash_range); [done|done|done|unfold in_i64; lia].
  - by repeat apply coherent_AddFile.
Qed.

Lemma AddFile_GetFileInode_witness :
  let im' := (AddFile len_hash "/m/c.mkv" "cd" 0 two_paths).1 in
  coherent len_hash im' ∧ inode_at len_hash im' "/m/c.mkv" = GenerateFileInode len_hash "cd" 0 ∧
  (AddFile len_hash "/m/c.mkv" "cd" 0 two_paths).2 = GenerateFileInode len_hash "cd" 0 ∧
  ∀ q, q ≠ "/m/c.mkv" → inode_at len_hash im' q = inode_at len_hash two_paths q.
Proof. apply AddFile_GetFileInode; [apply two_paths_saveable|done]. Defined.

Lemma RemoveFile_breaks_sibling_witness :
  let im1 := RemoveFile len_hash "/m/a.mkv" two_paths in
  inode_at len_hash im1 "/m/b.mkv" = 0 ∧
  inode_at len_hash (AddFile len_hash "/m/b.mkv" "ab" 3 im1).1 "/m/b.mkv" = 0 ∧
  (AddFile len_hash "/m/b.mkv" "ab" 3 im1).2 = GenerateFileInode len_hash "ab" 3.
Proof. apply RemoveFile_breaks_sibling; [done|done|by vm_compute|by vm_compute]. Defined.

Lemma inode_namespaces_witness :
  0 ≤ GenerateFileInode len_hash "ab" 3 < 2 ^ 63 ∧
  2 ^ 63 ≤ GenerateDirInode len_hash "/movies" < 2 ^ 64 ∧
  GenerateFileInode len_hash "ab" 3 ≠ GenerateDirInode len_hash "/movies".
Proof. apply (inode_namespaces len_hash len_hash_range "ab" 3 "/movies"); done. Defined.

Lemma saveToDB_loadFromDB_witness :
  let im' := loadFromDB len_hash (saveToDB len_hash two_paths).2 NewInodeMap in
  (∀ p, name_of len_hash im' p = name_of len_hash two_paths p) ∧
  (∀ p k, name_of len_hash two_paths p = Some k → inode_at len_hash im' p = key_inode len_hash k) ∧
  (∀ p, name_of len_hash two_paths p = None → inode_at len_hash im' p = 0).
Proof.
  apply (saveToDB_loadFromDB len_hash len_hash_range two_paths); [apply two_paths_saveable|].
  intros p k d i Hp Hd ->.
  assert (Hdirs : merge_shards dirMap two_paths = {["/" := InodeRoot]}) by (by vm_compute).
  rewrite Hdirs in Hd. apply lookup_singleton_Some in Hd as [<- _].
  by vm_compute in Hp.
Defined.

Lemma saveToJSON_loadFromJSON_witness :
  ∃ im', loadFromJSON len_hash (Some (saveToJSON two_paths).2) None NewInodeMap = Some im' ∧
    (∀ p, name_of len_hash im' p = name_of len_hash two_paths p) ∧
    (∀ p, inode_at len_hash im' p = inode_at len_hash two_paths p).
Proof. apply (saveToJSON_loadFromJSON len_hash len_hash_range); apply two_paths_saveable. Defined.

Lemma PruneMissing_exact_witness :
  let '(im', n) := PruneMissing len_hash {["/m/a.mkv" := true]} two_paths in
  (∀ p, name_of len_hash im' p
        = if is_found {["/m/a.mkv" := true]} p then name_of len_hash two_paths p else None) ∧
  (n = 0 → im' = two_paths) ∧ (0 < n → im_dirty im' = true).
Proof. apply (PruneMissing_exact len_hash len_hash_range), two_paths_saveable. Defined.
