(* ===== verification/Vfs.v ===== *)
(** * Helpers of the file system (internal/vfs: segment.go, dircache.go)

    A cue track of a single-file image is a generated header followed by a span
    of the image; [SegmentRead] splits a read of it between the two.  [DirCache]
    keeps directory listings for a while; the generation of a path counts its
    invalidations, so that a listing read before one is not stored after it.  Each
    operation of the cache is one or two lock sections, and the sections of
    concurrent operations interleave. *)

From Stdlib Require Import Ascii String.
From stdpp Require Import functions.
From S2P Require Import Prelude GoStrings.
Local Open Scope string_scope.
Local Open Scope Z_scope.
Local Open Scope go_scope.

(** ** Segments *)

Definition SegmentInodeHash (hash : string) (cueTrack : Z) : string :=
  if cueTrack <=? 0 then hash else hash +:+ "#c" +:+ itoa cueTrack.

(** The bytes of the header, then the offset and count in the torrent file. *)
Definition SegmentRead (headerLen base length off n : Z) : Z * Z * Z * Z :=
  let total := headerLen +! length in
  if (off <? 0) || (off >=? total) || (n <=? 0) then (0, 0, 0, 0)
  else
    let e := off +! n in
    let e := if e >? total then total else e in
    let h := headerLen in
    let '(hdrFrom, hdrTo) := if off <? h then (off, Z.min e h) else (0, 0) in
    let '(innerOff, innerN) :=
      if e >? h then let start := Z.max off h in (base +! start -! h, e -! start) else (0, 0) in
    (hdrFrom, hdrTo, innerOff, innerN).

Lemma slice_app_l {A} (l1 l2 : list A) (a b : Z) :
  0 ≤ a ≤ b → b ≤ len l1 →
  take (Z.to_nat (b - a)) (drop (Z.to_nat a) (l1 ++ l2)%list) = take (Z.to_nat (b - a)) (drop (Z.to_nat a) l1).
Proof.
  intros Ha Hb. rewrite drop_app_le by (unfold len in *; lia).
  rewrite take_app_le; [done|]. rewrite length_drop. unfold len in *. lia.
Qed.

Lemma slice_app_r {A} (l1 l2 : list A) (a : Z) (n : nat) :
  len l1 ≤ a → take n (drop (Z.to_nat a) (l1 ++ l2)%list) = take n (drop (Z.to_nat (a - len l1)) l2).
Proof.
  intros Ha. rewrite drop_app_ge by (unfold len in *; lia). unfold len. do 2 f_equal. lia.
Qed.

(** The two parts of a read, one after the other, are the bytes of the track. *)
Section segment.
Context {A : Type} (header image : list A) (base length : Z).
Context (Hbase : 0 ≤ base) (Hlen : 0 ≤ length) (Hfit : base + length ≤ len image).
Context (Hsmall : len header ≤ 2 ^ 60 ∧ len image ≤ 2 ^ 60).

(** What the player sees: the header, then the span of the image. *)
Definition track : list A := (header ++ take (Z.to_nat length) (drop (Z.to_nat base) image))%list.

Lemma len_track : len track = len header + length.
Proof. unfold track. rewrite len_app, len_take, len_drop. lia. Qed.

Lemma SegmentRead_exact off n hf ht io inn :
  off ≤ 2 ^ 60 → n ≤ 2 ^ 60 →
  SegmentRead (len header) base length off n = (hf, ht, io, inn) →
  0 ≤ hf ≤ ht ∧ ht ≤ len header ∧ 0 ≤ inn ∧ (inn = 0 ∨ (base ≤ io ∧ io + inn ≤ base + length)) ∧
  (take (Z.to_nat (ht - hf)) (drop (Z.to_nat hf) header) ++
   take (Z.to_nat inn) (drop (Z.to_nat io) image))%list =
    (if (0 <=? off) && (0 <? n) then take (Z.to_nat n) (drop (Z.to_nat off) track) else []).
Proof.
  intros Ho Hn. unfold SegmentRead. pose proof (len_nonneg header) as Hh.
  rewrite (i64_id (len header + length)) by (unfold in_i64; lia).
  destruct ((off <? 0) || (off >=? len header + length) || (n <=? 0)) eqn:E0.
  { intros [= <- <- <- <-]. simpl. split_and!; try lia. simpl.
    destruct ((0 <=? off) && (0 <? n)) eqn:E1; [|done]. bool_simpl.
    rewrite (proj2 (Z.ltb_ge off 0)), (proj2 (Z.leb_gt n 0)), orb_false_r in E0 by lia. cbn [orb] in E0.
    rewrite (drop_ge track); [by rewrite take_nil|]. pose proof len_track as Hl. unfold len in *. lia. }
  apply orb_false_iff in E0 as [[E0 E1]%orb_false_iff E2]. bool_simpl.
  rewrite (proj2 (Z.leb_le 0 off)), (proj2 (Z.ltb_lt 0 n)) by lia. cbn [andb].
  rewrite (i64_id (off + n)) by (unfold in_i64; lia).
  set (e := if off + n >? len header + length then _ else _).
  assert (He : off < e ≤ len header + length ∧ e = Z.min (off + n) (len header + length)).
  { unfold e. case_if; lia. }
  clearbody e.
  assert (Htk : take (Z.to_nat n) (drop (Z.to_nat off) track) =
                take (Z.to_nat (e - off)) (drop (Z.to_nat off) track)).
  { destruct (decide (off + n ≤ len header + length)); [by replace (e - off) with n by lia|].
    rewrite !take_ge; [done|..]; rewrite length_drop; pose proof len_track as Hl; unfold len in *; lia. }
  rewrite Htk. unfold track.
  assert (Hin : ∀ a m, len header ≤ a → 0 ≤ m → a + m ≤ len header + length →
    take (Z.to_nat m) (drop (Z.to_nat (a - len header)) (take (Z.to_nat length) (drop (Z.to_nat base) image)))
    = take (Z.to_nat m) (drop (Z.to_nat (base + a - len header)) image)).
  { intros a m Ha Hm Ham. rewrite skipn_firstn_comm, take_take, drop_drop.
    f_equal; [lia|]. f_equal. lia. }
  destruct (off <? len header) eqn:Eh; bool_simpl.
  - destruct (e >? len header) eqn:Ee; bool_simpl.
    + rewrite (Z.max_r off) by lia. go_simpl. intros [= <- <- <- <-]. rewrite (Z.min_r e) by lia.
      split_and!; try lia.
      rewrite drop_app_le by (unfold len in *; lia).
      rewrite (take_ge (drop _ header)) by (rewrite length_drop; unfold len in *; lia).
      rewrite take_app_ge by (rewrite length_drop; unfold len in *; lia).
      f_equal. rewrite length_drop.
      replace (Z.to_nat (e - off) - (Datatypes.length header - Z.to_nat off))%nat
        with (Z.to_nat (e - len header)) by (unfold len in *; lia).
      pose proof (Hin (len header) (e - len header)) as Hi. rewrite Z.sub_diag in Hi. simpl in Hi.
      rewrite drop_0 in Hi. rewrite Hi by lia. reflexivity.
    + intros [= <- <- <- <-]. rewrite (Z.min_l e) by lia. split_and!; try lia.
      simpl. rewrite app_nil_r. symmetry. apply slice_app_l; lia.
  - destruct (e >? len header) eqn:Ee; bool_simpl; [|lia].
    rewrite (Z.max_l off) by lia. go_simpl. intros [= <- <- <- <-]. simpl. split_and!; try lia.
    rewrite slice_app_r by lia. symmetry. apply Hin; lia.
Qed.
End segment.

(** The two parts [SegmentRead] gives, the header bytes and then the image
    bytes, stay inside the header and the track's span of the image, and put one
    after the other they are exactly the bytes the read asks for of the track: the
    header followed by the span.  A read before the start, past the end or of no
    bytes gives nothing. *)
Theorem SegmentRead_splits {A} (header image : list A) base length off n hf ht io inn :
  0 ≤ base → 0 ≤ length → base + length ≤ len image → len header ≤ 2 ^ 60 → len image ≤ 2 ^ 60 →
  off ≤ 2 ^ 60 → n ≤ 2 ^ 60 →
  SegmentRead (len header) base length off n = (hf, ht, io, inn) →
  slice header hf ht = Some (take (Z.to_nat (ht - hf)) (drop (Z.to_nat hf) header)) ∧
  (0 < inn → base ≤ io ∧ io + inn ≤ base + length) ∧
  (take (Z.to_nat (ht - hf)) (drop (Z.to_nat hf) header) ++
   take (Z.to_nat inn) (drop (Z.to_nat io) image))%list =
    (if (0 <=? off) && (0 <? n)
     then take (Z.to_nat n) (drop (Z.to_nat off) (track header image base length)) else []).
Proof.
  intros Hb Hl Hf H1 H2 Ho Hn E.
  destruct (SegmentRead_exact header image base length Hb Hl Hf (conj H1 H2) off n hf ht io inn Ho Hn E)
    as (Hhf & Hht & Hi & Hio & Heq).
  split; [unfold slice; by rewrite decide_True by lia|]. split; [lia|done].
Qed.

Lemma SegmentRead_splits_witness :
  SegmentRead 2 3 4 1 4 = (1, 2, 3, 3) ∧
  (take 1 (drop 1 [101; 102]) ++ take 3 (drop 3 [0; 1; 2; 3; 4; 5; 6; 7]))%list =
    take 4 (drop 1 (track [101; 102] [0; 1; 2; 3; 4; 5; 6; 7] 3 4)).
Proof.
  split; [reflexivity|].
  refine (proj2 (proj2 (SegmentRead_splits [101; 102] [0; 1; 2; 3; 4; 5; 6; 7] 3 4 1 4 1 2 3 3
    _ _ _ _ _ _ _ _))); try lia; try (vm_compute; discriminate). reflexivity.
Defined.

(** The tracks of one image get different inode keys, and none is the image's. *)
Lemma SegmentInodeHash_inj hash t1 t2 :
  0 ≤ t1 → 0 ≤ t2 → SegmentInodeHash hash t1 = SegmentInodeHash hash t2 → t1 = t2.
Proof.
  intros H1 H2. unfold SegmentInodeHash.
  assert (Hp : ∀ a b, hash +:+ a = hash +:+ b → a = b).
  { intros a b. induction hash as [|c h IH]; [done|]. intros E. apply IH. by injection E. }
  assert (Hnil : ∀ a, hash = hash +:+ a → a = "").
  { intros a E. symmetry. apply Hp. by rewrite append_nil_r. }
  destruct (t1 <=? 0) eqn:E1, (t2 <=? 0) eqn:E2; bool_simpl; intros E; [lia|..].
  - by apply Hnil in E.
  - symmetry in E. by apply Hnil in E.
  - apply Hp in E. injection E as E. by apply itoa_inj.
Qed.

(** ** Directory listings *)

Record DirEntry := mkDirEntry { de_name : string; de_isDir : bool; de_ino : Z; de_off : Z }.
Record DirCacheEntry := mkDCE { dce_entries : list DirEntry; dce_expires : Z }.

Record DirCache := mkDirCache {
  dc_cache : gmap string DirCacheEntry;
  dc_generations : gmap string Z;
  dc_ttl : Z
}.

Definition NewDirCache (ttl : Z) : DirCache := mkDirCache ∅ ∅ ttl.

Definition Generation (path : string) (dc : DirCache) : Z := default 0 (dc_generations dc !! path).

Definition putLocked (now : Z) (path : string) (es : list DirEntry) (dc : DirCache) : DirCache :=
  mkDirCache (<[path := mkDCE es (now + dc_ttl dc)]> (dc_cache dc)) (dc_generations dc) (dc_ttl dc).

Definition PutIfGeneration (now : Z) (path : string) (es : list DirEntry) (g : Z) (dc : DirCache)
    : bool * DirCache :=
  if Generation path dc =? g then (true, putLocked now path es dc) else (false, dc).

Definition Dir_Put (now : Z) (path : string) (es : list DirEntry) (dc : DirCache) : DirCache :=
  putLocked now path es dc.

Definition Dir_Delete (path : string) (dc : DirCache) : DirCache :=
  mkDirCache (delete path (dc_cache dc))
             (<[path := u64 (Generation path dc + 1)]> (dc_generations dc)) (dc_ttl dc).

(** [Get]: the section under the read lock, then the one that drops an expired
    entry. *)
Definition Dir_Get_read (path : string) (dc : DirCache) : option DirCacheEntry := dc_cache dc !! path.

Definition Dir_Get (now : Z) (path : string) (dc : DirCache) : option (list DirEntry) * DirCache :=
  match Dir_Get_read path dc with
  | None => (None, dc)
  | Some e => if now >? dce_expires e then (None, Dir_Delete path dc) else (Some (dce_entries e), dc)
  end.

Definition Dir_CleanupExpired (now : Z) (dc : DirCache) : DirCache :=
  mkDirCache (filter (λ kv : string * DirCacheEntry, ¬ (now > dce_expires kv.2)) (dc_cache dc))
             (dc_generations dc) (dc_ttl dc).

(** *** The stream of a listing *)

Record nfsDirStream := mkStream { ds_entries : list DirEntry; ds_index : nat }.

Definition HasNext (s : nfsDirStream) : bool := (ds_index s <? length (ds_entries s))%nat.

Definition Dir_Next (s : nfsDirStream) : option (DirEntry * nfsDirStream) :=
  e ← ds_entries s !! ds_index s; Some (e, mkStream (ds_entries s) (S (ds_index s))).

Fixpoint find_off (off : Z) (i : nat) (l : list DirEntry) : option nat :=
  match l with
  | [] => None
  | e :: l => if de_off e =? off then Some (S i) else find_off off (S i) l
  end.

Definition Seekdir (off : Z) (s : nfsDirStream) : nfsDirStream :=
  if off =? 0 then mkStream (ds_entries s) 0
  else match find_off off 0 (ds_entries s) with
       | Some i => mkStream (ds_entries s) i
       | None => s
       end.

(** [Readdir] turns the names of the directory into entries; a file that is not a
    stub leaves a gap in the offsets. *)
Definition build_entries (stub : string → bool) (ino : string → bool → Z) (names : list (string * bool))
    : list DirEntry :=
  omap (λ x : nat * (string * bool),
          let '(i, (name, isDir)) := x in
          if isDir || stub name then Some (mkDirEntry name isDir (ino name isDir) (Z.of_nat i + 1)) else None)
       (imap pair names).

Lemma build_entries_offs stub ino names :
  StronglySorted Z.lt (de_off <$> build_entries stub ino names) ∧
  ∀ e, e ∈ build_entries stub ino names → 0 < de_off e.
Proof.
  unfold build_entries.
  assert (Hgen : ∀ n, let l := omap (λ x : nat * (string * bool), let '(i, (name, isDir)) := x in
      if isDir || stub name then Some (mkDirEntry name isDir (ino name isDir) (Z.of_nat i + 1)) else None)
      (imap (λ i, pair (n + i)%nat) names) in
    StronglySorted Z.lt (de_off <$> l) ∧ ∀ e, e ∈ l → Z.of_nat n < de_off e).
  { induction names as [|[name d] names IH]; intros n; simpl.
    - split; [constructor|]. intros e He. by apply not_elem_of_nil in He.
    - specialize (IH (S n)). simpl in IH. destruct IH as [IH1 IH2].
      assert (Hext : imap ((λ i, pair (n + i)%nat) ∘ S) names = imap (λ i, pair (S (n + i))%nat) names).
      { apply imap_ext. intros i x _. simpl. by rewrite Nat.add_succ_r. }
      rewrite Hext, Nat.add_0_r. destruct (d || stub name); simpl.
      + split.
        * constructor; [done|]. apply list.Forall_forall. intros z (e & -> & He)%list_elem_of_fmap.
          simpl. specialize (IH2 e He). lia.
        * intros e [->|He]%elem_of_cons; [simpl; lia|]. specialize (IH2 e He). lia.
      + split; [done|]. intros e He. specialize (IH2 e He). lia. }
  specialize (Hgen 0%nat). simpl in Hgen. exact Hgen.
Qed.

Lemma find_off_spec off i l k e :
  StronglySorted Z.lt (de_off <$> l) → l !! k = Some e → de_off e = off → find_off off i l = Some (S (i + k)).
Proof.
  revert i k. induction l as [|d l IH]; intros i k Hs Hk He; [done|]. simpl in Hs.
  inversion Hs as [|x y Hs' Hall]; subst. destruct k as [|k]; simpl in *.
  - injection Hk as ->. by rewrite Z.eqb_refl, Nat.add_0_r.
  - rewrite list.Forall_forall in Hall.
    assert (de_off d < de_off e).
    { apply Hall. apply list_elem_of_fmap. exists e. split; [done|]. by eapply list_elem_of_lookup_2. }
    rewrite (proj2 (Z.eqb_neq _ _)) by lia. rewrite (IH (S i) k); [|done..]. f_equal. lia.
Qed.

(** A directory read that resumes at the offset of an entry goes on right after
    it: no entry is lost and none is listed twice. *)
Lemma Seekdir_resumes stub ino names k e s :
  ds_entries s = build_entries stub ino names → ds_entries s !! k = Some e →
  ds_index (Seekdir (de_off e) s) = S k ∧ ds_entries (Seekdir (de_off e) s) = ds_entries s.
Proof.
  intros Hs Hk. destruct (build_entries_offs stub ino names) as [Hsort Hpos].
  unfold Seekdir. rewrite (proj2 (Z.eqb_neq (de_off e) 0)).
  2:{ specialize (Hpos e). rewrite <-Hs in Hpos. apply list_elem_of_lookup_2 in Hk. specialize (Hpos Hk). lia. }
  rewrite (find_off_spec (de_off e) 0 (ds_entries s) k e); [done| |done|done]. by rewrite Hs.
Qed.

(** *** Listings and invalidations, interleaved *)

(** The cache, the listing a walk of each directory would give now, the
    directories changed and not yet invalidated, and the readers between their
    snapshot of the generation and their store. *)
Record DirWorld := mkDirWorld {
  dw_dc : DirCache;
  dw_disk : string → list DirEntry;
  dw_pending : list string;
  dw_readers : list (string * Z * option (list DirEntry))
}.

Inductive dir_step : DirWorld → DirWorld → Prop :=
  | D_change w p es :
      dir_step w (mkDirWorld (dw_dc w) (<[p := es]> (dw_disk w)) (p :: dw_pending w) (dw_readers w))
  | D_invalidate w p ps1 ps2 :
      dw_pending w = (ps1 ++ p :: ps2)%list → Generation p (dw_dc w) < 2 ^ 64 - 1 →
      dir_step w (mkDirWorld (Dir_Delete p (dw_dc w)) (dw_disk w) (ps1 ++ ps2)%list (dw_readers w))
  | D_snapshot w p :
      dir_step w (mkDirWorld (dw_dc w) (dw_disk w) (dw_pending w)
                    ((p, Generation p (dw_dc w), None) :: dw_readers w))
  | D_walk w p g rs1 rs2 :
      dw_readers w = (rs1 ++ (p, g, None) :: rs2)%list →
      dir_step w (mkDirWorld (dw_dc w) (dw_disk w) (dw_pending w)
                    (rs1 ++ (p, g, Some (dw_disk w p)) :: rs2)%list)
  | D_store w p g es now rs1 rs2 :
      dw_readers w = (rs1 ++ (p, g, Some es) :: rs2)%list →
      dir_step w (mkDirWorld (PutIfGeneration now p es g (dw_dc w)).2 (dw_disk w) (dw_pending w)
                    (rs1 ++ rs2)%list)
  | D_expire w p :
      Generation p (dw_dc w) < 2 ^ 64 - 1 →
      dir_step w (mkDirWorld (Dir_Delete p (dw_dc w)) (dw_disk w) (dw_pending w) (dw_readers w))
  | D_cleanup w now :
      dir_step w (mkDirWorld (Dir_CleanupExpired now (dw_dc w)) (dw_disk w) (dw_pending w) (dw_readers w)).

Definition dir_init (ttl : Z) (disk : string → list DirEntry) : DirWorld :=
  mkDirWorld (NewDirCache ttl) disk [] [].

Record dir_inv (w : DirWorld) : Prop := {
  di_cache : ∀ p e, dc_cache (dw_dc w) !! p = Some e → p ∉ dw_pending w → dce_entries e = dw_disk w p;
  di_reader : ∀ p g es, (p, g, Some es) ∈ dw_readers w → Generation p (dw_dc w) = g →
    p ∉ dw_pending w → es = dw_disk w p;
  di_gen : ∀ p g o, (p, g, o) ∈ dw_readers w → g ≤ Generation p (dw_dc w);
  di_pos : ∀ p, 0 ≤ Generation p (dw_dc w)
}.

Lemma Generation_Delete p q dc :
  0 ≤ Generation p dc < 2 ^ 64 - 1 →
  Generation q (Dir_Delete p dc) = if decide (q = p) then Generation p dc + 1 else Generation q dc.
Proof.
  intros Hg. unfold Generation at 1. simpl. case_decide as Hq.
  - subst q. rewrite lookup_insert_eq. simpl. apply u64_id. lia.
  - by rewrite lookup_insert_ne.
Qed.

Lemma dir_delete_inv w p ps :
  dir_inv w → Generation p (dw_dc w) < 2 ^ 64 - 1 →
  (∀ q, q ≠ p → q ∈ dw_pending w → q ∈ ps) →
  dir_inv (mkDirWorld (Dir_Delete p (dw_dc w)) (dw_disk w) ps (dw_readers w)).
Proof.
  intros [Hc Hr Hg Hp] Hlt Hps. pose proof (Hp p) as Hp0.
  pose proof (λ q, Generation_Delete p q (dw_dc w) ltac:(lia)) as Hgen.
  split; simpl.
  - intros q e [Hne Hq]%lookup_delete_Some Hn. apply Hc; [done|]. intros Hin. apply Hn. by apply Hps.
  - intros q g es Hin E Hn. rewrite Hgen in E. case_decide as Hq.
    + subst q. pose proof (Hg _ _ _ Hin). lia.
    + apply (Hr q g es); [done|done|]. intros Hin'. apply Hn. by apply Hps.
  - intros q g o Hin. rewrite Hgen. pose proof (Hg _ _ _ Hin). case_decide; [subst; lia|lia].
  - intros q. rewrite Hgen. pose proof (Hp q). case_decide; lia.
Qed.

Lemma dir_step_inv w w' : dir_step w w' → dir_inv w → dir_inv w'.
Proof.
  intros Hs Hi. destruct Hs as [w p es|w p ps1 ps2 Hp Hlt|w p|w p g rs1 rs2 Hr|w p g es now rs1 rs2 Hr|w p Hlt|w now];
    [|by apply dir_delete_inv; [..|intros q Hne; rewrite Hp; set_solver]|..].
  - destruct Hi as [H1 H2 H3 H4]. split; simpl; [..|done|done].
    + intros q e Hq Hn. apply not_elem_of_cons in Hn as [Hne Hn]. rewrite fn_lookup_insert_ne by done. by apply H1.
    + intros q g l Hin E Hn. apply not_elem_of_cons in Hn as [Hne Hn].
      rewrite fn_lookup_insert_ne by done. by eapply H2.
  - destruct Hi as [H1 H2 H3 H4]. split; simpl; [done|..|done].
    + intros q g l [E|Hin]%elem_of_cons; [done|by apply H2].
    + intros q g o [E|Hin]%elem_of_cons; [injection E as -> -> ->; lia|by eapply H3].
  - destruct Hi as [H1 H2 H3 H4]. split; simpl; [done|..|done].
    + intros q g' l Hin E Hn. apply elem_of_app in Hin as [Hin|[E'|Hin]%elem_of_cons].
      * apply (H2 q g'); [|done|done]. rewrite Hr. set_solver.
      * by injection E' as -> -> ->.
      * apply (H2 q g'); [|done|done]. rewrite Hr. set_solver.
    + intros q g' o Hin. apply elem_of_app in Hin as [Hin|[E'|Hin]%elem_of_cons].
      * apply (H3 q g' o). rewrite Hr. set_solver.
      * injection E' as -> -> ->. apply (H3 p g None). rewrite Hr. set_solver.
      * apply (H3 q g' o). rewrite Hr. set_solver.
  - destruct Hi as [H1 H2 H3 H4].
    assert (Hsub : ∀ x, x ∈ (rs1 ++ rs2)%list → x ∈ dw_readers w) by (rewrite Hr; set_solver).
    unfold PutIfGeneration. destruct (Generation p (dw_dc w) =? g) eqn:Eg; bool_simpl; simpl.
    + split; simpl; [|intros q g' l Hin; by apply H2, Hsub|intros q g' o Hin; by eapply H3, Hsub|done].
      intros q e Hq Hn. destruct (decide (q = p)) as [->|Hne].
      * rewrite lookup_insert_eq in Hq. injection Hq as <-. simpl. apply (H2 p g es); [|done|done].
        rewrite Hr. set_solver.
      * rewrite lookup_insert_ne in Hq by done. by apply H1.
    + split; simpl; [done|intros q g' l Hin; by apply H2, Hsub|intros q g' o Hin; by eapply H3, Hsub|done].
  - by apply dir_delete_inv.
  - destruct Hi as [H1 H2 H3 H4]. split; simpl; [|done..].
    intros q e [Hq _]%map_lookup_filter_Some Hn. by apply H1.
Qed.

(** C36: Whatever walks, stores, invalidations, expiries and clean-ups interleave, a
    directory whose changes have all been invalidated is served from the cache
    only with the listing it has now: a walk that lost the race against an
    invalidation is never stored after it. *)
Theorem dircache_never_stale ttl disk w now p es dc' :
  rtc dir_step (dir_init ttl disk) w → p ∉ dw_pending w →
  Dir_Get now p (dw_dc w) = (Some es, dc') → es = dw_disk w p.
Proof.
  intros Hr Hp Hg.
  assert (Hi : dir_inv w).
  { assert (H0 : dir_inv (dir_init ttl disk)) by (split; simpl; set_solver).
    revert H0. clear -Hr. induction Hr as [|w1 w2 w3 Hs _ IH]; [done|]. intros H0.
    by apply IH, (dir_step_inv w1). }
  unfold Dir_Get, Dir_Get_read in Hg. destruct (dc_cache (dw_dc w) !! p) as [e|] eqn:E; [|done].
  destruct (now >? dce_expires e); [done|]. injection Hg as <- _. by apply (di_cache _ Hi).
Qed.

Definition demo_dir : string → list DirEntry := λ _, [mkDirEntry "a.mkv" false 7 1].
Definition demo_stored : DirWorld :=
  mkDirWorld (PutIfGeneration 2 "/m" (demo_dir "/m") 0 (NewDirCache 10)).2 demo_dir [] [].

Lemma dircache_never_stale_witness :
  Dir_Get 3 "/m" (dw_dc demo_stored) = (Some (demo_dir "/m"), dw_dc demo_stored) ∧
  demo_dir "/m" = dw_disk demo_stored "/m".
Proof.
  split; [reflexivity|].
  refine (dircache_never_stale 10 demo_dir demo_stored 3 "/m" (demo_dir "/m") (dw_dc demo_stored) _ _ _).
  - eapply rtc_l; [apply (D_snapshot (dir_init 10 demo_dir) "/m")|].
    eapply rtc_l; [apply (D_walk _ "/m" 0 [] []); reflexivity|].
    eapply rtc_l; [apply (D_store _ "/m" 0 (demo_dir "/m") 2 [] []); reflexivity|].
    apply rtc_refl.
  - apply not_elem_of_nil.
  - reflexivity.
Defined.
