(* ===== verification/TailRange.v ===== *)
(** * Written ranges of a sparse file (internal/warmup/warmup.go, [tailRange])

    The set of byte ranges of a tail file that were really written: sorted,
    disjoint, non-adjacent half-open spans.  [add] merges in place, reading and
    writing one backing array as the Go code does; [covers] is a binary search.
    The specification is the set of bytes of the intervals ever added. *)

From S2P Require Import Prelude.

Section tail_range.
Context `{GoRuntime}.

(** ** Data *)

Record tailSpan := mkSpan { start_ : Z; end_ : Z }.

(** ** Operations *)

Definition span_less (a b : tailSpan) : bool := start_ a <? start_ b.

(** The merge loop of [add]: [merged] is the first [m] cells of the array it
    reads from, so that [append] writes into the array being ranged over. *)
Fixpoint merge_inplace (n : nat) (a : list tailSpan) (i m : nat) : list tailSpan :=
  match n with
  | O => take m a
  | S n =>
      match a !! i, a !! (m - 1)%nat with
      | Some s, Some last =>
          if start_ s <=? end_ last then
            if end_ s >? end_ last
            then merge_inplace n (<[(m - 1)%nat := mkSpan (start_ last) (end_ s)]> a) (S i) m
            else merge_inplace n a (S i) m
          else merge_inplace n (<[m := s]> a) (S i) (S m)
      | _, _ => take m a
      end
  end.

Definition tr_add (ranges : list tailSpan) (s e : Z) : list tailSpan :=
  if e <=? s then ranges
  else
    let sorted := sort_slice span_less (ranges ++ [mkSpan s e]) in
    merge_inplace (length sorted - 1) sorted 1 1.

Definition tr_covers (ranges : list tailSpan) (s e : Z) : bool :=
  if e <=? s then false
  else
    let i := sort_search (length ranges)
               (λ i, match ranges !! i with Some r => end_ r >? s | None => false end) in
    match ranges !! i with
    | Some r => (start_ r <=? s) && (end_ r >=? e)
    | None => false
    end.

(** ** Specification *)

Definition in_span (x : Z) (r : tailSpan) : Prop := start_ r ≤ x < end_ r.
Definition in_tail (x : Z) (l : list tailSpan) : Prop := ∃ r, r ∈ l ∧ in_span x r.

Definition tail_wf (l : list tailSpan) : Prop :=
  StronglySorted (λ a b, end_ a < start_ b) l ∧ Forall (λ r, start_ r < end_ r) l.

(** ** The in-place merge is the merge of a list *)

Fixpoint merge_spans (cur : tailSpan) (l : list tailSpan) : list tailSpan :=
  match l with
  | [] => [cur]
  | s :: l => if start_ s <=? end_ cur
              then merge_spans (mkSpan (start_ cur) (Z.max (end_ cur) (end_ s))) l
              else cur :: merge_spans s l
  end.

Lemma merge_inplace_spans l : ∀ a i m pre cur,
  drop i a = l → take m a = pre ++ [cur] → m = S (length pre) → (m ≤ i)%nat →
  merge_inplace (length l) a i m = pre ++ merge_spans cur l.
Proof.
  induction l as [|s l IH]; intros a i m pre cur Hd Ht Hm Hi; [by simpl|].
  assert (Hs : a !! i = Some s).
  { rewrite <-(Nat.add_0_r i), <-lookup_drop, Hd. done. }
  assert (Hil : (i < length a)%nat) by (by eapply lookup_lt_Some).
  assert (Hlast : a !! (m - 1)%nat = Some cur).
  { rewrite <-(lookup_take_lt a m (m - 1)) by lia. rewrite Ht, lookup_app_r by lia.
    replace (m - 1 - length pre)%nat with 0%nat by lia. done. }
  assert (Hd' : drop (S i) a = l).
  { replace (S i) with (i + 1)%nat by lia. rewrite <-drop_drop, Hd. done. }
  cbn [length merge_inplace merge_spans]. rewrite Hs, Hlast.
  assert (Hpre : take (length pre) a = pre).
  { pose proof (take_app_length pre [cur]) as Hp. rewrite <-Ht, take_take in Hp.
    by rewrite Nat.min_l in Hp by lia. }
  destruct (start_ s <=? end_ cur) eqn:E1; [destruct (end_ s >? end_ cur) eqn:E2|].
  - rewrite (Z.max_r (end_ cur) (end_ s)) by lia.
    apply IH; [|  |lia|lia].
    + by rewrite drop_insert_lt by lia.
    + subst m. replace (S (length pre) - 1)%nat with (length pre) by lia.
      rewrite (take_S_r _ _ (mkSpan (start_ cur) (end_ s))).
      * by rewrite take_insert_ge, Hpre by lia.
      * apply list_lookup_insert_eq. lia.
  - rewrite (Z.max_l (end_ cur) (end_ s)) by lia. destruct cur as [cs ce].
    apply IH; [done|done|lia|lia].
  - rewrite (IH _ (S i) (S m) (pre ++ [cur]) s); [by rewrite <-app_assoc| | |rewrite length_app; simpl; lia|lia].
    + by rewrite drop_insert_lt by lia.
    + rewrite (take_S_r _ _ s) by (apply list_lookup_insert_eq; lia).
      by rewrite take_insert_ge, Ht by lia.
Qed.

Lemma merge_spans_spec l : ∀ cur,
  StronglySorted (λ a b, span_less b a = false) (cur :: l) →
  Forall (λ r, start_ r < end_ r) (cur :: l) →
  tail_wf (merge_spans cur l) ∧
  (∀ r, r ∈ merge_spans cur l → start_ cur ≤ start_ r) ∧
  (∀ x, in_tail x (merge_spans cur l) ↔ in_tail x (cur :: l)).
Proof.
  induction l as [|s l IH]; intros cur Hs Hn.
  { simpl. split; [|split].
    - split; [repeat constructor|done].
    - intros r ->%list_elem_of_singleton. lia.
    - done. }
  apply StronglySorted_inv in Hs as [Hs Hcur].
  apply list.Forall_cons in Hcur as [Hcs Hcl].
  apply list.Forall_cons in Hn as [Hnc Hn]. apply list.Forall_cons in Hn as [Hns Hnl].
  unfold span_less in Hcs. bool_simpl. simpl.
  destruct (start_ s <=? end_ cur) eqn:E; bool_simpl.
  - apply StronglySorted_inv in Hs as [Hsl _].
    destruct (IH (mkSpan (start_ cur) (Z.max (end_ cur) (end_ s)))) as (Hw & Hlo & Hin).
    + constructor; [done|]. exact Hcl.
    + constructor; [simpl; lia|done].
    + split; [done|]. split; [done|]. intros x. rewrite Hin.
      split; intros (r & Hr & Hx); unfold in_span in *.
      * apply elem_of_cons in Hr as [->|Hr]; simpl in *.
        -- destruct (decide (x < end_ cur)).
           ++ exists cur. split; [by left|]. unfold in_span. lia.
           ++ exists s. split; [by right; left|]. unfold in_span. lia.
        -- exists r. split; [by right; right|done].
      * apply elem_of_cons in Hr as [->|Hr]; [|apply elem_of_cons in Hr as [->|Hr]].
        -- eexists. split; [by left|]. unfold in_span. simpl. lia.
        -- eexists. split; [by left|]. unfold in_span. simpl. lia.
        -- exists r. split; [by right|done].
  - destruct (IH s Hs) as (Hw & Hlo & Hin); [by constructor|].
    split; [|split].
    + destruct Hw as [Hw1 Hw2]. split; [|by constructor]. constructor; [done|].
      apply list.Forall_forall. intros r Hr. specialize (Hlo r Hr). lia.
    + intros r Hr. apply elem_of_cons in Hr as [->|Hr]; [lia|].
      specialize (Hlo r Hr). lia.
    + intros x. unfold in_tail. setoid_rewrite elem_of_cons at 1 2.
      split; intros (r & [->|Hr] & Hx).
      * exists cur. auto.
      * destruct (proj1 (Hin x)) as (r' & Hr' & Hx'); [by exists r|]. eauto.
      * exists cur. auto.
      * destruct (proj2 (Hin x)) as (r' & Hr' & Hx'); [by exists r|]. eauto.
Qed.

Lemma span_less_weak : strict_weak span_less.
Proof. unfold span_less. repeat split; intros; bool_simpl; lia. Qed.

Lemma tr_add_spec l s e :
  tail_wf l →
  tail_wf (tr_add l s e) ∧
  ∀ x, in_tail x (tr_add l s e) ↔ in_tail x l ∨ s ≤ x < e.
Proof.
  intros Hw. unfold tr_add. destruct (e <=? s) eqn:E; bool_simpl.
  { split; [done|]. intros x. split; [by left|]. intros [?|?]; [done|lia]. }
  pose proof (sort_slice_perm _ span_less (l ++ [mkSpan s e])) as Hp.
  pose proof (sort_slice_sorted _ span_less (l ++ [mkSpan s e]) span_less_weak) as Hss.
  destruct (sort_slice span_less (l ++ [mkSpan s e])) as [|cur rest] eqn:Hc.
  { apply Permutation_nil_l in Hp. by destruct l. }
  cbn zeta. replace (length (cur :: rest) - 1)%nat with (length rest) by (simpl; lia).
  rewrite (merge_inplace_spans rest (cur :: rest) 1 1 [] cur) by done. simpl.
  destruct (merge_spans_spec rest cur Hss) as (Hw' & _ & Hin).
  { rewrite Hp. apply list.Forall_app. split; [apply Hw|]. repeat constructor. simpl. lia. }
  split; [done|]. intros x. rewrite Hin. unfold in_tail.
  setoid_rewrite Hp. setoid_rewrite elem_of_app. setoid_rewrite list_elem_of_singleton.
  split.
  - intros (r & [Hr| ->] & Hx); [left; eauto|right; exact Hx].
  - intros [(r & Hr & Hx)|Hx]; [eauto|]. exists (mkSpan s e). auto.
Qed.

Lemma tr_covers_spec l s e :
  tail_wf l → tr_covers l s e = true ↔ s < e ∧ ∀ x, s ≤ x < e → in_tail x l.
Proof.
  intros [Hw Hn]. unfold tr_covers. destruct (e <=? s) eqn:E; bool_simpl.
  { split; [done|lia]. }
  set (f := λ i, match l !! i with Some r => end_ r >? s | None => false end).
  assert (Hord : ∀ i j a b, (i < j)%nat → l !! i = Some a → l !! j = Some b → end_ a < start_ b)
    by (intros; by eapply (sorted_lookup _ _ Hw)).
  assert (Hpos : ∀ i a, l !! i = Some a → start_ a < end_ a).
  { intros i a Ha. eapply (list.Forall_lookup_1 _ _ _ _ Hn Ha). }
  assert (Hm : monotone (length l) f).
  { intros i j Hij. unfold f.
    destruct (lookup_lt_is_Some_2 l j) as [b Hb]; [lia|].
    destruct (lookup_lt_is_Some_2 l i) as [a Ha]; [lia|]. rewrite Ha, Hb.
    destruct (decide (i = j)) as [->|Hne]; [by simplify_eq|].
    pose proof (Hord i j a b ltac:(lia) Ha Hb). pose proof (Hpos j b Hb).
    rewrite !Z.gtb_lt. lia. }
  destruct (sort_search_spec _ _ Hm) as (Hr & Hlo & Hhi).
  set (r := sort_search (length l) f) in *.
  split.
  - destruct (l !! r) as [a|] eqn:Ha; [|done]. intros Hb. apply andb_true_iff in Hb as [? ?].
    split; [lia|]. intros x Hx. exists a. split; [by eapply list_elem_of_lookup_2|].
    unfold in_span. lia.
  - intros [_ Hall]. destruct (Hall s ltac:(lia)) as (c & Hc & Hcs). unfold in_span in Hcs.
    apply list_elem_of_lookup in Hc as [k Hk].
    assert (Hkr : (r ≤ k)%nat).
    { destruct (decide (r ≤ k)%nat); [done|]. specialize (Hlo k ltac:(lia)).
      unfold f in Hlo. rewrite Hk in Hlo. lia. }
    assert (Hkl := lookup_lt_Some _ _ _ Hk).
    destruct (lookup_lt_is_Some_2 l r) as [a Ha]; [lia|]. rewrite Ha.
    specialize (Hhi r ltac:(lia)). unfold f in Hhi. rewrite Ha in Hhi.
    assert (r = k) as ->.
    { destruct (decide (r = k)); [done|].
      pose proof (Hord r k a c ltac:(lia) Ha Hk). lia. }
    simplify_eq. destruct (decide (e ≤ end_ c)) as [|Hgt]; [apply andb_true_iff; lia|].
    destruct (Hall (end_ c) ltac:(lia)) as (d & Hd & Hds). unfold in_span in Hds.
    apply list_elem_of_lookup in Hd as [j Hj].
    destruct (lt_eq_lt_dec j k) as [[?| ->]|?].
    + pose proof (Hord j k d c ltac:(lia) Hj Hk). lia.
    + simplify_eq. lia.
    + pose proof (Hord k j c d ltac:(lia) Hk Hj). lia.
Qed.

Lemma tail_wf_nil : tail_wf [].
Proof. split; constructor. Qed.

Lemma in_tail_nil x : in_tail x [] ↔ False.
Proof. split; [|done]. by intros (r & ?%elem_of_nil & _). Qed.

Lemma tr_adds_spec (adds : list (Z * Z)) l :
  tail_wf l →
  tail_wf (foldl (λ tr p, tr_add tr p.1 p.2) l adds) ∧
  ∀ x, in_tail x (foldl (λ tr p, tr_add tr p.1 p.2) l adds) ↔
       in_tail x l ∨ ∃ p, p ∈ adds ∧ p.1 ≤ x < p.2.
Proof.
  revert l. induction adds as [|p adds IH]; intros l Hw; cbn [foldl].
  { split; [done|]. intros x. split; [by left|]. by intros [?|(? & ?%elem_of_nil & _)]. }
  destruct (tr_add_spec l p.1 p.2 Hw) as [Hw' Hin].
  destruct (IH _ Hw') as [Hw'' Hin']. split; [done|]. intros x.
  rewrite Hin', Hin. setoid_rewrite elem_of_cons. naive_solver.
Qed.

(** After any sequence of [add] calls, in any order and with any overlap, a
    range is reported covered exactly when it is non-empty and every one of its
    bytes lies in some added interval: no hole is ever taken for data, and no
    written range is missed. *)
Theorem tail_coverage_exact (adds : list (Z * Z)) (s e : Z) :
  tr_covers (foldl (λ tr p, tr_add tr p.1 p.2) [] adds) s e = true ↔
  s < e ∧ ∀ x, s ≤ x < e → ∃ p, p ∈ adds ∧ p.1 ≤ x < p.2.
Proof.
  destruct (tr_adds_spec adds [] tail_wf_nil) as [Hw Hin].
  rewrite tr_covers_spec by done. setoid_rewrite Hin. setoid_rewrite in_tail_nil.
  naive_solver.
Qed.
End tail_range.

#[global] Arguments tr_add : simpl never.
#[global] Arguments tr_covers : simpl never.
