(* ===== verification/Warmup.v ===== *)
(** * The disk warm-up cache (internal/warmup/warmup.go)

    Head files hold the first [FileSize] bytes of a streamed file and must stay
    dense; tail files hold its last 16 MB and are sparse, their written ranges
    tracked in memory only.  The directory is a map from names to inodes, so
    that a handle and a name can part; a read or write through a handle goes to
    its inode.  What the operating system decides (a create, an open, a write
    cut short, a remove that fails) is the [Io] argument of each operation, and
    the clock is its [now].  An operation runs as one step; logging is left out.

    Paths are names inside [d.dir].  The specification is the byte sequence of
    the torrent's files, [source]: whatever the order of the operations, a read
    returns bytes of [source] at the offset asked for, or nothing. *)

From Stdlib Require Import Ascii String.
From S2P Require Import Prelude GoStrings TailRange.
Local Open Scope string_scope.
Local Open Scope Z_scope.
Local Open Scope go_scope.

Abbreviation byte := Byte.byte.

(** ** Constants and configuration *)

Definition TailWarmupSize : Z := 16 * 1024 * 1024.
Definition warmupQuota : Z := 32 * 1024 * 1024 * 1024.
Definition warmupSuffix : string := ".warmup".
Definition tailSuffix : string := ".warmup-tail".
Definition handleIdleMax : Z := 30 * 1000000000.
Definition missingTTL : Z := 10 * 1000000000.
Definition sizeTTL : Z := 10 * 1000000000.
Definition headReadyFloor : Z := 1048576.
Definition tailFillChunk : Z := 1024 * 1024.
Definition writeChCap : Z := 32.

Record Config := mkConfig {
  FileSize : Z;
  diskQuotaGB : Z;
  hook : bool
}.

(** ** The file system *)

Record File := mkFile { f_data : list byte; f_mod : Z }.

Record Disk := mkDisk {
  names : gmap string nat;
  inodes : gmap nat File;
  nextIno : nat;
  marker : bool
}.

(** What the operating system answers during one operation: [None] for a write
    or read that completes, [Some k] for one that fails after [k] bytes. *)
Record Io := mkIo {
  create_ok : bool;
  open_ok : bool;
  write_fail : option Z;
  read_fail : option Z;
  remove_ok : string → bool
}.

Definition io_fine : Io := mkIo true true None None (λ _, true).

Definition stat (p : string) (k : Disk) : option File :=
  names k !! p ≫= λ i, inodes k !! i.

Definition create (p : string) (now : Z) (k : Disk) : Disk :=
  mkDisk (<[p := nextIno k]> (names k)) (<[nextIno k := mkFile [] now]> (inodes k))
    (S (nextIno k)) (marker k).

Definition unlink (p : string) (k : Disk) : Disk :=
  mkDisk (delete p (names k)) (inodes k) (nextIno k) (marker k).

(** [pwrite]: a gap below [off] reads back as zeros. *)
Definition write_at (l : list byte) (off : Z) (d : list byte) : list byte :=
  if len d =? 0 then l
  else
    let l' := (l ++ replicate (Z.to_nat (off - len l)) Byte.x00)%list in
    (take (Z.to_nat off) l' ++ d ++ drop (Z.to_nat (off + len d)) l')%list.

Definition fwrite (ino : nat) (off : Z) (d : list byte) (now : Z) (k : Disk) : Disk :=
  mkDisk (names k) (alter (λ f, mkFile (write_at (f_data f) off d) now) ino (inodes k))
    (nextIno k) (marker k).

Inductive read_err := RNil | REOF | RFail.

(** [File.WriteAt]: the bytes written and whether it failed. *)
Definition WriteAt (io : Io) (ino : nat) (d : list byte) (off now : Z) (k : Disk)
    : Z * bool * Disk :=
  if off <? 0 then (0, true, k)
  else
    match write_fail io with
    | None => (len d, false, fwrite ino off d now k)
    | Some n => let d := take (Z.to_nat n) d in (len d, true, fwrite ino off d now k)
    end.

(** [File.ReadAt] into a buffer of [n] bytes: the bytes read, the error. *)
Definition file_ReadAt (io : Io) (ino : nat) (n off : Z) (k : Disk) : list byte * read_err :=
  if off <? 0 then ([], RFail)
  else
    let l := from_option f_data [] (inodes k !! ino) in
    let got := take (Z.to_nat n) (drop (Z.to_nat off) l) in
    match read_fail io with
    | Some m => (take (Z.to_nat m) got, RFail)
    | None => (got, if len got <? n then REOF else RNil)
    end.

(** ** State *)

Record warmupWrite := mkWrite { w_hash : string; w_fileID : Z; w_data : list byte; w_off : Z }.
Record cachedHandle := mkHandle { h_ino : nat; lastUsedNano : Z; closed : bool }.
Record sizeEntry := mkSize { size : Z; updatedAt : Z }.

Record DiskWarmupCache := mkWarm {
  totalSize : Z;
  missing : gmap string Z;
  handles : gmap string cachedHandle;
  sizeCache : gmap string sizeEntry;
  tailCoverage : gmap string (list tailSpan);
  tailFills : gset string;
  warmupStarts : gmap string Z;
  writeCh : list warmupWrite;
  durationBuckets : list Z;
  stateEvents : list (string * Z * bool);
  disk : Disk
}.

Definition set_totalSize (x : Z) (d : DiskWarmupCache) : DiskWarmupCache :=
  mkWarm x (missing d) (handles d) (sizeCache d) (tailCoverage d) (tailFills d) (warmupStarts d) (writeCh d) (durationBuckets d) (stateEvents d) (disk d).
Definition set_missing (x : gmap string Z) (d : DiskWarmupCache) : DiskWarmupCache :=
  mkWarm (totalSize d) x (handles d) (sizeCache d) (tailCoverage d) (tailFills d) (warmupStarts d) (writeCh d) (durationBuckets d) (stateEvents d) (disk d).
Definition set_handles (x : gmap string cachedHandle) (d : DiskWarmupCache) : DiskWarmupCache :=
  mkWarm (totalSize d) (missing d) x (sizeCache d) (tailCoverage d) (tailFills d) (warmupStarts d) (writeCh d) (durationBuckets d) (stateEvents d) (disk d).
Definition set_sizeCache (x : gmap string sizeEntry) (d : DiskWarmupCache) : DiskWarmupCache :=
  mkWarm (totalSize d) (missing d) (handles d) x (tailCoverage d) (tailFills d) (warmupStarts d) (writeCh d) (durationBuckets d) (stateEvents d) (disk d).
Definition set_tailCoverage (x : gmap string (list tailSpan)) (d : DiskWarmupCache) : DiskWarmupCache :=
  mkWarm (totalSize d) (missing d) (handles d) (sizeCache d) x (tailFills d) (warmupStarts d) (writeCh d) (durationBuckets d) (stateEvents d) (disk d).
Definition set_tailFills (x : gset string) (d : DiskWarmupCache) : DiskWarmupCache :=
  mkWarm (totalSize d) (missing d) (handles d) (sizeCache d) (tailCoverage d) x (warmupStarts d) (writeCh d) (durationBuckets d) (stateEvents d) (disk d).
Definition set_warmupStarts (x : gmap string Z) (d : DiskWarmupCache) : DiskWarmupCache :=
  mkWarm (totalSize d) (missing d) (handles d) (sizeCache d) (tailCoverage d) (tailFills d) x (writeCh d) (durationBuckets d) (stateEvents d) (disk d).
Definition set_writeCh (x : list warmupWrite) (d : DiskWarmupCache) : DiskWarmupCache :=
  mkWarm (totalSize d) (missing d) (handles d) (sizeCache d) (tailCoverage d) (tailFills d) (warmupStarts d) x (durationBuckets d) (stateEvents d) (disk d).
Definition set_durationBuckets (x : list Z) (d : DiskWarmupCache) : DiskWarmupCache :=
  mkWarm (totalSize d) (missing d) (handles d) (sizeCache d) (tailCoverage d) (tailFills d) (warmupStarts d) (writeCh d) x (stateEvents d) (disk d).
Definition set_stateEvents (x : list (string * Z * bool)) (d : DiskWarmupCache) : DiskWarmupCache :=
  mkWarm (totalSize d) (missing d) (handles d) (sizeCache d) (tailCoverage d) (tailFills d) (warmupStarts d) (writeCh d) (durationBuckets d) x (disk d).
Definition set_disk (x : Disk) (d : DiskWarmupCache) : DiskWarmupCache :=
  mkWarm (totalSize d) (missing d) (handles d) (sizeCache d) (tailCoverage d) (tailFills d) (warmupStarts d) (writeCh d) (durationBuckets d) (stateEvents d) x.

(** ** Names *)

Definition filePath (hash : string) (fileID : Z) : string :=
  hash +:+ "-" +:+ itoa fileID +:+ warmupSuffix.
Definition tailPath (hash : string) (fileID : Z) : string :=
  hash +:+ "-" +:+ itoa fileID +:+ tailSuffix.

Fixpoint HasSuffix (s suf : string) : bool :=
  String.eqb s suf || match s with "" => false | String _ s' => HasSuffix s' suf end.
Definition HasPrefix (s pre : string) : bool := String.prefix pre s.

(** ** Operations *)

Section ops.
Context `{GoRuntime} (cfg : Config).

(** [recordWarmupDuration]: [d.Seconds()] is compared with whole seconds. *)
Definition duration_bucket (d : Z) : nat :=
  if d <? 2000000000 then 0 else if d <? 5000000000 then 1
  else if d <? 10000000000 then 2 else if d <? 15000000000 then 3
  else if d <? 30000000000 then 4 else if d <? 60000000000 then 5
  else if d <? 120000000000 then 6 else 7%nat.

Definition recordWarmupDuration (d : Z) (st : DiskWarmupCache) : DiskWarmupCache :=
  set_durationBuckets (alter (λ n, n +! 1) (duration_bucket d) (durationBuckets st)) st.

Definition complete (tr : list tailSpan) : bool := tr_covers tr 0 TailWarmupSize.

(** [os.Remove] *)
Definition os_Remove (io : Io) (p : string) (st : DiskWarmupCache) : DiskWarmupCache :=
  if remove_ok io p then set_disk (unlink p (disk st)) st else st.

Definition touch (now : Z) (h : cachedHandle) : cachedHandle :=
  mkHandle (h_ino h) now (closed h).

Definition getHandle (io : Io) (now : Z) (path : string) (st : DiskWarmupCache)
    : option cachedHandle * DiskWarmupCache :=
  match handles st !! path with
  | Some h => (Some (touch now h), set_handles (<[path := touch now h]> (handles st)) st)
  | None =>
      match names (disk st) !! path with
      | Some ino =>
          if open_ok io
          then let h := mkHandle ino now false in
               (Some h, set_handles (<[path := h]> (handles st)) st)
          else (None, st)
      | None => (None, st)
      end
  end.

Definition closeHandle (path : string) (st : DiskWarmupCache) : DiskWarmupCache :=
  set_warmupStarts (delete path (warmupStarts st))
    (set_handles (delete path (handles st)) st).

Definition dropResidue (io : Io) (now : Z) (path : string) (st : DiskWarmupCache)
    : DiskWarmupCache :=
  if negb (HasSuffix path warmupSuffix) then st
  else if decide (is_Some (handles st !! path)) then st
  else
    match stat path (disk st) with
    | None => st
    | Some f =>
        if len (f_data f) >=? headReadyFloor then st
        else
          let st := set_sizeCache (delete path (sizeCache st)) st in
          let st := if remove_ok io path
                    then set_totalSize (totalSize st -! len (f_data f)) (os_Remove io path st)
                    else st in
          set_missing (<[path := now]> (missing st)) st
    end.

Definition reap_one (io : Io) (now max : Z) (st : DiskWarmupCache) (e : string * cachedHandle)
    : DiskWarmupCache :=
  let '(path, ch) := e in
  if now -! lastUsedNano ch <=? max then st
  else
    match handles st !! path with
    | None => st
    | Some ac =>
        if now -! lastUsedNano ac <? max then st
        else dropResidue io now path (closeHandle path st)
    end.

Definition reapIdle (io : Io) (now max : Z) (st : DiskWarmupCache) : DiskWarmupCache :=
  foldl (reap_one io now max) st (map_range (handles st)).

(** [WriteChunk]: the send never blocks, a full queue drops the chunk. *)
Definition WriteChunk (hash : string) (fileID : Z) (data : list byte) (off : Z)
    (st : DiskWarmupCache) : DiskWarmupCache :=
  if off >? FileSize cfg then st
  else if len (writeCh st) <? writeChCap
  then set_writeCh (writeCh st ++ [mkWrite hash fileID data off])%list st
  else st.

Definition headSize (path : string) (st : DiskWarmupCache) : Z :=
  match sizeCache st !! path with
  | Some e => size e
  | None => match stat path (disk st) with Some f => len (f_data f) | None => 0 end
  end.

(** The directory as [os.ReadDir] lists it. *)
Definition ReadDir (k : Disk) : list (string * File) :=
  omap (λ '(p, ino), f ← inodes k !! ino; Some (p, f)) (map_range (names k)).

Definition is_warm (name : string) : bool := HasSuffix name warmupSuffix || HasSuffix name tailSuffix.

Definition Unix (ns : Z) : Z := ns / 1000000000.

Definition older (a b : string * File) : bool := Unix (f_mod a.2) <? Unix (f_mod b.2).

Definition fsize (e : string * File) : Z := len (f_data e.2).

(** One file dropped by the quota or with its torrent. *)
Definition drop_file (io : Io) (path : string) (st : DiskWarmupCache) : DiskWarmupCache :=
  let st := closeHandle path st in
  let st := set_sizeCache (delete path (sizeCache st)) st in
  let st := set_tailCoverage (delete path (tailCoverage st)) st in
  os_Remove io path st.

Fixpoint quota_loop (io : Io) (quota needed : Z) (files : list (string * File)) (diskTotal : Z)
    (st : DiskWarmupCache) : Z * DiskWarmupCache :=
  match files with
  | [] => (diskTotal, st)
  | e :: files =>
      if diskTotal +! needed <=? quota then (diskTotal, st)
      else quota_loop io quota needed files (diskTotal -! fsize e) (drop_file io e.1 st)
  end.

Definition quota_of : Z :=
  if diskQuotaGB cfg >? 0 then diskQuotaGB cfg *! 1024 *! 1024 *! 1024 else warmupQuota.

Definition warm_files (k : Disk) : list (string * File) :=
  filter (λ e, is_warm e.1 = true) (ReadDir k).

Definition enforceQuotaLocked (io : Io) (needed : Z) (st : DiskWarmupCache) : DiskWarmupCache :=
  let quota := quota_of in
  if totalSize st +! needed <=? quota then st
  else
    let files := warm_files (disk st) in
    let diskTotal := foldl (λ t e, t +! fsize e) 0 files in
    let st := set_totalSize diskTotal st in
    if diskTotal +! needed <=? quota then st
    else
      let '(diskTotal, st) := quota_loop io quota needed (sort_slice older files) diskTotal st in
      set_totalSize diskTotal st.

(** The file is created, its handle cached and its start announced; [false] is
    the failed open. *)
Definition start_head (io : Io) (now : Z) (hash : string) (fileID : Z) (st : DiskWarmupCache)
    : bool * DiskWarmupCache :=
  let path := filePath hash fileID in
  match stat path (disk st) with
  | Some _ => (true, st)
  | None =>
      let st := enforceQuotaLocked io (FileSize cfg) st in
      let st := set_missing (delete path (missing st)) st in
      if create_ok io then
        let ino := nextIno (disk st) in
        let st := set_disk (create path now (disk st)) st in
        let st := set_handles (<[path := mkHandle ino now false]> (handles st)) st in
        let st := set_warmupStarts (<[path := now]> (warmupStarts st)) st in
        (true, if hook cfg
               then set_stateEvents (stateEvents st ++ [(hash, fileID, true)])%list st else st)
      else (false, st)
  end.

(** The completion branch of [processWrite]. *)
Definition finish_head (now : Z) (hash : string) (fileID : Z) (st : DiskWarmupCache)
    : DiskWarmupCache :=
  let path := filePath hash fileID in
  let st := match warmupStarts st !! path with
            | Some t => recordWarmupDuration (now - t)
                          (set_warmupStarts (delete path (warmupStarts st)) st)
            | None => st
            end in
  if hook cfg then set_stateEvents (stateEvents st ++ [(hash, fileID, false)])%list st else st.

(** The write and the accounting that follows it. *)
Definition write_head (io : Io) (now : Z) (hash : string) (fileID : Z) (data : list byte)
    (off prevSize : Z) (st : DiskWarmupCache) : DiskWarmupCache :=
  let path := filePath hash fileID in
  match getHandle io now path st with
  | (None, st) => st
  | (Some ch, st) =>
      if closed ch then st
      else
        let '(n, failed, k) := WriteAt io (h_ino ch) data off now (disk st) in
        let st := set_disk k st in
        if failed : bool then st
        else
          let st := set_missing (delete path (missing st)) st in
          let currentSize := off +! n in
          let '(currentSize, st) :=
            if currentSize >? prevSize
            then (currentSize, set_totalSize (totalSize st +! (currentSize -! prevSize)) st)
            else (prevSize, st) in
          let st := set_sizeCache (<[path := mkSize currentSize now]> (sizeCache st)) st in
          if off +! n >=? FileSize cfg then finish_head now hash fileID st else st
  end.

(** The head is already complete: [true] with the state the check leaves. *)
Definition head_full (now : Z) (path : string) (st : DiskWarmupCache) : bool * DiskWarmupCache :=
  match sizeCache st !! path with
  | Some e => (size e >? FileSize cfg, st)
  | None =>
      match stat path (disk st) with
      | Some f =>
          if len (f_data f) >? FileSize cfg
          then (true, set_sizeCache (<[path := mkSize (len (f_data f)) now]> (sizeCache st)) st)
          else (false, st)
      | None => (false, st)
      end
  end.

Definition processWrite (io : Io) (now : Z) (hash : string) (fileID : Z) (data : list byte)
    (off : Z) (st : DiskWarmupCache) : DiskWarmupCache :=
  if off >? FileSize cfg then st
  else
    let data := if (off <? FileSize cfg) && (off +! len data >? FileSize cfg)
                then take (Z.to_nat (FileSize cfg -! off)) data else data in
    let path := filePath hash fileID in
    match head_full now path st with
    | (true, st) => st
    | (false, st) =>
        let prevSize := headSize path st in
        if off >? prevSize then st
        else
          match start_head io now hash fileID st with
          | (false, st) => st
          | (true, st) => write_head io now hash fileID data off prevSize st
          end
    end.

(** One turn of [writeWorker]. *)
Definition writeWorker (io : Io) (now : Z) (st : DiskWarmupCache) : DiskWarmupCache :=
  match writeCh st with
  | [] => st
  | w :: rest =>
      processWrite io now (w_hash w) (w_fileID w) (w_data w) (w_off w) (set_writeCh rest st)
  end.

(** [GetAvailableRange] past the negative cache. *)
Definition avail_lookup (io : Io) (now : Z) (path : string) (st : DiskWarmupCache)
    : Z * DiskWarmupCache :=
  let probe :=
    match stat path (disk st) with
    | None => (0, set_missing (<[path := now]> (missing st)) st)
    | Some f =>
        let n := len (f_data f) in
        if n >? FileSize cfg +! 16 * 1024 * 1024 then
          let st := closeHandle path st in
          let st := set_sizeCache (delete path (sizeCache st)) st in
          let st := os_Remove io path st in
          (0, set_missing (<[path := now]> (missing st)) st)
        else (n, set_sizeCache (<[path := mkSize n now]> (sizeCache st)) st)
    end in
  match sizeCache st !! path with
  | Some e => if now - updatedAt e <? sizeTTL then (size e, st) else probe
  | None => probe
  end.

Definition GetAvailableRange (io : Io) (now : Z) (hash : string) (fileID : Z)
    (st : DiskWarmupCache) : Z * DiskWarmupCache :=
  let path := filePath hash fileID in
  match missing st !! path with
  | Some t =>
      if now - t <? missingTTL then (0, st)
      else avail_lookup io now path (set_missing (delete path (missing st)) st)
  | None => avail_lookup io now path st
  end.

Definition HeadReady (io : Io) (now : Z) (hash : string) (fileID : Z) (st : DiskWarmupCache)
    : bool * DiskWarmupCache :=
  let '(n, st) := GetAvailableRange io now hash fileID st in (n >=? headReadyFloor, st).

Definition TailReady (hash : string) (fileID : Z) (st : DiskWarmupCache) : bool :=
  match tailCoverage st !! tailPath hash fileID with
  | Some tr => complete tr
  | None => false
  end.

Definition tailRangeFor (path : string) (st : DiskWarmupCache) : list tailSpan * DiskWarmupCache :=
  match tailCoverage st !! path with
  | Some tr => (tr, st)
  | None => ([], set_tailCoverage (<[path := []]> (tailCoverage st)) st)
  end.

(** [ReadAt] into a buffer of [blen] bytes. *)
Definition ReadAt (io : Io) (now : Z) (hash : string) (fileID blen off : Z)
    (st : DiskWarmupCache) : list byte * read_err * DiskWarmupCache :=
  if off >? FileSize cfg then ([], RNil, st)
  else
    let path := filePath hash fileID in
    match getHandle io now path st with
    | (None, st) => ([], RNil, st)
    | (Some ch, st) =>
        let '(availSize, st) := GetAvailableRange io now hash fileID st in
        if off >=? availSize then ([], RNil, st)
        else
          let avail := availSize -! off in
          let blen := if blen >? avail then avail else blen in
          let '(got, err) := file_ReadAt io (h_ino ch) blen off (disk st) in
          (got, err, st)
    end.

Definition tail_start (fileSize : Z) : Z :=
  let s := fileSize -! TailWarmupSize in if s <? 0 then 0 else s.

(** The create and the write of [WriteTail]. *)
Definition start_tail (io : Io) (now : Z) (path : string) (st : DiskWarmupCache)
    : bool * DiskWarmupCache :=
  match stat path (disk st) with
  | Some _ => (true, st)
  | None =>
      let st := set_missing (delete path (missing st)) st in
      if create_ok io then
        let ino := nextIno (disk st) in
        let st := set_disk (create path now (disk st)) st in
        (true, set_handles (<[path := mkHandle ino now false]> (handles st)) st)
      else (false, st)
  end.

Definition write_tail (io : Io) (now : Z) (path : string) (data : list byte) (rel : Z)
    (tr : list tailSpan) (st : DiskWarmupCache) : DiskWarmupCache :=
  match getHandle io now path st with
  | (None, st) => st
  | (Some ch, st) =>
      if closed ch then st
      else
        let '(n, _, k) := WriteAt io (h_ino ch) data rel now (disk st) in
        let st := set_disk k st in
        if n <=? 0 then st
        else
          let st := set_sizeCache (<[path := mkSize (rel +! n) now]> (sizeCache st)) st in
          set_tailCoverage (<[path := tr_add tr rel (rel +! n)]> (tailCoverage st)) st
  end.

Definition WriteTail (io : Io) (now : Z) (hash : string) (fileID : Z) (data : list byte)
    (absoluteOffset fileSize : Z) (st : DiskWarmupCache) : DiskWarmupCache :=
  let path := tailPath hash fileID in
  let tailStart := tail_start fileSize in
  if absoluteOffset <? tailStart then st
  else
    let tailLen := fileSize -! tailStart in
    let rel := absoluteOffset -! tailStart in
    if rel >=? tailLen then st
    else
      let data := if rel +! len data >? tailLen
                  then take (Z.to_nat (tailLen -! rel)) data else data in
      if len data =? 0 then st
      else
        let '(tr, st) := tailRangeFor path st in
        if complete tr then st
        else
          match start_tail io now path st with
          | (false, st) => st
          | (true, st) => write_tail io now path data rel tr st
          end.

Definition ReadTail (io : Io) (now : Z) (hash : string) (fileID blen absoluteOffset fileSize : Z)
    (st : DiskWarmupCache) : list byte * read_err * DiskWarmupCache :=
  let tailStart := tail_start fileSize in
  if absoluteOffset <? tailStart then ([], RNil, st)
  else
    let tailLen := fileSize -! tailStart in
    let rel := absoluteOffset -! tailStart in
    let path := tailPath hash fileID in
    let readEnd := if rel +! blen >? tailLen then tailLen else rel +! blen in
    match tailCoverage st !! path with
    | None => ([], RNil, st)
    | Some tr =>
        if tr_covers tr rel readEnd then
          match getHandle io now path st with
          | (None, st) => ([], RNil, st)
          | (Some ch, st) =>
              let '(got, err) := file_ReadAt io (h_ino ch) blen rel (disk st) in
              (got, err, st)
          end
        else ([], RNil, st)
    end.

Definition remove_one (io : Io) (hash : string) (st : DiskWarmupCache) (e : string * File)
    : DiskWarmupCache :=
  if HasPrefix e.1 (hash +:+ "-") && is_warm e.1
  then drop_file io e.1 (set_totalSize (totalSize st -! fsize e) st)
  else st.

Definition RemoveHash (io : Io) (hash : string) (st : DiskWarmupCache) : DiskWarmupCache :=
  foldl (remove_one io hash) st (ReadDir (disk st)).

(** ** Start *)

Record scan := mkScan { s_total : Z; s_dropped : Z; s_residues : Z; s_disk : Disk }.

Definition scan_remove (io : Io) (p : string) (k : Disk) : Disk :=
  if remove_ok io p then unlink p k else k.

Definition scan_one (io : Io) (dropHeads : bool) (s : scan) (e : string * File) : scan :=
  let '(name, f) := e in
  if HasSuffix name tailSuffix || (dropHeads && HasSuffix name warmupSuffix) then
    mkScan (s_total s) (if remove_ok io name then s_dropped s +! 1 else s_dropped s)
      (s_residues s) (scan_remove io name (s_disk s))
  else if HasSuffix name warmupSuffix then
    if len (f_data f) <? headReadyFloor then
      mkScan (s_total s) (s_dropped s)
        (if remove_ok io name then s_residues s +! 1 else s_residues s)
        (scan_remove io name (s_disk s))
    else mkScan (s_total s +! len (f_data f)) (s_dropped s) (s_residues s) (s_disk s)
  else s.

Definition scanExisting (io : Io) (dropHeads : bool) (k : Disk) : scan :=
  foldl (scan_one io dropHeads) (mkScan 0 0 0 k) (ReadDir k).

(** [InitDiskWarmup] once the settings are there: the cache starts with the
    files a previous process left, and the marker records the migration. *)
Definition InitDiskWarmup (io : Io) (k : Disk) : DiskWarmupCache :=
  let dropHeads := negb (marker k) in
  let s := scanExisting io dropHeads k in
  let k := s_disk s in
  let k := if dropHeads && create_ok io
           then mkDisk (names k) (inodes k) (nextIno k) true else k in
  mkWarm (s_total s) ∅ ∅ ∅ ∅ ∅ ∅ [] (replicate 8 0) [] k.

(** ** The sequential fill *)

(** The guards of [EnsureTail]: [true] when a fill is started. *)
Definition EnsureTail (fetch_set : bool) (hash : string) (fileID fileSize : Z)
    (st : DiskWarmupCache) : bool * DiskWarmupCache :=
  if negb fetch_set || String.eqb hash "" || (fileSize <=? 0) then (false, st)
  else if TailReady hash fileID st then (false, st)
  else
    let path := tailPath hash fileID in
    if decide (path ∈ tailFills st) then (false, st)
    else (true, set_tailFills ({[path]} ∪ tailFills st) st).

Inductive fill_end := FillDone | FillStopped | OutOfFuel.

(** The goroutine's loop.  [TailFetch] is code of the bridge: [fetch k off n] is
    its answer to the request made with [k] turns of fuel left, and [ios k] what
    the system does during the write of that turn. *)
Fixpoint fill_loop (fuel : nat) (fetch : nat → Z → Z → option (list byte)) (ios : nat → Io)
    (now : Z) (hash : string) (fileID fileSize rel : Z) (st : DiskWarmupCache)
    : fill_end * DiskWarmupCache :=
  match fuel with
  | O => (OutOfFuel, st)
  | S fuel =>
      let tailStart := tail_start fileSize in
      let tailLen := fileSize -! tailStart in
      if rel <? tailLen then
        let e := if rel +! tailFillChunk >? tailLen then tailLen else rel +! tailFillChunk in
        let '(tr, st) := tailRangeFor (tailPath hash fileID) st in
        if tr_covers tr rel e
        then fill_loop fuel fetch ios now hash fileID fileSize e st
        else
          match fetch fuel (tailStart +! rel) (e -! rel) with
          | None => (FillStopped, st)
          | Some bs =>
              if len bs <=? 0 then (FillStopped, st)
              else
                let st := WriteTail (ios fuel) now hash fileID bs (tailStart +! rel) fileSize st in
                fill_loop fuel fetch ios now hash fileID fileSize (rel +! len bs) st
          end
      else (FillDone, st)
  end.

(** The whole goroutine, which gives its slot back however it ends. *)
Definition run_fill (fuel : nat) (fetch : nat → Z → Z → option (list byte)) (ios : nat → Io)
    (now : Z) (hash : string) (fileID fileSize : Z) (st : DiskWarmupCache)
    : fill_end * DiskWarmupCache :=
  let '(r, st) := fill_loop fuel fetch ios now hash fileID fileSize 0 st in
  (r, set_tailFills (tailFills st ∖ {[tailPath hash fileID]}) st).
End ops.

(** ** Names are distinct *)

Lemma filePath_split h i : filePath h i = h +:+ String "-" (itoa i +:+ warmupSuffix).
Proof. done. Qed.

Lemma tailPath_filePath h i : tailPath h i = filePath h i +:+ "-tail".
Proof. unfold tailPath, filePath. rewrite !append_assoc. done. Qed.

Lemma filePath_inj h i h' i' :
  0 ≤ i → 0 ≤ i' → filePath h i = filePath h' i' → h = h' ∧ i = i'.
Proof.
  intros Hi Hi'. rewrite !filePath_split. intros E.
  apply split_last_inj in E as [-> E].
  - split; [done|]. apply itoa_inj. by apply append_inj_r in E.
  - by rewrite has_char_append, itoa_no_dash.
  - by rewrite has_char_append, itoa_no_dash.
Qed.

Lemma tailPath_inj h i h' i' :
  0 ≤ i → 0 ≤ i' → tailPath h i = tailPath h' i' → h = h' ∧ i = i'.
Proof. intros Hi Hi'. rewrite !tailPath_filePath. intros E%append_inj_r. by apply filePath_inj. Qed.

Lemma HasSuffix_spec s suf : HasSuffix s suf = true ↔ ∃ p, s = p +:+ suf.
Proof.
  induction s as [|c s IH]; cbn [HasSuffix].
  - rewrite orb_false_r, String.eqb_eq. split; [intros <-; by exists ""|].
    intros [[|] E]; [done|discriminate E].
  - rewrite orb_true_iff, String.eqb_eq, IH. split.
    + intros [<-|[p ->]]; [by exists ""|by exists (String c p)].
    + intros [[|d p] E]; [by left|right]. injection E as -> E. eauto.
Qed.

Lemma head_tail_suffix s : HasSuffix s warmupSuffix = true → HasSuffix s tailSuffix = true → False.
Proof.
  rewrite !HasSuffix_spec. intros [p ->] [q E].
  change warmupSuffix with (".warmu" +:+ String "p" "") in E.
  change tailSuffix with (".warmup-tai" +:+ String "l" "") in E.
  rewrite <-!append_assoc in E. by apply append_cons_nil_inj in E as [_ E].
Qed.

Lemma filePath_suffix h i : HasSuffix (filePath h i) warmupSuffix = true.
Proof.
  apply HasSuffix_spec. exists (h +:+ "-" +:+ itoa i). unfold filePath. by rewrite !append_assoc.
Qed.

Lemma tailPath_suffix h i : HasSuffix (tailPath h i) tailSuffix = true.
Proof.
  apply HasSuffix_spec. exists (h +:+ "-" +:+ itoa i). unfold tailPath. by rewrite !append_assoc.
Qed.

Lemma head_not_tail h i h' i' : filePath h i ≠ tailPath h' i'.
Proof.
  intros E. apply (head_tail_suffix (filePath h i)); [apply filePath_suffix|].
  rewrite E. apply tailPath_suffix.
Qed.

(** ** Writing and reading a file *)

Lemma write_at_len l off d :
  0 ≤ off → len (write_at l off d) = if len d =? 0 then len l else Z.max (len l) (off + len d).
Proof.
  intros Ho. unfold write_at. case_if; [done|]. pose proof (len_nonneg d). pose proof (len_nonneg l).
  rewrite !len_app, len_take, len_drop, len_app, len_replicate. lia.
Qed.

Lemma write_at_lookup l off d x :
  0 ≤ off → off ≤ len l ∨ off ≤ x ∨ x < len l → 0 ≤ x →
  write_at l off d !! Z.to_nat x =
    if decide (off ≤ x < off + len d) then d !! Z.to_nat (x - off) else l !! Z.to_nat x.
Proof.
  intros Ho Hox Hx. pose proof (len_nonneg d). pose proof (len_nonneg l).
  unfold write_at. destruct (len d =? 0) eqn:E; bool_simpl.
  { by rewrite decide_False by lia. }
  set (pad := replicate (Z.to_nat (off - len l)) Byte.x00).
  assert (Hpl : length (l ++ pad) = Z.to_nat (Z.max (len l) off)).
  { rewrite length_app. unfold pad. rewrite length_replicate. unfold len in *. lia. }
  assert (Hlt : length (take (Z.to_nat off) (l ++ pad)%list) = Z.to_nat off).
  { rewrite length_take, Hpl. lia. }
  destruct (decide (x < off)) as [Hlo|Hge].
  { rewrite decide_False by lia. rewrite lookup_app_l by lia.
    rewrite lookup_take_lt by lia. rewrite lookup_app_l; [done|]. unfold len in *. lia. }
  rewrite lookup_app_r by lia. rewrite Hlt.
  case_decide as Hin.
  - rewrite lookup_app_l by (unfold len in *; lia). f_equal. lia.
  - rewrite lookup_app_r by (unfold len in *; lia). rewrite lookup_drop.
    replace (Z.to_nat (off + len d) + (Z.to_nat x - Z.to_nat off - length d))%nat
      with (Z.to_nat x) by (unfold len in *; lia).
    destruct (decide (x < len l)) as [Hl|Hl].
    + rewrite lookup_app_l by (unfold len in *; lia). done.
    + rewrite (lookup_ge_None_2 l) by (unfold len in *; lia).
      apply lookup_ge_None_2. rewrite Hpl. lia.
Qed.

Lemma read_lookup (l : list byte) (n off : Z) x :
  0 ≤ off → 0 ≤ x < len (take (Z.to_nat n) (drop (Z.to_nat off) l)) →
  take (Z.to_nat n) (drop (Z.to_nat off) l) !! Z.to_nat x = l !! Z.to_nat (off + x).
Proof.
  intros Ho Hx. rewrite len_take, len_drop in Hx.
  rewrite lookup_take_lt, lookup_drop by lia. f_equal. lia.
Qed.

(** ** The integrity invariant

    [source hash id] is the content of file [id] of torrent [hash]. *)

Section integrity.
Context (source : string → Z → list byte).

(** The bytes of [d] are the source's from [off] on. *)
Definition from_source (hash : string) (id off : Z) (d : list byte) : Prop :=
  ∀ x, 0 ≤ x < len d → source hash id !! Z.to_nat (off + x) = d !! Z.to_nat x.

Definition tstart (hash : string) (id : Z) : Z := Z.max 0 (len (source hash id) - TailWarmupSize).

Record warm_inv (k : Disk) (hs : gmap string cachedHandle) (sc : gmap string sizeEntry)
    (tc : gmap string (list tailSpan)) : Prop := {
  wi_ino : ∀ p i, names k !! p = Some i → is_Some (inodes k !! i);
  wi_fresh : ∀ i, is_Some (inodes k !! i) → (i < nextIno k)%nat;
  wi_inj : ∀ p q i, names k !! p = Some i → names k !! q = Some i → p = q;
  wi_handle : ∀ p h, hs !! p = Some h → names k !! p = Some (h_ino h) ∧ closed h = false;
  wi_head : ∀ h i f, 0 ≤ i → stat (filePath h i) k = Some f → from_source h i 0 (f_data f);
  wi_size : ∀ h i e, 0 ≤ i → sc !! filePath h i = Some e →
    ∃ f, stat (filePath h i) k = Some f ∧ 0 ≤ size e ≤ len (f_data f);
  wi_wf : ∀ p tr, tc !! p = Some tr → tail_wf tr;
  wi_tail : ∀ h i tr x, 0 ≤ i → tc !! tailPath h i = Some tr → in_tail x tr →
    ∃ f, stat (tailPath h i) k = Some f ∧ 0 ≤ x < len (f_data f) ∧
      f_data f !! Z.to_nat x = source h i !! Z.to_nat (tstart h i + x);
  wi_tlen : ∀ h i f, 0 ≤ i → stat (tailPath h i) k = Some f →
    len (f_data f) ≤ len (source h i) - tstart h i
}.

(** *** How the file system operations change what a name shows *)

Lemma stat_unlink p q k : stat q (unlink p k) = if decide (q = p) then None else stat q k.
Proof.
  unfold stat. simpl. case_decide as E; [subst; by rewrite lookup_delete_eq|].
  by rewrite lookup_delete_ne.
Qed.

Lemma stat_names k hs sc tc p :
  warm_inv k hs sc tc → stat p k = None → names k !! p = None.
Proof.
  intros Hi Hs. destruct (names k !! p) as [i|] eqn:E; [|done].
  destruct (wi_ino _ _ _ _ Hi p i E) as [f Hf]. unfold stat in Hs. by rewrite E in Hs; simpl in Hs;
    rewrite Hf in Hs.
Qed.

Lemma stat_create k hs sc tc p q now :
  warm_inv k hs sc tc →
  stat q (create p now k) = if decide (q = p) then Some (mkFile [] now) else stat q k.
Proof.
  intros Hi. unfold stat. simpl. case_decide as E.
  - subst. by rewrite lookup_insert_eq; simpl; rewrite lookup_insert_eq.
  - rewrite lookup_insert_ne by done. destruct (names k !! q) as [i|] eqn:Hq; [|done]. simpl.
    pose proof (wi_fresh _ _ _ _ Hi i (wi_ino _ _ _ _ Hi q i Hq)).
    rewrite lookup_insert_ne by lia. done.
Qed.

Lemma stat_fwrite k hs sc tc p ino q off d now :
  warm_inv k hs sc tc → names k !! p = Some ino →
  stat q (fwrite ino off d now k) =
    if decide (q = p) then (λ f, mkFile (write_at (f_data f) off d) now) <$> stat p k
    else stat q k.
Proof.
  intros Hi Hp. unfold stat. simpl. case_decide as E.
  - subst. rewrite Hp. simpl. by rewrite lookup_alter_eq.
  - destruct (names k !! q) as [i|] eqn:Hq; [|done]. simpl.
    rewrite lookup_alter_ne; [done|]. intros ->. apply E. by eapply wi_inj.
Qed.

(** *** The invariant is preserved by each primitive update *)

Lemma inv_handle_del k hs sc tc p : warm_inv k hs sc tc → warm_inv k (delete p hs) sc tc.
Proof.
  intros []. constructor; try done. intros q h [_ Hq]%lookup_delete_Some. eauto.
Qed.

Lemma inv_handle_ins k hs sc tc p h :
  names k !! p = Some (h_ino h) → closed h = false → warm_inv k hs sc tc →
  warm_inv k (<[p := h]> hs) sc tc.
Proof.
  intros Hp Hc []. constructor; try done.
  intros q h' [[-> ->]|[_ Hq]]%lookup_insert_Some; eauto.
Qed.

Lemma inv_size_del k hs sc tc p : warm_inv k hs sc tc → warm_inv k hs (delete p sc) tc.
Proof.
  intros []. constructor; try done. intros h i e Hi [_ He]%lookup_delete_Some. eauto.
Qed.

Lemma inv_size_ins k hs sc tc p e :
  (HasSuffix p warmupSuffix = true →
   ∃ f, stat p k = Some f ∧ 0 ≤ size e ≤ len (f_data f)) →
  warm_inv k hs sc tc → warm_inv k hs (<[p := e]> sc) tc.
Proof.
  intros He []. constructor; try done.
  intros h i e' Hi [[-> <-]|[_ Hq]]%lookup_insert_Some; [|eauto].
  apply He, filePath_suffix.
Qed.

Lemma inv_tail_del k hs sc tc p : warm_inv k hs sc tc → warm_inv k hs sc (delete p tc).
Proof.
  intros []. constructor; try done.
  - intros q tr [_ Hq]%lookup_delete_Some. eauto.
  - intros h i tr x Hi [_ Hq]%lookup_delete_Some. eauto.
Qed.

Lemma inv_tail_new k hs sc tc p : warm_inv k hs sc tc → warm_inv k hs sc (<[p := []]> tc).
Proof.
  intros []. constructor; try done.
  - intros q tr [[_ <-]|[_ Hq]]%lookup_insert_Some; [apply tail_wf_nil|eauto].
  - intros h i tr x Hi [[_ <-]|[_ Hq]]%lookup_insert_Some; [by intros ?%in_tail_nil|eauto].
Qed.

Lemma inv_unlink k hs sc tc p :
  hs !! p = None → sc !! p = None →
  (tc !! p = None ∨ HasSuffix p warmupSuffix = true) →
  warm_inv k hs sc tc → warm_inv (unlink p k) hs sc tc.
Proof.
  intros Hh Hs Ht Hi.
  assert (Hst : ∀ q f, stat q (unlink p k) = Some f → stat q k = Some f).
  { intros q f. rewrite stat_unlink. by case_decide. }
  assert (Hst' : ∀ q f, q ≠ p → stat q k = Some f → stat q (unlink p k) = Some f).
  { intros q f Hq. rewrite stat_unlink. by case_decide. }
  destruct Hi. constructor; try done; simpl.
  - intros q i [_ Hq]%lookup_delete_Some. eauto.
  - intros q q' i [_ Hq]%lookup_delete_Some [_ Hq']%lookup_delete_Some. eauto.
  - intros q h Hq. destruct (decide (q = p)) as [->|Hne]; [congruence|].
    rewrite lookup_delete_ne by done. eauto.
  - eauto.
  - intros h i e Hi0 He. destruct (decide (filePath h i = p)) as [<-|Hne]; [congruence|].
    destruct (wi_size0 h i e Hi0 He) as (f & Hf & Hle). eauto.
  - intros h i tr x Hi0 Htr Hx. destruct (decide (tailPath h i = p)) as [<-|Hne].
    + destruct Ht as [Ht|Ht]; [congruence|]. exfalso.
      eapply head_tail_suffix; [exact Ht|]. apply tailPath_suffix.
    + destruct (wi_tail0 h i tr x Hi0 Htr Hx) as (f & Hf & Hr). eauto.
  - eauto.
Qed.

Lemma inv_create k hs sc tc p now :
  stat p k = None → warm_inv k hs sc tc →
  warm_inv (create p now k) (<[p := mkHandle (nextIno k) now false]> hs) sc tc.
Proof.
  intros Hp Hi. pose proof (stat_names _ _ _ _ p Hi Hp) as Hnm.
  pose proof (λ q, stat_create _ _ _ _ p q now Hi) as Hst.
  pose proof (wi_ino _ _ _ _ Hi) as Hino. pose proof (wi_fresh _ _ _ _ Hi) as Hfr.
  assert (Hold : ∀ q i, names k !! q = Some i → i ≠ nextIno k).
  { intros q i Hq. specialize (Hfr i (Hino q i Hq)). lia. }
  destruct Hi. constructor; simpl.
  - intros q i [[_ <-]|[_ Hq]]%lookup_insert_Some; [rewrite lookup_insert_eq; eauto|].
    rewrite lookup_insert_ne; [eauto|]. specialize (Hold q i Hq). done.
  - intros i [f [[<- _]|[_ Hf]]%lookup_insert_Some]; [lia|].
    assert (i < nextIno k)%nat by eauto. lia.
  - intros q q' i [[<- <-]|[_ Hq]]%lookup_insert_Some [[<- E]|[_ Hq']]%lookup_insert_Some; try done.
    + by apply Hold in Hq'.
    + subst. by apply Hold in Hq.
    + eauto.
  - intros q h [[<- <-]|[Hne Hq]]%lookup_insert_Some; [by rewrite lookup_insert_eq|].
    rewrite lookup_insert_ne by done. eauto.
  - intros h i f Hi. rewrite Hst. case_decide; [|eauto]. intros [= <-] x Hx.
    unfold len in Hx. simpl in Hx. lia.
  - intros h i e Hi He. destruct (wi_size0 h i e Hi He) as (f & Hf & Hle).
    exists f. rewrite Hst. case_decide; [congruence|done].
  - done.
  - intros h i tr x Hi Htr Hx. destruct (wi_tail0 h i tr x Hi Htr Hx) as (f & Hf & Hr).
    exists f. rewrite Hst. case_decide; [congruence|done].
  - intros h i f Hi. rewrite Hst. case_decide; [|eauto]. intros [= <-].
    unfold len at 1. simpl. unfold tstart, TailWarmupSize. pose proof (len_nonneg (source h i)). lia.
Qed.

Lemma from_source_write h i l off d :
  0 ≤ off ≤ len l → from_source h i 0 l → from_source h i off d →
  from_source h i 0 (write_at l off d).
Proof.
  intros Ho Hl Hd x Hx. rewrite write_at_len in Hx by lia. pose proof (len_nonneg d).
  rewrite write_at_lookup by lia. case_decide as Hin.
  - rewrite <-(Hd (x - off)) by lia. f_equal. lia.
  - rewrite <-Hl; [done|]. destruct (len d =? 0) eqn:E; bool_simpl; lia.
Qed.

Lemma inv_write_head k hs sc tc h i ino off d now :
  0 ≤ i → names k !! filePath h i = Some ino →
  (∀ f, stat (filePath h i) k = Some f → 0 ≤ off ≤ len (f_data f)) →
  from_source h i off d →
  warm_inv k hs sc tc → warm_inv (fwrite ino off d now k) hs sc tc.
Proof.
  intros Hi0 Hino Hoff Hd Hi.
  pose proof (λ q, stat_fwrite _ _ _ _ _ ino q off d now Hi Hino) as Hst.
  assert (Hlen : ∀ q f, stat q k = Some f →
    ∃ f', stat q (fwrite ino off d now k) = Some f' ∧ len (f_data f) ≤ len (f_data f')).
  { intros q f Hf. rewrite Hst. case_decide as E; [subst|by exists f].
    rewrite Hf. simpl. eexists. split; [done|]. simpl.
    rewrite write_at_len by (specialize (Hoff f Hf); lia). pose proof (len_nonneg d). case_if; lia. }
  destruct Hi. constructor; try done; simpl.
  - intros p j Hj. apply lookup_alter_is_Some. eauto.
  - intros j Hj%lookup_alter_is_Some. eauto.
  - intros h' i' f' Hi'. rewrite Hst. case_decide as E; [|eauto].
    apply filePath_inj in E as [-> ->]; [|done|done].
    intros (f & Hf & ->)%fmap_Some. simpl. apply from_source_write; eauto.
  - intros h' i' e Hi' He. destruct (wi_size0 h' i' e Hi' He) as (f & Hf & Hle).
    destruct (Hlen _ _ Hf) as (f' & Hf' & Hl). exists f'. split; [done|]. lia.
  - intros h' i' tr x Hi' Htr Hx. rewrite Hst.
    rewrite decide_False; [eauto|]. intros E. by apply (head_not_tail h i h' i').
  - intros h' i' f' Hi'. rewrite Hst. rewrite decide_False; [eauto|].
    intros E. by apply (head_not_tail h i h' i').
Qed.

Lemma inv_write_tail `{GoRuntime} k hs sc tc h i ino rel d now tr :
  0 ≤ i → names k !! tailPath h i = Some ino → 0 ≤ rel →
  rel + len d ≤ len (source h i) - tstart h i →
  from_source h i (tstart h i + rel) d →
  tc !! tailPath h i = Some tr →
  warm_inv k hs sc tc →
  warm_inv (fwrite ino rel d now k) hs sc (<[tailPath h i := tr_add tr rel (rel + len d)]> tc).
Proof.
  intros Hi0 Hino Hrel Hfit Hd Htr0 Hi. pose proof (len_nonneg d) as Hdn.
  pose proof (λ q, stat_fwrite _ _ _ _ _ ino q rel d now Hi Hino) as Hst.
  destruct (wi_ino _ _ _ _ Hi _ _ Hino) as [f0 Hf0].
  assert (Hstat : stat (tailPath h i) k = Some f0) by (unfold stat; by rewrite Hino).
  pose proof (wi_wf _ _ _ _ Hi _ _ Htr0) as Hwf0.
  destruct (tr_add_spec tr rel (rel + len d) Hwf0) as [Hwf Hin].
  destruct Hi. constructor; try done; simpl.
  - intros p j Hj. apply lookup_alter_is_Some. eauto.
  - intros j Hj%lookup_alter_is_Some. eauto.
  - intros h' i' f' Hi'. rewrite Hst. rewrite decide_False; [eauto|]. apply head_not_tail.
  - intros h' i' e Hi' He. rewrite Hst. rewrite decide_False; [eauto|]. apply head_not_tail.
  - intros p tr' [[_ <-]|[_ Hq]]%lookup_insert_Some; eauto.
  - intros h' i' tr' x Hi' Htr' Hx. rewrite Hst. case_decide as E.
    + apply tailPath_inj in E as [-> ->]; [|done|done].
      rewrite lookup_insert_eq in Htr'. injection Htr' as <-. apply Hin in Hx.
      rewrite Hstat. simpl. eexists. split; [done|]. simpl. rewrite write_at_len by lia.
      destruct (decide (rel ≤ x < rel + len d)) as [Hnew|Hnew].
      * destruct (len d =? 0) eqn:E; bool_simpl; [lia|]. split; [lia|].
        rewrite write_at_lookup by lia. rewrite decide_True by lia.
        rewrite <-(Hd (x - rel)) by lia. f_equal. lia.
      * destruct Hx as [Hx|Hx]; [|lia].
        destruct (wi_tail0 h i tr x Hi' Htr0 Hx) as (f & Hf & Hr & Heq). simplify_eq.
        split; [case_if; lia|]. rewrite <-Heq.
        rewrite write_at_lookup by lia. by rewrite decide_False by lia.
    + rewrite lookup_insert_ne in Htr' by done. eauto.
  - intros h' i' f' Hi'. rewrite Hst. case_decide as E; [|eauto].
    apply tailPath_inj in E as [-> ->]; [|done|done].
    intros (f & Hf & ->)%fmap_Some. simpl. rewrite write_at_len by lia.
    specialize (wi_tlen0 h i f Hi' Hf). case_if; lia.
Qed.
End integrity.

Lemma drop_file_stat io p q st :
  stat q (disk (drop_file io p st)) =
    if decide (q = p ∧ remove_ok io p = true) then None else stat q (disk st).
Proof.
  unfold drop_file, os_Remove. simpl. destruct (remove_ok io p); simpl.
  - rewrite stat_unlink. by repeat case_decide; naive_solver.
  - rewrite decide_False; [done|]. by intros [_ ?].
Qed.

(** ** Every operation preserves integrity *)

Section operations.
Context `{GoRuntime} (cfg : Config) (source : string → Z → list byte).
Context (Hcfg : 0 ≤ FileSize cfg ≤ 2 ^ 61).
Context (Hsrc : ∀ h i, len (source h i) ≤ 2 ^ 61).

Definition write_ok (w : warmupWrite) : Prop :=
  0 ≤ w_fileID w ∧ 0 ≤ w_off w ∧ from_source source (w_hash w) (w_fileID w) (w_off w) (w_data w).

Definition winv (st : DiskWarmupCache) : Prop :=
  warm_inv source (disk st) (handles st) (sizeCache st) (tailCoverage st) ∧
  Forall write_ok (writeCh st).

Lemma from_source_fits h i off d :
  0 ≤ off → from_source source h i off d → 0 < len d → off + len d ≤ len (source h i).
Proof.
  intros Ho Hd Hl. specialize (Hd (len d - 1) ltac:(lia)).
  assert (Hs : is_Some (d !! Z.to_nat (len d - 1))).
  { apply lookup_lt_is_Some. unfold len in *. lia. }
  rewrite <-Hd in Hs. apply lookup_lt_is_Some in Hs. unfold len in *. lia.
Qed.

Lemma from_source_take h i off d n :
  from_source source h i off d → from_source source h i off (take n d).
Proof.
  intros Hd x Hx. rewrite len_take in Hx. rewrite lookup_take_lt by lia. apply Hd. lia.
Qed.

Lemma closeHandle_winv p st : winv st → winv (closeHandle p st).
Proof. intros [Hi Hq]. split; [|done]. by apply inv_handle_del. Qed.

Lemma drop_file_winv io p st : winv st → winv (drop_file io p st).
Proof.
  intros Hw. unfold drop_file. apply (closeHandle_winv p) in Hw as [Hi Hq].
  apply (inv_size_del _ _ _ _ _ p) in Hi. apply (inv_tail_del _ _ _ _ _ p) in Hi.
  unfold os_Remove. destruct (remove_ok io p); [|by split].
  split; [|done]. simpl. apply inv_unlink; [apply lookup_delete_eq|apply lookup_delete_eq| |done].
  left. apply lookup_delete_eq.
Qed.

Lemma dropResidue_winv io now p st : winv st → winv (dropResidue io now p st).
Proof.
  intros Hw. unfold dropResidue. destruct (HasSuffix p warmupSuffix) eqn:Hsuf; [|done].
  simpl. case_decide as Hh; [done|]. destruct (stat p (disk st)) as [f|]; [|done].
  case_if; [done|]. destruct Hw as [Hi Hq]. apply (inv_size_del _ _ _ _ _ p) in Hi.
  unfold os_Remove. destruct (remove_ok io p); [|by split].
  split; [|done]. simpl. apply inv_unlink; [|apply lookup_delete_eq|by right|done].
  by apply eq_None_not_Some.
Qed.

Lemma reapIdle_winv io now mx st : winv st → winv (reapIdle io now mx st).
Proof.
  unfold reapIdle. generalize (map_range (handles st)). intros l. revert st.
  induction l as [|[p ch] l IH]; intros st Hw; cbn [foldl]; [done|].
  apply IH. unfold reap_one. case_if; [done|].
  destruct (handles st !! p) as [ac|]; [|done]. case_if; [done|].
  by apply dropResidue_winv, closeHandle_winv.
Qed.

Lemma quota_loop_winv io quota needed files total st :
  winv st → winv (quota_loop io quota needed files total st).2.
Proof.
  revert total st. induction files as [|e files IH]; intros total st Hw; simpl; [done|].
  case_if; [done|]. apply IH. by apply drop_file_winv.
Qed.

Lemma enforceQuota_winv io needed st : winv st → winv (enforceQuotaLocked cfg io needed st).
Proof.
  intros Hw. unfold enforceQuotaLocked. case_if; [done|]. cbv zeta. case_if; [exact Hw|].
  match goal with |- context [quota_loop io ?q ?n ?l ?t ?s] =>
    pose proof (quota_loop_winv io q n l t s Hw) as Hl; destruct (quota_loop io q n l t s) end.
  exact Hl.
Qed.

Lemma quota_loop_stat io quota needed files total st q :
  stat q (disk st) = None → stat q (disk (quota_loop io quota needed files total st).2) = None.
Proof.
  revert total st. induction files as [|e files IH]; intros total st Hs; simpl; [done|].
  case_if; [done|]. apply IH. rewrite drop_file_stat. by case_decide.
Qed.

Lemma enforceQuota_stat io needed st q :
  stat q (disk st) = None → stat q (disk (enforceQuotaLocked cfg io needed st)) = None.
Proof.
  intros Hs. unfold enforceQuotaLocked. case_if; [done|]. cbv zeta. case_if; [exact Hs|].
  match goal with |- context [quota_loop io ?qq ?n ?l ?t ?s] =>
    pose proof (quota_loop_stat io qq n l t s q Hs) as Hl; destruct (quota_loop io qq n l t s) end.
  exact Hl.
Qed.

Lemma RemoveHash_winv io hash st : winv st → winv (RemoveHash io hash st).
Proof.
  unfold RemoveHash. generalize (ReadDir (disk st)). intros l. revert st.
  induction l as [|e l IH]; intros st Hw; cbn [foldl]; [done|].
  apply IH. unfold remove_one. case_if; [|done]. by apply drop_file_winv.
Qed.

Lemma getHandle_spec io now p st r st' :
  getHandle io now p st = (r, st') → winv st →
  winv st' ∧ disk st' = disk st ∧ sizeCache st' = sizeCache st ∧
  tailCoverage st' = tailCoverage st ∧
  ∀ ch, r = Some ch → names (disk st) !! p = Some (h_ino ch) ∧ closed ch = false.
Proof.
  unfold getHandle. intros Hg [Hi Hq].
  destruct (handles st !! p) as [h|] eqn:Hh.
  - injection Hg as <- <-. destruct (wi_handle _ _ _ _ _ Hi p h Hh) as [Hn Hc].
    split; [|split_and!; [done..|by intros ? [= <-]]].
    split; [|done]. simpl. by apply inv_handle_ins.
  - destruct (names (disk st) !! p) as [ino|] eqn:Hn; [|by injection Hg as <- <-].
    destruct (open_ok io); [|by injection Hg as <- <-]. injection Hg as <- <-.
    split; [|split_and!; [done..|by intros ? [= <-]]].
    split; [|done]. simpl. by apply inv_handle_ins.
Qed.

Lemma headSize_le hash id st :
  0 ≤ id → winv st →
  match stat (filePath hash id) (disk st) with
  | Some f => 0 ≤ headSize (filePath hash id) st ≤ len (f_data f)
  | None => headSize (filePath hash id) st = 0
  end.
Proof.
  intros Hid [Hi _]. unfold headSize.
  destruct (sizeCache st !! filePath hash id) as [e|] eqn:He.
  - destruct (wi_size _ _ _ _ _ Hi _ _ _ Hid He) as (f & -> & Hle). done.
  - destruct (stat (filePath hash id) (disk st)) as [f|]; [|done].
    pose proof (len_nonneg (f_data f)). lia.
Qed.

Lemma start_head_spec io now hash id st b st' :
  0 ≤ id → start_head cfg io now hash id st = (b, st') → winv st →
  winv st' ∧
  (b = true → ∃ f, stat (filePath hash id) (disk st') = Some f ∧
     headSize (filePath hash id) st ≤ len (f_data f)).
Proof.
  intros Hid Hs Hw. pose proof (headSize_le hash id st Hid Hw) as Hle.
  unfold start_head in Hs. destruct (stat (filePath hash id) (disk st)) as [f|] eqn:Hf.
  { injection Hs as <- <-. split; [done|]. intros _. exists f. split; [done|lia]. }
  pose proof (enforceQuota_winv io (FileSize cfg) st Hw) as Hw1.
  cbv zeta in Hs. set (st1 := enforceQuotaLocked cfg io (FileSize cfg) st) in *.
  destruct (create_ok io); [|injection Hs as <- <-; split; [exact Hw1|done]].
  destruct Hw1 as [Hi1 Hq1].
  assert (Hnone : stat (filePath hash id) (disk st1) = None).
  { apply (enforceQuota_stat io (FileSize cfg)). exact Hf. }
  pose proof (inv_create _ _ _ _ _ (filePath hash id) now Hnone Hi1) as Hi2.
  pose proof (stat_create _ _ _ _ _ (filePath hash id) (filePath hash id) now Hi1) as Hst.
  rewrite decide_True in Hst by done.
  destruct (hook cfg); injection Hs as <- <-; (split; [by split|]); intros _;
    simpl; rewrite Hst; eexists; (split; [done|]); rewrite Hle; apply len_nonneg.
Qed.

(** A write leaves the file at least as long as what it covers. *)
Lemma stat_after_write k hs sc tc p ino off d now f :
  warm_inv source k hs sc tc → names k !! p = Some ino → stat p k = Some f → 0 ≤ off →
  ∃ f', stat p (fwrite ino off d now k) = Some f' ∧ len (f_data f) ≤ len (f_data f') ∧
        (0 < len d → off + len d ≤ len (f_data f')).
Proof.
  intros Hi Hn Hf Ho. rewrite (stat_fwrite _ _ _ _ _ p) by done.
  rewrite decide_True by done. rewrite Hf. eexists. split; [done|]. simpl.
  rewrite write_at_len by done. pose proof (len_nonneg d). case_if; lia.
Qed.

Lemma finish_head_winv now hash id st : winv st → winv (finish_head cfg now hash id st).
Proof.
  intros Hw. unfold finish_head. cbv zeta.
  destruct (warmupStarts st !! filePath hash id), (hook cfg); exact Hw.
Qed.

Lemma write_head_winv io now hash id data off prev st f :
  0 ≤ id → 0 ≤ off ≤ FileSize cfg → from_source source hash id off data →
  stat (filePath hash id) (disk st) = Some f → off ≤ prev ≤ len (f_data f) →
  winv st → winv (write_head cfg io now hash id data off prev st).
Proof.
  intros Hid Ho Hd Hf Hprev Hw. unfold write_head.
  destruct (getHandle io now (filePath hash id) st) as [r st1] eqn:Hg.
  destruct (getHandle_spec _ _ _ _ _ _ Hg Hw) as ([Hi1 Hq1] & Hdk & Hsc & Htc & Hch).
  destruct r as [ch|]; [|by split]. destruct (Hch ch eq_refl) as [Hn ->].
  unfold WriteAt. rewrite (proj2 (Z.ltb_ge _ _)) by lia. rewrite <-Hdk in Hn, Hf.
  assert (Hwr : ∀ d, from_source source hash id off d →
    warm_inv source (fwrite (h_ino ch) off d now (disk st1)) (handles st1) (sizeCache st1)
      (tailCoverage st1)).
  { intros d Hfd. eapply inv_write_head; [done|done| |done|done].
    intros f' Hf'. simplify_eq. lia. }
  destruct (write_fail io) as [n|].
  { split; [|done]. simpl. apply Hwr. by apply from_source_take. }
  specialize (Hwr data Hd).
  destruct (stat_after_write _ _ _ _ _ _ off data now f Hi1 Hn Hf ltac:(lia)) as (f' & Hf' & Hl & Hl').
  assert (Hfit : 0 ≤ off + len data ≤ 2 ^ 62).
  { pose proof (len_nonneg data). destruct (decide (0 < len data)) as [Hpos|Hz]; [|lia].
    pose proof (from_source_fits hash id off data ltac:(lia) Hd Hpos). specialize (Hsrc hash id). lia. }
  cbv zeta. go_simpl.
  assert (Hfin : ∀ c st2, 0 ≤ c ≤ len (f_data f') →
    disk st2 = fwrite (h_ino ch) off data now (disk st1) → handles st2 = handles st1 →
    sizeCache st2 = sizeCache st1 → tailCoverage st2 = tailCoverage st1 → writeCh st2 = writeCh st1 →
    winv (set_sizeCache (<[filePath hash id := mkSize c now]> (sizeCache st2)) st2)).
  { intros c st2 Hc E1 E2 E3 E4 E5. split; [|simpl; by rewrite E5].
    simpl. rewrite E1, E2, E3, E4. apply inv_size_ins; [|done]. intros _. eauto. }
  pose proof (len_nonneg data).
  destruct (off + len data >? prev) eqn:Egt;
    (case_if; [apply finish_head_winv|]); (apply Hfin; try done); lia.
Qed.

Lemma head_full_spec now hash id st b st' :
  0 ≤ id → head_full cfg now (filePath hash id) st = (b, st') → winv st →
  winv st' ∧ (b = false → st' = st).
Proof.
  intros Hid Hh [Hi Hq]. unfold head_full in Hh.
  destruct (sizeCache st !! filePath hash id) as [e|]; [by injection Hh as <- <-|].
  destruct (stat (filePath hash id) (disk st)) as [f|] eqn:Hf; [|by injection Hh as <- <-].
  destruct (len (f_data f) >? FileSize cfg); injection Hh as <- <-; [|done].
  split; [|done]. split; [|done]. simpl. apply inv_size_ins; [|done]. intros _. exists f.
  pose proof (len_nonneg (f_data f)). simpl. split; [done|lia].
Qed.

Lemma processWrite_winv io now hash id data off st :
  0 ≤ id → 0 ≤ off → from_source source hash id off data → winv st →
  winv (processWrite cfg io now hash id data off st).
Proof.
  intros Hid Ho Hd Hw. unfold processWrite. destruct (off >? FileSize cfg) eqn:Eo; [done|].
  cbv zeta. set (d := if (off <? FileSize cfg) && (off +! len data >? FileSize cfg)
            then take (Z.to_nat (FileSize cfg -! off)) data else data).
  assert (Hd' : from_source source hash id off d).
  { unfold d. case_match; [by apply from_source_take|done]. }
  clearbody d.
  destruct (head_full cfg now (filePath hash id) st) as [b st1] eqn:Hf.
  destruct (head_full_spec _ _ _ _ _ _ Hid Hf Hw) as [Hw1 Hsame].
  destruct b; [done|]. rewrite (Hsame eq_refl) in *.
  destruct (off >? headSize (filePath hash id) st) eqn:Ep; [done|].
  destruct (start_head cfg io now hash id st) as [b st2] eqn:Hs.
  destruct (start_head_spec _ _ _ _ _ _ _ Hid Hs Hw) as [Hw2 Hst].
  destruct b; [|done]. destruct (Hst eq_refl) as (f & Hff & Hle).
  eapply write_head_winv; [done|lia|done|done|lia|done].
Qed.

Lemma writeWorker_winv io now st : winv st → winv (writeWorker cfg io now st).
Proof.
  intros [Hi Hq]. unfold writeWorker. destruct (writeCh st) as [|w rest] eqn:E; [split; [done|by rewrite E]|].
  apply list.Forall_cons in Hq as [(H1 & H2 & H3) Hq].
  apply processWrite_winv; try done. 
Qed.

Lemma WriteChunk_winv hash id data off st :
  write_ok (mkWrite hash id data off) → winv st → winv (WriteChunk cfg hash id data off st).
Proof.
  intros Hok [Hi Hq]. unfold WriteChunk. case_if; [done|]. case_if; [|done].
  split; [done|]. simpl. apply list.Forall_app. split; [done|]. by constructor.
Qed.

(** *** Reading the head *)

Definition avail_post (p : string) (st : DiskWarmupCache) (n : Z) (st' : DiskWarmupCache) : Prop :=
  winv st' ∧ 0 ≤ n ∧
  (0 < n → disk st' = disk st ∧ ∃ f, stat p (disk st) = Some f ∧ n ≤ len (f_data f)).

Lemma avail_lookup_spec io now hash id st n st' :
  0 ≤ id → avail_lookup cfg io now (filePath hash id) st = (n, st') → winv st →
  avail_post (filePath hash id) st n st'.
Proof.
  intros Hid Ha Hw. unfold avail_lookup in Ha. cbv zeta in Ha.
  assert (Hprobe :
    (match stat (filePath hash id) (disk st) with
     | None => (0, set_missing (<[filePath hash id := now]> (missing st)) st)
     | Some f =>
         if len (f_data f) >? FileSize cfg +! 16 * 1024 * 1024 then
           (0, set_missing (<[filePath hash id := now]> (missing
                (os_Remove io (filePath hash id)
                  (set_sizeCache (delete (filePath hash id)
                     (sizeCache (closeHandle (filePath hash id) st)))
                     (closeHandle (filePath hash id) st)))))
               (os_Remove io (filePath hash id)
                  (set_sizeCache (delete (filePath hash id)
                     (sizeCache (closeHandle (filePath hash id) st)))
                     (closeHandle (filePath hash id) st))))
         else (len (f_data f), set_sizeCache (<[filePath hash id := mkSize (len (f_data f)) now]>
                 (sizeCache st)) st)
     end) = (n, st') → avail_post (filePath hash id) st n st').
  { clear Ha. destruct Hw as [Hi Hq].
    destruct (stat (filePath hash id) (disk st)) as [f|] eqn:Hf.
    2:{ intros [= <- <-]. split; [by split|]. split; [lia|lia]. }
    destruct (len (f_data f) >? FileSize cfg +! 16 * 1024 * 1024); intros [= <- <-].
    - split; [|split; lia]. split; [|unfold os_Remove; by case_match].
      apply (inv_handle_del _ _ _ _ _ (filePath hash id)) in Hi.
      apply (inv_size_del _ _ _ _ _ (filePath hash id)) in Hi.
      unfold os_Remove. destruct (remove_ok io (filePath hash id)); [|exact Hi].
      simpl. apply inv_unlink; [apply lookup_delete_eq|apply lookup_delete_eq| |done].
      right. apply filePath_suffix.
    - pose proof (len_nonneg (f_data f)) as Hl. split; [|split; [done|]].
      + split; [|done]. simpl. apply inv_size_ins; [|done]. intros _. exists f. simpl. split; [done|lia].
      + intros _. split; [done|]. exists f. split; [done|lia]. }
  destruct (sizeCache st !! filePath hash id) as [e|] eqn:He; [|by apply Hprobe].
  destruct (now - updatedAt e <? sizeTTL); [|by apply Hprobe].
  injection Ha as <- <-. destruct (wi_size _ _ _ _ _ (proj1 Hw) _ _ _ Hid He) as (f & Hf & Hle).
  split; [done|]. split; [lia|]. intros _. split; [done|]. exists f. split; [done|lia].
Qed.

Lemma GetAvailableRange_spec io now hash id st n st' :
  0 ≤ id → GetAvailableRange cfg io now hash id st = (n, st') → winv st →
  avail_post (filePath hash id) st n st'.
Proof.
  intros Hid Ha Hw. unfold GetAvailableRange in Ha.
  destruct (missing st !! filePath hash id) as [t|]; [|by eapply avail_lookup_spec].
  destruct (now - t <? missingTTL); [|].
  - injection Ha as <- <-. split; [done|]. split; [lia|lia].
  - exact (avail_lookup_spec io now hash id
             (set_missing (delete (filePath hash id) (missing st)) st) n st' Hid Ha Hw).
Qed.

(** What a read of inode [ino] returns, when the inode holds [l]. *)
Lemma file_ReadAt_spec io ino n off k f got err :
  inodes k !! ino = Some f → 0 ≤ off →
  file_ReadAt io ino n off k = (got, err) →
  (∀ x, 0 ≤ x < len got → got !! Z.to_nat x = f_data f !! Z.to_nat (off + x)) ∧
  len got ≤ Z.max 0 (Z.min n (len (f_data f) - off)) ∧
  (read_fail io = None → len got = Z.max 0 (Z.min n (len (f_data f) - off))).
Proof.
  intros Hf Ho. unfold file_ReadAt. rewrite (proj2 (Z.ltb_ge _ _)) by lia. rewrite Hf. simpl.
  destruct (read_fail io) as [m|]; intros [= <- _]; (split; [|split; [|try done]]).
  - intros x Hx. rewrite lookup_take_lt by (rewrite len_take in Hx; lia).
    apply read_lookup; [done|]. rewrite len_take in Hx. lia.
  - rewrite !len_take, len_drop. lia.
  - intros x Hx. by apply read_lookup.
  - rewrite len_take, len_drop. lia.
  - intros _. rewrite len_take, len_drop. lia.
Qed.

Lemma ReadAt_spec io now hash id blen off st got err st' :
  0 ≤ id → 0 ≤ off → ReadAt cfg io now hash id blen off st = (got, err, st') → winv st →
  winv st' ∧ from_source source hash id off got ∧ len got ≤ Z.max 0 blen.
Proof.
  intros Hid Ho Hr Hw. unfold ReadAt in Hr.
  assert (Hnil : from_source source hash id off [] ∧ len (@nil byte) ≤ Z.max 0 blen).
  { split; [intros x Hx|]; unfold len in *; simpl in *; lia. }
  destruct (off >? FileSize cfg); [by injection Hr as <- <- <-|].
  destruct (getHandle io now (filePath hash id) st) as [r st1] eqn:Hg.
  destruct (getHandle_spec _ _ _ _ _ _ Hg Hw) as (Hw1 & Hdk & Hsc & Htc & Hch).
  destruct r as [ch|]; [|by injection Hr as <- <- <-]. destruct (Hch ch eq_refl) as [Hn _].
  destruct (GetAvailableRange cfg io now hash id st1) as [n st2] eqn:Ha.
  destruct (GetAvailableRange_spec _ _ _ _ _ _ _ Hid Ha Hw1) as (Hw2 & Hn0 & Hpos).
  destruct (off >=? n) eqn:Eoff; [by injection Hr as <- <- <-|].
  destruct (Hpos ltac:(lia)) as (Hdk2 & f & Hf & Hle).
  rewrite <-Hdk, <-Hdk2 in Hn. rewrite <-Hdk2 in Hf.
  assert (Hino : inodes (disk st2) !! h_ino ch = Some f).
  { unfold stat in Hf. by rewrite Hn in Hf. }
  cbv zeta in Hr. set (bl := if blen >? n -! off then n -! off else blen) in Hr.
  destruct (file_ReadAt io (h_ino ch) bl off (disk st2)) as [g e] eqn:Hfr.
  injection Hr as <- <- <-.
  destruct (file_ReadAt_spec _ _ _ _ _ _ _ _ Hino Ho Hfr) as (Hbytes & Hlen & _).
  pose proof (wi_head _ _ _ _ _ (proj1 Hw2) hash id f Hid Hf) as Hsrcf.
  split; [done|]. split.
  - intros x Hx. rewrite Hbytes by done. rewrite <-Hsrcf; [by rewrite Z.add_0_l|]. lia.
  - assert (bl ≤ blen) by (unfold bl; case_if; lia). lia.
Qed.

(** *** The tail *)

Lemma tail_start_spec h i : tail_start (len (source h i)) = tstart source h i.
Proof.
  unfold tail_start, tstart, TailWarmupSize. pose proof (Hsrc h i). pose proof (len_nonneg (source h i)).
  go_simpl. case_if; lia.
Qed.

Lemma tstart_bounds h i :
  0 ≤ tstart source h i ∧ tstart source h i ≤ len (source h i) ≤ 2 ^ 61 ∧
  len (source h i) - tstart source h i ≤ TailWarmupSize.
Proof.
  unfold tstart, TailWarmupSize. pose proof (Hsrc h i). pose proof (len_nonneg (source h i)). lia.
Qed.

Lemma start_tail_spec io now p st b st' :
  start_tail io now p st = (b, st') → winv st →
  winv st' ∧ tailCoverage st' = tailCoverage st ∧ sizeCache st' = sizeCache st ∧
  (create_ok io = true → b = true) ∧ (b = true → is_Some (names (disk st') !! p)).
Proof.
  intros Hs Hw. unfold start_tail in Hs. destruct (stat p (disk st)) as [f|] eqn:Hf.
  { injection Hs as <- <-. split_and!; try done. intros _. unfold stat in Hf.
    destruct (names (disk st) !! p); [eauto|done]. }
  destruct (create_ok io); injection Hs as <- <-; [|split_and!; done].
  destruct Hw as [Hi Hq]. split_and!; try done.
  - split; [|done]. simpl. by apply inv_create.
  - intros _. simpl. rewrite lookup_insert_eq. eauto.
Qed.

Lemma write_tail_spec io now hash id data rel tr st :
  0 ≤ id → 0 ≤ rel → rel + len data ≤ len (source hash id) - tstart source hash id →
  from_source source hash id (tstart source hash id + rel) data →
  tailCoverage st !! tailPath hash id = Some tr → winv st →
  let st' := write_tail io now (tailPath hash id) data rel tr st in
  winv st' ∧
  (open_ok io = true → write_fail io = None → 0 < len data →
   is_Some (names (disk st) !! tailPath hash id) →
   tailCoverage st' = <[tailPath hash id := tr_add tr rel (rel + len data)]> (tailCoverage st)).
Proof.
  intros Hid Hrel Hfit Hd Htr Hw. unfold write_tail. cbv zeta.
  destruct (getHandle io now (tailPath hash id) st) as [r st1] eqn:Hg.
  destruct (getHandle_spec _ _ _ _ _ _ Hg Hw) as ([Hi1 Hq1] & Hdk & Hsc & Htc & Hch).
  destruct r as [ch|].
  2:{ split; [by split|]. intros Ho _ _ [ino Hn]. unfold getHandle in Hg.
      rewrite Hn, Ho in Hg. by destruct (handles st !! tailPath hash id). }
  destruct (Hch ch eq_refl) as [Hn ->]. rewrite <-Hdk in Hn. rewrite <-Htc in Htr.
  unfold WriteAt. rewrite (proj2 (Z.ltb_ge _ _)) by lia.
  pose proof (tstart_bounds hash id) as (Hts & Hts2 & _). pose proof (len_nonneg data).
  assert (Hwr : ∀ d, len d ≤ len data →
    from_source source hash id (tstart source hash id + rel) d →
    warm_inv source (fwrite (h_ino ch) rel d now (disk st1)) (handles st1) (sizeCache st1)
      (<[tailPath hash id := tr_add tr rel (rel + len d)]> (tailCoverage st1))).
  { intros d Hl Hfd. apply inv_write_tail; try done. lia. }
  assert (Hgen : ∀ d, len d ≤ len data →
    from_source source hash id (tstart source hash id + rel) d →
    winv (if len d <=? 0 then set_disk (fwrite (h_ino ch) rel d now (disk st1)) st1
          else set_tailCoverage (<[tailPath hash id := tr_add tr rel (rel +! len d)]>
                 (tailCoverage st1))
                 (set_sizeCache (<[tailPath hash id := mkSize (rel +! len d) now]> (sizeCache st1))
                    (set_disk (fwrite (h_ino ch) rel d now (disk st1)) st1)))).
  { intros d Hl Hfd. specialize (Hwr d Hl Hfd). pose proof (len_nonneg d).
    destruct (len d <=? 0) eqn:E; bool_simpl.
    - split; [|done]. simpl. unfold tr_add in Hwr. rewrite (proj2 (Z.leb_le _ _)) in Hwr by lia.
      by rewrite insert_id in Hwr.
    - go_simpl. split; [|done]. simpl. apply inv_size_ins; [|done].
      intros Hsuf. exfalso. eapply head_tail_suffix; [exact Hsuf|]. apply tailPath_suffix. }
  destruct (write_fail io) as [n|].
  - split; [|done]. apply Hgen; [rewrite len_take; lia|by apply from_source_take].
  - split; [by apply Hgen|]. intros _ _ Hpos _. rewrite (proj2 (Z.leb_gt _ _)) by lia.
    go_simpl. simpl. by rewrite Htc.
Qed.

(** The coverage of a tail, as the set of its bytes. *)
Definition covered (hash : string) (id x : Z) (st : DiskWarmupCache) : Prop :=
  ∃ tr, tailCoverage st !! tailPath hash id = Some tr ∧ in_tail x tr.

Lemma tailRangeFor_spec p st tr st' :
  tailRangeFor p st = (tr, st') → winv st →
  winv st' ∧ tailCoverage st' !! p = Some tr ∧ disk st' = disk st ∧ tail_wf tr ∧
  (∀ x, in_tail x tr ↔ ∃ tr0, tailCoverage st !! p = Some tr0 ∧ in_tail x tr0).
Proof.
  unfold tailRangeFor. intros Ht [Hi Hq]. destruct (tailCoverage st !! p) as [t|] eqn:E.
  - injection Ht as <- <-. split_and!; try done; [by eapply wi_wf|].
    intros x. split; [eauto|]. intros (? & [= <-] & ?). done.
  - injection Ht as <- <-. split_and!; try done.
    + split; [|done]. simpl. by apply inv_tail_new.
    + simpl. apply lookup_insert_eq.
    + apply tail_wf_nil.
    + intros x. rewrite in_tail_nil. split; [done|]. by intros (? & ? & _).
Qed.

Lemma WriteTail_spec io now hash id data off st :
  0 ≤ id → 0 ≤ off → from_source source hash id off data → winv st →
  let st' := WriteTail io now hash id data off (len (source hash id)) st in
  winv st' ∧
  (create_ok io = true → open_ok io = true → write_fail io = None →
   tstart source hash id ≤ off → 0 < len data →
   ∀ x, covered hash id x st ∨
        off - tstart source hash id ≤ x < off - tstart source hash id + len data →
     covered hash id x st').
Proof.
  intros Hid Ho Hd Hw. unfold WriteTail. cbv zeta. rewrite tail_start_spec.
  pose proof (tstart_bounds hash id) as (Hts & Hts2 & Htl).
  destruct (off <? tstart source hash id) eqn:E1; bool_simpl; [split; [done|lia]|].
  rewrite (i64_id (len (source hash id) - tstart source hash id)) by (unfold in_i64; lia).
  assert (Hnf : len (source hash id) ≤ off → 0 < len data → False).
  { intros Hle Hpos. pose proof (from_source_fits hash id off data Ho Hd Hpos). lia. }
  destruct (decide (off < len (source hash id))) as [Hlt|Hge].
  2:{ destruct (decide (0 < len data)) as [Hp|Hp]; [destruct Hnf; [lia|done]|].
      destruct data as [|y data]; [|rewrite len_cons in Hp; pose proof (len_nonneg data); lia].
      rewrite take_nil. destruct (off -! tstart source hash id >=? _); [split; [done|lia]|].
      assert (E : len (if (off -! tstart source hash id +! len (@nil byte)) >?
                        (len (source hash id) - tstart source hash id)
                     then [] else @nil byte) = 0) by (by case_match).
      rewrite E. simpl. split; [done|lia]. }
  go_simpl.
  destruct (off - tstart source hash id >=? len (source hash id) - tstart source hash id) eqn:E2;
    [lia|].
  assert (Hlen : 0 < len data → off + len data ≤ len (source hash id))
    by (intros; by apply from_source_fits).
  pose proof (len_nonneg data) as Hdn.
  assert (Hnt : ((off - tstart source hash id +! len data) >?
                 (len (source hash id) - tstart source hash id)) = false).
  { destruct (decide (0 < len data)) as [Hp|Hp]; [specialize (Hlen Hp)|]; go_simpl; lia. }
  rewrite Hnt. destruct (len data =? 0) eqn:E3; bool_simpl; [split; [done|lia]|].
  specialize (Hlen ltac:(lia)). set (rel := off - tstart source hash id) in *.
  destruct (tailRangeFor (tailPath hash id) st) as [tr st1] eqn:Htr.
  destruct (tailRangeFor_spec _ _ _ _ Htr Hw) as (Hw1 & Htc1 & Hdk1 & Hwf & Hcov).
  destruct (complete tr) eqn:Ec.
  { split; [done|]. intros _ _ _ _ _ x Hx. exists tr. split; [done|].
    destruct Hx as [Hx|Hx]; [by apply Hcov|].
    unfold complete in Ec. apply tr_covers_spec in Ec as [_ Ec]; [|done]. apply Ec. lia. }
  destruct (start_tail io now (tailPath hash id) st1) as [b st2] eqn:Hs.
  destruct (start_tail_spec _ _ _ _ _ _ Hs Hw1) as (Hw2 & Htc2 & _ & Hb & Hnm).
  destruct b; [|split; [done|]; intros Hc; by specialize (Hb Hc)].
  rewrite <-Htc2 in Htc1.
  destruct (write_tail_spec io now hash id data rel tr st2) as [Hw3 Hadd]; try done; try lia.
  { replace (tstart source hash id + rel) with off by lia. done. }
  split; [exact Hw3|]. intros _ Hop Hwf' _ Hpos x Hx.
  specialize (Hadd Hop Hwf' Hpos (Hnm eq_refl)).
  exists (tr_add tr rel (rel + len data)). rewrite Hadd, lookup_insert_eq. split; [done|].
  apply tr_add_spec; [done|]. destruct Hx as [Hx|Hx]; [left; by apply Hcov|right; lia].
Qed.

Lemma ReadTail_spec io now hash id blen off st got err st' :
  0 ≤ id → 0 ≤ off → 0 ≤ blen ≤ 2 ^ 61 → off ≤ 2 ^ 61 →
  ReadTail io now hash id blen off (len (source hash id)) st = (got, err, st') → winv st →
  winv st' ∧ from_source source hash id off got ∧ len got ≤ blen ∧
  (open_ok io = true → read_fail io = None → tstart source hash id ≤ off →
   0 < Z.min blen (len (source hash id) - off) →
   (∀ x, off ≤ x < off + Z.min blen (len (source hash id) - off) →
      covered hash id (x - tstart source hash id) st) →
   len got = Z.min blen (len (source hash id) - off)) ∧
  (read_fail io = None → got = [] ∨ len got = Z.min blen (len (source hash id) - off)).
Proof.
  intros Hid Ho Hbl Ho2 Hr Hw. unfold ReadTail in Hr. cbv zeta in Hr. rewrite tail_start_spec in Hr.
  pose proof (tstart_bounds hash id) as (Hts & Hts2 & Htl).
  assert (Hnil : from_source source hash id off [] ∧ len (@nil byte) ≤ blen).
  { split; [intros x Hx|]; unfold len in *; simpl in *; lia. }
  destruct Hnil as [Hnil1 Hnil2].
  destruct (off <? tstart source hash id) eqn:E1; bool_simpl.
  { injection Hr as <- <- <-. split_and!; try done; [lia|by left]. }
  rewrite (i64_id (len (source hash id) - tstart source hash id)) in Hr by (unfold in_i64; lia).
  rewrite (i64_id (off - tstart source hash id)) in Hr by (unfold in_i64; lia).
  rewrite (i64_id (off - tstart source hash id + blen)) in Hr by (unfold in_i64; lia).
  set (rel := off - tstart source hash id) in *.
  set (tl := len (source hash id) - tstart source hash id) in *.
  set (re := if rel + blen >? tl then tl else rel + blen) in *.
  assert (Hre : re = Z.min tl (rel + blen)) by (unfold re; case_if; lia).
  clearbody re.
  destruct (tailCoverage st !! tailPath hash id) as [tr|] eqn:Htc.
  2:{ injection Hr as <- <- <-. split_and!; try done; [|by left]. intros _ _ _ Hp Hall.
      destruct (Hall off ltac:(lia)) as (tr & Htr & _). congruence. }
  pose proof (wi_wf _ _ _ _ _ (proj1 Hw) _ _ Htc) as Hwf.
  destruct (tr_covers tr rel re) eqn:Ecov.
  2:{ injection Hr as <- <- <-. split_and!; try done; [|by left]. intros _ _ _ Hp Hall.
      assert (Ht : tr_covers tr rel re = true); [|congruence].
      apply tr_covers_spec; [done|]. split; [lia|]. intros x Hx.
      destruct (Hall (x + tstart source hash id) ltac:(lia)) as (tr' & Htr' & Hx').
      simplify_eq. by replace (x + tstart source hash id - tstart source hash id) with x in Hx' by lia. }
  apply tr_covers_spec in Ecov as [Hlt Hcov]; [|done].
  destruct (getHandle io now (tailPath hash id) st) as [r st1] eqn:Hg.
  destruct (getHandle_spec _ _ _ _ _ _ Hg Hw) as (Hw1 & Hdk & Hsc & Htcs & Hch).
  assert (Hfile : ∃ f, stat (tailPath hash id) (disk st) = Some f ∧ len (f_data f) ≤ tl ∧
    re ≤ len (f_data f) ∧ ∀ x, rel ≤ x < re →
    f_data f !! Z.to_nat x = source hash id !! Z.to_nat (tstart source hash id + x)).
  { destruct (wi_tail _ _ _ _ _ (proj1 Hw) hash id tr rel Hid Htc (Hcov rel ltac:(lia)))
      as (f & Hf & _). exists f. split; [done|].
    split; [pose proof (wi_tlen _ _ _ _ _ (proj1 Hw) hash id f Hid Hf); lia|].
    assert (Hx : ∀ x, rel ≤ x < re → 0 ≤ x < len (f_data f) ∧
      f_data f !! Z.to_nat x = source hash id !! Z.to_nat (tstart source hash id + x)).
    { intros x Hx. destruct (wi_tail _ _ _ _ _ (proj1 Hw) hash id tr x Hid Htc (Hcov x Hx))
        as (f' & Hf' & Hr' & He'). simplify_eq. done. }
    split; [destruct (Hx (re - 1) ltac:(lia)); lia|]. intros x Hx'. by apply Hx. }
  destruct Hfile as (f & Hf & Htlf & Href & Hbytes).
  assert (Hnm : is_Some (names (disk st) !! tailPath hash id)).
  { unfold stat in Hf. destruct (names (disk st) !! tailPath hash id); [eauto|done]. }
  destruct r as [ch|].
  2:{ injection Hr as <- <- <-. split_and!; try done; [|by left]. intros Hop. exfalso.
      destruct Hnm as [ino Hn]. unfold getHandle in Hg. rewrite Hn, Hop in Hg.
      by destruct (handles st !! tailPath hash id). }
  destruct (Hch ch eq_refl) as [Hn _].
  destruct (file_ReadAt io (h_ino ch) blen rel (disk st1)) as [g e] eqn:Hfr.
  injection Hr as <- <- <-.
  assert (Hino : inodes (disk st1) !! h_ino ch = Some f).
  { rewrite Hdk. unfold stat in Hf. by rewrite Hn in Hf. }
  destruct (file_ReadAt_spec io (h_ino ch) blen rel (disk st1) f g e Hino ltac:(lia) Hfr) as (Hgot & Hlen & Hexact).
  split; [done|]. split; [|split; [lia|split]].
  - intros x Hx. rewrite Hgot by done.
    rewrite (Hbytes (rel + x)) by lia. f_equal. lia.
  - intros _ Hrf _ Hp _. rewrite (Hexact Hrf). lia.
  - intros Hrf. right. rewrite (Hexact Hrf). lia.
Qed.

(** *** Starting *)

Lemma inv_forget k hs sc tc : warm_inv source k hs sc tc → warm_inv source k ∅ ∅ ∅.
Proof.
  intros []. constructor; try done.
Qed.

Lemma inv_marker k hs sc tc b :
  warm_inv source k hs sc tc →
  warm_inv source (mkDisk (names k) (inodes k) (nextIno k) b) hs sc tc.
Proof. intros []. constructor; done. Qed.

Lemma scan_remove_inv io p k :
  warm_inv source k ∅ ∅ ∅ → warm_inv source (scan_remove io p k) ∅ ∅ ∅.
Proof.
  intros Hi. unfold scan_remove. case_match; [|done]. apply inv_unlink; try done. by left.
Qed.

Lemma scan_inv io b k :
  warm_inv source k ∅ ∅ ∅ → warm_inv source (s_disk (scanExisting io b k)) ∅ ∅ ∅.
Proof.
  intros Hk. unfold scanExisting. generalize (ReadDir k). intros l.
  assert (Hgen : ∀ s, warm_inv source (s_disk s) ∅ ∅ ∅ →
    warm_inv source (s_disk (foldl (scan_one io b) s l)) ∅ ∅ ∅); [|by apply Hgen].
  clear Hk. induction l as [|[p f] l IH]; intros s Hs; cbn [foldl]; [done|].
  apply IH. unfold scan_one. repeat case_match; simpl; auto using scan_remove_inv.
Qed.

(** A restart keeps the integrity of what the last process left. *)
Lemma InitDiskWarmup_restart io st : winv st → winv (InitDiskWarmup io (disk st)).
Proof.
  intros [Hi%inv_forget _]. split; [|constructor]. simpl.
  pose proof (scan_inv io (negb (marker (disk st))) (disk st) Hi) as Hs.
  case_match; [by apply inv_marker|done].
Qed.

(** The directory is a map from names to distinct existing inodes. *)
Definition disk_ok (k : Disk) : Prop :=
  (∀ p i, names k !! p = Some i → is_Some (inodes k !! i)) ∧
  (∀ i, is_Some (inodes k !! i) → (i < nextIno k)%nat) ∧
  (∀ p q i, names k !! p = Some i → names k !! q = Some i → p = q).

Lemma elem_of_ReadDir k p f : (p, f) ∈ ReadDir k ↔ stat p k = Some f.
Proof.
  unfold ReadDir, stat. rewrite list_elem_of_omap. split.
  - intros ([q i] & Hq & Hf). apply elem_of_map_range in Hq.
    destruct (inodes k !! i) as [g|] eqn:Hg; simplify_eq/=. by rewrite Hq; simpl.
  - intros Hf. destruct (names k !! p) as [i|] eqn:Hp; [|done]. simpl in Hf.
    exists (p, i). rewrite elem_of_map_range. split; [done|]. by rewrite Hf.
Qed.

Lemma scan_drops_all io l s :
  (∀ p, remove_ok io p = true) →
  let k := s_disk (foldl (scan_one io true) s l) in
  inodes k = inodes (s_disk s) ∧ nextIno k = nextIno (s_disk s) ∧
  ∀ p i, names k !! p = Some i →
    names (s_disk s) !! p = Some i ∧ (is_warm p = true → p ∉ l.*1).
Proof.
  intros Hrm. revert s. induction l as [|[p f] l IH]; intros s; cbn [foldl].
  { split_and!; try done. intros p i Hp. split; [done|]. intros _. apply not_elem_of_nil. }
  destruct (IH (scan_one io true s (p, f))) as (H1 & H2 & H3). cbv zeta.
  rewrite H1, H2.
  assert (Hs : inodes (s_disk (scan_one io true s (p, f))) = inodes (s_disk s) ∧
    nextIno (s_disk (scan_one io true s (p, f))) = nextIno (s_disk s) ∧
    ∀ q i, names (s_disk (scan_one io true s (p, f))) !! q = Some i →
      names (s_disk s) !! q = Some i ∧ (is_warm q = true → q ≠ p)).
  { unfold scan_one, is_warm, scan_remove. rewrite Hrm. rewrite andb_true_l.
    destruct (HasSuffix p tailSuffix) eqn:Et, (HasSuffix p warmupSuffix) eqn:Eh; simpl;
      split_and!; try done; intros q i Hq;
      try (apply lookup_delete_Some in Hq as [? ?]; by split);
      (split; [done|]); intros Hwq ->; rewrite Et, Eh in Hwq; done. }
  destruct Hs as (-> & -> & Hs). split_and!; try done. intros q i Hq.
  destruct (H3 q i Hq) as [Hq1 Hq2]. destruct (Hs q i Hq1) as [Hq3 Hq4].
  split; [done|]. intros Hwm. rewrite fmap_cons, not_elem_of_cons. auto.
Qed.

(** The first start after the upgrade: nothing on disk can be trusted, and
    nothing of it stays. *)
Lemma InitDiskWarmup_first io k :
  disk_ok k → marker k = false → (∀ p, remove_ok io p = true) → winv (InitDiskWarmup io k).
Proof.
  intros (Hino & Hfr & Hinj) Hm Hrm. split; [|constructor]. simpl. rewrite Hm. simpl.
  destruct (scan_drops_all io (ReadDir k) (mkScan 0 0 0 k) Hrm) as (H1 & H2 & H3).
  fold (scanExisting io true k) in H1, H2, H3. simpl in H1, H2, H3.
  set (k' := s_disk (scanExisting io true k)) in *.
  assert (Hnone : ∀ p f, is_warm p = true → stat p k' = Some f → False).
  { intros p f Hp Hs. unfold stat in Hs. destruct (names k' !! p) as [i|] eqn:Hn; [|done].
    destruct (H3 p i Hn) as [Hk Hnot]. apply Hnot; [done|].
    apply list_elem_of_fmap. exists (p, f). split; [done|]. apply elem_of_ReadDir.
    unfold stat. rewrite Hk. simpl in *. by rewrite <-H1. }
  assert (Hi : warm_inv source k' ∅ ∅ ∅).
  { constructor; try done.
    - intros p i Hp. destruct (H3 p i Hp) as [Hk _]. rewrite H1. eauto.
    - intros i. rewrite H1, H2. apply Hfr.
    - intros p q i Hp Hq. destruct (H3 p i Hp), (H3 q i Hq). eauto.
    - intros h i f _ Hs. exfalso. eapply Hnone; [|exact Hs]. unfold is_warm.
      by rewrite filePath_suffix.
    - intros h i f _ Hs. exfalso. eapply Hnone; [|exact Hs]. unfold is_warm.
      by rewrite tailPath_suffix, orb_true_r. }
  destruct (create_ok io); [by apply inv_marker|done].
Qed.

(** ** Reachable states *)

Inductive warm_step : DiskWarmupCache → DiskWarmupCache → Prop :=
  | W_chunk st hash id data off :
      write_ok (mkWrite hash id data off) → warm_step st (WriteChunk cfg hash id data off st)
  | W_work st io now : warm_step st (writeWorker cfg io now st)
  | W_tail st io now hash id data off :
      0 ≤ id → 0 ≤ off → from_source source hash id off data →
      warm_step st (WriteTail io now hash id data off (len (source hash id)) st)
  | W_avail st io now hash id :
      0 ≤ id → warm_step st (GetAvailableRange cfg io now hash id st).2
  | W_read st io now hash id blen off :
      0 ≤ id → 0 ≤ off → warm_step st (ReadAt cfg io now hash id blen off st).2
  | W_readtail st io now hash id blen off :
      0 ≤ id → 0 ≤ off ≤ 2 ^ 61 → 0 ≤ blen ≤ 2 ^ 61 →
      warm_step st (ReadTail io now hash id blen off (len (source hash id)) st).2
  | W_remove st io hash : warm_step st (RemoveHash io hash st)
  | W_reap st io now mx : warm_step st (reapIdle io now mx st)
  | W_ensure st b hash id fileSize : warm_step st (EnsureTail b hash id fileSize st).2
  | W_fill_range st hash id : warm_step st (tailRangeFor (tailPath hash id) st).2
  | W_fill_end st fills : warm_step st (set_tailFills fills st)
  | W_restart st io : warm_step st (InitDiskWarmup io (disk st)).

Inductive warm_reachable : DiskWarmupCache → Prop :=
  | WR_first io k : disk_ok k → marker k = false → (∀ p, remove_ok io p = true) →
      warm_reachable (InitDiskWarmup io k)
  | WR_step st st' : warm_reachable st → warm_step st st' → warm_reachable st'.

Lemma warm_step_winv st st' : warm_step st st' → winv st → winv st'.
Proof.
  intros Hs Hw. destruct Hs.
  - by apply WriteChunk_winv.
  - by apply writeWorker_winv.
  - by apply WriteTail_spec.
  - destruct (GetAvailableRange cfg io now hash id st) as [n st'] eqn:E.
    eapply GetAvailableRange_spec; done.
  - destruct (ReadAt cfg io now hash id blen off st) as [[g e] st'] eqn:E.
    eapply ReadAt_spec in E; [|done..]. by destruct E.
  - destruct (ReadTail io now hash id blen off _ st) as [[g e] st'] eqn:E.
    eapply ReadTail_spec in E; [|done || lia..]. by destruct E.
  - by apply RemoveHash_winv.
  - by apply reapIdle_winv.
  - unfold EnsureTail. repeat case_match; exact Hw.
  - destruct (tailRangeFor (tailPath hash id) st) as [tr st'] eqn:E.
    by destruct (tailRangeFor_spec _ _ _ _ E Hw).
  - exact Hw.
  - by apply InitDiskWarmup_restart.
Qed.

Lemma warm_reachable_winv st : warm_reachable st → winv st.
Proof.
  induction 1 as [io k Hk Hm Hrm|st st' _ IH Hs].
  - by apply InitDiskWarmup_first.
  - by eapply warm_step_winv.
Qed.


(** ** The sequential fill *)

(** The loop ends whatever the network does: each turn moves forward. *)
Lemma fill_loop_ends fetch ios now hash id fuel rel st :
  (∀ k off n bs, 0 ≤ n → fetch k off n = Some bs → len bs ≤ n) →
  0 ≤ rel ≤ len (source hash id) - tstart source hash id →
  len (source hash id) - tstart source hash id - rel < Z.of_nat fuel →
  (fill_loop fuel fetch ios now hash id (len (source hash id)) rel st).1 ≠ OutOfFuel.
Proof.
  intros Hf. revert rel st. induction fuel as [|fuel IH]; intros rel st Hrel Hfuel; [lia|].
  pose proof (tstart_bounds hash id) as (Hts & Hts2 & Htl). cbn [fill_loop]. cbv zeta.
  rewrite tail_start_spec. unfold TailWarmupSize, tailFillChunk in *. go_simpl.
  case_if; [|done]. destruct (tailRangeFor _ st) as [tr st1].
  set (e := if _ >? _ then _ else _).
  assert (He : rel < e ≤ len (source hash id) - tstart source hash id).
  { unfold e. case_if; lia. }
  clearbody e. case_if; [apply IH; lia|].
  destruct (fetch fuel _ _) as [bs|] eqn:Hbs; [|done]. case_if; [done|].
  apply Hf in Hbs; [|go_simpl; lia]. go_simpl. apply IH; lia.
Qed.

(** With a network that delivers and a disk that works, the loop covers the
    whole tail window. *)
Lemma fill_loop_covers fetch ios now hash id fuel rel st :
  0 ≤ id →
  (∀ k off n, 0 ≤ off → 0 < n → off + n ≤ len (source hash id) →
     ∃ bs, fetch k off n = Some bs ∧ 0 < len bs ≤ n ∧ from_source source hash id off bs) →
  (∀ k, create_ok (ios k) = true ∧ open_ok (ios k) = true ∧ write_fail (ios k) = None) →
  0 ≤ rel ≤ len (source hash id) - tstart source hash id →
  len (source hash id) - tstart source hash id - rel < Z.of_nat fuel →
  winv st → (∀ x, 0 ≤ x < rel → covered hash id x st) →
  ∃ st', fill_loop fuel fetch ios now hash id (len (source hash id)) rel st = (FillDone, st') ∧
    winv st' ∧ ∀ x, 0 ≤ x < len (source hash id) - tstart source hash id → covered hash id x st'.
Proof.
  intros Hid Hf Hio. revert rel st.
  induction fuel as [|fuel IH]; intros rel st Hrel Hfuel Hw Hcov; [lia|].
  pose proof (tstart_bounds hash id) as (Hts & Hts2 & Htl). cbn [fill_loop]. cbv zeta.
  rewrite tail_start_spec. unfold TailWarmupSize, tailFillChunk in *. go_simpl.
  destruct (rel <? len (source hash id) - tstart source hash id) eqn:Erel; bool_simpl.
  2:{ exists st. split; [done|]. split; [done|]. intros x Hx. apply Hcov. lia. }
  destruct (tailRangeFor (tailPath hash id) st) as [tr st1] eqn:Htr.
  destruct (tailRangeFor_spec _ _ _ _ Htr Hw) as (Hw1 & Htc1 & _ & Hwf & Hin).
  assert (Hcov1 : ∀ x, covered hash id x st → covered hash id x st1).
  { intros x Hx. exists tr. split; [done|]. by apply Hin. }
  set (e := if _ >? _ then _ else _).
  assert (He : rel < e ≤ len (source hash id) - tstart source hash id).
  { unfold e. case_if; lia. }
  clearbody e. destruct (tr_covers tr rel e) eqn:Ec.
  { apply tr_covers_spec in Ec as [_ Ec]; [|done]. apply IH; [lia|lia|done|].
    intros x Hx. destruct (decide (x < rel)); [apply Hcov1, Hcov; lia|].
    exists tr. split; [done|]. apply Ec. lia. }
  go_simpl.
  destruct (Hf fuel (tstart source hash id + rel) (e - rel) ltac:(lia) ltac:(lia) ltac:(lia))
    as (bs & -> & Hbs & Hsb).
  rewrite (proj2 (Z.leb_gt _ _)) by lia. go_simpl.
  destruct (Hio fuel) as (Hc & Ho & Hwf').
  destruct (WriteTail_spec (ios fuel) now hash id bs (tstart source hash id + rel) st1)
    as [Hw2 Hadd]; [done|lia|done|done|].
  specialize (Hadd Hc Ho Hwf' ltac:(lia) ltac:(lia)).
  apply IH; [lia|lia|done|]. intros x Hx. apply Hadd.
  destruct (decide (x < rel)); [left; apply Hcov1, Hcov; lia|right; lia].
Qed.

Lemma TailReady_iff hash id st :
  0 ≤ id → winv st →
  TailReady hash id st = true ↔ ∀ x, 0 ≤ x < TailWarmupSize → covered hash id x st.
Proof.
  intros Hid Hw. unfold TailReady, covered.
  destruct (tailCoverage st !! tailPath hash id) as [tr|] eqn:E.
  - unfold complete. rewrite tr_covers_spec by exact (wi_wf _ _ _ _ _ (proj1 Hw) _ _ E).
    split; [intros [_ Hall]; eauto|]. intros Hall. split; [done|]. intros x Hx.
    destruct (Hall x Hx) as (tr' & [= <-] & Hx'). done.
  - split; [done|]. intros Hall. destruct (Hall 0) as (tr & ? & _); [unfold TailWarmupSize; lia|done].
Qed.

(** The tail of a file shorter than the window is never ready. *)
Lemma TailReady_short hash id st :
  0 ≤ id → winv st → len (source hash id) < TailWarmupSize → TailReady hash id st = false.
Proof.
  intros Hid Hw Hl. apply not_true_iff_false. rewrite TailReady_iff by done. intros Hall.
  destruct (Hall (len (source hash id))) as (tr & Htr & Hx).
  { pose proof (len_nonneg (source hash id)). lia. }
  destruct (wi_tail _ _ _ _ _ (proj1 Hw) hash id tr _ Hid Htr Hx) as (f & Hf & Hlen & _).
  pose proof (wi_tlen _ _ _ _ _ (proj1 Hw) hash id f Hid Hf).
  pose proof (tstart_bounds hash id). lia.
Qed.

(** The sequential fill of the tail always ends: it needs no more turns than
    the window has bytes, whatever the network answers.  When every fetch
    delivers something and the disk works it ends done, with every byte of the
    window covered and its slot given back; the tail is then reported ready
    exactly when the file is at least as long as the 16 MB window. *)
Theorem fill_ends_complete fetch ios now hash id fuel st :
  warm_reachable st → 0 ≤ id →
  (∀ k off n bs, 0 ≤ n → fetch k off n = Some bs → len bs ≤ n) →
  len (source hash id) < Z.of_nat fuel →
  let '(r, st') := run_fill fuel fetch ios now hash id (len (source hash id)) st in
  r ≠ OutOfFuel ∧ (tailPath hash id ∉ tailFills st') ∧
  ((∀ k off n, 0 ≤ off → 0 < n → off + n ≤ len (source hash id) →
      ∃ bs, fetch k off n = Some bs ∧ 0 < len bs ∧ from_source source hash id off bs) →
   (∀ k, create_ok (ios k) = true ∧ open_ok (ios k) = true ∧ write_fail (ios k) = None) →
   r = FillDone ∧
   (∀ x, tstart source hash id ≤ x < len (source hash id) →
      covered hash id (x - tstart source hash id) st') ∧
   (TailReady hash id st' = true ↔ TailWarmupSize ≤ len (source hash id))).
Proof.
  intros Hr Hid Hle Hfuel. apply warm_reachable_winv in Hr.
  pose proof (tstart_bounds hash id) as (Hts & Hts2 & Htl).
  unfold run_fill. pose proof (fill_loop_ends fetch ios now hash id fuel 0 st Hle ltac:(lia) ltac:(lia)) as He.
  destruct (fill_loop fuel fetch ios now hash id (len (source hash id)) 0 st) as [r st1] eqn:Hl.
  split; [done|]. split; [simpl; set_solver|]. intros Hf Hio.
  destruct (fill_loop_covers fetch ios now hash id fuel 0 st) as (st2 & E & Hw & Hcov);
    [done| |done|lia|lia|done|lia|].
  { intros k off n H1 H2 H3. destruct (Hf k off n H1 H2 H3) as (bs & Hbs & Hpos & Hs).
    exists bs. specialize (Hle k off n bs ltac:(lia) Hbs). split_and!; try done; lia. }
  rewrite Hl in E. injection E as -> ->. split; [done|]. split.
  - intros x Hx. destruct (Hcov (x - tstart source hash id) ltac:(lia)) as (tr & Htr & Hx').
    exists tr. done.
  - split.
    + intros Ht. destruct (decide (TailWarmupSize ≤ len (source hash id))); [done|].
      rewrite (TailReady_short hash id) in Ht; [done|done|exact Hw|lia].
    + intros Hl16. rewrite TailReady_iff; [|done|exact Hw]. intros x Hx. unfold tstart in Hcov.
      destruct (Hcov x ltac:(lia)) as (tr & Htr & Hx'). by exists tr.
Qed.
End operations.

(** ** The quota *)

Section quota.
Context `{GoRuntime} (cfg : Config).

Lemma elem_of_warm_files k e : e ∈ warm_files k ↔ is_warm e.1 = true ∧ stat e.1 k = Some e.2.
Proof.
  destruct e as [p f]. unfold warm_files. rewrite list_elem_of_filter, elem_of_ReadDir. done.
Qed.

Lemma NoDup_ReadDir_fst k : NoDup ((ReadDir k).*1).
Proof.
  unfold ReadDir. pose proof (NoDup_map_range_fst (names k)) as Hn.
  induction (map_range (names k)) as [|[p i] l IH]; simpl; [constructor|].
  simpl in Hn. apply list.NoDup_cons in Hn as [Hp Hn]. specialize (IH Hn).
  destruct (inodes k !! i) as [f|]; simpl; [|done]. apply list.NoDup_cons. split; [|done].
  intros ([q g] & -> & Hq)%list_elem_of_fmap.
  apply list_elem_of_omap in Hq as ([q' j] & Hq' & Hj). destruct (inodes k !! j); simplify_eq/=.
  apply Hp, list_elem_of_fmap. by exists (q, j).
Qed.

Lemma NoDup_warm_files_fst k : NoDup ((warm_files k).*1).
Proof.
  unfold warm_files. pose proof (NoDup_ReadDir_fst k) as Hn.
  induction (ReadDir k) as [|e l IH]; [constructor|]. simpl in Hn.
  apply list.NoDup_cons in Hn as [He Hn]. rewrite filter_cons. case_decide; [|auto].
  simpl. apply list.NoDup_cons. split; [|auto]. intros (e' & E & He')%list_elem_of_fmap.
  apply He. rewrite E. apply list_elem_of_fmap. exists e'. split; [done|].
  by apply list_elem_of_filter in He' as [_ ?].
Qed.

(** The loop drops a prefix of the list: as many files as are needed. *)
Lemma quota_loop_spec io quota needed l total st :
  (∀ p, remove_ok io p = true) → 0 ≤ needed ≤ 2 ^ 61 → total = sumZ fsize l → total ≤ 2 ^ 61 →
  ∃ dropped kept, l = (dropped ++ kept)%list ∧
    let '(total', st') := quota_loop io quota needed l total st in
    total' = sumZ fsize kept ∧
    (kept = [] ∨ total' + needed ≤ quota) ∧
    (∀ ds d, dropped = (ds ++ [d])%list → quota < total' + fsize d + needed) ∧
    ∀ q, stat q (disk st') = if decide (q ∈ dropped.*1) then None else stat q (disk st).
Proof.
  intros Hrm Hn. revert total st. induction l as [|e l IH]; intros total st Ht Hle; cbn [quota_loop].
  { exists [], []. split; [done|]. split_and!; [done|by left|by intros [|]|].
    intros q. rewrite decide_False; [done|]. apply not_elem_of_nil. }
  assert (Hpos : ∀ l' : list (string * File), 0 ≤ sumZ fsize l').
  { intros l'. apply sumZ_nonneg. intros. apply len_nonneg. }
  cbn [sumZ foldr] in Ht. fold (sumZ fsize l) in Ht. pose proof (Hpos l).
  assert (0 ≤ fsize e) by apply len_nonneg.
  rewrite (i64_id (total + needed)) by (unfold in_i64; lia).
  destruct (total + needed <=? quota) eqn:E; bool_simpl.
  { exists [], (e :: l). split; [done|]. split_and!; [done|right; lia|by intros [|]|].
    intros q. rewrite decide_False; [done|]. apply not_elem_of_nil. }
  rewrite (i64_id (total - fsize e)) by (unfold in_i64; lia).
  destruct (IH (total - fsize e) (drop_file io e.1 st)) as (dr & kp & -> & Hres); [lia|lia|].
  exists (e :: dr), kp. split; [done|].
  destruct (quota_loop io quota needed (dr ++ kp) (total - fsize e) (drop_file io e.1 st)) as [t' st'].
  destruct Hres as (Ht' & Hq & Hmin & Hst). split_and!; try done.
  - intros [|d0 ds] d Hd; simpl in Hd; simplify_eq.
    + rewrite sumZ_app in *. simpl in *. lia.
    + by eapply Hmin.
  - intros q. rewrite Hst, drop_file_stat, Hrm. rewrite fmap_cons.
    repeat case_decide; set_solver.
Qed.

Lemma foldl_sum (l : list (string * File)) t :
  0 ≤ t → t + sumZ fsize l ≤ 2 ^ 61 → foldl (λ t e, t +! fsize e) t l = t + sumZ fsize l.
Proof.
  revert t. induction l as [|e l IH]; intros t Ht Hs; cbn [foldl sumZ foldr] in *; [lia|].
  fold (sumZ fsize l) in *. assert (0 ≤ fsize e) by apply len_nonneg.
  assert (0 ≤ sumZ fsize l) by (apply sumZ_nonneg; intros; apply len_nonneg).
  rewrite (i64_id (t + fsize e)) by (unfold in_i64; lia). rewrite IH by lia. lia.
Qed.

Lemma older_weak : strict_weak older.
Proof. unfold older. repeat split; intros; bool_simpl; lia. Qed.

Lemma sorted_app_le (R : relation (string * File)) l1 l2 :
  StronglySorted R (l1 ++ l2)%list → ∀ a b, a ∈ l1 → b ∈ l2 → R a b.
Proof.
  intros Hs a b Ha Hb. apply list_elem_of_lookup in Ha as [i Hi], Hb as [j Hj].
  apply (sorted_lookup R _ Hs i (length l1 + j)).
  - apply lookup_lt_Some in Hi. lia.
  - by apply lookup_app_l_Some.
  - rewrite lookup_app_r by lia. by replace (length l1 + j - length l1)%nat with j by lia.
Qed.

(** When the tracked size and the new file exceed the quota, the cache drops
    the files modified longest ago, no more of them than needed, until the
    rest and the new file fit or nothing is left, and the tracked size becomes
    the size of what is on disk. *)
Theorem enforceQuota_evicts_oldest io needed st :
  (∀ p, remove_ok io p = true) → 0 ≤ needed ≤ 2 ^ 61 → -2 ^ 61 ≤ totalSize st ≤ 2 ^ 61 →
  sumZ fsize (warm_files (disk st)) ≤ 2 ^ 61 → quota_of cfg < totalSize st + needed →
  let st' := enforceQuotaLocked cfg io needed st in
  ∃ dropped kept, warm_files (disk st) ≡ₚ (dropped ++ kept)%list ∧
    warm_files (disk st') ≡ₚ kept ∧
    totalSize st' = sumZ fsize kept ∧
    (kept = [] ∨ totalSize st' + needed ≤ quota_of cfg) ∧
    (∀ ds d, dropped = (ds ++ [d])%list → quota_of cfg < totalSize st' + fsize d + needed) ∧
    (∀ d e, d ∈ dropped → e ∈ kept → older e d = false).
Proof.
  intros Hrm Hn Ht Hs Hq. cbv zeta. unfold enforceQuotaLocked.
  rewrite (i64_id (totalSize st + needed)) by (unfold in_i64; lia).
  rewrite (proj2 (Z.leb_gt _ _)) by lia. cbv zeta.
  set (files := warm_files (disk st)) in *.
  assert (Hpos : 0 ≤ sumZ fsize files) by (apply sumZ_nonneg; intros; apply len_nonneg).
  rewrite (foldl_sum files 0) by lia. rewrite Z.add_0_l.
  rewrite (i64_id (sumZ fsize files + needed)) by (unfold in_i64; lia).
  destruct (sumZ fsize files + needed <=? quota_of cfg) eqn:E; bool_simpl.
  { exists [], files. split_and!; try done; [right; simpl; lia|by intros [|]|].
    intros d e Hd. by apply elem_of_nil in Hd. }
  pose proof (sort_slice_perm _ older files) as Hp.
  pose proof (sort_slice_sorted _ older files older_weak) as Hss.
  destruct (quota_loop_spec io (quota_of cfg) needed (sort_slice older files)
    (sumZ fsize files) (set_totalSize (sumZ fsize files) st) Hrm Hn) as (dr & kp & Hl & Hres);
    [by rewrite Hp|done|].
  destruct (quota_loop io (quota_of cfg) needed (sort_slice older files) _ _) as [t' st'].
  destruct Hres as (Ht' & Hfit & Hmin & Hst). exists dr, kp. simpl. rewrite Hl in Hp, Hss.
  split_and!; try done; [|apply (sorted_app_le _ dr kp Hss)].
  assert (Hnd : NoDup ((dr ++ kp)%list.*1)).
  { rewrite Hp. apply NoDup_warm_files_fst. }
  assert (Hndk : NoDup kp).
  { apply (NoDup_fmap_1 fst). rewrite fmap_app in Hnd. by apply list.NoDup_app in Hnd as (_ & _ & ?). }
  apply NoDup_Permutation; [|done|].
  { apply (NoDup_fmap_1 fst), NoDup_warm_files_fst. }
  intros e. rewrite elem_of_warm_files, Hst. simpl.
  rewrite fmap_app in Hnd. apply list.NoDup_app in Hnd as (_ & Hdis & _).
  assert (Hmem : e ∈ kp ↔ e ∈ files ∧ e.1 ∉ dr.*1).
  { rewrite <-Hp, elem_of_app. split.
    - intros He. split; [by right|]. intros Hd. apply (Hdis _ Hd), list_elem_of_fmap. eauto.
    - intros [[He|He] Hd]; [|done]. destruct Hd. apply list_elem_of_fmap. eauto. }
  rewrite Hmem. unfold files. rewrite elem_of_warm_files. case_decide; naive_solver.
Qed.
End quota.

(** ** Observations on the accounting

    [WriteTail] stores without counting and without enforcing the quota, while
    [RemoveHash] gives the size of a tail back: the tracked size goes below
    zero. *)

Lemma WriteTail_uncounted `{GoRuntime} io now hash id data off fileSize st :
  totalSize (WriteTail io now hash id data off fileSize st) = totalSize st.
Proof.
  assert (Hg : ∀ p s, totalSize (getHandle io now p s).2 = totalSize s).
  { intros p s. unfold getHandle. by repeat case_match. }
  assert (Hs : ∀ p s, totalSize (start_tail io now p s).2 = totalSize s).
  { intros p s. unfold start_tail. by repeat case_match. }
  assert (Ht : ∀ p s, totalSize (tailRangeFor p s).2 = totalSize s).
  { intros p s. unfold tailRangeFor. by case_match. }
  assert (Hw : ∀ p d r tr s, totalSize (write_tail io now p d r tr s) = totalSize s).
  { intros p d r tr s. unfold write_tail. specialize (Hg p s).
    destruct (getHandle io now p s) as [[ch|] s']; simpl in Hg; [|done].
    destruct (closed ch); [done|]. destruct (WriteAt _ _ _ _ _ _) as [[n ?] k]. by destruct (n <=? 0). }
  unfold WriteTail. cbv zeta. destruct (off <? tail_start fileSize); [done|].
  destruct (off -! tail_start fileSize >=? _); [done|]. destruct (len _ =? 0); [done|].
  specialize (Ht (tailPath hash id) st). destruct (tailRangeFor (tailPath hash id) st) as [tr st1].
  simpl in Ht. destruct (complete tr); [done|]. specialize (Hs (tailPath hash id) st1).
  destruct (start_tail io now (tailPath hash id) st1) as [[] st2]; simpl in Hs; [|congruence].
  by rewrite Hw, Hs.
Qed.

Definition demo_bytes : list byte := [Byte.x01; Byte.x02; Byte.x03].
Definition demo_source : string → Z → list byte := λ _ _, demo_bytes.
Definition demo_cfg : Config := mkConfig 67108864 1 true.
Definition demo_disk : Disk := mkDisk ∅ ∅ 0 false.
Definition demo_init : DiskWarmupCache := InitDiskWarmup io_fine demo_disk.
Definition demo_tail : DiskWarmupCache :=
  WriteTail io_fine 5 "ab" 0 demo_bytes 0 3 demo_init.

(** The tracked size after one tail is written and its torrent removed. *)
Lemma RemoveHash_underflow :
  totalSize (RemoveHash io_fine "ab" demo_tail) = -3 ∧ names (disk (RemoveHash io_fine "ab" demo_tail)) = ∅.
Proof. vm_compute. done. Qed.

(** ** Witnesses *)

Lemma demo_from_source h i : from_source demo_source h i 0 demo_bytes.
Proof. intros x Hx. by rewrite Z.add_0_l. Qed.

Lemma demo_init_reachable : warm_reachable demo_cfg demo_source demo_init.
Proof. apply WR_first; [|done|done]. split_and!; simpl; [done| |done]. by intros i [? ?]. Qed.

Lemma demo_tail_reachable : warm_reachable demo_cfg demo_source demo_tail.
Proof.
  eapply WR_step; [apply demo_init_reachable|].
  exact (W_tail demo_cfg demo_source demo_init io_fine 5 "ab" 0 demo_bytes 0
           ltac:(lia) ltac:(lia) (demo_from_source "ab" 0)).
Qed.

Lemma demo_len h i : len (demo_source h i) ≤ 2 ^ 61.
Proof. vm_compute. discriminate. Qed.


Definition demo_fetch (k : nat) (off n : Z) : option (list byte) :=
  Some (take (Z.to_nat n) (drop (Z.to_nat off) demo_bytes)).

Lemma fill_ends_complete_witness :
  let '(r, st') := run_fill 4 demo_fetch (λ _, io_fine) 7 "ab" 0 (len (demo_source "ab" 0)) demo_init in
  r = FillDone ∧ TailReady "ab" 0 st' = false.
Proof.
  pose proof (fill_ends_complete demo_cfg demo_source ltac:(vm_compute; split; discriminate) demo_len
    demo_fetch (λ _, io_fine) 7 "ab" 0 4 demo_init demo_init_reachable ltac:(lia)) as Hf.
  destruct (run_fill 4 demo_fetch (λ _, io_fine) 7 "ab" 0 (len (demo_source "ab" 0)) demo_init)
    as [r st'].
  destruct Hf as (_ & _ & Hf).
  { intros k off n bs Hn [= <-]. rewrite len_take. lia. }
  { vm_compute. reflexivity. }
  destruct Hf as (Hdone & _ & Hready).
  { intros k off n Ho Hn Hfit. eexists. split; [reflexivity|]. split.
    - rewrite len_take, len_drop. change (len (demo_source "ab" 0)) with 3 in Hfit.
      change (len demo_bytes) with 3. lia.
    - intros x Hx. rewrite read_lookup by done. reflexivity. }
  { done. }
  split; [exact Hdone|]. apply not_true_iff_false. rewrite Hready. vm_compute. auto.
Defined.

(** Two files of one byte, a quota of one GB and a request for all of it: both
    go, the older first. *)
Definition demo_two : DiskWarmupCache :=
  mkWarm 2 ∅ ∅ ∅ ∅ ∅ ∅ [] (replicate 8 0) []
    (mkDisk {[ "a-0.warmup" := 0%nat; "b-0.warmup-tail" := 1%nat ]}
       {[ 0%nat := mkFile [Byte.x01] 1; 1%nat := mkFile [Byte.x02] 2000000000 ]} 2 true).

Lemma enforceQuota_evicts_oldest_witness :
  totalSize (enforceQuotaLocked demo_cfg io_fine (1073741824 - 1) demo_two) = 1 ∧
  ∃ dropped kept, warm_files (disk demo_two) ≡ₚ (dropped ++ kept)%list ∧
    ∀ d e, d ∈ dropped → e ∈ kept → older e d = false.
Proof.
  destruct (enforceQuota_evicts_oldest demo_cfg io_fine (1073741824 - 1) demo_two)
    as (dr & kp & H1 & H2 & H3 & H4 & H5 & H6);
    [done|lia|vm_compute; split; discriminate|vm_compute; discriminate|vm_compute; reflexivity|].
  split; [vm_compute; reflexivity|]. exists dr, kp. split; [exact H1|exact H6].
Defined.
