(* ===== verification/RaCache.v ===== *)
(** * The read-ahead cache (main.go, [ReadAheadCache])

    A 32-shard cache of chunks keyed by path and chunk number, with a recycled
    buffer pool.  Arrays are identities into a heap, as Go slices are pointers
    into backing arrays: a chunk that was evicted and a chunk that reuses its
    array are told apart only by who still holds the identity.  [gc()], the
    configuration, is the argument [cfg]; [xxhash] is the hash the shards are
    chosen with.  Each lock section is one step; logging is left out. *)

From Stdlib Require Import Ascii String.
From S2P Require Import Prelude GoStrings.
Local Open Scope string_scope.
Local Open Scope Z_scope.
Local Open Scope go_scope.

Abbreviation byte := Byte.byte.

(** ** Data *)

Record RaConfig := mkRaConfig { ReadAheadBase : Z; ReadAheadBudget : Z }.

Record RaBuffer := mkRaBuffer {
  rb_start : Z;
  rb_end : Z;
  rb_arr : nat;
  rb_len : Z;
  lastAccess : Z;
  sessionID : Z;
  responsiveOnly : bool
}.

Record raShard := mkRaShard {
  buffers : gmap string RaBuffer;
  order : list string;
  total : Z
}.

(** The buffer memory: the pool channel and the arrays. *)
Record RaMem := mkRaMem {
  pool : list nat;
  poolCap : Z;
  heap : gmap nat (list byte);
  nextArr : nat
}.

Record ReadAheadCache := mkRaCache {
  shards : list raShard;
  used : Z;
  mem : RaMem;
  activePath : string;
  currentSessionID : Z;
  pieceLens : gmap string Z
}.

Definition empty_shard : raShard := mkRaShard ∅ [] 0.

Definition newReadAheadCache : ReadAheadCache :=
  mkRaCache (replicate 32 empty_shard) 0 (mkRaMem [] 32 ∅ 0) "" 0 ∅.

Section ra.
Context `{GoRuntime} (cfg : RaConfig) (xxhash : string → Z).

Definition base_size : Z := if ReadAheadBase cfg =? 0 then 16 * 1024 * 1024 else ReadAheadBase cfg.

(** ** Chunk sizes *)

Definition SetPieceLen (path : string) (pl : Z) (c : ReadAheadCache) : ReadAheadCache :=
  let base := base_size in
  let set m := mkRaCache (shards c) (used c) (mem c) (activePath c) (currentSessionID c) m in
  if pl <=? 0 then set (delete path (pieceLens c))
  else
    let n := base /! pl in
    if n >? 0 then set (<[path := n *! pl]> (pieceLens c))
    else set (<[path := base]> (pieceLens c)).

Definition ChunkSize (path : string) (c : ReadAheadCache) : Z :=
  match pieceLens c !! path with Some v => v | None => base_size end.

Definition AnchorPoolToConfig (c : ReadAheadCache) : ReadAheadCache :=
  let base := if ReadAheadBase cfg <=? 0 then 16 * 1024 * 1024 else ReadAheadBase cfg in
  let budget := if ReadAheadBudget cfg <=? 0 then 256 * 1024 * 1024 else ReadAheadBudget cfg in
  let n := budget /! base *! 2 in
  let n := if n <? 16 then 16 else n in
  let n := if n >? 64 then 64 else n in
  if n =? poolCap (mem c) then c
  else mkRaCache (shards c) (used c) (mkRaMem [] n (heap (mem c)) (nextArr (mem c)))
         (activePath c) (currentSessionID c) (pieceLens c).

Definition shard_idx (path : string) : nat := Z.to_nat (Z.land (xxhash path) 31).

Definition chunkKey (path : string) (offset : Z) (c : ReadAheadCache) : string :=
  path +:+ ":" +:+ itoa (offset /! ChunkSize path c).

(** ** Buffers *)

(** The capacity of an array. *)
Definition arr_cap (m : RaMem) (a : nat) : Z := len (default [] (heap m !! a)).

Definition allocChunk (size base : Z) (m : RaMem) : nat * RaMem :=
  let cap := if size <? base then base else size in
  (nextArr m, mkRaMem (pool m) (poolCap m)
                (<[nextArr m := replicate (Z.to_nat cap) Byte.x00]> (heap m)) (S (nextArr m))).

(** The [select] on the pool: an array of at least [size] bytes. *)
Definition take_buffer (size : Z) (m : RaMem) : nat * RaMem :=
  match pool m with
  | a :: rest =>
      let m := mkRaMem rest (poolCap m) (heap m) (nextArr m) in
      if arr_cap m a >=? size then (a, m) else allocChunk size base_size m
  | [] => allocChunk size base_size m
  end.

Definition recycle (a : nat) (m : RaMem) : RaMem :=
  let chunkSize := if ReadAheadBase cfg >? 0 then ReadAheadBase cfg else 16 * 1024 * 1024 in
  if (arr_cap m a =? chunkSize) && (len (pool m) <? poolCap m)
  then mkRaMem (pool m ++ [a])%list (poolCap m) (heap m) (nextArr m) else m.

(** [copy(dataCopy, d)] *)
Definition fill_array (a : nat) (d : list byte) (m : RaMem) : RaMem :=
  mkRaMem (pool m) (poolCap m)
    (alter (λ l, (take (length l) d ++ drop (length d) l)%list) a (heap m)) (nextArr m).

(** [b.data[lo:hi]]: a slice may reach up to the capacity. *)
Definition data_slice (m : RaMem) (b : RaBuffer) (lo hi : Z) : option (list byte) :=
  slice (default [] (heap m !! rb_arr b)) lo hi.

(** ** Reading *)

Definition shard_at (path : string) (c : ReadAheadCache) : raShard :=
  default empty_shard (shards c !! shard_idx path).

(** The chunks a read of [off..end] needs: one, or two that meet. *)
Inductive hit := Hit1 (b : RaBuffer) | Hit2 (b b2 : RaBuffer) | NoHit.

Definition find_chunks (p : string) (off e : Z) (c : ReadAheadCache) : hit :=
  let s := shard_at p c in
  match buffers s !! chunkKey p off c with
  | Some b =>
      if (off >=? rb_start b) && (off <=? rb_end b) then
        if e <=? rb_end b then Hit1 b
        else match buffers s !! chunkKey p e c with
             | Some b2 => if (rb_start b2 =? rb_end b +! 1) && (rb_end b2 >=? e) then Hit2 b b2 else NoHit
             | None => NoHit
             end
      else NoHit
  | None => NoHit
  end.

Definition set_access (now : Z) (b : RaBuffer) : RaBuffer :=
  mkRaBuffer (rb_start b) (rb_end b) (rb_arr b) (rb_len b) now (sessionID b) (responsiveOnly b).

Definition set_shard (i : nat) (s : raShard) (c : ReadAheadCache) : ReadAheadCache :=
  mkRaCache (<[i := s]> (shards c)) (used c) (mem c) (activePath c) (currentSessionID c) (pieceLens c).

Definition touch_key (path k : string) (now : Z) (c : ReadAheadCache) : ReadAheadCache :=
  let s := shard_at path c in
  set_shard (shard_idx path) (mkRaShard (alter (set_access now) k (buffers s)) (order s) (total s)) c.

Definition Covered (p : string) (off e now : Z) (c : ReadAheadCache) : bool * ReadAheadCache :=
  match find_chunks p off e c with
  | Hit1 _ => (true, touch_key p (chunkKey p off c) now c)
  | Hit2 _ _ => (true, touch_key p (chunkKey p e c) now (touch_key p (chunkKey p off c) now c))
  | NoHit => (false, c)
  end.

(** [Get] and [CopyTo] stamp the first chunk before they know the outcome. *)
Definition touch_first (p : string) (off now : Z) (c : ReadAheadCache) : ReadAheadCache :=
  match buffers (shard_at p c) !! chunkKey p off c with
  | Some b => if (off >=? rb_start b) && (off <=? rb_end b)
              then touch_key p (chunkKey p off c) now c else c
  | None => c
  end.

(** [None] is a panic; [Some (None, _)] the nil slice. *)
Definition Ra_Get (p : string) (off e now : Z) (c : ReadAheadCache)
    : option (option (list byte) * ReadAheadCache) :=
  let c1 := touch_first p off now c in
  match find_chunks p off e c with
  | Hit1 b => d ← data_slice (mem c) b (off -! rb_start b) (e -! rb_start b +! 1); Some (Some d, c1)
  | Hit2 b b2 =>
      d1 ← data_slice (mem c) b (off -! rb_start b) (rb_len b);
      d2 ← data_slice (mem c) b2 0 (e -! rb_start b2 +! 1);
      let out := e -! off +! 1 in
      if out <? 0 then None
      else Some (Some (take (Z.to_nat out) (d1 ++ d2 ++ replicate (Z.to_nat out) Byte.x00)%list),
                 touch_key p (chunkKey p e c) now c1)
  | NoHit => Some (None, c1)
  end.

Definition Exists (p : string) (off : Z) (c : ReadAheadCache) : bool :=
  match buffers (shard_at p c) !! chunkKey p off c with Some _ => true | None => false end.

(** [CopyTo] into a destination of [dlen] bytes: the bytes it holds afterwards. *)
Definition CopyTo (p : string) (off e dlen now : Z) (c : ReadAheadCache)
    : option (list byte * ReadAheadCache) :=
  let c1 := touch_first p off now c in
  match find_chunks p off e c with
  | Hit1 b => d ← data_slice (mem c) b (off -! rb_start b) (e -! rb_start b +! 1);
              Some (take (Z.to_nat dlen) d, c1)
  | Hit2 b b2 =>
      d1 ← data_slice (mem c) b (off -! rb_start b) (rb_len b);
      let n1 := take (Z.to_nat dlen) d1 in
      d2 ← data_slice (mem c) b2 0 (e -! rb_start b2 +! 1);
      Some (n1 ++ take (Z.to_nat (dlen - len n1)) d2, touch_key p (chunkKey p e c) now c1)%list
  | NoHit => Some ([], c1)
  end.

Definition MaxCachedOffset (p : string) (c : ReadAheadCache) : Z :=
  foldl (λ mx kb, if String.prefix (p +:+ ":") kb.1 && (rb_end kb.2 >? mx) then rb_end kb.2 else mx)
    0 (map_range (buffers (shard_at p c))).

(** ** Writing *)

Fixpoint remove_first (k : string) (l : list string) : list string :=
  match l with
  | [] => []
  | x :: l => if String.eqb x k then l else x :: remove_first k l
  end.

(** One shard under its lock, with the memory and the global counter. *)
Record locked := mkLocked { l_shard : raShard; l_used : Z; l_mem : RaMem }.

(** The accounting of a chunk that leaves: its size and its array go back. *)
Definition release (b : RaBuffer) (x : locked) : locked :=
  let s := l_shard x in
  mkLocked (mkRaShard (buffers s) (order s) (total s -! rb_len b))
    (l_used x -! rb_len b) (recycle (rb_arr b) (l_mem x)).

Definition set_order (o : list string) (x : locked) : locked :=
  let s := l_shard x in mkLocked (mkRaShard (buffers s) o (total s)) (l_used x) (l_mem x).

Definition del_buffer (k : string) (x : locked) : locked :=
  let s := l_shard x in
  mkLocked (mkRaShard (delete k (buffers s)) (order s) (total s)) (l_used x) (l_mem x).

Definition overwrite (k : string) (x : locked) : locked :=
  match buffers (l_shard x) !! k with
  | Some old => let x := release old x in set_order (remove_first k (order (l_shard x))) x
  | None => x
  end.

Definition store_chunk (k : string) (b : RaBuffer) (x : locked) : locked :=
  let s := l_shard x in
  mkLocked (mkRaShard (<[k := b]> (buffers s)) (order s ++ [k])%list (total s +! rb_len b))
    (l_used x +! rb_len b) (l_mem x).

(** Evict from the front of the order while over the limit, keeping the last. *)
Fixpoint evict_front (limit : Z) (o : list string) (x : locked) : locked :=
  match o with
  | v :: ((_ :: _) as rest) =>
      if l_used x >? limit then
        evict_front limit rest
          (match buffers (l_shard x) !! v with
           | Some old => del_buffer v (release old (set_order rest x))
           | None => set_order rest x
           end)
      else x
  | _ => x
  end.

Definition compact (x : locked) : locked :=
  let s := l_shard x in
  if (len (order s) >? 100) && (len (order s) >? Z.of_nat (size (buffers s)) * 2)
  then set_order (filter (λ k, is_Some (buffers s !! k)) (order s)) x else x.

Definition limit_of : Z :=
  if ReadAheadBudget cfg <=? 0 then 256 * 1024 * 1024 else ReadAheadBudget cfg.

(** [Put]: the new state, and whether a global eviction was launched. *)
Definition Ra_Put (p : string) (start e : Z) (d : list byte) (now : Z) (responsive : bool)
    (c : ReadAheadCache) : bool * ReadAheadCache :=
  let sessID := if String.eqb p (activePath c) then currentSessionID c else 0 in
  let i := shard_idx p in
  let key := chunkKey p start c in
  let dataSize := len d in
  let '(a, m) := take_buffer dataSize (mem c) in
  let m := fill_array a d m in
  let x := mkLocked (shard_at p c) (used c) m in
  let x := overwrite key x in
  let x := store_chunk key (mkRaBuffer start e a dataSize now sessID responsive) x in
  let x := evict_front limit_of (order (l_shard x)) x in
  let trigger := (l_used x >? limit_of) && (len (order (l_shard x)) <=? 1) in
  let x := compact x in
  (trigger,
   mkRaCache (<[i := l_shard x]> (shards c)) (l_used x) (l_mem x)
     (activePath c) (currentSessionID c) (pieceLens c)).

(** ** Eviction across shards *)

Definition stale_all : Z := 120 * 1000000000.
Definition stale_active : Z := 60 * 1000000000.

Definition keep_buffer (now : Z) (path : string) (sid : Z) (k : string) (b : RaBuffer) : bool :=
  let mine := String.prefix (path +:+ ":") k in
  if negb (sessionID b =? sid) && negb mine then false
  else negb (now -! lastAccess b >? (if mine then stale_active else stale_all)).

(** The body of [evictShard]: the order is rebuilt from the keys kept. *)
Fixpoint evict_keys (now : Z) (path : string) (sid : Z) (ks : list string)
    (newOrder : list string) (x : locked) : locked :=
  match ks with
  | [] => set_order newOrder x
  | k :: ks =>
      match buffers (l_shard x) !! k with
      | Some b =>
          if keep_buffer now path sid k b
          then evict_keys now path sid ks (newOrder ++ [k])%list x
          else evict_keys now path sid ks newOrder (del_buffer k (release b x))
      | None => evict_keys now path sid ks (newOrder ++ [k])%list x
      end
  end.

Definition evict_shard (now : Z) (path : string) (sid : Z) (i : nat) (c : ReadAheadCache)
    : ReadAheadCache :=
  match shards c !! i with
  | None => c
  | Some s =>
      let x := evict_keys now path sid (order s) [] (mkLocked s (used c) (mem c)) in
      mkRaCache (<[i := l_shard x]> (shards c)) (l_used x) (l_mem x)
        (activePath c) (currentSessionID c) (pieceLens c)
  end.

(** [free] tells which shard locks [TryLock] gets; with none, the first shard is
    waited for. *)
Definition triggerGlobalEviction (now : Z) (path : string) (sid : Z) (free : nat → bool)
    (c : ReadAheadCache) : ReadAheadCache :=
  let ids := filter (λ i, free i = true) (seq 0 (length (shards c))) in
  match ids with
  | [] => evict_shard now path sid 0 c
  | _ => foldl (λ c i, evict_shard now path sid i c) c ids
  end.

(** [SwitchContext]: the eviction it launches, if any, and the new state. *)
Definition SwitchContext (newPath : string) (c : ReadAheadCache)
    : option (string * Z) * ReadAheadCache :=
  if String.eqb newPath (activePath c) then (None, c)
  else
    let sid := currentSessionID c +! 1 in
    (Some (newPath, sid), mkRaCache (shards c) (used c) (mem c) newPath sid (pieceLens c)).

(** [Stats]: bytes, recently used bytes, entries. *)
Definition Ra_Stats (now : Z) (c : ReadAheadCache) : Z * Z * Z :=
  let live s := foldl (λ t kb, if now -! lastAccess kb.2 <? stale_all then t +! rb_len kb.2 else t) 0
                  (map_range (buffers s)) in
  (used c, foldl (λ t s, t +! live s) 0 (shards c),
   foldl (λ t s, t +! Z.of_nat (size (buffers s))) 0 (shards c)).
End ra.

(** ** The invariant

    [content p] is the byte sequence of file [p].  Every cached chunk holds a
    stretch of the content of the path its key names; no array is in two places;
    the counters are the sizes of what is cached. *)

Definition arrs (s : raShard) : list nat := (λ kb, rb_arr kb.2) <$> map_to_list (buffers s).
Definition live (ss : list raShard) : list nat := ss ≫= arrs.
Definition shard_bytes (s : raShard) : Z := sum_map rb_len (buffers s).

Section invariant.
Context `{GoRuntime} (cfg : RaConfig) (xxhash : string → Z) (content : string → list byte).

Definition holds (m : RaMem) (p : string) (b : RaBuffer) : Prop :=
  ∃ l, heap m !! rb_arr b = Some l ∧ rb_len b ≤ len l ∧
    ∀ x, 0 ≤ x < rb_len b → content p !! Z.to_nat (rb_start b + x) = l !! Z.to_nat x.

Definition buf_ok (m : RaMem) (i : nat) (k : string) (b : RaBuffer) : Prop :=
  ∃ p n, 0 ≤ n ∧ k = p +:+ ":" +:+ itoa n ∧ shard_idx xxhash p = i ∧
    0 ≤ rb_start b ≤ 2 ^ 61 ∧ 0 ≤ rb_len b ≤ 2 ^ 61 ∧
    rb_end b = rb_start b + rb_len b - 1 ∧ holds m p b.

Definition order_ok (s : raShard) : Prop :=
  NoDup (order s) ∧ ∀ k, k ∈ order s ↔ is_Some (buffers s !! k).

(** One locked shard; [own] are arrays in the hands of the running operation,
    [rest] and [bytes] the arrays and bytes of the other shards. *)
Record lock_ok (i : nat) (own rest : list nat) (bytes : Z) (x : locked) : Prop := {
  lk_order : order_ok (l_shard x);
  lk_total : total (l_shard x) = shard_bytes (l_shard x);
  lk_used : l_used x = shard_bytes (l_shard x) + bytes;
  lk_small : 0 ≤ bytes ∧ l_used x ≤ 2 ^ 61;
  lk_nodup : NoDup (own ++ arrs (l_shard x) ++ rest ++ pool (l_mem x))%list;
  lk_fresh : ∀ a, a ∈ (own ++ arrs (l_shard x) ++ rest ++ pool (l_mem x))%list → (a < nextArr (l_mem x))%nat;
  lk_heap : ∀ a, is_Some (heap (l_mem x) !! a) → (a < nextArr (l_mem x))%nat;
  lk_pool : ∀ a, a ∈ pool (l_mem x) → is_Some (heap (l_mem x) !! a);
  lk_buf : ∀ k b, buffers (l_shard x) !! k = Some b → buf_ok (l_mem x) i k b
}.

Lemma arrs_insert s k b : buffers s !! k = None →
  ∀ o t, arrs (mkRaShard (<[k := b]> (buffers s)) o t) ≡ₚ rb_arr b :: arrs s.
Proof. intros Hk o t. unfold arrs. simpl. by rewrite map_to_list_insert. Qed.

Lemma arrs_delete s k b : buffers s !! k = Some b →
  ∀ o t, rb_arr b :: arrs (mkRaShard (delete k (buffers s)) o t) ≡ₚ arrs s.
Proof.
  intros Hk o t. unfold arrs. simpl.
  rewrite <-(map_to_list_delete (buffers s) k b Hk). done.
Qed.

Lemma shard_bytes_nonneg m i s :
  (∀ k b, buffers s !! k = Some b → buf_ok m i k b) → 0 ≤ shard_bytes s.
Proof.
  intros Hb. apply sum_map_nonneg. intros k b Hk.
  destruct (Hb k b Hk) as (? & ? & ? & ? & ? & ? & ? & _). lia.
Qed.

Lemma recycle_heap a m : heap (recycle cfg a m) = heap m ∧ nextArr (recycle cfg a m) = nextArr m.
Proof. unfold recycle. by case_match. Qed.

Lemma recycle_pool a m :
  pool (recycle cfg a m) = pool m ∨ pool (recycle cfg a m) = (pool m ++ [a])%list.
Proof. unfold recycle. case_match; [by right|by left]. Qed.

Lemma buf_ok_heap m m' i k b : heap m' = heap m → buf_ok m i k b → buf_ok m' i k b.
Proof.
  intros Hh (p & n & ? & ? & ? & ? & ? & ? & l & Hl). exists p, n. do 6 (split; [done|]).
  exists l. by rewrite Hh.
Qed.

Lemma remove_first_spec k l :
  NoDup l → NoDup (remove_first k l) ∧ ∀ x, x ∈ remove_first k l ↔ x ∈ l ∧ x ≠ k.
Proof.
  induction l as [|y l IH]; intros Hn; simpl.
  { split; [done|]. intros x. rewrite elem_of_nil. naive_solver. }
  apply list.NoDup_cons in Hn as [Hy Hn]. destruct (IH Hn) as [Hn' Hx].
  destruct (String.eqb_spec y k) as [->|Hne].
  - split; [done|]. intros x. rewrite elem_of_cons. naive_solver.
  - split.
    + apply list.NoDup_cons. split; [|done]. rewrite Hx. naive_solver.
    + intros x. rewrite !elem_of_cons, Hx. naive_solver.
Qed.

Lemma remove_first_head k l : remove_first k (k :: l) = l.
Proof. simpl. by rewrite String.eqb_refl. Qed.

Lemma remove_first_mid k l1 l2 : k ∉ l1 → remove_first k (l1 ++ k :: l2)%list = (l1 ++ l2)%list.
Proof.
  induction l1 as [|y l1 IH]; intros Hk; [apply remove_first_head|].
  apply not_elem_of_cons in Hk as [Hne Hk]. simpl.
  destruct (String.eqb_spec y k); [congruence|]. by rewrite IH.
Qed.

Lemma NoDup_sub (l1 l2 : list nat) : l1 ⊆+ l2 → NoDup l2 → NoDup l1.
Proof.
  intros [k Hk]%submseteq_Permutation Hn. rewrite Hk in Hn. by apply list.NoDup_app in Hn as [? _].
Qed.

(** A chunk that leaves the shard. *)
Definition drop_chunk (k : string) (b : RaBuffer) (o : list string) (x : locked) : locked :=
  del_buffer k (release cfg b (set_order o x)).

Lemma drop_chunk_ok i own rest bytes k b x :
  lock_ok i own rest bytes x → buffers (l_shard x) !! k = Some b →
  lock_ok i own rest bytes (drop_chunk k b (remove_first k (order (l_shard x))) x) ∧
  heap (l_mem (drop_chunk k b (remove_first k (order (l_shard x))) x)) = heap (l_mem x).
Proof.
  intros Hx Hk. set (o := remove_first k (order (l_shard x))).
  destruct (recycle_heap (rb_arr b) (l_mem x)) as [Hh Hn].
  assert (Hbk := lk_buf _ _ _ _ _ Hx k b Hk).
  assert (Hlen : 0 ≤ rb_len b) by (destruct Hbk as (? & ? & ? & ? & ? & ? & ? & _); lia).
  set (s' := mkRaShard (delete k (buffers (l_shard x))) o
               (total (l_shard x) -! rb_len b)).
  assert (Hsb : shard_bytes s' = shard_bytes (l_shard x) - rb_len b).
  { unfold shard_bytes. simpl. by rewrite sum_map_delete, Hk. }
  assert (Hall : ∀ k' b', buffers s' !! k' = Some b' → buf_ok (recycle cfg (rb_arr b) (l_mem x)) i k' b').
  { intros k' b' Hk'. simpl in Hk'. apply lookup_delete_Some in Hk' as [_ Hk'].
    apply (buf_ok_heap (l_mem x)); [done|].
    by apply (lk_buf _ _ _ _ _ Hx). }
  pose proof (shard_bytes_nonneg _ _ _ Hall) as Hpos.
  destruct (lk_order _ _ _ _ _ Hx) as [Hnd Hkeys].
  destruct (remove_first_spec k _ Hnd) as [Hnd' Hrem].
  pose proof (lk_small _ _ _ _ _ Hx) as [Hb0 Hus]. pose proof (lk_used _ _ _ _ _ Hx) as Hu.
  pose proof (lk_total _ _ _ _ _ Hx) as Ht.
  pose proof (arrs_delete _ k b Hk o (total (l_shard x) -! rb_len b)) as Hperm. fold s' in Hperm.
  assert (Hnew : (own ++ arrs s' ++ rest ++ pool (recycle cfg (rb_arr b) (l_mem x)))%list ⊆+
                 (own ++ arrs (l_shard x) ++ rest ++ pool (l_mem x))%list).
  { rewrite <-Hperm. destruct (recycle_pool (rb_arr b) (l_mem x)) as [-> | ->]; solve_submseteq. }
  split; [|exact Hh]. constructor; simpl; fold s'.
  - split; [done|]. intros k'. simpl. unfold o. rewrite Hrem, Hkeys.
    destruct (decide (k' = k)) as [->|Hne].
    + rewrite lookup_delete_eq. split; [naive_solver|by intros [? ?]].
    + rewrite lookup_delete_ne by done. naive_solver.
  - rewrite Hsb. go_simpl. lia.
  - rewrite Hsb. go_simpl. lia.
  - go_simpl. lia.
  - eapply NoDup_sub; [exact Hnew|exact (lk_nodup _ _ _ _ _ Hx)].
  - intros a Ha. rewrite Hn. apply (lk_fresh _ _ _ _ _ Hx). by eapply elem_of_submseteq.
  - intros a. rewrite Hh, Hn. apply (lk_heap _ _ _ _ _ Hx).
  - intros a. rewrite Hh. pose proof (lk_pool _ _ _ _ _ Hx) as Hp.
    destruct (recycle_pool (rb_arr b) (l_mem x)) as [-> | ->]; [apply Hp|].
    rewrite elem_of_app, list_elem_of_singleton. intros [?| ->]; [by apply Hp|].
    destruct Hbk as (? & ? & _ & _ & _ & _ & _ & _ & l & -> & _). eauto.
  - exact Hall.
Qed.

Lemma store_overwrite k b x old :
  buffers (l_shard x) !! k = Some old →
  store_chunk k b (overwrite cfg k x) =
  store_chunk k b (drop_chunk k old (remove_first k (order (l_shard x))) x).
Proof.
  intros Hk. unfold overwrite. rewrite Hk. unfold store_chunk, drop_chunk, del_buffer, release, set_order.
  simpl. by rewrite insert_delete_eq.
Qed.

Lemma store_chunk_ok i own rest bytes k b x :
  lock_ok i (rb_arr b :: own) rest bytes x → buffers (l_shard x) !! k = None →
  buf_ok (l_mem x) i k b → l_used x + rb_len b ≤ 2 ^ 61 →
  lock_ok i own rest bytes (store_chunk k b x).
Proof.
  intros Hx Hk Hb Hsm.
  assert (Hlen : 0 ≤ rb_len b) by (destruct Hb as (? & ? & ? & ? & ? & ? & ? & _); lia).
  pose proof (shard_bytes_nonneg _ _ _ (lk_buf _ _ _ _ _ Hx)) as Hpos.
  destruct Hx as [[Hnd Hkeys] Ht Hu Hs Hn Hf Hh Hpl Hbuf]. simpl in *.
  assert (Hsb : ∀ o t, shard_bytes (mkRaShard (<[k := b]> (buffers (l_shard x))) o t)
                = shard_bytes (l_shard x) + rb_len b).
  { intros o t. unfold shard_bytes. simpl. rewrite sum_map_insert_fresh by done. lia. }
  assert (Hperm : ∀ o t, (own ++ arrs (mkRaShard (<[k := b]> (buffers (l_shard x))) o t) ++ rest ++
      pool (l_mem x))%list ≡ₚ ((rb_arr b :: own) ++ arrs (l_shard x) ++ rest ++ pool (l_mem x))%list).
  { intros o t. rewrite (arrs_insert _ k b Hk). solve_Permutation. }
  constructor; simpl; try done.
  - split; simpl.
    + apply list.NoDup_app. split; [done|]. split; [|apply NoDup_singleton].
      intros y Hy ->%list_elem_of_singleton. apply Hkeys in Hy. rewrite Hk in Hy. by destruct Hy.
    + intros k'. rewrite elem_of_app, list_elem_of_singleton, Hkeys.
      destruct (decide (k' = k)) as [->|Hne]; [rewrite lookup_insert_eq; naive_solver|].
      rewrite lookup_insert_ne by done. naive_solver.
  - rewrite Hsb. go_simpl. lia.
  - rewrite Hsb. go_simpl. lia.
  - go_simpl. lia.
  - rewrite Hperm. exact Hn.
  - intros a. rewrite Hperm. apply Hf.
  - intros k' b' [[<- <-]|[_ Hk']]%lookup_insert_Some; [done|]. by apply Hbuf.
Qed.

Lemma evict_front_ok i own rest bytes limit o x :
  o = order (l_shard x) → lock_ok i own rest bytes x →
  let x' := evict_front cfg limit o x in
  lock_ok i own rest bytes x' ∧ heap (l_mem x') = heap (l_mem x) ∧
  (l_used x' ≤ limit ∨ (length (order (l_shard x')) ≤ 1)%nat) ∧
  (∀ o' k, o = (o' ++ [k])%list → buffers (l_shard x') !! k = buffers (l_shard x) !! k).
Proof.
  revert x. induction o as [|v o IH]; intros x Ho Hx.
  { simpl. rewrite <-Ho. split_and!; try done. right. simpl. lia. }
  destruct o as [|w o].
  { simpl. rewrite <-Ho. split_and!; try done. right. simpl. lia. }
  cbn [evict_front]. destruct (l_used x >? limit) eqn:E.
  2:{ rewrite <-Ho. split_and!; try done. left. lia. }
  destruct (lk_order _ _ _ _ _ Hx) as [Hnd Hkeys].
  assert (Hv : is_Some (buffers (l_shard x) !! v)) by (apply Hkeys; rewrite <-Ho; left).
  destruct Hv as [b Hb]. rewrite Hb.
  destruct (drop_chunk_ok _ _ _ _ v b x Hx Hb) as [Hok Hheap].
  rewrite <-Ho, remove_first_head in Hok, Hheap.
  destruct (IH (drop_chunk v b (w :: o) x) eq_refl Hok) as (H1 & H2 & H3 & H5).
  cbv zeta. split_and!; try done; [by etrans|].
  intros o' k Hk. destruct o' as [|v' o']; simplify_eq/=; [].
  etrans; [by apply (H5 o')|]. simpl. rewrite lookup_delete_ne; [done|].
  intros <-. rewrite <-Ho in Hnd. apply list.NoDup_cons in Hnd as [Hnd _]. apply Hnd.
  rewrite H4. apply elem_of_app. right. left.
Qed.

Lemma compact_ok i own rest bytes x : lock_ok i own rest bytes x → compact x = x.
Proof.
  intros Hx. unfold compact. case_match; [|done]. destruct (lk_order _ _ _ _ _ Hx) as [_ Hkeys].
  rewrite list_filter_all; [|intros k; apply Hkeys]. by destruct x as [[]].
Qed.

Lemma set_order_self x : set_order (order (l_shard x)) x = x.
Proof. by destruct x as [[]]. Qed.

Lemma evict_keys_ok i own rest bytes now path sid ks kept x :
  lock_ok i own rest bytes (set_order (kept ++ ks)%list x) →
  lock_ok i own rest bytes (evict_keys cfg now path sid ks kept x) ∧
  heap (l_mem (evict_keys cfg now path sid ks kept x)) = heap (l_mem x).
Proof.
  revert kept x. induction ks as [|k ks IH]; intros kept x Hx; cbn [evict_keys].
  { by rewrite app_nil_r in Hx. }
  assert (Hmove : (kept ++ k :: ks = (kept ++ [k]) ++ ks)%list) by (by rewrite <-app_assoc).
  destruct (buffers (l_shard x) !! k) as [b|] eqn:Hb; [|by apply IH; rewrite <-Hmove].
  destruct (keep_buffer now path sid k b); [by apply IH; rewrite <-Hmove|].
  destruct (drop_chunk_ok _ _ _ _ k b _ Hx Hb) as [Hok Hheap].
  destruct (lk_order _ _ _ _ _ Hx) as [Hnd _]. simpl in Hnd, Hok, Hheap.
  rewrite remove_first_mid in Hok
    by (intros Hin; apply list.NoDup_app in Hnd as (_ & Hd & _); apply (Hd k Hin); left).
  destruct (IH kept (del_buffer k (release cfg b x))) as [H1 H2]; [exact Hok|].
  split; [exact H1|]. rewrite H2. exact Hheap.
Qed.

Lemma evict_keys_used now path sid ks kept x i own rest bytes :
  lock_ok i own rest bytes (set_order (kept ++ ks)%list x) →
  l_used (evict_keys cfg now path sid ks kept x) ≤ l_used x.
Proof.
  revert kept x. induction ks as [|k ks IH]; intros kept x Hx; cbn [evict_keys]; [simpl; lia|].
  assert (Hmove : (kept ++ k :: ks = (kept ++ [k]) ++ ks)%list) by (by rewrite <-app_assoc).
  destruct (buffers (l_shard x) !! k) as [b|] eqn:Hb; [|by apply IH; rewrite <-Hmove].
  destruct (keep_buffer now path sid k b); [by apply IH; rewrite <-Hmove|].
  destruct (drop_chunk_ok _ _ _ _ k b _ Hx Hb) as [Hok _].
  destruct (lk_order _ _ _ _ _ Hx) as [Hnd _]. simpl in Hnd, Hok.
  rewrite remove_first_mid in Hok
    by (intros Hin; apply list.NoDup_app in Hnd as (_ & Hd & _); apply (Hd k Hin); left).
  etrans; [exact (IH kept (del_buffer k (release cfg b x)) Hok)|]. simpl.
  destruct (lk_buf _ _ _ _ _ Hx k b Hb) as (? & ? & _ & _ & _ & _ & Hl & _).
  pose proof (lk_small _ _ _ _ _ Hx) as [Hb0 Hsm]. pose proof (lk_used _ _ _ _ _ Hx) as Hu.
  pose proof (shard_bytes_nonneg _ _ _ (lk_buf _ _ _ _ _ Hx)). simpl in *. go_simpl. lia.
Qed.

(** An array to write into: nobody else holds it and it is large enough. *)
Lemma take_buffer_ok i rest bytes s u m size a m' :
  0 ≤ size → take_buffer cfg size m = (a, m') → lock_ok i [] rest bytes (mkLocked s u m) →
  lock_ok i [a] rest bytes (mkLocked s u m') ∧
  (∃ l, heap m' !! a = Some l ∧ size ≤ len l) ∧
  (∀ a', is_Some (heap m !! a') → heap m' !! a' = heap m !! a').
Proof.
  intros Hsz Ht Hx.
  assert (Halloc : ∀ m0, heap m0 = heap m → nextArr m0 = nextArr m → pool m0 ⊆+ pool m →
    allocChunk size (base_size cfg) m0 = (a, m') →
    lock_ok i [a] rest bytes (mkLocked s u m') ∧ (∃ l, heap m' !! a = Some l ∧ size ≤ len l) ∧
    (∀ a', is_Some (heap m !! a') → heap m' !! a' = heap m !! a')).
  { intros m0 Hh0 Hn0 Hp0 [= <- <-]. destruct Hx as [Ho Htt Hu Hs Hn Hf Hh Hpl Hb]. simpl in *.
    assert (Hfr : ∀ a', is_Some (heap m !! a') → a' ≠ nextArr m0).
    { intros a' Ha'. apply Hh in Ha'. lia. }
    assert (Hsub : (arrs s ++ rest ++ pool m0)%list ⊆+ (arrs s ++ rest ++ pool m)%list).
    { by do 2 apply submseteq_skips_l. }
    assert (Hlt : ∀ a', a' ∈ (arrs s ++ rest ++ pool m0)%list → (a' < nextArr m0)%nat).
    { intros a' Ha'. rewrite Hn0. apply Hf. by eapply elem_of_submseteq. }
    split; [|split].
    - constructor; simpl; try done.
      + apply list.NoDup_cons. split; [intros Hin; specialize (Hlt _ Hin); lia|].
        by eapply NoDup_sub.
      + intros a' [->|Ha']%elem_of_cons; [lia|]. specialize (Hlt _ Ha'). lia.
      + intros a' [l [[<- _]|[_ Hl]]%lookup_insert_Some]; [lia|].
        rewrite Hh0 in Hl. assert (a' < nextArr m)%nat by eauto. lia.
      + intros a' Ha'. rewrite lookup_insert_ne.
        * rewrite Hh0. apply Hpl. by eapply elem_of_submseteq.
        * intros <-. apply (elem_of_submseteq _ (pool m)) in Ha'; [|done].
          apply Hpl in Ha'. by apply Hfr in Ha'.
      + intros k b Hk. destruct (Hb k b Hk) as (p & n & ? & ? & ? & ? & ? & ? & l & Hl & ?).
        exists p, n. do 6 (split; [done|]). exists l. split; [|done]. simpl.
        rewrite lookup_insert_ne, Hh0; [done|]. intros E. apply (Hfr (rb_arr b)); [eauto|done].
    - eexists. rewrite lookup_insert_eq. split; [done|]. rewrite len_replicate. case_if; lia.
    - intros a' Ha'. simpl. rewrite lookup_insert_ne, Hh0; [done|]. intros <-. by apply (Hfr _ Ha'). }
  unfold take_buffer in Ht. destruct (pool m) as [|a0 q] eqn:Hpool.
  { eapply (Halloc m); [done|done|by rewrite Hpool|exact Ht]. }
  cbv zeta in Ht. case_match eqn:E.
  2:{ eapply Halloc; [| | |exact Ht]; [done|done|]. apply submseteq_cons. reflexivity. }
  injection Ht as <- <-. destruct Hx as [Ho Htt Hu Hs Hn Hf Hh Hpl Hb]. simpl in *.
  rewrite Hpool in Hn, Hf, Hpl.
  assert (Hperm : (a0 :: arrs s ++ rest ++ q)%list ≡ₚ (arrs s ++ rest ++ a0 :: q)%list) by solve_Permutation.
  split; [|split; [|done]].
  - constructor; simpl; try done.
    + by rewrite Hperm.
    + intros a'. rewrite Hperm. apply Hf.
    + intros a' Ha'. apply Hpl. by right.
  - destruct (Hpl a0 ltac:(left)) as [l Hl]. exists l. split; [done|].
    unfold arr_cap in E. simpl in E. rewrite Hl in E. simpl in E. lia.
Qed.

(** ** The whole cache *)

Definition others (i : nat) (ss : list raShard) : list raShard := (take i ss ++ drop (S i) ss)%list.

Lemma shards_split i ss (s : raShard) :
  ss !! i = Some s → ss ≡ₚ (s :: others i ss)%list.
Proof.
  intros Hi. unfold others. rewrite <-(take_drop_middle ss i s Hi) at 1. solve_Permutation.
Qed.

Lemma others_insert i ss s : others i (<[i := s]> ss) = others i ss.
Proof. unfold others. by rewrite take_insert_ge, drop_insert_lt by lia. Qed.

Lemma insert_split i ss s : (i < length ss)%nat → <[i := s]> ss ≡ₚ (s :: others i ss)%list.
Proof.
  intros Hi. rewrite (shards_split i (<[i := s]> ss) s), others_insert; [done|].
  by apply list_lookup_insert_eq.
Qed.

Lemma others_elem i j ss s : j ≠ i → ss !! j = Some s → s ∈ others i ss.
Proof.
  intros Hne Hj. unfold others. apply elem_of_app. destruct (decide (j < i)%nat) as [Hlt|Hge].
  - left. apply (list_elem_of_lookup_2 _ j). by rewrite lookup_take_lt.
  - right. apply (list_elem_of_lookup_2 _ (j - S i)). rewrite lookup_drop.
    by replace (S i + (j - S i))%nat with j by lia.
Qed.

Lemma live_elem ss s k b : s ∈ ss → buffers s !! k = Some b → rb_arr b ∈ live ss.
Proof.
  intros Hs Hk. apply list_elem_of_bind. exists s. split; [|done].
  apply list_elem_of_fmap. exists (k, b). split; [done|]. by apply elem_of_map_to_list.
Qed.

Lemma live_perm ss ss' : ss ≡ₚ ss' → live ss ≡ₚ live ss'.
Proof. intros Hp. unfold live. by rewrite Hp. Qed.

Context (M : Z) (HM : 0 ≤ M ≤ 2 ^ 50) (Hlimit : limit_of cfg ≤ 2 ^ 59).

(** What a shard holds beyond one chunk. *)
Definition excess (s : raShard) : Z := Z.max 0 (shard_bytes s - M).

Record ra_ok (c : ReadAheadCache) : Prop := {
  ro_len : length (shards c) = 32%nat;
  ro_shard : ∀ i s, shards c !! i = Some s →
    order_ok s ∧ total s = shard_bytes s ∧
    ∀ k b, buffers s !! k = Some b → buf_ok (mem c) i k b;
  ro_used : used c = sumZ shard_bytes (shards c);
  ro_budget : sumZ excess (shards c) ≤ limit_of cfg;
  ro_nodup : NoDup (live (shards c) ++ pool (mem c))%list;
  ro_fresh : ∀ a, a ∈ (live (shards c) ++ pool (mem c))%list → (a < nextArr (mem c))%nat;
  ro_heap : ∀ a, is_Some (heap (mem c) !! a) → (a < nextArr (mem c))%nat;
  ro_pool : ∀ a, a ∈ pool (mem c) → is_Some (heap (mem c) !! a);
  ro_chunk : ∀ p, 0 < ChunkSize cfg p c ≤ base_size cfg
}.

Lemma ra_bytes_nonneg c s : ra_ok c → s ∈ shards c → 0 ≤ shard_bytes s.
Proof.
  intros Hc [i Hi]%list_elem_of_lookup. destruct (ro_shard _ Hc i s Hi) as (_ & _ & Hb).
  by eapply shard_bytes_nonneg.
Qed.

(** The budget is exceeded by at most one chunk per shard. *)
Lemma ra_used_bound c : ra_ok c → 0 ≤ used c ≤ limit_of cfg + 32 * M.
Proof.
  intros Hc. rewrite (ro_used _ Hc).
  assert (Hpos : ∀ s, s ∈ shards c → 0 ≤ shard_bytes s) by (intros; by apply (ra_bytes_nonneg c)).
  split; [by apply sumZ_nonneg|]. pose proof (ro_budget _ Hc) as Hb. pose proof (ro_len _ Hc) as Hl.
  assert (Hgen : ∀ l : list raShard, sumZ shard_bytes l ≤ sumZ excess l + Z.of_nat (length l) * M).
  { intros l. induction l as [|s l IH]; simpl; [lia|]. unfold excess at 1. lia. }
  specialize (Hgen (shards c)). rewrite Hl in Hgen. lia.
Qed.

Lemma ra_lock c i s :
  ra_ok c → shards c !! i = Some s →
  lock_ok i [] (live (others i (shards c))) (sumZ shard_bytes (others i (shards c)))
    (mkLocked s (used c) (mem c)).
Proof.
  intros Hc Hi. destruct (ro_shard _ Hc i s Hi) as (Ho & Ht & Hb).
  pose proof (shards_split _ _ _ Hi) as Hsp. pose proof (live_perm _ _ Hsp) as Hlive.
  pose proof (ra_used_bound c Hc) as Hu.
  assert (Hperm : (live (shards c) ++ pool (mem c))%list ≡ₚ
    (arrs s ++ live (others i (shards c)) ++ pool (mem c))%list).
  { rewrite Hlive. simpl. by rewrite <-app_assoc. }
  assert (Hsum : used c = shard_bytes s + sumZ shard_bytes (others i (shards c))).
  { rewrite (ro_used _ Hc). exact (sumZ_perm shard_bytes _ _ Hsp). }
  constructor; simpl; try done.
  - split; [|lia]. apply sumZ_nonneg. intros s' Hs'. apply (ra_bytes_nonneg c); [done|].
    rewrite Hsp. by right.
  - rewrite <-Hperm. apply (ro_nodup _ Hc).
  - intros a. rewrite <-Hperm. apply (ro_fresh _ Hc).
  - apply (ro_heap _ Hc).
  - apply (ro_pool _ Hc).
Qed.

Lemma ra_unlock c i s x ap sid pl :
  ra_ok c → shards c !! i = Some s →
  lock_ok i [] (live (others i (shards c))) (sumZ shard_bytes (others i (shards c))) x →
  (∀ a, a ∈ live (others i (shards c)) → heap (l_mem x) !! a = heap (mem c) !! a) →
  (l_used x ≤ limit_of cfg ∨ shard_bytes (l_shard x) ≤ M ∨ shard_bytes (l_shard x) ≤ shard_bytes s) →
  pl = pieceLens c →
  ra_ok (mkRaCache (<[i := l_shard x]> (shards c)) (l_used x) (l_mem x) ap sid pl).
Proof.
  intros Hc Hi Hx Hheap Hbud ->.
  assert (Hil : (i < length (shards c))%nat) by (by eapply lookup_lt_Some).
  pose proof (insert_split i (shards c) (l_shard x) Hil) as Hsp.
  pose proof (shards_split _ _ _ Hi) as Hsp0.
  pose proof (live_perm _ _ Hsp) as Hlive.
  destruct Hx as [Ho Ht Hu Hs Hn Hf Hh Hpl Hb].
  assert (Hperm : (live (<[i := l_shard x]> (shards c)) ++ pool (l_mem x))%list ≡ₚ
    (arrs (l_shard x) ++ live (others i (shards c)) ++ pool (l_mem x))%list).
  { rewrite Hlive. simpl. by rewrite <-app_assoc. }
  constructor; simpl.
  - rewrite length_insert. apply (ro_len _ Hc).
  - intros j s' Hj. destruct (decide (j = i)) as [->|Hne].
    { rewrite list_lookup_insert_eq in Hj by done. injection Hj as <-. done. }
    rewrite list_lookup_insert_ne in Hj by done.
    destruct (ro_shard _ Hc j s' Hj) as (H1 & H2 & H3). split_and!; try done.
    intros k b Hk. destruct (H3 k b Hk) as (p & n & ? & ? & ? & ? & ? & ? & l & Hl & ?).
    exists p, n. do 6 (split; [done|]). exists l. split; [|done]. rewrite Hheap; [done|].
    eapply live_elem; [|exact Hk]. by eapply others_elem.
  - rewrite Hsp. simpl. lia.
  - rewrite Hsp. simpl. pose proof (ro_budget _ Hc) as Hb0. rewrite Hsp0 in Hb0. simpl in Hb0.
    assert (Hex : ∀ l : list raShard, (∀ s, s ∈ l → 0 ≤ shard_bytes s) →
                    0 ≤ sumZ excess l ≤ sumZ shard_bytes l).
    { intros l. induction l as [|y l IH]; simpl; intros Hl; [lia|].
      pose proof (Hl y ltac:(left)). unfold excess at 1 3. specialize (IH ltac:(intros; apply Hl; by right)).
      lia. }
    destruct (Hex (others i (shards c))) as [He0 He1].
    { intros s' Hs'. apply (ra_bytes_nonneg c); [done|]. rewrite Hsp0. by right. }
    pose proof (shard_bytes_nonneg _ _ _ Hb). unfold excess in Hb0 |- *. fold excess in Hb0 |- *.
    change (sumZ (λ s0, Z.max 0 (shard_bytes s0 - M))) with (sumZ excess) in *. lia.
  - rewrite Hperm. exact Hn.
  - intros a. rewrite Hperm. apply Hf.
  - exact Hh.
  - exact Hpl.
  - apply (ro_chunk _ Hc).
Qed.

Lemma shard_idx_bound p : (shard_idx xxhash p < 32)%nat.
Proof.
  unfold shard_idx. pose proof (Z.land_ones (xxhash p) 5 ltac:(lia)) as E.
  change (Z.ones 5) with 31 in E. rewrite E.
  pose proof (Z.mod_pos_bound (xxhash p) (2 ^ 5) ltac:(lia)). lia.
Qed.

Lemma shard_at_lookup p c : ra_ok c → shards c !! shard_idx xxhash p = Some (shard_at xxhash p c).
Proof.
  intros Hc. unfold shard_at. destruct (lookup_lt_is_Some_2 (shards c) (shard_idx xxhash p)) as [s Hs].
  { rewrite (ro_len _ Hc). apply shard_idx_bound. }
  by rewrite Hs.
Qed.

(** *** Writing a chunk *)

Lemma fill_array_ok i rest bytes s u m a d l :
  heap m !! a = Some l → len d ≤ len l → lock_ok i [a] rest bytes (mkLocked s u m) →
  lock_ok i [a] rest bytes (mkLocked s u (fill_array a d m)) ∧
  heap (fill_array a d m) !! a = Some (d ++ drop (length d) l)%list ∧
  (∀ a', a' ≠ a → heap (fill_array a d m) !! a' = heap m !! a').
Proof.
  intros Hl Hd Hx.
  assert (Hne : ∀ a', a' ≠ a → heap (fill_array a d m) !! a' = heap m !! a').
  { intros a' Ha'. simpl. by rewrite lookup_alter_ne. }
  assert (Hsome : ∀ a', is_Some (heap (fill_array a d m) !! a') ↔ is_Some (heap m !! a')).
  { intros a'. simpl. apply lookup_alter_is_Some. }
  split; [|split; [|done]].
  - destruct Hx as [Ho Ht Hu Hs Hn Hf Hh Hpl Hb]. constructor; try done.
    + intros a' Ha'. apply Hh. by apply Hsome.
    + intros a' Ha'. apply Hsome. by apply Hpl.
    + intros k b Hk. destruct (Hb k b Hk) as (p & n & ? & ? & ? & ? & ? & ? & l' & Hl' & ?).
      exists p, n. do 6 (split; [done|]). exists l'. split; [|done]. simpl in *.
      rewrite lookup_alter_ne; [done|]. intros ->. apply list.NoDup_cons in Hn as [Hn _]. apply Hn.
      apply elem_of_app. left. apply list_elem_of_fmap. exists (k, b). split; [done|].
      by apply elem_of_map_to_list.
  - simpl. rewrite lookup_alter_eq, Hl. simpl. by rewrite take_ge by (unfold len in *; lia).
Qed.

Lemma chunkKey_shape p off c :
  ra_ok c → 0 ≤ off ≤ 2 ^ 61 → ∃ n, 0 ≤ n ∧ chunkKey cfg p off c = p +:+ ":" +:+ itoa n.
Proof.
  intros Hc Ho. pose proof (ro_chunk _ Hc p) as [Hp _].
  destruct (quot_nonneg off (ChunkSize cfg p c)) as [Hq1 Hq2]; [lia|done|].
  exists (off /! ChunkSize cfg p c). split; [|done]. go_simpl. done.
Qed.

Lemma single_bytes s k b :
  order_ok s → (length (order s) ≤ 1)%nat → buffers s !! k = Some b → shard_bytes s = rb_len b.
Proof.
  intros [Hnd Hkeys] Hl Hk. assert (Hin : k ∈ order s) by (apply Hkeys; eauto).
  assert (Hb : buffers s = {[ k := b ]}).
  { apply map_eq. intros k'. destruct (decide (k' = k)) as [->|Hne]; [by rewrite lookup_singleton_eq|].
    rewrite lookup_singleton_ne by done. apply eq_None_not_Some. intros Hk'. apply Hkeys in Hk'.
    destruct (order s) as [|y [|z o]]; simpl in Hl; [by apply elem_of_nil in Hin| |lia].
    apply list_elem_of_singleton in Hin, Hk'. congruence. }
  unfold shard_bytes. rewrite Hb. rewrite <-insert_empty, sum_map_insert_fresh, sum_map_empty by apply lookup_empty. lia.
Qed.

Lemma Ra_Put_spec p start e d now resp c trig c' :
  ra_ok c → 0 ≤ start ≤ 2 ^ 61 → len d ≤ M → e = start + len d - 1 →
  (∀ x, 0 ≤ x < len d → content p !! Z.to_nat (start + x) = d !! Z.to_nat x) →
  Ra_Put cfg xxhash p start e d now resp c = (trig, c') →
  ra_ok c' ∧ is_Some (buffers (shard_at xxhash p c') !! chunkKey cfg p start c') ∧
  (used c' ≤ limit_of cfg ∨ (length (order (shard_at xxhash p c')) ≤ 1)%nat).
Proof.
  intros Hc Hstart Hd -> Hsrc Hput. pose proof (len_nonneg d) as Hdn.
  pose proof (shard_at_lookup p c Hc) as Hsi. set (i := shard_idx xxhash p) in *.
  set (s := shard_at xxhash p c) in *. pose proof (ra_lock c i s Hc Hsi) as Hlk.
  set (rest := live (others i (shards c))) in *. set (bytes := sumZ shard_bytes (others i (shards c))) in *.
  unfold Ra_Put in Hput. fold i in Hput. fold s in Hput.
  destruct (take_buffer cfg (len d) (mem c)) as [a m] eqn:Htb.
  destruct (take_buffer_ok _ _ _ _ _ _ _ _ _ Hdn Htb Hlk) as (Hlk1 & (l & Hl & Hll) & Hkeep).
  destruct (fill_array_ok _ _ _ _ _ _ _ d l Hl Hll Hlk1) as (Hlk2 & Hfill & Hframe).
  destruct (chunkKey_shape p start c Hc Hstart) as (n & Hn0 & Hkey).
  set (key := chunkKey cfg p start c) in *. set (m2 := fill_array a d m) in *.
  cbv zeta in Hput.
  set (b := mkRaBuffer start (start + len d - 1) a (len d) now
              (if String.eqb p (activePath c) then currentSessionID c else 0) resp) in *.
  pose proof (ra_used_bound c Hc) as Hub.
  (* the state after the old chunk of the key, if any, has left *)
  assert (Hstore : ∃ x1, store_chunk key b (overwrite cfg key (mkLocked s (used c) m2)) = store_chunk key b x1 ∧
    lock_ok i [a] rest bytes x1 ∧ heap (l_mem x1) = heap m2 ∧ buffers (l_shard x1) !! key = None ∧
    l_used x1 ≤ used c).
  { destruct (buffers s !! key) as [old|] eqn:Hold.
    - destruct (drop_chunk_ok _ _ _ _ key old _ Hlk2 Hold) as [Hok Hhp].
      eexists. split; [by apply store_overwrite|]. split; [exact Hok|]. split; [exact Hhp|].
      split; [simpl; apply lookup_delete_eq|]. simpl.
      destruct (lk_buf _ _ _ _ _ Hlk2 key old Hold) as (? & ? & _ & _ & _ & _ & Hol & _). go_simpl. lia.
    - exists (mkLocked s (used c) m2). unfold overwrite. simpl. rewrite Hold. split_and!; try done. }
  destruct Hstore as (x1 & Heq & Hlk3 & Hheap3 & Hnone & Hused3). rewrite Heq in Hput.
  assert (Hbok : buf_ok (l_mem x1) i key b).
  { exists p, n. do 3 (split; [done|]). do 2 (split; [simpl; lia|]). split; [done|]. eexists. rewrite Hheap3. split; [exact Hfill|].
    split; [rewrite len_app; pose proof (len_nonneg (drop (length d) l)); simpl; lia|].
    intros x Hx. simpl in *. rewrite Hsrc by done. rewrite lookup_app_l; [done|]. unfold len in *. lia. }
  assert (Hlk4 : lock_ok i [] rest bytes (store_chunk key b x1)).
  { apply store_chunk_ok; [done|done|done|]. simpl. lia. }
  destruct (evict_front_ok _ _ _ _ (limit_of cfg) _ _ eq_refl Hlk4) as (Hlk5 & Hheap5 & Hfit & Hlast).
  set (x5 := evict_front cfg (limit_of cfg) (order (l_shard (store_chunk key b x1))) (store_chunk key b x1)) in *.
  rewrite (compact_ok _ _ _ _ _ Hlk5) in Hput. injection Hput as _ <-.
  assert (Hhas : buffers (l_shard x5) !! key = Some b).
  { rewrite (Hlast (order (l_shard x1)) key) by done. simpl. apply lookup_insert_eq. }
  assert (Hok : ra_ok (mkRaCache (<[i := l_shard x5]> (shards c)) (l_used x5) (l_mem x5)
                         (activePath c) (currentSessionID c) (pieceLens c))).
  { eapply ra_unlock; [done|exact Hsi|exact Hlk5| | |done].
    - intros a' Ha'. rewrite Hheap5. simpl. rewrite Hheap3.
      assert (a' ≠ a).
      { intros ->. pose proof (lk_nodup _ _ _ _ _ Hlk1) as Hnd. simpl in Hnd.
        apply list.NoDup_cons in Hnd as [Hnd _]. apply Hnd. rewrite !elem_of_app. auto. }
      rewrite Hframe by done. apply Hkeep. unfold rest in Ha'.
      apply list_elem_of_bind in Ha' as (s' & Ha' & Hs'). apply list_elem_of_fmap in Ha' as ([k' b'] & -> & Hk').
      apply elem_of_map_to_list in Hk'.
      assert (Hin : s' ∈ shards c) by (rewrite (shards_split i (shards c) s Hsi); by right).
      apply list_elem_of_lookup in Hin as [j Hj]. destruct (ro_shard _ Hc j s' Hj) as (_ & _ & Hb').
      destruct (Hb' k' b' Hk') as (? & ? & _ & _ & _ & _ & _ & _ & l' & Hl' & _). eauto.
    - destruct Hfit as [Hfit|Hfit]; [by left|]. right. left.
      rewrite (single_bytes _ key b (lk_order _ _ _ _ _ Hlk5) Hfit Hhas). done. }
  split; [done|]. unfold shard_at. simpl. fold i.
  rewrite list_lookup_insert_eq by (rewrite (ro_len _ Hc); apply shard_idx_bound). simpl.
  split; [|done]. exists b. exact Hhas.
Qed.

(** *** The other operations *)

Lemma touch_key_ok p k now c : ra_ok c → ra_ok (touch_key xxhash p k now c).
Proof.
  intros Hc. unfold touch_key. pose proof (shard_at_lookup p c Hc) as Hsi.
  set (i := shard_idx xxhash p) in *. set (s := shard_at xxhash p c) in *.
  pose proof (ra_lock c i s Hc Hsi) as Hlk. unfold set_shard.
  set (s' := mkRaShard (alter (set_access now) k (buffers s)) (order s) (total s)).
  assert (Hsb : shard_bytes s' = shard_bytes s).
  { unfold shard_bytes. simpl. rewrite sum_map_alter. destruct (buffers s !! k); simpl; lia. }
  assert (Har : arrs s' ≡ₚ arrs s).
  { unfold arrs. simpl. destruct (buffers s !! k) as [b|] eqn:Hk.
    - assert (alter (set_access now) k (buffers s) = <[k := set_access now b]> (delete k (buffers s))) as ->.
      { rewrite insert_delete_eq. apply map_eq. intros k'. destruct (decide (k' = k)) as [->|].
        - by rewrite lookup_alter_eq, lookup_insert_eq, Hk.
        - by rewrite lookup_alter_ne, lookup_insert_ne. }
      rewrite map_to_list_insert by apply lookup_delete_eq.
      rewrite <-(map_to_list_delete (buffers s) k b Hk). done.
    - rewrite alter_id; [done|]. intros b. by rewrite Hk. }
  destruct Hlk as [[Hnd Hkeys] Ht Hu Hs Hn Hf Hh Hpl Hb]. simpl in *.
  assert (Hlk' : lock_ok i [] (live (others i (shards c))) (sumZ shard_bytes (others i (shards c)))
            (mkLocked s' (used c) (mem c))).
  { constructor; simpl; try done.
    - split; [done|]. intros k'. simpl. by rewrite Hkeys, lookup_alter_is_Some.
    - by rewrite Hsb.
    - by rewrite Hsb.
    - by rewrite Har.
    - intros a. rewrite Har. apply Hf.
    - intros k' b' Hk'. apply lookup_alter_Some in Hk' as [(-> & b & Hb0 & ->)|[_ Hk']]; [|by apply Hb].
      exact (Hb _ b Hb0). }
  exact (ra_unlock c i s (mkLocked s' (used c) (mem c)) (activePath c) (currentSessionID c) (pieceLens c)
    Hc Hsi Hlk' (λ _ _, eq_refl) (or_intror (or_intror (Z.eq_le_incl _ _ Hsb))) eq_refl).
Qed.

Lemma touch_first_ok p off now c : ra_ok c → ra_ok (touch_first cfg xxhash p off now c).
Proof. intros Hc. unfold touch_first. repeat case_match; auto using touch_key_ok. Qed.

Lemma Ra_Get_ok p off e now c r c' : Ra_Get cfg xxhash p off e now c = Some (r, c') → ra_ok c → ra_ok c'.
Proof.
  intros Hg Hc. unfold Ra_Get in Hg.
  repeat (case_match || simplify_option_eq); auto using touch_key_ok, touch_first_ok.
Qed.

Lemma CopyTo_ok p off e n now c r c' :
  CopyTo cfg xxhash p off e n now c = Some (r, c') → ra_ok c → ra_ok c'.
Proof.
  intros Hg Hc. unfold CopyTo in Hg.
  repeat (case_match || simplify_option_eq); auto using touch_key_ok, touch_first_ok.
Qed.

Lemma Covered_ok p off e now c : ra_ok c → ra_ok (Covered cfg xxhash p off e now c).2.
Proof. intros Hc. unfold Covered. case_match; simpl; auto using touch_key_ok. Qed.

Lemma evict_shard_ok now path sid i c : ra_ok c → ra_ok (evict_shard cfg now path sid i c).
Proof.
  intros Hc. unfold evict_shard. destruct (shards c !! i) as [s|] eqn:Hi; [|done].
  pose proof (ra_lock c i s Hc Hi) as Hlk.
  pose proof (set_order_self (mkLocked s (used c) (mem c))) as Hself.
  assert (Hlk0 := Hlk). rewrite <-Hself in Hlk0.
  destruct (evict_keys_ok i [] (live (others i (shards c))) (sumZ shard_bytes (others i (shards c)))
    now path sid (order s) [] (mkLocked s (used c) (mem c))) as [Hok Hheap].
  { exact Hlk0. }
  eapply ra_unlock; [done|exact Hi|exact Hok| | |done].
  - intros a _. by rewrite Hheap.
  - right. right. pose proof (lk_used _ _ _ _ _ Hok) as Hu. pose proof (lk_used _ _ _ _ _ Hlk) as Hu0.
    simpl in Hu0. pose proof (evict_keys_used now path sid (order s) [] (mkLocked s (used c) (mem c))
      i [] _ _ Hlk0). simpl in *. lia.
Qed.

Lemma triggerGlobalEviction_ok now path sid free c :
  ra_ok c → ra_ok (triggerGlobalEviction cfg now path sid free c).
Proof.
  intros Hc. unfold triggerGlobalEviction.
  assert (Hf : ∀ l c, ra_ok c → ra_ok (foldl (λ c i, evict_shard cfg now path sid i c) c l)).
  { intros l. induction l as [|i l IH]; intros c0 Hc0; cbn [foldl]; [done|].
    by apply IH, evict_shard_ok. }
  case_match; [by apply evict_shard_ok|by apply Hf].
Qed.

Context (Hbase : 0 < base_size cfg ≤ 2 ^ 50).

Lemma SetPieceLen_ok path pl c : ra_ok c → ra_ok (SetPieceLen cfg path pl c).
Proof.
  intros Hc.
  assert (Hset : ∀ m, (∀ p v, m !! p = Some v → 0 < v ≤ base_size cfg) →
    ra_ok (mkRaCache (shards c) (used c) (mem c) (activePath c) (currentSessionID c) m)).
  { intros m Hm. destruct Hc. constructor; try done. intros p. unfold ChunkSize. simpl.
    destruct (m !! p) as [v|] eqn:E; [eauto|lia]. }
  assert (Hpos : ∀ p v, pieceLens c !! p = Some v → 0 < v ≤ base_size cfg).
  { intros p v Hp. pose proof (ro_chunk _ Hc p) as Hv. unfold ChunkSize in Hv. by rewrite Hp in Hv. }
  unfold SetPieceLen. cbv zeta. case_if.
  { apply Hset. intros p v [_ Hp]%lookup_delete_Some. eauto. }
  destruct (quot_nonneg (base_size cfg) pl) as [Hq1 Hq2]; [lia|lia|].
  pose proof (quot_mul_le (base_size cfg) pl ltac:(lia) ltac:(lia)) as Hq3.
  rewrite (i64_id (Z.quot (base_size cfg) pl)) by (unfold in_i64; lia).
  case_if; apply Hset; intros p v [[_ <-]|[_ Hp]]%lookup_insert_Some; try (by eauto); [|lia].
  rewrite i64_id by (unfold in_i64; nia). nia.
Qed.

Lemma AnchorPool_ok c : ra_ok c → ra_ok (AnchorPoolToConfig cfg c).
Proof.
  intros Hc. unfold AnchorPoolToConfig. cbv zeta. case_match; [done|].
  destruct Hc. constructor; simpl; try done.
  - rewrite app_nil_r. by apply list.NoDup_app in ro_nodup0 as [? _].
  - intros a. rewrite app_nil_r. intros Ha. apply ro_fresh0, elem_of_app. by left.
  - intros a Ha. by apply elem_of_nil in Ha.
Qed.

Lemma SwitchContext_ok p c : ra_ok c → ra_ok (SwitchContext p c).2.
Proof. intros Hc. unfold SwitchContext. case_match; [done|]. destruct Hc. by constructor. Qed.

Lemma ra_new_ok : 0 ≤ limit_of cfg → ra_ok newReadAheadCache.
Proof.
  intros Hl. unfold newReadAheadCache.
  assert (Hsum : ∀ (f : raShard → Z) n, f empty_shard = 0 → sumZ f (replicate n empty_shard) = 0).
  { intros f n Hf. induction n as [|n IH]; simpl; [done|]. by rewrite Hf, IH. }
  assert (Hlive : ∀ n, live (replicate n empty_shard) = []).
  { intros n. induction n as [|n IH]; [done|]. simpl. by rewrite IH. }
  constructor; cbn [shards used mem pool heap nextArr].
  - done.
  - intros i s Hi. apply lookup_replicate in Hi as [-> _]. split_and!; [|done|done].
    split; [constructor|]. intros k. simpl. rewrite elem_of_nil, lookup_empty.
    split; [done|by intros [? ?]].
  - by rewrite Hsum.
  - rewrite Hsum; [done|]. unfold excess, shard_bytes. simpl. rewrite sum_map_empty. lia.
  - rewrite Hlive. constructor.
  - intros a. rewrite Hlive. by intros ?%elem_of_nil.
  - intros a [l Hl']. by rewrite lookup_empty in Hl'.
  - intros a Ha. by apply elem_of_nil in Ha.
  - intros p. unfold ChunkSize. simpl. rewrite lookup_empty. lia.
Qed.

(** *** Reading *)

(** The bytes of [d] are the content of [p] from [off] on. *)
Definition at_offset (p : string) (off : Z) (d : list byte) : Prop :=
  ∀ x, 0 ≤ x < len d → d !! Z.to_nat x = content p !! Z.to_nat (off + x).

Lemma chunk_of_path p off c b :
  ra_ok c → 0 ≤ off ≤ 2 ^ 61 → buffers (shard_at xxhash p c) !! chunkKey cfg p off c = Some b →
  0 ≤ rb_start b ≤ 2 ^ 61 ∧ 0 ≤ rb_len b ≤ 2 ^ 61 ∧ rb_end b = rb_start b + rb_len b - 1 ∧
  holds (mem c) p b.
Proof.
  intros Hc Ho Hb. destruct (ro_shard _ Hc _ _ (shard_at_lookup p c Hc)) as (_ & _ & Hbuf).
  destruct (Hbuf _ _ Hb) as (p' & n' & Hn' & Hk & _ & H1 & H2 & H3 & H4).
  destruct (chunkKey_shape p off c Hc Ho) as (n & Hn & Hk'). rewrite Hk' in Hk.
  apply split_last_inj in Hk as [-> _]; [done|by apply itoa_no_colon|by apply itoa_no_colon].
Qed.

Lemma data_slice_spec m p b lo hi :
  holds m p b → 0 ≤ lo ≤ hi → hi ≤ rb_len b →
  ∃ d, data_slice m b lo hi = Some d ∧ len d = hi - lo ∧ at_offset p (rb_start b + lo) d.
Proof.
  intros (l & Hl & Hlen & Hbytes) Hlo Hhi. unfold data_slice. rewrite Hl. simpl.
  destruct (slice_some l lo hi Hlo ltac:(lia)) as [d Hd]. exists d. split; [done|].
  destruct (slice_spec l lo hi d Hd) as (_ & _ & Hdl & Hd'). split; [done|].
  intros x Hx. rewrite Hd' by lia. rewrite <-Hbytes by lia. f_equal. lia.
Qed.

Lemma at_offset_app p off d1 d2 :
  at_offset p off d1 → at_offset p (off + len d1) d2 → at_offset p off (d1 ++ d2)%list.
Proof.
  intros H1 H2 x Hx. rewrite len_app in Hx. destruct (decide (x < len d1)) as [Hlt|Hge].
  - rewrite lookup_app_l by (unfold len in *; lia). apply H1. lia.
  - rewrite lookup_app_r by (unfold len in *; lia).
    replace (Z.to_nat x - length d1)%nat with (Z.to_nat (x - len d1)) by (unfold len in *; lia).
    rewrite H2 by lia. f_equal. lia.
Qed.

Lemma at_offset_take p off d n : at_offset p off d → at_offset p off (take n d).
Proof.
  intros Hd x Hx. rewrite len_take in Hx. rewrite lookup_take_lt by lia. apply Hd. lia.
Qed.

(** The chunks found hold the bytes asked for. *)
Definition found (p : string) (off e : Z) (c : ReadAheadCache) (h : hit) : Prop :=
  match h with
  | Hit1 b => ∃ d, data_slice (mem c) b (off -! rb_start b) (e -! rb_start b +! 1) = Some d ∧
                   len d = e - off + 1 ∧ at_offset p off d
  | Hit2 b b2 => ∃ d1 d2, data_slice (mem c) b (off -! rb_start b) (rb_len b) = Some d1 ∧
                   data_slice (mem c) b2 0 (e -! rb_start b2 +! 1) = Some d2 ∧
                   len d1 + len d2 = e - off + 1 ∧ at_offset p off (d1 ++ d2)%list
  | NoHit => True
  end.

Lemma find_chunks_spec p off e c :
  ra_ok c → 0 ≤ off ≤ e → e ≤ 2 ^ 61 → found p off e c (find_chunks cfg xxhash p off e c).
Proof.
  intros Hc Ho He. unfold find_chunks.
  destruct (buffers (shard_at xxhash p c) !! chunkKey cfg p off c) as [b|] eqn:Hb; [|done].
  destruct (chunk_of_path p off c b Hc ltac:(lia) Hb) as (H1 & H2 & H3 & H4).
  destruct ((off >=? rb_start b) && (off <=? rb_end b)) eqn:E; [|done].
  apply andb_true_iff in E as [E1 E2]. rewrite Z.geb_le in E1. bool_simpl.
  destruct (e <=? rb_end b) eqn:E3; bool_simpl; simpl.
  - go_simpl.
    destruct (data_slice_spec (mem c) p b (off - rb_start b) (e - rb_start b + 1) H4)
      as (d & Hd & Hl & Hat); [lia|lia|]. exists d. split; [done|]. split; [lia|].
    by replace (rb_start b + (off - rb_start b)) with off in Hat by lia.
  - destruct (buffers (shard_at xxhash p c) !! chunkKey cfg p e c) as [b2|] eqn:Hb2; [|done].
    destruct (chunk_of_path p e c b2 Hc ltac:(lia) Hb2) as (G1 & G2 & G3 & G4).
    go_simpl. destruct ((rb_start b2 =? rb_end b + 1) && (rb_end b2 >=? e)) eqn:E4; [|done].
    apply andb_true_iff in E4 as [E4 E5]. rewrite Z.geb_le in E5. bool_simpl. simpl. go_simpl.
    destruct (data_slice_spec (mem c) p b (off - rb_start b) (rb_len b) H4)
      as (d1 & Hd1 & Hl1 & Hat1); [lia|lia|].
    destruct (data_slice_spec (mem c) p b2 0 (e - rb_start b2 + 1) G4)
      as (d2 & Hd2 & Hl2 & Hat2); [lia|lia|].
    exists d1, d2. split; [done|]. split; [done|]. split; [lia|].
    replace (rb_start b + (off - rb_start b)) with off in Hat1 by lia.
    apply at_offset_app; [done|]. by replace (off + len d1) with (rb_start b2 + 0) by lia.
Qed.

(** ** Reachable states *)

Inductive ra_step : ReadAheadCache → ReadAheadCache → Prop :=
  | RA_put c p start e d now resp :
      0 ≤ start ≤ 2 ^ 61 → len d ≤ M → e = start + len d - 1 →
      at_offset p start d → ra_step c (Ra_Put cfg xxhash p start e d now resp c).2
  | RA_get c p off e now r c' :
      Ra_Get cfg xxhash p off e now c = Some (r, c') → ra_step c c'
  | RA_copy c p off e n now r c' :
      CopyTo cfg xxhash p off e n now c = Some (r, c') → ra_step c c'
  | RA_covered c p off e now : ra_step c (Covered cfg xxhash p off e now c).2
  | RA_evict c now path sid free : ra_step c (triggerGlobalEviction cfg now path sid free c)
  | RA_switch c p : ra_step c (SwitchContext p c).2
  | RA_piece c p pl : ra_step c (SetPieceLen cfg p pl c)
  | RA_anchor c : ra_step c (AnchorPoolToConfig cfg c).

Inductive ra_reachable : ReadAheadCache → Prop :=
  | RR_new : ra_reachable newReadAheadCache
  | RR_step c c' : ra_reachable c → ra_step c c' → ra_reachable c'.

Lemma limit_nonneg : 0 ≤ limit_of cfg.
Proof. unfold limit_of. case_if; lia. Qed.

Lemma ra_reachable_ok c : ra_reachable c → ra_ok c.
Proof.
  induction 1 as [|c c' _ IH Hs]; [apply ra_new_ok, limit_nonneg|]. destruct Hs.
  - destruct (Ra_Put cfg xxhash p start e d now resp c) as [t c'] eqn:E.
    eapply Ra_Put_spec in E; [by destruct E|done..|]. intros x Hx. symmetry. auto.
  - by eapply Ra_Get_ok.
  - by eapply CopyTo_ok.
  - by apply Covered_ok.
  - by apply triggerGlobalEviction_ok.
  - by apply SwitchContext_ok.
  - by apply SetPieceLen_ok.
  - by apply AnchorPool_ok.
Qed.

Lemma Ra_Get_content c p off e now :
  ra_ok c → 0 ≤ off ≤ e → e ≤ 2 ^ 61 →
  ∃ r c', Ra_Get cfg xxhash p off e now c = Some (r, c') ∧
    (∀ d, r = Some d → len d = e - off + 1 ∧ at_offset p off d) ∧
    ((Covered cfg xxhash p off e now c).1 = true → is_Some r).
Proof.
  intros Hr Ho He. pose proof (find_chunks_spec p off e c Hr Ho He) as Hf. unfold Ra_Get, Covered.
  destruct (find_chunks cfg xxhash p off e c) as [b|b b2|]; simpl in Hf.
  - destruct Hf as (d & -> & Hl & Hat). simpl. eexists _, _. split; [done|].
    split; [by intros ? [= <-]|eauto].
  - destruct Hf as (d1 & d2 & -> & -> & Hl & Hat). simpl. go_simpl.
    rewrite (proj2 (Z.ltb_ge _ _)) by lia. eexists _, _. split; [done|]. split; [|eauto].
    intros ? [= <-].
    assert (Ht : take (Z.to_nat (e - off + 1))
                   (d1 ++ d2 ++ replicate (Z.to_nat (e - off + 1)) Byte.x00)%list = (d1 ++ d2)%list).
    { rewrite app_assoc. apply take_app_length'. rewrite length_app. unfold len in Hl. lia. }
    rewrite Ht, len_app. done.
  - eexists _, _. split; [done|]. split; done.
Qed.

Lemma CopyTo_content c p off e n now :
  ra_ok c → 0 ≤ off ≤ e → e ≤ 2 ^ 61 → 0 ≤ n →
  ∃ d c', CopyTo cfg xxhash p off e n now c = Some (d, c') ∧
    (d = [] ∨ len d = Z.min n (e - off + 1)) ∧ at_offset p off d.
Proof.
  intros Hr Ho He Hn. pose proof (find_chunks_spec p off e c Hr Ho He) as Hf. unfold CopyTo.
  destruct (find_chunks cfg xxhash p off e c) as [b|b b2|]; simpl in Hf.
  - destruct Hf as (d & -> & Hl & Hat). simpl. eexists _, _. split; [done|].
    split; [right; rewrite len_take; lia|by apply at_offset_take].
  - destruct Hf as (d1 & d2 & -> & -> & Hl & Hat). simpl. eexists _, _. split; [done|].
    assert (Ht : (take (Z.to_nat n) d1 ++ take (Z.to_nat (n - len (take (Z.to_nat n) d1))) d2)%list
                 = take (Z.to_nat n) (d1 ++ d2)%list).
    { rewrite take_app. f_equal. f_equal. rewrite len_take. unfold len. lia. }
    rewrite Ht. split; [right; rewrite len_take, len_app; lia|by apply at_offset_take].
  - eexists _, _. split; [done|]. split; [by left|].
    intros x Hx. unfold len in Hx. simpl in Hx. lia.
Qed.

(** C3: Whatever was put, evicted and recycled before, a read never panics, and
    what it returns is the whole range asked for, byte for byte the content of
    that path: an array is never reused while a chunk still points at it, a
    chunk of another path is never found, and two stitched chunks meet. *)
Theorem ra_reads_content c p off e n now :
  ra_reachable c → 0 ≤ off ≤ e → e ≤ 2 ^ 61 → 0 ≤ n →
  (∃ r c', Ra_Get cfg xxhash p off e now c = Some (r, c') ∧
     ∀ d, r = Some d → len d = e - off + 1 ∧ at_offset p off d) ∧
  (∃ d c', CopyTo cfg xxhash p off e n now c = Some (d, c') ∧
     (d = [] ∨ len d = Z.min n (e - off + 1)) ∧ at_offset p off d).
Proof.
  intros Hr Ho He Hn. apply ra_reachable_ok in Hr. split; [|by apply CopyTo_content].
  destruct (Ra_Get_content c p off e now Hr Ho He) as (r & c' & Hg & Hd & _). eauto.
Qed.

(** C40: The byte counter is always the size of the cached chunks, and exceeds the
    budget by at most one chunk per shard; a [Put] ends within the budget or
    with its shard holding that one chunk, which is cached in either case. *)
Theorem ra_budget c p start d now resp :
  ra_reachable c → 0 ≤ start ≤ 2 ^ 61 → len d ≤ M → at_offset p start d →
  let c' := (Ra_Put cfg xxhash p start (start + len d - 1) d now resp c).2 in
  used c = sumZ shard_bytes (shards c) ∧ used c ≤ limit_of cfg + 32 * M ∧
  Exists cfg xxhash p start c' = true ∧
  (used c' ≤ limit_of cfg ∨ (length (order (shard_at xxhash p c')) ≤ 1)%nat).
Proof.
  intros Hr Hs Hd Hat. apply ra_reachable_ok in Hr. cbv zeta.
  destruct (Ra_Put cfg xxhash p start (start + len d - 1) d now resp c) as [t c'] eqn:E.
  eapply Ra_Put_spec in E as (_ & [b Hb] & Hfit); [|done..|intros x Hx; symmetry; auto].
  split; [apply (ro_used _ Hr)|]. split; [apply (ra_used_bound c Hr)|]. split; [|done].
  unfold Exists. simpl. by rewrite Hb.
Qed.
End invariant.

(** ** Witnesses: two chunks of four bytes, a read across their boundary. *)

Definition demo_ra_cfg : RaConfig := mkRaConfig 4 1000.
Definition demo_hash (p : string) : Z := Z.of_nat (String.length p).
Definition demo_content (p : string) : list byte :=
  [Byte.x00; Byte.x01; Byte.x02; Byte.x03; Byte.x04; Byte.x05; Byte.x06; Byte.x07].
Definition demo_ra1 : ReadAheadCache :=
  (Ra_Put demo_ra_cfg demo_hash "m" 0 3 [Byte.x00; Byte.x01; Byte.x02; Byte.x03] 1 false newReadAheadCache).2.
Definition demo_ra2 : ReadAheadCache :=
  (Ra_Put demo_ra_cfg demo_hash "m" 4 7 [Byte.x04; Byte.x05; Byte.x06; Byte.x07] 2 false demo_ra1).2.

Lemma at_offset_check p off d :
  0 ≤ off → d = take (length d) (drop (Z.to_nat off) (demo_content p)) → at_offset demo_content p off d.
Proof.
  intros Ho Hd x Hx. rewrite Hd at 1. rewrite lookup_take_lt, lookup_drop by (unfold len in Hx; lia).
  f_equal. lia.
Qed.

Lemma demo_ra1_reachable : ra_reachable demo_ra_cfg demo_hash demo_content 4 demo_ra1.
Proof.
  apply (RR_step _ _ _ _ newReadAheadCache); [apply RR_new|].
  apply (RA_put _ _ _ _ newReadAheadCache "m" 0 3);
    [lia|vm_compute; discriminate|done|apply at_offset_check; [lia|reflexivity]].
Qed.

Lemma demo_ra_reachable : ra_reachable demo_ra_cfg demo_hash demo_content 4 demo_ra2.
Proof.
  apply (RR_step _ _ _ _ demo_ra1); [apply demo_ra1_reachable|].
  apply (RA_put _ _ _ _ demo_ra1 "m" 4 7);
    [lia|vm_compute; discriminate|done|apply at_offset_check; [lia|reflexivity]].
Qed.

Lemma ra_reads_content_witness :
  ∃ d, fst <$> Ra_Get demo_ra_cfg demo_hash "m" 2 5 9 demo_ra2 = Some (Some d) ∧
       at_offset demo_content "m" 2 d ∧ d = [Byte.x02; Byte.x03; Byte.x04; Byte.x05].
Proof.
  destruct (ra_reads_content demo_ra_cfg demo_hash demo_content 4 ltac:(lia)
    ltac:(vm_compute; discriminate) ltac:(vm_compute; split; [reflexivity|discriminate])
    demo_ra2 "m" 2 5 4 9 demo_ra_reachable ltac:(lia) ltac:(lia) ltac:(lia)) as [(r & c' & Hg & Hr) _].
  assert (E : fst <$> Ra_Get demo_ra_cfg demo_hash "m" 2 5 9 demo_ra2
              = Some (Some [Byte.x02; Byte.x03; Byte.x04; Byte.x05])) by (vm_compute; reflexivity).
  rewrite Hg in E. simpl in E. injection E as ->.
  eexists. split; [rewrite Hg; reflexivity|]. split; [apply (Hr _ eq_refl)|reflexivity].
Defined.

Lemma ra_budget_witness :
  used demo_ra1 = 4 ∧
  Exists demo_ra_cfg demo_hash "m" 4 demo_ra2 = true ∧ used demo_ra1 ≤ 1000 + 32 * 4.
Proof.
  destruct (ra_budget demo_ra_cfg demo_hash demo_content 4 ltac:(lia)
    ltac:(vm_compute; discriminate) ltac:(vm_compute; split; [reflexivity|discriminate])
    demo_ra1 "m" 4 [Byte.x04; Byte.x05; Byte.x06; Byte.x07] 2 false) as (H1 & H2 & H3 & H4).
  { exact demo_ra1_reachable. }
  { lia. }
  { vm_compute. discriminate. }
  { apply at_offset_check; [lia|reflexivity]. }
  split; [vm_compute; reflexivity|]. split; [exact H3|exact H2].
Defined.
