(* ===== verification/Pump.v ===== *)
(** * The pump and its handles (main.go)

    The pump reads the torrent ahead of the player, chunk by chunk, into the
    read-ahead cache and the warm-up file; it follows the handle that proved to
    be the player, the primary one.  [nativePumpChunk] is one turn of its loop;
    the promotion of a handle is a compare-and-swap followed by a walk over the
    open handles, and walks of several promotions interleave.  The native
    reader and the torrent are code of the bridge: what [ReadAt] returned is an
    argument, and the pressure signal is part of the result.  Sleeps are left
    out. *)

From Stdlib Require Import String.
From S2P Require Import Prelude GoStrings TailRange Warmup RaCache.
Local Open Scope string_scope.
Local Open Scope Z_scope.
Local Open Scope go_scope.

(** ** Decisions *)

Definition MB : Z := 1024 * 1024.

Definition pumpLeadLimit (budget chunkSize : Z) : Z :=
  if (budget <=? 0) || (chunkSize <=? 0) then budget
  else
    let slack := 3 *! chunkSize in
    let slack := if slack >? budget /! 2 then budget /! 2 else slack in
    let lead := budget -! slack in
    let lead := if lead <? chunkSize then chunkSize else lead in
    if lead >? budget then budget else lead.

Definition shouldInterruptForSeek (prevOff off budget : Z) : bool :=
  if (prevOff <=? 0) || (off =? 0) then false
  else (off >? prevOff +! budget) || (prevOff >? off +! budget).

Definition tailProbeZoneSize (size : Z) : Z :=
  let zone := size /! 20 in
  let zone := if zone <? 64 * 1024 * 1024 then 64 * 1024 * 1024 else zone in
  if zone >? 2 * 1024 * 1024 * 1024 then 2 * 1024 * 1024 * 1024 else zone.

Definition advanceProvesStreaming (prevOff off readLen size tolerance threshold : Z) : bool :=
  if (prevOff <? 0) || (off <=? prevOff) || (readLen <=? 0) then false
  else if off -! prevOff >? readLen +! tolerance then false
  else if readLen <? threshold /! 4 then false
  else off <? size -! tailProbeZoneSize size.

Definition shouldServeTailFromSSD (off size tailWarmupSize : Z) : bool :=
  if (size <=? 0) || (tailWarmupSize <=? 0) then false
  else
    let tailStart := size -! tailWarmupSize in
    let tailStart := if tailStart <? 0 then 0 else tailStart in
    off >=? tailStart.

Definition shouldRecordResumeOff (healthy isPrimary : bool) (off size : Z) : bool :=
  if negb healthy || negb isPrimary || (size <=? 0) then false
  else (off >? 2 * MB) && (off <? size -! tailProbeZoneSize size).

Definition resumeAnchorFromPersisted (lastSeekOff size : Z) : Z * bool :=
  if (lastSeekOff >? 2 * MB) && (lastSeekOff <? size -! tailProbeZoneSize size)
  then (lastSeekOff, false)
  else if lastSeekOff >=? size -! tailProbeZoneSize size then (0, true)
  else (0, false).

Definition shouldInterruptPump (prevOff off budget : Z) (tailServed : bool) : bool :=
  if tailServed then false else shouldInterruptForSeek prevOff off budget.

Definition primaryProofReads : Z := 3.

Definition primaryProofFor (challengerOff incumbentOff budget : Z) : Z :=
  if (incumbentOff <=? 0) || (budget <=? 0) then primaryProofReads
  else
    let d := challengerOff -! incumbentOff in
    let d := if d <? 0 then i64 (- d) else d in
    if d <=? budget then primaryProofReads else primaryProofReads * 4.

Definition pumpStrandedAhead (offset playerOff budget : Z) : bool :=
  if (playerOff <=? 0) || (budget <=? 0) then false else offset >? playerOff +! 2 *! budget.

(** ** Handles *)

Record MkvHandle := mkHandleState {
  h_path : string;
  h_size : Z;
  h_hash : string;
  h_lastOff : Z;
  h_primary : bool;
  h_seq : Z
}.

Abbreviation Handles := (gmap nat MkvHandle).

Definition set_primary (b : bool) (h : MkvHandle) : MkvHandle :=
  mkHandleState (h_path h) (h_size h) (h_hash h) (h_lastOff h) b (h_seq h).
Definition set_seq (n : Z) (h : MkvHandle) : MkvHandle :=
  mkHandleState (h_path h) (h_size h) (h_hash h) (h_lastOff h) (h_primary h) n.

Section handles.
Context `{GoRuntime}.

(** [seedResumeAnchor]: the handle, and whether the stored value is to be
    zeroed, in memory and in the database. *)
Definition seedResumeAnchor (lastSeekOff : Z) (h : MkvHandle) : MkvHandle * bool * bool :=
  if lastSeekOff <=? 2 * MB then (h, false, false)
  else
    let '(anchor, zeroed) := resumeAnchorFromPersisted lastSeekOff (h_size h) in
    if anchor >? 0
    then (mkHandleState (h_path h) (h_size h) (h_hash h) anchor (h_primary h) (h_seq h), true, false)
    else (h, false, zeroed).

Definition is_primary_of (path : string) (h : MkvHandle) : bool :=
  String.eqb (h_path h) path && h_primary h.

Definition primaryOffsetFor (path : string) (except : nat) (hs : Handles) : Z :=
  foldl (λ off kv, if negb (Nat.eqb kv.1 except) && is_primary_of path kv.2 && (h_lastOff kv.2 >? off)
                   then h_lastOff kv.2 else off) 0 (map_range hs).

(** The position the pump follows: the furthest primary handle of the path. *)
Definition playerOff (path : string) (hs : Handles) : Z :=
  foldl (λ off kv, if is_primary_of path kv.2 && (h_lastOff kv.2 >? off)
                   then h_lastOff kv.2 else off) 0 (map_range hs).

(** [becomePrimary]: the compare-and-swap, and one visit of the walk. *)
Definition claim_primary (i : nat) (hs : Handles) : option Handles :=
  h ← hs !! i; if h_primary h then None else Some (<[i := set_primary true h]> hs).

Definition demote (i : nat) (path : string) (j : nat) (hs : Handles) : Handles :=
  match hs !! j with
  | Some h => if negb (Nat.eqb j i) && is_primary_of path h
              then <[j := set_seq 0 (set_primary false h)]> hs else hs
  | None => hs
  end.

Definition becomePrimary (i : nat) (hs : Handles) : bool * Handles :=
  match hs !! i, claim_primary i hs with
  | Some h, Some hs' =>
      (true, foldl (λ hs j, demote i (h_path h) j hs) hs' ((map_range hs').*1))
  | _, _ => (false, hs)
  end.

(** [promoteIfStreaming]: [playing] says the registry holds a confirmed or
    inferred playback of the path. *)
Definition promoteIfStreaming (tolerance threshold budget : Z) (playing : bool) (i : nat)
    (prevOff off readLen : Z) (hs : Handles) : Handles :=
  match hs !! i with
  | None => hs
  | Some h =>
      if h_primary h || String.eqb (h_hash h) "" || (prevOff <? 0) then hs
      else if negb (advanceProvesStreaming prevOff off readLen (h_size h) tolerance threshold)
      then <[i := set_seq 0 h]> hs
      else
        let n := i32 (h_seq h + 1) in
        let hs := <[i := set_seq n h]> hs in
        if n <? primaryProofFor off (primaryOffsetFor (h_path h) i hs) budget then hs
        else if playing then (becomePrimary i hs).2 else hs
  end.

(** ** Promotions interleaved

    A promotion in progress is the handle that claims and the handles its walk
    has yet to visit. *)
Record HState := mkHState { hs_handles : Handles; hs_walks : list (nat * string * list nat) }.

Inductive h_step : HState → HState → Prop :=
  | H_open st i h :
      hs_handles st !! i = None → h_primary h = false →
      (∀ w, w ∈ hs_walks st → w.1.1 ≠ i) →
      h_step st (mkHState (<[i := h]> (hs_handles st)) (hs_walks st))
  | H_close st i : h_step st (mkHState (delete i (hs_handles st)) (hs_walks st))
  | H_read st i h off seq :
      hs_handles st !! i = Some h →
      h_step st (mkHState (<[i := mkHandleState (h_path h) (h_size h) (h_hash h) off (h_primary h) seq]>
                   (hs_handles st)) (hs_walks st))
  | H_claim st i h hs' :
      hs_handles st !! i = Some h → claim_primary i (hs_handles st) = Some hs' →
      h_step st (mkHState hs' ((i, h_path h, (map_range hs').*1) :: hs_walks st))
  | H_visit st i p j todo ws1 ws2 :
      hs_walks st = (ws1 ++ (i, p, j :: todo) :: ws2)%list →
      h_step st (mkHState (demote i p j (hs_handles st)) (ws1 ++ (i, p, todo) :: ws2)%list)
  | H_done st i p ws1 ws2 :
      hs_walks st = (ws1 ++ (i, p, []) :: ws2)%list →
      h_step st (mkHState (hs_handles st) (ws1 ++ ws2)%list).

Definition h_init : HState := mkHState ∅ [].

(** Two primaries of a path: one of them has yet to visit the other. *)
Definition will_visit (st : HState) (i j : nat) (p : string) : Prop :=
  ∃ todo, (i, p, todo) ∈ hs_walks st ∧ j ∈ todo.

Definition primaries_resolving (st : HState) : Prop :=
  ∀ i j hi hj, i ≠ j → hs_handles st !! i = Some hi → hs_handles st !! j = Some hj →
    h_path hi = h_path hj → h_primary hi = true → h_primary hj = true →
    will_visit st i j (h_path hi) ∨ will_visit st j i (h_path hi).

Lemma will_visit_mono st hs i j p :
  will_visit st i j p → will_visit (mkHState hs (hs_walks st)) i j p.
Proof. done. Qed.

(** Handles change without a new primary: the walks still resolve every pair. *)
Lemma resolving_same_walks st hs' :
  (∀ i h, hs' !! i = Some h → h_primary h = true →
     ∃ h0, hs_handles st !! i = Some h0 ∧ h_primary h0 = true ∧ h_path h0 = h_path h) →
  primaries_resolving st → primaries_resolving (mkHState hs' (hs_walks st)).
Proof.
  intros Hsub Hr i j hi hj Hne Hi Hj Hp Hpi Hpj. simpl in *.
  destruct (Hsub i hi Hi Hpi) as (gi & Gi & Gpi & Ep). destruct (Hsub j hj Hj Hpj) as (gj & Gj & Gpj & Eq).
  destruct (Hr i j gi gj) as [Hv|Hv]; try done; [congruence|left|right]; rewrite Ep in Hv; exact Hv.
Qed.

Lemma demote_sub i p j hs k h :
  demote i p j hs !! k = Some h → h_primary h = true →
  hs !! k = Some h ∧ (k = j → j = i ∨ h_path h ≠ p).
Proof.
  unfold demote. intros Hk Hp. destruct (hs !! j) as [g|] eqn:Hj.
  - destruct (negb (j =? i)%nat && is_primary_of p g) eqn:E.
    + apply lookup_insert_Some in Hk as [[<- <-]|[Hne Hk]]; [done|]. split; [done|]. naive_solver.
    + split; [done|]. intros ->. simplify_eq. unfold is_primary_of in E. rewrite Hp, andb_true_r in E.
      destruct (Nat.eqb_spec j i); [by left|right]. simpl in E. by apply String.eqb_neq in E.
  - split; [done|]. intros ->. congruence.
Qed.

Lemma h_step_resolving st st' : h_step st st' → primaries_resolving st → primaries_resolving st'.
Proof.
  intros Hs Hr. destruct Hs as [st i h Hi Hh Hw|st i|st i h off seq Hi|st i h hs' Hi Hc
    |st i p j todo ws1 ws2 Hw|st i p ws1 ws2 Hw].
  - apply resolving_same_walks; [|done]. intros k g [[<- <-]|[_ Hk]]%lookup_insert_Some Hp; [congruence|eauto].
  - apply resolving_same_walks; [|done]. intros k g [_ Hk]%lookup_delete_Some Hp. eauto.
  - apply resolving_same_walks; [|done].
    intros k g [[<- <-]|[_ Hk]]%lookup_insert_Some Hp; simpl in *; eauto.
  - unfold claim_primary in Hc. rewrite Hi in Hc. simpl in Hc.
    destruct (h_primary h) eqn:Ep; [done|]. injection Hc as <-.
    intros a b ha hb Hne Ha Hb Hp Hpa Hpb. simpl in *.
    assert (Hin : ∀ k g, <[i := set_primary true h]> (hs_handles st) !! k = Some g →
      k ∈ (map_range (<[i := set_primary true h]> (hs_handles st))).*1).
    { intros k g Hk. apply list_elem_of_fmap. exists (k, g). split; [done|]. by apply elem_of_map_range. }
    destruct (decide (a = i)) as [->|Hai]; [|destruct (decide (b = i)) as [->|Hbi]].
    + left. rewrite lookup_insert_eq in Ha. injection Ha as <-. simpl.
      eexists. split; [left|]. by eapply Hin.
    + right. rewrite lookup_insert_eq in Hb. injection Hb as <-. simpl in Hp. rewrite Hp.
      eexists. split; [left|]. by eapply Hin.
    + rewrite lookup_insert_ne in Ha, Hb by done.
      destruct (Hr a b ha hb Hne Ha Hb Hp Hpa Hpb) as [(t & Ht & Hin')|(t & Ht & Hin')];
        [left|right]; exists t; (split; [by right|done]).
  - intros a b ha hb Hne Ha Hb Hp Hpa Hpb. simpl in *.
    destruct (demote_sub _ _ _ _ _ _ Ha Hpa) as [Ha0 Haj].
    destruct (demote_sub _ _ _ _ _ _ Hb Hpb) as [Hb0 Hbj].
    assert (Hkeep : ∀ c d g, hs_handles st !! d = Some g → h_path g = h_path ha → c ≠ d →
      (d = j → j = i ∨ h_path g ≠ p) → will_visit st c d (h_path ha) →
      will_visit (mkHState (demote i p j (hs_handles st)) (ws1 ++ (i, p, todo) :: ws2)%list) c d (h_path ha)).
    { intros c d g Hg Hgp Hcd Hdj (t & Ht & Hdt). unfold will_visit. simpl. rewrite Hw in Ht.
      apply elem_of_app in Ht as [Ht|[Ht|Ht]%elem_of_cons].
      - exists t. split; [apply elem_of_app; by left|done].
      - injection Ht as -> Hpp ->. apply elem_of_cons in Hdt as [->|Hdt].
        + destruct (Hdj eq_refl) as [->|Hbad]; [done|congruence].
        + exists todo. rewrite Hpp. split; [apply elem_of_app; right; left|done].
      - exists t. split; [apply elem_of_app; right; by right|done]. }
    destruct (Hr a b ha hb Hne Ha0 Hb0 Hp Hpa Hpb) as [Hv|Hv].
    + left. by eapply (Hkeep a b hb).
    + right. eapply (Hkeep b a ha); [done|done|done|done|done].
  - intros a b ha hb Hne Ha Hb Hp Hpa Hpb. simpl in *.
    assert (Hkeep : ∀ c d, will_visit st c d (h_path ha) →
      will_visit (mkHState (hs_handles st) (ws1 ++ ws2)%list) c d (h_path ha)).
    { intros c d (t & Ht & Hdt). unfold will_visit. simpl. rewrite Hw in Ht. exists t.
      apply elem_of_app in Ht as [Ht|[Ht|Ht]%elem_of_cons].
      - split; [apply elem_of_app; by left|done].
      - injection Ht as -> -> ->. by apply elem_of_nil in Hdt.
      - split; [apply elem_of_app; by right|done]. }
    destruct (Hr a b ha hb Hne Ha Hb Hp Hpa Hpb) as [Hv|Hv]; [left|right]; by apply Hkeep.
Qed.

Lemma h_reachable_resolving st : rtc h_step h_init st → primaries_resolving st.
Proof.
  assert (H0 : primaries_resolving h_init).
  { intros i j hi hj _ Hi. simpl in Hi. by rewrite lookup_empty in Hi. }
  intros Hr. revert H0. induction Hr as [|x y z Hs _ IH]; intros Hx; [done|].
  apply IH. by eapply h_step_resolving.
Qed.

(** The furthest primary, when at most one is primary, is that one. *)
Lemma playerOff_unique path hs :
  (∀ i j hi hj, hs !! i = Some hi → hs !! j = Some hj → is_primary_of path hi = true →
     is_primary_of path hj = true → i = j) →
  (∀ i h, hs !! i = Some h → is_primary_of path h = true → playerOff path hs = Z.max 0 (h_lastOff h)) ∧
  ((∀ i h, hs !! i = Some h → is_primary_of path h = false) → playerOff path hs = 0).
Proof.
  intros Hu. unfold playerOff.
  assert (Hl : ∀ l, NoDup (l.*1) → (∀ i h, (i, h) ∈ l → hs !! i = Some h) → ∀ acc,
    (∀ i h, (i, h) ∈ l → is_primary_of path h = false) →
    foldl (λ off kv, if is_primary_of path kv.2 && (h_lastOff kv.2 >? off) then h_lastOff kv.2 else off)
      acc l = acc).
  { intros l _ _. induction l as [|[k g] l IH]; intros acc Hn; cbn [foldl snd]; [done|].
    rewrite (Hn k g) by left. rewrite andb_false_l. apply IH. intros i h Hi. apply (Hn i h). by right. }
  pose proof (NoDup_map_range_fst hs) as Hnd.
  assert (Hmem : ∀ i h, (i, h) ∈ map_range hs ↔ hs !! i = Some h) by (intros; apply elem_of_map_range).
  split; [|intros Hnone; apply Hl; [done|intros; by apply Hmem|intros i h Hi; apply (Hnone i); by apply Hmem]].
  intros i h Hi Hp. apply Hmem in Hi. apply list_elem_of_split in Hi as (l1 & l2 & E).
  rewrite E in *. rewrite fmap_app in Hnd. apply list.NoDup_app in Hnd as (Hn1 & Hdis & Hn2).
  simpl in Hn2. apply list.NoDup_cons in Hn2 as [Hi2 Hn2].
  assert (Hin : ∀ k g, (k, g) ∈ (l1 ++ (i, h) :: l2)%list → hs !! k = Some g) by (intros; by apply Hmem).
  assert (Hoth : ∀ k g, (k, g) ∈ l1 ∨ (k, g) ∈ l2 → is_primary_of path g = false).
  { intros k g Hk. destruct (is_primary_of path g) eqn:Eg; [|done]. exfalso.
    assert (k = i) as ->.
    { apply (Hu k i g h); [|apply Hin; apply elem_of_app; right; left|done|done].
      apply Hin. apply elem_of_app. destruct Hk; [by left|right; by right]. }
    destruct Hk as [Hk|Hk].
    - apply (Hdis i); [|left]. apply list_elem_of_fmap. by exists (i, g).
    - apply Hi2. apply list_elem_of_fmap. by exists (i, g). }
  rewrite foldl_app. cbn [foldl]. rewrite (Hl l1); [|done| |by intros; eapply Hoth; left].
  2:{ intros k g Hk. apply Hin. apply elem_of_app. by left. }
  rewrite (Hl l2); [|done| |by intros; eapply Hoth; right].
  2:{ intros k g Hk. apply Hin. apply elem_of_app. right. by right. }
  simpl. rewrite Hp. simpl. case_if; lia.
Qed.

(** Under every interleaving of opens, closes, reads and promotions, once no
    promotion is in progress a path has at most one primary handle, so that the
    position the pump follows is that of the one player. *)
Theorem pump_follows_one_primary st path :
  rtc h_step h_init st → hs_walks st = [] →
  (∀ i j hi hj, hs_handles st !! i = Some hi → hs_handles st !! j = Some hj →
     is_primary_of path hi = true → is_primary_of path hj = true → i = j) ∧
  (∀ i h, hs_handles st !! i = Some h → is_primary_of path h = true →
     playerOff path (hs_handles st) = Z.max 0 (h_lastOff h)).
Proof.
  intros Hr Hw. apply h_reachable_resolving in Hr.
  assert (Hu : ∀ i j hi hj, hs_handles st !! i = Some hi → hs_handles st !! j = Some hj →
     is_primary_of path hi = true → is_primary_of path hj = true → i = j).
  { intros i j hi hj Hi Hj Hpi Hpj. destruct (decide (i = j)) as [|Hne]; [done|exfalso].
    unfold is_primary_of in Hpi, Hpj. apply andb_true_iff in Hpi as [Ei%String.eqb_eq Pi], Hpj as [Ej%String.eqb_eq Pj].
    destruct (Hr i j hi hj Hne Hi Hj ltac:(congruence) Pi Pj) as [(t & Ht & _)|(t & Ht & _)];
      rewrite Hw in Ht; by apply elem_of_nil in Ht. }
  split; [exact Hu|]. by apply playerOff_unique.
Qed.
End handles.

(** ** One turn of the pump *)

Record PumpHandle := mkPumpHandle {
  p_path : string;
  p_hash : string;
  p_fileID : Z;
  p_size : Z;
  p_usesWarmup : bool;
  p_inWarmup : bool
}.

(** The two caches the pump feeds. *)
Record World := mkWorld { w_ra : ReadAheadCache; w_warm : option DiskWarmupCache }.

Record PumpOut := mkPumpOut { po_stop : bool; po_next : Z; po_pressure : option (bool * Z) }.

Section pump.
Context `{GoRuntime} (racfg : RaConfig) (wcfg : Config) (xxhash : string → Z).

(** [DiskWarmup.WriteChunk] when the handle warms up and the offset is in the
    head. *)
Definition warm_chunk (h : PumpHandle) (d : list Byte.byte) (offset : Z) (w : option DiskWarmupCache)
    : option DiskWarmupCache :=
  if p_usesWarmup h && negb (String.eqb (p_hash h) "") && (offset <=? FileSize wcfg)
  then WriteChunk wcfg (p_hash h) (p_fileID h) d offset <$> w else w.

(** The skip over what the SSD serves: the coverage is asked for only while the
    handle is in its warm-up state. *)
Definition warm_skip (io : Io) (now : Z) (h : PumpHandle) (upto : Z) (w : option DiskWarmupCache)
    : bool * option DiskWarmupCache :=
  if p_usesWarmup h && negb (String.eqb (p_hash h) "") && p_inWarmup h then
    match w with
    | Some d => let '(cov, d) := GetAvailableRange wcfg io now (p_hash h) (p_fileID h) d in
                (cov >=? upto, Some d)
    | None => (false, None)
    end
  else (false, w).

Definition nativePumpChunk (io : Io) (now : Z) (resp hasTorrent : bool)
    (ReadAt : Z → Z → list Byte.byte * bool) (h : PumpHandle)
    (offset chunkSize playerOff : Z) (wd : World) : option (PumpOut * World) :=
  if offset >=? p_size h then Some (mkPumpOut true offset None, wd)
  else
    let budget := ReadAheadBudget racfg in
    let leadLimit := pumpLeadLimit budget chunkSize in
    let diff := offset -! playerOff in
    if diff >? leadLimit then Some (mkPumpOut false offset None, wd)
    else
      let pressure := if negb (String.eqb (p_hash h) "") && hasTorrent
                      then Some (diff <? budget *! 20 /! 100, offset) else None in
      let e := if offset +! chunkSize >? p_size h then p_size h else offset +! chunkSize in
      match Covered racfg xxhash (p_path h) offset (e -! 1) now (w_ra wd) with
      | (true, c) =>
          '(r, c) ← (if p_usesWarmup h && negb (String.eqb (p_hash h) "") && (offset <=? FileSize wcfg) &&
                        bool_decide (is_Some (w_warm wd))
                     then Ra_Get racfg xxhash (p_path h) offset (e -! 1) now c
                     else Some (None, c));
          let w := match r with Some d => warm_chunk h d offset (w_warm wd) | None => w_warm wd end in
          Some (mkPumpOut false (offset +! chunkSize) pressure, mkWorld c w)
      | (false, c) =>
          let '(skip, w) := warm_skip io now h (offset +! chunkSize) (w_warm wd) in
          if skip : bool then Some (mkPumpOut false (offset +! chunkSize) pressure, mkWorld c w)
          else
            let '(d, err) := ReadAt (e -! offset) offset in
            let n := len d in
            let '(c, w) :=
              if n >? 0
              then ((Ra_Put racfg xxhash (p_path h) offset (offset +! n -! 1) d now resp c).2,
                    warm_chunk h d offset w)
              else (c, w) in
            let got := offset +! n in
            let out :=
              if err : bool then mkPumpOut true got pressure
              else if n <? e -! offset
              then mkPumpOut false ((got /! chunkSize +! 1) *! chunkSize) pressure
              else mkPumpOut false got pressure in
            Some (out, mkWorld c w)
      end.
End pump.

(** ** The lead *)

Lemma pumpLeadLimit_bounds budget chunk :
  0 < budget ≤ 2 ^ 60 → 0 < chunk ≤ 2 ^ 60 →
  Z.min chunk budget ≤ pumpLeadLimit budget chunk ≤ budget ∧
  (6 * chunk ≤ budget → pumpLeadLimit budget chunk + 3 * chunk = budget).
Proof.
  intros Hb Hc. unfold pumpLeadLimit. rewrite (proj2 (Z.leb_gt budget 0)), (proj2 (Z.leb_gt chunk 0)) by lia.
  simpl. pose proof (quot_nonneg budget 2 ltac:(lia) ltac:(lia)).
  pose proof (quot_mul_le budget 2 ltac:(lia) ltac:(lia)). pose proof (quot_mul_gt budget 2 ltac:(lia) ltac:(lia)).
  go_simpl. destruct (3 * chunk >? Z.quot budget 2) eqn:E; go_simpl;
    match goal with |- context [if ?b then chunk else _] => destruct b eqn:E2 end;
    bool_simpl; case_if; lia.
Qed.

(** With a budget of at least six chunks, a pump that stops as soon as its
    lead exceeds the limit stays, chunk in flight included, two chunks short of
    the budget: the player is always inside the window the cache holds.  For any
    budget the limit is at most the budget and at least a chunk. *)
Theorem pump_lead_in_window budget chunk lead :
  0 < budget ≤ 2 ^ 60 → 0 < chunk ≤ 2 ^ 60 → lead ≤ pumpLeadLimit budget chunk →
  (6 * chunk ≤ budget → lead + chunk ≤ budget - 2 * chunk) ∧
  Z.min chunk budget ≤ pumpLeadLimit budget chunk ≤ budget.
Proof.
  intros Hb Hc Hl. destruct (pumpLeadLimit_bounds budget chunk Hb Hc) as [H1 H2].
  split; [|done]. intros H6. specialize (H2 H6). lia.
Qed.

(** ** A turn keeps both caches exact *)

Section pump_correct.
Context `{GoRuntime} (racfg : RaConfig) (wcfg : Config) (xxhash : string → Z).
Context (content : string → list Byte.byte) (source : string → Z → list Byte.byte) (M : Z).
Context (HM : 0 ≤ M ≤ 2 ^ 50) (Hlimit : limit_of racfg ≤ 2 ^ 59) (Hbase : 0 < base_size racfg ≤ 2 ^ 50).
Context (Hfs : 0 ≤ FileSize wcfg ≤ 2 ^ 61) (Hsrc : ∀ h i, len (source h i) ≤ 2 ^ 61).

Definition world_ok (wd : World) : Prop :=
  ra_reachable racfg xxhash content M (w_ra wd) ∧
  ∀ d, w_warm wd = Some d → warm_reachable wcfg source d.

Lemma warm_chunk_ok h d offset w :
  0 ≤ p_fileID h → 0 ≤ offset → from_source source (p_hash h) (p_fileID h) offset d →
  (∀ k, w = Some k → warm_reachable wcfg source k) →
  ∀ k, warm_chunk wcfg h d offset w = Some k → warm_reachable wcfg source k.
Proof.
  intros Hid Ho Hd Hw k. unfold warm_chunk. case_match; [|apply Hw].
  intros (k0 & -> & ->)%fmap_Some. eapply WR_step; [by apply Hw|]. by apply W_chunk.
Qed.

Lemma warm_skip_ok io now h upto w :
  0 ≤ p_fileID h → (∀ k, w = Some k → warm_reachable wcfg source k) →
  ∀ k, (warm_skip wcfg io now h upto w).2 = Some k → warm_reachable wcfg source k.
Proof.
  intros Hid Hw k. unfold warm_skip. case_match; [|apply Hw]. destruct w as [d|]; [|done].
  destruct (GetAvailableRange wcfg io now (p_hash h) (p_fileID h) d) as [n d'] eqn:E. simpl. intros [= <-].
  eapply WR_step; [by apply (Hw d)|].
  replace d' with (GetAvailableRange wcfg io now (p_hash h) (p_fileID h) d).2 by (by rewrite E).
  by apply W_avail.
Qed.

Lemma snap_to_grid off n chunk :
  0 < chunk → 0 ≤ off → off mod chunk = 0 → 0 ≤ n < chunk →
  (Z.quot (off + n) chunk + 1) * chunk = off + chunk.
Proof.
  intros Hc Ho Hal Hn. rewrite Z.quot_div_nonneg by lia.
  apply Z.div_exact in Hal; [|lia]. set (q := off `div` chunk) in *. clearbody q. subst off.
  rewrite <-(Z.div_unique_pos (chunk * q + n) chunk q n); lia.
Qed.

(** The turn, with its state after it. *)
Lemma pump_turn_ok io now resp hasT ReadAt h offset playerOff wd :
  let chunk := ChunkSize racfg (p_path h) (w_ra wd) in
  world_ok wd → 0 ≤ p_fileID h → content (p_path h) = source (p_hash h) (p_fileID h) →
  p_size h = len (content (p_path h)) → p_size h ≤ 2 ^ 60 → chunk ≤ M →
  0 ≤ offset ≤ 2 ^ 60 → offset mod chunk = 0 → 0 ≤ playerOff ≤ 2 ^ 60 →
  (∀ n off, 0 ≤ n → 0 ≤ off → len (ReadAt n off).1 ≤ n ∧ at_offset content (p_path h) off (ReadAt n off).1) →
  ∃ out wd', nativePumpChunk racfg wcfg xxhash io now resp hasT ReadAt h offset chunk playerOff wd
               = Some (out, wd') ∧ world_ok wd' ∧
    (po_stop out = false →
       (po_next out = offset ∧ pumpLeadLimit (ReadAheadBudget racfg) chunk < offset - playerOff) ∨
       (offset < po_next out ≤ offset + chunk ∧
        (po_next out mod chunk = 0 ∨ po_next out = p_size h) ∧
        po_next out - playerOff ≤ pumpLeadLimit (ReadAheadBudget racfg) chunk + chunk)).
Proof.
  intros chunk [Hra Hw] Hid Hcs Hsz Hsmall HcM Ho Hal Hpl HRA.
  pose proof (ra_reachable_ok racfg xxhash content M HM Hlimit Hbase _ Hra) as Hok.
  assert (Hc0 : 0 < chunk) by (apply (ro_chunk _ _ _ _ _ Hok)).
  unfold nativePumpChunk. destruct (offset >=? p_size h) eqn:Esz.
  { eexists _, _. split; [done|]. split; [by split|]. done. }
  set (lim := pumpLeadLimit (ReadAheadBudget racfg) chunk). cbv zeta.
  rewrite (i64_id (offset - playerOff)) by (unfold in_i64; lia).
  destruct (offset - playerOff >? lim) eqn:El.
  { eexists _, _. split; [done|]. split; [by split|]. intros _. left. simpl. lia. }
  rewrite (i64_id (offset + chunk)) by (unfold in_i64; lia).
  set (pr := if _ && hasT then _ else None). clearbody pr.
  set (e := if offset + chunk >? p_size h then p_size h else offset + chunk).
  assert (He : offset < e ≤ offset + chunk ∧ e ≤ p_size h ∧ (e = offset + chunk ∨ e = p_size h)).
  { unfold e. case_if; lia. }
  clearbody e. rewrite (i64_id (e - 1)) by (unfold in_i64; lia).
  rewrite (i64_id (e - offset)) by (unfold in_i64; lia).
  assert (Hnext : (offset + chunk) mod chunk = 0).
  { rewrite <-Zplus_mod_idemp_l, Hal. apply Z.mod_same. lia. }
  assert (Hfrom : ∀ d, at_offset content (p_path h) offset d →
    from_source source (p_hash h) (p_fileID h) offset d).
  { intros d Hd x Hx. rewrite <-Hcs. symmetry. by apply Hd. }
  pose proof (RR_step _ _ _ _ _ _ Hra (RA_covered racfg xxhash content M (w_ra wd) (p_path h) offset (e - 1) now)) as Hra1.
  destruct (Covered racfg xxhash (p_path h) offset (e - 1) now (w_ra wd)) as [cov c] eqn:Ecov.
  simpl in Hra1. pose proof (ra_reachable_ok racfg xxhash content M HM Hlimit Hbase _ Hra1) as Hok1.
  destruct cov.
  - destruct (Ra_Get_content racfg xxhash content M c (p_path h) offset (e - 1) now Hok1 ltac:(lia) ltac:(lia))
      as (r & c' & Hg & Hd & _).
    match goal with |- context [if ?b then Ra_Get _ _ _ _ _ _ _ else _] => destruct b end.
    + rewrite Hg. simpl. eexists _, _. split; [done|]. split.
      * split; simpl; [eapply RR_step; [exact Hra1|by eapply RA_get]|].
        destruct r as [d|]; [|exact Hw]. destruct (Hd d eq_refl) as [_ Hat].
        apply warm_chunk_ok; [done|lia|by apply Hfrom|exact Hw].
      * intros _. right. simpl. split; [lia|]. split; [by left|lia].
    + simpl. eexists _, _. split; [done|]. split; [by split|].
      intros _. right. simpl. split; [lia|]. split; [by left|lia].
  - pose proof (warm_skip_ok io now h (offset + chunk) (w_warm wd) Hid Hw) as Hw1.
    destruct (warm_skip wcfg io now h (offset + chunk) (w_warm wd)) as [skip w]. simpl in Hw1.
    destruct skip.
    { eexists _, _. split; [done|]. split; [by split|].
      intros _. right. simpl. split; [lia|]. split; [by left|lia]. }
    destruct (HRA (e - offset) offset ltac:(lia) ltac:(lia)) as [Hn Hat].
    destruct (ReadAt (e - offset) offset) as [d err]. simpl in Hn, Hat.
    pose proof (len_nonneg d) as Hd0.
    rewrite (i64_id (offset + len d)) by (unfold in_i64; lia).
    rewrite (i64_id (offset + len d - 1)) by (unfold in_i64; lia).
    assert (Hwd : ∃ c2 w2, (if len d >? 0
        then ((Ra_Put racfg xxhash (p_path h) offset (offset + len d - 1) d now resp c).2,
              warm_chunk wcfg h d offset w) else (c, w)) = (c2, w2) ∧ world_ok (mkWorld c2 w2)).
    { destruct (len d >? 0); eexists _, _; (split; [reflexivity|]); [|by split].
      split; simpl.
      - eapply RR_step; [exact Hra1|]. apply RA_put; [lia|lia|done|exact Hat].
      - apply warm_chunk_ok; [done|lia|by apply Hfrom|exact Hw1]. }
    destruct Hwd as (c2 & w2 & -> & Hwd). eexists _, _. split; [done|]. split; [exact Hwd|].
    destruct err; [done|]. destruct (len d <? e - offset) eqn:En; bool_simpl; simpl; intros _; right.
    + pose proof (snap_to_grid offset (len d) chunk Hc0 ltac:(lia) Hal ltac:(lia)) as Hsnap.
      assert (Hq : 0 ≤ Z.quot (offset + len d) chunk ≤ offset + len d) by (apply quot_nonneg; lia).
      rewrite (i64_id (Z.quot (offset + len d) chunk)) by (unfold in_i64; lia).
      rewrite (i64_id (Z.quot (offset + len d) chunk + 1)) by (unfold in_i64; lia).
      rewrite Hsnap. rewrite i64_id by (unfold in_i64; lia). split; [lia|]. split; [by left|lia].
    + assert (offset + len d = e) as -> by lia. split; [lia|]. split; [|lia].
      destruct He as (_ & _ & [->| ->]); [by left|by right].
Qed.

(** A turn of the pump from a chunk boundary keeps both caches exact: what it
    puts in the read-ahead cache and queues for the warm-up file are bytes of
    the file, whether they come from the torrent or from the cache.  Unless it
    waits for the player, it moves on by at most a chunk, to the next boundary or
    to the end of the file, whatever the length of the read, and its lead stays
    within the limit and the chunk in flight. *)
Theorem pump_turn_exact io now resp hasT ReadAt h offset playerOff wd :
  let chunk := ChunkSize racfg (p_path h) (w_ra wd) in
  world_ok wd → 0 ≤ p_fileID h → content (p_path h) = source (p_hash h) (p_fileID h) →
  p_size h = len (content (p_path h)) → p_size h ≤ 2 ^ 60 → chunk ≤ M →
  0 ≤ offset ≤ 2 ^ 60 → offset mod chunk = 0 → 0 ≤ playerOff ≤ 2 ^ 60 →
  (∀ n off, 0 ≤ n → 0 ≤ off → len (ReadAt n off).1 ≤ n ∧ at_offset content (p_path h) off (ReadAt n off).1) →
  ∃ out wd', nativePumpChunk racfg wcfg xxhash io now resp hasT ReadAt h offset chunk playerOff wd
               = Some (out, wd') ∧ world_ok wd' ∧
    (po_stop out = false →
       (po_next out = offset ∧ pumpLeadLimit (ReadAheadBudget racfg) chunk < offset - playerOff) ∨
       (offset < po_next out ≤ offset + chunk ∧
        (po_next out mod chunk = 0 ∨ po_next out = p_size h) ∧
        po_next out - playerOff ≤ pumpLeadLimit (ReadAheadBudget racfg) chunk + chunk)).
Proof. exact (pump_turn_ok io now resp hasT ReadAt h offset playerOff wd). Qed.
End pump_correct.

(** ** Witnesses *)

Definition film_handle (off : Z) (b : bool) : MkvHandle := mkHandleState "film" 1000 "ab" off b 0.

(** Two handles of one film. *)
Definition two_handles (o1 o2 : Z) (b1 b2 : bool) : Handles :=
  {[ 0%nat := film_handle o1 b1; 1%nat := film_handle o2 b2 ]}.

Definition two_open : HState := mkHState (two_handles 7 9 false false) [].

Lemma two_open_reachable : rtc h_step h_init two_open.
Proof.
  eapply rtc_l; [apply (H_open h_init 1 (film_handle 9 false)); [done|done|by intros w ?%elem_of_nil]|].
  eapply rtc_l; [apply (H_open _ 0 (film_handle 7 false)); [done|done|by intros w ?%elem_of_nil]|].
  simpl. apply rtc_refl.
Qed.

(** Two promotions whose walks cross take primary from each other: the path is
    left without a primary handle. *)
Lemma promotions_cancel :
  rtc h_step h_init (mkHState (two_handles 7 9 false false) []) ∧
  ∃ st, rtc h_step two_open st ∧ hs_walks st = [] ∧
    (∃ s1 s2, h_step two_open s1 ∧ h_step s1 s2 ∧ rtc h_step s2 st ∧
       h_primary <$> hs_handles s2 !! 0%nat = Some true ∧ h_primary <$> hs_handles s2 !! 1%nat = Some true) ∧
    ∀ i h, hs_handles st !! i = Some h → h_primary h = false.
Proof.
  split; [apply two_open_reachable|].
  set (s1 := mkHState (two_handles 7 9 true false) [(0%nat, "film", [1%nat; 0%nat])]).
  set (s2 := mkHState (two_handles 7 9 true true)
               [(1%nat, "film", [1%nat; 0%nat]); (0%nat, "film", [1%nat; 0%nat])]).
  assert (E1 : h_step two_open s1).
  { exact (H_claim two_open 0 (film_handle 7 false) (two_handles 7 9 true false) eq_refl eq_refl). }
  assert (E2 : h_step s1 s2).
  { exact (H_claim s1 1 (film_handle 9 false) (two_handles 7 9 true true) eq_refl eq_refl). }
  assert (E3 : rtc h_step s2 (mkHState (two_handles 7 9 false false) [])).
  { eapply rtc_l; [exact (H_visit s2 0 "film" 1 [0%nat] [(1%nat, "film", [1%nat; 0%nat])] [] eq_refl)|].
    eapply rtc_l; [eapply (H_visit _ 0 "film" 0 [] [(1%nat, "film", [1%nat; 0%nat])] []); reflexivity|].
    eapply rtc_l; [eapply (H_visit _ 1 "film" 1 [0%nat] [] [(0%nat, "film", [])]); reflexivity|].
    eapply rtc_l; [eapply (H_visit _ 1 "film" 0 [] [] [(0%nat, "film", [])]); reflexivity|].
    eapply rtc_l; [eapply (H_done _ 1 "film" [] [(0%nat, "film", [])]); reflexivity|].
    eapply rtc_l; [eapply (H_done _ 0 "film" [] []); reflexivity|]. apply rtc_refl. }
  eexists. split; [eapply rtc_l; [exact E1|]; eapply rtc_l; [exact E2|exact E3]|].
  split; [reflexivity|]. split; [exists s1, s2; by split_and!|].
  intros i h Hi. simpl in Hi. unfold two_handles in Hi.
  apply lookup_insert_Some in Hi as [[_ <-]|[_ Hi]]; [done|].
  apply lookup_singleton_Some in Hi as [_ <-]. done.
Qed.

Lemma pump_follows_one_primary_witness :
  ∃ st, rtc h_step h_init st ∧ playerOff "film" (hs_handles st) = 9.
Proof.
  assert (Hr : rtc h_step h_init (mkHState (two_handles 7 9 false true) [])).
  { etrans; [apply two_open_reachable|].
    eapply rtc_l; [exact (H_claim two_open 1 (film_handle 9 false) (two_handles 7 9 false true) eq_refl eq_refl)|].
    eapply rtc_l; [eapply (H_visit _ 1 "film" 1 [0%nat] [] []); reflexivity|].
    eapply rtc_l; [eapply (H_visit _ 1 "film" 0 [] [] []); reflexivity|].
    eapply rtc_l; [eapply (H_done _ 1 "film" [] []); reflexivity|]. apply rtc_refl. }
  exists (mkHState (two_handles 7 9 false true) []). split; [exact Hr|].
  destruct (pump_follows_one_primary _ "film" Hr eq_refl) as [_ Hp].
  rewrite (Hp 1%nat (film_handle 9 true)); reflexivity.
Defined.

Lemma pump_lead_in_window_witness :
  pumpLeadLimit 268435456 16777216 = 218103808 ∧ 218103808 + 16777216 ≤ 268435456 - 2 * 16777216.
Proof.
  assert (E : pumpLeadLimit 268435456 16777216 = 218103808) by (vm_compute; reflexivity).
  split; [exact E|].
  destruct (pump_lead_in_window 268435456 16777216 218103808) as [Hw _];
    [lia|lia|rewrite E; lia|]. apply Hw. lia.
Defined.

Definition pump_source : string → Z → list Byte.byte := λ _ _, demo_content "m".
Definition pump_handle : PumpHandle := mkPumpHandle "m" "ab" 0 8 true false.
Definition pump_world : World := mkWorld demo_ra1 (Some demo_init).
(** A network that delivers three of the four bytes asked for. *)
Definition pump_read (n off : Z) : list Byte.byte * bool :=
  (take (Z.to_nat (Z.min n 3)) (drop (Z.to_nat off) (demo_content "m")), false).

Lemma pump_turn_exact_witness :
  ∃ out wd', nativePumpChunk demo_ra_cfg demo_cfg demo_hash io_fine 5 false true pump_read pump_handle
               4 4 0 pump_world = Some (out, wd') ∧
    world_ok demo_ra_cfg demo_cfg demo_hash demo_content pump_source 4 wd' ∧ po_next out = 8.
Proof.
  destruct (pump_turn_exact demo_ra_cfg demo_cfg demo_hash demo_content pump_source 4 ltac:(lia)
    ltac:(vm_compute; discriminate) ltac:(vm_compute; split; [reflexivity|discriminate])
    io_fine 5 false true pump_read pump_handle 4 0 pump_world) as (out & wd' & E & Hok & _).
  { split; [exact demo_ra1_reachable|]. intros d [= <-]. apply WR_first; [|done|done].
    split_and!; simpl; [done| |done]. by intros i [? ?]. }
  { vm_compute. discriminate. }
  { reflexivity. }
  { reflexivity. }
  { vm_compute. discriminate. }
  { vm_compute. discriminate. }
  { lia. }
  { reflexivity. }
  { lia. }
  { intros n off Hn Ho. split; [simpl; rewrite len_take; lia|]. intros x Hx. simpl in *.
    rewrite len_take in Hx. rewrite lookup_take_lt, lookup_drop by lia. f_equal. lia. }
  exists out, wd'. split; [exact E|]. split; [exact Hok|].
  assert (E2 : ∀ o w, nativePumpChunk demo_ra_cfg demo_cfg demo_hash io_fine 5 false true pump_read pump_handle
               4 4 0 pump_world = Some (o, w) → po_next o = 8).
  { vm_compute. by intros o w [= <- <-]. }
  exact (E2 _ _ E).
Defined.
