(* ===== verification/Native.v ===== *)
(** * The native bridge (internal/gostorm/native/native.go, torr/stream.go)

    Reads of a torrent file go through an in-process HTTP response: [Stream]
    writes the body of a range request into a pipe, and the bridge reads the
    other end.  [NativeReader] keeps one pipe open for the pump and reconnects it;
    [FetchBlock] opens one for a single block; [FetchAhead] returns once the first
    bytes are there and goes on filling a window, reporting its progress to a
    callback.  What the torrent reader under [http.ServeContent] delivered before
    it failed or its context expired, and when another goroutine closed the pipe,
    are arguments. *)

From Stdlib Require Import String.
From S2P Require Import Prelude GoStrings.
Local Open Scope Z_scope.
Local Open Scope go_scope.

Abbreviation byte := Byte.byte.

(** ** Pipes

    A pipe holds what its writer will still write before it closes its end;
    [p_break] is the number of bytes after which the reading end is closed by
    another goroutine, when one does. *)

Inductive rd_err := Nil | EOF | ErrUnexpectedEOF | ErrClosedPipe | ErrInterrupted | ErrNotFound | ErrEmpty.

#[export] Instance rd_err_eq_dec : EqDecision rd_err.
Proof. solve_decision. Defined.

Record Pipe := mkPipe { p_rest : list byte; p_break : option nat }.

Definition pipe_avail (p : Pipe) : list byte :=
  match p_break p with Some b => take b (p_rest p) | None => p_rest p end.

(** [io.ReadFull(pipe, buf)] with [len(buf) = k]. *)
Definition ReadFull (k : nat) (p : Pipe) : list byte * rd_err * Pipe :=
  let got := take k (pipe_avail p) in
  let n := length got in
  let err :=
    if (k <=? n)%nat then Nil
    else match p_break p with
         | Some b => if (b <=? length (p_rest p))%nat then ErrClosedPipe
                     else if (n =? 0)%nat then EOF else ErrUnexpectedEOF
         | None => if (n =? 0)%nat then EOF else ErrUnexpectedEOF
         end in
  (got, err, mkPipe (drop n (p_rest p)) ((λ b, (b - n)%nat) <$> p_break p)).

#[global] Arguments ReadFull : simpl never.

(** ** The stream of a file *)

Record TorrentView := mkTorrentView {
  tv_info : bool;                           (* GotInfo() *)
  tv_stats : list (option (Z * string));    (* Status().FileStats: id and path *)
  tv_files : list (string * list byte);     (* Files(): path and content *)
  tv_reader : bool                          (* NewReader gave a reader *)
}.

(** A line of text, as [http.Error] writes it. *)
Definition text_line (s : string) : list byte := (list_byte_of_string s ++ [Byte.x0a])%list.

(** What [http.ServeContent] writes for the range [bytes=start-last]. *)
Definition ServeContent (content : list byte) (start : Z) (last : option Z) : list byte :=
  let size := len content in
  if start <? 0 then text_line "invalid range"
  else if start >=? size then
    if size =? 0 then [] else text_line "invalid range: failed to overlap"
  else match last with
       | None => drop (Z.to_nat start) content
       | Some l => if start >? l then text_line "invalid range"
                   else take (Z.to_nat (Z.min l (size - 1) - start + 1)) (drop (Z.to_nat start) content)
       end.

Definition find_stat (fileID : Z) (l : list (option (Z * string))) : option string :=
  snd <$> head (filter (λ e : Z * string, e.1 = fileID) (omap id l)).

Definition find_file (path : string) (l : list (string * list byte)) : option (list byte) :=
  snd <$> head (filter (λ e : string * list byte, e.1 = path) l).

(** [t.Stream]: the bytes written to the response.  [delivered] is how much of the
    body is written before the torrent reader fails or the context expires. *)
Definition Stream (maxSize : Z) (delivered : nat) (fileID start : Z) (last : option Z)
    (t : TorrentView) : list byte :=
  take delivered
    (if negb (tv_info t) then text_line "404 page not found"
     else match find_stat fileID (tv_stats t) ≫= λ path, find_file path (tv_files t) with
          | None => []
          | Some content =>
              if (maxSize >? 0) && (len content >? maxSize)
              then text_line ("file size exceeded max allowed " +:+ itoa maxSize +:+ " bytes")
              else if negb (tv_reader t) then []
              else ServeContent content start last
          end).

(** ** Stateless reads *)

(** What a fetch meets: the torrents [PeekTorrent] finds by their hash, how much its stream
    writes, and after how many bytes the timeout closes the pipe. *)
Record Net := mkNet {
  n_peek : string → option TorrentView;
  n_delivered : nat;
  n_timeout : option nat
}.

Section bridge.
Context (maxSize : Z).

Definition FetchBlock (net : Net) (hash : string) (fileID offset plen : Z) : list byte * rd_err :=
  match n_peek net hash with
  | None => ([], ErrNotFound)
  | Some t =>
      let body := Stream maxSize (n_delivered net) fileID offset (Some (offset +! plen -! 1)) t in
      let '(got, err, _) := ReadFull (Z.to_nat plen) (mkPipe body (n_timeout net)) in
      (got, if decide (err = ErrUnexpectedEOF) then Nil else err)
  end.

Definition fetchFillFirstStep : Z := 262144.
Definition fetchFillStep : Z := 4194304.

(** One call of the callback: [onFill(n, done, err)]. *)
Record fill := mkFill { fl_n : Z; fl_done : bool; fl_err : rd_err }.

Definition fill_err (err : rd_err) : rd_err :=
  match err with ErrUnexpectedEOF | EOF => Nil | _ => err end.

(** The background fill after the head: the callbacks it makes and the window. *)
Fixpoint fill_window (fuel : nat) (blen step : Z) (buf : list byte) (p : Pipe)
    : option (list fill * list byte) :=
  match fuel with
  | O => None
  | S fuel =>
      let total := len buf in
      if total <? blen then
        let e := if total +! step >? blen then blen else total +! step in
        let step' := Z.min (step *! 2) fetchFillStep in
        let '(m, err, p) := ReadFull (Z.to_nat (e - total)) p in
        let buf := (buf ++ m)%list in
        if decide (err = Nil) then
          '(fs, buf') ← fill_window fuel blen step' buf p;
          Some (if len buf <? blen then mkFill (len buf) false Nil :: fs else fs, buf')
        else Some ([mkFill (len buf) true (fill_err err)], buf)
      else Some ([mkFill total true Nil], buf)
  end.

Definition fill_fuel (blen : Z) : nat := Z.to_nat (blen / fetchFillFirstStep + 2).

(** [FetchAhead] into a window of [blen] bytes, with [dlen] bytes asked for: what
    the caller gets, then the callbacks in order and the window they report on.
    [None] is a fill that does not end. *)
Definition FetchAhead (net : Net) (hash : string) (fileID offset blen dlen : Z)
    : option (list byte * rd_err * list fill * list byte) :=
  let h := if dlen >? blen then blen else dlen in
  if h <=? 0 then Some ([], ErrEmpty, [mkFill 0 true Nil], [])
  else match n_peek net hash with
       | None => Some ([], ErrNotFound, [mkFill 0 true ErrNotFound], [])
       | Some t =>
           let body := Stream maxSize (n_delivered net) fileID offset (Some (offset +! blen -! 1)) t in
           let '(got, err, p) := ReadFull (Z.to_nat h) (mkPipe body (n_timeout net)) in
           let err := if decide (err = ErrUnexpectedEOF) then Nil else err in
           if bool_decide (err ≠ Nil) || (len got <? h)
           then Some (got, err, [mkFill (len got) true err], got)
           else '(fs, buf) ← fill_window (fill_fuel blen) blen (Z.min fetchFillFirstStep fetchFillStep) got p;
                Some (got, Nil, fs, buf)
       end.

(** ** The stateful reader *)

Record NativeReader := mkReader {
  nr_hash : string;
  nr_fileID : Z;
  nr_offset : Z;
  nr_pipe : option Pipe;           (* pipeReader, pipeWriter and cancelFunc *)
  nr_closed : bool;
  nr_interrupted : bool;
  nr_lastActivity : Z
}.

Definition NewStreamReader (now : Z) (hash : string) (fileID : Z) : NativeReader :=
  mkReader hash fileID 0 None false false now.

Definition set_pipe (p : option Pipe) (r : NativeReader) : NativeReader :=
  mkReader (nr_hash r) (nr_fileID r) (nr_offset r) p (nr_closed r) (nr_interrupted r) (nr_lastActivity r).
Definition set_offset (o : Z) (r : NativeReader) : NativeReader :=
  mkReader (nr_hash r) (nr_fileID r) o (nr_pipe r) (nr_closed r) (nr_interrupted r) (nr_lastActivity r).
Definition set_interrupted (b : bool) (r : NativeReader) : NativeReader :=
  mkReader (nr_hash r) (nr_fileID r) (nr_offset r) (nr_pipe r) (nr_closed r) b (nr_lastActivity r).
Definition set_activity (now : Z) (r : NativeReader) : NativeReader :=
  mkReader (nr_hash r) (nr_fileID r) (nr_offset r) (nr_pipe r) (nr_closed r) (nr_interrupted r) now.

Definition closeStream (r : NativeReader) : NativeReader := set_pipe None r.
Definition resetStream (r : NativeReader) : NativeReader := closeStream r.

(** [Close]: the writing end first, without the lock, then the reader. *)
Definition NR_Close (r : NativeReader) : NativeReader :=
  mkReader (nr_hash r) (nr_fileID r) (nr_offset r) None true (nr_interrupted r) (nr_lastActivity r).

Definition IsIdle (now d : Z) (r : NativeReader) : bool := now - nr_lastActivity r >? d.

(** What other goroutines do while a read of the pipe waits: [Interrupt] closes
    the reading end after [b] more bytes, [Close] the writing end. *)
Inductive disturbance := Calm | Interrupt_after (b : nat) | Writer_closed_after (b : nat).

Definition Interrupt (b : nat) (r : NativeReader) : NativeReader :=
  set_interrupted true
    (set_pipe ((λ p, mkPipe (p_rest p) (Some (match p_break p with Some c => Nat.min b c | None => b end)))
               <$> nr_pipe r) r).

Definition disturb (d : disturbance) (r : NativeReader) : NativeReader :=
  match d with
  | Calm => r
  | Interrupt_after b => Interrupt b r
  | Writer_closed_after b => set_pipe ((λ p, mkPipe (take b (p_rest p)) (p_break p)) <$> nr_pipe r) r
  end.

(** [io.ReadFull(r.pipeReader, p)]; a reader without a pipe cannot get here. *)
Definition read_pipe (d : disturbance) (k : Z) (r : NativeReader) : list byte * rd_err * NativeReader :=
  let r := disturb d r in
  match nr_pipe r with
  | None => ([], ErrClosedPipe, r)
  | Some p => let '(got, err, p) := ReadFull (Z.to_nat k) p in (got, err, set_pipe (Some p) r)
  end.

Definition advance (n : Z) (r : NativeReader) : NativeReader := set_offset (nr_offset r +! n) r.

(** What one [readAtOnce] meets. *)
Record ReadEvents := mkEvents {
  e_now : Z;
  e_seq : disturbance;       (* during the sequential read *)
  e_skip : disturbance;      (* while skipping forward *)
  e_smart : disturbance;     (* during the read after the skip *)
  e_net : Net;               (* the torrent a new stream is opened on *)
  e_hard : disturbance       (* during the read of the new stream *)
}.

Definition interrupted_result (r : NativeReader) : list byte * rd_err * NativeReader :=
  ([], ErrInterrupted, closeStream (set_interrupted false r)).

Definition read_ok (e : rd_err) : bool :=
  match e with Nil | EOF | ErrUnexpectedEOF => true | _ => false end.

Definition seq_read (ev : ReadEvents) (plen off : Z) (r : NativeReader)
    : (list byte * rd_err * NativeReader) + NativeReader :=
  if bool_decide (is_Some (nr_pipe r)) && (off =? nr_offset r) then
    let '(got, err, r) := read_pipe (e_seq ev) plen r in
    let r := advance (len got) r in
    if nr_interrupted r then inl (interrupted_result r)
    else if read_ok err then inl (got, Nil, r) else inr r
  else inr r.

Definition smart_seek (ev : ReadEvents) (plen off : Z) (r : NativeReader)
    : (list byte * rd_err * NativeReader) + NativeReader :=
  if bool_decide (is_Some (nr_pipe r)) && (off >? nr_offset r) && (off -! nr_offset r <? 2 * 1024 * 1024)
  then
    let '(_, skipErr, r) := read_pipe (e_skip ev) (off -! nr_offset r) r in
    let '(res, r) :=
      if decide (skipErr = Nil) then
        let '(got, err, r) := read_pipe (e_smart ev) plen (set_offset off r) in
        let r := advance (len got) r in
        (if read_ok err then Some (got, Nil, r) else None, r)
      else (None, r) in
    match res with
    | Some x => inl x
    | None => if nr_interrupted r then inl (interrupted_result r) else inr r
    end
  else inr r.

Definition startStream (net : Net) (off : Z) (r : NativeReader) : option NativeReader :=
  t ← n_peek net (nr_hash r);
  Some (set_offset off (set_pipe (Some (mkPipe (Stream maxSize (n_delivered net) (nr_fileID r) off None t)
                                               None)) r)).

Definition hard_seek (ev : ReadEvents) (plen off : Z) (r : NativeReader)
    : list byte * rd_err * NativeReader :=
  let r := closeStream r in
  match startStream (e_net ev) off r with
  | None => ([], ErrNotFound, r)
  | Some r =>
      let '(got, err, r) := read_pipe (e_hard ev) plen r in
      (got, if decide (err = ErrUnexpectedEOF) then Nil else err, advance (len got) r)
  end.

Definition readAtOnce (ev : ReadEvents) (plen off : Z) (r : NativeReader)
    : list byte * rd_err * NativeReader :=
  if nr_closed r then ([], ErrClosedPipe, r)
  else
    let r := set_activity (e_now ev) r in
    if nr_interrupted r then interrupted_result r
    else match seq_read ev plen off r with
         | inl x => x
         | inr r =>
             match smart_seek ev plen off r with
             | inl x => x
             | inr r => if nr_interrupted r then interrupted_result r else hard_seek ev plen off r
             end
         end.

Definition readAtFillAttempts : nat := 4.

Fixpoint read_at_loop (fuel : nat) (evs : nat → ReadEvents) (plen off : Z) (got : list byte)
    (resets : nat) (r : NativeReader) : option (list byte * rd_err * NativeReader) :=
  match fuel with
  | O => None
  | S fuel =>
      if len got <? plen then
        let '(d, err, r) := readAtOnce (evs resets) (plen -! len got) (off +! len got) r in
        let got := (got ++ d)%list in
        if bool_decide (err = EOF) && (len got >? 0) then Some (got, Nil, r)
        else if bool_decide (err ≠ Nil) || (len got >=? plen) then Some (got, err, r)
        else if (readAtFillAttempts <=? resets)%nat then Some (got, err, r)
        else if (len d =? 0) && (0 <? resets)%nat then Some (got, err, r)
        else read_at_loop fuel evs plen off got (S resets) (resetStream r)
      else Some (got, Nil, r)
  end.

(** [ReadAt]: at most [readAtFillAttempts] reconnections, so five turns. *)
Definition NR_ReadAt (evs : nat → ReadEvents) (plen off : Z) (r : NativeReader)
    : option (list byte * rd_err * NativeReader) :=
  read_at_loop (S (S readAtFillAttempts)) evs plen off [] 0 r.

End bridge.

(** ** What is read is what the file holds *)

Section exact.
Context (maxSize : Z) (content : list byte) (hash : string) (fileID : Z).
Context (Hsize : len content ≤ 2 ^ 60).

(** The bytes of the file from [off] on. *)
Definition file_from (off : Z) : list byte := drop (Z.to_nat off) content.

(** The torrent view resolves the file, if it does, to this content, and serves
    it: its metadata is there and the size limit allows it. *)
Definition serves (t : TorrentView) : Prop :=
  tv_info t = true ∧
  ∀ c, (find_stat fileID (tv_stats t) ≫= λ path, find_file path (tv_files t)) = Some c →
    c = content ∧ ((maxSize >? 0) && (len c >? maxSize)) = false.

Definition net_serves (net : Net) : Prop := ∀ t, n_peek net hash = Some t → serves t.

Definition delivers (net : Net) : Prop :=
  ∃ t, n_peek net hash = Some t ∧ tv_reader t = true ∧
    (find_stat fileID (tv_stats t) ≫= λ path, find_file path (tv_files t)) = Some content ∧
    (length content ≤ n_delivered net)%nat ∧ n_timeout net = None.

Lemma len_file_from off : 0 ≤ off → len (file_from off) = Z.max 0 (len content - off).
Proof. intros. unfold file_from. rewrite len_drop. lia. Qed.

Lemma file_from_app off d rest :
  0 ≤ off → (d ++ rest)%list `prefix_of` file_from off → rest `prefix_of` file_from (off + len d).
Proof.
  intros Ho [k Hk]. exists k. unfold file_from in *. unfold len.
  replace (Z.to_nat (off + Z.of_nat (length d))) with (Z.to_nat off + length d)%nat by lia.
  rewrite <-drop_drop, Hk, <-app_assoc, drop_app_length. done.
Qed.

Lemma file_from_join off d1 d2 :
  0 ≤ off → d1 `prefix_of` file_from off → d2 `prefix_of` file_from (off + len d1) →
  (d1 ++ d2)%list `prefix_of` file_from off.
Proof.
  intros Ho [k1 H1] [k2 H2]. exists k2. unfold file_from, len in *.
  replace (Z.to_nat (off + Z.of_nat (length d1))) with (Z.to_nat off + length d1)%nat in H2 by lia.
  rewrite <-drop_drop, H1, drop_app_length in H2. rewrite H1, H2. by rewrite app_assoc.
Qed.

Lemma prefix_len (d l : list byte) : d `prefix_of` l → len d ≤ len l.
Proof. intros ?%prefix_length. unfold len. lia. Qed.

Lemma ReadFull_spec k p got err p' :
  ReadFull k p = (got, err, p') →
  p_rest p = (got ++ p_rest p')%list ∧ (length got ≤ k)%nat ∧
  (err = Nil → length got = k) ∧ (err ≠ Nil → (length got < k)%nat) ∧
  (p_break p = None → p_break p' = None ∧ length got = Nat.min k (length (p_rest p)) ∧
     (err = Nil ∨ (err = EOF ∧ got = []) ∨ err = ErrUnexpectedEOF)).
Proof.
  unfold ReadFull. set (g := take k (pipe_avail p)). intros [= <- <- <-]. simpl.
  assert (Hg : g `prefix_of` p_rest p).
  { unfold g, pipe_avail. destruct (p_break p).
    - rewrite take_take. apply prefix_take.
    - apply prefix_take. }
  destruct Hg as [w Hw]. rewrite Hw, drop_app_length.
  assert (Hlen : (length g ≤ k)%nat) by (unfold g; rewrite length_take; lia).
  split; [done|]. split; [done|].
  assert (Hmin : p_break p = None → length g = Nat.min k (length (g ++ w)%list)).
  { intros Hb. rewrite <-Hw. unfold g, pipe_avail. rewrite Hb. apply length_take. }
  destruct (k <=? length g)%nat eqn:Ek.
  - apply Nat.leb_le in Ek. split; [lia|]. split; [done|]. intros Hb. specialize (Hmin Hb).
    rewrite Hb. auto.
  - apply Nat.leb_gt in Ek.
    split; [by repeat case_match|]. split; [done|]. intros Hb. specialize (Hmin Hb).
    rewrite Hb. split; [done|]. split; [done|]. right.
    destruct (length g =? 0)%nat eqn:E0; [left|by right].
    split; [done|]. apply Nat.eqb_eq, length_zero_iff_nil in E0. done.
Qed.

Lemma ServeContent_exact start last :
  0 ≤ start < len content → (∀ l, last = Some l → start ≤ l) →
  ServeContent content start last `prefix_of` file_from start ∧
  len (ServeContent content start last) =
    match last with None => len content - start | Some l => Z.min (l + 1) (len content) - start end.
Proof.
  intros Hs Hl. unfold ServeContent. rewrite (proj2 (Z.ltb_ge _ _)) by lia.
  destruct (start >=? len content) eqn:E; [lia|].
  destruct last as [l|].
  - specialize (Hl l eq_refl). destruct (start >? l) eqn:El; [lia|]. split; [apply prefix_take|].
    rewrite len_take, len_drop. lia.
  - split; [done|]. rewrite len_drop. lia.
Qed.

Lemma Stream_exact d start last t :
  serves t → 0 ≤ start < len content → (∀ l, last = Some l → start ≤ l) →
  Stream maxSize d fileID start last t `prefix_of` file_from start.
Proof.
  intros [Hi Hf] Hs Hl. unfold Stream. rewrite Hi. simpl.
  set (o := find_stat _ _ ≫= _) in *. destruct o as [c|]; [|rewrite take_nil; apply prefix_nil].
  destruct (Hf c eq_refl) as [-> ->]. destruct (tv_reader t); simpl; [|rewrite take_nil; apply prefix_nil].
  etrans; [apply prefix_take|]. by apply ServeContent_exact.
Qed.

(** A view that delivers writes the whole range. *)
Lemma Stream_full net start last :
  delivers net → net_serves net → 0 ≤ start < len content → (∀ l, last = Some l → start ≤ l) →
  ∃ t, n_peek net hash = Some t ∧
    len (Stream maxSize (n_delivered net) fileID start last t) =
      match last with None => len content - start | Some l => Z.min (l + 1) (len content) - start end.
Proof.
  intros (t & Hp & Hr & Hf & Hd & _) Hs Ho Hl. exists t. split; [done|]. specialize (Hs t Hp).
  destruct Hs as [Hi Hc]. unfold Stream. rewrite Hi, Hf, Hr. simpl.
  destruct (Hc _ Hf) as [_ ->]. destruct (ServeContent_exact start last Ho Hl) as [Hpre Hlen].
  rewrite take_ge; [done|]. apply prefix_length in Hpre. unfold file_from in Hpre.
  rewrite length_drop in Hpre. lia.
Qed.

(** *** The stateless fetch *)

Lemma FetchBlock_exact net offset plen got err :
  net_serves net → 0 ≤ offset < len content → 0 < plen ≤ 2 ^ 60 →
  FetchBlock maxSize net hash fileID offset plen = (got, err) →
  got `prefix_of` file_from offset ∧ len got ≤ plen ∧
  (delivers net → err = Nil ∧ len got = Z.min plen (len content - offset)).
Proof.
  intros Hs Ho Hp. unfold FetchBlock. destruct (n_peek net hash) as [t|] eqn:Et.
  2:{ intros [= <- <-]. split; [apply prefix_nil|]. split; [unfold len; simpl; lia|].
      intros (t & Ht & _). congruence. }
  go_simpl. set (body := Stream _ _ _ _ _ _).
  assert (Hb : body `prefix_of` file_from offset).
  { apply Stream_exact; [by apply Hs|lia|]. intros l [= <-]. lia. }
  destruct (ReadFull (Z.to_nat plen) (mkPipe body (n_timeout net))) as [[g e] p'] eqn:Er.
  intros [= <- <-]. apply ReadFull_spec in Er as (Hr & Hl & _ & _ & Hnb). simpl in *.
  split; [etrans; [|exact Hb]; rewrite Hr; by exists (p_rest p')|]. split; [unfold len; lia|].
  intros Hd. destruct (Stream_full net offset (Some (offset + plen - 1)) Hd Hs Ho) as (t' & Ht' & Hlen).
  { intros l [= <-]. lia. }
  assert (t' = t) as -> by congruence. fold body in Hlen.
  destruct Hd as (? & ? & ? & ? & ? & Hto). destruct (Hnb Hto) as (_ & Hg & He).
  assert (Hgl : len g = Z.min plen (len content - offset)) by (unfold len in *; lia).
  split; [|done]. destruct He as [-> |[[_ ->] | ->]]; [done| |done]. unfold len in *. simpl in *. lia.
Qed.

(** *** The window filled ahead *)

(** One callback says it is done, and it is the last; the counts grow up to the
    length of the window. *)
Definition fills_ok (fs : list fill) (buf : list byte) : Prop :=
  ∃ init l, fs = (init ++ [l])%list ∧ Forall (λ f, fl_done f = false) init ∧ fl_done l = true ∧
    fl_n l = len buf ∧ StronglySorted (λ f g, fl_n f ≤ fl_n g) fs ∧ Forall (λ f, 0 ≤ fl_n f) fs.

Lemma fills_ok_last n e buf : n = len buf → fills_ok [mkFill n true e] buf.
Proof.
  intros ->. exists [], (mkFill (len buf) true e). split_and!; try done.
  - by repeat constructor.
  - repeat constructor. apply len_nonneg.
Qed.

Lemma fills_ok_bound fs buf f : fills_ok fs buf → f ∈ fs → 0 ≤ fl_n f ≤ len buf.
Proof.
  intros (init & l & -> & _ & _ & Hl & Hs & Hp) Hf. rewrite list.Forall_forall in Hp.
  split; [by apply Hp|]. apply elem_of_app in Hf as [Hf|Hf%list_elem_of_singleton]; [|subst; lia].
  apply list_elem_of_split in Hf as (l1 & l2 & ->). rewrite <-Hl.
  rewrite <-app_assoc in Hs. clear -Hs. induction l1 as [|x l1 IH]; simpl in Hs; inversion Hs; subst; [|auto].
  rewrite list.Forall_forall in H2. apply H2. set_solver.
Qed.

Lemma fills_ok_cons f fs buf :
  fills_ok fs buf → fl_done f = false → 0 ≤ fl_n f → (∀ g, g ∈ fs → fl_n f ≤ fl_n g) →
  fills_ok (f :: fs) buf.
Proof.
  intros (init & l & -> & Hi & Hd & Hl & Hs & Hp) Hf Hn Hle.
  exists (f :: init), l. split_and!; try done.
  - by constructor.
  - constructor; [done|]. by apply list.Forall_forall.
  - by constructor.
Qed.

Lemma fill_window_ok offset blen fuel step buf p :
  0 ≤ offset → len buf ≤ blen ≤ 2 ^ 60 → fetchFillFirstStep ≤ step ≤ fetchFillStep →
  (1 ≤ fuel)%nat → blen - len buf ≤ fetchFillFirstStep * (Z.of_nat fuel - 1) →
  (buf ++ p_rest p)%list `prefix_of` file_from offset →
  ∃ fs buf', fill_window fuel blen step buf p = Some (fs, buf') ∧ fills_ok fs buf' ∧
    buf `prefix_of` buf' ∧ buf' `prefix_of` file_from offset ∧ len buf' ≤ blen ∧
    (∀ f, f ∈ fs → len buf ≤ fl_n f) ∧
    (p_break p = None → len buf' = Z.min blen (len buf + len (p_rest p))).
Proof.
  unfold fetchFillFirstStep, fetchFillStep. intros Ho.
  revert step buf p. induction fuel as [|fuel IH]; intros step buf p Hl Hstep H1 Hfuel Hpre; [lia|].
  pose proof (len_nonneg buf) as Hb0. pose proof (len_nonneg (p_rest p)) as Hr0.
  cbn [fill_window]. destruct (len buf <? blen) eqn:E; bool_simpl.
  2:{ eexists _, _. split; [done|]. split; [by apply fills_ok_last|]. split; [done|].
      split; [etrans; [|exact Hpre]; by exists (p_rest p)|]. split; [lia|].
      split; [|lia]. intros f ->%list_elem_of_singleton. simpl. lia. }
  go_simpl. set (e := if len buf + step >? blen then blen else len buf + step).
  assert (He : len buf < e ≤ blen ∧ (e = blen ∨ len buf + 262144 ≤ e)) by (unfold e; case_if; lia).
  clearbody e.
  destruct (ReadFull (Z.to_nat (e - len buf)) p) as [[m err] p'] eqn:Er.
  apply ReadFull_spec in Er as (Hrest & Hm & Hnil & Hnn & Hnb).
  assert (Hpre' : ((buf ++ m) ++ p_rest p')%list `prefix_of` file_from offset).
  { by rewrite <-app_assoc, <-Hrest. }
  assert (Hbm : (buf ++ m)%list `prefix_of` file_from offset).
  { etrans; [|exact Hpre']. by exists (p_rest p'). }
  assert (Hlm : len (buf ++ m)%list ≤ blen) by (rewrite len_app; unfold len in *; lia).
  case_decide as Hne.
  2:{ eexists _, _. split; [done|]. split; [by apply fills_ok_last|].
      split; [by exists m|]. split; [done|]. split; [done|]. split.
      - intros f ->%list_elem_of_singleton. simpl. rewrite len_app. pose proof (len_nonneg m). lia.
      - intros Hb. destruct (Hnb Hb) as (_ & Hml & _). specialize (Hnn Hne).
        rewrite len_app. unfold len in *. lia. }
  specialize (Hnil Hne).
  assert (Hlb : len (buf ++ m)%list = e) by (rewrite len_app; unfold len in *; lia).
  destruct (IH (Z.min (step * 2) fetchFillStep) (buf ++ m)%list p')
    as (fs & buf' & -> & Hok & Hbb & Hpp & Hbl & Hge & Hfull);
    [lia|unfold fetchFillStep; lia|lia|lia|done|].
  assert (Hlen : p_break p = None → len buf' = Z.min blen (len buf + len (p_rest p))).
  { intros Hb. destruct (Hnb Hb) as (Hb' & _). rewrite (Hfull Hb'), Hrest, !len_app. lia. }
  simpl. eexists _, _. split; [done|].
  assert (Hbuf : buf `prefix_of` buf') by (etrans; [by exists m|exact Hbb]).
  split; [|split_and!; try done].
  - destruct (len (buf ++ m)%list <? blen); [|done].
    apply fills_ok_cons; [done|done|simpl; lia|]. intros g Hg. simpl. by apply Hge.
  - intros f Hf. destruct (len (buf ++ m)%list <? blen).
    + apply elem_of_cons in Hf as [->|Hf]; [simpl; lia|]. specialize (Hge f Hf). lia.
    + specialize (Hge f Hf). lia.
Qed.

Lemma FetchAhead_exact net offset blen dlen :
  net_serves net → 0 ≤ offset < len content → 0 < blen ≤ 2 ^ 60 → 0 < dlen ≤ 2 ^ 60 →
  ∃ got err fs buf, FetchAhead maxSize net hash fileID offset blen dlen = Some (got, err, fs, buf) ∧
    got `prefix_of` buf ∧ buf `prefix_of` file_from offset ∧ len got ≤ dlen ∧ len buf ≤ blen ∧
    fills_ok fs buf ∧
    (delivers net → err = Nil ∧ len got = Z.min (Z.min dlen blen) (len content - offset) ∧
                    len buf = Z.min blen (len content - offset)).
Proof.
  intros Hs Ho Hb Hd. unfold FetchAhead. set (h := if dlen >? blen then blen else dlen).
  assert (Hh : 0 < h ≤ dlen ∧ h ≤ blen ∧ h = Z.min dlen blen) by (unfold h; case_if; lia). clearbody h.
  rewrite (proj2 (Z.leb_gt _ _)) by lia. destruct (n_peek net hash) as [t|] eqn:Et.
  2:{ eexists _, _, _, _. split; [done|]. split; [done|]. split; [apply prefix_nil|].
      split; [unfold len; simpl; lia|]. split; [unfold len; simpl; lia|].
      split; [by apply fills_ok_last|]. intros (t & Ht & _). congruence. }
  go_simpl. set (body := Stream _ _ _ _ _ _).
  assert (Hbody : body `prefix_of` file_from offset).
  { apply Stream_exact; [by apply Hs|lia|]. intros l [= <-]. lia. }
  destruct (ReadFull (Z.to_nat h) (mkPipe body (n_timeout net))) as [[g e] p'] eqn:Er.
  apply ReadFull_spec in Er as (Hr & Hl & Hnil & Hnn & Hnb). simpl in Hr, Hnb.
  assert (Hg : g `prefix_of` file_from offset) by (etrans; [|exact Hbody]; rewrite Hr; by exists (p_rest p')).
  assert (Hlen : delivers net → len body = Z.min blen (len content - offset)).
  { intros Hdl. destruct (Stream_full net offset (Some (offset + blen - 1)) Hdl Hs Ho) as (t' & Ht' & Hlen).
    { intros l [= <-]. lia. }
    assert (t' = t) as -> by congruence. unfold body. rewrite Hlen. lia. }
  assert (Hto : delivers net → n_timeout net = None) by (by intros (? & ? & ? & ? & ? & ?)).
  set (er := if decide (e = ErrUnexpectedEOF) then Nil else e).
  assert (Her : delivers net → er = Nil ∧ len g = Z.min h (len body)).
  { intros Hdl. destruct (Hnb (Hto Hdl)) as (_ & Hgl & He). specialize (Hlen Hdl).
    assert (Hgz : len g = Z.min h (len body)) by (unfold len in *; lia). split; [|done]. unfold er.
    destruct He as [-> |[[-> ->] | ->]]; [done| |done]. unfold len in *. simpl in *. lia. }
  destruct (bool_decide (er ≠ Nil) || (len g <? h)) eqn:Ec.
  - eexists _, _, _, _. split; [done|]. split; [done|]. split; [done|].
    split; [unfold len; lia|]. split; [unfold len; lia|]. split; [by apply fills_ok_last|].
    intros Hdl. destruct (Her Hdl) as [Hn Hgl]. specialize (Hlen Hdl).
    rewrite Hn in Ec. simpl in Ec. bool_simpl. split; [done|]. lia.
  - apply orb_false_iff in Ec as [En Eg]. apply bool_decide_eq_false, dec_stable in En. bool_simpl.
    assert (Hgh : len g = h) by (unfold len in *; lia).
    destruct (fill_window_ok offset blen (fill_fuel blen) (Z.min fetchFillFirstStep fetchFillStep) g p')
      as (fs & buf & -> & Hok & Hgb & Hbf & Hbl & _ & Hfull).
    + lia.
    + lia.
    + unfold fetchFillFirstStep, fetchFillStep. lia.
    + unfold fill_fuel. pose proof (Z.div_pos blen fetchFillFirstStep). unfold fetchFillFirstStep in *. lia.
    + unfold fill_fuel, fetchFillFirstStep. pose proof (Z.mul_succ_div_gt blen 262144).
      pose proof (Z.div_pos blen 262144). lia.
    + by rewrite <-Hr.
    + simpl. eexists _, _, _, _. split; [done|]. split_and!; try done; [unfold len in *; lia|].
      intros Hdl. destruct (Her Hdl) as [_ Hgl]. specialize (Hlen Hdl). split; [done|]. split; [lia|].
      destruct (Hnb (Hto Hdl)) as (Hb' & _). rewrite (Hfull Hb'), <-len_app, <-Hr, Hlen. lia.
Qed.

(** *** The stateful reader *)

(** The open pipe continues the file where the reader stands. *)
Definition is_of (r : NativeReader) : Prop := nr_hash r = hash ∧ nr_fileID r = fileID.

Definition reader_ok (r : NativeReader) : Prop :=
  is_of r ∧ ∀ p, nr_pipe r = Some p → 0 ≤ nr_offset r ≤ len content ∧ p_rest p `prefix_of` file_from (nr_offset r).

Lemma is_of_eq r r' : nr_hash r' = nr_hash r ∧ nr_fileID r' = nr_fileID r → is_of r → is_of r'.
Proof. unfold is_of. intuition congruence. Qed.

Lemma reader_ok_no_pipe r : is_of r → nr_pipe r = None → reader_ok r.
Proof. intros Hf Hp. split; [done|]. intros p. by rewrite Hp. Qed.

Lemma read_pipe_spec d k r got err r' :
  read_pipe d k r = (got, err, r') →
  (nr_hash r' = nr_hash r ∧ nr_fileID r' = nr_fileID r) ∧ nr_offset r' = nr_offset r ∧ nr_closed r' = nr_closed r ∧
  len got ≤ Z.max 0 k ∧ (0 ≤ k → err = Nil → len got = k) ∧
  (nr_pipe r = None → nr_pipe r' = None) ∧
  (∀ p, nr_pipe r = Some p → ∃ p', nr_pipe r' = Some p' ∧ (got ++ p_rest p')%list `prefix_of` p_rest p).
Proof.
  unfold read_pipe.
  assert (Hd : (nr_hash (disturb d r) = nr_hash r ∧ nr_fileID (disturb d r) = nr_fileID r) ∧ nr_offset (disturb d r) = nr_offset r ∧
    nr_closed (disturb d r) = nr_closed r ∧ (nr_pipe r = None → nr_pipe (disturb d r) = None) ∧
    ∀ p, nr_pipe r = Some p → ∃ q, nr_pipe (disturb d r) = Some q ∧ p_rest q `prefix_of` p_rest p).
  { destruct d; simpl; split_and!; try done.
    - intros p Hp. eauto.
    - by intros ->.
    - intros p ->. simpl. eauto.
    - by intros ->.
    - intros p ->. simpl. eexists. split; [done|]. apply prefix_take. }
  destruct Hd as ([Hh Hf] & Ho & Hc & Hn & Hs). destruct (nr_pipe (disturb d r)) as [q|] eqn:Eq.
  - destruct (ReadFull (Z.to_nat k) q) as [[g e] q'] eqn:Er. intros [= <- <- <-].
    apply ReadFull_spec in Er as (Hr & Hl & Hnil & _). simpl. split_and!; try done.
    + unfold len. lia.
    + intros Hk He. specialize (Hnil He). unfold len. lia.
    + intros Hp. by specialize (Hn Hp).
    + intros p Hp. destruct (Hs p Hp) as (q0 & [= <-] & Hpre). eexists. split; [done|]. by rewrite <-Hr.
  - intros [= <- <- <-]. split_and!; try done.
    + unfold len. simpl. lia.
    + intros p Hp. by destruct (Hs p Hp) as (? & ? & _).
Qed.

(** A read of the pipe at the reader's position keeps it in step. *)
Lemma read_advance_ok d k r got err r' :
  reader_ok r → is_Some (nr_pipe r) → 0 ≤ k ≤ 2 ^ 60 → read_pipe d k r = (got, err, r') →
  got `prefix_of` file_from (nr_offset r) ∧ len got ≤ k ∧ reader_ok (advance (len got) r').
Proof.
  intros [Hf Hr] [p Hp] Hk Hrd. apply read_pipe_spec in Hrd as (Hf' & Ho & _ & Hl & _ & _ & Hs).
  destruct (Hr p Hp) as [Hoff Hpre]. destruct (Hs p Hp) as (p' & Hp' & Hpp).
  assert (Hall : (got ++ p_rest p')%list `prefix_of` file_from (nr_offset r)) by (by etrans).
  assert (Hg : got `prefix_of` file_from (nr_offset r)) by (etrans; [by exists (p_rest p')|exact Hall]).
  pose proof (prefix_len _ _ Hg) as Hgl. rewrite len_file_from in Hgl by lia.
  pose proof (len_nonneg got). split; [done|]. split; [lia|]. split; [by apply (is_of_eq r)|].
  simpl. intros q Hq. rewrite Hp' in Hq. injection Hq as <-. rewrite Ho. go_simpl. split; [lia|].
  apply file_from_app; [lia|done].
Qed.

Definition result_ok (off plen : Z) (x : list byte * rd_err * NativeReader) : Prop :=
  x.1.1 `prefix_of` file_from off ∧ len x.1.1 ≤ plen ∧ reader_ok x.2.

Lemma interrupted_ok off plen r : is_of r → 0 ≤ plen → result_ok off plen (interrupted_result r).
Proof.
  intros Hf Hp. split; [apply prefix_nil|]. split; [unfold len; simpl; lia|]. by apply reader_ok_no_pipe.
Qed.

Lemma seq_read_ok ev plen off r :
  reader_ok r → 0 ≤ plen ≤ 2 ^ 60 →
  match seq_read ev plen off r with
  | inl x => result_ok off plen x
  | inr r' => reader_ok r'
  end.
Proof.
  intros Hr Hp. unfold seq_read.
  destruct (bool_decide _ && _) eqn:E; [|done]. bool_simpl.
  match goal with H : bool_decide _ = true |- _ => apply bool_decide_eq_true in H; rename H into Hsome end.
  destruct (read_pipe (e_seq ev) plen r) as [[got err] r1] eqn:Er.
  destruct (read_advance_ok _ _ _ _ _ _ Hr Hsome Hp Er) as (Hg & Hl & Hok).
  destruct (nr_interrupted _); [apply interrupted_ok; [apply Hok|lia]|].
  destruct (read_ok err); [|done]. split; [|split]; simpl; [by subst|done|done].
Qed.

Lemma smart_seek_ok ev plen off r :
  reader_ok r → 0 ≤ plen ≤ 2 ^ 60 → 0 ≤ off ≤ len content →
  match smart_seek ev plen off r with
  | inl x => result_ok off plen x
  | inr r' => is_of r'
  end.
Proof.
  intros Hr Hp Ho. pose proof Hr as [Hf Hpipe]. unfold smart_seek.
  destruct (bool_decide _ && _ && _) eqn:E; [|done]. bool_simpl.
  match goal with H : bool_decide _ = true |- _ => apply bool_decide_eq_true in H; destruct H as [p Hpp] end.
  destruct (Hpipe p Hpp) as [Hoff Hpre]. go_simpl.
  destruct (read_pipe (e_skip ev) (off - nr_offset r) r) as [[sk serr] r1] eqn:Es.
  apply read_pipe_spec in Es as (Hf1 & Ho1 & _ & _ & Hfull & _ & Hs).
  destruct (Hs p Hpp) as (p1 & Hp1 & Hpre1). case_decide as Hserr.
  2:{ destruct (nr_interrupted r1); [apply interrupted_ok; [by apply (is_of_eq r)|lia]|by apply (is_of_eq r)]. }
  specialize (Hfull ltac:(lia) Hserr).
  assert (Hr1 : reader_ok (set_offset off r1)).
  { split; [by apply (is_of_eq r)|]. simpl. intros q Hq. rewrite Hp1 in Hq. injection Hq as <-.
    split; [lia|]. replace off with (nr_offset r + len sk) by lia. apply file_from_app; [lia|]. by etrans. }
  destruct (read_pipe (e_smart ev) plen (set_offset off r1)) as [[got err] r2] eqn:Er.
  destruct (read_advance_ok _ _ _ _ _ _ Hr1 ltac:(by exists p1) Hp Er) as (Hg & Hl & Hok).
  destruct (read_ok err); [by split|].
  destruct (nr_interrupted _); [apply interrupted_ok; [apply Hok|lia]|apply Hok].
Qed.

Lemma startStream_ok net off r r' :
  net_serves net → is_of r → 0 ≤ off < len content →
  startStream maxSize net off r = Some r' →
  reader_ok r' ∧ nr_offset r' = off ∧ nr_closed r' = nr_closed r ∧ nr_interrupted r' = nr_interrupted r ∧
  ∃ p, nr_pipe r' = Some p ∧ p_break p = None ∧ (delivers net → len (p_rest p) = len content - off).
Proof.
  intros Hn [Hh Hf] Ho. unfold startStream. rewrite Hh. destruct (n_peek net hash) as [t|] eqn:Et; [|done].
  simpl. intros [= <-]. rewrite Hf. split.
  { split; [by split|]. simpl. intros p [= <-]. split; [lia|]. simpl. apply Stream_exact; [by apply Hn|done|done]. }
  split_and!; try done. simpl. eexists. split; [done|]. split; [done|]. intros Hd.
  destruct (Stream_full net off None Hd Hn Ho) as (t' & Ht' & Hlen); [done|].
  assert (t' = t) as -> by congruence. done.
Qed.

Lemma hard_seek_ok ev plen off r :
  is_of r → net_serves (e_net ev) → 0 ≤ off < len content → 0 ≤ plen ≤ 2 ^ 60 →
  result_ok off plen (hard_seek maxSize ev plen off r).
Proof.
  intros Hf Hn Ho Hp. unfold hard_seek.
  destruct (startStream maxSize (e_net ev) off (closeStream r)) as [r1|] eqn:Es.
  2:{ split; [apply prefix_nil|]. split; [unfold len; simpl; lia|]. by apply reader_ok_no_pipe. }
  destruct (startStream_ok _ _ _ _ Hn Hf Ho Es) as (Hok & Hoff & _ & _ & p & Hpp & _).
  destruct (read_pipe (e_hard ev) plen r1) as [[got err] r2] eqn:Er.
  destruct (read_advance_ok _ _ _ _ _ _ Hok ltac:(by exists p) Hp Er) as (Hg & Hl & Hok2).
  rewrite Hoff in Hg. by split.
Qed.

Lemma readAtOnce_ok ev plen off r :
  reader_ok r → net_serves (e_net ev) → 0 ≤ off < len content → 0 ≤ plen ≤ 2 ^ 60 →
  result_ok off plen (readAtOnce maxSize ev plen off r).
Proof.
  intros Hr Hn Ho Hp. unfold readAtOnce. destruct (nr_closed r).
  { split; [apply prefix_nil|]. split; [unfold len; simpl; lia|done]. }
  assert (Hr1 : reader_ok (set_activity (e_now ev) r)) by exact Hr.
  destruct (nr_interrupted _); [apply interrupted_ok; [apply Hr|lia]|].
  pose proof (seq_read_ok ev plen off _ Hr1 Hp) as Hs.
  destruct (seq_read ev plen off _) as [x|r2]; [done|].
  pose proof (smart_seek_ok ev plen off _ Hs Hp ltac:(lia)) as Hm.
  destruct (smart_seek ev plen off r2) as [x|r3]; [done|].
  destruct (nr_interrupted r3); [by apply interrupted_ok; [|lia]|]. by apply hard_seek_ok.
Qed.

Lemma read_at_loop_ok evs plen off fuel got resets r :
  (∀ k, net_serves (e_net (evs k))) → 0 ≤ off → 0 ≤ plen → off + plen ≤ len content →
  (readAtFillAttempts < fuel + resets)%nat → (1 ≤ fuel)%nat →
  reader_ok r → got `prefix_of` file_from off → len got ≤ plen →
  ∃ got' err r', read_at_loop maxSize fuel evs plen off got resets r = Some (got', err, r') ∧
    got' `prefix_of` file_from off ∧ len got' ≤ plen ∧ reader_ok r'.
Proof.
  intros Hn Ho Hp Hfit. revert got resets r.
  induction fuel as [|fuel IH]; intros got resets r Hfuel H1 Hr Hg Hl; [lia|].
  cbn [read_at_loop]. pose proof (len_nonneg got) as Hg0.
  destruct (len got <? plen) eqn:E; bool_simpl; [|by eexists _, _, _].
  go_simpl.
  destruct (readAtOnce_ok (evs resets) (plen - len got) (off + len got) r Hr (Hn resets) ltac:(lia) ltac:(lia))
    as (Hd & Hdl & Hr').
  destruct (readAtOnce maxSize (evs resets) (plen - len got) (off + len got) r) as [[d err] r']. simpl in Hd, Hdl, Hr'.
  assert (Hgd : (got ++ d)%list `prefix_of` file_from off) by (by apply file_from_join).
  assert (Hgl : len (got ++ d)%list ≤ plen) by (rewrite len_app; lia).
  destruct (bool_decide (err = EOF) && _); [by eexists _, _, _|].
  destruct (bool_decide (err ≠ Nil) || _); [by eexists _, _, _|].
  destruct (readAtFillAttempts <=? resets)%nat eqn:Ea; [by eexists _, _, _|]. apply Nat.leb_gt in Ea.
  destruct ((len d =? 0) && _); [by eexists _, _, _|].
  apply IH; try done; [lia|unfold readAtFillAttempts in *; lia|]. apply reader_ok_no_pipe; [apply Hr'|done].
Qed.

(** **** A quiet reader on a stream that delivers *)

Definition quiet (r : NativeReader) : Prop :=
  nr_closed r = false ∧ nr_interrupted r = false ∧ ∀ p, nr_pipe r = Some p → p_break p = None.

Definition calm (ev : ReadEvents) : Prop :=
  e_seq ev = Calm ∧ e_skip ev = Calm ∧ e_smart ev = Calm ∧ e_hard ev = Calm ∧ delivers (e_net ev).

Lemma read_pipe_calm k r p got err r' :
  quiet r → nr_pipe r = Some p → read_pipe Calm k r = (got, err, r') →
  quiet r' ∧ read_ok err = true ∧ len got = Z.min (Z.max 0 k) (len (p_rest p)) ∧
  (err = Nil ∨ (err = EOF ∧ got = []) ∨ err = ErrUnexpectedEOF).
Proof.
  intros (Hc & Hi & Hb) Hp. unfold read_pipe. cbn [disturb]. rewrite Hp.
  destruct (ReadFull (Z.to_nat k) p) as [[g e] q] eqn:Er. intros [= <- <- <-].
  apply ReadFull_spec in Er as (_ & _ & _ & _ & Hnb). destruct (Hnb (Hb p Hp)) as (Hq & Hl & He).
  split; [split; [done|]; split; [done|]; simpl; intros q' E; by injection E as <-|].
  split; [by destruct He as [->|[[-> _]| ->]]|].
  split; [unfold len; lia|done].
Qed.

Lemma hard_seek_calm ev plen off r :
  calm ev → net_serves (e_net ev) → quiet r → is_of r → 0 ≤ off → 0 < plen →
  off + plen ≤ len content →
  let x := hard_seek maxSize ev plen off r in
  len x.1.1 = plen ∧ x.1.2 = Nil ∧ quiet x.2.
Proof.
  intros (_ & _ & _ & Hh & Hd) Hn (Hc & Hi & _) Hf Ho Hp Hfit. unfold hard_seek.
  destruct (startStream maxSize (e_net ev) off (closeStream r)) as [r1|] eqn:Es.
  2:{ destruct Hd as (t & Ht & _). unfold startStream in Es. simpl in Es.
      by rewrite (proj1 Hf), Ht in Es. }
  destruct (startStream_ok _ off _ _ Hn Hf ltac:(lia) Es) as (_ & _ & Hc1 & Hi1 & p & Hpp & Hbr & Hlen).
  rewrite Hh. destruct (read_pipe Calm plen r1) as [[got err] r2] eqn:Er.
  assert (Hq1 : quiet r1).
  { split; [by rewrite Hc1|]. split; [by rewrite Hi1|]. intros q Hq. congruence. }
  destruct (read_pipe_calm _ _ _ _ _ _ Hq1 Hpp Er) as (Hq2 & _ & Hgl & He).
  rewrite (Hlen Hd) in Hgl. simpl. split; [lia|]. split; [|exact Hq2].
  destruct He as [-> |[[_ ->] | ->]]; [done| |done]. unfold len in *. simpl in *. lia.
Qed.

Lemma seq_read_calm ev plen off r :
  calm ev → quiet r →
  match seq_read ev plen off r with
  | inl x => is_Some (nr_pipe r) ∧ x.1.2 = Nil ∧ quiet x.2
  | inr r' => r' = r
  end.
Proof.
  intros (Hs & _) Hq. unfold seq_read. destruct (bool_decide _ && _) eqn:E; [|done]. bool_simpl.
  match goal with H : bool_decide _ = true |- _ => apply bool_decide_eq_true in H; destruct H as [p Hpp] end.
  rewrite Hs. destruct (read_pipe Calm plen r) as [[got err] r1] eqn:Er.
  destruct (read_pipe_calm _ _ _ _ _ _ Hq Hpp Er) as (Hq1 & Hok & _).
  destruct Hq1 as (Hc1 & Hi1 & Hb1). simpl. rewrite Hi1, Hok, Hpp. split; [by eexists|].
  split; [done|]. by split_and!.
Qed.

Lemma smart_seek_calm ev plen off r :
  calm ev → quiet r →
  match smart_seek ev plen off r with
  | inl x => is_Some (nr_pipe r) ∧ x.1.2 = Nil ∧ quiet x.2
  | inr r' => quiet r' ∧ nr_hash r' = nr_hash r ∧ nr_fileID r' = nr_fileID r
  end.
Proof.
  intros (_ & Hk & Hm & _) Hq. unfold smart_seek. destruct (bool_decide _ && _ && _) eqn:E; [|done]. bool_simpl.
  match goal with H : bool_decide _ = true |- _ => apply bool_decide_eq_true in H; destruct H as [p Hpp] end.
  rewrite Hk, Hm. destruct (read_pipe Calm (off -! nr_offset r) r) as [[sk serr] r1] eqn:Es.
  destruct (read_pipe_calm _ _ _ _ _ _ Hq Hpp Es) as (Hq1 & _).
  apply read_pipe_spec in Es as (Hf1 & _ & _ & _ & _ & _ & Hs). destruct (Hs p Hpp) as (p1 & Hp1 & _).
  case_decide.
  - destruct (read_pipe Calm plen (set_offset off r1)) as [[got err] r2] eqn:Er.
    assert (Hq1' : quiet (set_offset off r1)) by exact Hq1.
    destruct (read_pipe_calm _ _ p1 _ _ _ Hq1' Hp1 Er) as (Hq2 & Hok & _). rewrite Hok, Hpp.
    split; [by eexists|]. split; [done|]. exact Hq2.
  - destruct Hq1 as (Hc1 & Hi1 & Hb1). rewrite Hi1. split; [by split_and!|exact Hf1].
Qed.

Lemma readAtOnce_calm ev plen off r :
  calm ev → net_serves (e_net ev) → quiet r → is_of r → 0 ≤ off → 0 < plen →
  off + plen ≤ len content →
  let x := readAtOnce maxSize ev plen off r in
  x.1.2 = Nil ∧ quiet x.2 ∧ (nr_pipe r = None → len x.1.1 = plen).
Proof.
  intros Hcalm Hn Hq Hf Ho Hp Hfit. pose proof Hq as (Hc & Hi & Hb). unfold readAtOnce. rewrite Hc. simpl. rewrite Hi.
  set (r1 := set_activity (e_now ev) r).
  assert (Hq1 : quiet r1) by exact Hq.
  pose proof (seq_read_calm ev plen off r1 Hcalm Hq1) as Hs.
  destruct (seq_read ev plen off r1) as [x|r2].
  { destruct Hs as ([p Hpp] & Hx & Hqx). split_and!; try done. simpl in Hpp. congruence. }
  subst r2. pose proof (smart_seek_calm ev plen off r1 Hcalm Hq1) as Hm.
  destruct (smart_seek ev plen off r1) as [x|r3].
  { destruct Hm as ([p Hpp] & Hx & Hqx). split_and!; try done. simpl in Hpp. congruence. }
  destruct Hm as [Hq3 Hf3]. rewrite (proj1 (proj2 Hq3)).
  destruct (hard_seek_calm ev plen off r3 Hcalm Hn Hq3) as (H1 & H2 & H3); try done.
  by apply (is_of_eq r).
Qed.

(** A fresh stream that delivers fills what is left in one turn. *)
Lemma read_at_loop_fresh evs plen off fuel got resets r got' err r' :
  (∀ k, net_serves (e_net (evs k)) ∧ calm (evs k)) → 0 ≤ off → 0 ≤ plen → off + plen ≤ len content →
  len got ≤ plen → is_of r → nr_pipe r = None → quiet r → (1 ≤ fuel)%nat →
  read_at_loop maxSize fuel evs plen off got resets r = Some (got', err, r') →
  err = Nil ∧ len got' = plen.
Proof.
  intros Hn Ho Hp Hfit Hl Hf Hnp Hq H1. destruct fuel as [|fuel]; [lia|]. cbn [read_at_loop].
  pose proof (len_nonneg got). destruct (len got <? plen) eqn:E; bool_simpl; [|intros [= <- <- <-]; split; [done|lia]].
  go_simpl. destruct (Hn resets) as [Hs Hc].
  destruct (readAtOnce_calm (evs resets) (plen - len got) (off + len got) r) as (He & _ & Hlen); try done; [lia|lia|lia|].
  destruct (readAtOnce maxSize (evs resets) (plen - len got) (off + len got) r) as [[d er] r1]. simpl in *.
  specialize (Hlen Hnp). subst er. simpl.
  assert (Hgl : len (got ++ d)%list = plen) by (rewrite len_app; lia).
  destruct (len (got ++ d)%list >=? plen) eqn:Eg; [|lia]. by intros [= <- <- <-].
Qed.

(** The first turn may meet a dead stream; the second reads a fresh one. *)
Lemma read_at_calm evs plen off r got err r' :
  (∀ k, net_serves (e_net (evs k)) ∧ calm (evs k)) → 0 ≤ off → 0 ≤ plen → off + plen ≤ len content →
  reader_ok r → quiet r → NR_ReadAt maxSize evs plen off r = Some (got, err, r') →
  err = Nil ∧ len got = plen.
Proof.
  intros Hn Ho Hp Hfit Hr Hq. unfold NR_ReadAt. remember (S readAtFillAttempts) as fuel eqn:Ef.
  cbn [read_at_loop]. change (len (@nil byte)) with 0.
  destruct (0 <? plen) eqn:Ep; bool_simpl; [|intros [= <- <- <-]; split; [done|change (len (@nil byte)) with 0; lia]].
  rewrite Z.sub_0_r, Z.add_0_r. go_simpl. destruct (Hn 0%nat) as [Hs Hc].
  destruct (readAtOnce_calm (evs 0%nat) plen off r) as (He & Hq1 & _); try done; [apply Hr|].
  destruct (readAtOnce_ok (evs 0%nat) plen off r) as (_ & Hdl & Hr1); try done; [lia|lia|].
  destruct (readAtOnce maxSize (evs 0%nat) plen off r) as [[d er] r1]. simpl in *. subst er. simpl.
  destruct (len d >=? plen) eqn:Ed; [intros [= <- <- <-]; split; [done|lia]|].
  rewrite andb_false_r. subst fuel. intros E.
  eapply read_at_loop_fresh; [..|exact E]; try done; [apply Hr1| |unfold readAtFillAttempts; lia].
  split_and!; try done; apply Hq1.
Qed.
End exact.


(** [FetchAhead] always ends: it hands the first bytes asked for to the reader,
    then widens its window and reports it, and every report, the last one and
    only the last marked done, is of bytes of the file from the offset on.  When
    the torrent delivers, both are complete up to the end of the file. *)
Theorem FetchAhead_window maxSize content hash fileID net offset blen dlen :
  len content ≤ 2 ^ 60 → net_serves maxSize content hash fileID net →
  0 ≤ offset < len content → 0 < blen ≤ 2 ^ 60 → 0 < dlen ≤ 2 ^ 60 →
  ∃ got err fs buf, FetchAhead maxSize net hash fileID offset blen dlen = Some (got, err, fs, buf) ∧
    got `prefix_of` file_from content offset ∧ len got ≤ dlen ∧ fills_ok fs buf ∧
    (∀ f, f ∈ fs → take (Z.to_nat (fl_n f)) buf `prefix_of` file_from content offset ∧ fl_n f ≤ blen) ∧
    (delivers content hash fileID net →
       err = Nil ∧ len got = Z.min (Z.min dlen blen) (len content - offset) ∧
       len buf = Z.min blen (len content - offset)).
Proof.
  intros Hsize Hn Ho Hb Hd.
  destruct (FetchAhead_exact maxSize content hash fileID Hsize net offset blen dlen Hn Ho Hb Hd)
    as (got & err & fs & buf & E & Hgb & Hbf & Hgl & Hbl & Hok & Hdl).
  exists got, err, fs, buf. split; [exact E|]. split; [by etrans|]. split_and!; try done.
  intros f Hf. pose proof (fills_ok_bound _ _ _ Hok Hf). split; [|lia].
  etrans; [apply prefix_take|exact Hbf].
Qed.

(** The bridge ignores the status of the response and reads its body as file
    data: while the torrent's metadata is missing, a fetch succeeds with the text
    of the error page, whatever the file and the offset. *)
Theorem error_page_is_data maxSize net t hash fileID offset plen :
  n_peek net hash = Some t → tv_info t = false → n_timeout net = None →
  (19 ≤ n_delivered net)%nat → 19 ≤ plen →
  FetchBlock maxSize net hash fileID offset plen = (text_line "404 page not found", Nil).
Proof.
  intros Ht Hi Hto Hd Hp. unfold FetchBlock. rewrite Ht. unfold Stream. rewrite Hi. simpl negb. cbv iota.
  rewrite (take_ge (text_line _)) by exact Hd.
  unfold ReadFull, pipe_avail. simpl p_break. simpl p_rest. rewrite Hto, take_ge by (simpl; lia).
  destruct (Z.to_nat plen <=? length (text_line "404 page not found"))%nat; done.
Qed.

(** ** On a small file *)

Definition demo_file : list byte := [Byte.x10; Byte.x11; Byte.x12; Byte.x13; Byte.x14; Byte.x15].
Definition demo_view : TorrentView := mkTorrentView true [None; Some (1, "m")] [("m", demo_file)] true.
Definition demo_net : Net := mkNet (λ _, Some demo_view) 100 None.
Definition demo_ev : ReadEvents := mkEvents 0 Calm Calm Calm demo_net Calm.
(** A reader whose stream died two bytes in. *)
Definition demo_dead : NativeReader := mkReader "ab" 1 0 (Some (mkPipe [Byte.x10; Byte.x11] None)) false false 0.

Lemma demo_serves : net_serves 0 demo_file "ab" 1 demo_net.
Proof. intros t [= <-]. split; [done|]. vm_compute. by intros c [= <-]. Qed.

Lemma demo_delivers : delivers demo_file "ab" 1 demo_net.
Proof. exists demo_view. split_and!; try done. simpl. lia. Qed.


Lemma FetchAhead_window_witness :
  ∃ got fs buf, FetchAhead 0 demo_net "ab" 1 2 10 3 = Some (got, Nil, fs, buf) ∧ len got = 3 ∧ len buf = 4.
Proof.
  destruct (FetchAhead_window 0 demo_file "ab" 1 demo_net 2 10 3)
    as (got & err & fs & buf & E & _ & _ & _ & _ & Hc).
  - vm_compute. discriminate.
  - exact demo_serves.
  - vm_compute. by split.
  - lia.
  - lia.
  - destruct (Hc demo_delivers) as (-> & H1 & H2). by exists got, fs, buf.
Defined.

Definition demo_no_info : Net := mkNet (λ _, Some (mkTorrentView false [] [] true)) 100 None.

Lemma error_page_is_data_witness :
  (19 ≤ 4096) ∧ FetchBlock 0 demo_no_info "ab" 1 0 4096 = (text_line "404 page not found", Nil).
Proof.
  split; [lia|].
  apply (error_page_is_data 0 demo_no_info (mkTorrentView false [] [] true)); try done; simpl; lia.
Defined.

(** Asked for more than the file holds, the reader reconnects at the end of the
    file and takes the refusal of the range for data. *)
Lemma ReadAt_past_end_reads_refusal :
  ∃ got r', NR_ReadAt 0 (λ _, demo_ev) 8 2 (NewStreamReader 0 "ab" 1) = Some (got, Nil, r') ∧
    got = (drop 2 demo_file ++ take 4 (text_line "invalid range: failed to overlap"))%list.
Proof. eexists _, _. split; vm_compute; reflexivity. Qed.
