(* ===== verification/FuseRead.v ===== *)
(** * The read path (main.go: [MkvHandle.Read], [readInner], [cueHandle.Read])

    A read of an open file is served from the first source that has the bytes:
    the warm-up head on SSD, the warm-up tail, the read-ahead cache, the fetch of
    another read of the same chunk, the torrent itself.  On the way it moves the
    handle from its warm-up to its streaming state, interrupts the pump on a seek,
    attaches to or starts a pump, and spawns prefetches; the goroutines it leaves
    behind are the pending jobs of the state and run later, in any order.

    [e_interfere] is what the other goroutines did to the shared state while the
    read waited: for a slot, for the leader of its chunk, between two attempts.
    The torrent is the bridge of [Native].  Time stamps of profiling and the
    session statistics are left out. *)

From Stdlib Require Import String.
From S2P Require Import Prelude GoStrings Vfs TailRange Warmup RaCache Pump Native.
Local Open Scope string_scope.
Local Open Scope Z_scope.
Local Open Scope go_scope.

(** ** State *)

(** [PlaybackState] (zero times are [None]). *)
Record PlaybackState := mkPlay {
  pb_confirmed : option Z;
  pb_healthy : bool;
  pb_stopped : bool;
  pb_readCount : Z;
  pb_lastSeekOff : Z;
  pb_lastReadAt : option Z
}.

Definition minutes (n : Z) : Z := n * 60 * 1000000000.

Definition IsInferredPlayback (now : Z) (ps : PlaybackState) : bool :=
  if pb_healthy ps || pb_stopped ps then false
  else
    match pb_lastReadAt ps with
    | None => false
    | Some t => (now - t <? minutes 10) && (pb_readCount ps >=? 3) && (pb_lastSeekOff ps >? 2 * 1024 * 1024)
    end.

(** [NativePumpState]: what reads see of it. *)
Record NativePumpState := mkPumpState { pu_refCount : Z; pu_pending : bool }.

(** The identity of an open file. *)
Record Ident := mkIdent { i_path : string; i_hash : string; i_fileID : Z; i_size : Z; i_usesWarmup : bool }.

(** [fetchFlight]: the chunk a leader fetches; the channel [done] it closes is the
    entry of the list [fs_done] at its index. *)
Record fetchFlight := mkFlight { ff_key : string; ff_done : nat }.

(** Goroutines left behind: a prefetch that holds a slot, one that will look for
    a slot, the fill of a window with its callbacks to come, a pump to start. *)
Inductive Job :=
  | Prefetch (key : string) (f : Ident) (start fetchEnd : Z)
  | LatePrefetch (key : string) (f : Ident) (start chunk : Z)
  | FillJob (f : Ident) (off : Z) (buf : list byte) (fills : list fill) (flight : option fetchFlight)
  | PumpJob (f : Ident) (start : Z)
  | SeekSignal (f : Ident)           (* Interrupt of the pump's reader and ResetShield *)
  | ForceWarmup (f : Ident).         (* forceTorrentWarmupActive *)

Record FsState := mkFs {
  fs_world : World;                        (* raCache and warmup.DiskWarmup *)
  fs_handles : Handles;                    (* activeHandles *)
  fs_play : gmap string PlaybackState;     (* playbackRegistry *)
  fs_prefetches : gset string;             (* inFlightPrefetches *)
  fs_flights : gset string;                (* inFlightFetches *)
  fs_done : list bool;                     (* the flights ever led: is done closed *)
  fs_slots : Z;                            (* tokens in masterDataSemaphore *)
  fs_pumps : gmap string NativePumpState;  (* activePumps *)
  fs_jobs : list Job
}.

(** The rest of the handle's own state. *)
Record ReadHandle := mkReadHandle {
  rh_id : Ident;
  rh_url : string;
  rh_lastLen : Z;
  rh_lastTime : Z;
  rh_lastActivity : Z;
  rh_lastGlobal : Z;
  rh_warmup : bool;       (* state = stateWarmup *)
  rh_hasSlot : bool;
  rh_reader : bool        (* nativeReader != nil *)
}.

Record FsConfig := mkFsConfig {
  c_warmStartIdle : Z;        (* WarmStartIdleSeconds *)
  c_seqTolerance : Z;         (* SequentialTolerance *)
  c_streamThreshold : Z;      (* StreamingThreshold *)
  c_raInitial : Z;            (* ReadAheadInitial *)
  c_poolSize : Z;             (* length of the pooled read buffers *)
  c_slots : Z;                (* MasterConcurrencyLimit *)
  c_maxSize : Z               (* settings.MaxSize *)
}.

Inductive errno := EIO | EINTR | ETIMEDOUT.
Inductive ReadResult := Data (d : list byte) | Errno (e : errno).

Inductive slot_wait := Acquired | Cancelled | TimedOut.
Inductive poll := Tick | PollCancelled.

(** What a read meets while it runs. *)
Record Env := mkEnv {
  e_now : Z;
  e_io : nat → Io;
  e_responsive : bool;
  e_resolve : option (string * Z);         (* resolveTargetFile *)
  e_wait : slot_wait;                      (* the wait for a temporary slot *)
  e_rate : bool;                           (* the rate limiter let the read pass *)
  e_polls : list poll;                     (* the turns of a follower before its leader is done *)
  e_tailNet : Net;                         (* the torrent, for a tail miss *)
  e_nets : nat → Net;                      (* the torrent, at each attempt *)
  e_giveUp : nat → bool;                   (* cancelled while waiting for the next attempt *)
  e_interfere : nat → FsState → FsState
}.

(** ** A read as a computation that may return early or panic *)

Record RS := mkRS { rs_fs : FsState; rs_h : ReadHandle }.

Inductive out (A : Type) := Done (r : ReadResult) (s : RS) | Next (a : A) (s : RS) | Panic.
Arguments Done {A}.
Arguments Next {A}.
Arguments Panic {A}.

Definition M (A : Type) : Type := RS → out A.

Definition ret {A} (a : A) : M A := λ s, Next a s.
Definition bind {A B} (m : M A) (f : A → M B) : M B :=
  λ s, match m s with Done r s => Done r s | Next a s => f a s | Panic => Panic end.
Definition finish {A} (r : ReadResult) : M A := λ s, Done r s.
Definition get : M RS := λ s, Next s s.
Definition put_fs (f : FsState → FsState) : M unit := λ s, Next () (mkRS (f (rs_fs s)) (rs_h s)).
Definition put_h (f : ReadHandle → ReadHandle) : M unit := λ s, Next () (mkRS (rs_fs s) (f (rs_h s))).
Definition when (b : bool) (m : M unit) : M unit := if b then m else ret ().

Declare Scope read_scope.
Delimit Scope read_scope with read.
Notation "x <- m ; k" := (bind m (λ x, k)) (at level 100, m at next level, right associativity) : read_scope.
Notation "m ;; k" := (bind m (λ _, k)) (at level 100, right associativity) : read_scope.
Local Open Scope read_scope.

Definition set_world (w : World) (f : FsState) : FsState :=
  mkFs w (fs_handles f) (fs_play f) (fs_prefetches f) (fs_flights f) (fs_done f) (fs_slots f) (fs_pumps f) (fs_jobs f).
Definition set_handles (x : Handles) (f : FsState) : FsState :=
  mkFs (fs_world f) x (fs_play f) (fs_prefetches f) (fs_flights f) (fs_done f) (fs_slots f) (fs_pumps f) (fs_jobs f).
Definition set_play (x : gmap string PlaybackState) (f : FsState) : FsState :=
  mkFs (fs_world f) (fs_handles f) x (fs_prefetches f) (fs_flights f) (fs_done f) (fs_slots f) (fs_pumps f) (fs_jobs f).
Definition set_prefetches (x : gset string) (f : FsState) : FsState :=
  mkFs (fs_world f) (fs_handles f) (fs_play f) x (fs_flights f) (fs_done f) (fs_slots f) (fs_pumps f) (fs_jobs f).
Definition set_flights (x : gset string) (done : list bool) (f : FsState) : FsState :=
  mkFs (fs_world f) (fs_handles f) (fs_play f) (fs_prefetches f) x done (fs_slots f) (fs_pumps f) (fs_jobs f).
Definition set_slots (x : Z) (f : FsState) : FsState :=
  mkFs (fs_world f) (fs_handles f) (fs_play f) (fs_prefetches f) (fs_flights f) (fs_done f) x (fs_pumps f) (fs_jobs f).
Definition set_pumps (x : gmap string NativePumpState) (f : FsState) : FsState :=
  mkFs (fs_world f) (fs_handles f) (fs_play f) (fs_prefetches f) (fs_flights f) (fs_done f) (fs_slots f) x (fs_jobs f).
Definition add_job (j : Job) (f : FsState) : FsState :=
  mkFs (fs_world f) (fs_handles f) (fs_play f) (fs_prefetches f) (fs_flights f) (fs_done f) (fs_slots f) (fs_pumps f)
       (fs_jobs f ++ [j])%list.
Definition set_jobs (x : list Job) (f : FsState) : FsState :=
  mkFs (fs_world f) (fs_handles f) (fs_play f) (fs_prefetches f) (fs_flights f) (fs_done f) (fs_slots f) (fs_pumps f) x.

Definition set_last (n t : Z) (h : ReadHandle) : ReadHandle :=
  mkReadHandle (rh_id h) (rh_url h) n t (rh_lastActivity h) (rh_lastGlobal h) (rh_warmup h) (rh_hasSlot h) (rh_reader h).
Definition set_lastLen (n : Z) (h : ReadHandle) : ReadHandle := set_last n (rh_lastTime h) h.
Definition set_streaming (h : ReadHandle) : ReadHandle :=
  mkReadHandle (rh_id h) (rh_url h) (rh_lastLen h) (rh_lastTime h) (rh_lastActivity h) (rh_lastGlobal h) false
               (rh_hasSlot h) (rh_reader h).
Definition set_slot (h : ReadHandle) : ReadHandle :=
  mkReadHandle (rh_id h) (rh_url h) (rh_lastLen h) (rh_lastTime h) (rh_lastActivity h) (rh_lastGlobal h) (rh_warmup h)
               true true.
Definition set_resolved (hash : string) (id : Z) (h : ReadHandle) : ReadHandle :=
  let f := rh_id h in
  mkReadHandle (mkIdent (i_path f) hash id (i_size f) (i_usesWarmup f)) (rh_url h) (rh_lastLen h) (rh_lastTime h)
               (rh_lastActivity h) (rh_lastGlobal h) (rh_warmup h) (rh_hasSlot h) (rh_reader h).
Definition set_active (now : Z) (h : ReadHandle) : ReadHandle :=
  mkReadHandle (rh_id h) (rh_url h) (rh_lastLen h) (rh_lastTime h) now
               (if now - rh_lastGlobal h >? minutes 1 then now else rh_lastGlobal h)
               (rh_warmup h) (rh_hasSlot h) (rh_reader h).

Definition update_handle (i : nat) (g : MkvHandle → MkvHandle) (f : FsState) : FsState :=
  set_handles (alter g i (fs_handles f)) f.
Definition set_lastOff (off : Z) (h : MkvHandle) : MkvHandle :=
  mkHandleState (h_path h) (h_size h) (h_hash h) off (h_primary h) (h_seq h).
Definition set_hash (x : string) (h : MkvHandle) : MkvHandle :=
  mkHandleState (h_path h) (h_size h) x (h_lastOff h) (h_primary h) (h_seq h).

Section read.
Context `{GoRuntime} (racfg : RaConfig) (wcfg : Config) (cfg : FsConfig) (xxhash : string → Z).

Definition chunk_of (f : FsState) (path : string) : Z := ChunkSize racfg path (w_ra (fs_world f)).

(** [fmt.Sprintf("%s:%d", path, off)] *)
Definition flight_key (path : string) (off : Z) : string := path +:+ ":" +:+ itoa off.

Definition lastOff_of (i : nat) (f : FsState) : Z := default 0 (h_lastOff <$> fs_handles f !! i).
Definition primary_of (i : nat) (f : FsState) : bool := default false (h_primary <$> fs_handles f !! i).

(** The registry holds a confirmed or inferred playback of the path. *)
Definition playing (now : Z) (path : string) (f : FsState) : bool :=
  match fs_play f !! path with
  | Some ps => pb_healthy ps || IsInferredPlayback now ps
  | None => false
  end.

(** *** Prefetches *)

(** The warm landing: the chunk at the new position, when nobody fetches it and
    a slot is free at once. *)
Definition warm_landing (f : Ident) (off : Z) (fs : FsState) : FsState :=
  let chunk := chunk_of fs (i_path f) in
  let start := off /! chunk *! chunk in
  let key := flight_key (i_path f) start in
  if decide (key ∈ fs_prefetches fs) then fs
  else if fs_slots fs <? c_slots cfg then
    let e := start +! chunk -! 1 in
    let e := if e >=? i_size f then i_size f -! 1 else e in
    add_job (Prefetch key f start e)
      (set_slots (fs_slots fs + 1) (set_prefetches ({[key]} ∪ fs_prefetches fs) fs))
  else fs.

(** After a cache hit: the next chunk, when the handle has no pump or is close to
    the boundary. *)
Definition predictive_prefetch (f : Ident) (hasSlot : bool) (off : Z) (fs : FsState) : FsState :=
  let chunk := chunk_of fs (i_path f) in
  let next := (off /! chunk +! 1) *! chunk in
  if (negb hasSlot || (next -! off <? chunk /! 4)) && negb (Exists racfg xxhash (i_path f) next (w_ra (fs_world fs)))
  then
    let key := flight_key (i_path f) next in
    if decide (key ∈ fs_prefetches fs) then fs
    else
      let e := next +! chunk -! 1 in
      let e := if e >=? i_size f then i_size f -! 1 else e in
      if e <=? next then fs
      else if fs_slots fs <? c_slots cfg then
        add_job (Prefetch key f next e)
          (set_slots (fs_slots fs + 1) (set_prefetches ({[key]} ∪ fs_prefetches fs) fs))
      else fs
  else fs.

(** After a fetch: the next chunk, near the boundary, when the pump lags. *)
Definition lagging_prefetch (f : Ident) (hasSlot isStreaming : bool) (off : Z) (fs : FsState) : FsState :=
  let chunk := chunk_of fs (i_path f) in
  let next := (off /! chunk +! 1) *! chunk in
  let isLagging := MaxCachedOffset xxhash (i_path f) (w_ra (fs_world fs)) <? next in
  if isStreaming && (negb hasSlot || isLagging) && (next -! off <? chunk /! 4) then
    let key := flight_key (i_path f) next in
    if decide (key ∈ fs_prefetches fs) then fs
    else add_job (LatePrefetch key f next chunk) (set_prefetches ({[key]} ∪ fs_prefetches fs) fs)
  else fs.

(** The block a prefetch fetches and caches. *)
Definition fetch_into_cache (now : Z) (resp : bool) (net : Net) (f : Ident) (start e : Z) (fs : FsState) : FsState :=
  if String.eqb (i_hash f) "" then fs
  else
    let limit := if e -! start +! 1 <? c_poolSize cfg then e -! start +! 1 else c_poolSize cfg in
    let '(d, err) := FetchBlock (c_maxSize cfg) net (i_hash f) (i_fileID f) start limit in
    if bool_decide (err = Nil) && (len d >? 0) then
      let w := fs_world fs in
      set_world (mkWorld (Ra_Put racfg xxhash (i_path f) start (start +! len d -! 1) d now resp (w_ra w)).2
                         (w_warm w)) fs
    else fs.

(** The goroutine of a prefetch that holds a slot: it gives slot and key back. *)
Definition run_prefetch (now : Z) (resp : bool) (net : Net) (key : string) (f : Ident) (start e : Z)
    (fs : FsState) : FsState :=
  let fs := if e <=? start then fs else fetch_into_cache now resp net f start e fs in
  set_slots (fs_slots fs - 1) (set_prefetches (fs_prefetches fs ∖ {[key]}) fs).

(** The other one takes and returns its slot itself, when the limiter lets it. *)
Definition run_late_prefetch (now : Z) (resp rate : bool) (net : Net) (key : string) (f : Ident)
    (start chunk : Z) (fs : FsState) : FsState :=
  let e := start +! chunk -! 1 in
  let e := if e >=? i_size f then i_size f -! 1 else e in
  let fs :=
    if Exists racfg xxhash (i_path f) start (w_ra (fs_world fs)) || negb rate || (e <=? start)
       || negb (fs_slots fs <? c_slots cfg)
    then fs else fetch_into_cache now resp net f start e fs in
  set_prefetches (fs_prefetches fs ∖ {[key]}) fs.

(** *** The fill of a window *)

Definition writeWarmupFromFetch (io : Io) (now : Z) (f : Ident) (off : Z) (data : list byte) (fs : FsState)
    : FsState :=
  match w_warm (fs_world fs) with
  | None => fs
  | Some d =>
      if negb (i_usesWarmup f) || String.eqb (i_hash f) "" || (len data =? 0) then fs
      else
        let keep x := set_world (mkWorld (w_ra (fs_world fs)) (Some x)) fs in
        if off <=? FileSize wcfg then keep (WriteChunk wcfg (i_hash f) (i_fileID f) data off d)
        else if (i_size f <=? TailWarmupSize) || (off <? i_size f -! TailWarmupSize) then fs
        else
          let confirmed := match fs_play fs !! i_path f with
                           | Some ps => bool_decide (is_Some (pb_confirmed ps))
                           | None => false
                           end in
          if confirmed then fs
          else keep (WriteTail io now (i_hash f) (i_fileID f) data off (i_size f) d)
  end.

(** The window grown so far goes into the read-ahead cache. *)
Definition cache_window (now : Z) (resp : bool) (f : Ident) (off total : Z) (buf : list byte) (fs : FsState)
    : FsState :=
  let w := fs_world fs in
  if total >? 0
  then set_world (mkWorld (Ra_Put racfg xxhash (i_path f) off (off +! total -! 1)
                                  (take (Z.to_nat total) buf) now resp (w_ra w)).2 (w_warm w)) fs
  else fs.

(** [releaseFlight], which a [sync.Once] lets run once: the key goes, followers wake. *)
Definition releaseFlight (fl : fetchFlight) (fs : FsState) : FsState :=
  if bool_decide (fs_done fs !! ff_done fl = Some false)
  then set_flights (fs_flights fs ∖ {[ff_key fl]}) (<[ff_done fl := true]> (fs_done fs)) fs
  else fs.

(** One callback of [FetchAhead]: [onFill(total, done, err)]. *)
Definition run_fill (io : Io) (now : Z) (resp : bool) (f : Ident) (off : Z) (buf : list byte) (c : fill)
    (flight : option fetchFlight) (fs : FsState) : FsState :=
  let total := fl_n c in
  let fs := cache_window now resp f off total buf fs in
  if fl_done c then
    let fs := if total >? 0 then writeWarmupFromFetch io now f off (take (Z.to_nat total) buf) fs else fs in
    match flight with Some fl => releaseFlight fl fs | None => fs end
  else fs.

(** *** The steps of a read, in the order of the code *)

Section one_read.
Context (e : Env) (i : nat) (dlen off : Z).

Definition late_resolution : M unit :=
  s <- get;
  let h := rs_h s in
  when (String.eqb (i_hash (rh_id h)) "" && negb (String.eqb (rh_url h) ""))
    match e_resolve e with
    | Some (hash, id) =>
        put_h (set_resolved hash id);;
        put_fs (update_handle i (set_hash hash));;
        s <- get;
        put_fs (add_job (PumpJob (rh_id (rs_h s)) (lastOff_of i (rs_fs s))))
    | None => ret ()
    end.

Definition note_read (isPrimary : bool) (size : Z) (ps : PlaybackState) : PlaybackState :=
  mkPlay (pb_confirmed ps) (pb_healthy ps) (pb_stopped ps) (pb_readCount ps +! 1)
         (if shouldRecordResumeOff (pb_healthy ps) isPrimary off size then off else pb_lastSeekOff ps)
         (Some (e_now e)).

(** Activity: whether this is a first block, the registry entry, the time stamps. *)
Definition note_activity : M bool :=
  s <- get;
  let h := rs_h s in
  let f := rh_id h in
  let idle := e_now e - rh_lastActivity h in
  let isFirst := (off =? 0) || (idle >? c_warmStartIdle cfg * 1000000000) in
  put_fs (λ fs, set_play (alter (note_read (primary_of i fs) (i_size f)) (i_path f) (fs_play fs)) fs);;
  put_h (set_active (e_now e));;
  ret isFirst.

(** [prevOff], the new offset, and the promotion of a streaming handle. *)
Definition move_offset : M Z :=
  s <- get;
  let prev := lastOff_of i (rs_fs s) in
  put_fs (update_handle i (set_lastOff off));;
  put_fs (λ fs, set_handles (promoteIfStreaming (c_seqTolerance cfg) (c_streamThreshold cfg)
                               (ReadAheadBudget racfg) (playing (e_now e) (i_path (rh_id (rs_h s))) fs)
                               i prev off dlen (fs_handles fs)) fs);;
  ret prev.

(** Does this read leave the warm-up zone, by a seek or by reading on? *)
Definition leaves_warmup (prev : Z) : bool :=
  let budget := ReadAheadBudget racfg in
  if prev =? -1 then off >=? FileSize wcfg
  else if off =? 0 then false
  else (off >? prev +! budget) || (prev >? off +! budget) || (off >=? FileSize wcfg).

Definition warm_transition (prev : Z) : M unit :=
  s <- get;
  let h := rs_h s in
  when (rh_warmup h && leaves_warmup prev)
    (put_h set_streaming;;
     when ((prev =? -1) && negb (String.eqb (i_hash (rh_id h)) ""))
       (put_fs (warm_landing (rh_id h) off))).

(** A genuine seek: the pump is interrupted by the first handle that sees it. *)
Definition seek_interrupt (prev : Z) : M unit :=
  s <- get;
  let h := rs_h s in
  let f := rh_id h in
  let budget := ReadAheadBudget racfg in
  when (rh_reader h && shouldInterruptPump prev off budget (shouldServeTailFromSSD off (i_size f) TailWarmupSize))
    (when (negb (primary_of i (rs_fs s)) && playing (e_now e) (i_path f) (rs_fs s))
       (put_fs (λ fs, set_handles (becomePrimary i (fs_handles fs)).2 fs));;
     let pending := match fs_pumps (rs_fs s) !! i_path f with Some p => pu_pending p | None => false end in
     when (negb pending)
       (put_fs (λ fs, set_pumps (alter (λ p, mkPumpState (pu_refCount p) true) (i_path f) (fs_pumps fs)) fs);;
        put_fs (add_job (SeekSignal f));;
        put_h set_streaming;;
        when (negb (String.eqb (i_hash f) "")) (put_fs (warm_landing f off)))).

(** The bytes are served: the handle remembers the length. *)
Definition served (d : list byte) : M unit :=
  put_h (set_last (len d) (e_now e));; finish (Data d).

Definition serve_head : M unit :=
  s <- get;
  let h := rs_h s in
  let f := rh_id h in
  let w := fs_world (rs_fs s) in
  match w_warm w with
  | Some d =>
      when (i_usesWarmup f && negb (String.eqb (i_hash f) "") && rh_warmup h)
        (let '(cov, d) := GetAvailableRange wcfg (e_io e 0) (e_now e) (i_hash f) (i_fileID f) d in
         if off <? cov then
           let '(got, _, d) := ReadAt wcfg (e_io e 1) (e_now e) (i_hash f) (i_fileID f) dlen off d in
           put_fs (set_world (mkWorld (w_ra w) (Some d)));;
           when (len got >? 0) (put_fs (update_handle i (set_lastOff off));; served got)
         else put_fs (set_world (mkWorld (w_ra w) (Some d))))
  | None => ret ()
  end.

Definition serve_tail : M unit :=
  s <- get;
  let f := rh_id (rs_h s) in
  let w := fs_world (rs_fs s) in
  match w_warm w with
  | Some d =>
      when (i_usesWarmup f && shouldServeTailFromSSD off (i_size f) TailWarmupSize)
        (let '(got, _, d) := ReadTail (e_io e 2) (e_now e) (i_hash f) (i_fileID f) dlen off (i_size f) d in
         put_fs (set_world (mkWorld (w_ra w) (Some d)));;
         when (len got >? 0) (served got);;
         let '(got, err) := FetchBlock (c_maxSize cfg) (e_tailNet e) (i_hash f) (i_fileID f) off dlen in
         put_fs (e_interfere e 0);;
         when (bool_decide (err = Nil) && (len got >? 0))
           (put_fs (λ fs, set_world (mkWorld (w_ra (fs_world fs))
                (WriteTail (e_io e 3) (e_now e) (i_hash f) (i_fileID f) got off (i_size f)
                   <$> w_warm (fs_world fs))) fs);;
            served got))
  | None => ret ()
  end.

(** [raCache.CopyTo]: the bytes, [[]] for a miss. *)
Definition copy_cached : M (list byte) := λ s,
  let f := rh_id (rs_h s) in
  let w := fs_world (rs_fs s) in
  match CopyTo racfg xxhash (i_path f) off (off +! dlen -! 1) dlen (e_now e) (w_ra w) with
  | None => Panic
  | Some (d, c) => Next d (mkRS (set_world (mkWorld c (w_warm w)) (rs_fs s)) (rs_h s))
  end.

Definition serve_cached : M unit :=
  d <- copy_cached;
  when (len d >? 0) (put_fs (update_handle i (set_lastOff off));; served d).

Definition serve_cache_hit : M unit :=
  d <- copy_cached;
  when (len d >? 0)
    (put_fs (update_handle i (set_lastOff off));;
     s <- get;
     put_fs (predictive_prefetch (rh_id (rs_h s)) (rh_hasSlot (rs_h s)) off);;
     served d).

(** Streaming or not, and how much to fetch. *)
Definition plan_fetch (isFirst : bool) : M (bool * Z) :=
  s <- get;
  let h := rs_h s in
  let last := lastOff_of i (rs_fs s) in
  let next := last +! rh_lastLen h in
  let isSeq := (off =? next) || ((last >=? 0) && (Z.abs (off - next) <=? c_seqTolerance cfg)) in
  let isStreaming := (dlen >=? c_streamThreshold cfg) || isSeq in
  let fetchSize :=
    if isStreaming then
      let ra := if isFirst : bool then c_raInitial cfg else ReadAheadBase racfg in
      let fe := off +! ra -! 1 in
      let fe := if fe >=? i_size (rh_id h) then i_size (rh_id h) -! 1 else fe in
      fe -! off +! 1
    else dlen in
  put_h (set_last dlen (e_now e));;
  put_fs (update_handle i (set_lastOff off));;
  ret (isStreaming, fetchSize).

(** A handle without a slot attaches to the pump of its path, or becomes one. *)
Definition find_pump (isStreaming : bool) : M unit :=
  s <- get;
  let h := rs_h s in
  let f := rh_id h in
  when (negb (rh_hasSlot h))
    match fs_pumps (rs_fs s) !! i_path f with
    | Some p =>
        put_h set_slot;;
        put_fs (λ fs, set_pumps (<[i_path f := mkPumpState (i32 (pu_refCount p + 1)) (pu_pending p)]> (fs_pumps fs)) fs)
    | None =>
        when (isStreaming && negb (String.eqb (i_hash f) "") && playing (e_now e) (i_path f) (rs_fs s)
              && (fs_slots (rs_fs s) <? c_slots cfg))
          (put_h set_slot;;
           put_fs (λ fs, add_job (PumpJob f off)
                           (set_slots (fs_slots fs + 1)
                              (set_pumps (<[i_path f := mkPumpState 1 false]> (fs_pumps fs)) fs))))
    end.

(** A handle that still has no slot holds a temporary one until it returns. *)
Definition holding {A} (m : M A) : M A := λ s,
  if rh_hasSlot (rs_h s) then m s
  else match e_wait e with
       | Cancelled => Done (Errno EINTR) s
       | TimedOut => Done (Errno ETIMEDOUT) s
       | Acquired =>
           let give fs := set_slots (fs_slots fs - 1) fs in
           match m (mkRS (set_slots (fs_slots (rs_fs s) + 1) (rs_fs s)) (rs_h s)) with
           | Done r s => Done r (mkRS (give (rs_fs s)) (rs_h s))
           | Next a s => Next a (mkRS (give (rs_fs s)) (rs_h s))
           | Panic => Panic
           end
       end.

Definition rate_limit (isStreaming : bool) : M unit :=
  (if isStreaming || e_rate e then ret () else finish (Errno ETIMEDOUT));;
  put_fs (e_interfere e 1).

(** A follower copies what its leader caches, turn by turn. *)
Fixpoint follow (k : nat) (polls : list poll) : M unit :=
  serve_cached;;
  match polls with
  | [] => put_fs (e_interfere e k);; serve_cached
  | Tick :: polls => put_fs (e_interfere e k);; follow (S k) polls
  | PollCancelled :: _ => finish (Errno EINTR)
  end.

(** The flight this read leads, if it does. *)
Definition join_flight : M (option fetchFlight) :=
  s <- get;
  let f := rh_id (rs_h s) in
  if String.eqb (i_hash f) "" then ret None
  else
    let chunk := chunk_of (rs_fs s) (i_path f) in
    let key := flight_key (i_path f) (off /! chunk *! chunk) in
    if decide (key ∈ fs_flights (rs_fs s)) then follow 2 (e_polls e);; ret None
    else put_fs (λ fs, set_flights ({[key]} ∪ fs_flights fs) (fs_done fs ++ [false])%list fs);;
         ret (Some (mkFlight key (length (fs_done (rs_fs s))))).

Definition release_flight (flight : option fetchFlight) : M unit :=
  match flight with
  | Some fl => put_fs (releaseFlight fl)
  | None => ret ()
  end.

(** Up to three attempts; the callbacks of each are left as a job. *)
Fixpoint attempts (todo k : nat) (isStreaming : bool) (fetchSize : Z) (flight : option fetchFlight) : M unit :=
  match todo with
  | O => release_flight flight;; finish (Errno EIO)
  | S todo =>
      s <- get;
      let f := rh_id (rs_h s) in
      let limit := if fetchSize >? c_poolSize cfg then c_poolSize cfg else fetchSize in
      match FetchAhead (c_maxSize cfg) (e_nets e k) (i_hash f) (i_fileID f) off limit dlen with
      | None => λ _, Panic
      | Some (got, err, fills, buf) =>
          put_fs (e_interfere e (100 + k));;
          put_fs (add_job (FillJob f off buf fills flight));;
          if bool_decide (err = Nil) && (len got >? 0) then
            put_fs (update_handle i (set_lastOff off));;
            put_h (set_lastLen dlen);;
            put_fs (lagging_prefetch f (rh_hasSlot (rs_h s)) isStreaming off);;
            finish (Data got)
          else if (0 <? todo)%nat && e_giveUp e k then release_flight flight;; finish (Errno EINTR)
          else attempts todo (S k) isStreaming fetchSize flight
      end
  end.

Definition fetch (isFirst isStreaming : bool) (fetchSize : Z) (flight : option fetchFlight) : M unit :=
  s <- get;
  let f := rh_id (rs_h s) in
  if String.eqb (i_hash f) "" then finish (Errno EIO)
  else
    when (i_usesWarmup f && isFirst && (off <=? FileSize wcfg)) (put_fs (add_job (ForceWarmup f)));;
    attempts 3 0 isStreaming fetchSize flight.

Definition readInner : M unit :=
  s <- get;
  if off >=? i_size (rh_id (rs_h s)) then finish (Data [])
  else
    late_resolution;;
    isFirst <- note_activity;
    prev <- move_offset;
    warm_transition prev;;
    seek_interrupt prev;;
    serve_head;;
    serve_tail;;
    serve_cache_hit;;
    plan <- plan_fetch isFirst;
    find_pump plan.1;;
    holding
      (rate_limit plan.1;;
       serve_cached;;
       flight <- join_flight;
       fetch isFirst plan.1 plan.2 flight).
End one_read.


(** *** [Read]: never short away from the end of the file *)

Definition shortAwayFromEOF (n want off size : Z) : bool := (n <? want) && (off +! n <? size).

Definition shortReadRefillAttempts : nat := 2.

(** What [Read] checks before an attempt to refill: a cancelled request, a
    deadline that passed. *)
Inductive refill_check := GoOn | ContextDone | DeadlinePassed.

Fixpoint refill (todo k : nat) (envs : nat → Env) (checks : nat → refill_check) (i : nat) (dlen off : Z)
    (d : list byte) (s : RS) : option (ReadResult * RS) :=
  let size := i_size (rh_id (rs_h s)) in
  let conclude d s := if shortAwayFromEOF (len d) dlen off size then Some (Errno EIO, s) else Some (Data d, s) in
  match todo with
  | O => conclude d s
  | S todo =>
      if shortAwayFromEOF (len d) dlen off size then
        match checks k with
        | ContextDone => Some (Errno EINTR, s)
        | DeadlinePassed => conclude d s
        | GoOn =>
            match readInner (envs k) i (dlen -! len d) (off +! len d) s with
            | Panic => None
            | Done (Data m) s => if len m =? 0 then conclude d s
                                 else refill todo (S k) envs checks i dlen off (d ++ m)%list s
            | Done (Errno _) s => conclude d s
            | Next _ s => conclude d s
            end
        end
      else conclude d s
  end.

(** [MkvHandle.Read] into a buffer of [dlen] bytes; [None] is a panic. *)
Definition Read (envs : nat → Env) (checks : nat → refill_check) (i : nat) (dlen off : Z) (s : RS)
    : option (ReadResult * RS) :=
  match readInner (envs 0%nat) i dlen off s with
  | Panic => None
  | Done (Errno e) s => Some (Errno e, s)
  | Done (Data d) s =>
      if shortAwayFromEOF (len d) dlen off (i_size (rh_id (rs_h s)))
      then refill shortReadRefillAttempts 1 envs checks i dlen off d s
      else Some (Data d, s)
  | Next _ s => Some (Data [], s)
  end.

(** *** [cueHandle]: a track of an image *)

Record cueHandle := mkCue { cue_header : list byte; cue_base : Z; cue_length : Z }.

Definition cue_Read (envs : nat → Env) (checks : nat → refill_check) (i : nat) (c : cueHandle) (dlen off : Z)
    (s : RS) : option (ReadResult * RS) :=
  let '(hf, ht, innerOff, innerN) := SegmentRead (len (cue_header c)) (cue_base c) (cue_length c) off dlen in
  hdr ← slice (cue_header c) hf ht;
  if innerN >? 0 then
    '(r, s) ← Read envs checks i innerN innerOff s;
    match r with
    | Errno e => Some (Errno e, s)
    | Data d => let got := take (Z.to_nat (dlen - len hdr)) d in
                if len got <? innerN then Some (Errno EIO, s) else Some (Data (hdr ++ got)%list, s)
    end
  else Some (Data hdr, s).
End read.

(** ** Correctness *)

Section correct.
Context `{GoRuntime} (racfg : RaConfig) (wcfg : Config) (cfg : FsConfig) (xxhash : string → Z).
Context (content : string → list byte) (source : string → Z → list byte) (M : Z).
Context (HM : 0 ≤ M ≤ 2 ^ 50) (Hlimit : limit_of racfg ≤ 2 ^ 59) (Hbase : 0 < base_size racfg ≤ 2 ^ 50).
Context (Hfs : 0 ≤ FileSize wcfg ≤ 2 ^ 61) (Hsrc : ∀ h i, len (source h i) ≤ 2 ^ 60).
Context (Hnone : ∀ i, source "" i = []) (Hpool : 0 < c_poolSize cfg ≤ M).

Local Abbreviation world_ok := (world_ok racfg wcfg xxhash content source M).

(** The identity of a handle: its size is the file's, or less for a track of an
    image, and its hash, once known, leads to the content of its path. *)
Definition file_ok (f : Ident) : Prop :=
  0 ≤ i_fileID f ∧ (0 ≤ i_size f ≤ len (content (i_path f)) ∧ len (content (i_path f)) ≤ 2 ^ 60) ∧
  (i_hash f ≠ "" → content (i_path f) = source (i_hash f) (i_fileID f)) ∧
  (i_usesWarmup f = true → i_size f = len (content (i_path f))).

Definition job_ok (j : Job) : Prop :=
  match j with
  | Prefetch _ f start e => file_ok f ∧ 0 ≤ start ≤ 2 ^ 61 ∧ e < i_size f
  | LatePrefetch _ f start chunk => file_ok f ∧ 0 ≤ start ≤ 2 ^ 61 ∧ 0 < chunk ≤ 2 ^ 50
  | FillJob f off buf fills _ =>
      file_ok f ∧ 0 ≤ off ≤ 2 ^ 60 ∧ buf `prefix_of` drop (Z.to_nat off) (content (i_path f)) ∧
      len buf ≤ M ∧ (∀ c, c ∈ fills → 0 ≤ fl_n c ≤ len buf)
  | PumpJob f _ | SeekSignal f | ForceWarmup f => file_ok f
  end.

Definition fs_ok (fs : FsState) : Prop := world_ok (fs_world fs) ∧ Forall job_ok (fs_jobs fs).

(** What the torrents serve is the files. *)
Definition net_ok (net : Net) : Prop :=
  n_peek net "" = None ∧ ∀ h id, 0 ≤ id → net_serves (c_maxSize cfg) (source h id) h id net.

Lemma prefix_at_offset p off d :
  0 ≤ off → d `prefix_of` drop (Z.to_nat off) (content p) → at_offset content p off d.
Proof.
  intros Ho [k Hk] x Hx. replace (Z.to_nat (off + x)) with (Z.to_nat off + Z.to_nat x)%nat by lia.
  rewrite <-lookup_drop, Hk. symmetry. apply lookup_app_l. unfold len in Hx. lia.
Qed.

Lemma prefix_from_source f off d :
  0 ≤ off → content (i_path f) = source (i_hash f) (i_fileID f) →
  d `prefix_of` drop (Z.to_nat off) (content (i_path f)) →
  from_source source (i_hash f) (i_fileID f) off d.
Proof. intros Ho Hc Hd x Hx. rewrite <-Hc. symmetry. by apply (prefix_at_offset (i_path f)). Qed.

Lemma from_source_at_offset f off d :
  content (i_path f) = source (i_hash f) (i_fileID f) →
  from_source source (i_hash f) (i_fileID f) off d → at_offset content (i_path f) off d.
Proof. intros Hc Hd x Hx. rewrite Hc. symmetry. by apply Hd. Qed.

Lemma fs_chunk fs p : fs_ok fs → 0 < chunk_of racfg fs p ≤ 2 ^ 50.
Proof.
  intros [[Hra _] _]. apply (ra_reachable_ok racfg xxhash content M HM Hlimit Hbase) in Hra.
  pose proof (ro_chunk _ _ _ _ _ Hra p). unfold chunk_of. lia.
Qed.

Lemma fs_ok_same fs fs' :
  fs_world fs' = fs_world fs → fs_jobs fs' = fs_jobs fs → fs_ok fs → fs_ok fs'.
Proof. unfold fs_ok. by intros -> ->. Qed.

Lemma fs_ok_add_job fs j : job_ok j → fs_ok fs → fs_ok (add_job j fs).
Proof. intros Hj [Hw Hjs]. split; [done|]. simpl. apply list.Forall_app. split; [done|by constructor]. Qed.

Lemma fs_ok_world fs w : world_ok w → fs_ok fs → fs_ok (set_world w fs).
Proof. intros Hw [_ Hj]. by split. Qed.

Lemma world_put w p start d now resp :
  world_ok w → 0 ≤ start ≤ 2 ^ 61 → len d ≤ M → at_offset content p start d →
  world_ok (mkWorld (Ra_Put racfg xxhash p start (start + len d - 1) d now resp (w_ra w)).2 (w_warm w)).
Proof.
  intros [Hra Hw] Hs Hl Hd. split; [|done]. simpl. eapply RR_step; [exact Hra|]. by apply RA_put.
Qed.

(** *** The jobs *)

Lemma fetch_into_cache_ok now resp net f start e fs :
  net_ok net → file_ok f → 0 ≤ start ≤ e → e < i_size f → fs_ok fs →
  fs_ok (fetch_into_cache racfg cfg xxhash now resp net f start e fs).
Proof.
  intros [_ Hn] (Hid & Hsz & Hh & _) Hs He Hok. unfold fetch_into_cache.
  destruct (String.eqb (i_hash f) "") eqn:Eh; [done|]. apply String.eqb_neq in Eh. specialize (Hh Eh).
  go_simpl. set (limit := if e - start + 1 <? c_poolSize cfg then e - start + 1 else c_poolSize cfg).
  assert (Hl : 0 < limit ≤ c_poolSize cfg) by (unfold limit; case_if; lia). clearbody limit.
  destruct (FetchBlock (c_maxSize cfg) net (i_hash f) (i_fileID f) start limit) as [d err] eqn:Ef.
  destruct (FetchBlock_exact (c_maxSize cfg) (source (i_hash f) (i_fileID f)) (i_hash f) (i_fileID f)
    (Hsrc _ _) net start limit d err (Hn _ _ Hid)) as (Hd & Hdl & _); [rewrite <-Hh; lia|lia|done|].
  destruct (bool_decide (err = Nil) && (len d >? 0)) eqn:Eg; [|done]. bool_simpl.
  pose proof (prefix_len _ _ Hd) as Hle. rewrite len_file_from in Hle by lia. rewrite <-Hh in Hle.
  go_simpl. apply fs_ok_world; [|done]. apply world_put; [apply Hok|lia|lia|].
  apply prefix_at_offset; [lia|]. rewrite Hh. exact Hd.
Qed.

Lemma run_prefetch_ok now resp net key f start e fs :
  net_ok net → job_ok (Prefetch key f start e) → fs_ok fs →
  fs_ok (run_prefetch racfg cfg xxhash now resp net key f start e fs).
Proof.
  intros Hn (Hf & Hs & He) Hok. unfold run_prefetch. destruct (e <=? start) eqn:E; bool_simpl; [exact Hok|].
  eapply fs_ok_same; [..|apply (fetch_into_cache_ok now resp net f start e fs)]; try done; lia.
Qed.

Lemma run_late_prefetch_ok now resp rate net key f start chunk fs :
  net_ok net → job_ok (LatePrefetch key f start chunk) → fs_ok fs →
  fs_ok (run_late_prefetch racfg cfg xxhash now resp rate net key f start chunk fs).
Proof.
  intros Hn (Hf & Hs & Hc) Hok. unfold run_late_prefetch. pose proof Hf as (_ & Hsz & _). go_simpl.
  set (e := if start + chunk - 1 >=? i_size f then i_size f - 1 else start + chunk - 1).
  assert (He : e < i_size f) by (unfold e; case_if; lia). clearbody e.
  match goal with |- context [if ?b then fs else _] => destruct b eqn:E end; [exact Hok|].
  apply orb_false_iff in E as [[_ E]%orb_false_iff _]. bool_simpl.
  eapply fs_ok_same; [..|apply (fetch_into_cache_ok now resp net f start e fs)]; try done; lia.
Qed.

Lemma world_warm w d :
  world_ok w → warm_reachable wcfg source d → world_ok (mkWorld (w_ra w) (Some d)).
Proof. intros [Hra _] Hd. split; [done|]. by intros ? [= <-]. Qed.

Lemma writeWarmupFromFetch_ok io now f off d fs :
  file_ok f → 0 ≤ off → d `prefix_of` drop (Z.to_nat off) (content (i_path f)) → fs_ok fs →
  fs_ok (writeWarmupFromFetch wcfg io now f off d fs).
Proof.
  intros (Hid & Hsz & Hh & Hw) Ho Hd Hok. unfold writeWarmupFromFetch.
  destruct (w_warm (fs_world fs)) as [k|] eqn:Ew; [|done].
  destruct (negb (i_usesWarmup f) || String.eqb (i_hash f) "" || (len d =? 0)) eqn:E; [done|].
  apply orb_false_iff in E as [[Eu Eh]%orb_false_iff _]. bool_simpl. apply String.eqb_neq in Eh.
  specialize (Hh Eh). specialize (Hw Eu).
  pose proof (proj2 (proj1 Hok) k Ew) as Hk. pose proof (prefix_from_source f off d Ho Hh Hd) as Hfrom.
  case_if.
  - apply fs_ok_world; [|done]. apply world_warm; [apply Hok|]. eapply WR_step; [done|]. by apply W_chunk.
  - case_match; [done|]. case_match; [done|]. apply fs_ok_world; [|done]. apply world_warm; [apply Hok|].
    eapply WR_step; [done|]. rewrite Hw, Hh. by apply W_tail.
Qed.

Lemma releaseFlight_ok fl fs : fs_ok fs → fs_ok (releaseFlight fl fs).
Proof. unfold releaseFlight. destruct (bool_decide _); [|done]. by apply fs_ok_same. Qed.

Lemma run_fill_ok io now resp f off buf c flight fs :
  job_ok (FillJob f off buf [c] flight) → fs_ok fs →
  fs_ok (run_fill racfg wcfg xxhash io now resp f off buf c flight fs).
Proof.
  intros (Hf & Ho & Hb & Hl & Hc) Hok. specialize (Hc c ltac:(by left)). unfold run_fill.
  assert (Hd : take (Z.to_nat (fl_n c)) buf `prefix_of` drop (Z.to_nat off) (content (i_path f))).
  { etrans; [apply prefix_take|exact Hb]. }
  assert (Hdl : len (take (Z.to_nat (fl_n c)) buf) = fl_n c) by (rewrite len_take; lia).
  set (fs1 := cache_window racfg xxhash now resp f off (fl_n c) buf fs).
  assert (Hok1 : fs_ok fs1).
  { unfold fs1, cache_window. case_if; [|done]. go_simpl. apply fs_ok_world; [|done].
    rewrite <-Hdl at 1. apply world_put; [apply Hok|lia|lia|]. apply prefix_at_offset; [lia|done]. }
  clearbody fs1. destruct (fl_done c); [|done].
  assert (Hok2 : fs_ok (if fl_n c >? 0 then writeWarmupFromFetch wcfg io now f off (take (Z.to_nat (fl_n c)) buf) fs1
                        else fs1)).
  { case_if; [|done]. by apply writeWarmupFromFetch_ok; [|lia|..]. }
  destruct flight; [apply releaseFlight_ok|]; exact Hok2.
Qed.

(** *** Prefetches are spawned inside the file *)

Lemma warm_landing_ok f off fs :
  file_ok f → 0 ≤ off ≤ 2 ^ 60 → fs_ok fs → fs_ok (warm_landing racfg cfg f off fs).
Proof.
  intros Hf Ho Hok. pose proof (fs_chunk fs (i_path f) Hok) as Hc. unfold warm_landing.
  case_decide; [done|]. case_if; [|done]. set (chunk := chunk_of racfg fs (i_path f)) in *.
  destruct (quot_nonneg off chunk) as [Hq1 Hq2]; [lia|lia|].
  pose proof (quot_mul_le off chunk ltac:(lia) ltac:(lia)) as Hq3.
  rewrite (i64_id (Z.quot off chunk)) by (unfold in_i64; lia).
  rewrite (i64_id (Z.quot off chunk * chunk)) by (unfold in_i64; nia).
  set (start := Z.quot off chunk * chunk) in *. assert (0 ≤ start ≤ off) by (unfold start; nia).
  clearbody start. pose proof Hf as (_ & Hsz & _). go_simpl.
  apply fs_ok_add_job; [|exact Hok]. split; [done|]. split; [lia|]. case_if; lia.
Qed.

Lemma next_chunk_bounds off chunk :
  0 ≤ off ≤ 2 ^ 60 → 0 < chunk ≤ 2 ^ 50 →
  (off /! chunk +! 1) *! chunk = (Z.quot off chunk + 1) * chunk ∧
  0 ≤ (Z.quot off chunk + 1) * chunk ≤ off + chunk.
Proof.
  intros Ho Hc. destruct (quot_nonneg off chunk) as [Hq1 Hq2]; [lia|lia|].
  pose proof (quot_mul_le off chunk ltac:(lia) ltac:(lia)) as Hq3.
  rewrite (i64_id (Z.quot off chunk)) by (unfold in_i64; lia).
  rewrite (i64_id (Z.quot off chunk + 1)) by (unfold in_i64; lia).
  rewrite i64_id by (unfold in_i64; nia). split; [done|nia].
Qed.

Lemma predictive_prefetch_ok f b off fs :
  file_ok f → 0 ≤ off ≤ 2 ^ 60 → fs_ok fs → fs_ok (predictive_prefetch racfg cfg xxhash f b off fs).
Proof.
  intros Hf Ho Hok. pose proof (fs_chunk fs (i_path f) Hok) as Hc. unfold predictive_prefetch.
  set (chunk := chunk_of racfg fs (i_path f)) in *.
  destruct (next_chunk_bounds off chunk Ho Hc) as [-> Hn].
  set (next := (Z.quot off chunk + 1) * chunk) in *. clearbody next.
  case_match; [|done]. case_decide; [done|]. pose proof Hf as (_ & Hsz & _). go_simpl.
  set (e := if next + chunk - 1 >=? i_size f then i_size f - 1 else next + chunk - 1).
  assert (He : e < i_size f) by (unfold e; case_if; lia). clearbody e.
  case_if; [done|]. case_if; [|done]. apply fs_ok_add_job; [|exact Hok]. split; [done|]. split; [lia|done].
Qed.

Lemma lagging_prefetch_ok f b1 b2 off fs :
  file_ok f → 0 ≤ off ≤ 2 ^ 60 → fs_ok fs → fs_ok (lagging_prefetch racfg xxhash f b1 b2 off fs).
Proof.
  intros Hf Ho Hok. pose proof (fs_chunk fs (i_path f) Hok) as Hc. unfold lagging_prefetch.
  set (chunk := chunk_of racfg fs (i_path f)) in *.
  destruct (next_chunk_bounds off chunk Ho Hc) as [-> Hn].
  case_match; [|done]. case_decide; [done|]. apply fs_ok_add_job; [|exact Hok].
  split; [done|]. split; [lia|done].
Qed.

(** *** A read keeps the state exact and returns bytes of the file *)

Section one_read.
Context (f0 : Ident) (e : Env) (i : nat) (dlen off : Z).
Context (Hoff : 0 ≤ off < i_size f0) (Hdlen : 0 < dlen ≤ 2 ^ 60).

Definition same_file (f : Ident) : Prop :=
  i_path f = i_path f0 ∧ i_size f = i_size f0 ∧ i_usesWarmup f = i_usesWarmup f0.

Definition rs_ok (s : RS) : Prop :=
  fs_ok (rs_fs s) ∧ file_ok (rh_id (rs_h s)) ∧ same_file (rh_id (rs_h s)).

Definition res_ok (r : ReadResult) : Prop :=
  match r with Data d => at_offset content (i_path f0) off d ∧ len d ≤ dlen | Errno _ => True end.

(** The rely: other goroutines keep the caches exact and leave exact jobs. *)
Definition env_ok : Prop :=
  (∀ k fs, fs_ok fs → fs_ok (e_interfere e k fs)) ∧
  net_ok (e_tailNet e) ∧ (∀ k, net_ok (e_nets e k)) ∧
  (∀ h id, e_resolve e = Some (h, id) → 0 ≤ id ∧ (h ≠ "" → content (i_path f0) = source h id)).

Context (Henv : env_ok).

Definition safe {A} (m : RS → out A) (Q : A → Prop) : Prop :=
  ∀ s, rs_ok s →
    match m s with
    | Panic => False
    | Done r s' => rs_ok s' ∧ res_ok r
    | Next a s' => rs_ok s' ∧ Q a
    end.

Definition any {A} (a : A) : Prop := True.
Definition never {A} (a : A) : Prop := False.

Lemma safe_ret {A} (a : A) (Q : A → Prop) : Q a → safe (ret a) Q.
Proof. intros Ha s Hs. by split. Qed.

Lemma safe_bind {A B} (m : RS → out A) (k : A → RS → out B) Q R :
  safe m Q → (∀ a, Q a → safe (k a) R) → safe (bind m k) R.
Proof.
  intros Hm Hk s Hs. unfold bind. specialize (Hm s Hs). destruct (m s) as [r s'|a s'|]; [done| |done].
  destruct Hm as [Hs' Ha]. by apply Hk.
Qed.

Lemma safe_get {B} (k : RS → RS → out B) R :
  (∀ s, rs_ok s → safe (k s) R) → safe (bind get k) R.
Proof. intros Hk s Hs. unfold bind, get. by apply Hk. Qed.

Lemma safe_finish {A} r (Q : A → Prop) : res_ok r → safe (finish r) Q.
Proof. intros Hr s Hs. by split. Qed.

Lemma safe_put_fs g (Q : unit → Prop) : (∀ fs, fs_ok fs → fs_ok (g fs)) → Q () → safe (put_fs g) Q.
Proof. intros Hg Hq s (Hf & Hh). split; [|done]. split; [by apply Hg|done]. Qed.

Lemma safe_put_h g (Q : unit → Prop) :
  (∀ h, file_ok (rh_id h) → same_file (rh_id h) → file_ok (rh_id (g h)) ∧ same_file (rh_id (g h))) →
  Q () → safe (put_h g) Q.
Proof. intros Hg Hq s (Hf & Hh & Hsm). split; [|done]. split; [done|]. by apply Hg. Qed.

Lemma safe_when b m : (b = true → safe m any) → safe (when b m) any.
Proof. intros Hm. unfold when. destruct b; [by apply Hm|by apply safe_ret]. Qed.

Lemma safe_weaken {A} m (Q R : A → Prop) : safe m Q → (∀ a, Q a → R a) → safe m R.
Proof. intros Hm HQR s Hs. specialize (Hm s Hs). destruct (m s); [done| |done]. destruct Hm; auto. Qed.

(** One rule per step of the code; what is left are the facts about the data. *)
Ltac read_step :=
  match goal with
  | |- safe (bind get _) _ => apply safe_get; intros ? ?
  | |- safe (bind _ _) _ => apply (safe_bind _ _ any); [|intros ? _]
  | |- safe (ret _) _ => apply safe_ret; exact I
  | |- safe (finish (Errno _)) _ => apply safe_finish; exact I
  | |- safe (when _ _) _ => apply safe_when; intros ?
  | |- safe (put_h _) _ => apply safe_put_h; [by intros ? ? ?|exact I]
  | |- safe (put_fs _) _ => apply safe_put_fs; [intros ? ?; try done|exact I]
  end.
Ltac read_steps := repeat read_step.

Lemma served_safe d : at_offset content (i_path f0) off d → len d ≤ dlen → safe (served e d) any.
Proof. intros Hd Hl. unfold served. read_steps. by apply safe_finish. Qed.

Lemma late_resolution_safe : safe (late_resolution e i) any.
Proof.
  unfold late_resolution. read_steps. destruct (e_resolve e) as [[h id]|] eqn:Er; [|by read_steps].
  destruct Henv as (_ & _ & _ & Hres). destruct (Hres h id Er) as [Hid Hh].
  read_step.
  { apply safe_put_h; [|exact I]. intros x (Hx1 & Hx2 & Hx3 & Hx4) (Hs1 & Hs2 & Hs3).
    split; [|by split_and!]. split_and!; simpl; try done; try apply Hx2. rewrite Hs1. exact Hh. }
  read_steps. apply fs_ok_add_job; [|done].
  match goal with H : rs_ok ?s |- job_ok (PumpJob (rh_id (rs_h ?s)) _) => apply H end.
Qed.

Lemma note_activity_safe : safe (note_activity cfg e i off) any.
Proof. unfold note_activity. read_steps. Qed.

Lemma move_offset_safe : safe (move_offset racfg cfg e i dlen off) any.
Proof. unfold move_offset. read_steps. Qed.

(** What a step knows of the file when it starts. *)
Lemma rs_ok_file s :
  rs_ok s →
  let f := rh_id (rs_h s) in
  fs_ok (rs_fs s) ∧ file_ok f ∧ i_path f = i_path f0 ∧ 0 ≤ off < i_size f ∧ off < len (content (i_path f)) ∧
  off ≤ 2 ^ 60.
Proof.
  intros (Hfs' & Hf & H1 & H2 & H3). pose proof Hf as (_ & Hsz & _). split_and!; try done; try lia.
Qed.

Lemma warm_transition_safe prev : safe (warm_transition racfg wcfg cfg off prev) any.
Proof.
  unfold warm_transition. read_steps.
  match goal with H : rs_ok _ |- _ => apply rs_ok_file in H as (_ & ? & _ & ? & _ & ?) end.
  apply warm_landing_ok; [done|lia|done].
Qed.

Lemma seek_interrupt_safe prev : safe (seek_interrupt racfg cfg e i off prev) any.
Proof.
  unfold seek_interrupt. read_steps.
  - apply fs_ok_add_job; [|done]. match goal with H : rs_ok _ |- _ => apply H end.
  - match goal with H : rs_ok _ |- _ => apply rs_ok_file in H as (_ & ? & _ & ? & _ & ?) end.
    apply warm_landing_ok; [done|lia|done].
Qed.

Lemma serve_head_safe : safe (serve_head wcfg e i dlen off) any.
Proof.
  unfold serve_head. apply safe_get. intros s Hs. pose proof (rs_ok_file s Hs) as (Hfs' & Hf & Hp & Ho & Hlt & Hs60).
  destruct (w_warm (fs_world (rs_fs s))) as [d|] eqn:Ew; [|read_steps].
  read_step. bool_simpl.
  match goal with H : String.eqb _ _ = false |- _ => apply String.eqb_neq in H; rename H into Hh end.
  pose proof Hf as (Hid & _ & Hcs & _). specialize (Hcs Hh).
  pose proof (proj2 (proj1 Hfs') d Ew) as Hd.
  set (f := rh_id (rs_h s)) in *.
  pose proof (WR_step _ _ _ _ Hd (W_avail wcfg source d (e_io e 0) (e_now e) (i_hash f) (i_fileID f) Hid)) as Hd1.
  destruct (GetAvailableRange wcfg (e_io e 0) (e_now e) (i_hash f) (i_fileID f) d) as [cov d1]. simpl in Hd1.
  destruct (off <? cov).
  2:{ read_steps. apply fs_ok_world; [|done]. apply world_warm; [apply Hfs'|done]. }
  pose proof (WR_step _ _ _ _ Hd1 (W_read wcfg source d1 (e_io e 1) (e_now e) (i_hash f) (i_fileID f) dlen off Hid ltac:(lia))) as Hd2.
  assert (Hsrc61 : ∀ h i, len (source h i) ≤ 2 ^ 61) by (intros; etrans; [apply Hsrc|lia]).
  pose proof (warm_reachable_winv wcfg source Hfs Hsrc61 d1 Hd1) as Hw1.
  destruct (ReadAt wcfg (e_io e 1) (e_now e) (i_hash f) (i_fileID f) dlen off d1) as [[got err] d2] eqn:Er.
  simpl in Hd2. eapply ReadAt_spec in Er as (_ & Hgot & Hgl); [|done || lia..].
  read_steps; [apply fs_ok_world; [|done]; apply world_warm; [apply Hfs'|done]|].
  apply served_safe; [|lia]. rewrite <-Hp. by apply from_source_at_offset.
Qed.

(** Without a hash there is no tail to read. *)
Lemma ReadTail_nohash io now id blen o fsz d :
  0 ≤ id → warm_reachable wcfg source d → ReadTail io now "" id blen o fsz d = ([], RNil, d).
Proof.
  intros Hid Hd. assert (Hsrc61 : ∀ h i, len (source h i) ≤ 2 ^ 61) by (intros; etrans; [apply Hsrc|lia]).
  pose proof (warm_reachable_winv wcfg source Hfs Hsrc61 d Hd) as [Hi _].
  unfold ReadTail. case_if; [done|]. cbv zeta.
  destruct (tailCoverage d !! tailPath "" id) as [tr|] eqn:Et; [|done].
  pose proof (wi_wf _ _ _ _ _ Hi _ _ Et) as Hwf.
  match goal with |- context [tr_covers tr ?a ?b] => destruct (tr_covers tr a b) eqn:Ec end; [|done].
  apply tr_covers_spec in Ec as [Hlt Hcov]; [|done].
  match type of Hlt with ?a < _ =>
    destruct (wi_tail _ _ _ _ _ Hi "" id tr a Hid Et (Hcov a ltac:(lia))) as (x & _ & Hx & Hl) end.
  rewrite Hnone, lookup_nil in Hl. apply lookup_ge_None in Hl. unfold len in Hx. lia.
Qed.

Lemma ReadTail_reads f d io now got err d' :
  file_ok f → i_usesWarmup f = true → off ≤ 2 ^ 60 → warm_reachable wcfg source d →
  ReadTail io now (i_hash f) (i_fileID f) dlen off (i_size f) d = (got, err, d') →
  warm_reachable wcfg source d' ∧ at_offset content (i_path f) off got ∧ len got ≤ dlen.
Proof.
  intros (Hid & Hsz & Hcs & Hw) Hu Ho Hd Er.
  destruct (decide (i_hash f = "")) as [Hh|Hh].
  { rewrite Hh, ReadTail_nohash in Er by done. injection Er as <- <- <-. split; [done|].
    split; [|unfold len; simpl; lia]. intros x Hx. unfold len in Hx. simpl in Hx. lia. }
  specialize (Hcs Hh). rewrite (Hw Hu), Hcs in Er.
  assert (Hsrc61 : ∀ h i, len (source h i) ≤ 2 ^ 61) by (intros; etrans; [apply Hsrc|lia]).
  pose proof (WR_step _ _ _ _ Hd (W_readtail wcfg source d io now (i_hash f) (i_fileID f) dlen off Hid
    ltac:(lia) ltac:(lia))) as Hd2. rewrite Er in Hd2. split; [exact Hd2|].
  pose proof (warm_reachable_winv wcfg source Hfs Hsrc61 d Hd) as Hw1.
  eapply ReadTail_spec in Er as (_ & Hgot & Hgl & _); [|done || lia..].
  split; [by apply from_source_at_offset|lia].
Qed.

Lemma FetchBlock_reads net f got err :
  net_ok net → file_ok f → off < len (content (i_path f)) →
  FetchBlock (c_maxSize cfg) net (i_hash f) (i_fileID f) off dlen = (got, err) → err = Nil →
  i_hash f ≠ "" ∧ got `prefix_of` drop (Z.to_nat off) (content (i_path f)) ∧ len got ≤ dlen.
Proof.
  intros [Hno Hn] (Hid & Hsz & Hcs & _) Ho Er ->.
  destruct (decide (i_hash f = "")) as [Hh|Hh]; [by rewrite Hh in Er; unfold FetchBlock in Er; rewrite Hno in Er|].
  specialize (Hcs Hh). rewrite Hcs in *.
  destruct (FetchBlock_exact (c_maxSize cfg) (source (i_hash f) (i_fileID f)) (i_hash f) (i_fileID f)
    (Hsrc _ _) net off dlen got Nil (Hn _ _ Hid)) as (Hd & Hdl & _); [lia|lia|done|]. done.
Qed.

Lemma serve_tail_safe : safe (serve_tail cfg e dlen off) any.
Proof.
  unfold serve_tail. apply safe_get. intros s Hs. pose proof (rs_ok_file s Hs) as (Hfs' & Hf & Hp & Ho & Hlt & Hs60).
  destruct (w_warm (fs_world (rs_fs s))) as [d|] eqn:Ew; [|read_steps].
  read_step. bool_simpl. set (f := rh_id (rs_h s)) in *.
  destruct (ReadTail (e_io e 2) (e_now e) (i_hash f) (i_fileID f) dlen off (i_size f) d) as [[got err] d1] eqn:Er.
  destruct (ReadTail_reads f d _ _ _ _ _ Hf ltac:(done) Hs60 (proj2 (proj1 Hfs') d Ew) Er) as (Hd1 & Hgot & Hgl).
  read_step; [read_steps; apply fs_ok_world; [|done]; apply world_warm; [apply Hfs'|done]|].
  read_step; [read_steps; apply served_safe; [by rewrite <-Hp|done]|].
  destruct (FetchBlock (c_maxSize cfg) (e_tailNet e) (i_hash f) (i_fileID f) off dlen) as [g er] eqn:Ef.
  read_step; [read_steps; by apply Henv|].
  read_step. bool_simpl.
  match goal with H : bool_decide _ = true |- _ => apply bool_decide_eq_true in H; rename H into Her end.
  destruct (FetchBlock_reads _ f g er (proj1 (proj2 Henv)) Hf Hlt Ef Her) as (Hh & Hg & Hgl').
  pose proof Hf as (Hid & Hsz & Hcs & Hw). specialize (Hcs Hh).
  read_step.
  - read_steps. apply fs_ok_world; [|done].
    match goal with H : fs_ok ?x |- _ => destruct H as [[Hra Hwm] _] end. split; [done|].
    simpl. intros k (k0 & Hk0 & ->)%fmap_Some. eapply WR_step; [by apply (Hwm k0)|].
    rewrite (Hw ltac:(done)), Hcs. apply W_tail; [done|lia|]. apply prefix_from_source; [lia|done|done].
  - apply served_safe; [|done]. rewrite <-Hp. apply prefix_at_offset; [lia|done].
Qed.

Lemma copy_cached_safe :
  safe (copy_cached racfg xxhash e dlen off) (λ d, at_offset content (i_path f0) off d ∧ len d ≤ dlen).
Proof.
  intros s Hs. pose proof (rs_ok_file s Hs) as (Hfs' & Hf & Hp & Ho & Hlt & Hs60). unfold copy_cached.
  go_simpl. set (f := rh_id (rs_h s)) in *.
  destruct Hfs' as [[Hra Hwm] Hj].
  pose proof (ra_reachable_ok racfg xxhash content M HM Hlimit Hbase _ Hra) as Hok.
  destruct (CopyTo_content racfg xxhash content M (w_ra (fs_world (rs_fs s))) (i_path f) off (off + dlen - 1) dlen
    (e_now e) Hok) as (d & c & E & Hl & Hd); [lia|lia|lia|]. rewrite E. split.
  - split; [|by destruct Hs as (_ & ? & ?)]. split; [|done]. split; [|done]. simpl.
    eapply RR_step; [exact Hra|by eapply RA_copy].
  - split; [by rewrite <-Hp|]. destruct Hl as [->|Hl]; [unfold len; simpl; lia|lia].
Qed.

Lemma serve_cached_safe : safe (serve_cached racfg xxhash e i dlen off) any.
Proof.
  unfold serve_cached. eapply safe_bind; [apply copy_cached_safe|]. intros d [Hd Hl]. read_steps.
  by apply served_safe.
Qed.

Lemma serve_cache_hit_safe : safe (serve_cache_hit racfg cfg xxhash e i dlen off) any.
Proof.
  unfold serve_cache_hit. eapply safe_bind; [apply copy_cached_safe|]. intros d [Hd Hl]. read_steps.
  - match goal with H : rs_ok _ |- _ => apply rs_ok_file in H as (_ & ? & _ & ? & _ & ?) end.
    apply predictive_prefetch_ok; [done|lia|done].
  - by apply served_safe.
Qed.

Lemma plan_fetch_safe b : safe (plan_fetch racfg cfg e i dlen off b) any.
Proof. unfold plan_fetch. read_steps. Qed.

Lemma find_pump_safe b : safe (find_pump cfg e off b) any.
Proof.
  unfold find_pump. read_steps. case_match; read_steps. apply fs_ok_add_job; [|done].
  match goal with H : rs_ok _ |- _ => apply H end.
Qed.

Lemma rate_limit_safe b : safe (rate_limit e b) any.
Proof. unfold rate_limit. read_steps; [case_match; read_steps|]. by apply Henv. Qed.

Lemma holding_safe {A} (m : RS → out A) Q : safe m Q → safe (holding e m) Q.
Proof.
  intros Hm s Hs. unfold holding. destruct (rh_hasSlot (rs_h s)); [by apply Hm|].
  destruct (e_wait e); [|by split..].
  assert (Hs' : rs_ok (mkRS (set_slots (fs_slots (rs_fs s) + 1) (rs_fs s)) (rs_h s))) by exact Hs.
  specialize (Hm _ Hs'). destruct (m _) as [r s'|a s'|]; [..|done]; destruct Hm as [Hs2 Hr]; by split.
Qed.

Lemma follow_safe polls k : safe (follow racfg xxhash e i dlen off k polls) any.
Proof.
  revert k. induction polls as [|p polls IH]; intros k; cbn [follow];
    (read_step; [apply serve_cached_safe|]).
  - read_step; [read_steps; by apply Henv|apply serve_cached_safe].
  - destruct p; read_steps; [by apply Henv|apply IH].
Qed.

Lemma join_flight_safe : safe (join_flight racfg xxhash e i dlen off) any.
Proof.
  unfold join_flight. read_steps. case_match; [read_steps|]. case_decide; read_steps. apply follow_safe.
Qed.

Lemma release_flight_safe fl : safe (release_flight fl) any.
Proof. unfold release_flight. destruct fl; read_steps. by apply releaseFlight_ok. Qed.

Lemma FetchAhead_reads net f limit :
  net_ok net → file_ok f → off < len (content (i_path f)) → limit ≤ M →
  ∃ got err fs buf, FetchAhead (c_maxSize cfg) net (i_hash f) (i_fileID f) off limit dlen = Some (got, err, fs, buf) ∧
    got `prefix_of` drop (Z.to_nat off) (content (i_path f)) ∧ len got ≤ dlen ∧
    buf `prefix_of` drop (Z.to_nat off) (content (i_path f)) ∧ len buf ≤ M ∧
    (∀ c, c ∈ fs → 0 ≤ fl_n c ≤ len buf).
Proof.
  intros [Hno Hn] (Hid & Hsz & Hcs & _) Ho Hl.
  assert (Htriv : ∀ er fl0, fl_n fl0 = 0 →
    FetchAhead (c_maxSize cfg) net (i_hash f) (i_fileID f) off limit dlen = Some ([], er, [fl0], []) →
    ∃ got err fs buf, FetchAhead (c_maxSize cfg) net (i_hash f) (i_fileID f) off limit dlen = Some (got, err, fs, buf) ∧
      got `prefix_of` drop (Z.to_nat off) (content (i_path f)) ∧ len got ≤ dlen ∧
      buf `prefix_of` drop (Z.to_nat off) (content (i_path f)) ∧ len buf ≤ M ∧
      (∀ c, c ∈ fs → 0 ≤ fl_n c ≤ len buf)).
  { intros er fl0 H0 E. eexists _, _, _, _. split; [exact E|]. split; [apply prefix_nil|].
    split; [unfold len; simpl; lia|]. split; [apply prefix_nil|]. split; [unfold len; simpl; lia|].
    intros c ->%list_elem_of_singleton. unfold len. simpl. lia. }
  destruct (decide (0 < limit)) as [Hpos|Hneg].
  2:{ eapply Htriv; [|unfold FetchAhead; destruct (dlen >? limit) eqn:E; [|lia];
                       by rewrite (proj2 (Z.leb_le limit 0)) by lia]. done. }
  destruct (decide (i_hash f = "")) as [Hh|Hh].
  { eapply Htriv; [|unfold FetchAhead; rewrite Hh, Hno; set (h := if dlen >? limit then limit else dlen);
                     assert (0 < h) by (unfold h; case_if; lia); by rewrite (proj2 (Z.leb_gt h 0)) by lia]. done. }
  specialize (Hcs Hh). rewrite Hcs in *.
  destruct (FetchAhead_exact (c_maxSize cfg) (source (i_hash f) (i_fileID f)) (i_hash f) (i_fileID f)
      (Hsrc _ _) net off limit dlen (Hn _ _ Hid)) as (got & err & fs & buf & E & H1 & H2 & H3 & H4 & H5 & _);
      [lia|lia|lia|]. exists got, err, fs, buf. split; [done|]. split; [by etrans|]. split_and!; try done; [lia|].
  intros c Hc. by eapply fills_ok_bound.
Qed.

Lemma attempts_safe todo k b size fl : safe (attempts racfg cfg xxhash e i dlen off todo k b size fl) never.
Proof.
  revert k. induction todo as [|todo IH]; intros k; cbn [attempts].
  { read_steps. apply release_flight_safe. }
  apply safe_get. intros s Hs. pose proof (rs_ok_file s Hs) as (Hfs' & Hf & Hp & Ho & Hlt & Hs60).
  set (f := rh_id (rs_h s)) in *. set (limit := if size >? c_poolSize cfg then c_poolSize cfg else size).
  destruct (FetchAhead_reads (e_nets e k) f limit (proj1 (proj2 (proj2 Henv)) k) Hf Hlt)
    as (got & err & fs & buf & -> & Hg & Hgl & Hb & Hbl & Hfills); [unfold limit; case_if; lia|].
  read_step; [read_steps; by apply Henv|].
  read_step; [read_steps; apply fs_ok_add_job; [|done]; split_and!; try done; lia|].
  case_match.
  - read_steps; [apply lagging_prefetch_ok; [done|lia|done]|]. apply safe_finish. split; [|done].
    rewrite <-Hp. apply prefix_at_offset; [lia|done].
  - case_match; [read_steps; apply release_flight_safe|apply IH].
Qed.

Lemma fetch_safe b1 b2 size fl : safe (fetch racfg wcfg cfg xxhash e i dlen off b1 b2 size fl) never.
Proof.
  unfold fetch. read_steps. case_match; [read_steps|]. read_step; [|apply attempts_safe].
  read_steps. apply fs_ok_add_job; [|done]. match goal with H : rs_ok _ |- _ => apply H end.
Qed.
End one_read.

Lemma readInner_safe f0 e i dlen off s :
  0 ≤ off → 0 < dlen ≤ 2 ^ 60 → env_ok f0 e → rs_ok f0 s →
  match readInner racfg wcfg cfg xxhash e i dlen off s with
  | Done r s' => rs_ok f0 s' ∧ res_ok f0 dlen off r ∧ (i_size f0 ≤ off → r = Data [])
  | Next _ _ | Panic => False
  end.
Proof.
  intros Ho Hd He Hs. unfold readInner. unfold bind at 1, get at 1.
  assert (Hsz : i_size (rh_id (rs_h s)) = i_size f0) by (by destruct Hs as (_ & _ & _ & ? & _)).
  rewrite Hsz. destruct (off >=? i_size f0) eqn:E.
  { simpl. split; [done|]. split; [|done]. split; [|unfold len; simpl; lia].
    intros x Hx. unfold len in Hx. simpl in Hx. lia. }
  match goal with |- context [match ?m s with _ => _ end] =>
    assert (Hsafe : safe f0 dlen off m never) end.
  2:{ specialize (Hsafe s Hs). match goal with |- context [match ?m s with _ => _ end] => destruct (m s) as [r s'|a s'|] end.
      - destruct Hsafe as [H1 H2]. split_and!; try done. lia.
      - by destruct Hsafe.
      - done. }
  assert (Hoff : 0 ≤ off < i_size f0) by lia.
  eapply safe_bind; [by apply late_resolution_safe|intros _ _].
  eapply safe_bind; [by apply note_activity_safe|intros isFirst _].
  eapply safe_bind; [by apply move_offset_safe|intros prev _].
  eapply safe_bind; [by apply warm_transition_safe|intros _ _].
  eapply safe_bind; [by apply seek_interrupt_safe|intros _ _].
  eapply safe_bind; [by apply serve_head_safe|intros _ _].
  eapply safe_bind; [by apply serve_tail_safe|intros _ _].
  eapply safe_bind; [by apply serve_cache_hit_safe|intros _ _].
  eapply safe_bind; [by apply plan_fetch_safe|intros [isStreaming size] _].
  eapply safe_bind; [by apply find_pump_safe|intros _ _].
  apply holding_safe.
  eapply safe_bind; [by apply rate_limit_safe|intros _ _].
  eapply safe_bind; [by apply serve_cached_safe|intros _ _].
  eapply safe_bind; [by apply join_flight_safe|intros flight _].
  by apply fetch_safe.
Qed.

(** *** [Read] *)

Definition data_ok (f0 : Ident) (dlen off : Z) (r : ReadResult) : Prop :=
  match r with
  | Errno _ => True
  | Data d =>
      at_offset content (i_path f0) off d ∧ (i_size f0 ≤ off → d = []) ∧
      (off < i_size f0 →
         Z.min dlen (i_size f0 - off) ≤ len d ≤ Z.min dlen (len (content (i_path f0)) - off))
  end.

Lemma at_offset_fits p off d :
  0 ≤ off → at_offset content p off d → 0 < len d → off + len d ≤ len (content p).
Proof.
  intros Ho Hd Hl. specialize (Hd (len d - 1) ltac:(lia)).
  assert (Hs : is_Some (d !! Z.to_nat (len d - 1))) by (apply lookup_lt_is_Some; unfold len in *; lia).
  rewrite Hd in Hs. apply lookup_lt_is_Some in Hs. unfold len in *. lia.
Qed.

Lemma not_short_data_ok f0 dlen off d :
  0 ≤ off → 0 < dlen ≤ 2 ^ 60 → file_ok f0 → off < i_size f0 →
  at_offset content (i_path f0) off d → len d ≤ dlen → shortAwayFromEOF (len d) dlen off (i_size f0) = false →
  data_ok f0 dlen off (Data d).
Proof.
  intros Ho Hd (_ & Hsz & _) Hlt Hat Hl Hsh. split; [done|]. split; [lia|]. intros _.
  pose proof (len_nonneg d). unfold shortAwayFromEOF in Hsh.
  rewrite i64_id in Hsh by (unfold in_i64; lia).
  apply andb_false_iff in Hsh as [Hsh|Hsh]; bool_simpl; pose proof (at_offset_fits (i_path f0) off d Ho Hat); lia.
Qed.

Lemma refill_safe f0 envs checks i dlen off todo k d s :
  0 ≤ off < i_size f0 → 0 < dlen ≤ 2 ^ 60 → (∀ k, env_ok f0 (envs k)) → file_ok f0 → rs_ok f0 s →
  at_offset content (i_path f0) off d → len d ≤ dlen →
  ∃ r s', refill racfg wcfg cfg xxhash todo k envs checks i dlen off d s = Some (r, s') ∧
    rs_ok f0 s' ∧ data_ok f0 dlen off r.
Proof.
  intros Ho Hd He Hf. revert k d s. induction todo as [|todo IH]; intros k d s Hs Hat Hl; cbn [refill];
    (assert (Hsz : i_size (rh_id (rs_h s)) = i_size f0) by (by destruct Hs as (_ & _ & _ & ? & _)));
    rewrite Hsz.
  all: assert (Hcon : ∀ s', rs_ok f0 s' → ∃ r s'', (if shortAwayFromEOF (len d) dlen off (i_size f0)
      then Some (Errno EIO, s') else Some (Data d, s')) = Some (r, s'') ∧ rs_ok f0 s'' ∧ data_ok f0 dlen off r).
  1, 3: intros s' Hs'; case_match; (eexists _, _; split; [reflexivity|]); (split; [done|]); [done|];
        by apply not_short_data_ok; [lia|..|lia|done|done|done].
  { by apply Hcon. }
  destruct (shortAwayFromEOF (len d) dlen off (i_size f0)) eqn:Esh; [|by apply Hcon].
  destruct (checks k); [|by eexists _, _|by apply Hcon].
  unfold shortAwayFromEOF in Esh. bool_simpl. pose proof (len_nonneg d) as Hd0.
  pose proof Hf as (_ & Hszc & _). go_simpl.
  pose proof (readInner_safe f0 (envs k) i (dlen - len d) (off + len d) s ltac:(lia) ltac:(lia) (He k) Hs) as Hr.
  destruct (readInner _ _ _ _ _ _ _ _ _) as [r s'|a s'|]; [|done|done].
  destruct Hr as (Hs' & Hres & _). destruct r as [m|er]; [|by apply Hcon].
  destruct (len m =? 0); [by apply Hcon|]. destruct Hres as [Hm Hml].
  apply IH; [done|by apply at_offset_app|rewrite len_app; lia].
Qed.

Lemma Read_safe f0 envs checks i dlen off s :
  0 ≤ off ≤ 2 ^ 62 → 0 < dlen ≤ 2 ^ 60 → (∀ k, env_ok f0 (envs k)) → file_ok f0 → rs_ok f0 s →
  ∃ r s', Read racfg wcfg cfg xxhash envs checks i dlen off s = Some (r, s') ∧
    rs_ok f0 s' ∧ data_ok f0 dlen off r.
Proof.
  intros Ho Hd He Hf Hs. unfold Read.
  pose proof (readInner_safe f0 (envs 0%nat) i dlen off s ltac:(lia) Hd (He 0%nat) Hs) as Hr.
  destruct (readInner _ _ _ _ _ _ _ _ _) as [r s'|a s'|]; [|done|done].
  destruct Hr as (Hs' & Hres & Heof). destruct r as [d|er]; [|by eexists _, _].
  assert (Hsz : i_size (rh_id (rs_h s')) = i_size f0) by (by destruct Hs' as (_ & _ & _ & ? & _)).
  destruct Hres as [Hat Hl]. rewrite Hsz. destruct (decide (i_size f0 ≤ off)) as [Hge|Hlt].
  - specialize (Heof Hge). injection Heof as ->. unfold shortAwayFromEOF. change (len (@nil byte)) with 0.
    rewrite Z.add_0_r. go_simpl. rewrite (proj2 (Z.ltb_ge off _)), andb_false_r by lia.
    eexists _, _. split; [done|]. split; [done|]. split; [done|]. split; [done|lia].
  - destruct (shortAwayFromEOF (len d) dlen off (i_size f0)) eqn:Esh.
    + apply refill_safe; try done. lia.
    + eexists _, _. split; [done|]. split; [done|]. apply not_short_data_ok; try done; lia.
Qed.

(** *** Everything interleaved *)

(** The steps of the process as far as the caches see them: a read, a job left by
    an earlier one, a turn of the pump, and the caches' own maintenance. *)
Inductive fs_step : FsState → FsState → Prop :=
  | FS_read fs h envs checks i dlen off r s' :
      file_ok (rh_id h) → (∀ k, env_ok (rh_id h) (envs k)) → 0 ≤ off ≤ 2 ^ 62 → 0 < dlen ≤ 2 ^ 60 →
      Read racfg wcfg cfg xxhash envs checks i dlen off (mkRS fs h) = Some (r, s') → fs_step fs (rs_fs s')
  | FS_prefetch fs now resp net key f start e js1 js2 :
      fs_jobs fs = (js1 ++ Prefetch key f start e :: js2)%list → net_ok net →
      fs_step fs (run_prefetch racfg cfg xxhash now resp net key f start e (set_jobs (js1 ++ js2)%list fs))
  | FS_late fs now resp rate net key f start chunk js1 js2 :
      fs_jobs fs = (js1 ++ LatePrefetch key f start chunk :: js2)%list → net_ok net →
      fs_step fs (run_late_prefetch racfg cfg xxhash now resp rate net key f start chunk
                    (set_jobs (js1 ++ js2)%list fs))
  | FS_fill fs io now resp f off buf c fills flight js1 js2 :
      fs_jobs fs = (js1 ++ FillJob f off buf (c :: fills) flight :: js2)%list →
      fs_step fs (run_fill racfg wcfg xxhash io now resp f off buf c flight
                    (set_jobs (js1 ++ FillJob f off buf fills flight :: js2)%list fs))
  | FS_pump fs io now resp hasT rd h offset playerOff out w' :
      let chunk := ChunkSize racfg (p_path h) (w_ra (fs_world fs)) in
      0 ≤ p_fileID h → content (p_path h) = source (p_hash h) (p_fileID h) →
      p_size h = len (content (p_path h)) → chunk ≤ M →
      0 ≤ offset ≤ 2 ^ 60 → offset mod chunk = 0 → 0 ≤ playerOff ≤ 2 ^ 60 →
      (∀ n off, 0 ≤ n → 0 ≤ off → len (rd n off).1 ≤ n ∧ at_offset content (p_path h) off (rd n off).1) →
      nativePumpChunk racfg wcfg xxhash io now resp hasT rd h offset chunk playerOff (fs_world fs) = Some (out, w') →
      fs_step fs (set_world w' fs)
  | FS_cache fs c :
      ra_step racfg xxhash content M (w_ra (fs_world fs)) c →
      fs_step fs (set_world (mkWorld c (w_warm (fs_world fs))) fs)
  | FS_warm fs d d' :
      w_warm (fs_world fs) = Some d → warm_step wcfg source d d' →
      fs_step fs (set_world (mkWorld (w_ra (fs_world fs)) (Some d')) fs)
  | FS_drop fs js1 j js2 :
      fs_jobs fs = (js1 ++ j :: js2)%list → fs_step fs (set_jobs (js1 ++ js2)%list fs).

(** A fresh process: empty read-ahead cache, a warm-up cache just opened. *)
Definition fs_start (fs : FsState) : Prop :=
  w_ra (fs_world fs) = newReadAheadCache ∧ fs_jobs fs = [] ∧
  ∀ d, w_warm (fs_world fs) = Some d → warm_reachable wcfg source d.

Lemma fs_ok_set_jobs fs js : Forall job_ok js → fs_ok fs → fs_ok (set_jobs js fs).
Proof. intros Hj [Hw _]. by split. Qed.

Lemma fs_jobs_split fs js1 j js2 :
  fs_jobs fs = (js1 ++ j :: js2)%list → fs_ok fs → job_ok j ∧ Forall job_ok (js1 ++ js2)%list.
Proof.
  intros E [_ Hj]. rewrite E in Hj. apply list.Forall_app in Hj as [H1 H2]. inversion H2; subst.
  split; [done|]. by apply list.Forall_app.
Qed.

Lemma fs_step_ok fs fs' : fs_step fs fs' → fs_ok fs → fs_ok fs'.
Proof.
  intros Hs Hok. destruct Hs as
    [fs h envs checks i dlen off r s' Hf He Ho Hd Hr
    |fs now resp net key f start e js1 js2 Hj Hn
    |fs now resp rate net key f start chunk js1 js2 Hj Hn
    |fs io now resp f off buf c fills flight js1 js2 Hj
    |fs io now resp hasT rd h offset playerOff out w' chunk Hid Hcs Hsz HcM Ho Hal Hpl Hrd Hp
    |fs c Hc|fs d d' Hd Hdd|fs js1 j js2 Hj].
  - destruct (Read_safe (rh_id h) envs checks i dlen off (mkRS fs h)) as (r' & s2 & E & Hs2 & _);
      try done. rewrite E in Hr. injection Hr as -> ->. apply Hs2.
  - destruct (fs_jobs_split _ _ _ _ Hj Hok) as [Hjob Hjs]. apply run_prefetch_ok; try done. by apply fs_ok_set_jobs.
  - destruct (fs_jobs_split _ _ _ _ Hj Hok) as [Hjob Hjs]. apply run_late_prefetch_ok; try done. by apply fs_ok_set_jobs.
  - destruct (fs_jobs_split _ _ _ _ Hj Hok) as [(H1 & H2 & H3 & H4 & H5) Hjs].
    apply run_fill_ok.
    + split_and!; try done; try apply H2. intros x ->%list_elem_of_singleton. apply H5. by left.
    + apply fs_ok_set_jobs; [|done]. apply list.Forall_app in Hjs as [? ?].
      apply list.Forall_app. split; [done|]. constructor; [|done].
      split_and!; try done; try apply H2. intros x Hx. apply H5. by right.
  - apply fs_ok_world; [|done].
    destruct (pump_turn_ok racfg wcfg xxhash content source M HM Hlimit Hbase) with
      (io := io) (now := now) (resp := resp) (hasT := hasT) (ReadAt := rd) (h := h) (offset := offset)
      (playerOff := playerOff) (wd := fs_world fs) as (o & w2 & E & Hw & _); try done.
    + apply Hok.
    + rewrite Hsz, Hcs. apply Hsrc.
    + fold chunk in E. rewrite E in Hp. by injection Hp as -> ->.
  - apply fs_ok_world; [|done]. destruct Hok as [[Hra Hw] _]. split; [|done]. by eapply RR_step.
  - apply fs_ok_world; [|done]. apply world_warm; [apply Hok|]. eapply WR_step; [|done].
    by apply (proj2 (proj1 Hok)).
  - destruct (fs_jobs_split _ _ _ _ Hj Hok) as [_ Hjs]. by apply fs_ok_set_jobs.
Qed.

Lemma fs_reachable_ok fs0 fs : fs_start fs0 → rtc fs_step fs0 fs → fs_ok fs.
Proof.
  intros (Hra & Hj & Hw) Hr.
  assert (H0 : fs_ok fs0).
  { split; [split|]; [rewrite Hra; constructor|done|rewrite Hj; constructor]. }
  revert H0. clear -Hr HM Hlimit Hbase Hfs Hsrc Hnone Hpool. induction Hr as [|x y z Hxy _ IH]; [done|].
  intros H0. by apply IH, (fs_step_ok x).
Qed.

(** *** A torrent that delivers is read *)

Section delivered.
Context (f0 : Ident) (e : Env) (i : nat) (dlen off : Z).
Context (Hoff : 0 ≤ off < i_size f0) (Hdlen : 0 < dlen ≤ c_poolSize cfg) (Hhash : i_hash f0 ≠ "").
Context (Hra : dlen ≤ ReadAheadBase racfg ≤ 2 ^ 60) (Hinit : dlen ≤ c_raInitial cfg ≤ 2 ^ 60).
Context (Henv : env_ok f0 e).

Definition all_of_it : Z := Z.min dlen (i_size f0 - off).

(** The handle is past its warm-up, its hash is known, nothing is cancelled, the
    tail reads of the disk do not fail, and the torrent delivers. *)
Definition env_delivers : Prop :=
  e_wait e = Acquired ∧ e_rate e = true ∧ Forall (λ p, p = Tick) (e_polls e) ∧ read_fail (e_io e 2) = None ∧
  delivers (content (i_path f0)) (i_hash f0) (i_fileID f0) (e_tailNet e) ∧
  ∀ k, delivers (content (i_path f0)) (i_hash f0) (i_fileID f0) (e_nets e k).

Context (Hdel : env_delivers).

Definition streaming_handle (h : ReadHandle) : Prop := rh_id h = f0 ∧ rh_warmup h = false.

Definition full (r : ReadResult) : Prop :=
  match r with Data d => all_of_it ≤ len d | Errno _ => False end.

Definition live {A} (m : RS → out A) (Q : A → Prop) : Prop :=
  ∀ s, rs_ok f0 s → streaming_handle (rs_h s) →
    match m s with
    | Panic => False
    | Done r _ => full r
    | Next a s' => rs_ok f0 s' ∧ streaming_handle (rs_h s') ∧ Q a
    end.

(** A step that does not answer and leaves the handle streaming. *)
Definition frames {A} (m : RS → out A) : Prop :=
  ∀ s, streaming_handle (rs_h s) →
    match m s with Next _ s' => streaming_handle (rs_h s') | Done _ _ => False | Panic => True end.

Lemma live_frames {A} (m : RS → out A) (Q : A → Prop) : safe f0 dlen off m Q → frames m → live m Q.
Proof.
  intros Hs Hf s Hrs Hh. specialize (Hs s Hrs). specialize (Hf s Hh).
  destruct (m s) as [r s'|a s'|]; [done| |done]. by destruct Hs.
Qed.

Lemma live_bind {A B} (m : RS → out A) (k : A → RS → out B) Q R :
  live m Q → (∀ a, Q a → live (k a) R) → live (bind m k) R.
Proof.
  intros Hm Hk s Hs Hh. unfold bind. specialize (Hm s Hs Hh).
  destruct (m s) as [r s'|a s'|]; [done| |done]. destruct Hm as (H1 & H2 & H3). by apply Hk.
Qed.

Lemma frames_bind {A B} (m : RS → out A) (k : A → RS → out B) :
  frames m → (∀ a, frames (k a)) → frames (bind m k).
Proof.
  intros Hm Hk s Hh. unfold bind. specialize (Hm s Hh). destruct (m s); [done|by apply Hk|done].
Qed.

Lemma frames_get {B} (k : RS → RS → out B) :
  (∀ s, streaming_handle (rs_h s) → frames (k s)) → frames (bind get k).
Proof. intros Hk s Hh. by apply Hk. Qed.

Lemma frames_put_h g : (∀ h, streaming_handle h → streaming_handle (g h)) → frames (put_h g).
Proof. intros Hg s Hh. by apply Hg. Qed.

Lemma frames_when b m : frames m → frames (when b m).
Proof. intros Hm. unfold when. destruct b; [done|]. by intros s Hh. Qed.

Ltac frame_step :=
  match goal with
  | |- frames (bind get _) => apply frames_get; intros ? ?
  | |- frames (bind _ _) => apply frames_bind; [|intros ?]
  | |- frames (put_h _) => apply frames_put_h; intros ? [? ?]; by split
  | |- frames (put_fs _) => intros ? ?; assumption
  | |- frames (ret _) => intros ? ?; assumption
  | |- frames (when _ _) => apply frames_when
  end.
Ltac frame_steps := repeat frame_step.

Lemma Hdlen60 : 0 < dlen ≤ 2 ^ 60.
Proof. lia. Qed.

Lemma late_resolution_frames : frames (late_resolution e i).
Proof.
  unfold late_resolution. apply frames_get. intros s [-> _].
  rewrite (proj2 (String.eqb_neq _ _) Hhash). simpl. frame_steps.
Qed.

Lemma warm_transition_frames prev : frames (warm_transition racfg wcfg cfg off prev).
Proof. unfold warm_transition. frame_steps. Qed.

Lemma seek_interrupt_frames prev : frames (seek_interrupt racfg cfg e i off prev).
Proof. unfold seek_interrupt. frame_steps. Qed.

Lemma serve_head_frames : frames (serve_head wcfg e i dlen off).
Proof.
  unfold serve_head. apply frames_get. intros s [_ Hw]. case_match; [|frame_steps].
  rewrite Hw, andb_false_r. simpl. frame_steps.
Qed.

Lemma plan_fetch_live b :
  live (plan_fetch racfg cfg e i dlen off b) (λ p, Z.min dlen (i_size f0 - off) ≤ p.2).
Proof.
  intros s Hs [Hid Hw]. unfold plan_fetch, bind, get, put_h, put_fs, ret. simpl.
  split; [exact Hs|]. split; [by split|].
  destruct Hs as (_ & (_ & Hsz & _) & _). rewrite Hid in *.
  destruct (_ || _) in |- *; [|lia].
  set (ra := if b then c_raInitial cfg else ReadAheadBase racfg).
  assert (Hra' : dlen ≤ ra ≤ 2 ^ 60) by (unfold ra; destruct b; lia). clearbody ra.
  go_simpl. case_if; go_simpl; lia.
Qed.

Lemma find_pump_frames b : frames (find_pump cfg e off b).
Proof. unfold find_pump. frame_steps. case_match; frame_steps. Qed.

Lemma live_get {B} (k : RS → RS → out B) R :
  (∀ s, rs_ok f0 s → streaming_handle (rs_h s) → live (k s) R) → live (bind get k) R.
Proof. intros Hk s Hs Hh. by apply Hk. Qed.

Lemma live_when b m : (b = true → live m any) → live (when b m) any.
Proof. intros Hm. unfold when. destruct b; [by apply Hm|]. by intros s Hs Hh. Qed.

Lemma live_put_fs g (Q : unit → Prop) : (∀ fs, fs_ok fs → fs_ok (g fs)) → Q () → live (put_fs g) Q.
Proof. intros Hg Hq. apply live_frames; [by apply safe_put_fs|frame_steps]. Qed.

Lemma served_live d : all_of_it ≤ len d → live (served e d) any.
Proof. intros Hd s Hs Hh. exact Hd. Qed.

Lemma all_of_it_pos s : rs_ok f0 s → streaming_handle (rs_h s) → 0 < all_of_it ∧ file_ok f0 ∧ off < len (content (i_path f0)).
Proof.
  intros (_ & Hf & _) [Hid _]. rewrite Hid in Hf. split; [unfold all_of_it; lia|]. split; [done|].
  destruct Hf as (_ & Hsz & _). lia.
Qed.

Lemma serve_tail_live : live (serve_tail cfg e dlen off) any.
Proof.
  destruct Hdel as (_ & _ & _ & Hrf & Hdt & _). unfold serve_tail. apply live_get. intros s Hs Hh.
  pose proof (all_of_it_pos s Hs Hh) as (Hpos & Hf & Hlt). destruct Hh as [Hid _]. rewrite Hid.
  destruct Hs as (Hfs' & _ & _).
  destruct (w_warm (fs_world (rs_fs s))) as [d|] eqn:Ew; [|by intros ? ? ?].
  apply live_when. intros Hb. bool_simpl. pose proof Hf as (Hfid & Hsz & Hcs & Hw). specialize (Hcs Hhash).
  destruct (ReadTail (e_io e 2) (e_now e) (i_hash f0) (i_fileID f0) dlen off (i_size f0) d) as [[got err] d1] eqn:Er.
  pose proof (proj2 (proj1 Hfs') d Ew) as Hd.
  destruct (ReadTail_reads f0 dlen off Hoff Hdlen60 f0 d _ _ _ _ _ Hf ltac:(done) ltac:(lia) Hd Er) as (Hd1 & _ & _).
  assert (Hall : got = [] ∨ len got = all_of_it).
  { rewrite (Hw ltac:(done)), Hcs in Er.
    assert (Hsrc61 : ∀ h i, len (source h i) ≤ 2 ^ 61) by (intros; etrans; [apply Hsrc|lia]).
    pose proof (warm_reachable_winv wcfg source Hfs Hsrc61 d Hd) as Hw1.
    eapply ReadTail_spec in Er as (_ & _ & _ & _ & Hor); [|done || lia..].
    destruct (Hor Hrf) as [->|Hl]; [by left|right]. unfold all_of_it. rewrite (Hw ltac:(done)), Hcs. exact Hl. }
  eapply (live_bind _ _ any); [|intros _ _].
  { apply live_put_fs; [|exact I]. intros fs Hok. apply fs_ok_world; [|done]. apply world_warm; [apply Hfs'|done]. }
  eapply (live_bind _ _ any); [|intros _ _].
  { apply live_when. intros Hl. apply served_live. destruct Hall as [->|Hl']; [done|lia]. }
  destruct (FetchBlock (c_maxSize cfg) (e_tailNet e) (i_hash f0) (i_fileID f0) off dlen) as [g er] eqn:Ef.
  destruct Henv as (Hint & [_ Htn] & _). rewrite Hcs in Hdt.
  destruct (FetchBlock_exact (c_maxSize cfg) (source (i_hash f0) (i_fileID f0)) (i_hash f0) (i_fileID f0)
    (Hsrc _ _) (e_tailNet e) off dlen g er (Htn _ _ Hfid)) as (Hg & Hgl & Hfull); [rewrite <-Hcs; lia|lia|done|].
  destruct (Hfull Hdt) as [-> Hlen].
  eapply (live_bind _ _ any); [apply live_put_fs; [by apply Hint|exact I]|intros _ _].
  apply live_when. intros _. eapply (live_bind _ _ any); [|intros _ _].
  - apply live_put_fs; [|exact I]. intros fs Hok. apply fs_ok_world; [|done].
    destruct Hok as [[Hra' Hwm] _]. split; [done|].
    simpl. intros k (k0 & Hk0 & ->)%fmap_Some. eapply WR_step; [by apply (Hwm k0)|].
    rewrite (Hw ltac:(done)), Hcs. apply W_tail; [done|lia|]. apply prefix_from_source; [lia|done|]. by rewrite Hcs.
  - apply served_live. unfold all_of_it. rewrite Hlen, (Hw ltac:(done)), Hcs. lia.
Qed.

Lemma copy_cached_live :
  live (copy_cached racfg xxhash e dlen off) (λ d, d = [] ∨ len d = dlen).
Proof.
  intros s Hs Hh. pose proof (copy_cached_safe f0 e dlen off Hoff Hdlen60 s Hs) as Hsafe.
  pose proof (all_of_it_pos s Hs Hh) as (_ & Hf & Hlt). pose proof Hf as (_ & Hsz & _).
  unfold copy_cached in *. rewrite (proj1 Hh) in *. rewrite (i64_id (off + dlen)) in * by (unfold in_i64; lia).
  rewrite (i64_id (off + dlen - 1)) in * by (unfold in_i64; lia).
  destruct Hs as ([[Hra' _] _] & _ & _).
  pose proof (ra_reachable_ok racfg xxhash content M HM Hlimit Hbase _ Hra') as Hok.
  destruct (CopyTo_content racfg xxhash content M (w_ra (fs_world (rs_fs s))) (i_path f0) off (off + dlen - 1) dlen
    (e_now e) Hok) as (d & c & E & Hl & Hd); [lia|lia|lia|]. rewrite E in *. destruct Hsafe as [Hs' _].
  split; [done|]. split; [done|]. destruct Hl as [->|Hl]; [by left|right; lia].
Qed.

Lemma serve_cached_live : live (serve_cached racfg xxhash e i dlen off) any.
Proof.
  unfold serve_cached. eapply live_bind; [apply copy_cached_live|]. intros d Hd. apply live_when. intros Hl.
  eapply (live_bind _ _ any); [by apply live_put_fs|intros _ _]. apply served_live.
  destruct Hd as [->|Hd]; [done|]. unfold all_of_it. lia.
Qed.

Lemma serve_cache_hit_live : live (serve_cache_hit racfg cfg xxhash e i dlen off) any.
Proof.
  unfold serve_cache_hit. eapply live_bind; [apply copy_cached_live|]. intros d Hd. apply live_when. intros Hl.
  eapply (live_bind _ _ any); [by apply live_put_fs|intros _ _]. apply live_get. intros s Hs Hh.
  pose proof (all_of_it_pos s Hs Hh) as (_ & Hf & Hlt). pose proof Hf as (_ & Hsz & _).
  eapply (live_bind _ _ any); [|intros _ _].
  - apply live_put_fs; [|exact I]. intros fs Hok. rewrite (proj1 Hh). apply predictive_prefetch_ok; [done|lia|done].
  - apply served_live. destruct Hd as [->|Hd]; [done|]. unfold all_of_it. lia.
Qed.

Lemma rate_limit_live b : live (rate_limit e b) any.
Proof.
  destruct Hdel as (_ & Hr & _). unfold rate_limit. rewrite Hr, orb_true_r.
  eapply (live_bind _ _ any); [by intros ? ? ?|intros _ _]. apply live_put_fs; [by apply Henv|exact I].
Qed.

Lemma holding_live {A} (m : RS → out A) (Q : A → Prop) : live m Q → live (holding e m) Q.
Proof.
  destruct Hdel as (Hw & _). intros Hm s Hs Hh. unfold holding. rewrite Hw.
  destruct (rh_hasSlot (rs_h s)); [by apply Hm|].
  assert (Hs' : rs_ok f0 (mkRS (set_slots (fs_slots (rs_fs s) + 1) (rs_fs s)) (rs_h s))) by exact Hs.
  specialize (Hm _ Hs' Hh). by destruct (m _) as [r s'|a s'|].
Qed.

Lemma follow_live polls k : Forall (λ p, p = Tick) polls → live (follow racfg xxhash e i dlen off k polls) any.
Proof.
  intros Hp. revert k. induction Hp as [|p polls -> _ IH]; intros k; cbn [follow];
    (eapply (live_bind _ _ any); [apply serve_cached_live|intros _ _]);
    (eapply (live_bind _ _ any); [apply live_put_fs; [by apply Henv|exact I]|intros _ _]);
    [apply serve_cached_live|apply IH].
Qed.

Lemma join_flight_live : live (join_flight racfg xxhash e i dlen off) any.
Proof.
  unfold join_flight. apply live_get. intros s Hs Hh. case_match; [by intros ? ? ?|]. case_decide.
  - eapply (live_bind _ _ any); [by apply follow_live, Hdel|intros _ _]. by intros ? ? ?.
  - eapply (live_bind _ _ any); [by apply live_put_fs|intros _ _]. by intros ? ? ?.
Qed.

Lemma fetch_live b1 b2 size fl : Z.min dlen (i_size f0 - off) ≤ size →
  live (fetch racfg wcfg cfg xxhash e i dlen off b1 b2 size fl) never.
Proof.
  intros Hsize. unfold fetch. apply live_get. intros s Hs Hh.
  pose proof (all_of_it_pos s Hs Hh) as (Hpos & Hf & Hlt). rewrite (proj1 Hh).
  rewrite (proj2 (String.eqb_neq _ _) Hhash).
  eapply (live_bind _ _ any); [apply live_when; intros _; apply live_put_fs; [|exact I];
    intros fs Hok; by apply fs_ok_add_job|intros _ _].
  cbn [attempts]. apply live_get. intros s1 Hs1 Hh1. rewrite (proj1 Hh1).
  set (limit := if size >? c_poolSize cfg then c_poolSize cfg else size).
  assert (Hlim : Z.min dlen (i_size f0 - off) ≤ limit ≤ c_poolSize cfg) by (unfold limit; case_if; lia).
  clearbody limit. pose proof Hf as (Hfid & Hsz & Hcs & _). specialize (Hcs Hhash).
  destruct Henv as (Hint & _ & Hnet & _). destruct (Hnet 0%nat) as [_ Hn].
  destruct Hdel as (_ & _ & _ & _ & _ & Hdn). specialize (Hdn 0%nat). rewrite Hcs in Hdn.
  assert (Hlim0 : 0 < limit) by lia.
  destruct (FetchAhead_exact (c_maxSize cfg) (source (i_hash f0) (i_fileID f0)) (i_hash f0) (i_fileID f0)
    (Hsrc _ _) (e_nets e 0%nat) off limit dlen (Hn _ _ Hfid)) as (got & err & fs & buf & E & H1 & H2 & H3 & H4 & H5 & H6);
    [rewrite <-Hcs; lia|lia|lia|]. rewrite E. destruct (H6 Hdn) as (-> & Hgl & _). rewrite <-Hcs in Hgl.
  eapply (live_bind _ _ any); [apply live_put_fs; [by apply Hint|exact I]|intros _ _].
  eapply (live_bind _ _ any); [|intros _ _].
  { apply live_put_fs; [|exact I]. intros fs' Hok. apply fs_ok_add_job; [|done].
    split; [done|]. split; [lia|]. split; [by rewrite Hcs|]. split; [lia|].
    intros c Hc. by eapply fills_ok_bound. }
  destruct (len got >? 0) eqn:El; [|lia]. simpl. intros s2 Hs2 Hh2. simpl. unfold all_of_it. lia.
Qed.
End delivered.

Lemma readInner_live f0 e i dlen off s :
  0 ≤ off < i_size f0 → 0 < dlen ≤ c_poolSize cfg → i_hash f0 ≠ "" →
  dlen ≤ ReadAheadBase racfg ≤ 2 ^ 60 → dlen ≤ c_raInitial cfg ≤ 2 ^ 60 →
  env_ok f0 e → env_delivers f0 e → rs_ok f0 s → streaming_handle f0 (rs_h s) →
  match readInner racfg wcfg cfg xxhash e i dlen off s with
  | Done r _ => full f0 dlen off r
  | Next _ _ | Panic => False
  end.
Proof.
  intros Ho Hd Hh Hra Hin He Hdl Hs Hst. unfold readInner. unfold bind at 1, get at 1. rewrite (proj1 Hst).
  destruct (off >=? i_size f0) eqn:E; [lia|].
  assert (Hd60 : 0 < dlen ≤ 2 ^ 60) by lia.
  match goal with |- context [match ?m s with _ => _ end] => assert (Hlive : live f0 dlen off m never) end.
  2:{ specialize (Hlive s Hs Hst).
      match goal with |- context [match ?m s with _ => _ end] => destruct (m s) as [r s'|a s'|] end;
        [done|by destruct Hlive as (_ & _ & [])|done]. }
  eapply live_bind; [apply live_frames; [by apply late_resolution_safe|by apply late_resolution_frames]|intros _ _].
  eapply live_bind; [apply live_frames; [by apply note_activity_safe|]|intros isFirst _].
  { unfold note_activity. intros s1 [H1 H2]. simpl. by split. }
  eapply live_bind; [apply live_frames; [by apply move_offset_safe|]|intros prev _].
  { unfold move_offset. intros s1 [H1 H2]. simpl. by split. }
  eapply live_bind; [apply live_frames; [by apply warm_transition_safe|apply warm_transition_frames]|intros _ _].
  eapply live_bind; [apply live_frames; [by apply seek_interrupt_safe|apply seek_interrupt_frames]|intros _ _].
  eapply live_bind; [apply live_frames; [by apply serve_head_safe|apply serve_head_frames]|intros _ _].
  eapply live_bind; [by apply serve_tail_live|intros _ _].
  eapply live_bind; [by apply serve_cache_hit_live|intros _ _].
  eapply live_bind; [by apply plan_fetch_live|intros [isStreaming size] Hsize].
  eapply live_bind; [apply live_frames; [by apply find_pump_safe|apply find_pump_frames]|intros _ _].
  apply (holding_live _ e); [done|].
  eapply live_bind; [by eapply rate_limit_live|intros _ _].
  eapply live_bind; [by apply serve_cached_live|intros _ _].
  eapply live_bind; [by eapply join_flight_live|intros flight _].
  by apply fetch_live.
Qed.



End correct.

(** [isSeq] compares the offset with the position after it was overwritten by
    this same read: the answer does not depend on where the last read was. *)
Lemma plan_ignores_position `{GoRuntime} racfg cfg e i dlen off b s h :
  fs_handles (rs_fs s) !! i = Some h → in_i64 off → 0 ≤ off → 0 ≤ rh_lastLen (rs_h s) ≤ 2 ^ 40 → off ≤ 2 ^ 60 →
  ∃ n s', plan_fetch racfg cfg e i dlen off b
            (mkRS (update_handle i (set_lastOff off) (rs_fs s)) (rs_h s)) =
    Next ((dlen >=? c_streamThreshold cfg) ||
          (rh_lastLen (rs_h s) =? 0) || (rh_lastLen (rs_h s) <=? c_seqTolerance cfg), n) s'.
Proof.
  intros Hh Hi Ho Hl Hs. unfold plan_fetch, bind, get, put_h, put_fs, ret. simpl.
  eexists _, _. do 2 f_equal. unfold lastOff_of. simpl. rewrite lookup_alter_eq, Hh. simpl.
  go_simpl. rewrite <-orb_assoc. f_equal. rewrite (proj2 (Z.geb_le _ _)) by lia. simpl.
  replace (off - (off + rh_lastLen (rs_h s))) with (- rh_lastLen (rs_h s)) by lia.
  rewrite Z.abs_opp, Z.abs_eq by lia. f_equal.
  destruct (decide (rh_lastLen (rs_h s) = 0)) as [->|Hne]; [by rewrite Z.add_0_r, !Z.eqb_refl|].
  rewrite !(proj2 (Z.eqb_neq _ _)) by lia. done.
Qed.

(** ** Instances: a file of six bytes behind one torrent *)

Definition rd_content (p : string) : list byte := if String.eqb p "m" then demo_file else [].
Definition rd_source (h : string) (id : Z) : list byte := if String.eqb h "ab" && (id =? 1) then demo_file else [].
Definition rd_net : Net := mkNet (λ h, if String.eqb h "ab" then Some demo_view else None) 100 None.
Definition rd_cfg : FsConfig := mkFsConfig 10 4 1000 4 4 2 0.
Definition rd_ident : Ident := mkIdent "m" "ab" 1 6 true.
Definition rd_handle : ReadHandle := mkReadHandle rd_ident "" 0 0 0 0 false false false.
Definition rd_env : Env :=
  mkEnv 100 (λ _, io_fine) false None Acquired true [Tick] rd_net (λ _, rd_net) (λ _, false) (λ _ fs, fs).
(** The read-ahead cache already holds the first four bytes. *)
Definition rd_ra : ReadAheadCache := (Ra_Put demo_ra_cfg demo_hash "m" 0 3 (take 4 demo_file) 1 false newReadAheadCache).2.
Definition rd_start : FsState := mkFs (mkWorld newReadAheadCache None) ∅ ∅ ∅ ∅ [] 0 ∅ [].
Definition rd_fs : FsState := set_world (mkWorld rd_ra None) rd_start.

Lemma rd_content_check off d :
  0 ≤ off → d = take (length d) (drop (Z.to_nat off) demo_file) → at_offset rd_content "m" off d.
Proof.
  intros Ho Hd x Hx. rewrite Hd at 1. rewrite lookup_take_lt, lookup_drop by (unfold len in Hx; lia).
  f_equal. lia.
Qed.

Lemma rd_start_ok : fs_start demo_cfg rd_source rd_start.
Proof. by split_and!. Qed.

Lemma rd_source_small h id : len (rd_source h id) ≤ 2 ^ 60.
Proof. unfold rd_source. case_match; vm_compute; discriminate. Qed.

Lemma rd_net_ok : net_ok rd_cfg rd_source rd_net.
Proof.
  split; [done|]. intros h id Hid t. simpl. destruct (String.eqb h "ab") eqn:Eh; [|done].
  intros [= <-]. split; [done|]. unfold rd_source. rewrite Eh. intros c.
  destruct (decide (id = 1)) as [->|Hne]; [vm_compute; by intros [= <-]|].
  assert (Hno : find_stat id (tv_stats demo_view) = None).
  { unfold find_stat. change (omap Datatypes.id (tv_stats demo_view)) with [(1, "m")].
    by rewrite filter_cons_False by (simpl; congruence). }
  by rewrite Hno.
Qed.

Lemma rd_env_ok : env_ok demo_ra_cfg demo_cfg rd_cfg demo_hash rd_content rd_source 4 rd_ident rd_env.
Proof. split_and!; [done|exact rd_net_ok|intros k; exact rd_net_ok|done]. Qed.

Lemma rd_file_ok : file_ok rd_content rd_source rd_ident.
Proof. split_and!; try done; vm_compute; discriminate. Qed.

Lemma rd_reachable :
  rtc (fs_step demo_ra_cfg demo_cfg rd_cfg demo_hash rd_content rd_source 4) rd_start rd_fs.
Proof.
  apply rtc_once. apply (FS_cache _ _ _ _ _ _ _ rd_start). simpl.
  apply (RA_put _ _ _ _ newReadAheadCache "m" 0 3);
    [lia|vm_compute; discriminate|done|apply rd_content_check; [lia|reflexivity]].
Qed.


Lemma rd_env_delivers : env_delivers rd_content rd_ident rd_env.
Proof.
  assert (Hd : delivers demo_file "ab" 1 rd_net) by (exists demo_view; split_and!; try done; simpl; lia).
  split; [done|]. split; [done|]. split; [by repeat constructor|]. split; [done|]. split; [exact Hd|intros k; exact Hd].
Qed.


Definition rd_cue : cueHandle := mkCue [Byte.xff; Byte.xfe] 1 5.

