(* ===== verification/PumpLife.v ===== *)
(** * The life of pumps and handles (main.go, internal/opentracker)

    A path has at most one registered pump; the handles opened on the path share
    it and count themselves in its [refCount].  A pump is started by [Open] or,
    when the hash is resolved late, by a goroutine of a read, or on the fly by a
    read; it ends by itself (end of file, idle), by a webhook, by an unlink, by the
    clean-up of a dead session, or when a grace period after the last release is
    over.  It holds one token of [masterDataSemaphore], as does a start in
    progress, a temporary reader and a prefetch.

    [startNativePump] is four sections (the check, the look-up under the lock, the
    token, the creation under the lock); the end of a pump is two; a timer is
    armed, fires and then runs.  Every other operation is one step.  The playback
    registry changes at any time. *)

From Stdlib Require Import String.
From S2P Require Import Prelude GoStrings TailRange Warmup RaCache Pump Native FuseRead.
Local Open Scope string_scope.
Local Open Scope Z_scope.
Local Open Scope go_scope.

(** ** Open counts ([OpenTracker]) *)

Record OpenTracker := mkTracker { byHash : gmap string Z; byPath : gmap string Z }.

Definition NewTracker : OpenTracker := mkTracker ∅ ∅.

Definition count_of (k : string) (m : gmap string Z) : Z := default 0 (m !! k).

Definition bump (k : string) (m : gmap string Z) : gmap string Z :=
  if String.eqb k "" then m else <[k := i32 (count_of k m + 1)]> m.

Definition unbump (k : string) (m : gmap string Z) : gmap string Z :=
  if String.eqb k "" then m
  else if count_of k m <=? 1 then delete k m else <[k := i32 (count_of k m - 1)]> m.

Definition Inc (hash path : string) (t : OpenTracker) : OpenTracker :=
  mkTracker (bump hash (byHash t)) (bump path (byPath t)).
Definition Dec (hash path : string) (t : OpenTracker) : OpenTracker :=
  mkTracker (unbump hash (byHash t)) (unbump path (byPath t)).
Definition CountByHash (hash : string) (t : OpenTracker) : Z := count_of hash (byHash t).
Definition CountByPath (path : string) (t : OpenTracker) : Z := count_of path (byPath t).
Definition IsHashOpen (hash : string) (t : OpenTracker) : bool := CountByHash hash t >? 0.
Definition IsPathOpen (path : string) (t : OpenTracker) : bool := CountByPath path t >? 0.

(** ** State *)

Inductive phase := Running | Unregistered | Ended.

#[export] Instance phase_eq_dec : EqDecision phase.
Proof. solve_decision. Defined.

(** [NativePumpState], with the goroutine that runs it. *)
Record SharedPump := mkShared {
  sp_path : string;
  sp_creator : nat;
  sp_refs : Z;
  sp_playerOff : Z;
  sp_cancelled : bool;
  sp_phase : phase
}.

(** Where a handle is in [startNativePump]: it passed the checks, it found no
    pump, it holds a token. *)
Inductive start_pc := Checked | Missed | Holding.

#[export] Instance start_pc_eq_dec : EqDecision start_pc.
Proof. solve_decision. Defined.

Record LiveHandle := mkLive {
  lv_h : MkvHandle;
  lv_active : bool;            (* in activeHandles *)
  lv_kernel : bool;            (* the kernel holds it *)
  lv_released : bool;          (* the kernel gave it back *)
  lv_hasSlot : bool;
  lv_pump : option nat;        (* pumpState *)
  lv_start : option start_pc;
  lv_once : bool;              (* pumpOnce has run *)
  lv_reader : bool;            (* nativeReader != nil *)
  lv_hasWarmup : bool
}.

Record Timer := mkTimer { tm_grace : bool; tm_path : string; tm_delay : Z }.

Record Life := mkLife {
  l_handles : gmap nat LiveHandle;
  l_pumps : gmap nat SharedPump;
  l_next : nat;                              (* the next pump *)
  l_reg : gmap string nat;                   (* activePumps *)
  l_sem : Z;                                 (* tokens in masterDataSemaphore *)
  l_temps : Z;                               (* of them, held by reads and prefetches *)
  l_tracker : OpenTracker;
  l_play : gmap string (string * PlaybackState);   (* playbackRegistry, with the hash *)
  l_pending : gmap nat Timer;                (* armed timers *)
  l_fired : gmap nat Timer;                  (* fired, callback to run *)
  l_nextTimer : nat;
  l_pumpTimers : gmap string nat;
  l_priorityTimers : gmap string nat;
  l_priority : gset string                   (* hashes with IsPriority *)
}.

Definition life_init : Life := mkLife ∅ ∅ 0 ∅ 0 0 NewTracker ∅ ∅ ∅ 0 ∅ ∅ ∅.

Definition with_handles (x : gmap nat LiveHandle) (s : Life) : Life :=
  mkLife x (l_pumps s) (l_next s) (l_reg s) (l_sem s) (l_temps s) (l_tracker s) (l_play s) (l_pending s) (l_fired s)
         (l_nextTimer s) (l_pumpTimers s) (l_priorityTimers s) (l_priority s).
Definition with_pumps (x : gmap nat SharedPump) (s : Life) : Life :=
  mkLife (l_handles s) x (l_next s) (l_reg s) (l_sem s) (l_temps s) (l_tracker s) (l_play s) (l_pending s) (l_fired s)
         (l_nextTimer s) (l_pumpTimers s) (l_priorityTimers s) (l_priority s).
Definition with_reg (x : gmap string nat) (s : Life) : Life :=
  mkLife (l_handles s) (l_pumps s) (l_next s) x (l_sem s) (l_temps s) (l_tracker s) (l_play s) (l_pending s) (l_fired s)
         (l_nextTimer s) (l_pumpTimers s) (l_priorityTimers s) (l_priority s).
Definition with_tokens (sem temps : Z) (s : Life) : Life :=
  mkLife (l_handles s) (l_pumps s) (l_next s) (l_reg s) sem temps (l_tracker s) (l_play s) (l_pending s) (l_fired s)
         (l_nextTimer s) (l_pumpTimers s) (l_priorityTimers s) (l_priority s).
Definition with_tracker (x : OpenTracker) (s : Life) : Life :=
  mkLife (l_handles s) (l_pumps s) (l_next s) (l_reg s) (l_sem s) (l_temps s) x (l_play s) (l_pending s) (l_fired s)
         (l_nextTimer s) (l_pumpTimers s) (l_priorityTimers s) (l_priority s).
Definition with_play (x : gmap string (string * PlaybackState)) (s : Life) : Life :=
  mkLife (l_handles s) (l_pumps s) (l_next s) (l_reg s) (l_sem s) (l_temps s) (l_tracker s) x (l_pending s) (l_fired s)
         (l_nextTimer s) (l_pumpTimers s) (l_priorityTimers s) (l_priority s).
Definition with_timers (pending fired : gmap nat Timer) (next : nat) (pt prt : gmap string nat) (s : Life) : Life :=
  mkLife (l_handles s) (l_pumps s) (l_next s) (l_reg s) (l_sem s) (l_temps s) (l_tracker s) (l_play s) pending fired
         next pt prt (l_priority s).
Definition with_priority (x : gset string) (s : Life) : Life :=
  mkLife (l_handles s) (l_pumps s) (l_next s) (l_reg s) (l_sem s) (l_temps s) (l_tracker s) (l_play s) (l_pending s)
         (l_fired s) (l_nextTimer s) (l_pumpTimers s) (l_priorityTimers s) x.

Definition upd_handle (i : nat) (f : LiveHandle → LiveHandle) (s : Life) : Life :=
  with_handles (alter f i (l_handles s)) s.
Definition upd_pump (p : nat) (f : SharedPump → SharedPump) (s : Life) : Life :=
  with_pumps (alter f p (l_pumps s)) s.

Definition lv_with (h : MkvHandle) (x : LiveHandle) : LiveHandle :=
  mkLive h (lv_active x) (lv_kernel x) (lv_released x) (lv_hasSlot x) (lv_pump x) (lv_start x) (lv_once x)
         (lv_reader x) (lv_hasWarmup x).
Definition lv_set_active (b : bool) (x : LiveHandle) : LiveHandle :=
  mkLive (lv_h x) b (lv_kernel x) (lv_released x) (lv_hasSlot x) (lv_pump x) (lv_start x) (lv_once x)
         (lv_reader x) (lv_hasWarmup x).
Definition lv_opened (x : LiveHandle) : LiveHandle :=
  mkLive (lv_h x) true true (lv_released x) (lv_hasSlot x) (lv_pump x) (lv_start x) (lv_once x)
         (lv_reader x) (lv_hasWarmup x).
Definition lv_given_back (x : LiveHandle) : LiveHandle :=
  mkLive (lv_h x) (lv_active x) false true (lv_hasSlot x) (lv_pump x) (lv_start x) (lv_once x)
         (lv_reader x) (lv_hasWarmup x).
Definition lv_attach (p : nat) (x : LiveHandle) : LiveHandle :=
  mkLive (lv_h x) (lv_active x) (lv_kernel x) (lv_released x) true (Some p) (lv_start x) (lv_once x)
         true (lv_hasWarmup x).
Definition lv_set_start (pc : option start_pc) (x : LiveHandle) : LiveHandle :=
  mkLive (lv_h x) (lv_active x) (lv_kernel x) (lv_released x) (lv_hasSlot x) (lv_pump x) pc true
         (lv_reader x) (lv_hasWarmup x).
Definition lv_drop_slot (x : LiveHandle) : LiveHandle :=
  mkLive (lv_h x) (lv_active x) (lv_kernel x) (lv_released x) false (lv_pump x) (lv_start x) (lv_once x)
         (lv_reader x) (lv_hasWarmup x).
Definition lv_drop_reader (x : LiveHandle) : LiveHandle :=
  mkLive (lv_h x) (lv_active x) (lv_kernel x) (lv_released x) (lv_hasSlot x) (lv_pump x) (lv_start x) (lv_once x)
         false (lv_hasWarmup x).

Definition sp_count (d : Z) (x : SharedPump) : SharedPump :=
  mkShared (sp_path x) (sp_creator x) (i32 (sp_refs x + d)) (sp_playerOff x) (sp_cancelled x) (sp_phase x).
Definition sp_position (off : Z) (x : SharedPump) : SharedPump :=
  mkShared (sp_path x) (sp_creator x) (sp_refs x) off (sp_cancelled x) (sp_phase x).
Definition sp_cancel (x : SharedPump) : SharedPump :=
  mkShared (sp_path x) (sp_creator x) (sp_refs x) (sp_playerOff x) true (sp_phase x).
Definition sp_enter (ph : phase) (x : SharedPump) : SharedPump :=
  mkShared (sp_path x) (sp_creator x) (sp_refs x) (sp_playerOff x) (sp_cancelled x) ph.

Definition path_of (x : LiveHandle) : string := h_path (lv_h x).
Definition hash_of (x : LiveHandle) : string := h_hash (lv_h x).

(** ** Timers *)

Definition arm (grace : bool) (path : string) (delay : Z) (s : Life) : Life :=
  let t := l_nextTimer s in
  let m := <[t := mkTimer grace path delay]> (l_pending s) in
  if grace then with_timers m (l_fired s) (S t) (<[path := t]> (l_pumpTimers s)) (l_priorityTimers s) s
  else with_timers m (l_fired s) (S t) (l_pumpTimers s) (<[path := t]> (l_priorityTimers s)) s.

#[global] Arguments arm : simpl never.

(** [LoadAndDelete] and [Stop]: a timer that fired already is not stopped. *)
Definition stop_pump_timer (path : string) (s : Life) : Life :=
  match l_pumpTimers s !! path with
  | Some t => with_timers (delete t (l_pending s)) (l_fired s) (l_nextTimer s) (delete path (l_pumpTimers s))
                          (l_priorityTimers s) s
  | None => s
  end.
Definition stop_priority_timer (path : string) (s : Life) : Life :=
  match l_priorityTimers s !! path with
  | Some t => with_timers (delete t (l_pending s)) (l_fired s) (l_nextTimer s) (l_pumpTimers s)
                          (delete path (l_priorityTimers s)) s
  | None => s
  end.

Section life.
Context `{GoRuntime} (cap : Z).

(** ** Starting a pump *)

(** [becomePrimary] walks the handles in [activeHandles]. *)
Definition promote (i : nat) (s : Life) : Life :=
  let view := lv_h <$> filter (λ kv : nat * LiveHandle, lv_active kv.2 = true ∨ kv.1 = i) (l_handles s) in
  let view' := (becomePrimary i view).2 in
  with_handles (map_imap (λ j x, Some (match view' !! j with Some h => lv_with h x | None => x end)) (l_handles s)) s.

Definition scanSlotLimit (capacity : Z) (anyHealthyPlayback : bool) : Z :=
  if anyHealthyPlayback then 5 else if capacity -! 5 >? 1 then capacity -! 5 else 1.

Definition healthy (path : string) (s : Life) : bool :=
  match l_play s !! path with Some (_, ps) => pb_healthy ps | None => false end.
Definition any_healthy (s : Life) : bool :=
  existsb (λ kv : string * (string * PlaybackState), pb_healthy kv.2.2) (map_to_list (l_play s)).

(** A background scan finds fewer slots than a confirmed playback. *)
Definition can_take_slot (path : string) (s : Life) : bool :=
  healthy path s || negb (l_sem s >=? scanSlotLimit cap (any_healthy s)).

(** The first section: [pumpOnce], the slot and the reserve. *)
Definition start_check (i : nat) (s : Life) : Life :=
  match l_handles s !! i with
  | None => s
  | Some x =>
      if lv_once x then s
      else upd_handle i (lv_set_start (if lv_hasSlot x || negb (can_take_slot (path_of x) s) then None
                                       else Some Checked)) s
  end.

Definition count_open (x : LiveHandle) (s : Life) : Life :=
  with_tracker (Inc (hash_of x) (path_of x) (l_tracker s)) s.

(** Attaching to a registered pump; the first to come back inherits the position. *)
Definition start_attach (i p : nat) (s : Life) : Life :=
  match l_handles s !! i, l_pumps s !! p with
  | Some x, Some sp =>
      let newRefs := i32 (sp_refs sp + 1) in
      let s := count_open x (upd_handle i (lv_attach p) (upd_pump p (sp_count 1) s)) in
      if newRefs =? 1 then
        let s := promote i s in
        if sp_playerOff sp >? 0
        then upd_handle i (λ x, lv_with (set_lastOff (sp_playerOff sp) (lv_h x)) x) s else s
      else s
  | _, _ => s
  end.

(** The second section: a pump of the path is there already, or not. *)
Definition start_lookup (i : nat) (s : Life) : Life :=
  match l_handles s !! i with
  | None => s
  | Some x =>
      match l_reg s !! path_of x with
      | Some p => upd_handle i (lv_set_start None) (start_attach i p s)
      | None => upd_handle i (lv_set_start (Some Missed)) s
      end
  end.

(** The third: a token, at once or not at all. *)
Definition start_token (i : nat) (s : Life) : Life :=
  if l_sem s <? cap
  then with_tokens (l_sem s + 1) (l_temps s) (upd_handle i (lv_set_start (Some Holding)) s)
  else upd_handle i (lv_set_start None) s.

(** A new pump, registered for the path and counted once. *)
Definition new_pump (i : nat) (x : LiveHandle) (s : Life) : Life :=
  let p := l_next s in
  let sp := mkShared (path_of x) i 1 0 false Running in
  let s := upd_handle i (lv_attach p) s in
  count_open x
    (mkLife (l_handles s) (<[p := sp]> (l_pumps s)) (S p) (<[path_of x := p]> (l_reg s)) (l_sem s) (l_temps s)
            (l_tracker s) (l_play s) (l_pending s) (l_fired s) (l_nextTimer s) (l_pumpTimers s) (l_priorityTimers s)
            (l_priority s)).

(** The fourth: another goroutine may have created the pump meanwhile. *)
Definition start_create (i : nat) (s : Life) : Life :=
  match l_handles s !! i with
  | None => s
  | Some x =>
      upd_handle i (lv_set_start None)
        match l_reg s !! path_of x with
        | Some p => start_attach i p (with_tokens (l_sem s - 1) (l_temps s) s)
        | None => new_pump i x (promote i s)
        end
  end.

(** [attachToExistingPump], from a read. *)
Definition attachToExistingPump (i p : nat) (s : Life) : bool * Life :=
  match l_handles s !! i with
  | None => (false, s)
  | Some x =>
      if lv_hasSlot x then (false, s)
      else (true, count_open x (upd_pump p (sp_count 1) (upd_handle i (lv_attach p) s)))
  end.

(** What a read does about its slot under [pumpCreationMu]: [streaming] and
    [inferred] are what it knows of the playback. *)
Definition read_pump_slot (i : nat) (streaming inferred : bool) (s : Life) : Life :=
  match l_handles s !! i with
  | None => s
  | Some x =>
      if lv_hasSlot x then s
      else match l_reg s !! path_of x with
           | Some p => (attachToExistingPump i p s).2
           | None =>
               if streaming && negb (String.eqb (hash_of x) "")
                  && bool_decide (is_Some (l_play s !! path_of x)) && (healthy (path_of x) s || inferred)
                  && (l_sem s <? cap)
               then new_pump i x (with_tokens (l_sem s + 1) (l_temps s) s)
               else s
           end
  end.

(** ** Ending a pump *)

(** The deferred calls of [nativePump]: the registration first, if it is still
    this pump's, then the token, if the creator still has its slot. *)
Definition pump_unregister (p : nat) (s : Life) : Life :=
  match l_pumps s !! p with
  | None => s
  | Some sp =>
      let s := upd_pump p (sp_enter Unregistered) s in
      if bool_decide (l_reg s !! sp_path sp = Some p) then with_reg (delete (sp_path sp) (l_reg s)) s else s
  end.

Definition pump_giveback (p : nat) (s : Life) : Life :=
  match l_pumps s !! p with
  | None => s
  | Some sp =>
      let s := upd_pump p (sp_enter Ended) s in
      match l_handles s !! sp_creator sp with
      | Some x => if lv_hasSlot x
                  then upd_handle (sp_creator sp) lv_drop_slot
                         (with_tokens (if l_sem s >? 0 then l_sem s - 1 else l_sem s) (l_temps s) s)
                  else s
      | None => s
      end
  end.

Definition terminateOrphanPump (path : string) (s : Life) : bool * Life :=
  match l_reg s !! path with
  | None => (false, s)
  | Some p => (true, with_reg (delete path (l_reg s)) (upd_pump p sp_cancel s))
  end.

(** [forceCloseVirtualFile], after its wait: the pump, then every open handle. *)
Definition forceCloseVirtualFile (path : string) (s : Life) : Life :=
  let s := (terminateOrphanPump path s).2 in
  with_handles ((λ x, if String.eqb (path_of x) path then lv_set_active false x else x) <$> l_handles s) s.

(** ** Opening and releasing *)

(** What [Open] does before it can fail: pending timers of the path are stopped. *)
Definition open_debounce (path : string) (s : Life) : Life := stop_priority_timer path (stop_pump_timer path s).

(** A recently confirmed playback gets its priority back; the set may name a
    torrent the engine dropped meanwhile, which has no flag to set. *)
Definition restore_priority (now : Z) (path : string) (s : Life) : Life :=
  match l_play s !! path with
  | Some (hash, ps) =>
      if pb_healthy ps && match pb_confirmed ps with Some t => now - t <? minutes 30 | None => false end
         && negb (String.eqb hash "")
      then with_priority ({[hash]} ∪ l_priority s) s else s
  | None => s
  end.

Definition open_state (now : Z) (hash : string) (old : option (string * PlaybackState)) : string * PlaybackState :=
  match old with
  | None => (hash, mkPlay None false false 0 0 None)
  | Some (hs, ps) => (hs, mkPlay (pb_confirmed ps) (pb_healthy ps) false (pb_readCount ps) (pb_lastSeekOff ps)
                                 (pb_lastReadAt ps))
  end.

(** The handle [Open] makes, before the pump is started. *)
Definition open_handle (now : Z) (i : nat) (path hash : string) (size : Z) (hasWarmup : bool) (s : Life) : Life :=
  let s := open_debounce path s in
  let s := restore_priority now path s in
  let s := with_play (<[path := open_state now hash (l_play s !! path)]> (l_play s)) s in
  with_handles (<[i := mkLive (mkHandleState path size hash (-1) false 0) false false false false None None false false
                              hasWarmup]> (l_handles s)) s.

Definition ownsPumpState (handleState : option nat) (registered : nat) : bool :=
  bool_decide (handleState = Some registered).

Definition seconds (n : Z) : Z := n * 1000000000.

(** The grace period after the last release, by what is known of the playback. *)
Definition grace_duration (now : Z) (path : string) (s : Life) : Z :=
  match l_play s !! path with
  | Some (_, ps) =>
      if IsInferredPlayback now ps then minutes 5
      else if bool_decide (is_Some (pb_confirmed ps)) then seconds 90 else seconds 30
  | None => seconds 30
  end.

Definition retention_delay (x : LiveHandle) (s : Life) : Z :=
  if lv_hasWarmup x && (h_lastOff (lv_h x) <? 2 * 1024 * 1024) then
    match l_play s !! path_of x with
    | Some (_, ps) => if pb_stopped ps || negb (bool_decide (is_Some (pb_confirmed ps))) then seconds 5 else seconds 30
    | None => seconds 30
    end
  else seconds 30.

(** The end of [Release], which its early returns skip. *)
Definition release_tail (i : nat) (x : LiveHandle) (s : Life) : Life :=
  let s := upd_handle i lv_drop_reader s in
  arm false (path_of x) (retention_delay x s) (stop_priority_timer (path_of x) s).

Definition Release (now : Z) (i : nat) (s : Life) : Life :=
  match l_handles s !! i with
  | None => s
  | Some x =>
      let path := path_of x in
      let s := upd_handle i (lv_set_active false) s in
      match l_reg s !! path with
      | None => release_tail i x s
      | Some p =>
          let s := if h_primary (lv_h x) && (h_lastOff (lv_h x) >? 0)
                   then upd_pump p (sp_position (h_lastOff (lv_h x))) s else s in
          if negb (lv_hasSlot x) then s
          else
            let s := with_tracker (Dec (hash_of x) path (l_tracker s)) s in
            if negb (ownsPumpState (lv_pump x) p) then s
            else
              let s := upd_pump p (sp_count (-1)) s in
              let newRefs := default 0 (sp_refs <$> l_pumps s !! p) in
              let s :=
                if newRefs <=? 0 then
                  let s' := stop_pump_timer path s in
                  if healthy path s then s' else arm true path (grace_duration now path s) s'
                else s in
              release_tail i x s
      end
  end.

(** ** What the timers do *)

Definition grace_fires (t : nat) (path : string) (s : Life) : Life :=
  let s := if bool_decide (l_pumpTimers s !! path = Some t)
           then with_timers (l_pending s) (l_fired s) (l_nextTimer s) (delete path (l_pumpTimers s))
                            (l_priorityTimers s) s else s in
  match l_reg s !! path with
  | Some p =>
      match l_pumps s !! p with
      | Some sp => if sp_refs sp <=? 0 then (terminateOrphanPump path s).2 else s
      | None => s
      end
  | None => s
  end.

(** The priority of the torrent goes once nothing of it is open or playing.  Its
    aggressive mode and its expiry, which go with it, are the engine's. *)
Definition priority_fires (t : nat) (path : string) (s : Life) : Life :=
  let s := if bool_decide (l_priorityTimers s !! path = Some t)
           then with_timers (l_pending s) (l_fired s) (l_nextTimer s) (l_pumpTimers s)
                            (delete path (l_priorityTimers s)) s else s in
  if bool_decide (is_Some (l_reg s !! path)) || healthy path s || IsPathOpen path (l_tracker s) then s
  else match l_play s !! path with
       | Some (hash, _) => if String.eqb hash "" || IsHashOpen hash (l_tracker s) then s
                           else with_priority (l_priority s ∖ {[hash]}) s
       | None => s
       end.

Definition run_timer (t : nat) (s : Life) : Life :=
  match l_fired s !! t with
  | None => s
  | Some tm =>
      let s := with_timers (l_pending s) (delete t (l_fired s)) (l_nextTimer s) (l_pumpTimers s) (l_priorityTimers s) s in
      if tm_grace tm then grace_fires t (tm_path tm) s else priority_fires t (tm_path tm) s
  end.

Definition fire_timer (t : nat) (s : Life) : Life :=
  match l_pending s !! t with
  | None => s
  | Some tm => with_timers (delete t (l_pending s)) (<[t := tm]> (l_fired s)) (l_nextTimer s) (l_pumpTimers s)
                           (l_priorityTimers s) s
  end.

(** ** Everything interleaved

    [raced] allows a read or a release of a handle while the start of its own pump
    is in progress, which the goroutine of a late resolution makes possible;
    [gcs] allows the hourly collector to release a handle the kernel still holds. *)
Inductive life_step (raced gcs : bool) : Life → Life → Prop :=
  | L_open_fails s path : life_step raced gcs s (open_debounce path s)
  | L_open s now i path hash size w :
      l_handles s !! i = None → life_step raced gcs s (open_handle now i path hash size w s)
  | L_check s i x :
      l_handles s !! i = Some x → (raced = false → lv_released x = false) →
      life_step raced gcs s (start_check i s)
  | L_lookup s i x :
      l_handles s !! i = Some x → lv_start x = Some Checked → life_step raced gcs s (start_lookup i s)
  | L_token s i x :
      l_handles s !! i = Some x → lv_start x = Some Missed → life_step raced gcs s (start_token i s)
  | L_create s i x :
      l_handles s !! i = Some x → lv_start x = Some Holding → life_step raced gcs s (start_create i s)
  | L_opened s i x :
      l_handles s !! i = Some x → lv_start x = None → lv_kernel x = false → lv_released x = false →
      life_step raced gcs s (upd_handle i lv_opened s)
  | L_read s i x streaming inferred :
      l_handles s !! i = Some x → lv_kernel x = true → (raced = false → lv_start x = None) →
      life_step raced gcs s (read_pump_slot i streaming inferred s)
  | L_offset s i off :
      life_step raced gcs s (upd_handle i (λ x, lv_with (set_lastOff off (lv_h x)) x) s)
  | L_resolve s i hash :
      life_step raced gcs s (upd_handle i (λ x, lv_with (set_hash hash (lv_h x)) x) s)
  | L_promote s i : life_step raced gcs s (promote i s)
  | L_take s : l_sem s < cap → life_step raced gcs s (with_tokens (l_sem s + 1) (l_temps s + 1) s)
  | L_give s : 0 < l_temps s → life_step raced gcs s (with_tokens (l_sem s - 1) (l_temps s - 1) s)
  | L_unregister s p sp :
      l_pumps s !! p = Some sp → sp_phase sp = Running → life_step raced gcs s (pump_unregister p s)
  | L_giveback s p sp :
      l_pumps s !! p = Some sp → sp_phase sp = Unregistered → life_step raced gcs s (pump_giveback p s)
  | L_cancel s path : life_step raced gcs s (terminateOrphanPump path s).2
  | L_force s path : life_step raced gcs s (forceCloseVirtualFile path s)
  | L_release s now i x :
      l_handles s !! i = Some x → lv_kernel x = true → (raced = false → lv_start x = None) →
      life_step raced gcs s (upd_handle i lv_given_back (Release now i s))
  | L_gc s now i x :
      gcs = true → l_handles s !! i = Some x → lv_active x = true → life_step raced gcs s (Release now i s)
  | L_fire s t : life_step raced gcs s (fire_timer t s)
  | L_run s t : life_step raced gcs s (run_timer t s)
  | L_play_changes s m : life_step raced gcs s (with_play m s)
  | L_priority_changes s x : life_step raced gcs s (with_priority x s).

End life.

(** ** The accounting

    What the tokens and the counts depend on: of a handle its path, who holds it,
    its slot, its pump and its start in progress; of a pump its path, its creator,
    its count and its phase.  [acct] is the specification of how they may change. *)

Record HK := mkHK {
  k_path : string; k_kernel : bool; k_released : bool; k_slot : bool; k_pump : option nat; k_start : option start_pc;
  k_once : bool
}.
Record PK := mkPK { q_path : string; q_creator : nat; q_refs : Z; q_phase : phase }.
Record Core := mkCore {
  c_h : gmap nat HK; c_p : gmap nat PK; c_next : nat; c_reg : gmap string nat; c_sem : Z; c_temps : Z
}.

Definition hk (x : LiveHandle) : HK :=
  mkHK (path_of x) (lv_kernel x) (lv_released x) (lv_hasSlot x) (lv_pump x) (lv_start x) (lv_once x).
Definition pk (x : SharedPump) : PK := mkPK (sp_path x) (sp_creator x) (sp_refs x) (sp_phase x).
Definition core (s : Life) : Core :=
  mkCore (hk <$> l_handles s) (pk <$> l_pumps s) (l_next s) (l_reg s) (l_sem s) (l_temps s).

Definition k_attach (p : nat) (x : HK) : HK :=
  mkHK (k_path x) (k_kernel x) (k_released x) true (Some p) (k_start x) (k_once x).
Definition k_begin (pc : option start_pc) (x : HK) : HK :=
  mkHK (k_path x) (k_kernel x) (k_released x) (k_slot x) (k_pump x) pc true.
Definition k_open (x : HK) : HK :=
  mkHK (k_path x) true (k_released x) (k_slot x) (k_pump x) (k_start x) (k_once x).
Definition k_close (x : HK) : HK :=
  mkHK (k_path x) false true (k_slot x) (k_pump x) (k_start x) (k_once x).
Definition k_unslot (x : HK) : HK :=
  mkHK (k_path x) (k_kernel x) (k_released x) false (k_pump x) (k_start x) (k_once x).
Definition q_count (d : Z) (x : PK) : PK := mkPK (q_path x) (q_creator x) (i32 (q_refs x + d)) (q_phase x).
Definition q_enter (ph : phase) (x : PK) : PK := mkPK (q_path x) (q_creator x) (q_refs x) ph.

Definition with_h (i : nat) (f : HK → HK) (c : Core) : Core :=
  mkCore (alter f i (c_h c)) (c_p c) (c_next c) (c_reg c) (c_sem c) (c_temps c).
Definition with_p (p : nat) (f : PK → PK) (c : Core) : Core :=
  mkCore (c_h c) (alter f p (c_p c)) (c_next c) (c_reg c) (c_sem c) (c_temps c).
Definition with_sem (d t : Z) (c : Core) : Core :=
  mkCore (c_h c) (c_p c) (c_next c) (c_reg c) (c_sem c + d) (c_temps c + t).
Definition without_reg (path : string) (c : Core) : Core :=
  mkCore (c_h c) (c_p c) (c_next c) (delete path (c_reg c)) (c_sem c) (c_temps c).

Definition c_attach (i p : nat) (c : Core) : Core := with_p p (q_count 1) (with_h i (k_attach p) c).
Definition c_create (i : nat) (x : HK) (c : Core) : Core :=
  let p := c_next c in
  mkCore (alter (k_attach p) i (c_h c)) (<[p := mkPK (k_path x) i 1 Running]> (c_p c)) (S p)
         (<[k_path x := p]> (c_reg c)) (c_sem c) (c_temps c).
(** A release takes back the count the handle stands for, and no other. *)
Definition c_release (x : HK) (c : Core) : Core :=
  match c_reg c !! k_path x with
  | Some p => if k_slot x && bool_decide (k_pump x = Some p) then with_p p (q_count (-1)) c else c
  | None => c
  end.

Inductive acct (cap : Z) (raced gcs : bool) : Core → Core → Prop :=
  | A_open c i path :
      c_h c !! i = None →
      acct cap raced gcs c (mkCore (<[i := mkHK path false false false None None false]> (c_h c)) (c_p c) (c_next c)
                                   (c_reg c) (c_sem c) (c_temps c))
  | A_check c i x :
      c_h c !! i = Some x → k_slot x = false → k_start x ≠ Some Holding → (raced = false → k_released x = false) →
      acct cap raced gcs c (with_h i (k_begin (Some Checked)) c)
  | A_stop c i x :
      c_h c !! i = Some x → k_start x ≠ Some Holding → acct cap raced gcs c (with_h i (k_begin None) c)
  | A_missed c i x :
      c_h c !! i = Some x → k_start x = Some Checked → acct cap raced gcs c (with_h i (k_begin (Some Missed)) c)
  | A_token c i x :
      c_h c !! i = Some x → k_start x = Some Missed → c_sem c < cap →
      acct cap raced gcs c (with_sem 1 0 (with_h i (k_begin (Some Holding)) c))
  | A_join c i x p :
      c_h c !! i = Some x → k_start x = Some Checked → c_reg c !! k_path x = Some p →
      acct cap raced gcs c (with_h i (k_begin None) (c_attach i p c))
  | A_rejoin c i x p :
      c_h c !! i = Some x → k_start x = Some Holding → c_reg c !! k_path x = Some p →
      acct cap raced gcs c (with_h i (k_begin None) (c_attach i p (with_sem (-1) 0 c)))
  | A_create c i x :
      c_h c !! i = Some x → k_start x = Some Holding → c_reg c !! k_path x = None →
      acct cap raced gcs c (with_h i (k_begin None) (c_create i x c))
  | A_opened c i x :
      c_h c !! i = Some x → k_released x = false → acct cap raced gcs c (with_h i k_open c)
  | A_read_join c i x p :
      c_h c !! i = Some x → k_kernel x = true → k_slot x = false → (raced = false → k_start x = None) →
      c_reg c !! k_path x = Some p → acct cap raced gcs c (c_attach i p c)
  | A_upgrade c i x :
      c_h c !! i = Some x → k_kernel x = true → k_slot x = false → (raced = false → k_start x = None) →
      c_reg c !! k_path x = None → c_sem c < cap → acct cap raced gcs c (c_create i x (with_sem 1 0 c))
  | A_take c : c_sem c < cap → acct cap raced gcs c (with_sem 1 1 c)
  | A_give c : 0 < c_temps c → acct cap raced gcs c (with_sem (-1) (-1) c)
  | A_unregister c p q :
      c_p c !! p = Some q → q_phase q = Running →
      acct cap raced gcs c (let c' := with_p p (q_enter Unregistered) c in
                            if bool_decide (c_reg c !! q_path q = Some p) then without_reg (q_path q) c' else c')
  | A_giveback c p q x :
      c_p c !! p = Some q → q_phase q = Unregistered → c_h c !! q_creator q = Some x → k_slot x = true → 0 < c_sem c →
      acct cap raced gcs c (with_h (q_creator q) k_unslot (with_sem (-1) 0 (with_p p (q_enter Ended) c)))
  | A_leak c p q :
      c_p c !! p = Some q → q_phase q = Unregistered →
      (∀ x, c_h c !! q_creator q = Some x → k_slot x = true → c_sem c ≤ 0) →
      acct cap raced gcs c (let c' := with_p p (q_enter Ended) c in
                            match c_h c !! q_creator q with
                            | Some x => if k_slot x then with_h (q_creator q) k_unslot c' else c'
                            | None => c'
                            end)
  | A_drop c path : acct cap raced gcs c (without_reg path c)
  | A_release c i x :
      c_h c !! i = Some x → k_kernel x = true → (raced = false → k_start x = None) →
      acct cap raced gcs c (with_h i k_close (c_release x c))
  | A_gc c i x : gcs = true → c_h c !! i = Some x → acct cap raced gcs c (c_release x c).

(** *** The operations on the accounting *)

Lemma core_upd_handle i f g s :
  (∀ x, l_handles s !! i = Some x → hk (f x) = g (hk x)) → core (upd_handle i f s) = with_h i g (core s).
Proof.
  intros Hf. unfold core, with_h, upd_handle. simpl. f_equal. apply map_eq. intros j.
  rewrite lookup_fmap. destruct (decide (i = j)) as [<-|Hne].
  - rewrite !lookup_alter_eq, lookup_fmap. destruct (l_handles s !! i) as [x|] eqn:E; simpl; [|done].
    by rewrite Hf.
  - by rewrite !lookup_alter_ne, lookup_fmap by done.
Qed.

Lemma core_upd_pump p f g s :
  (∀ x, pk (f x) = g (pk x)) → core (upd_pump p f s) = with_p p g (core s).
Proof.
  intros Hf. unfold core, with_p, upd_pump. simpl. f_equal. apply map_eq. intros j.
  rewrite lookup_fmap. destruct (decide (p = j)) as [<-|Hne].
  - rewrite !lookup_alter_eq, lookup_fmap. destruct (l_pumps s !! p) as [x|]; simpl; [|done]. by rewrite Hf.
  - by rewrite !lookup_alter_ne, lookup_fmap by done.
Qed.

Lemma with_h_id i f c : (∀ x, c_h c !! i = Some x → f x = x) → with_h i f c = c.
Proof.
  intros Hf. destruct c as [h p n r se t]. unfold with_h. simpl in *. f_equal. apply map_eq. intros j.
  destruct (decide (i = j)) as [<-|Hne]; [|by rewrite lookup_alter_ne].
  rewrite lookup_alter_eq. destruct (h !! i) as [x|] eqn:E; simpl; [|done]. by rewrite Hf.
Qed.

Lemma with_p_id p f c : (∀ x, f x = x) → with_p p f c = c.
Proof.
  intros Hf. destruct c as [h q n r se t]. unfold with_p. simpl in *. f_equal. apply map_eq. intros j.
  destruct (decide (p = j)) as [<-|Hne]; [|by rewrite lookup_alter_ne].
  rewrite lookup_alter_eq. destruct (q !! p); simpl; [|done]. by rewrite Hf.
Qed.

Lemma with_h_comp i f g c : with_h i f (with_h i g c) = with_h i (f ∘ g) c.
Proof.
  unfold with_h. simpl. f_equal. apply map_eq. intros j. destruct (decide (i = j)) as [<-|Hne].
  - rewrite !lookup_alter_eq. by destruct (c_h c !! i).
  - by rewrite !lookup_alter_ne.
Qed.

Lemma core_upd_same i f s : (∀ x, hk (f x) = hk x) → core (upd_handle i f s) = core s.
Proof. intros Hf. rewrite (core_upd_handle i f id) by (intros; apply Hf). by apply with_h_id. Qed.

Lemma core_upd_pump_same p f s : (∀ x, pk (f x) = pk x) → core (upd_pump p f s) = core s.
Proof. intros Hf. rewrite (core_upd_pump p f id) by done. by apply with_p_id. Qed.

Section accounting.
Context `{GoRuntime} (cap : Z).

Lemma becomePrimary_path i hs j h :
  (becomePrimary i hs).2 !! j = Some h → ∃ h0, hs !! j = Some h0 ∧ h_path h0 = h_path h.
Proof.
  unfold becomePrimary. destruct (hs !! i) as [x|] eqn:Ei; [|by eauto].
  unfold claim_primary. rewrite Ei. simpl. destruct (h_primary x); [by eauto|]. simpl.
  set (hs' := <[i := set_primary true x]> hs).
  assert (Hfold : ∀ l m h, foldl (λ m j, demote i (h_path x) j m) m l !! j = Some h →
    ∃ h0, m !! j = Some h0 ∧ h_path h0 = h_path h).
  { induction l as [|k l IH]; intros m g; simpl; [by eauto|].
    intros (h0 & Hd & Hp)%IH. unfold demote in Hd. destruct (m !! k) as [y|] eqn:Ek; [|by eauto].
    case_match; [|by eauto]. apply lookup_insert_Some in Hd as [[<- <-]|[_ Hd]]; [|by eauto]. by exists y. }
  intros (h0 & Hh & Hp)%Hfold. unfold hs' in Hh.
  apply lookup_insert_Some in Hh as [[<- <-]|[_ Hh]]; [|by eauto]. by exists x.
Qed.


Lemma promote_handle i s j x :
  l_handles (promote i s) !! j = Some x →
  ∃ x0, l_handles s !! j = Some x0 ∧ hk x = hk x0 ∧ lv_once x = lv_once x0 ∧ lv_hasWarmup x = lv_hasWarmup x0.
Proof.
  unfold promote. simpl. rewrite map_lookup_imap. destruct (l_handles s !! j) as [x0|] eqn:Ej; simpl; [|done].
  set (view := lv_h <$> _). destruct ((becomePrimary i view).2 !! j) as [h|] eqn:Eb; intros [= <-]; [|by eauto].
  exists x0. split_and!; try done. apply becomePrimary_path in Eb as (h0 & Hv & Hp).
  unfold view in Hv. rewrite lookup_fmap in Hv. apply fmap_Some in Hv as (y & Hy & ->).
  apply map_lookup_filter_Some in Hy as [Hy _]. simplify_eq. unfold hk, path_of. simpl. by rewrite <-Hp.
Qed.

Lemma core_promote i s : core (promote i s) = core s.
Proof.
  unfold core. f_equal. apply map_eq. intros j. rewrite !lookup_fmap.
  destruct (l_handles (promote i s) !! j) as [x|] eqn:E.
  - apply promote_handle in E as (x0 & E0 & Hk & _). rewrite E0. simpl. by rewrite Hk.
  - unfold promote in E. simpl in E. rewrite map_lookup_imap in E. destruct (l_handles s !! j); done.
Qed.

Lemma core_handle s i x : l_handles s !! i = Some x → c_h (core s) !! i = Some (hk x).
Proof. intros Hx. simpl. by rewrite lookup_fmap, Hx. Qed.

Lemma core_stop_timers path s :
  core (stop_pump_timer path s) = core s ∧ core (stop_priority_timer path s) = core s.
Proof. unfold stop_pump_timer, stop_priority_timer. split; by case_match. Qed.

Lemma core_debounce path s : core (open_debounce path s) = core s.
Proof. unfold open_debounce. by rewrite (proj2 (core_stop_timers _ _)), (proj1 (core_stop_timers _ _)). Qed.

Lemma core_arm g path d s : core (arm g path d s) = core s.
Proof. unfold arm. by destruct g. Qed.

Lemma core_release_tail i x s : core (release_tail i x s) = core s.
Proof.
  unfold release_tail. rewrite core_arm, (proj2 (core_stop_timers _ _)). by apply core_upd_same.
Qed.

Lemma core_terminate path s : core (terminateOrphanPump path s).2 = core s ∨
  core (terminateOrphanPump path s).2 = without_reg path (core s).
Proof.
  unfold terminateOrphanPump. destruct (l_reg s !! path) as [p|] eqn:E; [right|by left].
  rewrite <-(core_upd_pump_same p sp_cancel s) by done. done.
Qed.

(** Every registered pump is there, running, under its own path. *)
Definition reg_ok (c : Core) : Prop :=
  (∀ path p, c_reg c !! path = Some p → ∃ q, c_p c !! p = Some q ∧ q_path q = path ∧ q_phase q = Running) ∧
  (∀ p, (c_next c ≤ p)%nat → c_p c !! p = None).

(** A start in progress is the one [pumpOnce] let run. *)
Definition once_ok (c : Core) : Prop :=
  ∀ i x, c_h c !! i = Some x → k_once x = false → k_start x = None.

Lemma core_start_attach i p s x sp :
  l_handles s !! i = Some x → l_pumps s !! p = Some sp → core (start_attach i p s) = c_attach i p (core s).
Proof.
  intros Hx Hp. unfold start_attach. rewrite Hx, Hp.
  set (s1 := count_open x _).
  assert (H1 : core s1 = c_attach i p (core s)).
  { unfold s1. change (core (count_open x ?y)) with (core y).
    rewrite (core_upd_handle _ _ (k_attach p)) by done. rewrite (core_upd_pump _ _ (q_count 1)) by done. done. }
  case_match; [|done]. case_match; [|by rewrite core_promote].
  rewrite core_upd_same by done. by rewrite core_promote.
Qed.

Lemma core_new_pump i x s : core (new_pump i x s) = c_create i (hk x) (core s).
Proof.
  unfold new_pump, c_create. set (s1 := upd_handle i _ s).
  assert (H1 : core s1 = with_h i (k_attach (l_next s)) (core s)) by (by apply core_upd_handle).
  unfold core in *. simpl in *. injection H1 as H1. rewrite H1. f_equal. by rewrite fmap_insert.
Qed.

Lemma core_release now i x s :
  l_handles s !! i = Some x → core (Release now i s) = c_release (hk x) (core s).
Proof.
  intros Hx. unfold Release, c_release. rewrite Hx. change (c_reg (core s)) with (l_reg s).
  change (k_path (hk x)) with (path_of x).
  set (s1 := upd_handle i (lv_set_active false) s). assert (H1 : core s1 = core s) by (by apply core_upd_same).
  change (l_reg s1) with (l_reg s). destruct (l_reg s !! path_of x) as [p|] eqn:Er; [|by rewrite core_release_tail].
  set (s2 := if _ && _ then upd_pump p _ s1 else s1).
  assert (H2 : core s2 = core s) by (unfold s2; case_match; [by rewrite core_upd_pump_same|done]).
  change (k_slot (hk x)) with (lv_hasSlot x). change (k_pump (hk x)) with (lv_pump x).
  destruct (lv_hasSlot x); simpl; [|done]. unfold ownsPumpState. case_bool_decide; simpl; [|done].
  rewrite core_release_tail. set (s3 := upd_pump p (sp_count (-1)) _).
  assert (H3 : core s3 = with_p p (q_count (-1)) (core s)).
  { unfold s3. rewrite (core_upd_pump _ _ (q_count (-1))) by done.
    change (core (with_tracker _ s2)) with (core s2). by rewrite H2. }
  destruct (_ <=? 0); [|done].
  destruct (healthy (path_of x) s3); [|rewrite core_arm]; by rewrite (proj1 (core_stop_timers _ _)).
Qed.

(** *** The refinement *)

Lemma with_tokens_core sem t s :
  core (with_tokens sem t s) = mkCore (c_h (core s)) (c_p (core s)) (c_next (core s)) (c_reg (core s)) sem t.
Proof. done. Qed.

Lemma core_force path s :
  core (forceCloseVirtualFile path s) = core (terminateOrphanPump path s).2.
Proof.
  unfold forceCloseVirtualFile. set (s1 := (terminateOrphanPump path s).2). unfold core. simpl. f_equal.
  rewrite <-map_fmap_compose. apply map_fmap_ext. intros i x _. simpl. by case_match.
Qed.

Lemma core_grace t path s : core (grace_fires t path s) = core s ∨ core (grace_fires t path s) = without_reg path (core s).
Proof.
  unfold grace_fires. set (s1 := if bool_decide _ then _ else s).
  assert (H1 : core s1 = core s) by (unfold s1; by case_match).
  destruct (l_reg s1 !! path); [|by left]. destruct (l_pumps s1 !! _); [|by left].
  destruct (_ <=? 0); [|by left]. rewrite <-H1. apply core_terminate.
Qed.

Lemma core_priority t path s : core (priority_fires t path s) = core s.
Proof. unfold priority_fires. repeat case_match; done. Qed.

Lemma core_open now i path hash size w s :
  core (open_handle now i path hash size w s) =
    mkCore (<[i := mkHK path false false false None None false]> (c_h (core s))) (c_p (core s)) (c_next (core s))
           (c_reg (core s)) (c_sem (core s)) (c_temps (core s)).
Proof.
  unfold open_handle. set (s1 := restore_priority now path _).
  assert (H1 : core s1 = core s).
  { unfold s1, restore_priority. rewrite <-(core_debounce path s). by repeat case_match. }
  rewrite <-H1. unfold core. simpl. by rewrite fmap_insert.
Qed.

(** Each step of the program is a step of the accounting, or none. *)
Lemma life_refines raced gcs s s' :
  life_step cap raced gcs s s' → once_ok (core s) → reg_ok (core s) →
  core s' = core s ∨ acct cap raced gcs (core s) (core s').
Proof.
  intros Hst Hon [Hreg _]. destruct Hst as
    [s path|s now i path hash size w Hi|s i x Hx Hr|s i x Hx Hpc|s i x Hx Hpc|s i x Hx Hpc|s i x Hx Hpc Hk Hrl
    |s i x st inf Hx Hk Hr|s i off|s i hash|s i|s Hc|s Ht|s p sp Hp Hph|s p sp Hp Hph|s path|s path
    |s now i x Hx Hk Hr|s now i x Hg Hx Ha|s t|s t|s m|s m].
  - left. apply core_debounce.
  - right. rewrite core_open. apply A_open. simpl. by rewrite lookup_fmap, Hi.
  - unfold start_check. rewrite Hx. destruct (lv_once x) eqn:Eo; [by left|right].
    pose proof (core_handle s i x Hx) as Hc. pose proof (Hon i _ Hc Eo) as Hs. simpl in Hs.
    rewrite (core_upd_handle _ _ (k_begin (if lv_hasSlot x || negb (can_take_slot cap (path_of x) s) then None
                                           else Some Checked))) by done.
    destruct (lv_hasSlot x) eqn:Es; simpl.
    { eapply A_stop; [done|]. simpl. by rewrite Hs. }
    destruct (negb _); [eapply A_stop; [done|]; simpl; by rewrite Hs|].
    eapply A_check; [done|done| |done]. simpl. by rewrite Hs.
  - right. pose proof (core_handle s i x Hx) as Hc. unfold start_lookup. rewrite Hx.
    destruct (l_reg s !! path_of x) as [p|] eqn:Er.
    + destruct (Hreg _ _ Er) as (q & Hq & _). simpl in Hq. rewrite lookup_fmap in Hq.
      apply fmap_Some in Hq as (sp & Hp & _). rewrite (core_upd_handle _ _ (k_begin None)) by done.
      rewrite (core_start_attach i p s x sp) by done. by eapply A_join.
    + rewrite (core_upd_handle _ _ (k_begin (Some Missed))) by done. by eapply A_missed.
  - right. pose proof (core_handle s i x Hx) as Hc. unfold start_token. destruct (l_sem s <? cap) eqn:El.
    + rewrite with_tokens_core, (core_upd_handle _ _ (k_begin (Some Holding))) by done.
      replace (l_temps s) with (l_temps s + 0) by lia. eapply (A_token cap raced gcs (core s)); [done|done|simpl; lia].
    + rewrite (core_upd_handle _ _ (k_begin None)) by done. eapply A_stop; [done|]. simpl. by rewrite Hpc.
  - right. pose proof (core_handle s i x Hx) as Hc. unfold start_create. rewrite Hx.
    rewrite (core_upd_handle _ _ (k_begin None)) by done. destruct (l_reg s !! path_of x) as [p|] eqn:Er.
    + destruct (Hreg _ _ Er) as (q & Hq & _). simpl in Hq. rewrite lookup_fmap in Hq.
      apply fmap_Some in Hq as (sp & Hp & _). rewrite (core_start_attach i p _ x sp) by done.
      rewrite with_tokens_core. replace (l_temps s) with (l_temps s + 0) by lia.
      by eapply (A_rejoin cap raced gcs (core s)).
    + rewrite core_new_pump, core_promote. by eapply A_create.
  - right. rewrite (core_upd_handle _ _ k_open) by done. eapply A_opened; [by apply core_handle|done].
  - pose proof (core_handle s i x Hx) as Hc. unfold read_pump_slot. rewrite Hx.
    destruct (lv_hasSlot x) eqn:Es; [by left|]. destruct (l_reg s !! path_of x) as [p|] eqn:Er.
    + right. unfold attachToExistingPump. rewrite Hx, Es. simpl.
      change (core (count_open x ?y)) with (core y). rewrite (core_upd_pump _ _ (q_count 1)) by done.
      rewrite (core_upd_handle _ _ (k_attach p)) by done. by eapply (A_read_join cap raced gcs (core s)).
    + case_match eqn:Eg; [right|by left]. apply andb_true_iff in Eg as [_ Eg]. rewrite core_new_pump, with_tokens_core.
      replace (l_temps s) with (l_temps s + 0) by lia.
      eapply (A_upgrade cap raced gcs (core s)); try done. simpl. lia.
  - left. by apply core_upd_same.
  - left. by apply core_upd_same.
  - left. apply core_promote.
  - right. by apply (A_take cap raced gcs (core s)).
  - right. by apply (A_give cap raced gcs (core s)).
  - right. unfold pump_unregister. rewrite Hp.
    assert (Hq : c_p (core s) !! p = Some (pk sp)) by (simpl; by rewrite lookup_fmap, Hp).
    pose proof (A_unregister cap raced gcs _ _ _ Hq Hph) as Ha. simpl in Ha.
    change (l_reg (upd_pump p (sp_enter Unregistered) s)) with (l_reg s).
    rewrite <-(core_upd_pump p (sp_enter Unregistered) (q_enter Unregistered) s) in Ha by done.
    destruct (bool_decide (l_reg s !! sp_path sp = Some p)); exact Ha.
  - right. unfold pump_giveback. rewrite Hp.
    assert (Hq : c_p (core s) !! p = Some (pk sp)) by (simpl; by rewrite lookup_fmap, Hp).
    set (s1 := upd_pump p (sp_enter Ended) s).
    assert (H1 : core s1 = with_p p (q_enter Ended) (core s)) by (by apply core_upd_pump).
    change (l_handles s1) with (l_handles s). change (l_sem s1) with (l_sem s).
    pose proof (A_leak cap raced gcs (core s) p (pk sp) Hq Hph) as Ha. simpl in Ha. rewrite lookup_fmap in Ha.
    destruct (l_handles s !! sp_creator sp) as [x|] eqn:Hx; simpl in Ha; [|rewrite H1; by apply Ha].
    destruct (lv_hasSlot x) eqn:Hs; [|rewrite H1; apply Ha; intros y [= <-] Hy; simpl in Hy; congruence].
    rewrite (core_upd_handle _ _ k_unslot) by done. rewrite with_tokens_core, H1.
    destruct (l_sem s >? 0) eqn:El; [|apply Ha; intros y _ _; lia].
    replace (l_temps s1) with (l_temps s + 0) by (simpl; lia).
    eapply (A_giveback cap raced gcs (core s) p (pk sp) (hk x)); try done; [by apply core_handle|simpl; lia].
  - destruct (core_terminate path s) as [E|E]; [by left|right]. rewrite E. apply A_drop.
  - rewrite core_force. destruct (core_terminate path s) as [E|E]; [by left|right]. rewrite E. apply A_drop.
  - right. rewrite (core_upd_handle _ _ k_close) by done. rewrite (core_release now i x s Hx).
    eapply A_release; [by apply core_handle|done|done].
  - right. rewrite (core_release now i x s Hx). eapply A_gc; [done|by apply core_handle].
  - left. unfold fire_timer. by case_match.
  - unfold run_timer. case_match; [|by left]. set (s1 := with_timers _ _ _ _ _ s).
    change (core s) with (core s1). case_match; [|left; apply core_priority].
    destruct (core_grace t (tm_path t0) s1) as [E|E]; [by left|right]. rewrite E. apply A_drop.
  - by left.
  - by left.
Qed.
End accounting.

(** *** Counting *)

Definition cnt {V : Type} (f : V → bool) (m : gmap nat V) : Z :=
  Z.of_nat (base.size (filter (λ kv : nat * V, f kv.2 = true) m)).

Lemma cnt_nonneg {V} (f : V → bool) m : 0 ≤ cnt f m.
Proof. unfold cnt. lia. Qed.

Lemma cnt_empty {V} (f : V → bool) : cnt f ∅ = 0.
Proof. unfold cnt. by rewrite map_filter_empty, map_size_empty. Qed.

Lemma cnt_insert {V} (f : V → bool) k v m : m !! k = None → cnt f (<[k := v]> m) = cnt f m + Z.b2z (f v).
Proof.
  intros Hk. unfold cnt. destruct (f v) eqn:E.
  - rewrite map_filter_insert_True by done. rewrite map_size_insert_None; [simpl; lia|].
    apply map_lookup_filter_None. by left.
  - rewrite map_filter_insert_False by (simpl; congruence). rewrite delete_id by done. simpl. lia.
Qed.

Lemma cnt_alter {V} (f : V → bool) g k v m :
  m !! k = Some v → cnt f (alter g k m) = cnt f m - Z.b2z (f v) + Z.b2z (f (g v)).
Proof.
  intros Hk.
  assert (E1 : m = <[k := v]> (delete k m)) by (by rewrite insert_delete_eq, insert_id).
  assert (E2 : alter g k m = <[k := g v]> (delete k m)).
  { apply map_eq. intros j. destruct (decide (k = j)) as [<-|Hne].
    - by rewrite lookup_alter_eq, Hk, lookup_insert_eq.
    - by rewrite lookup_alter_ne, lookup_insert_ne, lookup_delete_ne. }
  rewrite E2. rewrite E1 at 2. rewrite !cnt_insert by apply lookup_delete_eq. lia.
Qed.

Lemma cnt_alter_same {V} (f : V → bool) g k m : (∀ v, f (g v) = f v) → cnt f (alter g k m) = cnt f m.
Proof.
  intros Hg. destruct (m !! k) as [v|] eqn:Hk.
  - rewrite (cnt_alter f g k v m Hk), Hg. lia.
  - f_equal. apply map_eq. intros j. destruct (decide (k = j)) as [<-|Hne]; [|by rewrite lookup_alter_ne].
    by rewrite lookup_alter_eq, Hk.
Qed.

Lemma cnt_pos {V} (f : V → bool) k v m : m !! k = Some v → f v = true → 1 ≤ cnt f m.
Proof.
  intros Hk Hf. pose proof (cnt_alter f id k v m Hk) as Hc.
  assert (E : m = <[k := v]> (delete k m)) by (by rewrite insert_delete_eq, insert_id).
  rewrite E, cnt_insert by apply lookup_delete_eq. rewrite Hf. pose proof (cnt_nonneg f (delete k m)). simpl. lia.
Qed.

Lemma cnt_zero {V} (f : V → bool) m : cnt f m = 0 → ∀ k v, m !! k = Some v → f v = false.
Proof. intros Hc k v Hk. destruct (f v) eqn:E; [|done]. pose proof (cnt_pos f k v m Hk E). lia. Qed.

(** *** Tokens *)

Definition is_live (q : PK) : bool := negb (bool_decide (q_phase q = Ended)).
Definition is_holding (x : HK) : bool := bool_decide (k_start x = Some Holding).

(** Pumps not ended yet, starts that hold a token, temporary holders. *)
Definition holders (c : Core) : Z := cnt is_live (c_p c) + cnt is_holding (c_h c) + c_temps c.

Record tokens_ok (cap : Z) (c : Core) : Prop := {
  to_reg : reg_ok c;
  to_once : once_ok c;
  to_temps : 0 ≤ c_temps c;
  to_held : holders c ≤ c_sem c ≤ cap
}.

Lemma reg_ok_same c c' :
  c_reg c' = c_reg c → c_next c' = c_next c →
  (∀ p q, c_p c !! p = Some q → ∃ q', c_p c' !! p = Some q' ∧ q_path q' = q_path q ∧ q_phase q' = q_phase q) →
  (∀ p, c_p c !! p = None → c_p c' !! p = None) → reg_ok c → reg_ok c'.
Proof.
  intros Er En Hp Hnone [H1 H2]. split.
  - intros path p Hr. rewrite Er in Hr. destruct (H1 _ _ Hr) as (q & Hq & Hqp & Hph).
    destruct (Hp _ _ Hq) as (q' & Hq' & E1 & E2). exists q'. split_and!; [done|congruence|congruence].
  - intros p Hle. rewrite En in Hle. by apply Hnone, H2.
Qed.

Lemma reg_ok_counted p d c : reg_ok c → reg_ok (with_p p (q_count d) c).
Proof.
  apply reg_ok_same; [done|done| |]; simpl.
  - intros j q Hq. destruct (decide (p = j)) as [<-|Hne].
    + rewrite lookup_alter_eq, Hq. simpl. by eexists.
    + rewrite lookup_alter_ne by done. by eexists.
  - intros j Hq. destruct (decide (p = j)) as [<-|Hne].
    + by rewrite lookup_alter_eq, Hq.
    + by rewrite lookup_alter_ne.
Qed.

Lemma reg_ok_without path c : reg_ok c → reg_ok (without_reg path c).
Proof. intros [H1 H2]. split; [|done]. simpl. intros path' p [_ Hr]%lookup_delete_Some. by apply H1. Qed.

(** A pump that is registered nowhere may leave its running phase. *)
Lemma reg_ok_phase p ph c :
  (∀ path, c_reg c !! path ≠ Some p) → reg_ok c → reg_ok (with_p p (q_enter ph) c).
Proof.
  intros Hno [H1 H2]. split.
  - simpl. intros path j Hr. destruct (decide (p = j)) as [<-|Hne]; [by destruct (Hno path)|].
    rewrite lookup_alter_ne by done. by apply H1.
  - simpl. intros j Hle. destruct (decide (p = j)) as [<-|Hne].
    + by rewrite lookup_alter_eq, (H2 _ Hle).
    + rewrite lookup_alter_ne by done. by apply H2.
Qed.

Lemma reg_ok_create i x c : reg_ok c → c_reg c !! k_path x = None → reg_ok (c_create i x c).
Proof.
  intros [H1 H2] Hn. split.
  - simpl. intros path p [[<- <-]|[Hne Hr]]%lookup_insert_Some.
    + rewrite lookup_insert_eq. by eexists.
    + destruct (H1 _ _ Hr) as (q & Hq & Hpq). exists q. split; [|done].
      rewrite lookup_insert_ne; [done|]. intros <-. by rewrite H2 in Hq.
  - simpl. intros p Hle. rewrite lookup_insert_ne by lia. apply H2. lia.
Qed.

Lemma once_ok_with i f c :
  (∀ x, c_h c !! i = Some x → (k_once x = false → k_start x = None) → k_once (f x) = false → k_start (f x) = None) →
  once_ok c → once_ok (with_h i f c).
Proof.
  intros Hf Ho j x. simpl. destruct (decide (i = j)) as [<-|Hne].
  - rewrite lookup_alter_eq. intros (y & Hy & ->)%fmap_Some. apply Hf; [done|]. by apply Ho with i.
  - rewrite lookup_alter_ne by done. apply Ho.
Qed.

Lemma acct_reg cap raced gcs c c' : acct cap raced gcs c c' → reg_ok c → reg_ok c'.
Proof.
  intros Hs Hr. destruct Hs as
    [c i path Hi|c i x Hx|c i x Hx|c i x Hx|c i x Hx|c i x p Hx Hpc Hp|c i x p Hx Hpc Hp|c i x Hx Hpc Hp|c i x Hx
    |c i x p Hx Hk Hsl Hrc Hp|c i x Hx Hk Hsl Hrc Hp|c|c|c p q Hq Hph|c p q x Hq Hph|c p q Hq Hph|c path
    |c i x Hx|c i x Hg Hx];
    try exact Hr; try (by apply (reg_ok_counted p 1 (with_h i (k_attach p) c))).
  - change (reg_ok (with_h i (k_begin None) (c_create i x c))) with (reg_ok (c_create i x c)).
    by apply reg_ok_create.
  - by apply (reg_ok_create i x (with_sem 1 0 c)).
  - simpl. destruct Hr as [H1 H2]. destruct (bool_decide (c_reg c !! q_path q = Some p)) eqn:Eb.
    + apply bool_decide_eq_true in Eb. change (without_reg (q_path q) (with_p p (q_enter Unregistered) c)) with
        (with_p p (q_enter Unregistered) (without_reg (q_path q) c)).
      apply reg_ok_phase; [|by apply reg_ok_without].
      intros path. simpl. intros [Hne Hp]%lookup_delete_Some. destruct (H1 _ _ Hp) as (q' & Hq' & Hpq & _). congruence.
    + apply bool_decide_eq_false in Eb. apply reg_ok_phase; [|done].
      intros path Hp. destruct (H1 _ _ Hp) as (q' & Hq' & Hpq & _). congruence.
  - apply (reg_ok_phase p Ended c); [|done]. intros path Hp. destruct (proj1 Hr _ _ Hp) as (q' & Hq' & _ & Hph'). congruence.
  - assert (Hok : reg_ok (with_p p (q_enter Ended) c)).
    { apply reg_ok_phase; [|done]. intros path Hp. destruct (proj1 Hr _ _ Hp) as (q' & Hq' & _ & Hph'). congruence. }
    simpl. case_match; [|exact Hok]. case_match; exact Hok.
  - by apply reg_ok_without.
  - change (reg_ok (with_h i k_close (c_release x c))) with (reg_ok (c_release x c)).
    unfold c_release. repeat case_match; try done. by apply reg_ok_counted.
  - unfold c_release. repeat case_match; try done. by apply reg_ok_counted.
Qed.

Lemma acct_once cap raced gcs c c' : acct cap raced gcs c c' → once_ok c → once_ok c'.
Proof.
  intros Hs Ho. destruct Hs; try exact Ho; try (by apply once_ok_with);
    try (by apply (once_ok_with i (k_begin None)); [|apply (once_ok_with i (k_attach p))]);
    try (by apply (once_ok_with i (k_attach _) c)).
  - intros j y. simpl. intros [[<- <-]|[_ Hy]]%lookup_insert_Some; [done|]. by apply (Ho j).
  - apply once_ok_with; [done|]. by apply (once_ok_with i (k_attach _) c).
  - simpl. case_match; exact Ho.
  - simpl. case_match; [|exact Ho]. case_match; [|exact Ho]. by apply (once_ok_with _ k_unslot c).
  - apply once_ok_with; [done|]. unfold c_release. repeat case_match; exact Ho.
  - unfold c_release. repeat case_match; exact Ho.
Qed.

(** A change of one handle moves the count of its holders, a change of one pump
    the count of the pumps. *)
Lemma holding_with c i x f :
  c_h c !! i = Some x →
  cnt is_holding (alter f i (c_h c)) = cnt is_holding (c_h c) - Z.b2z (is_holding x) + Z.b2z (is_holding (f x)).
Proof. apply cnt_alter. Qed.

Lemma live_counted c p d : cnt is_live (alter (q_count d) p (c_p c)) = cnt is_live (c_p c).
Proof. by apply cnt_alter_same. Qed.

Lemma live_release c x : cnt is_live (c_p (c_release x c)) = cnt is_live (c_p c).
Proof. unfold c_release. repeat case_match; try done. simpl. apply live_counted. Qed.

Lemma release_frame c x :
  c_h (c_release x c) = c_h c ∧ c_sem (c_release x c) = c_sem c ∧ c_temps (c_release x c) = c_temps c ∧
  c_reg (c_release x c) = c_reg c ∧ c_next (c_release x c) = c_next c.
Proof. unfold c_release. by repeat case_match. Qed.

Lemma live_new c i x :
  reg_ok c → cnt is_live (c_p (c_create i x c)) = cnt is_live (c_p c) + 1.
Proof. intros [_ Hf]. simpl. rewrite cnt_insert by (apply Hf; lia). done. Qed.

Lemma is_holding_iff x : is_holding x = true ↔ k_start x = Some Holding.
Proof. unfold is_holding. by rewrite bool_decide_eq_true. Qed.

Lemma not_holding x : k_start x ≠ Some Holding → is_holding x = false.
Proof. intros Hx. unfold is_holding. by rewrite bool_decide_eq_false. Qed.

(** How a step changes the number of holders and of tokens. *)
Lemma acct_balance cap raced gcs c c' :
  acct cap raced gcs c c' → reg_ok c → 0 ≤ c_temps c → c_sem c ≤ cap →
  c_sem c' ≤ cap ∧ 0 ≤ c_temps c' ∧
  (holders c' - holders c = c_sem c' - c_sem c ∨
   holders c' = holders c - 1 ∧ c_sem c' = c_sem c ∧
     ∃ p q, c_p c !! p = Some q ∧ q_phase q = Unregistered ∧
       (c_sem c ≤ 0 ∨ ∀ x, c_h c !! q_creator q = Some x → k_slot x = false)).
Proof.
  intros Hs Hr Ht Hc. unfold holders. destruct Hs as
    [c i path Hi|c i x Hx Hsl Hst|c i x Hx Hst|c i x Hx Hst|c i x Hx Hst Hlt|c i x p Hx Hst Hp|c i x p Hx Hst Hp
    |c i x Hx Hst Hp|c i x Hx Hrl|c i x p Hx Hk Hsl Hrc Hp|c i x Hx Hk Hsl Hrc Hp Hlt|c Hlt|c Hlt|c p q Hq Hph
    |c p q x Hq Hph Hx Hsl Hlt|c p q Hq Hph Hn|c path|c i x Hx|c i x Hg Hx].
  - split; [done|]. split; [done|left]. simpl. rewrite cnt_insert by done. simpl. lia.
  - split; [done|]. split; [done|left]. simpl. rewrite (holding_with c i x) by done.
    rewrite (not_holding x Hst). simpl. lia.
  - split; [done|]. split; [done|left]. simpl. rewrite (holding_with c i x) by done.
    rewrite (not_holding x Hst). simpl. lia.
  - split; [done|]. split; [done|left]. simpl. rewrite (holding_with c i x) by done.
    rewrite (not_holding x) by congruence. simpl. lia.
  - split; [simpl; lia|]. split; [simpl; lia|left]. simpl. rewrite (holding_with c i x) by done.
    rewrite (not_holding x) by congruence. simpl. lia.
  - split; [done|]. split; [done|left]. simpl. rewrite live_counted.
    rewrite (cnt_alter is_holding _ i (k_attach p x)) by (rewrite lookup_alter_eq, Hx; done).
    rewrite (holding_with c i x) by done. rewrite !(not_holding _) by (simpl; congruence). simpl. lia.
  - split; [simpl; lia|]. split; [simpl; lia|left]. simpl. rewrite live_counted.
    rewrite (cnt_alter is_holding _ i (k_attach p x)) by (rewrite lookup_alter_eq, Hx; done).
    rewrite (holding_with c i x) by done.
    rewrite (proj2 (is_holding_iff x) Hst), (proj2 (is_holding_iff (k_attach p x)) Hst). simpl. lia.
  - split; [done|]. split; [done|left].
    change (c_p (with_h i (k_begin None) (c_create i x c))) with (c_p (c_create i x c)).
    rewrite live_new by done. simpl.
    rewrite (cnt_alter is_holding _ i (k_attach (c_next c) x)) by (rewrite lookup_alter_eq, Hx; done).
    rewrite (holding_with c i x) by done.
    rewrite (proj2 (is_holding_iff x) Hst), (proj2 (is_holding_iff (k_attach _ x)) Hst). simpl. lia.
  - split; [done|]. split; [done|left]. simpl. rewrite (cnt_alter_same is_holding) by done. lia.
  - split; [done|]. split; [done|left]. simpl. rewrite live_counted, (cnt_alter_same is_holding) by done. lia.
  - split; [simpl; lia|]. split; [simpl; lia|left]. rewrite live_new by done. simpl.
    rewrite (cnt_alter_same is_holding) by done. lia.
  - simpl. lia.
  - simpl. lia.
  - assert (Hl : cnt is_live (alter (q_enter Unregistered) p (c_p c)) = cnt is_live (c_p c)).
    { rewrite (cnt_alter _ _ p q) by done. unfold is_live. rewrite Hph. simpl. lia. }
    simpl. case_match; simpl; rewrite Hl; lia.
  - split; [simpl; lia|]. split; [simpl; lia|left]. simpl. rewrite (cnt_alter_same is_holding) by done.
    rewrite (cnt_alter _ _ p q) by done. unfold is_live. rewrite Hph. simpl. lia.
  - assert (Hl : cnt is_live (alter (q_enter Ended) p (c_p c)) = cnt is_live (c_p c) - 1).
    { rewrite (cnt_alter _ _ p q) by done. unfold is_live. rewrite Hph. simpl. lia. }
    assert (Hd : c_sem c ≤ 0 ∨ ∀ x, c_h c !! q_creator q = Some x → k_slot x = false).
    { destruct (c_h c !! q_creator q) as [x|]; [|by right].
      destruct (k_slot x) eqn:Es; [left; by apply (Hn x)|right; by intros y [= <-]]. }
    simpl. destruct (c_h c !! q_creator q) as [x|] eqn:Ex; [destruct (k_slot x) eqn:Es|]; simpl;
      rewrite Hl, ?(cnt_alter_same is_holding) by done;
      (split; [done|split; [done|right; split; [lia|split; [done|exists p, q; by rewrite Ex]]]]).
  - split; [done|]. split; [done|left]. simpl. lia.
  - destruct (release_frame c x) as (E1 & E2 & E3 & _). simpl. rewrite live_release, E1, E2, E3, (cnt_alter_same is_holding) by done.
    lia.
  - destruct (release_frame c x) as (E1 & E2 & E3 & _). rewrite live_release, E1, E2, E3. lia.
Qed.

Lemma acct_tokens cap raced gcs c c' : acct cap raced gcs c c' → tokens_ok cap c → tokens_ok cap c'.
Proof.
  intros Hs [H1 H2 H3 H4]. destruct (acct_balance _ _ _ _ _ Hs H1 H3 ltac:(lia)) as (Hc & Ht & Hb).
  split; [by eapply acct_reg|by eapply acct_once|done|]. destruct Hb as [Hb|(Hb & Hb' & _)]; lia.
Qed.

(** *** Exact accounting, when no handle is read or released during its own start *)

Definition handle_ok (x : HK) : Prop :=
  (k_start x ≠ None → k_slot x = false ∧ k_released x = false) ∧ (k_kernel x = true → k_released x = false).

Definition handles_ok (c : Core) : Prop := ∀ i x, c_h c !! i = Some x → handle_ok x.

(** The creator of a pump keeps its slot and its state until the pump ended. *)
Definition creators_ok (c : Core) : Prop :=
  ∀ p q, c_p c !! p = Some q → is_live q = true →
    ∃ x, c_h c !! q_creator q = Some x ∧ k_slot x = true ∧ k_pump x = Some p.

Lemma handles_ok_with i f c :
  (∀ x, c_h c !! i = Some x → handle_ok x → handle_ok (f x)) → handles_ok c → handles_ok (with_h i f c).
Proof.
  intros Hf Ho j x. simpl. destruct (decide (i = j)) as [<-|Hne].
  - rewrite lookup_alter_eq. intros (y & Hy & ->)%fmap_Some. apply Hf; [done|]. by apply (Ho i).
  - rewrite lookup_alter_ne by done. apply Ho.
Qed.

Lemma creators_ok_with i f c :
  (∀ x, c_h c !! i = Some x → k_slot x = true → k_slot (f x) = true ∧ k_pump (f x) = k_pump x) →
  creators_ok c → creators_ok (with_h i f c).
Proof.
  intros Hf Ho p q Hq Hl. destruct (Ho p q Hq Hl) as (x & Hx & Hs & Hp). simpl.
  destruct (decide (i = q_creator q)) as [Ei|Hne].
  - rewrite <-Ei in *. rewrite lookup_alter_eq, Hx. simpl. destruct (Hf x Hx Hs) as [H1 H2].
    exists (f x). split_and!; congruence.
  - rewrite lookup_alter_ne by done. eauto.
Qed.

Lemma creators_ok_pump p f c :
  (∀ q, c_p c !! p = Some q → is_live (f q) = true → is_live q = true ∧ q_creator (f q) = q_creator q) →
  creators_ok c → creators_ok (with_p p f c).
Proof.
  intros Hf Ho j q. simpl. destruct (decide (p = j)) as [<-|Hne].
  - rewrite lookup_alter_eq. intros (y & Hy & ->)%fmap_Some Hl. destruct (Hf y Hy Hl) as [H1 ->]. by apply Ho.
  - rewrite lookup_alter_ne by done. apply Ho.
Qed.

Lemma creators_ok_create i x c :
  c_h c !! i = Some x → k_slot x = false → creators_ok c → creators_ok (c_create i x c).
Proof.
  intros Hx Hs Ho p q. simpl. intros [[<- <-]|[Hne Hq]]%lookup_insert_Some Hl.
  - exists (k_attach (c_next c) x). simpl. by rewrite lookup_alter_eq, Hx.
  - destruct (Ho p q Hq Hl) as (y & Hy & Hys & Hyp). exists y. split; [|done].
    rewrite lookup_alter_ne; [done|]. intros E. rewrite <-E in Hy. congruence.
Qed.

Record exact_ok (cap : Z) (c : Core) : Prop := {
  ex_tokens : tokens_ok cap c;
  ex_handles : handles_ok c;
  ex_creators : creators_ok c;
  ex_sem : c_sem c = holders c
}.

Lemma acct_handles cap gcs c c' : acct cap false gcs c c' → handles_ok c → handles_ok c'.
Proof.
  intros Hs Ho. destruct Hs as
    [c i path Hi|c i x Hx Hsl Hst Hrl|c i x Hx Hst|c i x Hx Hst|c i x Hx Hst Hlt|c i x p Hx Hst Hp|c i x p Hx Hst Hp
    |c i x Hx Hst Hp|c i x Hx Hrl|c i x p Hx Hk Hsl Hrc Hp|c i x Hx Hk Hsl Hrc Hp Hlt|c Hlt|c Hlt|c p q Hq Hph
    |c p q x Hq Hph Hx Hsl Hlt|c p q Hq Hph Hn|c path|c i x Hx Hk Hrc|c i x Hg Hx]; try exact Ho.
  - intros j y. simpl. intros [[<- <-]|[_ Hy]]%lookup_insert_Some; [by split|]. by apply (Ho j).
  - apply handles_ok_with; [|done]. intros y Hy [H1 H2]. simplify_eq. split; simpl; [|done]. auto.
  - apply handles_ok_with; [|done]. intros y Hy [H1 H2]. split; [done|done].
  - apply handles_ok_with; [|done]. intros y Hy [H1 H2]. simplify_eq. split; [|done]. intros _. apply H1. congruence.
  - apply (handles_ok_with i _ c); [|done]. intros y Hy [H1 H2]. simplify_eq. split; [|done]. intros _. apply H1. congruence.
  - change (handles_ok (with_h i (k_begin None) (with_h i (k_attach p) c))). rewrite with_h_comp.
    apply handles_ok_with; [|done]. intros y Hy [H1 H2]. by split.
  - change (handles_ok (with_h i (k_begin None) (with_h i (k_attach p) c))). rewrite with_h_comp.
    apply handles_ok_with; [|done]. intros y Hy [H1 H2]. by split.
  - change (handles_ok (with_h i (k_begin None) (with_h i (k_attach (c_next c)) c))). rewrite with_h_comp.
    apply handles_ok_with; [|done]. intros y Hy [H1 H2]. by split.
  - apply handles_ok_with; [|done]. intros y Hy [H1 H2]. simplify_eq. split; [done|by intros _].
  - apply (handles_ok_with i (k_attach p) c); [|done]. intros y Hy [H1 H2]. simplify_eq. split; simpl; [|done].
    rewrite (Hrc eq_refl). done.
  - apply (handles_ok_with i (k_attach (c_next c)) c); [|done]. intros y Hy [H1 H2]. simplify_eq. split; simpl; [|done].
    rewrite (Hrc eq_refl). done.
  - simpl. case_match; exact Ho.
  - apply (handles_ok_with _ k_unslot c); [|done]. intros y Hy [H1 H2]. split; simpl; [|done]. intros Hy'. split; [done|].
    by apply H1.
  - simpl. case_match; [|exact Ho]. case_match; [|exact Ho]. apply (handles_ok_with _ k_unslot c); [|done].
    intros y Hy [H1 H2]. split; simpl; [|done]. intros Hy'. split; [done|]. by apply H1.
  - apply handles_ok_with.
    + intros y. rewrite (proj1 (release_frame c x)), Hx. intros [= <-] _. split; [|done]. simpl. rewrite (Hrc eq_refl). done.
    + intros j y. rewrite (proj1 (release_frame c x)). apply Ho.
  - intros j y. rewrite (proj1 (release_frame c x)). apply Ho.
Qed.

Lemma acct_creators cap gcs c c' :
  acct cap false gcs c c' → handles_ok c → creators_ok c → creators_ok c'.
Proof.
  intros Hs Hh Ho. destruct Hs as
    [c i path Hi|c i x Hx Hsl Hst Hrl|c i x Hx Hst|c i x Hx Hst|c i x Hx Hst Hlt|c i x p Hx Hst Hp|c i x p Hx Hst Hp
    |c i x Hx Hst Hp|c i x Hx Hrl|c i x p Hx Hk Hsl Hrc Hp|c i x Hx Hk Hsl Hrc Hp Hlt|c Hlt|c Hlt|c p q Hq Hph
    |c p q x Hq Hph Hx Hsl Hlt|c p q Hq Hph Hn|c path|c i x Hx Hk Hrc|c i x Hg Hx]; try exact Ho;
    try (by apply creators_ok_with); try (by apply (creators_ok_with i _ c)).
  - intros p q Hq Hl. destruct (Ho p q Hq Hl) as (x & Hx & Hr). exists x. split; [|done]. simpl.
    rewrite lookup_insert_ne; [done|]. intros E. rewrite <-E in Hx. congruence.
  - apply creators_ok_with; [done|]. apply creators_ok_pump; [done|]. apply creators_ok_with; [|done].
    intros y Hy Hys. simplify_eq. destruct (proj1 (Hh _ _ Hx)); congruence.
  - apply creators_ok_with; [done|]. apply creators_ok_pump; [done|]. apply (creators_ok_with i _ c); [|done].
    intros y Hy Hys. simplify_eq. destruct (proj1 (Hh _ _ Hx)); congruence.
  - apply creators_ok_with; [done|]. apply creators_ok_create; [done| |done].
    apply (proj1 (Hh _ _ Hx)). congruence.
  - apply creators_ok_pump; [done|]. apply creators_ok_with; [|done]. intros y Hy Hys. congruence.
  - by apply (creators_ok_create i x c).
  - assert (H1 : creators_ok (with_p p (q_enter Unregistered) c)).
    { apply creators_ok_pump; [|done]. intros y Hy _. simplify_eq. split; [|done]. unfold is_live. by rewrite Hph. }
    simpl. case_match; exact H1.
  - assert (H1 : creators_ok (with_p p (q_enter Ended) c)) by (apply creators_ok_pump; [|done]; by intros y Hy ?).
    intros j r Hr Hl. destruct (H1 j r Hr Hl) as (y & Hy & Hys & Hyp). simpl in *.
    assert (Hne : q_creator q ≠ q_creator r).
    { intros E. rewrite E in Hx. destruct (Ho p q Hq) as (z & Hz & _ & Hzp); [unfold is_live; by rewrite Hph|].
      rewrite E in Hz. simplify_eq. rewrite lookup_alter_eq, Hq in Hr. simpl in Hr. by simplify_eq. }
    exists y. by rewrite lookup_alter_ne.
  - destruct (Ho p q Hq) as (z & Hz & Hzs & _); [unfold is_live; by rewrite Hph|].
    assert (H1 : creators_ok (with_p p (q_enter Ended) c)) by (apply creators_ok_pump; [|done]; by intros y Hy ?).
    simpl. rewrite Hz, Hzs. intros j r Hr Hl. destruct (H1 j r Hr Hl) as (y & Hy & Hys & Hyp). simpl in *.
    assert (Hne : q_creator q ≠ q_creator r).
    { intros E. destruct (Ho p q Hq) as (z' & Hz' & _ & Hzp); [unfold is_live; by rewrite Hph|].
      rewrite E in Hz'. simplify_eq. rewrite lookup_alter_eq, Hq in Hr. simpl in Hr. by simplify_eq. }
    exists y. by rewrite lookup_alter_ne.
  - apply creators_ok_with; [done|]. unfold c_release. repeat case_match; try done. by apply creators_ok_pump.
  - unfold c_release. repeat case_match; try done. by apply creators_ok_pump.
Qed.

Lemma acct_exact cap gcs c c' : acct cap false gcs c c' → exact_ok cap c → exact_ok cap c'.
Proof.
  intros Hs [Ht Hh Hcr He]. pose proof Ht as [H1 H2 H3 H4].
  destruct (acct_balance _ _ _ _ _ Hs H1 H3 ltac:(lia)) as (_ & _ & Hb).
  split; [by eapply acct_tokens|by eapply acct_handles|by eapply acct_creators|].
  destruct Hb as [Hb|(_ & _ & p & q & Hq & Hph & Hd)]; [lia|exfalso].
  assert (Hl : is_live q = true) by (unfold is_live; by rewrite Hph).
  destruct (Hcr p q Hq Hl) as (x & Hx & Hsl & _).
  destruct Hd as [Hd|Hd]; [|rewrite (Hd x Hx) in Hsl; done].
  pose proof (cnt_pos is_live p q (c_p c) Hq Hl). pose proof (cnt_nonneg is_holding (c_h c)). unfold holders in *. lia.
Qed.

(** *** Reference counts, when the collector does not release handles in use *)

(** The handle stands for one reference of the pump. *)
Definition attached (p : nat) (x : HK) : bool := bool_decide (k_pump x = Some p) && negb (k_released x).

Record refs_ok (c : Core) : Prop := {
  rf_refs : ∀ path p q, c_reg c !! path = Some p → c_p c !! p = Some q → q_refs q = i32 (cnt (attached p) (c_h c));
  rf_slot : ∀ i x p q, c_h c !! i = Some x → k_pump x = Some p → c_p c !! p = Some q → q_phase q = Running →
    k_slot x = true ∧ k_path x = q_path q;
  rf_fresh : ∀ i x p, c_h c !! i = Some x → k_pump x = Some p → (p < c_next c)%nat
}.


Lemma cnt_none {V} (f : V → bool) m : (∀ k v, m !! k = Some v → f v = false) → cnt f m = 0.
Proof.
  intros Hf. unfold cnt. rewrite map_empty_filter_2; [by rewrite map_size_empty|].
  intros k v Hk. simpl. rewrite (Hf k v Hk). done.
Qed.

Lemma attached_false p x : k_pump x ≠ Some p → attached p x = false.
Proof. intros Hx. unfold attached. by rewrite bool_decide_eq_false_2. Qed.

(** A handle whose pump, path and slot stay, and that is not given back. *)
Lemma refs_ok_with i f c :
  (∀ x, c_h c !! i = Some x → k_pump (f x) = k_pump x ∧ k_path (f x) = k_path x ∧ k_slot (f x) = k_slot x ∧
     k_released (f x) = k_released x) →
  refs_ok c → refs_ok (with_h i f c).
Proof.
  intros Hf [H1 H2 H3].
  assert (Hlk : ∀ j y, alter f i (c_h c) !! j = Some y → ∃ x, c_h c !! j = Some x ∧ k_pump y = k_pump x ∧
    k_path y = k_path x ∧ k_slot y = k_slot x).
  { intros j y. destruct (decide (i = j)) as [<-|Hne].
    - rewrite lookup_alter_eq. intros (x & Hx & ->)%fmap_Some. destruct (Hf x Hx) as (? & ? & ? & ?). eauto.
    - rewrite lookup_alter_ne by done. eauto. }
  split; simpl.
  - intros path p q Hr Hq. rewrite (H1 path p q Hr Hq). f_equal. symmetry.
    destruct (c_h c !! i) as [x|] eqn:Ex.
    + rewrite (cnt_alter _ _ i x) by done. destruct (Hf x eq_refl) as (E1 & _ & _ & E4). unfold attached.
      rewrite E1, E4. lia.
    + f_equal. apply map_eq. intros j. destruct (decide (i = j)) as [<-|Hne]; [|by rewrite lookup_alter_ne].
      by rewrite lookup_alter_eq, Ex.
  - intros j y p q Hy Hp Hq Hph. destruct (Hlk j y Hy) as (x & Hx & E1 & E2 & E3). rewrite E2, E3.
    apply (H2 j x p q); [done|congruence|done|done].
  - intros j y p Hy Hp. destruct (Hlk j y Hy) as (x & Hx & E1 & _). apply (H3 j x p); [done|congruence].
Qed.

(** A free handle takes a reference of the registered pump of its path. *)
Lemma refs_ok_attach i x p c :
  reg_ok c → c_h c !! i = Some x → k_slot x = false → k_released x = false → c_reg c !! k_path x = Some p →
  refs_ok c → refs_ok (c_attach i p c).
Proof.
  intros [Hreg Hnext] Hx Hs Hrl Hp [H1 H2 H3]. destruct (Hreg _ _ Hp) as (q0 & Hq0 & Hqp & Hph0).
  assert (Hfree : ∀ path j q, c_reg c !! path = Some j → c_p c !! j = Some q → attached j x = false).
  { intros path j q Hr Hq. apply attached_false. intros Hk. destruct (Hreg _ _ Hr) as (q' & Hq' & _ & Hph').
    simplify_eq. destruct (H2 i x j q Hx Hk Hq Hph') as [Hs' _]. congruence. }
  split; simpl.
  - intros path j q Hr. destruct (decide (p = j)) as [<-|Hne].
    + rewrite lookup_alter_eq, Hq0. intros [= <-]. simpl. rewrite (H1 _ _ _ Hr Hq0), i32_add. f_equal.
      rewrite (cnt_alter _ _ i x) by done. rewrite (Hfree _ _ _ Hr Hq0). unfold attached. simpl.
      rewrite bool_decide_eq_true_2, Hrl by done. simpl. lia.
    + rewrite lookup_alter_ne by done. intros Hq. rewrite (H1 _ _ _ Hr Hq). f_equal.
      rewrite (cnt_alter _ _ i x) by done. rewrite (Hfree _ _ _ Hr Hq).
      rewrite (attached_false j (k_attach p x)) by (simpl; congruence). lia.
  - intros j y r q Hy Hr Hq Hph.
    assert (Hq' : ∃ q', c_p c !! r = Some q' ∧ q_path q' = q_path q ∧ q_phase q' = Running).
    { destruct (decide (p = r)) as [<-|Hne].
      - rewrite lookup_alter_eq, Hq0 in Hq. injection Hq as <-. by exists q0.
      - rewrite lookup_alter_ne in Hq by done. by exists q. }
    destruct Hq' as (q' & Hq' & Ep & Hph'). rewrite <-Ep. destruct (decide (i = j)) as [<-|Hne].
    + rewrite lookup_alter_eq, Hx in Hy. injection Hy as <-. simpl in *. injection Hr as <-. simplify_eq. done.
    + rewrite lookup_alter_ne in Hy by done. by apply (H2 j y r q').
  - intros j y r Hy Hr. destruct (decide (i = j)) as [<-|Hne].
    + rewrite lookup_alter_eq, Hx in Hy. injection Hy as <-. simpl in *. injection Hr as <-.
      destruct (decide (p < c_next c)%nat); [done|]. rewrite Hnext in Hq0 by lia. done.
    + rewrite lookup_alter_ne in Hy by done. by eapply H3.
Qed.

Lemma refs_ok_create i x c :
  reg_ok c → c_h c !! i = Some x → k_slot x = false → k_released x = false → c_reg c !! k_path x = None →
  refs_ok c → refs_ok (c_create i x c).
Proof.
  intros [Hreg Hnext] Hx Hs Hrl Hp [H1 H2 H3]. split; simpl.
  - intros path j q [[<- <-]|[Hne Hr]]%lookup_insert_Some.
    + rewrite lookup_insert_eq. intros [= <-]. simpl. rewrite (cnt_alter _ _ i x) by done.
      rewrite (cnt_none (attached (c_next c)) (c_h c)).
      2:{ intros k v Hv. apply attached_false. intros Hk. pose proof (H3 k v _ Hv Hk). lia. }
      rewrite attached_false by (intros Hk; pose proof (H3 i x _ Hx Hk); lia).
      unfold attached. simpl. rewrite bool_decide_eq_true_2, Hrl by done. done.
    + destruct (Hreg _ _ Hr) as (q' & Hq' & _ & Hph').
      rewrite lookup_insert_ne by (intros <-; by rewrite Hnext in Hq'). intros Hq. simplify_eq.
      rewrite (H1 _ _ _ Hr Hq'). f_equal. rewrite (cnt_alter _ _ i x) by done.
      rewrite (attached_false j x), (attached_false j (k_attach _ x)); [lia| |].
      * simpl. intros [= <-]. by rewrite Hnext in Hq'.
      * intros Hk. destruct (H2 i x j q' Hx Hk Hq' Hph') as [Hs' _]. congruence.
  - intros j y r q Hy Hr Hq Hph. destruct (decide (i = j)) as [<-|Hne].
    + rewrite lookup_alter_eq, Hx in Hy. injection Hy as <-. simpl in *. injection Hr as <-.
      rewrite lookup_insert_eq in Hq. by injection Hq as <-.
    + rewrite lookup_alter_ne in Hy by done. pose proof (H3 j y r Hy Hr).
      rewrite lookup_insert_ne in Hq by lia. by apply (H2 j y r q).
  - intros j y r Hy Hr. destruct (decide (i = j)) as [<-|Hne].
    + rewrite lookup_alter_eq, Hx in Hy. injection Hy as <-. simpl in *. injection Hr as <-. lia.
    + rewrite lookup_alter_ne in Hy by done. pose proof (H3 j y r Hy Hr). lia.
Qed.

Lemma refs_ok_phase p ph c :
  ph ≠ Running → (∀ path, c_reg c !! path ≠ Some p) → refs_ok c → refs_ok (with_p p (q_enter ph) c).
Proof.
  intros Hph Hno [H1 H2 H3]. split; simpl; [| |done].
  - intros path j q Hr. destruct (decide (p = j)) as [<-|Hne]; [by destruct (Hno path)|].
    rewrite lookup_alter_ne by done. by apply (H1 path).
  - intros i x j q Hx Hk Hq Hq'. destruct (decide (p = j)) as [<-|Hne].
    + rewrite lookup_alter_eq in Hq. apply fmap_Some in Hq as (q' & _ & ->). by simpl in Hq'.
    + rewrite lookup_alter_ne in Hq by done. by apply (H2 i x j q).
Qed.

Lemma refs_ok_without path c : refs_ok c → refs_ok (without_reg path c).
Proof. intros [H1 H2 H3]. split; [|done|done]. simpl. intros path' p q [_ Hr]%lookup_delete_Some. by apply (H1 path'). Qed.

(** The kernel gives a handle back: its pump loses exactly that reference. *)
Lemma refs_ok_release i x c :
  reg_ok c → c_h c !! i = Some x → k_released x = false → refs_ok c → refs_ok (with_h i k_close (c_release x c)).
Proof.
  intros [Hreg Hnext] Hx Hrl [H1 H2 H3].
  destruct (release_frame c x) as (E1 & _ & _ & E4 & E5).
  assert (Hpath : ∀ path j q, c_reg c !! path = Some j → c_p c !! j = Some q → k_pump x = Some j →
    k_slot x = true ∧ k_path x = path).
  { intros path j q Hr Hq Hk. destruct (Hreg _ _ Hr) as (q' & Hq' & <- & Hph').
    assert (q' = q) as -> by congruence. by apply (H2 i x j q). }
  assert (Hpk : ∀ j, c_p (c_release x c) !! j = c_p c !! j ∨
    ∃ q, c_p c !! j = Some q ∧ c_p (c_release x c) !! j = Some (q_count (-1) q) ∧
      c_reg c !! k_path x = Some j ∧ k_slot x = true ∧ k_pump x = Some j).
  { intros j. unfold c_release. destruct (c_reg c !! k_path x) as [p|] eqn:Er; [|by left].
    destruct (k_slot x) eqn:Es; simpl; [|by left]. case_bool_decide as Hk; [|by left].
    destruct (decide (p = j)) as [<-|Hne]; [right|left; simpl; by rewrite lookup_alter_ne].
    destruct (Hreg _ _ Er) as (q & Hq & _). exists q. simpl. by rewrite lookup_alter_eq, Hq. }
  split; simpl; rewrite ?E1, ?E4, ?E5.
  - intros path j q Hr Hq. rewrite (cnt_alter _ _ i x) by done.
    replace (attached j (k_close x)) with false by (unfold attached; simpl; by rewrite andb_false_r).
    destruct (Hpk j) as [Ej|(q' & Hq' & Ej & Hr' & Hs & Hk)]; rewrite Ej in Hq.
    + rewrite (H1 _ _ _ Hr Hq). f_equal. rewrite attached_false; [simpl; lia|].
      intros Hk. destruct (Hpath _ _ _ Hr Hq Hk) as [Hs Hp].
      unfold c_release in Ej. rewrite Hp, Hr, Hs in Ej. simpl in Ej. rewrite bool_decide_eq_true_2 in Ej by done.
      simpl in Ej. rewrite lookup_alter_eq, Hq in Ej. simpl in Ej. injection Ej as Ej.
      apply (f_equal q_refs) in Ej. simpl in Ej. rewrite (H1 _ _ _ Hr Hq), i32_add in Ej.
      revert Ej. unfold i32, wrap_s. intros Ej.
      set (a := cnt (attached j) (c_h c)) in *. assert (Hm : (a + -1 + 2147483648) mod 4294967296 = (a + 2147483648) mod 4294967296)
        by (change (2 ^ (32 - 1)) with 2147483648 in Ej; change (2 ^ 32) with 4294967296 in Ej; lia).
      exfalso. clear -Hm. Z.to_euclidean_division_equations. lia.
    + injection Hq as <-. simpl. rewrite (H1 _ _ _ Hr Hq'), i32_add. f_equal.
      unfold attached. rewrite bool_decide_eq_true_2, Hrl by done. simpl. lia.
  - intros j y r q Hy Hr Hq Hph.
    assert (Hq' : ∃ q', c_p c !! r = Some q' ∧ q_path q' = q_path q ∧ q_phase q' = Running).
    { destruct (Hpk r) as [Ej|(q' & Hq' & Ej & _)]; rewrite Ej in Hq; [by exists q|]. injection Hq as <-. by exists q'. }
    destruct Hq' as (q' & Hq' & <- & Hph'). destruct (decide (i = j)) as [<-|Hne].
    + rewrite lookup_alter_eq, Hx in Hy. injection Hy as <-. simpl in *. by apply (H2 i x r q').
    + rewrite lookup_alter_ne in Hy by done. by apply (H2 j y r q').
  - intros j y r Hy Hr. destruct (decide (i = j)) as [<-|Hne].
    + rewrite lookup_alter_eq, Hx in Hy. injection Hy as <-. by apply (H3 i x r).
    + rewrite lookup_alter_ne in Hy by done. by apply (H3 j y r).
Qed.

Lemma refs_ok_sem d t c : refs_ok c → refs_ok (with_sem d t c).
Proof. intros [H1 H2 H3]. by split. Qed.

Lemma acct_refs cap c c' :
  acct cap false false c c' → exact_ok cap c → refs_ok c → refs_ok c'.
Proof.
  intros Hs [[Hreg _ _ _] Hh Hcr _] Ho. destruct Hs as
    [c i path Hi|c i x Hx Hsl Hst Hrl|c i x Hx Hst|c i x Hx Hst|c i x Hx Hst Hlt|c i x p Hx Hst Hp|c i x p Hx Hst Hp
    |c i x Hx Hst Hp|c i x Hx Hrl|c i x p Hx Hk Hsl Hrc Hp|c i x Hx Hk Hsl Hrc Hp Hlt|c Hlt|c Hlt|c p q Hq Hph
    |c p q x Hq Hph Hx Hsl Hlt|c p q Hq Hph Hn|c path|c i x Hx Hk Hrc|c i x Hg Hx]; try done;
    try (by apply refs_ok_sem); try (by apply refs_ok_with); try (by apply refs_ok_sem, refs_ok_with).
  - destruct Ho as [H1 H2 H3]. split; simpl.
    + intros path' p q Hr Hq. rewrite (H1 _ _ _ Hr Hq), cnt_insert by done. unfold attached. simpl. by rewrite Z.add_0_r.
    + intros j y p q [[<- <-]|[_ Hy]]%lookup_insert_Some; [done|]. by apply (H2 j).
    + intros j y p [[<- <-]|[_ Hy]]%lookup_insert_Some; [done|]. by apply (H3 j).
  - destruct (proj1 (Hh _ _ Hx)) as [Hsl Hrl]; [congruence|].
    apply refs_ok_with; [done|]. by apply (refs_ok_attach i x).
  - destruct (proj1 (Hh _ _ Hx)) as [Hsl Hrl]; [congruence|].
    apply refs_ok_with; [done|]. by apply (refs_ok_attach i x p (with_sem (-1) 0 c)), refs_ok_sem.
  - destruct (proj1 (Hh _ _ Hx)) as [Hsl Hrl]; [congruence|].
    apply refs_ok_with; [done|]. by apply refs_ok_create.
  - apply (refs_ok_attach i x); try done. by apply (proj2 (Hh _ _ Hx)).
  - apply (refs_ok_create i x (with_sem 1 0 c)); try done; [by apply (proj2 (Hh _ _ Hx))|by apply refs_ok_sem].
  - simpl. destruct (bool_decide (c_reg c !! q_path q = Some p)) eqn:Eb.
    + apply bool_decide_eq_true in Eb. change (without_reg (q_path q) (with_p p (q_enter Unregistered) c)) with
        (with_p p (q_enter Unregistered) (without_reg (q_path q) c)).
      apply refs_ok_phase; [done| |by apply refs_ok_without].
      intros path. simpl. intros [Hne Hp]%lookup_delete_Some. destruct (proj1 Hreg _ _ Hp) as (q' & Hq' & Hpq & _). congruence.
    + apply bool_decide_eq_false in Eb. apply refs_ok_phase; [done| |done].
      intros path Hp. destruct (proj1 Hreg _ _ Hp) as (q' & Hq' & Hpq & _). congruence.
  - assert (Hno : ∀ path, c_reg c !! path ≠ Some p).
    { intros path Hp. destruct (proj1 Hreg _ _ Hp) as (q' & Hq' & _ & Hph'). congruence. }
    destruct (refs_ok_phase p Ended c ltac:(done) Hno Ho) as [H1 H2 H3].
    assert (Hxp : k_pump x = Some p).
    { destruct (Hcr p q Hq) as (y & Hy & _ & Hyp); [unfold is_live; by rewrite Hph|]. by simplify_eq. }
    split; simpl in *.
    + intros path j r Hr Hj. rewrite (H1 path j r Hr Hj). f_equal. by rewrite cnt_alter_same.
    + intros j y r q' Hy Hr Hq' Hph'. destruct (decide (q_creator q = j)) as [<-|Hne].
      * rewrite lookup_alter_eq, Hx in Hy. injection Hy as <-. simpl in *. simplify_eq.
        rewrite lookup_alter_eq, Hq in Hq'. by injection Hq' as <-.
      * rewrite lookup_alter_ne in Hy by done. by apply (H2 j y r q').
    + intros j y r Hy Hr. destruct (decide (q_creator q = j)) as [<-|Hne].
      * rewrite lookup_alter_eq, Hx in Hy. injection Hy as <-. by apply (H3 (q_creator q) x).
      * rewrite lookup_alter_ne in Hy by done. by apply (H3 j y).
  - destruct (Hcr p q Hq) as (x & Hx & Hsl & Hxp); [unfold is_live; by rewrite Hph|].
    assert (Hno : ∀ path, c_reg c !! path ≠ Some p).
    { intros path Hp. destruct (proj1 Hreg _ _ Hp) as (q' & Hq' & _ & Hph'). congruence. }
    destruct (refs_ok_phase p Ended c ltac:(done) Hno Ho) as [H1 H2 H3].
    simpl. rewrite Hx, Hsl. split; simpl in *.
    + intros path j r Hr Hj. rewrite (H1 path j r Hr Hj). f_equal. by rewrite cnt_alter_same.
    + intros j y r q' Hy Hr Hq' Hph'. destruct (decide (q_creator q = j)) as [<-|Hne].
      * rewrite lookup_alter_eq, Hx in Hy. injection Hy as <-. simpl in *. simplify_eq.
        rewrite lookup_alter_eq, Hq in Hq'. by injection Hq' as <-.
      * rewrite lookup_alter_ne in Hy by done. by apply (H2 j y r q').
    + intros j y r Hy Hr. destruct (decide (q_creator q = j)) as [<-|Hne].
      * rewrite lookup_alter_eq, Hx in Hy. injection Hy as <-. by apply (H3 (q_creator q) x).
      * rewrite lookup_alter_ne in Hy by done. by apply (H3 j y).
  - by apply refs_ok_without.
  - apply refs_ok_release; try done. by apply (proj2 (Hh _ _ Hx)).
Qed.

(** *** Reachable states *)

Section reachable.
Context `{GoRuntime} (cap : Z) (Hcap : 0 ≤ cap).

Lemma tokens_init : tokens_ok cap (core life_init).
Proof.
  split.
  - split; [|done]. intros path p. simpl. by rewrite lookup_empty.
  - intros i x. simpl. by rewrite fmap_empty, lookup_empty.
  - done.
  - unfold holders. simpl. rewrite !fmap_empty, !cnt_empty. lia.
Qed.

Lemma exact_init : exact_ok cap (core life_init).
Proof.
  split; [apply tokens_init|..].
  - intros i x. simpl. by rewrite fmap_empty, lookup_empty.
  - intros p q. simpl. by rewrite fmap_empty, lookup_empty.
  - unfold holders. simpl. by rewrite !fmap_empty, !cnt_empty.
Qed.

Lemma refs_init : refs_ok (core life_init).
Proof.
  split; simpl.
  - intros path p q. by rewrite lookup_empty.
  - intros i x p q. by rewrite fmap_empty, lookup_empty.
  - intros i x p. by rewrite fmap_empty, lookup_empty.
Qed.

(** An invariant of the accounting that implies its well-formedness holds in every
    reachable state. *)
Lemma life_invariant raced gcs (P : Core → Prop) s :
  (∀ c, P c → tokens_ok cap c) → (∀ c c', acct cap raced gcs c c' → P c → P c') → P (core life_init) →
  rtc (life_step cap raced gcs) life_init s → P (core s).
Proof.
  intros Hwf Hstep H0 Hr. revert H0. induction Hr as [|x y z Hxy _ IH]; [done|]. intros Hx. apply IH.
  destruct (Hwf _ Hx) as [Hreg Honce _ _].
  destruct (life_refines cap raced gcs x y Hxy Honce Hreg) as [->|Ha]; [done|]. by eapply Hstep.
Qed.

Lemma life_tokens raced gcs s : rtc (life_step cap raced gcs) life_init s → tokens_ok cap (core s).
Proof. apply life_invariant; [done|apply acct_tokens|apply tokens_init]. Qed.

Lemma life_exact gcs s : rtc (life_step cap false gcs) life_init s → exact_ok cap (core s).
Proof. apply life_invariant; [apply ex_tokens|apply acct_exact|apply exact_init]. Qed.

Lemma life_refs s : rtc (life_step cap false false) life_init s → exact_ok cap (core s) ∧ refs_ok (core s).
Proof.
  apply (life_invariant false false (λ c, exact_ok cap c ∧ refs_ok c)).
  - intros c [He _]. apply He.
  - intros c c' Ha [He Hr]. split; [by eapply acct_exact|by eapply acct_refs].
  - split; [apply exact_init|apply refs_init].
Qed.

Definition live_pumps (s : Life) : Z := cnt (λ sp, negb (bool_decide (sp_phase sp = Ended))) (l_pumps s).
Definition starts_holding (s : Life) : Z := cnt (λ x, bool_decide (lv_start x = Some Holding)) (l_handles s).
Definition attached_handles (p : nat) (s : Life) : Z :=
  cnt (λ x, bool_decide (lv_pump x = Some p) && negb (lv_released x)) (l_handles s).

Lemma cnt_fmap {V W} (g : V → W) (f : W → bool) (m : gmap nat V) : cnt f (g <$> m) = cnt (f ∘ g) m.
Proof. unfold cnt. rewrite map_filter_fmap, map_size_fmap. done. Qed.

Lemma holders_core s : holders (core s) = live_pumps s + starts_holding s + l_temps s.
Proof. unfold holders, core. simpl. by rewrite !cnt_fmap. Qed.

(** C17: Under every interleaving of opens, starts, reads, releases, collections,
    webhooks, unlinks, timers and pump ends, the tokens taken cover every pump that
    runs, every start that holds one and every temporary reader: their number never
    exceeds the capacity of the semaphore.  When no handle is read or released during
    the start of its own pump, no token is lost either. *)
Theorem pump_tokens_balance raced gcs s :
  rtc (life_step cap raced gcs) life_init s →
  live_pumps s + starts_holding s + l_temps s ≤ l_sem s ≤ cap ∧ 0 ≤ l_temps s ∧
  (raced = false → l_sem s = live_pumps s + starts_holding s + l_temps s).
Proof.
  intros Hr. destruct (life_tokens raced gcs s Hr) as [_ _ H3 H4]. rewrite holders_core in H4.
  split; [done|]. split; [done|]. intros ->. rewrite <-holders_core. apply (ex_sem cap (core s)). by eapply life_exact.
Qed.

End reachable.

(** ** Runs

    The steps as commands that compute, to run the program on examples. *)

Inductive cmd :=
  | DoOpenFails (path : string)
  | DoOpen (i : nat) (path hash : string)
  | DoCheck (i : nat) | DoLookup (i : nat) | DoToken (i : nat) | DoCreate (i : nat) | DoOpened (i : nat)
  | DoRead (i : nat)
  | DoUnregister (p : nat) | DoGiveback (p : nat)
  | DoCancel (path : string)
  | DoRelease (i : nat) | DoGc (i : nat)
  | DoFire (t : nat) | DoRun (t : nat)
  | DoPriority (hash : string).

Section runs.
Context `{GoRuntime} (cap : Z) (raced gcs : bool).

Definition at_pc (pc : option start_pc) (i : nat) (s : Life) : bool :=
  match l_handles s !! i with Some x => bool_decide (lv_start x = pc) | None => false end.
Definition in_phase (ph : phase) (p : nat) (s : Life) : bool :=
  match l_pumps s !! p with Some sp => bool_decide (sp_phase sp = ph) | None => false end.
Definition in_kernel (i : nat) (s : Life) : bool :=
  match l_handles s !! i with Some x => lv_kernel x && (raced || bool_decide (lv_start x = None)) | None => false end.

Definition exec (c : cmd) (s : Life) : option Life :=
  match c with
  | DoOpenFails path => Some (open_debounce path s)
  | DoOpen i path hash =>
      guard (l_handles s !! i = None);; Some (open_handle 0 i path hash 6 false s)
  | DoCheck i =>
      match l_handles s !! i with
      | Some x => if raced || negb (lv_released x) then Some (start_check cap i s) else None
      | None => None
      end
  | DoLookup i => if at_pc (Some Checked) i s then Some (start_lookup i s) else None
  | DoToken i => if at_pc (Some Missed) i s then Some (start_token cap i s) else None
  | DoCreate i => if at_pc (Some Holding) i s then Some (start_create i s) else None
  | DoOpened i =>
      match l_handles s !! i with
      | Some x => if bool_decide (lv_start x = None) && negb (lv_kernel x) && negb (lv_released x)
                  then Some (upd_handle i lv_opened s) else None
      | None => None
      end
  | DoRead i => if in_kernel i s then Some (read_pump_slot cap i true true s) else None
  | DoUnregister p => if in_phase Running p s then Some (pump_unregister p s) else None
  | DoGiveback p => if in_phase Unregistered p s then Some (pump_giveback p s) else None
  | DoCancel path => Some (terminateOrphanPump path s).2
  | DoRelease i => if in_kernel i s then Some (upd_handle i lv_given_back (Release 5 i s)) else None
  | DoGc i =>
      match l_handles s !! i with
      | Some x => if gcs && lv_active x then Some (Release 5 i s) else None
      | None => None
      end
  | DoFire t => Some (fire_timer t s)
  | DoRun t => Some (run_timer t s)
  | DoPriority hash => Some (with_priority {[hash]} s)
  end.

Fixpoint exec_all (cs : list cmd) (s : Life) : option Life :=
  match cs with [] => Some s | c :: cs => exec c s ≫= exec_all cs end.

Lemma exec_step c s s' : exec c s = Some s' → life_step cap raced gcs s s'.
Proof.
  intros He.
  assert (Hpc : ∀ pc i, at_pc pc i s = true → ∃ x, l_handles s !! i = Some x ∧ lv_start x = pc).
  { intros pc i. unfold at_pc. case_match; [|done]. intros Hb%bool_decide_eq_true. eauto. }
  assert (Hph : ∀ ph p, in_phase ph p s = true → ∃ x, l_pumps s !! p = Some x ∧ sp_phase x = ph).
  { intros pc i. unfold in_phase. case_match; [|done]. intros Hb%bool_decide_eq_true. eauto. }
  assert (Hk : ∀ i, in_kernel i s = true → ∃ x, l_handles s !! i = Some x ∧ lv_kernel x = true ∧
    (raced = false → lv_start x = None)).
  { intros i. unfold in_kernel. case_match; [|done]. intros [Hb1 Hb2]%andb_true_iff. eexists. split_and!; [done|done|].
    intros ->. by apply bool_decide_eq_true in Hb2. }
  destruct c; simpl in He.
  - injection He as <-. constructor.
  - case_guard; [|done]. injection He as <-. by constructor.
  - case_match eqn:Ei; [|done]. case_match eqn:Eb; [|done]. injection He as <-. eapply L_check; [done|].
    intros ->. by apply negb_true_iff in Eb.
  - case_match eqn:Eb; [|done]. injection He as <-. destruct (Hpc _ _ Eb) as (x & Hx & Hs). by eapply L_lookup.
  - case_match eqn:Eb; [|done]. injection He as <-. destruct (Hpc _ _ Eb) as (x & Hx & Hs). by eapply L_token.
  - case_match eqn:Eb; [|done]. injection He as <-. destruct (Hpc _ _ Eb) as (x & Hx & Hs). by eapply L_create.
  - case_match eqn:Ei; [|done]. case_match eqn:Eb; [|done]. injection He as <-.
    apply andb_true_iff in Eb as [[E1%bool_decide_eq_true E2%negb_true_iff]%andb_true_iff E3%negb_true_iff].
    by eapply L_opened.
  - case_match eqn:Eb; [|done]. injection He as <-. destruct (Hk _ Eb) as (x & Hx & Hs & Hr). by eapply L_read.
  - case_match eqn:Eb; [|done]. injection He as <-. destruct (Hph _ _ Eb) as (x & Hx & Hs). by eapply L_unregister.
  - case_match eqn:Eb; [|done]. injection He as <-. destruct (Hph _ _ Eb) as (x & Hx & Hs). by eapply L_giveback.
  - injection He as <-. constructor.
  - case_match eqn:Eb; [|done]. injection He as <-. destruct (Hk _ Eb) as (x & Hx & Hs & Hr). by eapply L_release.
  - case_match eqn:Ei; [|done]. case_match eqn:Eb; [|done]. injection He as <-.
    apply andb_true_iff in Eb as [Eg Ea]. by eapply L_gc.
  - injection He as <-. constructor.
  - injection He as <-. constructor.
  - injection He as <-. constructor.
Qed.

Lemma exec_all_reachable cs s s' : exec_all cs s = Some s' → rtc (life_step cap raced gcs) s s'.
Proof.
  revert s. induction cs as [|c cs IH]; intros s; simpl; [intros [= <-]; apply rtc_refl|].
  intros (s1 & Hc & Hcs)%bind_Some. eapply rtc_l; [by eapply exec_step|by apply IH].
Qed.

Definition life_run (cs : list cmd) : Life := default life_init (exec_all cs life_init).

Lemma life_run_reachable cs :
  bool_decide (is_Some (exec_all cs life_init)) = true → rtc (life_step cap raced gcs) life_init (life_run cs).
Proof.
  intros Hb%bool_decide_eq_true. unfold life_run. destruct Hb as [s Hs]. rewrite Hs. by apply exec_all_reachable in Hs.
Qed.
End runs.

(** A file opened, its pump started, the handle given to the kernel. *)
Definition cmds_start (i : nat) : list cmd :=
  [DoOpen i "m" "ab"; DoCheck i; DoLookup i; DoToken i; DoCreate i; DoOpened i].
Definition cmds_released : list cmd := cmds_start 0 ++ [DoRelease 0].

Lemma pump_tokens_balance_witness :
  let s := life_run 10 false false (cmds_start 0) in
  live_pumps s = 1 ∧ l_sem s = 1 ∧ l_sem s ≤ 10.
Proof.
  destruct (pump_tokens_balance 10 ltac:(lia) false false (life_run 10 false false (cmds_start 0))) as (Hb & _ & He).
  - apply life_run_reachable. vm_compute. reflexivity.
  - assert (E : live_pumps (life_run 10 false false (cmds_start 0)) = 1 ∧
      starts_holding (life_run 10 false false (cmds_start 0)) = 0 ∧
      l_temps (life_run 10 false false (cmds_start 0)) = 0) by (vm_compute; done).
    destruct E as (E1 & E2 & E3). specialize (He eq_refl). split_and!; lia.
Defined.


(** The collector releases an idle handle; the kernel releases it again when it is
    closed.  The pump loses two references for one handle, and its grace timer
    ends it while another handle is still reading. *)
Lemma double_release_kills_reader :
  let s := life_run 10 false true
    (cmds_start 0 ++ [DoOpen 1 "m" "ab"; DoCheck 1; DoLookup 1; DoOpened 1; DoGc 0; DoRelease 0; DoFire 1; DoRun 1]) in
  rtc (life_step 10 false true) life_init s ∧
  (lv_kernel <$> l_handles s !! 1%nat) = Some true ∧ (l_handles s !! 1%nat ≫= lv_pump) = Some 0%nat ∧
  l_reg s !! "m" = None ∧ (sp_cancelled <$> l_pumps s !! 0%nat) = Some true.
Proof.
  cbv zeta. split; [apply life_run_reachable; vm_compute; reflexivity|]. split_and!; vm_compute; reflexivity.
Qed.

(** A hash resolved late: the goroutine that starts the pump passes its check, a
    read of the same handle creates the pump, a webhook stops it, and the goroutine
    creates another one.  Both share the slot of the handle, so only one token comes
    back. *)
Lemma late_start_leaks_token :
  let s := life_run 10 true false
    [DoOpen 0 "m" "ab"; DoOpened 0; DoCheck 0; DoLookup 0; DoRead 0; DoCancel "m"; DoToken 0; DoCreate 0;
     DoUnregister 0; DoGiveback 0; DoUnregister 1; DoGiveback 1] in
  rtc (life_step 10 true false) life_init s ∧
  l_sem s = 1 ∧ live_pumps s = 0 ∧ starts_holding s = 0 ∧ l_temps s = 0.
Proof.
  cbv zeta. split; [apply life_run_reachable; vm_compute; reflexivity|]. split_and!; vm_compute; reflexivity.
Qed.

(** The pump reaches the end of the file before the handle is closed: the release
    finds no pump and does not count the path down.  The path stays open for the
    tracker, and the priority of the torrent is never dropped. *)
Lemma tracker_latches :
  let s := life_run 10 false false
    (cmds_start 0 ++ [DoPriority "ab"; DoUnregister 0; DoGiveback 0; DoRelease 0; DoFire 0; DoRun 0]) in
  rtc (life_step 10 false false) life_init s ∧
  (lv_released <$> l_handles s !! 0%nat) = Some true ∧ live_pumps s = 0 ∧
  IsPathOpen "m" (l_tracker s) = true ∧ "ab" ∈ l_priority s ∧ l_pending s = ∅ ∧ l_fired s = ∅.
Proof.
  cbv zeta. split; [apply life_run_reachable; vm_compute; reflexivity|].
  split_and!; vm_compute; reflexivity.
Qed.

(** [Open] stops the grace timer before it can fail: after a failed open nothing is
    left to end a pump that no handle uses. *)
Lemma failed_open_orphans_pump :
  let s := life_run 10 false false (cmds_released ++ [DoOpenFails "m"]) in
  rtc (life_step 10 false false) life_init s ∧
  l_reg s !! "m" = Some 0%nat ∧ (sp_refs <$> l_pumps s !! 0%nat) = Some 0 ∧ l_pending s = ∅ ∧ l_fired s = ∅.
Proof.
  cbv zeta. split; [apply life_run_reachable; vm_compute; reflexivity|]. split_and!; vm_compute; reflexivity.
Qed.
