(* ===== verification/PumpLoop.v ===== *)
(** * The loop of the pump (main.go: [startNativePump], [nativePump])

    Where a new pump starts, and what it does turn by turn: give up when it is
    cancelled or idle, follow the player when it jumped away or the pump got
    stranded ahead of it, revive a starving stream, read the next chunk
    ([nativePumpChunk] of Pump.v).  What a turn meets (the time, the activity of the
    handles, the playback, the player, the reader) is an argument; between two
    turns other goroutines change the caches.  Sleeps are left out. *)

From Stdlib Require Import String.
From S2P Require Import Prelude GoFloat GoStrings TailRange Warmup RaCache Pump Native FuseRead.
Local Open Scope string_scope.
Local Open Scope Z_scope.
Local Open Scope go_scope.

(** ** The position a pump starts at *)

(** The persisted resume position seeds a handle that has not read yet: from the
    registry first, then from the database.  The flags say whether a poisoned value
    is zeroed in the registry (and the database), or in the database alone. *)
Definition seed_position (registry db : option Z) (h : MkvHandle) : MkvHandle * bool * bool :=
  if h_lastOff h <? 0 then
    let '(h, seeded, zero1) :=
      match registry with Some v => seedResumeAnchor v h | None => (h, false, false) end in
    if seeded : bool then (h, zero1, false)
    else match db with
         | Some v => if v >? 0 then let '(h, _, zero2) := seedResumeAnchor v h in (h, zero1, zero2) else (h, zero1, false)
         | None => (h, zero1, false)
         end
  else (h, false, false).

(** [coverage] is what [GetAvailableRange] answered, [None] when the handle does not
    use the warm-up cache. *)
Definition skip_warmup (coverage : option Z) (resume : Z) : Z :=
  match coverage with
  | Some c => if c >? 16 * MB then if c -! 16 * MB >? resume then c -! 16 * MB else resume else resume
  | None => resume
  end.

(** Anchored to the player when the cached offset is stale, or reset. *)
Definition anchor_stale (fileSize chunk player : Z) (coverage : option Z) (resume : Z) : Z :=
  if player >? 0 then
    if resume >? player +! chunk *! 2 then player /! chunk *! chunk else resume
  else if (player <? 0) && (resume >? 0) then
    if (default 0 coverage =? 0) || (resume >=? fileSize) then 0 else resume
  else resume.

Definition anchor_resume (chunk player resume : Z) : Z :=
  if (player >? 0) && (resume +! chunk <? player) then player /! chunk *! chunk else resume.

(** The offset the pump starts from, and the handle whose position it becomes. *)
Definition pump_start (fileSize chunk maxCached : Z) (coverage : option Z) (h : MkvHandle) : Z * MkvHandle :=
  let player := h_lastOff h in
  let r := anchor_resume chunk player (anchor_stale fileSize chunk player coverage (skip_warmup coverage maxCached)) in
  (r, if r >? 0 then set_lastOff r h else h).

(** ** Decisions of a turn *)

Definition seconds_of (d : Z) : float64 :=
  f_add (f_of_int (d /! 1000000000)) (f_div (f_of_int (d %! 1000000000)) (f_of_int 1000000000)).

Definition shouldFireStarvationRevival (confirmed : bool) (leadBytes : Z) (pumpRate playerRate : float64)
    (cooldownAge : Z) : bool :=
  if negb confirmed || (cooldownAge <? 60 * 1000000000) then false
  else if f_leb playerRate f_zero || (leadBytes >=? 16 * 1024 * 1024) then false
  else f_ltb pumpRate (f_mul playerRate (f_div (f_of_int 3) (f_of_int 4))).

Record watchSample := mkSample { ws_t : Z; ws_offset : Z; ws_playerOff : Z }.

Record LoopState := mkLoop {
  lo_offset : Z;
  lo_pumped : Z;
  lo_samples : list watchSample;
  lo_lastRevival : Z;
  lo_pending : bool             (* sharedState.interruptPending *)
}.

(** The state of a pump that starts. *)
Definition loop_init (now chunk startOffset : Z) : LoopState :=
  mkLoop (startOffset /! chunk *! chunk) 0 [] (now - 3600 * 1000000000) false.

(** What a turn meets. *)
Record Turn := mkTurn {
  tu_cancelled : bool;
  tu_now : Z;
  tu_activity : list Z;                  (* lastActivityTime of the open handles of the path *)
  tu_creator : Z;                        (* that of the handle that created the pump *)
  tu_play : option PlaybackState;
  tu_player : Z;                         (* playerOff *)
  tu_io : Io;
  tu_responsive : bool;
  tu_hasTorrent : bool;
  tu_read : Z → Z → list byte * bool
}.

(** The latest activity of any handle, or the creator's. *)
Definition last_activity (t : Turn) : Z :=
  default (tu_creator t)
    (foldl (λ acc a, match acc with None => Some a | Some b => if a >? b then Some a else Some b end) None (tu_activity t)).

(** The time without activity after which the slot is given up, and whether the
    playback is confirmed or inferred. *)
Definition timeout_limit (now : Z) (play : option PlaybackState) : Z * bool :=
  match play with
  | Some ps => if pb_healthy ps then (minutes 120, true)
               else if IsInferredPlayback now ps then (minutes 10, true) else (45 * 1000000000, false)
  | None => (45 * 1000000000, false)
  end.

(** The pump joins a player that is out of its window. *)
Definition reanchor (budget chunk player : Z) (st : LoopState) : LoopState :=
  let jump := player /! chunk *! chunk in
  let jump := if jump <? 0 then 0 else jump in
  if (player >? lo_offset st +! budget) || pumpStrandedAhead (lo_offset st) player budget
  then mkLoop jump 0 [] (lo_lastRevival st) (lo_pending st) else st.

(** A window of at most sixteen samples. *)
Definition keep_samples (l : list watchSample) : list watchSample :=
  if len l >? 16 then drop (length l - 16) l else l.

Definition starving (confirmed : bool) (now player : Z) (st : LoopState) : bool :=
  match head (lo_samples st), lo_samples st !! (length (lo_samples st) - 1)%nat with
  | Some first, Some lastS =>
      if len (lo_samples st) >=? 2 then
        let elapsed := seconds_of (ws_t lastS - ws_t first) in
        f_leb (f_of_int 9) elapsed &&
        shouldFireStarvationRevival confirmed (lo_offset st -! player)
          (f_div (f_of_int (ws_offset lastS -! ws_offset first)) elapsed)
          (f_div (f_of_int (ws_playerOff lastS -! ws_playerOff first)) elapsed) (now - lo_lastRevival st)
      else false
  | _, _ => false
  end.

(** The watchdog: the new state, and whether the reader is interrupted and the
    shield reset. *)
Definition watchdog (confirmed : bool) (now player : Z) (st : LoopState) : LoopState * bool :=
  let st := mkLoop (lo_offset st) (lo_pumped st)
                   (keep_samples (lo_samples st ++ [mkSample now (lo_offset st) player])%list)
                   (lo_lastRevival st) (lo_pending st) in
  if starving confirmed now player st && negb (lo_pending st)
  then (mkLoop (lo_offset st) (lo_pumped st) [] now true, true) else (st, false).

Inductive reason := PumpCancelled | Idle | EndOfFile.
Inductive outcome := Exit (r : reason) | Again (st : LoopState) (revived : bool).

Section loop.
Context `{GoRuntime} (racfg : RaConfig) (wcfg : Config) (xxhash : string → Z).

(** One turn of [nativePump]; [None] is a panic. *)
Definition pump_turn (h : PumpHandle) (t : Turn) (st : LoopState) (wd : World) : option (outcome * World) :=
  if tu_cancelled t then Some (Exit PumpCancelled, wd)
  else
    let chunk := ChunkSize racfg (p_path h) (w_ra wd) in
    let '(limit, confirmed) := timeout_limit (tu_now t) (tu_play t) in
    if tu_now t - last_activity t >? limit then Some (Exit Idle, wd)
    else
      let player := tu_player t in
      let st := reanchor (ReadAheadBudget racfg) chunk player st in
      let '(st, revived) := watchdog confirmed (tu_now t) player st in
      '(out, wd) ← nativePumpChunk racfg wcfg xxhash (tu_io t) (tu_now t) (tu_responsive t) (tu_hasTorrent t)
                     (tu_read t) h (lo_offset st) chunk player wd;
      if po_stop out then
        if lo_offset st <? p_size h
        then Some (Again (mkLoop (lo_offset st) (lo_pumped st) (lo_samples st) (lo_lastRevival st) false) revived, wd)
        else Some (Exit EndOfFile, wd)
      else Some (Again (mkLoop (po_next out) (lo_pumped st +! (po_next out -! lo_offset st)) (lo_samples st)
                              (lo_lastRevival st) (lo_pending st)) revived, wd).

(** The turns of a pump; before each, the other goroutines change the caches.  The
    second component is the state it goes on from, [None] once it ended. *)
Fixpoint pump_run (h : PumpHandle) (ts : list (Turn * (World → World))) (st : LoopState) (wd : World)
    : option ((reason + LoopState) * World) :=
  match ts with
  | [] => Some (inr st, wd)
  | (t, interfere) :: ts =>
      '(o, wd) ← pump_turn h t st (interfere wd);
      match o with
      | Exit r => Some (inl r, wd)
      | Again st _ => pump_run h ts st wd
      end
  end.
End loop.

(** ** Where it starts *)

Lemma align_bounds x c : 0 < c ≤ 2 ^ 50 → 0 ≤ x ≤ 2 ^ 60 → x /! c *! c = x / c * c ∧ x - c < x / c * c ≤ x ∧ (x / c * c) mod c = 0 ∧ 0 ≤ x / c * c.
Proof.
  intros Hc Hx. assert (Hq : 0 ≤ x / c ≤ x) by (split; [apply Z.div_pos; lia|apply Z.div_le_upper_bound; nia]).
  assert (Hm : x / c * c ≤ x) by (rewrite Z.mul_comm; apply Z.mul_div_le; lia).
  rewrite Z.quot_div_nonneg by lia. rewrite (i64_id (x / c)) by (unfold in_i64; lia).
  rewrite i64_id by (unfold in_i64; nia). pose proof (Z.mod_pos_bound x c ltac:(lia)) as Hr.
  pose proof (Z.div_mod x c ltac:(lia)) as Hd. split_and!; try nia. apply Z.mod_mul. lia.
Qed.

(** A pump starts next to a player whose position is known, at most a chunk
    behind it and two chunks ahead, whatever stale offset the cache or the warm-up
    file suggest; for a handle that has not read yet it starts at the beginning,
    or inside the head the warm-up file covers. *)
Theorem pump_start_near_player fileSize chunk maxCached coverage h start h' :
  0 < chunk ≤ 2 ^ 50 → -1 ≤ maxCached ≤ 2 ^ 60 → (∀ c, coverage = Some c → 0 ≤ c ≤ 2 ^ 60) → h_lastOff h ≤ 2 ^ 60 →
  pump_start fileSize chunk maxCached coverage h = (start, h') →
  (0 < h_lastOff h → h_lastOff h - chunk ≤ start ≤ h_lastOff h + 2 * chunk) ∧
  (h_lastOff h < 0 → start ≤ 0 ∨ start < fileSize ∧ default 0 coverage ≠ 0) ∧
  h_lastOff h' = (if start >? 0 then start else h_lastOff h).
Proof.
  intros Hc Hm Hcov Hp. unfold pump_start. set (r0 := skip_warmup coverage maxCached).
  assert (Hr0 : -1 ≤ r0 ≤ 2 ^ 60).
  { unfold r0, skip_warmup, MB. destruct coverage as [c|]; [|lia]. specialize (Hcov c eq_refl).
    destruct (c >? _) eqn:E1; [|lia]. rewrite i64_id by (unfold in_i64; lia). case_if; lia. }
  clearbody r0. intros [= <- <-]. split_and!.
  - intros Hpos. unfold anchor_stale, anchor_resume.
    destruct (align_bounds (h_lastOff h) chunk Hc ltac:(lia)) as (-> & Ha & _).
    rewrite (proj2 (Z.gtb_lt _ _) Hpos). rewrite (i64_id (chunk * 2)), (i64_id (h_lastOff h + _)) by (unfold in_i64; lia).
    destruct (r0 >? h_lastOff h + chunk * 2) eqn:E1; cbn [andb];
      rewrite (i64_id (_ + chunk)) by (unfold in_i64; lia); case_if; lia.
  - intros Hneg. unfold anchor_stale, anchor_resume.
    destruct (h_lastOff h >? 0) eqn:E0; [lia|]. rewrite (proj2 (Z.ltb_lt _ _) Hneg). cbn [andb].
    destruct (r0 >? 0) eqn:E1; [|lia]. destruct ((default 0 coverage =? 0) || (r0 >=? fileSize)) eqn:E2; [lia|].
    apply orb_false_iff in E2 as [E2 E3]. right. lia.
  - by case_if.
Qed.

(** ** What the turns do *)

Lemma pump_lens `{GoRuntime} racfg wcfg xxhash io now resp hasT rd h offset chunk player wd out wd' :
  nativePumpChunk racfg wcfg xxhash io now resp hasT rd h offset chunk player wd = Some (out, wd') →
  pieceLens (w_ra wd') = pieceLens (w_ra wd).
Proof.
  assert (Ht : ∀ p off now c, pieceLens (touch_first racfg xxhash p off now c) = pieceLens c).
  { intros p off n c. unfold touch_first. by repeat case_match. }
  assert (Hg : ∀ p off e now c r c', Ra_Get racfg xxhash p off e now c = Some (r, c') → pieceLens c' = pieceLens c).
  { intros p off e n c r c'. unfold Ra_Get. case_match.
    - intros (d & _ & [= _ <-])%bind_Some. apply Ht.
    - intros (d1 & _ & (d2 & _ & Hx)%bind_Some)%bind_Some. case_match; [done|]. injection Hx as _ <-. apply Ht.
    - intros [= _ <-]. apply Ht. }
  assert (Hc : ∀ p off e now c, pieceLens (Covered racfg xxhash p off e now c).2 = pieceLens c).
  { intros p off e n c. unfold Covered. by case_match. }
  assert (Hp : ∀ p s e d n r c, pieceLens (Ra_Put racfg xxhash p s e d n r c).2 = pieceLens c).
  { intros p s e d n r c. unfold Ra_Put. by case_match. }
  unfold nativePumpChunk. case_match; [by intros [= _ <-]|]. case_match; [by intros [= _ <-]|].
  set (e := if (_ : bool) then p_size h else _).
  destruct (Covered racfg xxhash (p_path h) offset (e -! 1) now (w_ra wd)) as [b c] eqn:Ec.
  assert (E1 : pieceLens c = pieceLens (w_ra wd)) by (change c with ((b, c).2); rewrite <-Ec; apply Hc).
  destruct b.
  - intros ([r c'] & Hr & [= _ <-])%bind_Some. simpl. rewrite <-E1. case_match; [by eapply Hg|by simplify_eq].
  - destruct (warm_skip _ _ _ _ _ _) as [[] w]; [intros [= _ <-]; done|].
    destruct (rd _ _) as [d err]. case_match eqn:Ex. intros [= _ <-]. simpl. rewrite <-E1.
    destruct (len d >? 0); simplify_eq; [apply Hp|done].
Qed.

Section pump_loop.
Context `{GoRuntime} (racfg : RaConfig) (wcfg : Config) (xxhash : string → Z).
Context (content : string → list Byte.byte) (source : string → Z → list Byte.byte) (M : Z).
Context (HM : 0 ≤ M ≤ 2 ^ 50) (Hlimit : limit_of racfg ≤ 2 ^ 59) (Hbase : 0 < base_size racfg ≤ 2 ^ 50).
Context (h : PumpHandle) (chunk : Z) (Hid : 0 ≤ p_fileID h).
Context (Hcs : content (p_path h) = source (p_hash h) (p_fileID h)) (Hsz : p_size h = len (content (p_path h))).
Context (Hsmall : p_size h ≤ 2 ^ 59) (HcM : chunk ≤ M).

Local Abbreviation world_ok := (world_ok racfg wcfg xxhash content source M).

(** The caches are exact and the size of the chunks of the path is the pump's. *)
Definition at_work (wd : World) : Prop := world_ok wd ∧ ChunkSize racfg (p_path h) (w_ra wd) = chunk.

(** On the grid of chunks, or past the end of the file. *)
Definition on_grid (off : Z) : Prop := 0 ≤ off ≤ 2 ^ 60 ∧ (off mod chunk = 0 ∨ p_size h ≤ off).

Definition turn_ok (t : Turn) : Prop :=
  0 ≤ tu_player t ≤ 2 ^ 59 ∧
  ∀ n off, 0 ≤ n → 0 ≤ off → len (tu_read t n off).1 ≤ n ∧ at_offset content (p_path h) off (tu_read t n off).1.

Definition interference_ok (f : World → World) : Prop := ∀ wd, at_work wd → at_work (f wd).

Lemma chunk_pos wd : at_work wd → 0 < chunk ≤ 2 ^ 50.
Proof.
  intros [[Hra _] <-]. apply (ra_reachable_ok racfg xxhash content M HM Hlimit Hbase) in Hra.
  pose proof (ro_chunk _ _ _ _ _ Hra (p_path h)). lia.
Qed.

Lemma reanchor_grid wd player st :
  at_work wd → 0 ≤ player ≤ 2 ^ 59 → on_grid (lo_offset st) →
  on_grid (lo_offset (reanchor (ReadAheadBudget racfg) chunk player st)).
Proof.
  intros Hw Hp Hg. pose proof (chunk_pos wd Hw) as Hc. unfold reanchor. case_match; [|done]. simpl.
  destruct (align_bounds player chunk Hc ltac:(lia)) as (-> & Ha & Hm & Hnn).
  destruct (player / chunk * chunk <? 0) eqn:E; [lia|]. split; [lia|by left].
Qed.

(** The pump reads where the player is, at most a budget (or a chunk) behind it and
    at most two budgets ahead. *)
Lemma reanchor_window player st :
  0 < chunk ≤ 2 ^ 50 → 0 < player ≤ 2 ^ 59 → 0 < ReadAheadBudget racfg ≤ 2 ^ 59 → 0 ≤ lo_offset st ≤ 2 ^ 60 →
  let off := lo_offset (reanchor (ReadAheadBudget racfg) chunk player st) in
  player - Z.max (ReadAheadBudget racfg) chunk ≤ off ≤ player + 2 * ReadAheadBudget racfg.
Proof.
  intros Hc Hp Hb Ho. unfold reanchor, pumpStrandedAhead.
  rewrite (proj2 (Z.leb_gt player 0)), (proj2 (Z.leb_gt (ReadAheadBudget racfg) 0)) by lia. cbn [orb].
  rewrite (i64_id (2 * _)), (i64_id (player + _)), (i64_id (lo_offset st + _)) by (unfold in_i64; lia).
  destruct (align_bounds player chunk Hc ltac:(lia)) as (-> & Ha & Hm & Hnn).
  destruct (_ || _) eqn:E; simpl.
  - destruct (player / chunk * chunk <? 0) eqn:E2; lia.
  - apply orb_false_iff in E as [E1 E2]. lia.
Qed.

Lemma watchdog_offset confirmed now player st :
  lo_offset (watchdog confirmed now player st).1 = lo_offset st.
Proof. unfold watchdog. by case_match. Qed.

Lemma pump_chunk_past_end io now resp hasT rd offset player wd :
  p_size h ≤ offset → nativePumpChunk racfg wcfg xxhash io now resp hasT rd h offset chunk player wd
    = Some (mkPumpOut true offset None, wd).
Proof. intros Ho. unfold nativePumpChunk. by rewrite (proj2 (Z.geb_le offset (p_size h))). Qed.

(** A turn never panics, keeps the caches exact and stays on the grid; it ends the
    pump only when it is cancelled, idle, or past the end of the file. *)
Lemma pump_turn_spec t st wd :
  at_work wd → turn_ok t → on_grid (lo_offset st) →
  ∃ o wd', pump_turn racfg wcfg xxhash h t st wd = Some (o, wd') ∧ at_work wd' ∧
    match o with
    | Exit PumpCancelled => tu_cancelled t = true
    | Exit Idle => (timeout_limit (tu_now t) (tu_play t)).1 < tu_now t - last_activity t
    | Exit EndOfFile => p_size h ≤ lo_offset (reanchor (ReadAheadBudget racfg) chunk (tu_player t) st)
    | Again st' _ => on_grid (lo_offset st')
    end.
Proof.
  intros Hw [Hp Hrd] Hg. unfold pump_turn. destruct (tu_cancelled t); [by eexists _, _|].
  destruct (timeout_limit (tu_now t) (tu_play t)) as [limit confirmed] eqn:El.
  destruct (tu_now t - last_activity t >? limit) eqn:Ei; [eexists _, _; split; [done|split; [done|simpl; lia]]|].
  rewrite (proj2 Hw). set (st1 := reanchor _ _ _ st).
  assert (Hg1 : on_grid (lo_offset st1)) by (by apply (reanchor_grid wd)).
  destruct (watchdog confirmed (tu_now t) (tu_player t) st1) as [st2 rv] eqn:Ew.
  assert (E2 : lo_offset st2 = lo_offset st1)
    by (change st2 with ((st2, rv).1); rewrite <-Ew; apply watchdog_offset).
  rewrite E2. destruct (decide (p_size h ≤ lo_offset st1)) as [Hpast|Hin].
  { rewrite pump_chunk_past_end by done. simpl. rewrite (proj2 (Z.ltb_ge _ _) Hpast). by eexists _, _. }
  assert (Hal : lo_offset st1 mod chunk = 0) by (destruct Hg1 as [_ [?|?]]; [done|lia]).
  pose proof (chunk_pos wd Hw) as Hc.
  destruct (pump_turn_ok racfg wcfg xxhash content source M HM Hlimit Hbase (tu_io t) (tu_now t) (tu_responsive t)
    (tu_hasTorrent t) (tu_read t) h (lo_offset st1) (tu_player t) wd) as (out & wd' & E & Hok & Hnext);
    rewrite ?(proj2 Hw); try done; try lia; [apply Hw|apply Hg1|].
  rewrite (proj2 Hw) in E, Hnext. rewrite E. simpl.
  assert (Hw' : at_work wd').
  { split; [done|]. rewrite <-(proj2 Hw). unfold ChunkSize. by rewrite (pump_lens _ _ _ _ _ _ _ _ _ _ _ _ _ _ _ E). }
  destruct (po_stop out).
  - rewrite (proj2 (Z.ltb_lt _ _)) by lia. eexists _, _. by split_and!.
  - eexists _, _. split; [done|]. split; [done|]. simpl. destruct (Hnext eq_refl) as [(-> & _)|(Hn & Hgr & _)]; [done|].
    destruct Hg1 as [Hg1 _]. split; [lia|]. destruct Hgr as [?| ->]; [by left|right; lia].
Qed.

Lemma pump_run_ok ts st wd :
  at_work wd → Forall (λ x, turn_ok x.1 ∧ interference_ok x.2) ts → on_grid (lo_offset st) →
  ∃ r wd', pump_run racfg wcfg xxhash h ts st wd = Some (r, wd') ∧ at_work wd' ∧
    match r with inr st' => on_grid (lo_offset st') | inl _ => True end.
Proof.
  intros Hw Hts. revert st wd Hw. induction Hts as [|[t f] ts [Ht Hf] _ IH]; intros st wd Hw Hg; simpl.
  { eexists _, _. by split_and!. }
  destruct (pump_turn_spec t st (f wd) (Hf wd Hw) Ht Hg) as (o & wd' & E & Hw' & Ho). rewrite E. simpl.
  destruct o as [r|st' rv]; [eexists _, _; by split_and!|]. by apply IH.
Qed.


(** *** A pump with work to do reaches the end *)

(** Nobody stops it, the player is close enough to the end not to hold it back, and
    its reads do not fail. *)
Definition turn_good (t : Turn) : Prop :=
  turn_ok t ∧ tu_cancelled t = false ∧
  tu_now t - last_activity t ≤ (timeout_limit (tu_now t) (tu_play t)).1 ∧
  p_size h - tu_player t ≤ pumpLeadLimit (ReadAheadBudget racfg) chunk ∧ 0 < tu_player t ≤ p_size h ∧
  ∀ n off, (tu_read t n off).2 = false.

Lemma pump_chunk_goes_on io now resp hasT rd offset player wd out wd' :
  offset < p_size h → (∀ n off, (rd n off).2 = false) →
  nativePumpChunk racfg wcfg xxhash io now resp hasT rd h offset chunk player wd = Some (out, wd') →
  po_stop out = false.
Proof.
  intros Ho Hrd. unfold nativePumpChunk. rewrite (Z.geb_leb offset), (proj2 (Z.leb_gt _ _)) by done.
  case_match; [by intros [= <- _]|]. set (e := if (_ : bool) then p_size h else _).
  destruct (Covered _ _ _ _ _ _ _) as [[] c]; [intros ([r c'] & _ & [= <- _])%bind_Some; done|].
  destruct (warm_skip _ _ _ _ _ _) as [[] w]; [by intros [= <- _]|].
  specialize (Hrd (e -! offset) offset). destruct (rd _ _) as [d err]. simpl in Hrd. subst err.
  case_match. intros [= <- _]. by destruct (len d <? _).
Qed.

Context (Hbudget : chunk ≤ ReadAheadBudget racfg ≤ 2 ^ 58).

(** Re-anchoring never moves such a pump back. *)
Lemma reanchor_forward wd t st :
  at_work wd → turn_good t → 0 ≤ lo_offset st < p_size h + chunk →
  let off := lo_offset (reanchor (ReadAheadBudget racfg) chunk (tu_player t) st) in
  lo_offset st ≤ off < p_size h + chunk ∧ (p_size h ≤ lo_offset st → off = lo_offset st).
Proof.
  intros Hw ([Hp Hrd] & Hnc & Hni & Hlead & Hpl & Hne) Hg. pose proof (chunk_pos wd Hw) as Hc.
  pose proof (pumpLeadLimit_bounds (ReadAheadBudget racfg) chunk ltac:(lia) ltac:(lia)) as [Hlb _].
  unfold reanchor, pumpStrandedAhead.
  rewrite (proj2 (Z.leb_gt (tu_player t) 0)), (proj2 (Z.leb_gt (ReadAheadBudget racfg) 0)) by lia. cbn [orb].
  rewrite (i64_id (2 * _)), (i64_id (tu_player t + _)), (i64_id (lo_offset st + _)) by (unfold in_i64; lia).
  destruct (align_bounds (tu_player t) chunk Hc ltac:(lia)) as (-> & Ha & Hm & Hnn).
  destruct (_ || _) eqn:E; simpl; [|lia]. destruct (tu_player t / chunk * chunk <? 0) eqn:E2; [lia|].
  apply orb_true_iff in E as [E|E]; lia.
Qed.

Lemma turn_progress t st wd :
  at_work wd → turn_good t → on_grid (lo_offset st) → lo_offset st < p_size h + chunk →
  ∃ o wd', pump_turn racfg wcfg xxhash h t st wd = Some (o, wd') ∧ at_work wd' ∧
    match o with
    | Exit r => r = EndOfFile
    | Again st' _ => on_grid (lo_offset st') ∧ lo_offset st < p_size h ∧ lo_offset st' < p_size h + chunk ∧
                     Z.min (lo_offset st + chunk) (p_size h) ≤ lo_offset st'
    end.
Proof.
  intros Hw Hgood Hg Hlt. pose proof (reanchor_forward wd t st Hw Hgood ltac:(destruct Hg; lia)) as [Hf Hpast].
  destruct Hgood as ([Hp Hrd] & Hnc & Hni & Hlead & Hpl & Hne). pose proof (chunk_pos wd Hw) as Hc.
  unfold pump_turn. rewrite Hnc. destruct (timeout_limit (tu_now t) (tu_play t)) as [limit confirmed] eqn:El.
  simpl in Hni. rewrite (Z.gtb_ltb _ limit), (proj2 (Z.ltb_ge limit _)) by lia. rewrite (proj2 Hw).
  set (st1 := reanchor _ _ _ st) in *.
  assert (Hg1 : on_grid (lo_offset st1)) by (by apply (reanchor_grid wd)).
  destruct (watchdog confirmed (tu_now t) (tu_player t) st1) as [st2 rv] eqn:Ew.
  assert (E2 : lo_offset st2 = lo_offset st1)
    by (change st2 with ((st2, rv).1); rewrite <-Ew; apply watchdog_offset).
  rewrite E2. destruct (decide (p_size h ≤ lo_offset st1)) as [Hend|Hin].
  { rewrite pump_chunk_past_end by done. simpl. rewrite (proj2 (Z.ltb_ge _ _) Hend). by eexists _, _. }
  assert (Hal : lo_offset st1 mod chunk = 0) by (destruct Hg1 as [_ [?|?]]; [done|lia]).
  destruct (pump_turn_ok racfg wcfg xxhash content source M HM Hlimit Hbase (tu_io t) (tu_now t) (tu_responsive t)
    (tu_hasTorrent t) (tu_read t) h (lo_offset st1) (tu_player t) wd) as (out & wd' & E & Hok & Hnext);
    rewrite ?(proj2 Hw); try done; try lia; [apply Hw|apply Hg1|].
  rewrite (proj2 Hw) in E, Hnext.
  assert (Hst : po_stop out = false) by (eapply pump_chunk_goes_on; [|exact Hne|exact E]; lia).
  assert (Hw' : at_work wd').
  { split; [done|]. rewrite <-(proj2 Hw). unfold ChunkSize. by rewrite (pump_lens _ _ _ _ _ _ _ _ _ _ _ _ _ _ _ E). }
  rewrite E. simpl. rewrite Hst. eexists _, _. split; [done|]. split; [done|]. simpl.
  destruct (Hnext Hst) as [(_ & Hbad)|(Hn & Hgr & _)]; [lia|].
  assert (Hnx : po_next out = lo_offset st1 + chunk ∨ po_next out = p_size h).
  { destruct Hgr as [Hgr|Hgr]; [left|by right]. clear -Hn Hgr Hal Hc.
    apply Z.mod_divide in Hgr as [a Ea], Hal as [b Eb]; try lia. rewrite Ea, Eb in *. assert (a = b + 1) by nia. nia. }
  destruct Hg1 as [Hg1 _]. split; [split; [lia|destruct Hgr as [?| ->]; [by left|right; lia]]|]. lia.
Qed.

Lemma pump_finishes (n : nat) ts st wd :
  at_work wd → Forall (λ x, turn_good x.1 ∧ interference_ok x.2) ts → on_grid (lo_offset st) →
  lo_offset st < p_size h + chunk → p_size h - lo_offset st ≤ Z.of_nat n * chunk → (n < length ts)%nat →
  ∃ wd', pump_run racfg wcfg xxhash h ts st wd = Some (inl EndOfFile, wd') ∧ at_work wd'.
Proof.
  intros Hw Hts. revert n st wd Hw. induction Hts as [|[t f] ts [Ht Hf] _ IH]; intros n st wd Hw Hg Hlt Hn Hlen;
    simpl in *; [lia|].
  destruct (turn_progress t st (f wd) (Hf wd Hw) Ht Hg Hlt) as (o & wd' & E & Hw' & Ho). rewrite E. simpl.
  destruct o as [r|st' rv]; [subst r; by exists wd'|]. destruct Ho as (Hg' & Hin & Hlt' & Hprog).
  pose proof (chunk_pos wd Hw). destruct n as [|n]; [lia|]. apply (IH n); try done; lia.
Qed.

(** C34: A pump whose reads succeed, that nobody stops and whose player is near
    enough to the end of the file not to hold it back reaches the end: after one
    turn per remaining chunk, and one more, it has ended there. *)
Theorem pump_reaches_end now startOffset ts wd :
  at_work wd → Forall (λ x, turn_good x.1 ∧ interference_ok x.2) ts → 0 ≤ startOffset < p_size h →
  p_size h ≤ (Z.of_nat (length ts) - 2) * chunk + startOffset →
  ∃ wd', pump_run racfg wcfg xxhash h ts (loop_init now chunk startOffset) wd = Some (inl EndOfFile, wd') ∧
    world_ok wd'.
Proof.
  intros Hw Hts Hs Hlen. pose proof (chunk_pos wd Hw) as Hc.
  destruct (align_bounds startOffset chunk Hc ltac:(lia)) as (E & Ha & Hm & Hnn).
  destruct (pump_finishes (length ts - 1) ts (loop_init now chunk startOffset) wd Hw Hts) as (wd' & Er & [Hw' _]);
    unfold loop_init; simpl; rewrite ?E.
  - split; [lia|by left].
  - lia.
  - destruct ts; simpl in *; nia.
  - destruct ts; simpl in *; [nia|lia].
  - exists wd'. split; [|done]. rewrite <-Er. unfold loop_init. by rewrite E.
Qed.
End pump_loop.

(** ** Instances *)

Definition loop_turn (player : Z) : Turn :=
  mkTurn false 100 [90] 0 None player io_fine false true
    (λ n off, (take (Z.to_nat n) (drop (Z.to_nat off) (demo_content "m")), false)).
Definition loop_handle : PumpHandle := mkPumpHandle "m" "ab" 0 8 false false.
Definition loop_world : World := mkWorld demo_ra1 None.

Lemma loop_turn_ok player : 0 ≤ player ≤ 2 ^ 59 → turn_ok demo_content loop_handle (loop_turn player).
Proof.
  intros Hp. split; [done|]. intros n off Hn Ho. simpl. split; [rewrite len_take; lia|]. intros x Hx.
  rewrite len_take in Hx. rewrite lookup_take_lt, lookup_drop by lia. f_equal. lia.
Qed.

Lemma loop_world_ok :
  at_work demo_ra_cfg demo_cfg demo_hash demo_content pump_source 4 loop_handle 4 loop_world.
Proof. split; [|reflexivity]. split; [exact demo_ra1_reachable|done]. Qed.

Lemma pump_start_near_player_witness :
  pump_start 67108864 16777216 1073741824 None (mkHandleState "m" 4294967296 "ab" 536870912 false 0)
    = (536870912, mkHandleState "m" 4294967296 "ab" 536870912 false 0) ∧
  536870912 - 16777216 ≤ 536870912 ≤ 536870912 + 2 * 16777216.
Proof.
  assert (E : pump_start 67108864 16777216 1073741824 None (mkHandleState "m" 4294967296 "ab" 536870912 false 0)
    = (536870912, mkHandleState "m" 4294967296 "ab" 536870912 false 0)) by (vm_compute; reflexivity).
  split; [exact E|].
  destruct (pump_start_near_player 67108864 16777216 1073741824 None (mkHandleState "m" 4294967296 "ab" 536870912 false 0)
    536870912 (mkHandleState "m" 4294967296 "ab" 536870912 false 0) ltac:(lia) ltac:(lia) ltac:(discriminate)
    ltac:(simpl; lia) E) as (Hnear & _). apply Hnear. simpl. lia.
Defined.


Lemma pump_reaches_end_witness :
  ∃ wd', pump_run demo_ra_cfg demo_cfg demo_hash loop_handle (replicate 4 (loop_turn 5, id))
           (loop_init 0 4 0) loop_world = Some (inl EndOfFile, wd').
Proof.
  destruct (pump_reaches_end demo_ra_cfg demo_cfg demo_hash demo_content pump_source 4 ltac:(lia)
    ltac:(vm_compute; discriminate) ltac:(vm_compute; split; [reflexivity|discriminate]) loop_handle 4
    ltac:(vm_compute; discriminate) eq_refl eq_refl ltac:(vm_compute; discriminate) ltac:(lia)
    ltac:(simpl; lia) 0 0 (replicate 4 (loop_turn 5, id)) loop_world loop_world_ok) as (wd' & E & _).
  - apply Forall_replicate. split; [|by intros w Hw]. split; [apply loop_turn_ok; lia|].
    split_and!; try reflexivity; vm_compute; discriminate.
  - vm_compute. split; [discriminate|reflexivity].
  - vm_compute. discriminate.
  - by exists wd'.
Defined.
