(* ===== verification/Scheduler.v ===== *)
(** * The scheduler of the sync jobs (internal/syncer/scheduler)

    Every minute a tick asks each job whether it is due and starts it; a request
    starts a job at once, unless it runs.  A run is a goroutine that registers the
    function that stops it, runs the engine and records the outcome.  The check of
    the running flag and its setting are two sections, as are the steps of a run,
    and everything interleaves.

    A time is a number of nanoseconds; the location is a constant distance [zone]
    from UTC (a change to or from summer time is not modelled).  The engines are
    code of the jobs: what they return is an argument. *)

From Stdlib Require Import String.
From S2P Require Import Prelude GoStrings.
Local Open Scope string_scope.
Local Open Scope Z_scope.

(** ** State *)

(** The zero [time.Time]: the first of January of year 1. *)
Definition zeroTime : Z := -62135596800000000000.

Record JobState := mkJob {
  LastRun : Z;
  NextRun : Z;
  Running : bool;
  LastError : string;
  LastStatus : string
}.

Definition new_job : JobState := mkJob zeroTime zeroTime false "" "".

Record DailyJobConfig := mkDaily { d_enabled : bool; d_days : list Z; d_hour : Z; d_minute : Z }.
Record WatchlistSyncConfig := mkWatch { w_enabled : bool; w_hours : Z }.
Record SchedulerConfig := mkSchedCfg {
  MoviesSync : DailyJobConfig;
  TVSync : DailyJobConfig;
  MusicSync : DailyJobConfig;
  WatchlistSync : WatchlistSyncConfig
}.

(** ** Dates *)

Definition DAY : Z := 86400000000000.
Definition HOUR : Z := 3600000000000.
Definition MINUTE : Z := 60000000000.

Section scheduler.
Context (zone : Z) (cfg : SchedulerConfig) (names : list string).   (* names: the keys of s.jobs *)

(** The local day of a time, counted from the epoch, and its weekday. *)
Definition day_of (t : Z) : Z := (t + zone) / DAY.
Definition weekday (t : Z) : Z := (day_of t + 4) mod 7.
(** [time.Date] of a local day at an hour and a minute. *)
Definition date (day hour minute : Z) : Z := day * DAY + hour * HOUR + minute * MINUTE - zone.

Definition in_days (t : Z) (days : list Z) : bool := bool_decide (weekday t ∈ days).

(** ** When a job is due *)

Definition shouldRunDaily (now : Z) (c : DailyJobConfig) (st : JobState) : bool :=
  if negb (d_enabled c) then false
  else if negb (NextRun st =? zeroTime) && (now <? NextRun st) then false
  else
    let today := date (day_of now) (d_hour c) (d_minute c) in
    if negb (in_days today (d_days c)) then false
    else if now <? today then false
    else if negb (LastRun st =? zeroTime) && negb (date (day_of (LastRun st)) 0 0 <? date (day_of now) 0 0) then false
    else true.

Definition shouldRunInterval (now : Z) (c : WatchlistSyncConfig) (st : JobState) : bool :=
  if negb (w_enabled c) || (w_hours c <=? 0) then false
  else if LastRun st =? zeroTime then true
  else now - LastRun st >=? w_hours c * HOUR.

Definition daily_config (name : string) : option DailyJobConfig :=
  if String.eqb name "movies" then Some (MoviesSync cfg)
  else if String.eqb name "tv" then Some (TVSync cfg)
  else if String.eqb name "music" then Some (MusicSync cfg)
  else None.

Definition shouldRun (now : Z) (name : string) (st : JobState) : bool :=
  if Running st then false
  else match daily_config name with
       | Some c => shouldRunDaily now c st
       | None => if String.eqb name "watchlist" then shouldRunInterval now (WatchlistSync cfg) st else false
       end.

(** The first of eight days from today on whose time is still to come. *)
Fixpoint next_candidate (fuel : nat) (offset now : Z) (c : DailyJobConfig) : Z :=
  match fuel with
  | O => zeroTime
  | S fuel =>
      let candidate := date (day_of now) (d_hour c) (d_minute c) + offset * DAY in
      if (if offset =? 0 then (now <? candidate) && in_days candidate (d_days c) else in_days candidate (d_days c))
      then candidate else next_candidate fuel (offset + 1) now c
  end.

Definition nextRunTime (now : Z) (c : DailyJobConfig) : Z :=
  if negb (d_enabled c) then zeroTime else next_candidate 8 0 now c.

Definition next_run (now : Z) (name : string) (st : JobState) : Z :=
  match daily_config name with
  | Some c => nextRunTime now c
  | None =>
      if String.eqb name "watchlist" && w_enabled (WatchlistSync cfg) && (w_hours (WatchlistSync cfg) >? 0)
      then LastRun st + w_hours (WatchlistSync cfg) * HOUR else zeroTime
  end.

(** [updateNextRuns], for one job. *)
Definition updateNextRun (now : Z) (name : string) (st : JobState) : JobState :=
  mkJob (LastRun st) (next_run now name st) (Running st) (LastError st) (LastStatus st).

(** ** Runs *)

(** What the engine did: it returned, with an error or not, or it panicked. *)
Inductive engine_result := Ok | Failed (msg : string) | Panicked (msg : string).

#[export] Instance engine_result_eq_dec : EqDecision engine_result.
Proof. solve_decision. Defined.

(** A run spawned, with its cancel function registered, with the running flag
    cleared, and with its outcome recorded. *)
Inductive run_phase := Spawned | Started | Returned (res : engine_result) | Finished.

#[export] Instance run_phase_eq_dec : EqDecision run_phase.
Proof. solve_decision. Defined.

Record Run := mkRun { r_name : string; r_phase : run_phase; r_cancelled : bool }.

Record Scheduler := mkSched {
  sc_jobs : gmap string JobState;          (* the trackers *)
  sc_checked : list string;                (* starters between the check and SetRunning *)
  sc_runs : gmap nat Run;
  sc_next : nat;
  sc_cancels : gmap string nat
}.

Inductive sched_error := UnknownJob | ErrAlreadyRunning | ErrNotRunning.

Definition SetRunning (b : bool) (st : JobState) : JobState :=
  mkJob (LastRun st) (NextRun st) b (LastError st) (LastStatus st).
Definition SetStatus (now : Z) (status err : string) (st : JobState) : JobState :=
  mkJob now (NextRun st) (Running st) err status.

Definition set_jobs (m : gmap string JobState) (s : Scheduler) : Scheduler :=
  mkSched m (sc_checked s) (sc_runs s) (sc_next s) (sc_cancels s).
Definition set_runs (m : gmap nat Run) (s : Scheduler) : Scheduler :=
  mkSched (sc_jobs s) (sc_checked s) m (sc_next s) (sc_cancels s).
Definition set_cancels (m : gmap string nat) (s : Scheduler) : Scheduler :=
  mkSched (sc_jobs s) (sc_checked s) (sc_runs s) (sc_next s) m.
Definition add_checked (name : string) (s : Scheduler) : Scheduler :=
  mkSched (sc_jobs s) (name :: sc_checked s) (sc_runs s) (sc_next s) (sc_cancels s).

(** [New]: the stored states, with stale running flags reset. *)
Definition NewScheduler (now : Z) (stored : gmap string JobState) : Scheduler :=
  mkSched (list_to_map ((λ n, (n, updateNextRun now n (SetRunning false (default new_job (stored !! n))))) <$> names)
           ∪ stored) [] ∅ 0 ∅.

(** [TriggerRun], up to the check. *)
Definition TriggerRun (name : string) (s : Scheduler) : sched_error + Scheduler :=
  match (if decide (name ∈ names) then sc_jobs s !! name else None) with
  | None => inl UnknownJob
  | Some st => if Running st then inl ErrAlreadyRunning else inr (add_checked name s)
  end.

(** The turn of a tick for one job, up to the check. *)
Definition tick_check (now : Z) (name : string) (s : Scheduler) : Scheduler :=
  match (if decide (name ∈ names) then sc_jobs s !! name else None) with
  | Some st => if shouldRun now name st then add_checked name s else s
  | None => s
  end.

Definition tick_next (now : Z) (name : string) (s : Scheduler) : Scheduler :=
  if decide (name ∈ names) then set_jobs (alter (updateNextRun now name) name (sc_jobs s)) s else s.

(** A starter that passed its check sets the flag and spawns the run. *)
Definition begin_run (name : string) (rest : list string) (s : Scheduler) : Scheduler :=
  mkSched (alter (SetRunning true) name (sc_jobs s)) rest
          (<[sc_next s := mkRun name Spawned false]> (sc_runs s)) (S (sc_next s)) (sc_cancels s).

Definition enter_phase (ph : run_phase) (r : Run) : Run := mkRun (r_name r) ph (r_cancelled r).

(** The run registers its cancel function. *)
Definition run_register (i : nat) (s : Scheduler) : Scheduler :=
  match sc_runs s !! i with
  | Some r => set_cancels (<[r_name r := i]> (sc_cancels s)) (set_runs (alter (enter_phase Started) i (sc_runs s)) s)
  | None => s
  end.

Definition outcome_of (res : engine_result) (cancelled : bool) : string * string :=
  match res with
  | Panicked msg => ("failed", "panic: " +:+ msg)
  | Failed msg => if cancelled then ("stopped", "") else ("failed", msg)
  | Ok => if cancelled then ("stopped", "") else ("ok", "")
  end.

(** The engine is done: the flag is cleared, *)
Definition run_return (res : engine_result) (i : nat) (s : Scheduler) : Scheduler :=
  match sc_runs s !! i with
  | Some r =>
      set_jobs (alter (SetRunning false) (r_name r) (sc_jobs s))
        (set_runs (alter (enter_phase (Returned res)) i (sc_runs s)) s)
  | None => s
  end.

(** and in a section of its own the outcome is recorded. *)
Definition run_record (now : Z) (res : engine_result) (i : nat) (s : Scheduler) : Scheduler :=
  match sc_runs s !! i with
  | Some r =>
      let '(status, err) := outcome_of res (r_cancelled r) in
      set_jobs (alter (SetStatus now status err) (r_name r) (sc_jobs s))
        (set_runs (alter (enter_phase Finished) i (sc_runs s)) s)
  | None => s
  end.

(** The deferred end of a run: its cancel function is forgotten. *)
Definition run_cleanup (i : nat) (s : Scheduler) : Scheduler :=
  match sc_runs s !! i with
  | Some r => set_cancels (delete (r_name r) (sc_cancels s)) (set_runs (delete i (sc_runs s)) s)
  | None => s
  end.

Definition StopJob (name : string) (s : Scheduler) : sched_error + Scheduler :=
  match sc_cancels s !! name with
  | None => inl ErrNotRunning
  | Some i => inr (set_runs (alter (λ r, mkRun (r_name r) (r_phase r) true) i (sc_runs s)) s)
  end.

(** [raced] allows a starter to pass its check while another one of the same job
    is between its check and the flag. *)
Inductive sched_step (raced : bool) : Scheduler → Scheduler → Prop :=
  | S_trigger s name s' :
      (raced = false → name ∉ sc_checked s) → TriggerRun name s = inr s' → sched_step raced s s'
  | S_check s now name :
      (raced = false → name ∉ sc_checked s) → sched_step raced s (tick_check now name s)
  | S_next s now name : sched_step raced s (tick_next now name s)
  | S_begin s name l1 l2 :
      sc_checked s = (l1 ++ name :: l2)%list → sched_step raced s (begin_run name (l1 ++ l2)%list s)
  | S_register s i r :
      sc_runs s !! i = Some r → r_phase r = Spawned → sched_step raced s (run_register i s)
  | S_return s res i r :
      sc_runs s !! i = Some r → r_phase r = Started → sched_step raced s (run_return res i s)
  | S_record s now res i r :
      sc_runs s !! i = Some r → r_phase r = Returned res → sched_step raced s (run_record now res i s)
  | S_cleanup s i r :
      sc_runs s !! i = Some r → r_phase r = Finished → sched_step raced s (run_cleanup i s)
  | S_stop s name s' : StopJob name s = inr s' → sched_step raced s s'.

(** ** One run at a time *)

Definition is_active (r : Run) : bool :=
  match r_phase r with Spawned | Started => true | Returned _ | Finished => false end.

Record one_run (s : Scheduler) : Prop := {
  or_unique : ∀ i j r1 r2, sc_runs s !! i = Some r1 → sc_runs s !! j = Some r2 → is_active r1 = true →
    is_active r2 = true → r_name r1 = r_name r2 → i = j;
  or_flag : ∀ i r, sc_runs s !! i = Some r → is_active r = true → Running <$> sc_jobs s !! r_name r = Some true;
  or_running : ∀ n st, sc_jobs s !! n = Some st → Running st = true →
    ∃ i r, sc_runs s !! i = Some r ∧ is_active r = true ∧ r_name r = n;
  or_checked : ∀ n, n ∈ sc_checked s → Running <$> sc_jobs s !! n = Some false;
  or_nodup : NoDup (sc_checked s);
  or_fresh : ∀ i, (sc_next s ≤ i)%nat → sc_runs s !! i = None
}.

(** States of jobs that change but for the flag. *)
Lemma one_run_jobs f n s :
  (∀ st, Running (f st) = Running st) → one_run s → one_run (set_jobs (alter f n (sc_jobs s)) s).
Proof.
  intros Hf [H1 H2 H3 H4 H5 H6].
  assert (Hr : ∀ m, Running <$> alter f n (sc_jobs s) !! m = Running <$> sc_jobs s !! m).
  { intros m. destruct (decide (n = m)) as [<-|Hne]; [|by rewrite lookup_alter_ne].
    rewrite lookup_alter_eq. destruct (sc_jobs s !! n); simpl; [|done]. by rewrite Hf. }
  split; simpl; try done.
  - intros i r Hi Ha. rewrite Hr. by apply (H2 i).
  - intros m st Hm Hst. assert (Hx : Running <$> sc_jobs s !! m = Some true) by (rewrite <-Hr, Hm; simpl; congruence).
    apply fmap_Some in Hx as (st' & Hm' & Hst'). by apply (H3 m st').
  - intros m Hm. rewrite Hr. by apply H4.
Qed.

(** A run that changes neither its name nor whether it is active. *)
Lemma one_run_runs f i s :
  (∀ r, r_name (f r) = r_name r) → (∀ r, sc_runs s !! i = Some r → is_active (f r) = is_active r) →
  one_run s → one_run (set_runs (alter f i (sc_runs s)) s).
Proof.
  intros Hn Ha [H1 H2 H3 H4 H5 H6].
  assert (Hl : ∀ j r, alter f i (sc_runs s) !! j = Some r →
    ∃ r', sc_runs s !! j = Some r' ∧ r_name r' = r_name r ∧ is_active r' = is_active r).
  { intros j r. destruct (decide (i = j)) as [<-|Hne].
    - rewrite lookup_alter_eq. intros (r' & Hr' & ->)%fmap_Some. exists r'. by rewrite Hn, Ha.
    - rewrite lookup_alter_ne by done. eauto. }
  split; simpl; try done.
  - intros a b ra rb Hra Hrb Ea Eb En. apply Hl in Hra as (ra' & Hra & En1 & Ea1), Hrb as (rb' & Hrb & En2 & Ea2).
    apply (H1 a b ra' rb'); congruence.
  - intros j r Hj Er. apply Hl in Hj as (r' & Hr' & <- & Er'). apply (H2 j r'); congruence.
  - intros n st Hst Hr. destruct (H3 n st Hst Hr) as (j & r & Hj & Er & <-). destruct (decide (i = j)) as [<-|Hne].
    + exists i, (f r). rewrite lookup_alter_eq, Hj, Ha, Hn by done. done.
    + exists j, r. by rewrite lookup_alter_ne.
  - intros j Hj. destruct (decide (i = j)) as [<-|Hne]; [|rewrite lookup_alter_ne by done; by apply H6].
    by rewrite lookup_alter_eq, H6.
Qed.

Lemma one_run_check n st s :
  sc_jobs s !! n = Some st → Running st = false → n ∉ sc_checked s → one_run s → one_run (add_checked n s).
Proof.
  intros Hn Hr Hc [H1 H2 H3 H4 H5 H6]. split; simpl; try done.
  - intros m [->|Hm]%elem_of_cons; [by rewrite Hn; simpl; congruence|by apply H4].
  - by constructor.
Qed.

Lemma one_run_begin n l1 l2 s :
  sc_checked s = (l1 ++ n :: l2)%list → one_run s → one_run (begin_run n (l1 ++ l2)%list s).
Proof.
  intros Hc [H1 H2 H3 H4 H5 H6]. rewrite Hc in H4, H5.
  assert (Hn : Running <$> sc_jobs s !! n = Some false) by (apply H4, elem_of_app; right; left).
  apply fmap_Some in Hn as (st & Hn & Hst).
  assert (Hno : ∀ i r, sc_runs s !! i = Some r → is_active r = true → r_name r ≠ n).
  { intros i r Hi Ha <-. pose proof (H2 i r Hi Ha) as Hx. rewrite Hn in Hx. simpl in Hx. congruence. }
  assert (Hnd : NoDup (l1 ++ l2)%list ∧ n ∉ (l1 ++ l2)%list).
  { apply list.NoDup_app in H5 as (Hn1 & Hd & [Hn2 Hn3]%list.NoDup_cons). split.
    - apply list.NoDup_app. split_and!; [done| |done]. intros x Hx Hx'. apply (Hd x Hx). by right.
    - intros [Hx|Hx]%elem_of_app; [|done]. apply (Hd n Hx). left. }
  split; simpl.
  - intros i j r1 r2 Hi Hj Ha Hb E.
    apply lookup_insert_Some in Hi as [[<- <-]|[Hi' Hi]], Hj as [[<- <-]|[Hj' Hj]]; try done.
    + simpl in E. by destruct (Hno j r2).
    + simpl in E. by destruct (Hno i r1).
    + by apply (H1 i j r1 r2).
  - intros i r [[<- <-]|[Hi' Hi]]%lookup_insert_Some Ha.
    + simpl. by rewrite lookup_alter_eq, Hn.
    + rewrite lookup_alter_ne; [by apply (H2 i)|]. intros E. by apply (Hno i r Hi Ha).
  - intros m st' Hm Hr. destruct (decide (n = m)) as [<-|Hne].
    + eexists (sc_next s), _. by rewrite lookup_insert_eq.
    + rewrite lookup_alter_ne in Hm by done. destruct (H3 m st' Hm Hr) as (i & r & Hi & Ha & E).
      exists i, r. rewrite lookup_insert_ne; [done|]. intros <-. by rewrite H6 in Hi.
  - intros m Hm. rewrite lookup_alter_ne by (intros ->; by apply (proj2 Hnd)). apply H4.
    apply elem_of_app in Hm as [Hm|Hm]; apply elem_of_app; [by left|right; by right].
  - apply Hnd.
  - intros i Hi. rewrite lookup_insert_ne by lia. apply H6. lia.
Qed.

Lemma one_run_return res i r s :
  sc_runs s !! i = Some r → r_phase r = Started → one_run s → one_run (run_return res i s).
Proof.
  intros Hi Hp [H1 H2 H3 H4 H5 H6]. unfold run_return. rewrite Hi.
  assert (Ha : is_active r = true) by (unfold is_active; by rewrite Hp).
  assert (Hl : ∀ j q, alter (enter_phase (Returned res)) i (sc_runs s) !! j = Some q → is_active q = true →
    sc_runs s !! j = Some q ∧ j ≠ i).
  { intros j q. destruct (decide (i = j)) as [<-|Hne].
    - rewrite lookup_alter_eq, Hi. intros [= <-] Hq. done.
    - rewrite lookup_alter_ne by done. done. }
  split; simpl.
  - intros a b ra rb Hra Hrb Ea Eb En. destruct (Hl _ _ Hra Ea), (Hl _ _ Hrb Eb). by apply (H1 a b ra rb).
  - intros j q Hq Eq. destruct (Hl _ _ Hq Eq) as [Hq' Hne]. rewrite lookup_alter_ne; [by apply (H2 j)|].
    intros E. apply Hne. symmetry. by apply (H1 i j r q).
  - intros n st Hst Hr. destruct (decide (r_name r = n)) as [<-|Hne].
    + rewrite lookup_alter_eq in Hst. apply fmap_Some in Hst as (st0 & _ & ->). done.
    + rewrite lookup_alter_ne in Hst by done. destruct (H3 n st Hst Hr) as (j & q & Hj & Eq & En).
      exists j, q. rewrite lookup_alter_ne; [done|]. intros <-. congruence.
  - intros n Hn. rewrite lookup_alter_ne; [by apply H4|]. intros <-. pose proof (H4 _ Hn). pose proof (H2 i r Hi Ha). congruence.
  - done.
  - intros j Hj. rewrite lookup_alter_ne; [by apply H6|]. intros <-. by rewrite H6 in Hi.
Qed.

Lemma one_run_step s s' : sched_step false s s' → one_run s → one_run s'.
Proof.
  intros Hs Ho. destruct Hs as [s n s' Hr Ht|s now n Hr|s now n|s n l1 l2 Hc|s i r Hi Hp|s res i r Hi Hp
    |s now res i r Hi Hp|s i r Hi Hp|s n s' Ht].
  - unfold TriggerRun in Ht. case_decide; [|done]. destruct (sc_jobs s !! n) as [st|] eqn:En; [|done].
    destruct (Running st) eqn:Er; [done|]. injection Ht as <-. apply (one_run_check n st); auto.
  - unfold tick_check. case_decide; [|done]. destruct (sc_jobs s !! n) as [st|] eqn:En; [|done].
    destruct (shouldRun now n st) eqn:Es; [|done]. apply (one_run_check n st); auto.
    unfold shouldRun in Es. by destruct (Running st).
  - unfold tick_next. case_decide; [|done]. by apply one_run_jobs.
  - by apply one_run_begin.
  - unfold run_register. rewrite Hi.
    assert (H' : one_run (set_runs (alter (enter_phase Started) i (sc_runs s)) s)).
    { apply one_run_runs; [done| |done]. intros q Hq. simplify_eq. unfold is_active. by rewrite Hp. }
    destruct H' as [H1 H2 H3 H4 H5 H6]. by split.
  - by eapply one_run_return.
  - unfold run_record. rewrite Hi. destruct (outcome_of res (r_cancelled r)) as [status err].
    apply (one_run_jobs _ _ (set_runs _ s)); [done|]. apply one_run_runs; [done| |done].
    intros q Hq. simplify_eq. unfold is_active. by rewrite Hp.
  - unfold run_cleanup. rewrite Hi. destruct Ho as [H1 H2 H3 H4 H5 H6]. split; simpl; try done.
    + intros a b ra rb [_ Ha]%lookup_delete_Some [_ Hb]%lookup_delete_Some. by apply H1.
    + intros j q [_ Hj]%lookup_delete_Some. by apply (H2 j).
    + intros n st Hst Hr. destruct (H3 n st Hst Hr) as (j & q & Hj & Eq & En). exists j, q.
      rewrite lookup_delete_ne; [done|]. intros <-. simplify_eq. unfold is_active in Eq. by rewrite Hp in Eq.
    + intros j Hj. apply lookup_delete_None. right. by apply H6.
  - unfold StopJob in Ht. case_match; [|done]. injection Ht as <-. by apply one_run_runs.
Qed.

Lemma one_run_new now stored :
  (∀ n, n ∉ names → Running <$> stored !! n ≠ Some true) → one_run (NewScheduler now stored).
Proof.
  intros Hst. unfold NewScheduler.
  split; simpl; try done; try (intros i; by rewrite lookup_empty); try constructor.
  - intros n st Hn Hr. exfalso. apply lookup_union_Some_raw in Hn as [Hn|[Hn Hs]].
    + apply elem_of_list_to_map_2, list_elem_of_fmap in Hn as (m & [= -> ->] & _). done.
    + apply (Hst n); [|by rewrite Hs; simpl; congruence]. intros Hin.
      apply not_elem_of_list_to_map in Hn. apply Hn. apply list_elem_of_fmap.
      eexists (n, _). split; [done|]. apply list_elem_of_fmap. by exists n.
  - intros n Hn. by apply elem_of_nil in Hn.
Qed.

(** When no two starters of a job pass their checks together, at most one run of
    a job is in progress, the running flag says exactly whether one is, and a
    request is refused exactly then; the states of earlier sessions do not matter. *)
Theorem job_runs_once now stored s n :
  (∀ n, n ∉ names → Running <$> stored !! n ≠ Some true) →
  rtc (sched_step false) (NewScheduler now stored) s → n ∈ names → is_Some (sc_jobs s !! n) →
  (∀ i j r1 r2, sc_runs s !! i = Some r1 → sc_runs s !! j = Some r2 → is_active r1 = true → is_active r2 = true →
     r_name r1 = n → r_name r2 = n → i = j) ∧
  (TriggerRun n s = inl ErrAlreadyRunning ↔ ∃ i r, sc_runs s !! i = Some r ∧ is_active r = true ∧ r_name r = n).
Proof.
  intros Hst Hr Hn [st Hj].
  assert (Ho : one_run s).
  { pose proof (one_run_new now stored Hst) as H0. revert H0. clear -Hr. induction Hr as [|x y z Hxy _ IH]; [done|].
    intros Hx. apply IH. by eapply one_run_step. }
  destruct Ho as [H1 H2 H3 _ _ _]. split.
  - intros i j r1 r2 Hi Hj' Ea Eb E1 E2. apply (H1 i j r1 r2); congruence.
  - unfold TriggerRun. rewrite decide_True, Hj by done. split.
    + intros Ht. apply (H3 n st Hj). by destruct (Running st).
    + intros (i & r & Hi & Ha & <-). pose proof (H2 i r Hi Ha) as Hf. rewrite Hj in Hf. injection Hf as ->. done.
Qed.

(** ** Due times *)

(** The times a daily job is configured for. *)
Definition scheduled (c : DailyJobConfig) (t : Z) : Prop :=
  ∃ d, t = date d (d_hour c) (d_minute c) ∧ weekday t ∈ d_days c.

Definition config_ok (c : DailyJobConfig) : Prop :=
  d_enabled c = true ∧ 0 ≤ d_hour c < 24 ∧ 0 ≤ d_minute c < 60 ∧ ∃ w, 0 ≤ w < 7 ∧ w ∈ d_days c.

Lemma day_of_date c d : config_ok c → day_of (date d (d_hour c) (d_minute c)) = d.
Proof.
  intros (_ & Hh & Hm & _). unfold day_of, date, DAY, HOUR, MINUTE in *.
  replace (d * 86400000000000 + d_hour c * 3600000000000 + d_minute c * 60000000000 - zone + zone)
    with ((d_hour c * 3600000000000 + d_minute c * 60000000000) + d * 86400000000000) by lia.
  rewrite Z.div_add by lia. rewrite Z.div_small by lia. lia.
Qed.

Lemma day_of_bounds t : date (day_of t) 0 0 ≤ t < date (day_of t) 0 0 + DAY.
Proof.
  unfold date, day_of. pose proof (Z.mul_div_le (t + zone) DAY ltac:(unfold DAY; lia)).
  pose proof (Z.mul_succ_div_gt (t + zone) DAY ltac:(unfold DAY; lia)). lia.
Qed.

Lemma date_shift d k h m : date d h m + k * DAY = date (d + k) h m.
Proof. unfold date. lia. Qed.

(** The offset is one the loop takes. *)
Definition eligible (now : Z) (c : DailyJobConfig) (k : Z) : Prop :=
  in_days (date (day_of now + k) (d_hour c) (d_minute c)) (d_days c) = true ∧
  (k = 0 → now < date (day_of now) (d_hour c) (d_minute c)).

Lemma next_candidate_least fuel o now c :
  0 ≤ o → (∃ k, o ≤ k < o + Z.of_nat fuel ∧ eligible now c k) →
  ∃ k, o ≤ k < o + Z.of_nat fuel ∧ eligible now c k ∧
    next_candidate fuel o now c = date (day_of now + k) (d_hour c) (d_minute c) ∧
    ∀ k', o ≤ k' → eligible now c k' → k ≤ k'.
Proof.
  revert o. induction fuel as [|fuel IH]; intros o Ho (k & Hk & He); [lia|]. cbn [next_candidate].
  rewrite date_shift. set (b := if o =? 0 then _ else _).
  assert (Hb : b = true ↔ eligible now c o).
  { unfold b, eligible. destruct (Z.eqb_spec o 0) as [->|Hne].
    - rewrite Z.add_0_r, andb_true_iff, Z.ltb_lt. tauto.
    - tauto. }
  destruct b.
  - exists o. split; [lia|]. split; [by apply Hb|]. split; [done|]. by intros k' Hk' _.
  - assert (Hno : ¬ eligible now c o) by (intros E; apply Hb in E; done).
    destruct (IH (o + 1) ltac:(lia)) as (k0 & Hk0 & He0 & Hn & Hl).
    { exists k. split; [|done]. destruct (decide (k = o)) as [->|]; [done|lia]. }
    exists k0. split; [lia|]. split; [done|]. split; [done|]. intros k' Hk' He'. apply Hl; [|done].
    destruct (decide (k' = o)) as [->|]; [done|lia].
Qed.

Lemma eligible_scheduled now c u :
  config_ok c → now < u → scheduled c u →
  ∃ k, 0 ≤ k ∧ eligible now c k ∧ u = date (day_of now + k) (d_hour c) (d_minute c).
Proof.
  intros Hc Hu (d & -> & Hw). pose proof Hc as (_ & Hh & Hm & _).
  assert (Hd : day_of now ≤ d).
  { pose proof (day_of_bounds now). unfold date, DAY, HOUR, MINUTE in *. lia. }
  exists (d - day_of now). replace (day_of now + (d - day_of now)) with d by lia.
  split; [lia|]. split; [|done]. unfold eligible.
  replace (day_of now + (d - day_of now)) with d by lia. split; [by apply bool_decide_eq_true|]. intros E.
  replace (day_of now) with d by lia. done.
Qed.

Lemma nextRunTime_spec now c :
  config_ok c →
  now < nextRunTime now c ∧ scheduled c (nextRunTime now c) ∧
  ∀ u, now < u → scheduled c u → nextRunTime now c ≤ u.
Proof.
  intros Hc. pose proof Hc as (Hen & Hh & Hm & w & Hw & Hwd). unfold nextRunTime. rewrite Hen. cbn [negb].
  destruct (next_candidate_least 8 0 now c ltac:(lia)) as (k & Hk & [He1 He2] & -> & Hl).
  { exists ((w - (day_of now + 4) - 1) mod 7 + 1).
    pose proof (Z.mod_pos_bound (w - (day_of now + 4) - 1) 7 ltac:(lia)) as Hb. split; [lia|]. split; [|lia].
    apply bool_decide_eq_true. unfold weekday. rewrite day_of_date by done.
    replace (day_of now + ((w - (day_of now + 4) - 1) mod 7 + 1) + 4)
      with ((w - (day_of now + 4) - 1) mod 7 + (day_of now + 4 + 1)) by lia.
    rewrite Z.add_mod_idemp_l by lia. replace (w - (day_of now + 4) - 1 + (day_of now + 4 + 1)) with w by lia.
    rewrite Z.mod_small by lia. done. }
  split_and!.
  - destruct (decide (k = 0)) as [->|Hne]; [rewrite Z.add_0_r; auto|].
    pose proof (day_of_bounds now). unfold date, DAY, HOUR, MINUTE in *. lia.
  - eexists. split; [done|]. by apply bool_decide_eq_true in He1.
  - intros u Hu Hs. destruct (eligible_scheduled now c u Hc Hu Hs) as (k' & Hk' & He' & ->).
    specialize (Hl k' Hk' He'). unfold date, DAY. nia.
Qed.

(** The next run of a daily job is the first configured time after now. *)
Theorem nextRunTime_least now c :
  config_ok c →
  now < nextRunTime now c ∧ scheduled c (nextRunTime now c) ∧
  ∀ u, now < u → scheduled c u → nextRunTime now c ≤ u.
Proof. exact (nextRunTime_spec now c). Qed.

(** It stays the next run until it is due. *)
Lemma nextRunTime_stable now now' c :
  config_ok c → now ≤ now' < nextRunTime now c → nextRunTime now' c = nextRunTime now c.
Proof.
  intros Hc Hn. destruct (nextRunTime_spec now c Hc) as (H1 & H2 & H3), (nextRunTime_spec now' c Hc) as (H1' & H2' & H3').
  pose proof (H3' (nextRunTime now c) ltac:(lia) H2). pose proof (H3 (nextRunTime now' c) ltac:(lia) H2'). lia.
Qed.

(** The turns of successive ticks for one job: whether each started it. *)
Fixpoint ticks (name : string) (ts : list (Z * Z)) (st : JobState) : list bool * JobState :=
  match ts with
  | [] => ([], st)
  | (t1, t2) :: ts =>
      let '(bs, st') := ticks name ts (updateNextRun t2 name st) in (shouldRun t1 name st :: bs, st')
  end.

Lemma ticks_before_due name c now T ts st :
  daily_config name = Some c → config_ok c → zeroTime < now → nextRunTime now c = T → NextRun st = T →
  Forall (λ t : Z * Z, now ≤ t.1 ∧ t.1 ≤ t.2 ∧ t.2 < T) ts →
  Forall (λ b, b = false) (ticks name ts st).1 ∧ NextRun (ticks name ts st).2 = T ∧
  Running (ticks name ts st).2 = Running st ∧ LastRun (ticks name ts st).2 = LastRun st.
Proof.
  intros Hd Hc Hz HT HN Hts. revert st HN. induction Hts as [|[t1 t2] ts (Ht1 & Ht12 & Ht2) _ IH]; intros st HN; simpl in *;
    [done|].
  assert (Hnx : next_run t2 name st = T).
  { unfold next_run. rewrite Hd. rewrite <-HT. apply nextRunTime_stable; [done|lia]. }
  specialize (IH (updateNextRun t2 name st) Hnx).
  destruct (ticks name ts (updateNextRun t2 name st)) as [bs st'] eqn:Et. simpl in *.
  destruct IH as (Hb & Hn' & Hr & Hl). split_and!; try done. constructor; [|done].
  unfold shouldRun. destruct (Running st); [done|]. rewrite Hd. unfold shouldRunDaily.
  rewrite (proj1 Hc). cbn [negb]. destruct (nextRunTime_spec now c Hc) as (H1 & _). rewrite HN.
  rewrite (proj2 (Z.eqb_neq T zeroTime)) by lia. cbn [negb andb]. by rewrite (proj2 (Z.ltb_lt t1 T)) by lia.
Qed.

(** A daily job is started when it is due: if no tick straddles its time, none of
    the ticks before starts it and the first tick of the day after its time does,
    provided it is idle and has not run on that day. *)
Theorem daily_job_starts_when_due name c now ts t st :
  daily_config name = Some c → config_ok c → zeroTime < now → Running st = false →
  let T := nextRunTime now c in
  Forall (λ u : Z * Z, now ≤ u.1 ∧ u.1 ≤ u.2 ∧ u.2 < T) ts → T ≤ t → day_of t = day_of T →
  (LastRun st = zeroTime ∨ day_of (LastRun st) < day_of T) →
  let '(bs, st') := ticks name ts (updateNextRun now name st) in
  Forall (λ b, b = false) bs ∧ shouldRun t name st' = true.
Proof.
  intros Hd Hc Hz Hr T Hts Ht Hday Hlast.
  assert (Hnx : NextRun (updateNextRun now name st) = T) by (simpl; unfold next_run; by rewrite Hd).
  destruct (ticks_before_due name c now T ts _ Hd Hc Hz eq_refl Hnx Hts) as (Hb & Hn & Hr' & Hl).
  destruct (ticks name ts (updateNextRun now name st)) as [bs st'] eqn:Et. simpl in *. split; [done|].
  destruct (nextRunTime_spec now c Hc) as (H1 & (d & Ed & Hw) & _). fold T in H1, Ed, Hw.
  assert (Edd : day_of T = d) by (rewrite Ed; by apply day_of_date).
  unfold shouldRun. rewrite Hr', Hr, Hd. unfold shouldRunDaily. rewrite (proj1 Hc), Hn. cbn [negb].
  rewrite (proj2 (Z.ltb_ge t T)) by lia. rewrite andb_false_r, Hday, Edd, <-Ed.
  unfold in_days. rewrite bool_decide_eq_true_2 by done. cbn [negb]. rewrite (proj2 (Z.ltb_ge t T)) by lia.
  rewrite Hl. destruct Hlast as [->|Hlast]; [by rewrite Z.eqb_refl|].
  rewrite (proj2 (Z.ltb_lt (date _ 0 0) _)); [by rewrite andb_false_r|]. unfold date, DAY. nia.
Qed.
End scheduler.

(** ** Witnesses, and what the checks miss *)

(** Movies every day at 03:00, in a zone an hour east of UTC. *)
Definition sample_daily : DailyJobConfig := mkDaily true [0; 1; 2; 3; 4; 5; 6] 3 0.
Definition sample_cfg : SchedulerConfig :=
  mkSchedCfg sample_daily (mkDaily false [] 0 0) (mkDaily false [] 0 0) (mkWatch true 6).
Definition sample_zone : Z := HOUR.
Definition sample_names : list string := ["movies"; "watchlist"].
(** The local time of day 20000 at an hour and a minute. *)
Definition at_day (d h m : Z) : Z := date sample_zone (20000 + d) h m.

Lemma sample_daily_ok : config_ok sample_daily.
Proof. split_and!; [done|done|done|done|done|]. exists 0. split; [done|]. left. Defined.

Lemma nextRunTime_least_witness :
  nextRunTime sample_zone (at_day 0 3 0) sample_daily = at_day 1 3 0 ∧
  ∀ u, at_day 0 3 0 < u → scheduled sample_zone sample_daily u → at_day 1 3 0 ≤ u.
Proof.
  split; [reflexivity|]. destruct (nextRunTime_least sample_zone (at_day 0 3 0) sample_daily sample_daily_ok) as (_ & _ & H).
  exact H.
Defined.

Lemma daily_job_starts_when_due_witness :
  ticks sample_zone sample_cfg "movies" [(at_day 0 2 58, at_day 0 2 58); (at_day 0 2 59, at_day 0 2 59)]
    (updateNextRun sample_zone sample_cfg (at_day 0 2 0) "movies" new_job)
  = ([false; false], mkJob zeroTime (at_day 0 3 0) false "" "") ∧
  shouldRun sample_zone sample_cfg (at_day 0 3 0) "movies" (mkJob zeroTime (at_day 0 3 0) false "" "") = true.
Proof.
  split; [vm_compute; reflexivity|].
  pose proof (daily_job_starts_when_due sample_zone sample_cfg "movies" sample_daily (at_day 0 2 0)
    [(at_day 0 2 58, at_day 0 2 58); (at_day 0 2 59, at_day 0 2 59)] (at_day 0 3 0) new_job
    eq_refl sample_daily_ok eq_refl eq_refl
    ltac:(repeat constructor; vm_compute; congruence) ltac:(vm_compute; congruence) eq_refl (or_introl eq_refl)) as H.
  exact (proj2 H).
Defined.

(** The state after a request, its run and the registration. *)
Definition sample_running : Scheduler :=
  run_register 0 (begin_run "movies" [] (add_checked "movies" (NewScheduler sample_zone sample_cfg sample_names 0 ∅))).

Lemma sample_running_reachable raced :
  rtc (sched_step sample_zone sample_cfg sample_names raced)
    (NewScheduler sample_zone sample_cfg sample_names 0 ∅) sample_running.
Proof.
  eapply rtc_l; [apply (S_trigger _ _ _ _ _ "movies"); [intros _ H; by apply elem_of_nil in H|reflexivity]|].
  eapply rtc_l; [apply (S_begin _ _ _ _ _ "movies" [] []); reflexivity|].
  eapply rtc_l; [|apply rtc_refl]. by eapply S_register.
Defined.

Lemma job_runs_once_witness :
  TriggerRun sample_names "movies" sample_running = inl ErrAlreadyRunning ∧
  ∀ i j r1 r2, sc_runs sample_running !! i = Some r1 → sc_runs sample_running !! j = Some r2 → is_active r1 = true →
    is_active r2 = true → r_name r1 = "movies" → r_name r2 = "movies" → i = j.
Proof.
  destruct (job_runs_once sample_zone sample_cfg sample_names 0 ∅ sample_running "movies") as [H1 H2].
  - intros n _. by rewrite lookup_empty.
  - apply sample_running_reachable.
  - left.
  - eexists. reflexivity.
  - split; [|exact H1]. reflexivity.
Defined.

(** Two requests read the flag before either sets it: two runs of one job, and the
    cancel function of the first is overwritten. *)
Lemma trigger_race :
  ∃ s, rtc (sched_step sample_zone sample_cfg sample_names true) (NewScheduler sample_zone sample_cfg sample_names 0 ∅) s ∧
    (r_name <$> sc_runs s !! 0%nat) = Some "movies" ∧ (r_name <$> sc_runs s !! 1%nat) = Some "movies" ∧
    (r_phase <$> sc_runs s !! 0%nat) = Some Started ∧ (r_phase <$> sc_runs s !! 1%nat) = Some Started ∧
    sc_cancels s !! "movies" = Some 1%nat.
Proof.
  eexists. split.
  - eapply rtc_l; [apply (S_trigger _ _ _ _ _ "movies"); [done|reflexivity]|].
    eapply rtc_l; [apply (S_trigger _ _ _ _ _ "movies"); [done|reflexivity]|].
    eapply rtc_l; [apply (S_begin _ _ _ _ _ "movies" [] ["movies"]); reflexivity|].
    eapply rtc_l; [apply (S_begin _ _ _ _ _ "movies" [] []); reflexivity|].
    eapply rtc_l; [by apply (S_register _ _ _ _ _ 0 (mkRun "movies" Spawned false))|].
    eapply rtc_l; [by apply (S_register _ _ _ _ _ 1 (mkRun "movies" Spawned false))|]. apply rtc_refl.
  - by vm_compute.
Qed.

(** A run whose flag is cleared still has to forget its cancel function; a run
    started meanwhile loses its own, and can no longer be stopped. *)
Lemma finished_run_forgets_next :
  ∃ s, rtc (sched_step sample_zone sample_cfg sample_names false) (NewScheduler sample_zone sample_cfg sample_names 0 ∅) s ∧
    (Running <$> sc_jobs s !! "movies") = Some true ∧ (r_phase <$> sc_runs s !! 1%nat) = Some Started ∧
    StopJob "movies" s = inl ErrNotRunning.
Proof.
  eexists. split.
  - etrans; [apply sample_running_reachable|].
    eapply rtc_l; [by apply (S_return _ _ _ _ _ Ok 0 (mkRun "movies" Started false))|].
    eapply rtc_l; [by apply (S_record _ _ _ _ _ 5 Ok 0 (mkRun "movies" (Returned Ok) false))|].
    eapply rtc_l; [apply (S_trigger _ _ _ _ _ "movies"); [intros _ H; by apply elem_of_nil in H|reflexivity]|].
    eapply rtc_l; [apply (S_begin _ _ _ _ _ "movies" [] []); reflexivity|].
    eapply rtc_l; [by apply (S_register _ _ _ _ _ 1 (mkRun "movies" Spawned false))|].
    eapply rtc_l; [by apply (S_cleanup _ _ _ _ _ 0 (mkRun "movies" Finished false))|]. apply rtc_refl.
  - by vm_compute.
Qed.

(** A tick that asks just before the due time and computes the next run just after
    it moves the run to the next day: no later tick of the day starts the job. *)
Lemma straddling_tick_skips :
  ticks sample_zone sample_cfg "movies" [(at_day 0 3 0 - 1, at_day 0 3 0); (at_day 0 3 1, at_day 0 3 1)]
    (updateNextRun sample_zone sample_cfg (at_day 0 2 0) "movies" new_job)
  = ([false; false], mkJob zeroTime (at_day 1 3 0) false "" "").
Proof. vm_compute. reflexivity. Qed.

(** [LastRun] is when a run ended: the run of a day that ended after midnight counts
    as the run of the next day, which is skipped. *)
Lemma overnight_run_skips_next_day zone c now st :
  LastRun st ≠ zeroTime → day_of zone (LastRun st) = day_of zone now → shouldRunDaily zone now c st = false.
Proof.
  intros Hz Hd. unfold shouldRunDaily. rewrite Hd, Z.ltb_irrefl, (proj2 (Z.eqb_neq _ _) Hz). cbn [negb andb].
  by repeat case_match.
Qed.
