(* ===== verification/Flac.v ===== *)
(** * Tracks cut out of a FLAC image (internal/audio/flacsplit)

    A track of a single-file album is a range of whole frames of the image behind a
    generated header: nothing is decoded.  [Open] reads the metadata blocks,
    [Boundary] finds the frame a track starts at by probing the image, [Header]
    builds the metadata in front of the frames.

    The image is read through an [io.ReaderAt], here a function from an offset and a
    length to the bytes read and an error.  Indices of slices are plain integers, a
    [None] is the panic of an index out of range; samples and offsets are 64-bit. *)

From Stdlib Require Import String.
From S2P Require Import Prelude GoFloat.
Local Open Scope Z_scope.
Local Open Scope go_scope.

(** ** Bytes *)

#[export] Instance byte_eq_dec : EqDecision Byte.byte := Byte.byte_eq_dec.

Definition ub (b : Byte.byte) : Z := Z.of_N (Byte.to_N b).

(** [byte(z)]: the low eight bits. *)
Definition to_byte (z : Z) : Byte.byte :=
  match Byte.of_N (Z.to_N (z mod 256)) with Some b => b | None => Byte.x00 end.

(** [binary.BigEndian] and [binary.LittleEndian]. *)
Definition be_uint (l : list Byte.byte) : Z := foldl (λ v b, v * 256 + ub b) 0 l.
Fixpoint put_be (n : nat) (v : Z) : list Byte.byte :=
  match n with O => [] | S n => to_byte (Z.shiftr v (8 * Z.of_nat n)) :: put_be n v end.
Definition le32 (n : Z) : list Byte.byte :=
  [to_byte n; to_byte (Z.shiftr n 8); to_byte (Z.shiftr n 16); to_byte (Z.shiftr n 24)].

Definition byte_at (b : list Byte.byte) (i : Z) : option Z := ub <$> index b i.
Definition be16_at (b : list Byte.byte) (i : Z) : option Z := be_uint <$> slice b i (i + 2).

(** ** Data *)

Inductive flac_error := ErrRead | ErrNotFLAC | ErrBoundaryNotFound | ErrHeaderTooLarge.

Inductive reader_error := RNil | REOF | RFail.

#[export] Instance reader_error_eq_dec : EqDecision reader_error.
Proof. solve_decision. Defined.

(** [r.ReadAt] of a buffer of the given length at an offset. *)
Definition ReaderAt := Z → Z → list Byte.byte * reader_error.

Record StreamInfo := mkInfo {
  Raw : list Byte.byte;                 (* [34]byte *)
  MinBlock : Z;
  MaxBlock : Z;
  Rate : Z;
  Channels : Z;
  BitsPerSample : Z;
  TotalSamples : Z
}.

Definition no_info : StreamInfo := mkInfo (replicate 34 Byte.x00) 0 0 0 0 0 0.

Record Image := mkImage { Info : StreamInfo; AudioStart : Z; Size : Z }.

Record Tag := mkTag { Key : string; Value : string }.

Definition MaxHeaderSize : Z := Z.shiftl 64 10.
Definition window : Z := Z.shiftl 256 10.
Definition maxProbes : nat := 8.
Definition maxFrameScan : Z := Z.shiftl 128 10.

(** ** Opening an image *)

Definition decode (raw : list Byte.byte) : StreamInfo :=
  let field lo hi := be_uint (take (hi - lo) (drop lo raw)) in
  let v := field 10%nat 18%nat in
  mkInfo raw (field 0%nat 2%nat) (field 2%nat 4%nat) (Z.shiftr v 44) (Z.land (Z.shiftr v 41) 7 + 1)
    (Z.land (Z.shiftr v 36) 31 + 1) (Z.land v 68719476735).

(** One metadata block per turn; every block is at least four bytes long, so that the
    loop ends before it has taken [size / 4 + 1] turns. *)
Fixpoint open_loop (fuel : nat) (r : ReaderAt) (size pos : Z) (sawInfo : bool) (info : StreamInfo)
    : option (flac_error + Image) :=
  match fuel with
  | O => None
  | S fuel =>
      let '(hdr, err) := r pos 4 in
      if negb (bool_decide (err = RNil)) then Some (inl ErrRead)
      else
        h0 ← byte_at hdr 0; h1 ← byte_at hdr 1; h2 ← byte_at hdr 2; h3 ← byte_at hdr 3;
        let last := negb (Z.land h0 128 =? 0) in
        let length := Z.lor (Z.lor (Z.shiftl h1 16) (Z.shiftl h2 8)) h3 in
        let is_info := Z.land h0 127 =? 0 in
        if is_info && negb (length =? 34) then Some (inl ErrNotFLAC)
        else
          let '(raw, err) := if is_info then r (pos +! 4) 34 else (Raw info, RNil) in
          if negb (bool_decide (err = RNil)) then Some (inl ErrRead)
          else
            let info := if is_info then decode raw else info in
            let sawInfo := sawInfo || is_info in
            let pos := pos +! (4 + length) in
            if last then
              if negb sawInfo || (Rate info =? 0) || (TotalSamples info =? 0) || (MinBlock info <? 16)
              then Some (inl ErrNotFLAC) else Some (inr (mkImage info pos size))
            else if pos >=? size then Some (inl ErrNotFLAC)
            else open_loop fuel r size pos sawInfo info
  end.

Definition Open (r : ReaderAt) (size : Z) : option (flac_error + Image) :=
  let '(head, err) := r 0 4 in
  if negb (bool_decide (err = RNil)) then Some (inl ErrRead)
  else if negb (bool_decide (head = list_byte_of_string "fLaC")) then Some (inl ErrNotFLAC)
  else open_loop (S (Z.to_nat (size / 4))) r size 4 false no_info.

(** ** Frame headers *)

Record frame := mkFrame { f_sample : Z; f_block : Z }.

#[export] Instance frame_eq_dec : EqDecision frame.
Proof. solve_decision. Defined.

Definition crc_bit (c : Z) : Z :=
  if negb (Z.land c 128 =? 0) then Z.lxor (Z.land (Z.shiftl c 1) 255) 7 else Z.land (Z.shiftl c 1) 255.
Definition crc8 (b : list Byte.byte) : Z := foldl (λ c x, Nat.iter 8 crc_bit (Z.lxor c (ub x))) 0 b.

(** The bytes after the first: six bits each. *)
Fixpoint utf8_tail (extra : nat) (rest : list Byte.byte) (v : Z) : option Z :=
  match extra, rest with
  | O, _ => Some v
  | S extra, x :: rest =>
      if negb (Z.land (ub x) 192 =? 128) then None
      else utf8_tail extra rest (Z.lor (Z.shiftl v 6) (Z.land (ub x) 63))
  | S _, [] => None
  end.

(** The number of bytes that follow the first, and what it contributes. *)
Definition number_class (first : Z) : option (nat * Z) :=
  if Z.land first 128 =? 0 then Some (0%nat, first)
  else if Z.land first 224 =? 192 then Some (1%nat, Z.land first 31)
  else if Z.land first 240 =? 224 then Some (2%nat, Z.land first 15)
  else if Z.land first 248 =? 240 then Some (3%nat, Z.land first 7)
  else if Z.land first 252 =? 248 then Some (4%nat, Z.land first 3)
  else if Z.land first 254 =? 252 then Some (5%nat, Z.land first 1)
  else if first =? 254 then Some (6%nat, 0)
  else None.

Definition readUTF8Number (b : list Byte.byte) : option (Z * Z) :=
  match b with
  | [] => None
  | x :: rest =>
      '(extra, v) ← number_class (ub x);
      if (length b <? 1 + extra)%nat then None
      else (λ v, (v, 1 + Z.of_nat extra)) <$> utf8_tail extra rest v
  end.

(** The block size and where the header goes on; the inner [None] is a header cut off. *)
Definition block_size (bsCode : Z) (b : list Byte.byte) (j : Z) : option (option (Z * Z)) :=
  if bsCode =? 1 then Some (Some (192, j))
  else if (2 <=? bsCode) && (bsCode <=? 5) then Some (Some (Z.shiftl 576 (bsCode - 2), j))
  else if bsCode =? 6 then
    if j + 1 >? len b then Some None else x ← byte_at b j; Some (Some (x + 1, j + 1))
  else if bsCode =? 7 then
    if j + 2 >? len b then Some None else x ← be16_at b j; Some (Some (x + 1, j + 2))
  else Some (Some (Z.shiftl 256 (bsCode - 8), j)).

Definition sample_rate (info : StreamInfo) (srCode : Z) (b : list Byte.byte) (j : Z) : option (Z * Z) :=
  if srCode =? 0 then Some (Rate info, j)
  else if srCode =? 1 then Some (88200, j)
  else if srCode =? 2 then Some (176400, j)
  else if srCode =? 3 then Some (192000, j)
  else if srCode =? 4 then Some (8000, j)
  else if srCode =? 5 then Some (16000, j)
  else if srCode =? 6 then Some (22050, j)
  else if srCode =? 7 then Some (24000, j)
  else if srCode =? 8 then Some (32000, j)
  else if srCode =? 9 then Some (44100, j)
  else if srCode =? 10 then Some (48000, j)
  else if srCode =? 11 then Some (96000, j)
  else if srCode =? 12 then x ← byte_at b j; Some (x * 1000, j + 1)
  else if srCode =? 13 then x ← be16_at b j; Some (x, j + 2)
  else if srCode =? 14 then x ← be16_at b j; Some (x * 10, j + 2)
  else Some (0, j).

Definition bits_of_code (ssCode : Z) : Z := nth (Z.to_nat ssCode) [0; 8; 12; 0; 16; 20; 24; 32] 0.

Section image.
Context (im : Image).

(** [parseFrame]: the outer [None] is a panic, the inner one no header. *)
Definition parseFrame (b : list Byte.byte) (i : Z) : option (option frame) :=
  if i + 16 >? len b then Some None
  else
    b0 ← byte_at b i; b1 ← byte_at b (i + 1); b2 ← byte_at b (i + 2); b3 ← byte_at b (i + 3);
    if negb (b0 =? 255) || negb (Z.land b1 254 =? 248) then Some None
    else
      let variable := Z.land b1 1 =? 1 in
      let bsCode := Z.shiftr b2 4 in
      let srCode := Z.land b2 15 in
      let chCode := Z.shiftr b3 4 in
      let ssCode := Z.land (Z.shiftr b3 1) 7 in
      if negb (Z.land b3 1 =? 0) || (bsCode =? 0) || (srCode =? 15) || (chCode >? 10) || (ssCode =? 3)
      then Some None
      else
        match readUTF8Number (drop (Z.to_nat (i + 4)) b) with
        | None => Some None
        | Some (number, n) =>
            mb ← block_size bsCode b (i + 4 + n);
            match mb with
            | None => Some None
            | Some (block, j) =>
                '(rate, j) ← sample_rate (Info im) srCode b j;
                if j >=? len b then Some None
                else
                  hdr ← slice b i j; c ← byte_at b j;
                  let channels := if chCode >=? 8 then 2 else chCode + 1 in
                  let bps := bits_of_code ssCode in
                  if negb (crc8 hdr =? c) || negb (rate =? Rate (Info im)) || negb (channels =? Channels (Info im))
                     || (negb (bps =? 0) && negb (bps =? BitsPerSample (Info im)))
                     || ((block >? MaxBlock (Info im)) && (MaxBlock (Info im) >? 0))
                  then Some None
                  else Some (Some (mkFrame (if variable then number else number *! MinBlock (Info im)) block))
            end
        end.

(** The first header from [k] on, [n] places at most, that carries the sample. *)
Fixpoint find_header (n : nat) (b : list Byte.byte) (k want : Z) : option (option (Z * frame)) :=
  match n with
  | O => Some None
  | S n =>
      r ← parseFrame b k;
      match r with
      | Some next => if f_sample next =? want then Some (Some (k, next)) else find_header n b (k + 1) want
      | None => find_header n b (k + 1) want
      end
  end.

Definition successor (b : list Byte.byte) (i : Z) (f : frame) : option (option (Z * frame)) :=
  let want := f_sample f +! f_block f in
  let stop := Z.min (len b - 16) (i + maxFrameScan) in
  find_header (Z.to_nat (stop - (i + 16))) b (i + 16) want.

Definition confirmed (b : list Byte.byte) (i : Z) (f : frame) : option bool :=
  if f_sample f +! f_block f >=? TotalSamples (Info im) then Some true
  else r ← successor b i f; Some (bool_decide (is_Some r)).

(** The last confirmed frame before the target, and the first at or after it. *)
Fixpoint scan (n : nat) (b : list Byte.byte) (i sample : Z) (anchor : option (Z * frame))
    : option (option (Z * frame) * option (Z * frame)) :=
  match n with
  | O => Some (anchor, None)
  | S n =>
      r ← parseFrame b i;
      match r with
      | None => scan n b (i + 1) sample anchor
      | Some f =>
          ok ← confirmed b i f;
          if negb ok then scan n b (i + 1) sample anchor
          else if f_sample f <? sample then scan n b (i + 1) sample (Some (i, f))
          else Some (anchor, Some (i, f))
      end
  end.

(** Where the chain of frames from the anchor leads: to the end of the stream, to the
    target, or out of the window. *)
Inductive chain_end := AtEnd | AtTarget (off at_ : Z) | Left (off : Z) (f : frame).

Fixpoint follow_chain (fuel : nat) (b : list Byte.byte) (start sample : Z) (curOff : Z) (cur : frame)
    : option chain_end :=
  match fuel with
  | O => None
  | S fuel =>
      if f_sample cur +! f_block cur >=? TotalSamples (Info im) then Some AtEnd
      else
        r ← successor b curOff cur;
        match r with
        | None => Some (Left curOff cur)
        | Some (nextOff, next) =>
            if f_sample next >=? sample then Some (AtTarget (start +! nextOff) (f_sample next))
            else follow_chain fuel b start sample nextOff next
        end
  end.

Section boundary.
Context `{GoRuntime} (r : ReaderAt).

Definition per_sample : float64 :=
  f_div (f_of_int (Size im -! AudioStart im)) (f_of_int (TotalSamples (Info im))).
Definition estimate (n : Z) : Z := f_to_i64 (f_mul (f_of_int n) per_sample).

Definition probe_start (est : Z) : Z :=
  let start := est -! window /! 2 in
  let start := if start <? AudioStart im then AudioStart im else start in
  let start := if start >? Size im -! 16 then Size im -! window else start in
  if start <? AudioStart im then AudioStart im else start.

(** What a probe leads to: an answer, or a narrower bracket and the next estimate. *)
Definition probe (b : list Byte.byte) (start sample lo hi : Z) : option ((Z * Z) + (Z * Z * Z)) :=
  '(anchor, firstGE) ← scan (Z.to_nat (len b - 16)) b 0 sample None;
  match anchor, firstGE with
  | None, Some (off, f) =>
      if start =? AudioStart im then Some (inl (start +! off, f_sample f))
      else Some (inr (lo, Z.min hi (start +! off), start +! off -! estimate (f_sample f -! sample)))
  | Some (off, f), _ =>
      c ← follow_chain (length b) b start sample off f;
      match c with
      | AtEnd => Some (inl (Size im, TotalSamples (Info im)))
      | AtTarget o s => Some (inl (o, s))
      | Left o f => Some (inr (Z.max lo (start +! o), hi, start +! o +! estimate (sample -! f_sample f)))
      end
  | None, None => Some (inr (lo, hi, lo +! (hi -! lo) /! 2))
  end.

Fixpoint probes (n : nat) (sample lo hi est : Z) : option (flac_error + Z * Z) :=
  match n with
  | O => Some (inl ErrBoundaryNotFound)
  | S n =>
      let start := probe_start est in
      let '(b, err) := r start window in
      if bool_decide (err = RFail) then Some (inl ErrRead)
      else
        p ← probe b start sample lo hi;
        match p with
        | inl answer => Some (inr answer)
        | inr (lo, hi, est) =>
            probes n sample lo hi (if (est <=? lo) || (est >=? hi) then lo +! (hi -! lo) /! 2 else est)
        end
  end.

Definition Boundary (sample : Z) : option (flac_error + Z * Z) :=
  if sample <=? 0 then Some (inr (AudioStart im, 0))
  else if sample >=? TotalSamples (Info im) then Some (inr (Size im, TotalSamples (Info im)))
  else probes maxProbes sample (AudioStart im) (Size im) (AudioStart im +! estimate sample).
End boundary.

(** ** The header of a track *)

Definition track_info (totalSamples : Z) : list Byte.byte :=
  let raw := Raw (Info im) in
  let v := be_uint (take 8 (drop 10 raw)) in
  let v := Z.lor (Z.ldiff v 68719476735) (Z.land (u64 totalSamples) 68719476735) in
  take 4 raw ++ replicate 6 Byte.x00 ++ put_be 8 v ++ replicate 16 Byte.x00.

Definition comment_bytes (tags : list Tag) : list Byte.byte :=
  let text s := le32 (len (list_byte_of_string s)) ++ list_byte_of_string s in
  text "tiramisu"%string ++ le32 (len tags) ++
  concat ((λ t, text (String.append (Key t) (String.append "=" (Value t)))) <$> tags).

Definition Header (totalSamples : Z) (tags : list Tag) : flac_error + list Byte.byte :=
  let comment := comment_bytes tags in
  let cl := len comment in
  let out := list_byte_of_string "fLaC" ++ [Byte.x00; Byte.x00; Byte.x00; to_byte 34] ++ track_info totalSamples ++
             [to_byte (Z.lor 128 4); to_byte (Z.shiftr cl 16); to_byte (Z.shiftr cl 8); to_byte cl] ++ comment in
  if len out >? MaxHeaderSize then inl ErrHeaderTooLarge else inr out.
End image.

(** ** Bytes and integers *)

Lemma ub_range b : 0 ≤ ub b < 256.
Proof. unfold ub. pose proof (Byte.to_N_bounded b). lia. Qed.

Lemma ub_to_byte z : ub (to_byte z) = z mod 256.
Proof.
  unfold ub, to_byte. pose proof (Z.mod_pos_bound z 256 ltac:(lia)) as Hz.
  destruct (Byte.of_N (Z.to_N (z mod 256))) as [b|] eqn:E.
  - apply Byte.to_of_N in E. rewrite E. lia.
  - apply Byte.of_N_None_iff in E. lia.
Qed.

Lemma be_uint_app l1 l2 : be_uint (l1 ++ l2) = be_uint l1 * 256 ^ len l2 + be_uint l2.
Proof.
  unfold be_uint. rewrite foldl_app. generalize (foldl (λ v b, v * 256 + ub b) 0 l1) as a.
  induction l2 as [|x l2 IH] using rev_ind; intros a; simpl; [unfold len; simpl; lia|].
  rewrite !foldl_app. simpl. rewrite IH. unfold len. rewrite length_app. simpl.
  replace (Z.of_nat (length l2 + 1)) with (Z.of_nat (length l2) + 1) by lia.
  rewrite Z.pow_add_r by lia. lia.
Qed.

Lemma be_uint_range l : 0 ≤ be_uint l < 256 ^ len l.
Proof.
  induction l as [|x l IH] using rev_ind; [done|]. rewrite be_uint_app.
  unfold len in *. rewrite length_app. simpl length. pose proof (ub_range x).
  replace (Z.of_nat (length l + 1)) with (Z.of_nat (length l) + 1) by lia.
  rewrite Z.pow_add_r by lia. change (be_uint [x]) with (0 * 256 + ub x).
  change (256 ^ Z.of_nat 1) with 256. change (256 ^ 1) with 256. nia.
Qed.

Lemma len_put_be n v : length (put_be n v) = n.
Proof. induction n; simpl; auto. Qed.

Lemma be_uint_put_be n v : 0 ≤ v → be_uint (put_be n v) = v mod 256 ^ Z.of_nat n.
Proof.
  intros Hv. induction n as [|n IH]; [by rewrite Z.mod_1_r|]. simpl put_be.
  change (to_byte ?x :: ?l) with ([to_byte x] ++ l). rewrite be_uint_app, IH. unfold len. rewrite len_put_be.
  replace (be_uint [_]) with (ub (to_byte (Z.shiftr v (8 * Z.of_nat n)))) by done.
  rewrite ub_to_byte, Z.shiftr_div_pow2 by lia. replace (2 ^ (8 * Z.of_nat n)) with (256 ^ Z.of_nat n)
    by (rewrite Z.pow_mul_r by lia; done).
  replace (Z.of_nat (S n)) with (Z.of_nat n + 1) by lia. rewrite Z.pow_add_r by lia.
  pose proof (Z.pow_pos_nonneg 256 (Z.of_nat n) ltac:(lia) ltac:(lia)). change (256 ^ 1) with 256.
  rewrite (Z.rem_mul_r v (256 ^ Z.of_nat n) 256) by lia. lia.
Qed.

(** The three length bytes of a metadata block. *)
Lemma block_length cl :
  0 ≤ cl < 2 ^ 24 →
  Z.lor (Z.lor (Z.shiftl (ub (to_byte (Z.shiftr cl 16))) 16) (Z.shiftl (ub (to_byte (Z.shiftr cl 8))) 8))
        (ub (to_byte cl)) = cl.
Proof.
  intros Hcl. rewrite !ub_to_byte. apply Z.bits_inj'. intros k Hk. rewrite !Z.lor_spec, !Z.shiftl_spec by done.
  change 256 with (2 ^ 8).
  destruct (Z.lt_ge_cases k 8).
  { rewrite !(Z.testbit_neg_r _ (k - _)) by lia. by rewrite Z.mod_pow2_bits_low. }
  rewrite (Z.mod_pow2_bits_high cl 8) by lia. rewrite orb_false_r.
  destruct (Z.lt_ge_cases k 16).
  { rewrite (Z.testbit_neg_r _ (k - 16)) by lia. rewrite Z.mod_pow2_bits_low, Z.shiftr_spec by lia. simpl. f_equal. lia. }
  rewrite (Z.mod_pow2_bits_high _ 8 (k - 8)) by lia. rewrite orb_false_r.
  destruct (Z.lt_ge_cases k 24).
  { rewrite Z.mod_pow2_bits_low, Z.shiftr_spec by lia. f_equal. lia. }
  rewrite Z.mod_pow2_bits_high by lia. symmetry. destruct (Z.eq_dec cl 0) as [->|]; [apply Z.bits_0|].
  apply Z.bits_above_log2; [lia|]. apply Z.log2_lt_pow2; [lia|]. eapply Z.lt_le_trans; [apply Hcl|].
  apply Z.pow_le_mono_r; lia.
Qed.

(** ** Readers *)

(** What the code relies on of an [io.ReaderAt]: unless it fails it reads the bytes
    at the offset, fewer than asked for only with an error. *)
Definition faithful (r : ReaderAt) (content : list Byte.byte) : Prop :=
  ∀ off n, 0 ≤ off → 0 ≤ n → (r off n).2 ≠ RFail →
    (r off n).1 = take (Z.to_nat n) (drop (Z.to_nat off) content) ∧ ((r off n).2 = RNil → len (r off n).1 = n).
(** It does not fail, and reads what is there without an error. *)
Definition delivers (r : ReaderAt) (content : list Byte.byte) : Prop :=
  ∀ off n, 0 ≤ off → 0 ≤ n → (r off n).2 ≠ RFail ∧ (off + n ≤ len content → (r off n).2 = RNil).

Lemma read_middle r a x c n :
  faithful r (a ++ x ++ c) → delivers r (a ++ x ++ c) → n = len x → r (len a) n = (x, RNil).
Proof.
  intros Hf Hd ->. pose proof (len_nonneg a) as Ha. pose proof (len_nonneg x) as Hx.
  destruct (Hd (len a) (len x) Ha Hx) as [Hn Hr]. rewrite !len_app in Hr. pose proof (len_nonneg c).
  specialize (Hr ltac:(lia)). destruct (Hf (len a) (len x) Ha Hx Hn) as [Hb _].
  destruct (r (len a) (len x)) as [b e]. simpl in *. subst e. f_equal. rewrite Hb. unfold len. rewrite !Nat2Z.id.
  rewrite drop_app_length, take_app_length. done.
Qed.

(** ** The header of a track opens as a stream of its samples *)

(** What [Open] establishes of an image. *)
Record opened (im : Image) : Prop := {
  op_raw : length (Raw (Info im)) = 34%nat;
  op_info : Info im = decode (Raw (Info im));
  op_rate : Rate (Info im) ≠ 0;
  op_min : 16 ≤ MinBlock (Info im)
}.

Lemma track_info_length im n : opened im → length (track_info im n) = 34%nat.
Proof.
  intros Ho. unfold track_info. rewrite !length_app, !length_replicate, len_put_be, length_take, (op_raw im Ho). done.
Qed.

(** The 64-bit field with the sample count replaced. *)
Lemma replace_samples v n v' :
  0 ≤ v < 2 ^ 64 → 0 ≤ n < 2 ^ 36 → v' = Z.lor (Z.ldiff v 68719476735) (Z.land (u64 n) 68719476735) →
  0 ≤ v' < 2 ^ 64 ∧ Z.shiftr v' 36 = Z.shiftr v 36 ∧ Z.land v' 68719476735 = n.
Proof.
  intros Hv Hn Ev. rewrite u64_id in Ev by lia. change 68719476735 with (Z.ones 36) in *.
  assert (Hb : ∀ k, 0 ≤ k → Z.testbit v' k = if k <? 36 then Z.testbit n k else Z.testbit v k).
  { intros k Hk. rewrite Ev, Z.lor_spec, Z.ldiff_spec, Z.land_spec.
    destruct (Z.ltb_spec k 36).
    - rewrite Z.ones_spec_low by lia. rewrite andb_false_r, andb_true_r. done.
    - rewrite Z.ones_spec_high by lia. rewrite andb_false_r, andb_true_r, orb_false_r. done. }
  assert (H36 : Z.shiftr v' 36 = Z.shiftr v 36).
  { apply Z.bits_inj'. intros k Hk. rewrite !Z.shiftr_spec by done. rewrite Hb by lia.
    destruct (Z.ltb_spec (k + 36) 36); [lia|done]. }
  assert (Hl : Z.land v' (Z.ones 36) = n).
  { apply Z.bits_inj'. intros k Hk. rewrite Z.land_spec, Hb by done. destruct (Z.ltb_spec k 36).
    - rewrite Z.ones_spec_low by lia. apply andb_true_r.
    - rewrite Z.ones_spec_high by lia. rewrite andb_false_r. symmetry.
      destruct (Z.eq_dec n 0) as [->|]; [apply Z.bits_0|]. apply Z.bits_above_log2; [lia|].
      apply Z.log2_lt_pow2; [lia|]. eapply Z.lt_le_trans; [apply Hn|]. apply Z.pow_le_mono_r; lia. }
  split_and!; try done.
  - rewrite Ev. apply Z.lor_nonneg. split; [apply Z.ldiff_nonneg; lia|apply Z.land_nonneg; lia].
  - assert (Hd : v' = Z.shiftr v' 36 * 2 ^ 36 + Z.land v' (Z.ones 36)).
    { rewrite Z.land_ones, Z.shiftr_div_pow2 by lia. pose proof (Z.div_mod v' (2 ^ 36) ltac:(lia)). lia. }
    rewrite Hd, H36, Hl, Z.shiftr_div_pow2 by lia. pose proof (Z.div_lt_upper_bound v (2 ^ 36) (2 ^ 28) ltac:(lia) ltac:(lia)).
    lia.
Qed.

Lemma decode_track im n :
  opened im → 0 ≤ n < 2 ^ 36 →
  decode (track_info im n) =
    mkInfo (track_info im n) (MinBlock (Info im)) (MaxBlock (Info im)) (Rate (Info im)) (Channels (Info im))
      (BitsPerSample (Info im)) n.
Proof.
  intros Ho Hn. pose proof (op_raw im Ho) as Hr. rewrite (op_info im Ho). unfold decode at 1. simpl.
  unfold track_info at 2 3 4 5 6 7. set (raw := Raw (Info im)) in *.
  assert (Hv : 0 ≤ be_uint (take 8 (drop 10 raw)) < 2 ^ 64).
  { pose proof (be_uint_range (take 8 (drop 10 raw))) as Hb. unfold len in Hb. rewrite length_take, length_drop, Hr in Hb.
    exact Hb. }
  destruct (replace_samples _ n _ Hv Hn eq_refl) as (Hv' & H36 & Hl). set (v := be_uint (take 8 (drop 10 raw))) in *.
  set (v' := Z.lor _ _) in *.
  assert (Hf : ∀ k l, (k + l ≤ 4)%nat → take l (drop k (take 4 raw ++ replicate 6 Byte.x00 ++ put_be 8 v' ++
    replicate 16 Byte.x00)) = take l (drop k raw)).
  { intros k l Hk. rewrite drop_app_le by (rewrite length_take; lia).
    rewrite take_app_le by (rewrite length_drop, length_take; lia). rewrite !take_drop_commute, take_take.
    do 2 f_equal. lia. }
  rewrite (Hf 0%nat 2%nat), (Hf 2%nat 2%nat) by lia.
  assert (He : take 8 (drop 10 (take 4 raw ++ replicate 6 Byte.x00 ++ put_be 8 v' ++ replicate 16 Byte.x00)) = put_be 8 v').
  { rewrite (app_assoc (take 4 raw)). rewrite drop_app_length' by (rewrite length_app, length_take, Hr; done).
    by rewrite take_app_length' by (by rewrite len_put_be). }
  rewrite He, be_uint_put_be by lia. change (256 ^ Z.of_nat 8) with (2 ^ 64). rewrite (Z.mod_small v') by done.
  assert (Hs : ∀ k, 36 ≤ k → Z.shiftr v' k = Z.shiftr v k).
  { intros k Hk. replace k with (36 + (k - 36)) by lia. by rewrite <-!Z.shiftr_shiftr, H36 by lia. }
  rewrite !Hs, Hl by lia. done.
Qed.

Lemma comment_length im n tags hdr :
  opened im → Header im n tags = inr hdr →
  hdr = list_byte_of_string "fLaC" ++ [Byte.x00; Byte.x00; Byte.x00; to_byte 34] ++ track_info im n ++
    [to_byte (Z.lor 128 4); to_byte (Z.shiftr (len (comment_bytes tags)) 16);
     to_byte (Z.shiftr (len (comment_bytes tags)) 8); to_byte (len (comment_bytes tags))] ++ comment_bytes tags ∧
  len hdr = 46 + len (comment_bytes tags) ∧ len hdr ≤ MaxHeaderSize.
Proof.
  intros Ho. unfold Header. destruct (_ >? _) eqn:E; [done|]. intros Hh%(inj inr). subst hdr. split; [done|].
  assert (Hl : ∀ t : list Byte.byte, len (list_byte_of_string "fLaC" ++ [Byte.x00; Byte.x00; Byte.x00; to_byte 34] ++
    track_info im n ++ [to_byte (Z.lor 128 4); to_byte (Z.shiftr (len (comment_bytes tags)) 16);
     to_byte (Z.shiftr (len (comment_bytes tags)) 8); to_byte (len (comment_bytes tags))] ++ t) = 46 + len t).
  { intros t. rewrite !len_app. unfold len at 3. rewrite track_info_length by done. unfold len. simpl length. lia. }
  rewrite Hl in E |- *. split; [done|]. rewrite Z.gtb_ltb in E. by apply Z.ltb_ge in E.
Qed.

Lemma open_info_block fuel r size pos saw info x0 x1 x2 x3 raw :
  r pos 4 = ([x0; x1; x2; x3], RNil) → Z.land (ub x0) 128 = 0 → Z.land (ub x0) 127 = 0 →
  Z.lor (Z.lor (Z.shiftl (ub x1) 16) (Z.shiftl (ub x2) 8)) (ub x3) = 34 → r (pos +! 4) 34 = (raw, RNil) →
  pos +! 38 < size → open_loop (S fuel) r size pos saw info = open_loop fuel r size (pos +! 38) true (decode raw).
Proof.
  intros E1 H1 H2 H3 E2 Hs. simpl. rewrite E1, (bool_decide_eq_true_2 (RNil = RNil)) by done. simpl.
  rewrite H1, H2, H3. simpl. rewrite E2, (bool_decide_eq_true_2 (RNil = RNil)) by done. simpl.
  rewrite Z.geb_leb, (proj2 (Z.leb_gt size _)) by done. by rewrite orb_true_r.
Qed.

Lemma open_last_block fuel r size pos info x0 x1 x2 x3 l :
  r pos 4 = ([x0; x1; x2; x3], RNil) → Z.land (ub x0) 128 ≠ 0 → Z.land (ub x0) 127 ≠ 0 →
  Z.lor (Z.lor (Z.shiftl (ub x1) 16) (Z.shiftl (ub x2) 8)) (ub x3) = l →
  Rate info ≠ 0 → TotalSamples info ≠ 0 → 16 ≤ MinBlock info →
  open_loop (S fuel) r size pos true info = Some (inr (mkImage info (pos +! (4 + l)) size)).
Proof.
  intros E1 H1 H2 H3 Hr Ht Hm. simpl. rewrite E1, (bool_decide_eq_true_2 (RNil = RNil)) by done. simpl.
  rewrite (proj2 (Z.eqb_neq _ _) H1), (proj2 (Z.eqb_neq _ _) H2), H3. simpl.
  by rewrite (proj2 (Z.eqb_neq _ _) Hr), (proj2 (Z.eqb_neq _ _) Ht), (proj2 (Z.ltb_ge (MinBlock info) 16)) by done.
Qed.

(** A generated header in front of any frames is a FLAC stream: [Open] accepts it,
    finds the parameters of the image with the sample count of the track, and the
    frames right behind the header. *)
Lemma Header_Open im r n tags hdr body :
  opened im → 0 < n < 2 ^ 36 → Header im n tags = inr hdr →
  faithful r (hdr ++ body) → delivers r (hdr ++ body) → len (hdr ++ body) < 2 ^ 60 →
  Open r (len (hdr ++ body)) =
    Some (inr (mkImage (mkInfo (track_info im n) (MinBlock (Info im)) (MaxBlock (Info im)) (Rate (Info im))
                               (Channels (Info im)) (BitsPerSample (Info im)) n)
                       (len hdr) (len (hdr ++ body)))).
Proof.
  intros Ho Hn Hh Hf Hd Hs. destruct (comment_length im n tags hdr Ho Hh) as (Eh & Hl & Hmax).
  set (com := comment_bytes tags) in *. pose proof (len_nonneg com) as Hcl.
  assert (Hcl24 : len com < 2 ^ 24) by (change MaxHeaderSize with 65536 in Hmax; lia).
  set (sz := len (hdr ++ body)) in *. rewrite Eh, <-!app_assoc in Hf, Hd.
  set (b1 := [Byte.x00; Byte.x00; Byte.x00; to_byte 34]) in *. set (ti := track_info im n) in *.
  set (b2 := [to_byte (Z.lor 128 4); _; _; _]) in *. set (magic := list_byte_of_string "fLaC") in *.
  assert (Hti : len ti = 34) by (unfold len, ti; by rewrite track_info_length).
  assert (R0 : r 0 4 = (magic, RNil)) by (by apply (read_middle r [] magic (b1 ++ ti ++ b2 ++ com ++ body))).
  assert (R1 : r 4 4 = (b1, RNil)) by (by apply (read_middle r magic b1 (ti ++ b2 ++ com ++ body))).
  assert (R2 : r 8 34 = (ti, RNil)).
  { apply (read_middle r (magic ++ b1) ti (b2 ++ com ++ body)); by rewrite <-?app_assoc. }
  assert (R3 : r 42 4 = (b2, RNil)).
  { replace 42 with (len (magic ++ b1 ++ ti)) by (rewrite !len_app, Hti; done).
    apply (read_middle r (magic ++ b1 ++ ti) b2 (com ++ body)); by rewrite <-?app_assoc. }
  unfold Open. rewrite R0. rewrite (bool_decide_eq_true_2 (RNil = RNil)) by done. cbn [negb].
  rewrite bool_decide_eq_true_2 by done. cbn [negb].
  assert (Hsz : 46 + len com ≤ sz) by (unfold sz; rewrite len_app; pose proof (len_nonneg body); lia).
  assert (Hfuel : ∃ f, S (Z.to_nat (sz / 4)) = S (S f)).
  { exists (Z.to_nat (sz / 4) - 1)%nat. pose proof (Z.div_le_lower_bound sz 4 1 ltac:(lia) ltac:(lia)). lia. }
  destruct Hfuel as [f ->]. unfold b1, b2 in *.
  erewrite open_info_block; [|exact R1|by rewrite ?ub_to_byte|done|by rewrite ub_to_byte|exact R2|rewrite i64_id by (unfold in_i64; lia); lia].
  unfold ti. rewrite decode_track by (done || lia).
  erewrite open_last_block;
    [|exact R3|by rewrite ub_to_byte|by rewrite ub_to_byte|by apply block_length; lia|apply Ho|simpl; lia|apply Ho].
  do 3 f_equal. rewrite Hl. rewrite (i64_id (4 + 38)) by (unfold in_i64; lia). rewrite i64_id by (unfold in_i64; lia). lia.
Qed.

(** ** Opening ends, on any bytes *)

Lemma byte_at_some b i : 0 ≤ i < len b → ∃ x, byte_at b i = Some x ∧ 0 ≤ x < 256.
Proof.
  intros Hi. unfold byte_at, index. rewrite decide_True by lia.
  destruct (b !! Z.to_nat i) as [y|] eqn:E.
  - exists (ub y). split; [done|apply ub_range].
  - apply lookup_ge_None in E. unfold len in Hi. lia.
Qed.

Lemma lor_bound a b n : 0 ≤ n → 0 ≤ a < 2 ^ n → 0 ≤ b < 2 ^ n → 0 ≤ Z.lor a b < 2 ^ n.
Proof.
  intros Hn Ha Hb. split; [apply Z.lor_nonneg; lia|].
  destruct (Z.eq_dec (Z.lor a b) 0) as [->|Hne]; [lia|].
  assert (Hp : 0 < Z.lor a b) by (pose proof (proj2 (Z.lor_nonneg a b)); lia).
  apply Z.log2_lt_pow2; [done|]. rewrite Z.log2_lor by lia.
  apply Z.max_lub_lt.
  - destruct (Z.eq_dec a 0) as [->|]; [simpl; apply Z.lt_le_trans with 1; [lia|]|apply Z.log2_lt_pow2; lia].
    destruct (Z.eq_dec n 0) as [->|]; [simpl in *; assert (b = 0) as -> by lia; done|lia].
  - destruct (Z.eq_dec b 0) as [->|]; [simpl; apply Z.lt_le_trans with 1; [lia|]|apply Z.log2_lt_pow2; lia].
    destruct (Z.eq_dec n 0) as [->|]; [simpl in *; assert (a = 0) as -> by lia; done|lia].
Qed.

Lemma length_field x1 x2 x3 :
  0 ≤ x1 < 256 → 0 ≤ x2 < 256 → 0 ≤ x3 < 256 → 0 ≤ Z.lor (Z.lor (Z.shiftl x1 16) (Z.shiftl x2 8)) x3 < 2 ^ 24.
Proof.
  intros H1 H2 H3. rewrite !Z.shiftl_mul_pow2 by lia. repeat apply lor_bound; lia.
Qed.

Definition open_res (size : Z) (res : flac_error + Image) : Prop :=
  match res with inr im => opened im ∧ Size im = size ∧ 0 ≤ AudioStart im < 2 ^ 61 | inl _ => True end.

Definition info_ok (saw : bool) (info : StreamInfo) : Prop :=
  saw = true → length (Raw info) = 34%nat ∧ info = decode (Raw info).

Lemma open_loop_ends fuel r content size pos saw info :
  faithful r content → size < 2 ^ 60 → 4 ≤ pos → pos < size ∨ pos = 4 → size - pos < 4 * Z.of_nat fuel → (0 < fuel)%nat →
  info_ok saw info → ∃ res, open_loop fuel r size pos saw info = Some res ∧ open_res size res.
Proof.
  intros Hf Hs. revert pos saw info. induction fuel as [|fuel IH]; intros pos saw info Hp Hps Hfu Hf0 Hi; [lia|].
  simpl. pose proof (Hf pos 4 ltac:(lia) ltac:(lia)) as Hr. destruct (r pos 4) as [hdr err]. simpl in Hr.
  destruct (bool_decide_reflect (err = RNil)) as [->|]; simpl; [|by eexists].
  destruct (Hr ltac:(done)) as [_ Hl]. specialize (Hl eq_refl).
  destruct (byte_at_some hdr 0 ltac:(lia)) as (h0 & -> & Hh0), (byte_at_some hdr 1 ltac:(lia)) as (h1 & -> & Hh1),
    (byte_at_some hdr 2 ltac:(lia)) as (h2 & -> & Hh2), (byte_at_some hdr 3 ltac:(lia)) as (h3 & -> & Hh3). simpl.
  pose proof (length_field h1 h2 h3 Hh1 Hh2 Hh3) as Hlen. set (l := Z.lor _ h3) in *.
  destruct ((Z.land h0 127 =? 0) && negb (l =? 34)) eqn:Ei; [by eexists|].
  rewrite (i64_id (pos + 4)), (i64_id (pos + (4 + l))) by (unfold in_i64; lia).
  assert (Hinfo : ∀ raw, r (pos + 4) 34 = (raw, RNil) → length raw = 34%nat).
  { intros raw E. destruct (Hf (pos + 4) 34 ltac:(lia) ltac:(lia)) as [_ Hl']; rewrite E in *; simpl in *; [done|].
    specialize (Hl' eq_refl). unfold len in Hl'. lia. }
  assert (Hgo : ∀ saw' info', info_ok saw' info' → ∃ res,
    (if negb (Z.land h0 128 =? 0)
     then if negb saw' || (Rate info' =? 0) || (TotalSamples info' =? 0) || (MinBlock info' <? 16)
          then Some (inl ErrNotFLAC) else Some (inr (mkImage info' (pos + (4 + l)) size))
     else if pos + (4 + l) >=? size then Some (inl ErrNotFLAC)
          else open_loop fuel r size (pos + (4 + l)) saw' info') = Some res ∧ open_res size res).
  { intros saw' info' Hi'. destruct (negb (Z.land h0 128 =? 0)).
    - destruct (_ || _) eqn:Eb; [by eexists|]. eexists. split; [done|]. bool_simpl. subst saw'.
      destruct (Hi' eq_refl). split; [by split|]. simpl. lia.
    - rewrite Z.geb_leb. destruct (Z.leb_spec size (pos + (4 + l))); [by eexists|]. apply IH; try done; lia. }
  destruct (Z.land h0 127 =? 0) eqn:E0.
  - destruct (r (pos + 4) 34) as [raw err] eqn:E2.
    destruct (bool_decide_reflect (err = RNil)) as [->|]; cbn [negb]; [|by exists (inl ErrRead)].
    rewrite orb_true_r. apply Hgo. intros _. split; [by apply Hinfo|done].
  - simpl. rewrite orb_false_r. by apply Hgo.
Qed.

Lemma Open_ends r content size :
  faithful r content → 0 ≤ size < 2 ^ 60 → ∃ res, Open r size = Some res ∧ open_res size res.
Proof.
  intros Hf Hs. unfold Open. destruct (r 0 4) as [head err].
  destruct (negb _); [by eexists|]. destruct (negb _); [by eexists|].
  apply (open_loop_ends _ r content); try done; try lia. pose proof (Z.mul_succ_div_gt size 4 ltac:(lia)). lia.
Qed.

(** ** Frame headers: sixteen bytes, no panic *)

Lemma land_low x n : 0 ≤ x → 0 ≤ n → 0 ≤ Z.land x (Z.ones n) < 2 ^ n.
Proof. intros Hx Hn. rewrite Z.land_ones by done. apply Z.mod_pos_bound. lia. Qed.

Lemma utf8_tail_range extra rest v w n :
  0 ≤ n → 0 ≤ v < 2 ^ n → utf8_tail extra rest v = Some w → 0 ≤ w < 2 ^ (n + 6 * Z.of_nat extra).
Proof.
  revert rest v n. induction extra as [|extra IH]; intros rest v n Hn Hv; simpl.
  { intros [= <-]. by rewrite Z.add_0_r. }
  destruct rest as [|x rest]; [done|]. destruct (negb _); [done|]. intros E.
  replace (n + 6 * Z.of_nat (S extra)) with (n + 6 + 6 * Z.of_nat extra) by lia. eapply IH; [lia| |exact E].
  pose proof (land_low (ub x) 6 ltac:(pose proof (ub_range x); lia) ltac:(lia)) as Hl. change (Z.ones 6) with 63 in Hl.
  apply lor_bound; [lia| |].
  - rewrite Z.shiftl_mul_pow2, Z.pow_add_r by lia. nia.
  - split; [lia|]. eapply Z.lt_le_trans; [apply Hl|]. apply Z.pow_le_mono_r; lia.
Qed.

(** A property of every byte, by evaluation. *)
Lemma check_byte (P : Z → bool) lo hi x :
  forallb P (seqZ lo (hi - lo)) = true → lo ≤ x < hi → P x = true.
Proof. rewrite forallb_forall. intros Hp Hx. apply Hp, list_elem_of_In, elem_of_seqZ. lia. Qed.

Lemma number_class_range x extra v :
  0 ≤ x < 256 → number_class x = Some (extra, v) → (extra ≤ 6)%nat ∧ 0 ≤ v < 2 ^ (if decide (extra = 0%nat) then 7 else 6 - Z.of_nat extra).
Proof.
  intros Hx E.
  pose proof (check_byte (λ x, match number_class x with
    | Some (e, v) => (e <=? 6)%nat && (0 <=? v) && (v <? 2 ^ (if decide (e = 0%nat) then 7 else 6 - Z.of_nat e))
    | None => true end) 0 256 x ltac:(by vm_compute) Hx) as Hc. cbv beta in Hc. rewrite E in Hc. bool_simpl.
  apply Nat.leb_le in H. split; [done|lia].
Qed.

Lemma readUTF8_range b v n : readUTF8Number b = Some (v, n) → 0 ≤ v < 2 ^ 36 ∧ 1 ≤ n ≤ 7.
Proof.
  destruct b as [|x rest]; [done|]. unfold readUTF8Number. pose proof (ub_range x) as Hx.
  destruct (number_class (ub x)) as [[extra w]|] eqn:E; [|done]. cbn [mbind option_bind].
  destruct (number_class_range _ _ _ Hx E) as [He Hw]. destruct (_ <? _)%nat; [done|].
  intros (v' & Ev & [= -> ->])%fmap_Some. split; [|lia].
  pose proof (λ Hn, utf8_tail_range _ _ _ _ _ Hn Hw Ev) as Hr.
  specialize (Hr ltac:(case_decide; lia)). split; [lia|].
  eapply Z.lt_le_trans; [apply Hr|]. apply Z.pow_le_mono_r; [lia|]. case_decide; lia.
Qed.

Lemma utf8_tail_take extra rest v k : (extra ≤ k)%nat → utf8_tail extra (take k rest) v = utf8_tail extra rest v.
Proof.
  revert rest v k. induction extra as [|extra IH]; intros rest v k Hk; [done|].
  destruct k as [|k]; [lia|]. destruct rest as [|x rest]; [done|]. simpl. destruct (negb _); [done|]. apply IH. lia.
Qed.

Lemma readUTF8_take b m : (7 ≤ m)%nat → readUTF8Number (take m b) = readUTF8Number b.
Proof.
  intros Hm. destruct m as [|m]; [lia|]. destruct b as [|x rest]; [done|]. simpl take. unfold readUTF8Number.
  destruct (number_class (ub x)) as [[extra w]|] eqn:E; [|done]. cbn [mbind option_bind].
  destruct (number_class_range _ _ _ (ub_range x) E) as [He _].
  rewrite utf8_tail_take by lia. simpl length. rewrite length_take.
  destruct (Nat.ltb_spec (S (Nat.min m (length rest))) (1 + extra)), (Nat.ltb_spec (S (length rest)) (1 + extra));
    done || lia.
Qed.

Section view.
Context (b : list Byte.byte) (i : Z) (Hi : 0 ≤ i) (Hb : i + 16 ≤ len b).
Let hd := take 16 (drop (Z.to_nat i) b).

Lemma hd_len : len hd = 16.
Proof. unfold hd, len in *. rewrite length_take, length_drop. lia. Qed.

Lemma hd_byte k : 0 ≤ k < 16 → byte_at b (i + k) = byte_at hd k.
Proof.
  intros Hk. unfold byte_at, index, hd. rewrite !decide_True by lia. rewrite lookup_take_lt by lia.
  rewrite lookup_drop. do 2 f_equal. lia.
Qed.

Lemma hd_slice j k : 0 ≤ j ≤ k → k ≤ 16 → slice b (i + j) (i + k) = slice hd j k.
Proof.
  intros Hj Hk. unfold slice. rewrite !decide_True by (rewrite ?hd_len; lia). f_equal. unfold hd.
  replace (i + k - (i + j)) with (k - j) by lia. rewrite (take_drop_commute (take 16 _)), take_take.
  replace (_ `min` 16)%nat with (Z.to_nat j + Z.to_nat (k - j))%nat by lia. rewrite <-take_drop_commute, drop_drop.
  do 2 f_equal. lia.
Qed.

Lemma hd_be16 j : 0 ≤ j ≤ 14 → be16_at b (i + j) = be16_at hd j.
Proof. intros Hj. unfold be16_at. rewrite <-hd_slice by lia. do 2 f_equal. lia. Qed.

Lemma hd_number : readUTF8Number (drop (Z.to_nat (i + 4)) b) = readUTF8Number (drop 4 hd).
Proof.
  unfold hd. rewrite skipn_firstn_comm. rewrite readUTF8_take by lia. rewrite drop_drop. do 2 f_equal. lia.
Qed.

Lemma hd_block bs j :
  0 ≤ j ≤ 11 → ∃ block d, 0 ≤ d ≤ 2 ∧ block_size bs b (i + j) = Some (Some (block, i + j + d)) ∧
    block_size bs hd j = Some (Some (block, j + d)).
Proof.
  intros Hj. unfold block_size. rewrite hd_byte, hd_be16, hd_len by lia. rewrite !Z.gtb_ltb.
  rewrite (proj2 (Z.ltb_ge (len b) (i + j + 1))), (proj2 (Z.ltb_ge (len b) (i + j + 2))) by lia.
  rewrite (proj2 (Z.ltb_ge 16 (j + 1))), (proj2 (Z.ltb_ge 16 (j + 2))) by lia.
  destruct (bs =? 1); [eexists _, 0; split_and!; try done; do 3 f_equal; lia|].
  destruct (_ && _); [eexists _, 0; split_and!; try done; do 3 f_equal; lia|].
  destruct (bs =? 6).
  { destruct (byte_at_some hd j ltac:(rewrite hd_len; lia)) as (x & -> & _). eexists _, 1. split_and!; done || lia. }
  destruct (bs =? 7); [|eexists _, 0; split_and!; try done; do 3 f_equal; lia].
  unfold be16_at, slice. rewrite decide_True by (rewrite hd_len; lia). eexists _, 2. split_and!; done || lia.
Qed.

Lemma hd_rate info sr j :
  0 ≤ j ≤ 13 → ∃ rate d, 0 ≤ d ≤ 2 ∧ sample_rate info sr b (i + j) = Some (rate, i + j + d) ∧
    sample_rate info sr hd j = Some (rate, j + d).
Proof.
  intros Hj. unfold sample_rate. rewrite hd_byte, hd_be16 by lia.
  destruct (byte_at_some hd j ltac:(rewrite hd_len; lia)) as (x & -> & _).
  assert (Hw : ∃ w, be16_at hd j = Some w).
  { unfold be16_at, slice. rewrite decide_True by (rewrite hd_len; lia). by eexists. }
  destruct Hw as [w ->]. simpl.
  repeat (destruct (sr =? _); [first [eexists _, 0; split_and!; [done|done|do 2 f_equal; lia|do 2 f_equal; lia]
    | eexists _, 1; split_and!; done | eexists _, 2; split_and!; done]|]).
  eexists _, 0. split_and!; [done|done|do 2 f_equal; lia|do 2 f_equal; lia].
Qed.

(** A header is decided by its sixteen bytes, and there is no panic. *)
Lemma parse_local im : ∃ res, parseFrame im b i = Some res ∧ parseFrame im hd 0 = Some res.
Proof.
  unfold parseFrame. rewrite hd_len, !Z.gtb_ltb. rewrite (proj2 (Z.ltb_ge (len b) _)), (proj2 (Z.ltb_ge 16 _)) by lia.
  replace (byte_at b i) with (byte_at hd 0) by (rewrite <-hd_byte by lia; f_equal; lia).
  rewrite (hd_byte 1), (hd_byte 2), (hd_byte 3), hd_number by lia. rewrite !Z.add_0_l.
  destruct (byte_at_some hd 0 ltac:(rewrite hd_len; lia)) as (b0 & -> & _),
    (byte_at_some hd 1 ltac:(rewrite hd_len; lia)) as (b1 & -> & _),
    (byte_at_some hd 2 ltac:(rewrite hd_len; lia)) as (b2 & -> & _),
    (byte_at_some hd 3 ltac:(rewrite hd_len; lia)) as (b3 & -> & _). cbn [mbind option_bind].
  destruct (_ || _); [by eexists|]. destruct (_ || _); [by eexists|].
  change (Z.to_nat 4) with 4%nat.
  destruct (readUTF8Number (drop 4 hd)) as [[v n]|] eqn:En; [|by eexists].
  apply readUTF8_range in En as [Hv Hn].
  destruct (hd_block (Z.shiftr b2 4) (4 + n) ltac:(lia)) as (block & d1 & Hd1 & E1 & E2).
  replace (i + 4 + n) with (i + (4 + n)) by lia. rewrite E1, E2. cbn [mbind option_bind].
  destruct (hd_rate (Info im) (Z.land b2 15) (4 + n + d1) ltac:(lia)) as (rate & d2 & Hd2 & E3 & E4).
  replace (i + (4 + n) + d1) with (i + (4 + n + d1)) by lia. rewrite E3, E4. cbn [mbind option_bind].
  rewrite !Z.geb_leb. rewrite (proj2 (Z.leb_gt (len b) _)), (proj2 (Z.leb_gt 16 _)) by lia.
  replace (i + (4 + n + d1) + d2) with (i + (4 + n + d1 + d2)) by lia. rewrite hd_byte by lia.
  replace (slice b i (i + (4 + n + d1 + d2))) with (slice hd 0 (4 + n + d1 + d2))
    by (rewrite <-hd_slice by lia; f_equal; lia).
  destruct (byte_at_some hd (4 + n + d1 + d2) ltac:(rewrite hd_len; lia)) as (c & -> & _).
  unfold slice. rewrite decide_True by (rewrite hd_len; lia). cbn [mbind option_bind].
  destruct (_ || _); by eexists.
Qed.
End view.

Section total.
Context (im : Image).

(** The header at an offset of the image. *)
Definition header_at (content : list Byte.byte) (o : Z) : option frame :=
  match parseFrame im content o with Some r => r | None => None end.

Lemma parse_total b i : 0 ≤ i → parseFrame im b i = Some (header_at b i).
Proof.
  intros Hi. unfold header_at. destruct (Z.le_gt_cases (i + 16) (len b)) as [Hb|Hb].
  - by destruct (parse_local b i Hi Hb im) as (r & -> & _).
  - unfold parseFrame. by rewrite Z.gtb_ltb, (proj2 (Z.ltb_lt (len b) (i + 16)) Hb).
Qed.

Lemma header_room b i f : 0 ≤ i → header_at b i = Some f → i + 16 ≤ len b.
Proof.
  intros Hi. unfold header_at, parseFrame. rewrite Z.gtb_ltb. destruct (Z.ltb_spec (len b) (i + 16)); [done|lia].
Qed.

(** A window shows the headers of the image, where sixteen bytes of it are left. *)
Lemma header_window content start n i :
  0 ≤ start → 0 ≤ i → i + 16 ≤ len (take n (drop (Z.to_nat start) content)) →
  header_at (take n (drop (Z.to_nat start) content)) i = header_at content (start + i).
Proof.
  intros Hs Hi Hb. set (b := take n (drop (Z.to_nat start) content)) in *.
  assert (Hc : start + i + 16 ≤ len content).
  { unfold b, len in *. rewrite length_take, length_drop in Hb. lia. }
  destruct (parse_local b i Hi Hb im) as (r & E1 & E2), (parse_local content (start + i) ltac:(lia) Hc im) as (r' & E3 & E4).
  unfold header_at. rewrite E1, E3. cut (Some r = Some r'); [by intros [= ->]|]. rewrite <-E2, <-E4. f_equal.
  unfold b. rewrite skipn_firstn_comm, take_take, drop_drop.
  replace (Z.to_nat start + Z.to_nat i)%nat with (Z.to_nat (start + i)) by lia. f_equal.
  unfold b, len in Hb. rewrite length_take, length_drop in Hb. lia.
Qed.

Lemma find_header_spec n b k want :
  0 ≤ k → ∃ res, find_header im n b k want = Some res ∧
    match res with
    | Some (k', f) => k ≤ k' < k + Z.of_nat n ∧ header_at b k' = Some f ∧ f_sample f = want ∧
        ∀ j g, k ≤ j < k' → header_at b j = Some g → f_sample g ≠ want
    | None => ∀ j g, k ≤ j < k + Z.of_nat n → header_at b j = Some g → f_sample g ≠ want
    end.
Proof.
  revert k. induction n as [|n IH]; intros k Hk; simpl; [eexists; split; [done|]; simpl; lia|].
  rewrite parse_total by done. simpl.
  assert (Hgo : (∀ g, header_at b k = Some g → f_sample g ≠ want) →
    ∃ res, find_header im n b (k + 1) want = Some res ∧
    match res with
    | Some (k', f) => k ≤ k' < k + Z.of_nat (S n) ∧ header_at b k' = Some f ∧ f_sample f = want ∧
        ∀ j g, k ≤ j < k' → header_at b j = Some g → f_sample g ≠ want
    | None => ∀ j g, k ≤ j < k + Z.of_nat (S n) → header_at b j = Some g → f_sample g ≠ want
    end).
  { intros Hno. destruct (IH (k + 1) ltac:(lia)) as (res & -> & Hres). exists res. split; [done|].
    destruct res as [[k' f]|].
    - destruct Hres as (H1 & H2 & H3 & H4). split_and!; try done; try lia. intros j g Hj.
      destruct (decide (j = k)) as [->|]; [apply Hno|apply H4; lia].
    - intros j g Hj. destruct (decide (j = k)) as [->|]; [apply Hno|apply Hres; lia]. }
  destruct (header_at b k) as [f|] eqn:E.
  - destruct (Z.eqb_spec (f_sample f) want) as [Ew|Ew].
    + eexists. split; [done|]. split_and!; try done; lia.
    + apply Hgo. by intros g [= <-].
  - by apply Hgo.
Qed.

Lemma successor_spec b i f :
  0 ≤ i → ∃ res, successor im b i f = Some res ∧
    match res with
    | Some (k, g) => i + 16 ≤ k ∧ k < Z.min (len b - 16) (i + maxFrameScan) ∧ header_at b k = Some g ∧
        f_sample g = f_sample f +! f_block f ∧
        ∀ j h, i + 16 ≤ j < k → header_at b j = Some h → f_sample h ≠ f_sample f +! f_block f
    | None => ∀ j h, i + 16 ≤ j < Z.min (len b - 16) (i + maxFrameScan) → header_at b j = Some h →
        f_sample h ≠ f_sample f +! f_block f
    end.
Proof.
  intros Hi. unfold successor. set (stop := Z.min _ _).
  destruct (find_header_spec (Z.to_nat (stop - (i + 16))) b (i + 16) (f_sample f +! f_block f) ltac:(lia))
    as (res & -> & Hres). exists res. split; [done|].
  destruct res as [[k g]|].
  - destruct Hres as (H1 & H2 & H3 & H4). split_and!; try done; lia.
  - intros j h Hj. apply Hres. lia.
Qed.

Lemma confirmed_total b i f : 0 ≤ i → ∃ ok, confirmed im b i f = Some ok.
Proof.
  intros Hi. unfold confirmed. destruct (_ >=? _); [by eexists|].
  destruct (successor_spec b i f Hi) as (r & -> & _). by eexists.
Qed.

Lemma scan_total n b i sample anchor : 0 ≤ i → ∃ res, scan im n b i sample anchor = Some res.
Proof.
  revert i anchor. induction n as [|n IH]; intros i anchor Hi; simpl; [by eexists|].
  rewrite parse_total by done. simpl. destruct (header_at b i) as [f|]; [|apply IH; lia].
  destruct (confirmed_total b i f Hi) as [ok ->]. simpl. destruct (negb ok); [apply IH; lia|].
  destruct (f_sample f <? sample); [apply IH; lia|by eexists].
Qed.

(** Every frame of the window the scan reports was confirmed there. *)
Lemma scan_confirmed n b i sample anchor a g :
  0 ≤ i → scan im n b i sample anchor = Some (a, g) →
  (a = anchor ∨ ∃ o f, a = Some (o, f) ∧ i ≤ o < i + Z.of_nat n ∧ header_at b o = Some f ∧
     confirmed im b o f = Some true ∧ f_sample f < sample) ∧
  (∀ o f, g = Some (o, f) → i ≤ o < i + Z.of_nat n ∧ header_at b o = Some f ∧ confirmed im b o f = Some true ∧
     sample ≤ f_sample f).
Proof.
  revert i anchor. induction n as [|n IH]; intros i anchor Hi; simpl; [intros [= -> <-]; by split; [left|]|].
  rewrite parse_total by done. simpl.
  assert (Hgo : ∀ anchor', scan im n b (i + 1) sample anchor' = Some (a, g) →
    (a = anchor' ∨ ∃ o f, a = Some (o, f) ∧ i ≤ o < i + Z.of_nat (S n) ∧ header_at b o = Some f ∧
       confirmed im b o f = Some true ∧ f_sample f < sample) ∧
    (∀ o f, g = Some (o, f) → i ≤ o < i + Z.of_nat (S n) ∧ header_at b o = Some f ∧ confirmed im b o f = Some true ∧
       sample ≤ f_sample f)).
  { intros anchor' E. destruct (IH (i + 1) anchor' ltac:(lia) E) as [H1 H2]. split.
    - destruct H1 as [->|(o & f & H3 & H4 & H5)]; [by left|]. right. exists o, f. split_and!; try done; lia || apply H5.
    - intros o f Eg. destruct (H2 o f Eg) as (H3 & H4). split; [lia|done]. }
  destruct (header_at b i) as [f|] eqn:Eh; [|apply Hgo].
  destruct (confirmed im b i f) as [ok|] eqn:Ec; [|done]. simpl. destruct ok; simpl; [|apply Hgo].
  destruct (Z.ltb_spec (f_sample f) sample) as [Hs|Hs].
  - intros E. destruct (Hgo _ E) as [H1 H2]. split; [|done]. right. destruct H1 as [->|H1]; [|done].
    exists i, f. split_and!; done || lia.
  - intros [= <- <-]. split; [by left|]. intros o f' [= <- <-]. split_and!; done || lia.
Qed.

(** Once there is an anchor, there is one at the end. *)
Lemma scan_keeps n b i sample x a g : scan im n b i sample (Some x) = Some (a, g) → is_Some a.
Proof.
  revert i x. induction n as [|n IH]; intros i x; simpl; [intros [= <- <-]; by eexists|].
  destruct (parseFrame im b i) as [[f|]|]; simpl; [|apply IH|done].
  destruct (confirmed im b i f) as [[|]|]; simpl; [|apply IH|done].
  destruct (f_sample f <? sample); [apply IH|]. intros [= <- <-]. by eexists.
Qed.

Lemma follow_chain_total fuel b start sample off f :
  0 ≤ off → off < len b → len b - off ≤ Z.of_nat fuel → ∃ res, follow_chain im fuel b start sample off f = Some res.
Proof.
  revert off f. induction fuel as [|fuel IH]; intros off f Ho Hl Hf; [lia|]. simpl.
  destruct (_ >=? _); [by eexists|]. destruct (successor_spec b off f Ho) as (r & -> & Hr). simpl.
  destruct r as [[k g]|]; [|by eexists]. destruct (_ >=? _); [by eexists|]. destruct Hr as (H1 & H2 & _). apply IH; lia.
Qed.

Context `{GoRuntime}.

Lemma probe_total b start sample lo hi : ∃ res, probe im b start sample lo hi = Some res.
Proof.
  unfold probe. destruct (scan_total (Z.to_nat (len b - 16)) b 0 sample None ltac:(lia)) as [[a g] E]. rewrite E. simpl.
  destruct (scan_confirmed _ _ _ _ _ _ _ (Z.le_refl 0) E) as [Ha _].
  destruct a as [[o f]|].
  - destruct Ha as [?|(o' & f' & [= <- <-] & Ho & _)]; [done|].
    destruct (follow_chain_total (length b) b start sample o f ltac:(lia) ltac:(lia) ltac:(unfold len; lia)) as [res ->].
    simpl. destruct res; by eexists.
  - destruct g as [[o f]|]; [|by eexists]. destruct (_ =? _); by eexists.
Qed.

Lemma probes_total r n sample lo hi est : ∃ res, probes im r n sample lo hi est = Some res.
Proof.
  revert lo hi est. induction n as [|n IH]; intros lo hi est; simpl; [by eexists|].
  destruct (r (probe_start im est) window) as [b err]. destruct (bool_decide _); [by eexists|].
  destruct (probe_total b (probe_start im est) sample lo hi) as [p ->]. simpl.
  destruct p as [p|[[lo' hi'] est']]; [by eexists|]. apply IH.
Qed.

Lemma Boundary_total r sample : ∃ res, Boundary im r sample = Some res.
Proof. unfold Boundary. destruct (_ <=? _); [by eexists|]. destruct (_ >=? _); [by eexists|]. apply probes_total. Qed.
End total.

Lemma opened_total im : opened im → 0 ≤ TotalSamples (Info im) < 2 ^ 36.
Proof.
  intros Ho. rewrite (op_info im Ho). simpl. apply (land_low _ 36); [|lia].
  apply (be_uint_range (take 8 (drop 10 (Raw (Info im))))).
Qed.

(** An answer is a 64-bit offset. *)
Lemma Boundary_range im `{GoRuntime} r s o t :
  in_i64 (AudioStart im) → in_i64 (Size im) → Boundary im r s = Some (inr (o, t)) → in_i64 o.
Proof.
  intros Ha Hs. unfold Boundary. destruct (_ <=? _); [by intros [= <- <-]|]. destruct (_ >=? _); [by intros [= <- <-]|].
  assert (Hc : ∀ fuel b start off f o' t', follow_chain im fuel b start s off f = Some (AtTarget o' t') → in_i64 o').
  { induction fuel as [|fuel IH]; intros b start off f o' t'; simpl; [done|]. destruct (_ >=? _); [done|].
    destruct (successor im b off f) as [[[k g]|]|]; simpl; [|done|done]. destruct (_ >=? _); [|apply IH].
    intros [= <- <-]. apply i64_range. }
  assert (Hp : ∀ b start lo hi o' t', probe im b start s lo hi = Some (inl (o', t')) → in_i64 o').
  { intros b start lo hi o' t'. unfold probe. destruct (scan _ _ _ _ _ _) as [[[[off f]|] g]|]; simpl; [| |done].
    - destruct (follow_chain _ _ _ _ _ _ _) as [c|] eqn:E; simpl; [|done].
      destruct c; [by intros [= <- <-]|intros [= <- <-]; by eapply Hc|done].
    - destruct g as [[off f]|]; [|done]. destruct (_ =? _); [|done]. intros [= <- <-]. apply i64_range. }
  generalize (AudioStart im +! estimate im s) as est, (Size im) at 1 as hi, (AudioStart im) at 1 as lo.
  induction maxProbes as [|n IH]; intros est hi lo; simpl; [done|].
  destruct (r (probe_start im est) window) as [b err]. destruct (bool_decide _); [done|].
  destruct (probe im b (probe_start im est) s lo hi) as [[[o' t']|[[lo' hi'] est']]|] eqn:E; simpl; [|apply IH|done].
  intros [= -> ->]. by eapply Hp.
Qed.

(** ** Boundaries are exact *)

Section exact.
Context (im : Image).
Local Abbreviation Total := (TotalSamples (Info im)).

Definition consecutive {A} (l : list A) (x y : A) : Prop := ∃ l1 l2, l = l1 ++ x :: y :: l2.

(** An image: its frames, each with a header, of ordinary lengths and numbered
    without a gap, and no run of bytes that passes for a chain of frames.  A run that
    looks like a header may be there, as long as it neither carries the number of the
    next frame nor is followed by its own successor. *)
Record image_ok (content : list Byte.byte) (fs : list (Z * frame)) : Prop := {
  io_size : Size im = len content;
  io_small : len content < 2 ^ 60;
  io_total : Total < 2 ^ 60;
  io_start : 0 ≤ AudioStart im;
  io_first : ∃ f rest, fs = (AudioStart im, f) :: rest ∧ f_sample f = 0;
  io_header : ∀ o f, (o, f) ∈ fs → header_at im content o = Some f ∧ 0 < f_block f;
  io_next : ∀ x y, consecutive fs x y → f_sample y.2 = f_sample x.2 + f_block x.2 ∧ 16 < y.1 - x.1 < maxFrameScan;
  io_last : ∀ l x, fs = l ++ [x] → f_sample x.2 + f_block x.2 = Total ∧ 16 < Size im - x.1;
  io_decoy : ∀ o d, AudioStart im ≤ o → header_at im content o = Some d → (o, d) ∉ fs →
    f_sample d +! f_block d < Total ∧
    (∀ o' d', o + 16 ≤ o' < o + maxFrameScan → header_at im content o' = Some d' →
       f_sample d' ≠ f_sample d +! f_block d) ∧
    (∀ x y, consecutive fs x y → x.1 < o < y.1 → f_sample d ≠ f_sample y.2)
}.

(** The first frame at or after a sample, or the end. *)
Definition boundary_of (fs : list (Z * frame)) (sample : Z) : Z * Z :=
  match head (filter (λ x : Z * frame, sample ≤ f_sample x.2) fs) with
  | Some (o, f) => (o, f_sample f)
  | None => (Size im, Total)
  end.

Context (content : list Byte.byte) (fs : list (Z * frame)) (Hok : image_ok content fs).

Definition before (x y : Z * frame) : Prop := x.1 < y.1 ∧ f_sample x.2 < f_sample y.2.

Lemma sorted_of_consecutive {A} (R : A → A → Prop) l :
  (∀ x y, consecutive l x y → R x y) → Sorted R l.
Proof.
  induction l as [|x l IH]; intros Hc; [constructor|]. constructor.
  - apply IH. intros a b (l1 & l2 & ->). apply Hc. by exists (x :: l1), l2.
  - destruct l as [|y l]; constructor. apply Hc. by exists [], l.
Qed.

Lemma frames_sorted : StronglySorted before fs.
Proof.
  apply Sorted_StronglySorted; [intros x y z [] []; split; lia|]. apply sorted_of_consecutive. intros x y Hc.
  destruct (io_next _ _ Hok x y Hc) as [Hs Ho].
  assert (Hx : x ∈ fs) by (destruct Hc as (l1 & l2 & ->); apply elem_of_app; right; left).
  destruct x as [o f]. destruct (io_header _ _ Hok o f Hx). split; simpl in *; lia.
Qed.

Lemma sorted_split l1 x l2 :
  fs = l1 ++ x :: l2 → (∀ y, y ∈ l1 → before y x) ∧ (∀ y, y ∈ l2 → before x y).
Proof.
  intros E. pose proof frames_sorted as Hs. rewrite E in Hs. clear E.
  induction l1 as [|z l1 IH]; simpl in Hs; apply StronglySorted_inv in Hs as [Hs Hf].
  - split; [by intros y Hy%elem_of_nil|]. intros y Hy. rewrite list.Forall_forall in Hf. by apply Hf.
  - destruct (IH Hs) as [H1 H2]. split; [|done]. intros y [->|Hy]%elem_of_cons; [|by apply H1].
    rewrite list.Forall_forall in Hf. apply Hf, elem_of_app. right. left.
Qed.

(** Every frame has a successor or is the last. *)
Lemma next_or_last x : x ∈ fs → (∃ y, consecutive fs x y) ∨ ∃ l, fs = l ++ [x].
Proof.
  intros (l1 & l2 & E)%list_elem_of_split. destruct l2 as [|y l2]; [right; by exists l1|left; by exists y, l1, l2].
Qed.

Lemma frame_range x :
  x ∈ fs → AudioStart im ≤ x.1 ∧ x.1 + 16 < Size im ∧ 0 ≤ f_sample x.2 < Total ∧
    f_sample x.2 + f_block x.2 ≤ Total ∧ 0 < f_block x.2.
Proof.
  intros Hx. destruct (io_first _ _ Hok) as (f0 & rest & E0 & H0).
  assert (Hlow : AudioStart im ≤ x.1 ∧ 0 ≤ f_sample x.2).
  { rewrite E0 in Hx. apply elem_of_cons in Hx as [->|Hx]; [simpl; lia|].
    destruct (sorted_split [] _ rest E0) as [_ Hs]. destruct (Hs x Hx). simpl in *. lia. }
  assert (Hlast : ∃ l z, fs = l ++ [z] ∧ (z = x ∨ before x z)).
  { destruct (exists_last (l := fs)) as (l & a & El); [by rewrite E0|]. exists l, a. split; [done|].
    rewrite El in Hx. apply elem_of_app in Hx as [Hx|Hx%list_elem_of_singleton]; [right|by left].
    destruct (sorted_split l a [] El) as [Hs _]. by apply Hs. }
  destruct Hlast as (l & z & El & Hz). destruct (io_last _ _ Hok l z El) as [Hz1 Hz2].
  assert (Hzin : z ∈ fs) by (rewrite El; apply elem_of_app; right; left). destruct z as [oz fz].
  destruct (io_header _ _ Hok oz fz Hzin) as [_ Hbz]. simpl in *.
  assert (Hxb : 0 < f_block x.2) by (destruct x as [o f]; apply (io_header _ _ Hok o f Hx)).
  destruct Hz as [<-|[Hz3 Hz4]]; simpl in *; [lia|].
  split_and!; try lia. destruct (next_or_last x Hx) as [[y Hy]|[l' El']].
  - destruct (io_next _ _ Hok x y Hy) as [<- _]. destruct Hy as (l1 & l2 & Ey).
    assert (Hy' : y = (oz, fz) ∨ before y (oz, fz)).
    { rewrite El in Ey. destruct l2 as [|w l2 _] using rev_ind.
      - replace (l1 ++ [x; y]) with ((l1 ++ [x]) ++ [y]) in Ey by (by rewrite <-app_assoc).
        apply app_inj_2 in Ey as [_ [= ->]]; [by left|done].
      - replace (l1 ++ x :: y :: l2 ++ [w]) with ((l1 ++ x :: y :: l2) ++ [w]) in Ey by (by rewrite <-app_assoc).
        apply app_inj_2 in Ey as [-> [= <-]]; [|done]. right. destruct (sorted_split _ _ _ El) as [Hs _].
        apply Hs, elem_of_app. right. right. left. }
    destruct Hy' as [->|[_ Hy']]; simpl in *; lia.
  - rewrite El in El'. apply app_inj_2 in El' as [_ [= <-]]; [|done]. simpl in *. lia.
Qed.

Lemma none_between x y z : consecutive fs x y → z ∈ fs → ¬ (x.1 < z.1 < y.1).
Proof.
  intros (l1 & l2 & E) Hz [H1 H2]. destruct (sorted_split l1 x (y :: l2) E) as [Hb _].
  destruct (sorted_split (l1 ++ [x]) y l2) as [_ Ha]; [by rewrite <-app_assoc|].
  rewrite E in Hz. apply elem_of_app in Hz as [Hz|[->|[->|Hz]%elem_of_cons]%elem_of_cons]; [|lia|lia|].
  - destruct (Hb z Hz). lia.
  - destruct (Ha z Hz). lia.
Qed.

Lemma filter_none (P : Z * frame → Prop) `{!∀ x, Decision (P x)} l : (∀ x, x ∈ l → ¬ P x) → filter P l = [].
Proof.
  intros Hl. induction l as [|x l IH]; [done|]. rewrite filter_cons_False by (apply Hl; left). apply IH.
  intros y Hy. apply Hl. by right.
Qed.

Lemma boundary_next x y s : consecutive fs x y → f_sample x.2 < s ≤ f_sample y.2 → boundary_of fs s = (y.1, f_sample y.2).
Proof.
  intros (l1 & l2 & E) Hs. unfold boundary_of. destruct (sorted_split l1 x (y :: l2) E) as [Hb _].
  rewrite E. rewrite list.filter_app, filter_cons_False by lia. rewrite filter_cons_True by lia.
  rewrite (filter_none _ l1); [by destruct y|]. intros z Hz. destruct (Hb z Hz). lia.
Qed.

Lemma boundary_none s : (∀ x, x ∈ fs → f_sample x.2 < s) → boundary_of fs s = (Size im, Total).
Proof.
  intros Hs. unfold boundary_of. rewrite (filter_none _ fs); [done|]. intros z Hz. specialize (Hs z Hz). lia.
Qed.

(** *** In a window *)

Section in_window.
Context (start : Z) (n : nat).
Let b := take n (drop (Z.to_nat start) content).
Context (Hstart : AudioStart im ≤ start).

Lemma start_nonneg : 0 ≤ start.
Proof. pose proof (io_start _ _ Hok). lia. Qed.

Lemma window_header i f : 0 ≤ i → i + 16 ≤ len b → header_at im b i = Some f ↔ header_at im content (start + i) = Some f.
Proof. intros Hi Hl. unfold b. rewrite header_window; [done|apply start_nonneg|done|done]. Qed.

Lemma real_successor x y :
  consecutive fs x y → start ≤ x.1 →
  successor im b (x.1 - start) x.2 =
    Some (if y.1 - start <? len b - 16 then Some (y.1 - start, y.2) else None).
Proof.
  intros Hc Hx. destruct (io_next _ _ Hok x y Hc) as [Hsam Hgap].
  assert (Hxin : x ∈ fs) by (destruct Hc as (l1 & l2 & ->); apply elem_of_app; right; left).
  assert (Hyin : y ∈ fs) by (destruct Hc as (l1 & l2 & ->); apply elem_of_app; right; right; left).
  destruct (frame_range x Hxin) as (_ & _ & Hx1 & Hx2). pose proof (io_total _ _ Hok).
  assert (Hyh : header_at im content y.1 = Some y.2) by (destruct y; apply (io_header _ _ Hok); done).
  destruct (successor_spec im b (x.1 - start) x.2 ltac:(lia)) as (res & -> & Hres). f_equal.
  rewrite (i64_id (f_sample x.2 + f_block x.2)), <-Hsam in Hres by (unfold in_i64; lia).
  destruct res as [[k g]|].
  - destruct Hres as (H1 & H2 & H3 & H4 & H5). rewrite (window_header k g) in H3 by lia.
    assert (Ek : start + k = y.1).
    { destruct (Z.lt_trichotomy (start + k) y.1) as [Hlt|[?|Hgt]]; [exfalso|done|exfalso].
      - destruct (io_decoy _ _ Hok (start + k) g) as (_ & _ & Hd); [lia|done| |].
        + intros Hin. apply (none_between x y (start + k, g) Hc Hin). simpl. lia.
        + apply (Hd x y Hc); [lia|done].
      - apply (H5 (y.1 - start) y.2); [lia| |done]. apply window_header; [lia|lia|].
        by replace (start + (y.1 - start)) with y.1 by lia. }
    rewrite Ek, Hyh in H3. injection H3 as ->. rewrite (proj2 (Z.ltb_lt (y.1 - start) _)) by lia. do 2 f_equal. lia.
  - destruct (Z.ltb_spec (y.1 - start) (len b - 16)) as [Hlt|]; [exfalso|done].
    apply (Hres (y.1 - start) y.2); [lia| |done]. apply window_header; [lia|lia|].
    by replace (start + (y.1 - start)) with y.1 by lia.
Qed.

(** Only frames are confirmed. *)
Lemma confirmed_real i f :
  0 ≤ i → i + 16 ≤ len b → header_at im b i = Some f → confirmed im b i f = Some true → (start + i, f) ∈ fs.
Proof.
  intros Hi Hl Hh Hc. rewrite window_header in Hh by done.
  destruct (decide ((start + i, f) ∈ fs)) as [|Hn]; [done|exfalso].
  destruct (io_decoy _ _ Hok (start + i) f ltac:(lia) Hh Hn) as (H1 & H2 & _). unfold confirmed in Hc.
  rewrite Z.geb_leb, (proj2 (Z.leb_gt Total _)) in Hc by done.
  destruct (successor_spec im b i f Hi) as (res & E & Hres). rewrite E in Hc. simpl in Hc.
  destruct res as [[k g]|]; [|by rewrite bool_decide_eq_false_2 in Hc by (by intros [])].
  destruct Hres as (H3 & H4 & H5 & H6 & _). rewrite window_header in H5 by lia.
  apply (H2 (start + k) g); [lia|done|done].
Qed.

(** The chain from a frame before the target leads to the boundary. *)
Lemma follow_chain_exact fuel s off f res :
  0 ≤ off → (start + off, f) ∈ fs → f_sample f < s → follow_chain im fuel b start s off f = Some res →
  match res with
  | AtEnd => boundary_of fs s = (Size im, Total)
  | AtTarget o t => boundary_of fs s = (o, t)
  | Left _ _ => True
  end.
Proof.
  revert off f. induction fuel as [|fuel IH]; intros off f Hoff Hin Hs; [done|]. simpl.
  destruct (frame_range _ Hin) as (Hf1 & Hf2 & Hf3 & Hf4). simpl in *. pose proof (io_total _ _ Hok).
  pose proof (io_small _ _ Hok). pose proof (io_size _ _ Hok). pose proof start_nonneg.
  rewrite (i64_id (f_sample f + f_block f)) by (unfold in_i64; lia). rewrite Z.geb_leb.
  destruct (next_or_last _ Hin) as [[y Hy]|[l El]].
  - destruct (io_next _ _ Hok _ y Hy) as [Hsam Hgap]. simpl in *.
    assert (Hyin : y ∈ fs) by (destruct Hy as (l1 & l2 & ->); apply elem_of_app; right; right; left).
    destruct (frame_range y Hyin) as (_ & Hy2 & Hy3 & _). rewrite (proj2 (Z.leb_gt Total _)) by lia.
    pose proof (real_successor _ y Hy) as Hn. simpl in Hn. replace (start + off - start) with off in Hn by lia.
    rewrite Hn by lia. simpl. destruct (y.1 - start <? len b - 16); [|by intros [= <-]].
    rewrite Z.geb_leb. destruct (Z.leb_spec s (f_sample y.2)) as [Hle|Hle].
    + intros [= <-]. rewrite (boundary_next _ y s Hy) by (simpl; lia). f_equal.
      rewrite i64_id by (unfold in_i64; lia). lia.
    + apply IH; [lia| |lia]. replace (start + (y.1 - start)) with y.1 by lia. by destruct y.
  - destruct (io_last _ _ Hok l _ El) as [Hl _]. simpl in Hl. rewrite (proj2 (Z.leb_le Total _)) by lia. intros [= <-].
    apply boundary_none. intros z Hz. destruct (sorted_split l _ [] El) as [Hb _].
    rewrite El in Hz. apply elem_of_app in Hz as [Hz|Hz%list_elem_of_singleton]; [|by subst].
    destruct (Hb z Hz). simpl in *. lia.
Qed.
End in_window.

(** At the start of the audio the first frame is always confirmed. *)
Lemma first_confirmed n f rest :
  fs = (AudioStart im, f) :: rest → maxFrameScan + 16 ≤ Z.of_nat n →
  confirmed im (take n (drop (Z.to_nat (AudioStart im)) content)) 0 f = Some true ∧
  header_at im (take n (drop (Z.to_nat (AudioStart im)) content)) 0 = Some f ∧
  16 < len (take n (drop (Z.to_nat (AudioStart im)) content)).
Proof.
  intros E Hn. pose proof (io_start _ _ Hok) as Hs0. pose proof (io_size _ _ Hok) as Hsz.
  assert (Hin : (AudioStart im, f) ∈ fs) by (rewrite E; left).
  destruct (frame_range _ Hin) as (_ & Hf2 & Hf3 & Hf4). simpl in *.
  set (b := take n (drop (Z.to_nat (AudioStart im)) content)).
  assert (Hlen : len b = Z.min (Z.of_nat n) (Size im - AudioStart im)).
  { unfold b, len. rewrite length_take, length_drop. unfold len in Hsz. lia. }
  assert (Hms : maxFrameScan = 131072) by done. assert (Hl16 : 16 < len b) by lia.
  assert (Hh : header_at im b 0 = Some f).
  { apply (window_header (AudioStart im) n); try lia; [exact Hl16 || (fold b; lia)|]. rewrite Z.add_0_r.
    by apply (io_header _ _ Hok). }
  split; [|done]. unfold confirmed. pose proof (io_total _ _ Hok).
  rewrite (i64_id (f_sample f + f_block f)) by (unfold in_i64; lia). rewrite Z.geb_leb.
  destruct (Z.leb_spec Total (f_sample f + f_block f)) as [|Hlt]; [done|].
  destruct (next_or_last _ Hin) as [[y Hy]|[l El]]; [|destruct (io_last _ _ Hok l _ El) as [Hl _]; simpl in Hl; lia].
  destruct (io_next _ _ Hok _ y Hy) as [_ Hgap]. simpl in *.
  assert (Hyin : y ∈ fs) by (destruct Hy as (l1 & l2 & ->); apply elem_of_app; right; right; left).
  destruct (frame_range y Hyin) as (_ & Hy2 & _).
  pose proof (real_successor (AudioStart im) n ltac:(lia) _ y Hy ltac:(simpl; lia)) as Hr. simpl in Hr.
  rewrite Z.sub_diag in Hr. fold b in Hr. rewrite Hr. rewrite (proj2 (Z.ltb_lt _ _)) by lia. done.
Qed.

Lemma probe_start_low est : AudioStart im ≤ probe_start im est.
Proof.
  unfold probe_start. cbv zeta.
  match goal with |- _ ≤ (if ?x <? ?y then _ else _) => destruct (Z.ltb_spec x y); lia end.
Qed.

Context `{GoRuntime}.

Lemma probe_exact n start s lo hi o t :
  AudioStart im ≤ start → 0 < s → maxFrameScan + 16 ≤ Z.of_nat n →
  probe im (take n (drop (Z.to_nat start) content)) start s lo hi = Some (inl (o, t)) →
  boundary_of fs s = (o, t).
Proof.
  intros Hst Hs Hn. set (b := take n (drop (Z.to_nat start) content)). unfold probe.
  destruct (scan im (Z.to_nat (len b - 16)) b 0 s None) as [[a g]|] eqn:E; [|done]. simpl.
  destruct (scan_confirmed im _ _ _ _ _ _ _ (Z.le_refl 0) E) as [Ha _].
  destruct a as [[off f]|].
  - destruct Ha as [?|(off' & f' & [= <- <-] & Ho & Hh & Hc & Hfs)]; [done|].
    pose proof (confirmed_real start n Hst off f ltac:(lia) ltac:(fold b; lia) Hh Hc) as Hin.
    destruct (follow_chain im (length b) b start s off f) as [res|] eqn:Ef; [|done]. simpl.
    pose proof (follow_chain_exact start n Hst _ s off f res ltac:(lia) Hin Hfs Ef) as Hr.
    destruct res; [intros [= <- <-]; done|intros [= <- <-]; done|done].
  - destruct g as [[off f]|]; [|done]. destruct (Z.eqb_spec start (AudioStart im)) as [->|]; [|done]. exfalso.
    destruct (io_first _ _ Hok) as (f0 & rest & E0 & H0).
    destruct (first_confirmed n f0 rest E0 Hn) as (Hc & Hh & Hl). fold b in Hc, Hh, Hl.
    assert (Hm : Z.to_nat (len b - 16) = S (Z.to_nat (len b - 16) - 1)) by lia. rewrite Hm in E. simpl in E.
    rewrite parse_total in E by done. rewrite Hh in E. simpl in E. rewrite Hc in E. simpl in E.
    rewrite H0, (proj2 (Z.ltb_lt 0 s)) in E by done. apply scan_keeps in E as [? ?]. done.
Qed.

Lemma probes_exact r n s lo hi est o t :
  faithful r content → 0 < s → probes im r n s lo hi est = Some (inr (o, t)) → boundary_of fs s = (o, t).
Proof.
  intros Hf Hs. revert lo hi est. induction n as [|n IH]; intros lo hi est; simpl; [done|].
  pose proof (probe_start_low est) as Hlow. pose proof (io_start _ _ Hok).
  pose proof (Hf (probe_start im est) window ltac:(lia) ltac:(done)) as Hr.
  destruct (r (probe_start im est) window) as [b err]. simpl in Hr.
  destruct (bool_decide_reflect (err = RFail)) as [|Hne]; [done|]. destruct (Hr Hne) as [-> _].
  destruct (probe im _ _ s lo hi) as [[[o' t']|[[lo' hi'] est']]|] eqn:Ep; simpl; [|apply IH|done].
  intros [= -> ->]. eapply probe_exact; [| | |exact Ep]; [done|done|]. rewrite Z2Nat.id; by vm_compute.
Qed.

(** The answer of a search, when there is one. *)
Lemma Boundary_right r sample :
  faithful r content →
  ∃ res, Boundary im r sample = Some res ∧
    match res with inr (off, at_) => boundary_of fs sample = (off, at_) | inl _ => True end.
Proof.
  intros Hf. destruct (Boundary_total im r sample) as [res E]. exists res. split; [done|].
  destruct res as [|[o t]]; [done|]. unfold Boundary in E. rewrite Z.geb_leb in E.
  destruct (Z.leb_spec sample 0) as [Hle|Hgt].
  - injection E as <- <-. destruct (io_first _ _ Hok) as (f0 & rest & E0 & H0). unfold boundary_of. rewrite E0.
    rewrite filter_cons_True by (simpl; lia). simpl. by rewrite H0.
  - destruct (Z.leb_spec Total sample) as [Hle|Hlt]; [|by eapply probes_exact].
    injection E as <- <-. apply boundary_none. intros x Hx. destruct (frame_range x Hx) as (_ & _ & ? & _). lia.
Qed.


(** *** What lies between two boundaries *)

Definition starts_at (l : list (Z * frame)) : Z * Z :=
  match l with x :: _ => (x.1, f_sample x.2) | [] => (Size im, Total) end.

Lemma boundary_split s :
  ∃ l1 l2, fs = l1 ++ l2 ∧ boundary_of fs s = starts_at l2 ∧
    (∀ x, x ∈ l1 → f_sample x.2 < s) ∧ (∀ x, x ∈ l2 → s ≤ f_sample x.2).
Proof.
  pose proof frames_sorted as Hs. unfold boundary_of. clear Hok.
  induction Hs as [|x l Hs IH Hf]; [exists [], []; split_and!; try done; by intros x Hx%elem_of_nil|].
  destruct (decide (s ≤ f_sample x.2)) as [Hle|Hgt].
  - exists [], (x :: l). rewrite filter_cons_True by done. split_and!; [done|by destruct x|by intros y Hy%elem_of_nil|].
    intros y [->|Hy]%elem_of_cons; [done|]. rewrite list.Forall_forall in Hf. destruct (Hf y Hy). lia.
  - destruct IH as (l1 & l2 & -> & E & H1 & H2). exists (x :: l1), l2. rewrite filter_cons_False by done.
    split_and!; [done|done| |done]. intros y [->|Hy]%elem_of_cons; [lia|by apply H1].
Qed.

(** The samples of the frames between two places of the list. *)
Lemma samples_between l1 m l2 :
  fs = l1 ++ m ++ l2 → sumZ (λ x, f_block x.2) m = (starts_at l2).2 - (starts_at (m ++ l2)).2.
Proof.
  revert l1. induction m as [|x m IH]; intros l1 E; simpl; [lia|].
  assert (E' : fs = (l1 ++ [x]) ++ m ++ l2) by (by rewrite <-app_assoc).
  pose proof (IH _ E') as Hi. rewrite Hi.
  assert (Hn : (starts_at (m ++ l2)).2 = f_sample x.2 + f_block x.2).
  { destruct (m ++ l2) as [|y t] eqn:Em; simpl.
    - destruct (io_last _ _ Hok (l1) x) as [<- _]; [|done]. by rewrite E', app_nil_r.
    - destruct (io_next _ _ Hok x y) as [<- _]; [|done]. exists l1, t. rewrite E. by rewrite <-app_comm_cons, Em. }
  lia.
Qed.

(** Between the boundaries of two samples there are whole frames. *)
Lemma frames_between s1 s2 :
  s1 ≤ s2 → ∃ l1 m l2, fs = l1 ++ m ++ l2 ∧ boundary_of fs s1 = starts_at (m ++ l2) ∧ boundary_of fs s2 = starts_at l2 ∧
    sumZ (λ x, f_block x.2) m = (boundary_of fs s2).2 - (boundary_of fs s1).2.
Proof.
  intros Hle. destruct (boundary_split s1) as (a1 & a2 & Ea & Ba & Ha1 & Ha2), (boundary_split s2) as (b1 & b2 & Eb & Bb & Hb1 & Hb2).
  assert (Hm : ∃ m, b1 = a1 ++ m ∧ a2 = m ++ b2).
  { rewrite Ea in Eb. apply app_eq_app in Eb as (l & [[-> ->]|[-> ->]]); [|by exists l].
    destruct l as [|x l]; [exists []; by rewrite !app_nil_r|]. exfalso.
    assert (H1 : f_sample x.2 < s1) by (apply Ha1, elem_of_app; right; left).
    assert (H2 : s2 ≤ f_sample x.2) by (apply Hb2; left). lia. }
  destruct Hm as (m & -> & ->). exists a1, m, b2. split_and!; [done|done|done|].
  rewrite Ba, Bb. by apply (samples_between a1).
Qed.

Lemma starts_at_range l1 l2 : fs = l1 ++ l2 → AudioStart im ≤ (starts_at l2).1 ≤ Size im ∧ 0 ≤ (starts_at l2).2 ≤ Total.
Proof.
  intros E. destruct l2 as [|x l2]; simpl.
  - destruct (io_first _ _ Hok) as (f0 & rest & E0 & _). assert (Hin : (AudioStart im, f0) ∈ fs) by (rewrite E0; left).
    destruct (frame_range _ Hin) as (? & ? & ? & _). simpl in *. lia.
  - assert (Hin : x ∈ fs) by (rewrite E; apply elem_of_app; right; left).
    destruct (frame_range _ Hin) as (? & ? & ? & _). lia.
Qed.
End exact.

(** ** Numbers and headers, written and read back *)

(** The extended UTF-8 of the format. *)
Fixpoint enc_tail (n : nat) (v : Z) : list Byte.byte :=
  match n with O => [] | S n => to_byte (128 + (v / 64 ^ Z.of_nat n) mod 64) :: enc_tail n v end.
Definition enc_with (prefix : Z) (n : nat) (v : Z) : list Byte.byte :=
  to_byte (prefix + v / 64 ^ Z.of_nat n) :: enc_tail n v.
Definition encode_number (v : Z) : list Byte.byte :=
  if v <? 2 ^ 7 then [to_byte v]
  else if v <? 2 ^ 11 then enc_with 192 1 v
  else if v <? 2 ^ 16 then enc_with 224 2 v
  else if v <? 2 ^ 21 then enc_with 240 3 v
  else if v <? 2 ^ 26 then enc_with 248 4 v
  else if v <? 2 ^ 31 then enc_with 252 5 v
  else enc_with 254 6 v.

Lemma enc_tail_length n v : length (enc_tail n v) = n.
Proof. induction n; simpl; auto. Qed.

Lemma utf8_tail_enc n v w rest :
  0 ≤ v → 0 ≤ w → utf8_tail n (enc_tail n v ++ rest) w = Some (w * 64 ^ Z.of_nat n + v mod 64 ^ Z.of_nat n).
Proof.
  intros Hv. revert w. induction n as [|n IH]; intros w Hw; simpl; [rewrite Z.mod_1_r; f_equal; lia|].
  set (x := (v / 64 ^ Z.of_nat n) mod 64). assert (Hx : 0 ≤ x < 64) by (apply Z.mod_pos_bound; lia).
  rewrite ub_to_byte, (Z.mod_small (128 + x)) by lia.
  assert (H1 : (Z.land (128 + x) 192 =? 128) = true).
  { apply (check_byte (λ x, Z.land (128 + x) 192 =? 128) 0 64); [by vm_compute|done]. }
  assert (H2 : Z.land (128 + x) 63 = x).
  { apply Z.eqb_eq. apply (check_byte (λ x, Z.land (128 + x) 63 =? x) 0 64); [by vm_compute|done]. }
  assert (H3 : Z.land (Z.shiftl w 6) x = 0).
  { apply Z.bits_inj'. intros k Hk. rewrite Z.land_spec, Z.bits_0, Z.shiftl_spec by lia.
    destruct (Z.lt_ge_cases k 6); [by rewrite Z.testbit_neg_r by lia|].
    destruct (Z.eq_dec x 0) as [->|]; [by rewrite Z.bits_0, andb_false_r|].
    rewrite (Z.bits_above_log2 x k), andb_false_r; [done|lia|].
    eapply Z.lt_le_trans; [apply (Z.log2_lt_pow2 x 6); lia|done]. }
  rewrite H1, H2. simpl. assert (Hl : Z.lor (Z.shiftl w 6) x = w * 64 + x).
  { rewrite <-Z.lxor_lor, <-Z.add_nocarry_lxor, Z.shiftl_mul_pow2 by done || lia. done. }
  rewrite Hl, IH by lia. f_equal. pose proof (Z.pow_pos_nonneg 64 (Z.of_nat n) ltac:(lia) ltac:(lia)) as Hp.
  replace (Z.of_nat (S n)) with (Z.of_nat n + 1) by lia. rewrite Z.pow_add_r by lia. change (64 ^ 1) with 64.
  rewrite (Z.rem_mul_r v (64 ^ Z.of_nat n) 64) by lia. fold x. lia.
Qed.

Lemma readUTF8_enc_with prefix n lim v rest :
  0 ≤ v < lim * 64 ^ Z.of_nat n → prefix + lim ≤ 256 → 0 ≤ prefix → (∀ x, 0 ≤ x < lim → number_class (prefix + x) = Some (n, x)) →
  readUTF8Number (enc_with prefix n v ++ rest) = Some (v, len (enc_with prefix n v)).
Proof.
  intros Hv Hp Hp0 Hc. unfold enc_with. rewrite <-app_comm_cons. unfold readUTF8Number.
  pose proof (Z.pow_pos_nonneg 64 (Z.of_nat n) ltac:(lia) ltac:(lia)) as Hpow.
  assert (Hq : 0 ≤ v / 64 ^ Z.of_nat n < lim).
  { split; [apply Z.div_pos; lia|]. apply Z.div_lt_upper_bound; lia. }
  rewrite ub_to_byte, Z.mod_small, Hc by lia. cbn [mbind option_bind].
  replace (_ <? _)%nat with false; [|symmetry; apply Nat.ltb_ge; simpl; rewrite length_app, enc_tail_length; lia].
  rewrite utf8_tail_enc by lia. simpl. f_equal. f_equal.
  - pose proof (Z.div_mod v (64 ^ Z.of_nat n) ltac:(lia)). lia.
  - unfold len. simpl. rewrite enc_tail_length. lia.
Qed.

Lemma class_of prefix lim n :
  forallb (λ x, bool_decide (number_class (prefix + x) = Some (n, x))) (seqZ 0 (lim - 0)) = true →
  ∀ x, 0 ≤ x < lim → number_class (prefix + x) = Some (n, x).
Proof. intros Hf x Hx. eapply bool_decide_eq_true_1. exact (check_byte _ 0 lim x Hf Hx). Qed.

(** Every number of 36 bits is read back from its encoding. *)
Lemma readUTF8_encode v rest :
  0 ≤ v < 2 ^ 36 → readUTF8Number (encode_number v ++ rest) = Some (v, len (encode_number v)).
Proof.
  intros Hv. unfold encode_number.
  destruct (Z.ltb_spec v (2 ^ 7)).
  { replace [to_byte v] with (enc_with 0 0 v) by (unfold enc_with; simpl; by rewrite Z.div_1_r).
    apply (readUTF8_enc_with 0 0 128); [lia|lia|lia|]. apply class_of. by vm_compute. }
  destruct (Z.ltb_spec v (2 ^ 11)).
  { apply (readUTF8_enc_with 192 1 32); [lia|lia|lia|]. apply class_of. by vm_compute. }
  destruct (Z.ltb_spec v (2 ^ 16)).
  { apply (readUTF8_enc_with 224 2 16); [lia|lia|lia|]. apply class_of. by vm_compute. }
  destruct (Z.ltb_spec v (2 ^ 21)).
  { apply (readUTF8_enc_with 240 3 8); [lia|lia|lia|]. apply class_of. by vm_compute. }
  destruct (Z.ltb_spec v (2 ^ 26)).
  { apply (readUTF8_enc_with 248 4 4); [lia|lia|lia|]. apply class_of. by vm_compute. }
  destruct (Z.ltb_spec v (2 ^ 31)).
  { apply (readUTF8_enc_with 252 5 2); [lia|lia|lia|]. apply class_of. by vm_compute. }
  apply (readUTF8_enc_with 254 6 1); [lia|lia|lia|]. apply class_of. by vm_compute.
Qed.

(** ** A small image *)

(** Stereo, 16 bits, 44.1 kHz, blocks of 4096 samples numbered by frame. *)
Definition sample_header (number : Z) : list Byte.byte :=
  let h := [to_byte 255; to_byte 248; to_byte 201; to_byte 24] ++ encode_number number in h ++ [to_byte (crc8 h)].
(** A frame with so many bytes of audio after its header of six bytes. *)
Definition sample_frame (body : nat) (number : Z) : list Byte.byte := sample_header number ++ replicate body (to_byte 7).
Definition sample_frames (bodies : list nat) : list Byte.byte :=
  concat (imap (λ k body, sample_frame body (Z.of_nat k)) bodies).
Definition sample_raw (total : Z) : list Byte.byte :=
  put_be 2 4096 ++ put_be 2 4096 ++ replicate 6 Byte.x00 ++
  put_be 8 (Z.lor (Z.lor (Z.shiftl 44100 44) (Z.shiftl 1 41)) (Z.lor (Z.shiftl 15 36) total)) ++ replicate 16 Byte.x00.
Definition sample_meta (total : Z) : list Byte.byte :=
  list_byte_of_string "fLaC" ++ [to_byte 128; Byte.x00; Byte.x00; to_byte 34] ++ sample_raw total.
Definition sample_content (bodies : list nat) : list Byte.byte :=
  sample_meta (4096 * len bodies) ++ sample_frames bodies.
(** A reader of bytes in memory. *)
Definition bytes_reader (content : list Byte.byte) : ReaderAt := λ off n,
  let b := take (Z.to_nat n) (drop (Z.to_nat off) content) in (b, if len b <? n then REOF else RNil).

Lemma bytes_reader_faithful content : faithful (bytes_reader content) content.
Proof.
  intros off n Hoff Hn _. simpl. split; [done|]. destruct (Z.ltb_spec (len (take (Z.to_nat n) (drop (Z.to_nat off) content))) n)
    as [|Hl]; [done|]. intros _. unfold len in *. rewrite length_take in *. lia.
Qed.

Lemma bytes_reader_delivers content : delivers (bytes_reader content) content.
Proof.
  intros off n Hoff Hn. simpl. split; [by destruct (_ <? _)|]. intros Hl.
  rewrite (proj2 (Z.ltb_ge _ n)); [done|]. unfold len in *. rewrite length_take, length_drop. lia.
Qed.

Definition loud : list nat := [14; 14; 20; 14]%nat.
Definition sample_image (bodies : list nat) : Image :=
  mkImage (decode (sample_raw (4096 * len bodies))) 42 (len (sample_content bodies)).
Definition loud_frames : list (Z * frame) :=
  [(42, mkFrame 0 4096); (62, mkFrame 4096 4096); (82, mkFrame 8192 4096); (108, mkFrame 12288 4096)].

Lemma loud_opens : Open (bytes_reader (sample_content loud)) (len (sample_content loud)) = Some (inr (sample_image loud)).
Proof. vm_compute. reflexivity. Qed.

Lemma loud_headers o d : 42 ≤ o → header_at (sample_image loud) (sample_content loud) o = Some d → (o, d) ∈ loud_frames.
Proof.
  intros Ho Hh. pose proof (header_room _ _ o _ ltac:(lia) Hh) as Hl. change (len (sample_content loud)) with 128 in Hl.
  pose proof (check_byte (λ o, match header_at (sample_image loud) (sample_content loud) o with
    | Some d => bool_decide ((o, d) ∈ loud_frames) | None => true end) 42 113 o ltac:(by vm_compute) ltac:(lia)) as Hc.
  cbv beta in Hc. rewrite Hh in Hc. by apply bool_decide_eq_true_1 in Hc.
Qed.

Lemma loud_ok : image_ok (sample_image loud) (sample_content loud) loud_frames.
Proof.
  split; try done.
  - by eexists _, _.
  - intros o f Hin. apply (bool_decide_eq_true_1 (header_at (sample_image loud) (sample_content loud) o = Some f ∧ 0 < f_block f)).
    repeat (apply elem_of_cons in Hin as [[= -> ->]|Hin]; [by vm_compute|]). by apply elem_of_nil in Hin.
  - intros x y (l1 & l2 & E). unfold loud_frames in E.
    do 3 (destruct l1 as [|? l1]; [simplify_eq/=; by vm_compute|]; simpl in E; injection E as <- E).
    destruct l1 as [|? [|? l1]]; simplify_eq/=.
  - intros l x E. unfold loud_frames in E. do 4 (destruct l as [|? l]; simpl in E; [try (by simplify_eq/=; vm_compute)|injection E as <- E]).
    by destruct l.
  - intros o d Ho Hh Hn. destruct Hn. by apply loud_headers.
Qed.


Definition sample_tags : list Tag := [mkTag "TITLE" "One"; mkTag "TRACKNUMBER" "1"].
Definition sample_track : list Byte.byte :=
  match Header (sample_image loud) 8192 sample_tags with inr h => h | inl _ => [] end.

Lemma sample_opened : opened (sample_image loud).
Proof. by split; vm_compute. Qed.

Lemma Header_Open_witness :
  Open (bytes_reader (sample_track ++ sample_frames [14; 14]%nat)) (len (sample_track ++ sample_frames [14; 14]%nat)) =
  Some (inr (mkImage (mkInfo (track_info (sample_image loud) 8192) 4096 4096 44100 2 16 8192) 92 132)).
Proof.
  etransitivity; [apply (Header_Open (sample_image loud) _ 8192 sample_tags sample_track)|vm_compute; reflexivity].
  - apply sample_opened.
  - by vm_compute.
  - by vm_compute.
  - apply bytes_reader_faithful.
  - apply bytes_reader_delivers.
  - by vm_compute.
Defined.

(** ** Silence

    A frame of digital silence of a 16-bit stereo stream is fourteen bytes long below
    frame 128 and fifteen below frame 2048: [successor] starts looking sixteen bytes
    on, never sees the next frame, and a boundary inside the silence is not found. *)
Definition silent : list nat := [14; 14; 8; 8; 8; 14; 14]%nat.

Lemma silence_hides_boundary :
  Open (bytes_reader (sample_content silent)) (len (sample_content silent)) = Some (inr (sample_image silent)) ∧
  header_at (sample_image silent) (sample_content silent) 96 = Some (mkFrame 12288 4096) ∧
  Boundary (sample_image silent) (bytes_reader (sample_content silent)) 12288 = Some (inl ErrBoundaryNotFound).
Proof. split_and!; vm_compute; reflexivity. Qed.

(** When the image starts with silence the boundary is misplaced instead: the first
    frame that can be confirmed is returned, however far behind the target. *)
Definition silent_intro : list nat := [8; 8; 8; 8; 8; 14; 14; 14]%nat.

Lemma silence_misplaces_boundary :
  header_at (sample_image silent_intro) (sample_content silent_intro) 56 = Some (mkFrame 4096 4096) ∧
  Boundary (sample_image silent_intro) (bytes_reader (sample_content silent_intro)) 4096 = Some (inr (112, 20480)).
Proof. split_and!; vm_compute; reflexivity. Qed.
