(* ===== verification/Cue.v ===== *)
(** * Cue sheets and the tracks cut by them (internal/audio/cue, internal/library/cuesplit.go)

    A cue sheet names the tracks of a single-file album and where they start.
    [Parse] reads it, [FileFor] and [matchCueSheet] find the sheet of an image,
    [cutTrack] turns a track into a range of whole frames of the image (Flac.v) and
    the header in front of it, and [cueSegments] cuts the tracks of a request.

    Strings are byte strings.  The Windows-1251 decoder and the case mapping of
    [strings.ToLower] and [strings.ToUpper] beyond what decides a command are
    arguments. *)

From Stdlib Require Import Ascii String.
From S2P Require Import Prelude GoFloat GoStrings Flac.
Local Open Scope string_scope.
Local Open Scope Z_scope.
Local Open Scope go_scope.

(** ** Strings *)

(** [strings.Split] at a character. *)
Fixpoint split_char (c : ascii) (s : string) : list string :=
  match s with
  | "" => [""]
  | String d s => if Ascii.eqb d c then "" :: split_char c s
                  else match split_char c s with h :: t => String d h :: t | [] => [String d ""] end
  end.

(** What precedes the first character that satisfies a test, and what it starts. *)
Fixpoint break_at (p : ascii → bool) (s : string) : string * string :=
  match s with
  | "" => ("", "")
  | String c t => if p c then ("", s) else let '(a, b) := break_at p t in (String c a, b)
  end.

Fixpoint trim_left_by (p : ascii → bool) (s : string) : string :=
  match s with "" => "" | String c t => if p c then trim_left_by p t else s end.

(** [unicode.IsSpace], as byte sequences of UTF-8. *)
Definition code (c : ascii) : Z := Z.of_N (N_of_ascii c).
Definition ascii_space (c : Z) : bool := ((9 <=? c) && (c <=? 13)) || (c =? 32).
Definition space2 (a b : Z) : bool := (a =? 194) && ((b =? 133) || (b =? 160)).
Definition space3 (a b c : Z) : bool :=
  ((a =? 225) && (b =? 154) && (c =? 128)) || ((a =? 227) && (b =? 128) && (c =? 128))
  || ((a =? 226) && (b =? 129) && (c =? 159))
  || ((a =? 226) && (b =? 128) && (((128 <=? c) && (c <=? 138)) || (c =? 168) || (c =? 169) || (c =? 175))).
(** The length of the space at the front, and at the end of the reversed bytes. *)
Definition space_prefix (l : list Z) : nat :=
  match l with
  | [] => 0
  | a :: t => if ascii_space a then 1
              else match t with
                   | [] => 0
                   | b :: t => if space2 a b then 2
                               else match t with c :: _ => if space3 a b c then 3 else 0 | [] => 0 end
                   end
  end.
Definition space_suffix (l : list Z) : nat :=
  match l with
  | [] => 0
  | c :: t => if ascii_space c then 1
              else match t with
                   | [] => 0
                   | b :: t => if space2 b c then 2
                               else match t with a :: _ => if space3 a b c then 3 else 0 | [] => 0 end
                   end
  end.
Fixpoint drop_spaces (fuel : nat) (spaces : list Z → nat) (l : list ascii) : list ascii :=
  match fuel with
  | O => l
  | S fuel => match spaces (code <$> take 3 l) with O => l | k => drop_spaces fuel spaces (drop k l) end
  end.
(** [strings.TrimSpace]: every turn drops a byte at least. *)
Definition TrimSpace (s : string) : string :=
  let l := list_ascii_of_string s in
  let l := drop_spaces (length l) space_prefix l in
  string_of_list_ascii (rev (drop_spaces (length l) space_suffix (rev l))).

Definition TrimSuffix_char (c : ascii) (s : string) : string :=
  match rev (list_ascii_of_string s) with
  | d :: l => if Ascii.eqb d c then string_of_list_ascii (rev l) else s
  | [] => s
  end.

(** [strings.ToUpper], as far as it can give a command: two letters outside ASCII
    have upper cases in it, the dotless i and the long s. *)
Definition upper_char (c : ascii) : ascii :=
  if (97 <=? code c) && (code c <=? 122) then ascii_of_N (Z.to_N (code c - 32)) else c.
Fixpoint upper_command (s : string) : string :=
  match s with
  | "" => ""
  | String c (String d t as s') =>
      if (code c =? 196) && (code d =? 177) then String "I" (upper_command t)
      else if (code c =? 197) && (code d =? 191) then String "S" (upper_command t)
      else String (upper_char c) (upper_command s')
  | String c t => String (upper_char c) (upper_command t)
  end.

(** [utf8.Valid] *)
Definition cont (c : Z) : bool := (128 <=? c) && (c <=? 191).
Fixpoint utf8_valid (fuel : nat) (l : list Z) : bool :=
  match fuel with
  | O => true
  | S fuel =>
      match l with
      | [] => true
      | a :: t =>
          if a <? 128 then utf8_valid fuel t
          else match t with
               | b :: t1 =>
                   if (194 <=? a) && (a <=? 223) then cont b && utf8_valid fuel t1
                   else match t1 with
                        | c :: t2 =>
                            if (224 <=? a) && (a <=? 239) then
                              (if a =? 224 then (160 <=? b) && (b <=? 191)
                               else if a =? 237 then (128 <=? b) && (b <=? 159) else cont b)
                              && cont c && utf8_valid fuel t2
                            else match t2 with
                                 | d :: t3 =>
                                     ((240 <=? a) && (a <=? 244)) &&
                                     (if a =? 240 then (144 <=? b) && (b <=? 191)
                                      else if a =? 244 then (128 <=? b) && (b <=? 143) else cont b)
                                     && cont c && cont d && utf8_valid fuel t3
                                 | [] => false
                                 end
                        | [] => false
                        end
               | [] => false
               end
      end
  end.

(** ** Sheets *)

Record Track := mkTrack { Number : Z; Title : string; Performer : string; Start : Z }.
Record File := mkFile { Name : string; Tracks : list Track }.
Record Sheet := mkSheet { s_title : string; s_performer : string; Files : list File; Dir : string }.

Definition FramesPerSecond : Z := 75.

Definition StartSample (t : Track) (rate : Z) : Z := (Start t *! rate) /! FramesPerSecond.

(** [strconv.ParseInt(p, 10, 64)] of each part; minutes are not bounded. *)
Definition parseTime (s : string) : option Z :=
  match split_char ":" s with
  | [m; sec; f] =>
      m ← Atoi m; sec ← Atoi sec; f ← Atoi f;
      if (m <? 0) || (sec <? 0) || (f <? 0) then None
      else if (sec >=? 60) || (f >=? FramesPerSecond) then None
      else Some ((m *! 60 +! sec) *! FramesPerSecond +! f)
  | _ => None
  end.

Definition blank (c : ascii) : bool := Ascii.eqb c " " || Ascii.eqb c "009".
Definition quote : ascii := "034".

(** The fields of a line; each turn consumes a character at least. *)
Fixpoint split_fields (fuel : nat) (line : string) : list string :=
  match fuel with
  | O => []
  | S fuel =>
      match trim_left_by blank line with
      | "" => []
      | String c t as l =>
          if Ascii.eqb c quote then
            match break_at (Ascii.eqb quote) t with
            | (a, "") => [a]
            | (a, String _ rest) => a :: split_fields fuel rest
            end
          else match break_at blank l with
               | (a, "") => [a]
               | (a, rest) => a :: split_fields fuel rest
               end
      end
  end.

Definition splitCommand (line : string) : string * list string :=
  match split_fields (S (String.length line)) line with
  | [] => ("", [])
  | cmd :: args => (cmd, args)
  end.

(** The sheet being read; [track] is the last track of the last file, when set. *)
Record Reading := mkReading { rd_title : string; rd_performer : string; rd_files : list File; rd_track : bool }.

Fixpoint on_last {A} (f : A → A) (l : list A) : list A :=
  match l with [] => [] | [x] => [f x] | x :: l => x :: on_last f l end.
Definition on_track (f : Track → Track) (st : Reading) : Reading :=
  mkReading (rd_title st) (rd_performer st)
    (on_last (λ fl, mkFile (Name fl) (on_last f (Tracks fl))) (rd_files st)) (rd_track st).

Definition read_line (line : string) (st : Reading) : option Reading :=
  let '(cmd, args) := splitCommand line in
  let cmd := upper_command cmd in
  if String.eqb cmd "FILE" then
    match args with
    | [] => None
    | name :: _ => Some (mkReading (rd_title st) (rd_performer st) (rd_files st ++ [mkFile name []])%list false)
    end
  else if String.eqb cmd "TRACK" then
    match rd_files st, args with
    | [], _ | _, [] => None
    | _, num :: _ =>
        number ← Atoi num;
        if number <=? 0 then None
        else Some (mkReading (rd_title st) (rd_performer st)
                     (on_last (λ fl, mkFile (Name fl) (Tracks fl ++ [mkTrack number "" "" (-1)])%list) (rd_files st)) true)
    end
  else if String.eqb cmd "TITLE" then
    match args with
    | [] => Some st
    | v :: _ => if rd_track st then Some (on_track (λ t, mkTrack (Number t) v (Performer t) (Start t)) st)
                else match rd_files st with
                     | [] => Some (mkReading v (rd_performer st) [] false)
                     | _ => Some st
                     end
    end
  else if String.eqb cmd "PERFORMER" then
    match args with
    | [] => Some st
    | v :: _ => if rd_track st then Some (on_track (λ t, mkTrack (Number t) (Title t) v (Start t)) st)
                else match rd_files st with
                     | [] => Some (mkReading (rd_title st) v [] false)
                     | _ => Some st
                     end
    end
  else if String.eqb cmd "INDEX" then
    match args with
    | i :: time :: _ =>
        if rd_track st && bool_decide (Atoi i = Some 1) then
          frames ← parseTime time; Some (on_track (λ t, mkTrack (Number t) (Title t) (Performer t) frames) st)
        else Some st
    | _ => Some st
    end
  else Some st.

Definition read_raw (raw : string) (st : Reading) : option Reading :=
  let line := TrimSpace (TrimSuffix_char "013" raw) in
  if String.eqb line "" then Some st else read_line line st.

Fixpoint read_lines (ls : list string) (st : Reading) : option Reading :=
  match ls with [] => Some st | l :: ls => st ← read_raw l st; read_lines ls st end.

(** Starts are set and grow. *)
Fixpoint starts_ok (prev : option Z) (ts : list Track) : bool :=
  match ts with
  | [] => true
  | t :: ts => negb (Start t <? 0) && match prev with Some p => negb (Start t <=? p) | None => true end
               && starts_ok (Some (Start t)) ts
  end.

Section cue.
Context (windows1251 : list Byte.byte → option string).   (* charmap.Windows1251.NewDecoder().Bytes *)

Definition trim_bom (data : list Byte.byte) : list Byte.byte :=
  match data with
  | a :: b :: c :: rest => if (ub a =? 239) && (ub b =? 187) && (ub c =? 191) then rest else data
  | _ => data
  end.

Definition Decode (data : list Byte.byte) : string :=
  let data := trim_bom data in
  if utf8_valid (length data) (ub <$> data) then string_of_list_byte data
  else match windows1251 data with Some s => s | None => string_of_list_byte data end.

(** [None] is [ErrInvalid]. *)
Definition Parse (data : list Byte.byte) : option Sheet :=
  st ← read_lines (split_char "010" (Decode data)) (mkReading "" "" [] false);
  match rd_files st with
  | [] => None
  | fs => if forallb (λ f, starts_ok None (Tracks f)) fs
          then Some (mkSheet (rd_title st) (rd_performer st) fs "") else None
  end.
End cue.

(** ** What [Parse] accepts *)

Definition growing (ts : list Track) : Prop := StronglySorted (λ a b, Start a < Start b) ts ∧ Forall (λ t, 0 ≤ Start t) ts.

Lemma starts_ok_growing prev ts :
  starts_ok prev ts = true → growing ts ∧ match prev with Some p => Forall (λ t, p < Start t) ts | None => True end.
Proof.
  revert prev. induction ts as [|t ts IH]; intros prev; simpl.
  { intros _. split; [by split; constructor|]. by destruct prev. }
  intros H. apply andb_true_iff in H as [H H3]. apply andb_true_iff in H as [H1 H2].
  destruct (IH _ H3) as [[Hs Hn] Hp]. apply negb_true_iff, Z.ltb_ge in H1.
  split; [split; constructor; done|]. destruct prev as [p|]; [|done]. apply negb_true_iff, Z.leb_gt in H2.
  constructor; [done|]. eapply Forall_impl; [|exact Hp]. simpl. lia.
Qed.

Definition numbered (fs : list File) : Prop := Forall (λ f, Forall (λ t, 0 < Number t) (Tracks f)) fs.

Lemma on_last_Forall {A} (P : A → Prop) f l : Forall P l → (∀ x, P x → P (f x)) → Forall P (on_last f l).
Proof.
  intros Hl Hf. induction Hl as [|x l Hx Hl IH]; [constructor|]. destruct l; constructor; auto.
Qed.

Lemma numbered_on_track f st :
  (∀ t, Number (f t) = Number t) → numbered (rd_files st) → numbered (rd_files (on_track f st)).
Proof.
  intros Hf Hn. apply on_last_Forall; [done|]. intros fl Hfl. apply on_last_Forall; [done|]. intros t. by rewrite Hf.
Qed.

Lemma read_line_numbered line st st' : numbered (rd_files st) → read_line line st = Some st' → numbered (rd_files st').
Proof.
  intros Hn. unfold read_line. destruct (splitCommand line) as [cmd args].
  destruct (String.eqb _ "FILE").
  { destruct args; [done|]. intros [= <-]. apply list.Forall_app. split; [done|]. by repeat constructor. }
  destruct (String.eqb _ "TRACK").
  { destruct (rd_files st) eqn:Ef; [done|]. destruct args as [|num args]; [done|].
    destruct (Atoi num) as [k|]; [|done]. cbn [mbind option_bind]. destruct (Z.leb_spec k 0); [done|]. rewrite <-Ef.
    intros [= <-]. cbn [rd_files]. apply on_last_Forall; [by rewrite Ef|]. intros fl Hfl. apply list.Forall_app. split; [done|]. by repeat constructor. }
  destruct (String.eqb _ "TITLE").
  { destruct args; [by intros [= <-]|]. destruct (rd_track st); [intros [= <-]; by apply numbered_on_track|].
    destruct (rd_files st) eqn:Ef; intros [= <-]; simpl; [constructor|by rewrite Ef]. }
  destruct (String.eqb _ "PERFORMER").
  { destruct args; [by intros [= <-]|]. destruct (rd_track st); [intros [= <-]; by apply numbered_on_track|].
    destruct (rd_files st) eqn:Ef; intros [= <-]; simpl; [constructor|by rewrite Ef]. }
  destruct (String.eqb _ "INDEX"); [|by intros [= <-]].
  destruct args as [|i [|time args]]; [by intros [= <-]|by intros [= <-]|]. destruct (_ && _); [|by intros [= <-]].
  destruct (parseTime time) as [fr|]; [|done]. cbn [mbind option_bind]. intros [= <-]. by apply numbered_on_track.
Qed.

Lemma read_lines_numbered ls st st' : numbered (rd_files st) → read_lines ls st = Some st' → numbered (rd_files st').
Proof.
  revert st. induction ls as [|l ls IH]; intros st Hn; simpl; [by intros [= <-]|].
  unfold read_raw. destruct (String.eqb _ ""); [by apply IH|].
  destruct (read_line _ st) as [st1|] eqn:E; [|done]. apply IH. by eapply read_line_numbered.
Qed.

(** Whatever the bytes, an accepted sheet names a file, its tracks are numbered
    from one, and in every file they start at or after zero, each after the one
    before it. *)
Theorem Parse_accepts windows1251 data sheet :
  Parse windows1251 data = Some sheet →
  Files sheet ≠ [] ∧ Forall (λ f, growing (Tracks f) ∧ Forall (λ t, 0 < Number t) (Tracks f)) (Files sheet).
Proof.
  unfold Parse. destruct (read_lines _ _) as [st|] eqn:E; [|done]. cbn [mbind option_bind].
  assert (Hn : numbered (rd_files st)) by (eapply read_lines_numbered; [|exact E]; constructor).
  destruct (rd_files st) as [|f fs] eqn:Ef; [done|]. destruct (forallb _ _) eqn:Eb; [|done]. intros [= <-]. simpl.
  split; [done|]. apply list.Forall_forall. intros g Hg. split.
  - rewrite forallb_forall in Eb. apply (starts_ok_growing None), Eb, list_elem_of_In, Hg.
  - unfold numbered in Hn. rewrite list.Forall_forall in Hn. by apply Hn.
Qed.

(** ** A printed sheet is read back *)

Definition solid (c : ascii) : bool := (33 <=? code c) && (code c <=? 126).
Definition q (v : string) : string := String quote (v +:+ String quote "").
Definition digit (k : Z) : ascii := ascii_of_N (Z.to_N (48 + k)).
Definition two (k : Z) : string := String (digit (k / 10)) (String (digit (k mod 10)) "").
Definition print_time (n : Z) : string :=
  itoa (n / 75 / 60) +:+ String ":" (two (n / 75 mod 60) +:+ String ":" (two (n mod 75))).

Definition print_track (t : Track) : list string :=
  ["TRACK " +:+ itoa (Number t) +:+ " AUDIO"; "TITLE " +:+ q (Title t); "PERFORMER " +:+ q (Performer t);
   "INDEX 01 " +:+ print_time (Start t)].
Definition print_file (f : File) : list string :=
  ("FILE " +:+ q (Name f) +:+ " WAVE") :: concat (print_track <$> Tracks f).
Definition print_lines (s : Sheet) : list string :=
  ("TITLE " +:+ q (s_title s)) :: ("PERFORMER " +:+ q (s_performer s)) :: concat (print_file <$> Files s).
Fixpoint join_lines (ls : list string) : string :=
  match ls with [] => "" | [l] => l | l :: ls => l +:+ String "010" (join_lines ls) end.
Definition print_sheet (s : Sheet) : list Byte.byte := list_byte_of_string (join_lines (print_lines s)).

(** Text a line can hold: printable ASCII without the quote. *)
Definition plain_char (c : ascii) : bool := (32 <=? code c) && (code c <=? 126) && negb (Ascii.eqb c quote).
Fixpoint all_chars (p : ascii → bool) (s : string) : bool :=
  match s with "" => true | String c s => p c && all_chars p s end.
Definition track_printable (t : Track) : Prop :=
  0 < Number t ≤ max_i64 ∧ 0 ≤ Start t ≤ 2 ^ 60 ∧ all_chars plain_char (Title t) = true ∧ all_chars plain_char (Performer t) = true.
Definition file_printable (f : File) : Prop :=
  all_chars plain_char (Name f) = true ∧ Forall track_printable (Tracks f) ∧ starts_ok None (Tracks f) = true.
Record printable (s : Sheet) : Prop := {
  pr_title : all_chars plain_char (s_title s) = true;
  pr_performer : all_chars plain_char (s_performer s) = true;
  pr_files : Files s ≠ [];
  pr_file : Forall file_printable (Files s);
  pr_dir : Dir s = ""
}.

Lemma all_chars_app p a b : all_chars p (a +:+ b) = all_chars p a && all_chars p b.
Proof. induction a as [|c a IH]; simpl; [done|]. by rewrite IH, andb_assoc. Qed.

Lemma all_chars_impl (p r : ascii → bool) s : (∀ c, p c = true → r c = true) → all_chars p s = true → all_chars r s = true.
Proof.
  intros Hpr. induction s as [|c s IH]; simpl; [done|]. intros [H1 H2]%andb_true_iff. by rewrite Hpr, IH.
Qed.

(** A property of every character, by evaluation. *)
Lemma check_char (P : ascii → bool) : forallb (λ k, P (ascii_of_nat k)) (seq 0 256) = true → ∀ c, P c = true.
Proof.
  rewrite forallb_forall. intros Hp c. rewrite <-(ascii_nat_embedding c). apply Hp, in_seq.
  pose proof (nat_ascii_bounded c). lia.
Qed.

Lemma break_at_app p a c b :
  all_chars (λ x, negb (p x)) a = true → p c = true → break_at p (a +:+ String c b) = (a, String c b).
Proof.
  intros Ha Hc. induction a as [|x a IH]; simpl in *; [by rewrite Hc|].
  apply andb_true_iff in Ha as [Hx Ha]. apply negb_true_iff in Hx. by rewrite Hx, IH.
Qed.

Lemma break_at_all p a : all_chars (λ x, negb (p x)) a = true → break_at p a = (a, "").
Proof.
  induction a as [|x a IH]; simpl; [done|]. intros [Hx Ha]%andb_true_iff. apply negb_true_iff in Hx. by rewrite Hx, IH.
Qed.

Lemma split_char_app c a b :
  has_char c a = false → split_char c (a +:+ String c b) = a :: split_char c b.
Proof.
  intros Ha. induction a as [|x a IH]; simpl in *; [by rewrite Ascii.eqb_refl|].
  apply orb_false_iff in Ha as [Hx Ha]. by rewrite Hx, IH.
Qed.

Lemma split_char_one c a : has_char c a = false → split_char c a = [a].
Proof. induction a as [|x a IH]; simpl; [done|]. intros [Hx Ha]%orb_false_iff. by rewrite Hx, IH. Qed.

(** *** Trimming leaves a line alone *)

Lemma solid_space c : solid c = true → ascii_space (code c) = false ∧ code c < 128.
Proof.
  unfold solid. intros [H1 H2]%andb_true_iff. apply Z.leb_le in H1, H2. split; [|lia]. unfold ascii_space.
  rewrite (proj2 (Z.leb_gt (code c) 13)), (proj2 (Z.eqb_neq (code c) 32)) by lia. by rewrite andb_false_r.
Qed.

Lemma space_prefix_solid c l : solid c = true → space_prefix (code c :: l) = 0%nat.
Proof.
  intros [Hs Hc]%solid_space. simpl. rewrite Hs. destruct l as [|b l]; [done|]. unfold space2.
  rewrite (proj2 (Z.eqb_neq (code c) 194)) by lia. simpl. destruct l as [|d l]; [done|]. unfold space3.
  by rewrite (proj2 (Z.eqb_neq (code c) 225)), (proj2 (Z.eqb_neq (code c) 227)), (proj2 (Z.eqb_neq (code c) 226)) by lia.
Qed.

Lemma space_suffix_solid c l : solid c = true → space_suffix (code c :: l) = 0%nat.
Proof.
  intros [Hs Hc]%solid_space. simpl. rewrite Hs. destruct l as [|b l]; [done|]. unfold space2.
  rewrite (proj2 (Z.eqb_neq (code c) 133)), (proj2 (Z.eqb_neq (code c) 160)), andb_false_r by lia.
  destruct l as [|d l]; [done|]. unfold space3.
  rewrite (proj2 (Z.eqb_neq (code c) 128)), (proj2 (Z.eqb_neq (code c) 159)), (proj2 (Z.eqb_neq (code c) 168)),
    (proj2 (Z.eqb_neq (code c) 169)), (proj2 (Z.eqb_neq (code c) 175)), (proj2 (Z.leb_gt 128 (code c))) by lia.
  by rewrite !andb_false_r.
Qed.

Lemma list_ascii_app a b : list_ascii_of_string (a +:+ b) = (list_ascii_of_string a ++ list_ascii_of_string b)%list.
Proof. induction a as [|c a IH]; simpl; [done|]. by rewrite IH. Qed.

Lemma drop_spaces_id n spaces c l :
  spaces (code c :: (code <$> take 2 l)) = 0%nat → drop_spaces n spaces (c :: l) = c :: l.
Proof.
  intros H. destruct n as [|n]; [done|]. cbn [drop_spaces].
  change (code <$> take 3 (c :: l)) with (code c :: (code <$> take 2 l)). by rewrite H.
Qed.

Lemma trim_solid a mid b :
  solid a = true → solid b = true →
  TrimSpace (TrimSuffix_char "013" (String a (mid +:+ String b ""))) = String a (mid +:+ String b "").
Proof.
  intros Ha Hb. set (s := String a (mid +:+ String b "")).
  assert (Hr : rev (list_ascii_of_string s) = b :: rev (list_ascii_of_string (String a mid))).
  { unfold s. change (String a (mid +:+ String b "")) with (String a mid +:+ String b "").
    by rewrite list_ascii_app, rev_app_distr. }
  assert (Ht : TrimSuffix_char "013" s = s).
  { unfold TrimSuffix_char. rewrite Hr. destruct (Ascii.eqb_spec b "013") as [->|]; done. }
  rewrite Ht. unfold TrimSpace.
  assert (H1 : drop_spaces (length (list_ascii_of_string s)) space_prefix (list_ascii_of_string s) = list_ascii_of_string s).
  { apply drop_spaces_id. by apply space_prefix_solid. }
  rewrite H1. assert (H2 : drop_spaces (length (list_ascii_of_string s)) space_suffix (rev (list_ascii_of_string s)) =
    rev (list_ascii_of_string s)).
  { rewrite Hr. apply drop_spaces_id. by apply space_suffix_solid. }
  by rewrite H2, rev_involutive, string_of_list_ascii_of_string.
Qed.

(** *** Fields *)

Definition is_digit (c : ascii) : bool := (48 <=? code c) && (code c <=? 57).

Lemma itoa_digits z : 0 ≤ z → ∃ c w, itoa z = String c w ∧ is_digit c = true ∧ all_chars is_digit w = true.
Proof.
  assert (Hn : ∀ d, all_chars is_digit (DecimalString.NilEmpty.string_of_uint d) = true) by (induction d; simpl; done).
  intros Hz. unfold itoa. destruct z as [|p|p]; [by eexists _, _| |lia]. simpl.
  pose proof (DecimalPos.Unsigned.to_uint_nonnil p) as Hd.
  destruct (Pos.to_uint p) as [|d|d|d|d|d|d|d|d|d|d]; [done|..]; eexists _, _; (split; [reflexivity|]); split; try done; apply Hn.
Qed.

Lemma digit_facts c :
  is_digit c = true → negb (blank c) = true ∧ Ascii.eqb c quote = false ∧ plain_char c = true ∧ solid c = true.
Proof.
  intros Hc.
  assert (H : negb (is_digit c) || (negb (blank c) && negb (Ascii.eqb c quote) && plain_char c && solid c) = true)
    by (apply (check_char (λ c, negb (is_digit c) || (negb (blank c) && negb (Ascii.eqb c quote) && plain_char c && solid c)));
        by vm_compute).
  rewrite Hc in H. simpl in H. bool_simpl. rewrite ?negb_true_iff. by split_and!.
Qed.

Lemma plain_facts c : plain_char c = true → negb (Ascii.eqb quote c) = true ∧ Ascii.eqb c "010" = false ∧ code c < 128.
Proof.
  intros Hc.
  assert (H : negb (plain_char c) || (negb (Ascii.eqb quote c) && negb (Ascii.eqb c "010") && (code c <? 128)) = true)
    by (apply (check_char (λ c, negb (plain_char c) || (negb (Ascii.eqb quote c) && negb (Ascii.eqb c "010") && (code c <? 128))));
        by vm_compute).
  rewrite Hc in H. simpl in H. bool_simpl. rewrite ?negb_true_iff. by split_and!.
Qed.

Lemma fields_quoted f v rest :
  all_chars plain_char v = true →
  split_fields (S f) (String " " (String quote (v +:+ String quote rest))) = v :: split_fields f rest.
Proof.
  intros Hv. cbn [split_fields trim_left_by]. change (blank " ") with true. cbv iota.
  change (blank quote) with false. cbv iota. rewrite Ascii.eqb_refl. rewrite break_at_app; [done| |apply Ascii.eqb_refl].
  eapply all_chars_impl; [|exact Hv]. intros c Hc. by apply plain_facts.
Qed.

Lemma fields_word f c w rest :
  is_digit c = true → all_chars is_digit w = true →
  split_fields (S f) (String " " (String c w +:+ String " " rest)) = String c w :: split_fields f (String " " rest).
Proof.
  intros Hc Hw. destruct (digit_facts c Hc) as (Hb & Hq & _). apply negb_true_iff in Hb.
  assert (Ht : trim_left_by blank (String " " (String c w +:+ String " " rest)) = String c (w +:+ String " " rest))
    by (simpl; by rewrite Hb).
  cbn [split_fields]. rewrite Ht, Hq.
  change (String c (w +:+ String " " rest)) with (String c w +:+ String " " rest). rewrite break_at_app; [done| |done].
  simpl. rewrite Hb. simpl. eapply all_chars_impl; [|exact Hw]. intros d Hd. by apply digit_facts.
Qed.

Lemma fields_last f c w :
  blank c = false → Ascii.eqb c quote = false → all_chars (λ x, negb (blank x)) w = true →
  split_fields (S f) (String " " (String c w)) = [String c w].
Proof.
  intros Hb Hq Hw. cbn [split_fields trim_left_by]. change (blank " ") with true. cbv iota. rewrite Hb, Hq.
  rewrite break_at_all; [done|]. simpl. by rewrite Hb.
Qed.

Lemma fields_nil f : split_fields f "" = [].
Proof. by destruct f. Qed.

Lemma fields_blank f : split_fields f (String " " "") = [].
Proof. by destruct f. Qed.

(** *** Times *)

Lemma two_time k : 0 ≤ k < 100 → Atoi (two k) = Some k ∧ has_char ":" (two k) = false ∧ is_digit (digit (k / 10)) = true ∧ is_digit (digit (k mod 10)) = true.
Proof.
  intros Hk.
  pose proof (check_byte (λ k, bool_decide (Atoi (two k) = Some k) && negb (has_char ":" (two k)) &&
    is_digit (digit (k / 10)) && is_digit (digit (k mod 10))) 0 100 k ltac:(by vm_compute) Hk) as H. cbv beta in H. bool_simpl.
  split_and!; try done. by apply bool_decide_eq_true_1 in H.
Qed.

Lemma parseTime_print n : 0 ≤ n ≤ 2 ^ 60 → parseTime (print_time n) = Some n.
Proof.
  intros Hn. unfold parseTime, print_time.
  assert (Hm : 0 ≤ n / 75 / 60 ≤ 2 ^ 60).
  { rewrite Z.div_div by lia. split; [apply Z.div_pos; lia|]. apply Z.div_le_upper_bound; lia. }
  pose proof (Z.mod_pos_bound (n / 75) 60 ltac:(lia)). pose proof (Z.mod_pos_bound n 75 ltac:(lia)).
  destruct (two_time (n / 75 mod 60) ltac:(lia)) as (A1 & A2 & _), (two_time (n mod 75) ltac:(lia)) as (B1 & B2 & _).
  rewrite split_char_app by (apply itoa_no_colon; lia). rewrite split_char_app by done. rewrite split_char_one by done.
  rewrite Atoi_itoa by (unfold in_i64; lia). rewrite A1, B1. cbn [mbind option_bind]. unfold FramesPerSecond.
  rewrite !(proj2 (Z.ltb_ge _ 0)) by lia. cbn [orb]. rewrite !Z.geb_leb.
  rewrite (proj2 (Z.leb_gt 60 _)), (proj2 (Z.leb_gt 75 _)) by lia. cbn [orb]. f_equal.
  pose proof (Z.div_mod n 75 ltac:(lia)). pose proof (Z.div_mod (n / 75) 60 ltac:(lia)).
  assert (n / 75 ≤ 2 ^ 60) by (apply Z.div_le_upper_bound; lia).
  rewrite (i64_id (n / 75 / 60 * 60)) by (unfold in_i64; lia). rewrite (i64_id (_ + n / 75 mod 60)) by (unfold in_i64; lia).
  rewrite (i64_id (_ * 75)) by (unfold in_i64; lia). rewrite i64_id by (unfold in_i64; lia). lia.
Qed.

(** *** Lines *)

Lemma fields_first f c w rest :
  all_chars (λ x, negb (blank x)) (String c w) = true → Ascii.eqb c quote = false →
  split_fields (S f) (String c w +:+ String " " rest) = String c w :: split_fields f (String " " rest).
Proof.
  intros Hw Hq. assert (Hb : blank c = false) by (simpl in Hw; bool_simpl; done).
  assert (Ht : trim_left_by blank (String c w +:+ String " " rest) = String c (w +:+ String " " rest))
    by (simpl; by rewrite Hb).
  cbn [split_fields]. rewrite Ht, Hq.
  change (String c (w +:+ String " " rest)) with (String c w +:+ String " " rest). by rewrite break_at_app.
Qed.

Lemma splitCommand_kw c d e w rest :
  all_chars (λ x, negb (blank x)) (String c (String d (String e w))) = true → Ascii.eqb c quote = false →
  ∃ n, splitCommand (String c (String d (String e w)) +:+ String " " rest) =
    (String c (String d (String e w)), split_fields (S (S (S n))) (String " " rest)).
Proof.
  intros Hw Hq. unfold splitCommand. exists (String.length (w +:+ String " " rest)). by rewrite fields_first.
Qed.

Lemma read_raw_line a mid b st :
  solid a = true → solid b = true →
  read_raw (String a (mid +:+ String b "")) st = read_line (String a (mid +:+ String b "")) st.
Proof. intros Ha Hb. unfold read_raw. by rewrite trim_solid. Qed.

Lemma q_ends v : q v = (String quote v) +:+ String quote "".
Proof. done. Qed.

Definition title_step (v : string) (st : Reading) : Reading :=
  if rd_track st then on_track (λ t, mkTrack (Number t) v (Performer t) (Start t)) st
  else match rd_files st with [] => mkReading v (rd_performer st) [] false | _ => st end.
Definition performer_step (v : string) (st : Reading) : Reading :=
  if rd_track st then on_track (λ t, mkTrack (Number t) (Title t) v (Start t)) st
  else match rd_files st with [] => mkReading (rd_title st) v [] false | _ => st end.

Lemma read_title v st : all_chars plain_char v = true → read_raw ("TITLE " +:+ q v) st = Some (title_step v st).
Proof.
  intros Hv. change ("TITLE " +:+ q v) with (String "T" (("ITLE " +:+ String quote v) +:+ String quote "")).
  rewrite read_raw_line by done.
  change (String "T" (("ITLE " +:+ String quote v) +:+ String quote "")) with ("TITLE" +:+ String " " (String quote (v +:+ String quote ""))).
  unfold read_line. destruct (splitCommand_kw "T" "I" "T" "LE" (String quote (v +:+ String quote "")) eq_refl eq_refl) as [n ->].
  rewrite fields_quoted, fields_nil by done. change (upper_command "TITLE") with "TITLE".
  cbv beta iota zeta. change ("TITLE" =? "FILE")%string with false. change ("TITLE" =? "TRACK")%string with false.
  change ("TITLE" =? "TITLE")%string with true. cbv iota. unfold title_step. destruct (rd_track st); [done|].
  by destruct (rd_files st).
Qed.

Lemma read_performer v st :
  all_chars plain_char v = true → read_raw ("PERFORMER " +:+ q v) st = Some (performer_step v st).
Proof.
  intros Hv. change ("PERFORMER " +:+ q v) with (String "P" (("ERFORMER " +:+ String quote v) +:+ String quote "")).
  rewrite read_raw_line by done.
  change (String "P" (("ERFORMER " +:+ String quote v) +:+ String quote ""))
    with ("PERFORMER" +:+ String " " (String quote (v +:+ String quote ""))).
  unfold read_line.
  destruct (splitCommand_kw "P" "E" "R" "FORMER" (String quote (v +:+ String quote "")) eq_refl eq_refl) as [n ->].
  rewrite fields_quoted, fields_nil by done. change (upper_command "PERFORMER") with "PERFORMER".
  cbv beta iota zeta. change ("PERFORMER" =? "FILE")%string with false. change ("PERFORMER" =? "TRACK")%string with false.
  change ("PERFORMER" =? "TITLE")%string with false. change ("PERFORMER" =? "PERFORMER")%string with true. cbv iota.
  unfold performer_step. destruct (rd_track st); [done|]. by destruct (rd_files st).
Qed.

Lemma read_file v st :
  all_chars plain_char v = true →
  read_raw ("FILE " +:+ q v +:+ " WAVE") st =
    Some (mkReading (rd_title st) (rd_performer st) (rd_files st ++ [mkFile v []])%list false).
Proof.
  intros Hv.
  assert (El : "FILE " +:+ q v +:+ " WAVE" = String "F" (("ILE " +:+ q v +:+ " WAV") +:+ String "E" "")).
  { change (String "F" (("ILE " +:+ q v +:+ " WAV") +:+ String "E" "")) with (("FILE " +:+ q v +:+ " WAV") +:+ "E").
    by rewrite !append_assoc. }
  rewrite El, read_raw_line, <-El by done.
  assert (E2 : "FILE " +:+ q v +:+ " WAVE" = "FILE" +:+ String " " (String quote (v +:+ String quote " WAVE"))).
  { transitivity ("FILE " +:+ String quote ((v +:+ String quote "") +:+ " WAVE")); [reflexivity|].
    rewrite append_assoc. reflexivity. }
  rewrite E2. unfold read_line.
  destruct (splitCommand_kw "F" "I" "L" "E" (String quote (v +:+ String quote " WAVE")) eq_refl eq_refl) as [n ->].
  rewrite fields_quoted by done. done.
Qed.

Lemma read_track k st :
  0 < k ≤ max_i64 → rd_files st ≠ [] →
  read_raw ("TRACK " +:+ itoa k +:+ " AUDIO") st =
    Some (mkReading (rd_title st) (rd_performer st)
            (on_last (λ fl, mkFile (Name fl) (Tracks fl ++ [mkTrack k "" "" (-1)])%list) (rd_files st)) true).
Proof.
  intros Hk Hst. destruct (itoa_digits k ltac:(lia)) as (c & w & E & Hc & Hw).
  assert (El : "TRACK " +:+ itoa k +:+ " AUDIO" = String "T" (("RACK " +:+ itoa k +:+ " AUDI") +:+ String "O" "")).
  { change (String "T" (("RACK " +:+ itoa k +:+ " AUDI") +:+ String "O" "")) with (("TRACK " +:+ itoa k +:+ " AUDI") +:+ "O").
    by rewrite !append_assoc. }
  rewrite El, read_raw_line, <-El by done.
  change ("TRACK " +:+ itoa k +:+ " AUDIO") with ("TRACK" +:+ String " " (itoa k +:+ String " " "AUDIO")).
  unfold read_line. destruct (splitCommand_kw "T" "R" "A" "CK" (itoa k +:+ String " " "AUDIO") eq_refl eq_refl) as [n ->].
  rewrite E, fields_word, fields_last by done. rewrite <-E. change (upper_command "TRACK") with "TRACK".
  cbv beta iota zeta. change ("TRACK" =? "FILE")%string with false. change ("TRACK" =? "TRACK")%string with true. cbv iota.
  rewrite Atoi_itoa by (unfold in_i64, max_i64 in *; lia). cbn [mbind option_bind]. rewrite (proj2 (Z.leb_gt k 0)) by lia.
  by destruct (rd_files st).
Qed.

Lemma read_index n st :
  0 ≤ n ≤ 2 ^ 60 → rd_track st = true →
  read_raw ("INDEX 01 " +:+ print_time n) st =
    Some (on_track (λ t, mkTrack (Number t) (Title t) (Performer t) n) st).
Proof.
  intros Hn Hst.
  assert (Hm : 0 ≤ n / 75 / 60) by (rewrite Z.div_div by lia; apply Z.div_pos; lia).
  destruct (itoa_digits (n / 75 / 60) Hm) as (c & w & E & Hc & Hw).
  pose proof (Z.mod_pos_bound (n / 75) 60 ltac:(lia)). pose proof (Z.mod_pos_bound n 75 ltac:(lia)).
  destruct (two_time (n / 75 mod 60) ltac:(lia)) as (_ & _ & A3 & A4), (two_time (n mod 75) ltac:(lia)) as (_ & _ & B3 & B4).
  assert (Hdig : ∀ d, is_digit d = true → negb (blank d) = true) by (intros d Hd; by apply digit_facts).
  set (mid := "NDEX 01 " +:+ itoa (n / 75 / 60) +:+ String ":" (two (n / 75 mod 60) +:+ String ":" (String (digit (n mod 75 / 10)) ""))).
  assert (El : "INDEX 01 " +:+ print_time n = String "I" (mid +:+ String (digit (n mod 75 mod 10)) "")).
  { unfold mid, print_time. change (String "I" (?a +:+ ?b)) with ("I" +:+ (a +:+ b)). rewrite !append_assoc. done. }
  rewrite El, read_raw_line, <-El by (done || by apply digit_facts).
  assert (Ep : ∃ t, print_time n = String c t ∧ all_chars (λ x, negb (blank x)) t = true).
  { unfold print_time. rewrite E. eexists. split; [done|]. rewrite all_chars_app.
    rewrite (all_chars_impl is_digit _ w) by done. simpl. by rewrite !Hdig. }
  destruct Ep as (t & Ep & Ht). destruct (digit_facts c Hc) as (Hb & Hq & _). apply negb_true_iff in Hb.
  change ("INDEX 01 " +:+ print_time n) with ("INDEX" +:+ String " " ("01" +:+ String " " (print_time n))).
  unfold read_line. destruct (splitCommand_kw "I" "N" "D" "EX" ("01" +:+ String " " (print_time n)) eq_refl eq_refl) as [k ->].
  rewrite (fields_word _ "0" "1"), Ep, fields_last by done. rewrite <-Ep.
  change (upper_command "INDEX") with "INDEX". cbv beta iota zeta.
  change ("INDEX" =? "FILE")%string with false. change ("INDEX" =? "TRACK")%string with false.
  change ("INDEX" =? "TITLE")%string with false. change ("INDEX" =? "PERFORMER")%string with false.
  change ("INDEX" =? "INDEX")%string with true. cbv iota. rewrite Hst. change (bool_decide (Atoi "01" = Some 1)) with true.
  cbn [andb]. by rewrite parseTime_print.
Qed.

(** *** Tracks, files, the sheet *)

Lemma on_last_app {A} (f : A → A) l x : on_last f (l ++ [x])%list = (l ++ [f x])%list.
Proof. induction l as [|y l IH]; [done|]. simpl. rewrite IH. by destruct (l ++ [x])%list eqn:E; [destruct l|]. Qed.

Lemma read_lines_app l1 l2 st : read_lines (l1 ++ l2)%list st = read_lines l1 st ≫= read_lines l2.
Proof.
  revert st. induction l1 as [|l l1 IH]; intros st; [done|]. simpl. destruct (read_raw l st); [|done]. simpl. apply IH.
Qed.

Lemma read_one_track t title perf fs name ts b :
  track_printable t →
  read_lines (print_track t) (mkReading title perf (fs ++ [mkFile name ts])%list b) =
    Some (mkReading title perf (fs ++ [mkFile name (ts ++ [t])])%list true).
Proof.
  intros (Hk & Hs & Ht & Hp). cbn [print_track read_lines].
  rewrite read_track by (done || (intros E; by destruct fs)). cbn [mbind option_bind rd_title rd_performer rd_files].
  rewrite on_last_app. cbn [Name Tracks]. rewrite read_title by done. cbn [mbind option_bind].
  unfold title_step, on_track. cbn [rd_track rd_title rd_performer rd_files]. rewrite on_last_app. cbn [Name Tracks].
  rewrite on_last_app. cbn [Number Title Performer Start]. rewrite read_performer by done. cbn [mbind option_bind].
  unfold performer_step, on_track. cbn [rd_track rd_title rd_performer rd_files]. rewrite on_last_app. cbn [Name Tracks].
  rewrite on_last_app. cbn [Number Title Performer Start]. rewrite read_index by done. cbn [mbind option_bind].
  unfold on_track. cbn [rd_track rd_title rd_performer rd_files]. rewrite on_last_app. cbn [Name Tracks].
  rewrite on_last_app. cbn [Number Title Performer Start]. by destruct t.
Qed.

Lemma read_tracks ts title perf fs name ts0 b :
  Forall track_printable ts → ∃ b',
  read_lines (concat (print_track <$> ts)) (mkReading title perf (fs ++ [mkFile name ts0])%list b) =
    Some (mkReading title perf (fs ++ [mkFile name (ts0 ++ ts)])%list b').
Proof.
  intros Hts. revert ts0 b. induction Hts as [|t ts Ht _ IH]; intros ts0 b; [exists b; by rewrite app_nil_r|].
  rewrite fmap_cons. cbn [concat]. rewrite read_lines_app, read_one_track by done. cbn [mbind option_bind].
  destruct (IH (ts0 ++ [t])%list true) as [b' E]. exists b'. rewrite E. by rewrite <-app_assoc.
Qed.

Lemma read_files fl title perf fs b :
  Forall file_printable fl → ∃ b',
  read_lines (concat (print_file <$> fl)) (mkReading title perf fs b) = Some (mkReading title perf (fs ++ fl)%list b').
Proof.
  intros Hfl. revert fs b. induction Hfl as [|f fl (Hn & Hts & _) _ IH]; intros fs b; [exists b; by rewrite app_nil_r|].
  rewrite fmap_cons. cbn [concat]. unfold print_file at 1. cbn [app read_lines].
  rewrite read_file by done. cbn [mbind option_bind rd_title rd_performer rd_files]. rewrite read_lines_app.
  destruct (read_tracks (Tracks f) title perf fs (Name f) [] false Hts) as [b1 E1]. rewrite E1. cbn [mbind option_bind].
  destruct (IH (fs ++ [mkFile (Name f) ([] ++ Tracks f)])%list b1) as [b2 E2]. exists b2. rewrite E2.
  rewrite <-app_assoc. by destruct f.
Qed.

(** *** Bytes *)

Definition line_char (c : ascii) : bool := (32 <=? code c) && (code c <=? 126).

Lemma plain_line s : all_chars plain_char s = true → all_chars line_char s = true.
Proof. apply all_chars_impl. intros c Hc. unfold plain_char in Hc. by apply andb_true_iff in Hc as [? _]. Qed.

Lemma digits_line s : all_chars is_digit s = true → all_chars line_char s = true.
Proof. intros H. apply plain_line. revert H. apply all_chars_impl. intros c Hc. by apply digit_facts. Qed.

Lemma line_facts c : line_char c = true → Ascii.eqb c "010" = false ∧ code c < 128.
Proof.
  unfold line_char. intros [H1 H2]%andb_true_iff. apply Z.leb_le in H1, H2. split; [|lia].
  destruct (Ascii.eqb_spec c "010") as [->|]; [|done]. vm_compute in H1. done.
Qed.

Lemma q_line v : all_chars plain_char v = true → all_chars line_char (q v) = true.
Proof. intros Hv. unfold q. simpl. rewrite all_chars_app, plain_line by done. done. Qed.

Lemma itoa_line k : 0 ≤ k → all_chars line_char (itoa k) = true.
Proof. intros Hk. destruct (itoa_digits k Hk) as (c & w & -> & Hc & Hw). apply digits_line. simpl. by rewrite Hc. Qed.

Lemma two_line k : 0 ≤ k < 100 → all_chars line_char (two k) = true.
Proof. intros Hk. destruct (two_time k Hk) as (_ & _ & H1 & H2). apply digits_line. simpl. by rewrite H1, H2. Qed.

Lemma track_lines t : track_printable t → Forall (λ l, all_chars line_char l = true) (print_track t).
Proof.
  intros (Hk & Hs & Ht & Hp). unfold print_track.
  assert (Hm : 0 ≤ Start t / 75 / 60) by (rewrite Z.div_div by lia; apply Z.div_pos; lia).
  pose proof (Z.mod_pos_bound (Start t / 75) 60 ltac:(lia)). pose proof (Z.mod_pos_bound (Start t) 75 ltac:(lia)).
  repeat constructor.
  - rewrite !all_chars_app, itoa_line by lia. done.
  - rewrite all_chars_app, q_line by done. done.
  - rewrite all_chars_app, q_line by done. done.
  - unfold print_time. rewrite !all_chars_app, itoa_line by lia. cbn [all_chars]. rewrite all_chars_app, two_line by lia.
    cbn [all_chars]. rewrite two_line by lia. done.
Qed.

Lemma Forall_concat_fmap {A B} (P : B → Prop) (f : A → list B) l : Forall (λ x, Forall P (f x)) l → Forall P (concat (f <$> l)).
Proof. induction 1 as [|x l Hx _ IH]; [constructor|]. rewrite fmap_cons. apply list.Forall_app. by split. Qed.

Lemma sheet_lines s : printable s → Forall (λ l, all_chars line_char l = true) (print_lines s).
Proof.
  intros [H1 H2 _ H4 _]. unfold print_lines. constructor; [rewrite all_chars_app, q_line by done; done|].
  constructor; [rewrite all_chars_app, q_line by done; done|].
  apply Forall_concat_fmap. eapply Forall_impl; [|exact H4]. intros f (Hn & Hts & _). simpl.
  unfold print_file. constructor; [rewrite !all_chars_app, q_line by done; done|].
  apply Forall_concat_fmap. eapply Forall_impl; [|exact Hts]. intros t. apply track_lines.
Qed.

Lemma no_newline l : all_chars line_char l = true → has_char "010" l = false.
Proof.
  induction l as [|c l IH]; simpl; [done|]. intros [Hc Hl]%andb_true_iff. destruct (line_facts c Hc) as [-> _]. by apply IH.
Qed.

Lemma split_join ls :
  ls ≠ [] → Forall (λ l, all_chars line_char l = true) ls → split_char "010" (join_lines ls) = ls.
Proof.
  intros Hne Hls. induction Hls as [|l ls Hl Hls IH]; [done|]. destruct ls as [|l' ls].
  - apply split_char_one. by apply no_newline.
  - cbn [join_lines]. rewrite split_char_app by (by apply no_newline). f_equal. by apply IH.
Qed.

Lemma join_ascii ls :
  Forall (λ l, all_chars line_char l = true) ls → all_chars (λ c, code c <? 128) (join_lines ls) = true.
Proof.
  assert (Hi : ∀ l, all_chars line_char l = true → all_chars (λ c, code c <? 128) l = true).
  { intros l. apply all_chars_impl. intros c Hc. apply Z.ltb_lt. by apply line_facts. }
  intros Hls. induction Hls as [|l ls Hl Hls IH]; [done|]. destruct ls as [|l' ls]; [by apply Hi|].
  change (join_lines (l :: l' :: ls)) with (l +:+ (String "010" "" +:+ join_lines (l' :: ls))).
  rewrite !all_chars_app, Hi, IH by done. done.
Qed.

Lemma ub_ascii c : ub (byte_of_ascii c) = code c.
Proof.
  apply Z.eqb_eq. apply (check_char (λ c, ub (byte_of_ascii c) =? code c)). by vm_compute.
Qed.

Lemma utf8_ascii n s : all_chars (λ c, code c <? 128) s = true → utf8_valid n (ub <$> list_byte_of_string s) = true.
Proof.
  revert n. induction s as [|c s IH]; intros n; [by destruct n|]. simpl. intros [Hc Hs]%andb_true_iff.
  destruct n as [|n]; [done|]. cbn [list_byte_of_string fmap list_fmap utf8_valid].
  change (ub <$> byte_of_ascii c :: list_byte_of_string s) with (ub (byte_of_ascii c) :: (ub <$> list_byte_of_string s)).
  rewrite ub_ascii, Hc. by apply IH.
Qed.


(** ** A sample sheet *)

Definition sample_sheet : Sheet :=
  mkSheet "Album" "Band" [mkFile "album.wav" [mkTrack 1 "One" "" 0; mkTrack 2 "Two" "Guest" 4567]] "".
Definition no_windows1251 (_ : list Byte.byte) : option string := None.

Lemma sample_printable : printable sample_sheet.
Proof.
  split; [done|done|done| |done]. constructor; [|constructor].
  split; [done|]. split; [|done]. repeat constructor; by vm_compute.
Qed.


(** A sheet with comments and indented commands. *)
Definition sample_text : list Byte.byte :=
  list_byte_of_string (join_lines ["REM ripped"; "FILE disc.wav WAVE"; "  TRACK 01 AUDIO"; "    INDEX 01 00:00:00"; "  TRACK 02 AUDIO"; "    INDEX 01 04:05:06"]).
Definition sample_read : Sheet := mkSheet "" "" [mkFile "disc.wav" [mkTrack 1 "" "" 0; mkTrack 2 "" "" 18381]] "".

Lemma Parse_accepts_witness : growing [mkTrack 1 "" "" 0; mkTrack 2 "" "" 18381].
Proof.
  destruct (Parse_accepts no_windows1251 sample_text sample_read ltac:(vm_compute; reflexivity)) as [_ H].
  exact (proj1 (Forall_inv H)).
Defined.
