(* ===== verification/CueSplit.v ===== *)
(** * Cutting the tracks of a request (internal/library/cuesplit.go)

    [matchCueSheet] finds the cue sheet of an image among those of its torrent,
    [cutTrack] cuts a track at the frames its sheet and the next track name, and
    [cueSegments] cuts the tracks of a request, with one memo of boundaries per
    image.  The searches of one image read the torrent at different times: each has
    a reader of its own.

    [lower] and [upper] are [strings.ToLower] and [strings.ToUpper], whose Unicode
    tables are not modelled. *)

From Stdlib Require Import Ascii String.
From S2P Require Import Prelude GoFloat GoStrings Flac Cue.
Local Open Scope string_scope.
Local Open Scope Z_scope.
Local Open Scope go_scope.

(** ** Paths *)

Fixpoint map_char (f : ascii → ascii) (s : string) : string :=
  match s with "" => "" | String c s => String (f c) (map_char f s) end.

(** The last dot and what follows it. *)
Fixpoint from_dot (s : string) : option string :=
  match s with
  | "" => None
  | String c t => match from_dot t with
                  | Some e => Some e
                  | None => if Ascii.eqb c "." then Some s else None
                  end
  end.
(** [path.Ext] *)
Definition path_Ext (s : string) : string := default "" (from_dot (pathBase s)).

(** [path.Clean], on the components of a path. *)
Definition clean_step (rooted : bool) (acc : list string) (c : string) : list string :=
  if String.eqb c "" || String.eqb c "." then acc
  else if String.eqb c ".." then
    match acc with
    | [] => if rooted then [] else [".."]
    | x :: acc' => if String.eqb x ".." then ".." :: acc else acc'
    end
  else c :: acc.
Fixpoint join_slash (l : list string) : string :=
  match l with [] => "" | [x] => x | x :: l => x +:+ String "/" (join_slash l) end.
Definition path_Clean (s : string) : string :=
  let rooted := match s with String c _ => Ascii.eqb c "/" | "" => false end in
  let out := join_slash (rev (foldl (clean_step rooted) [] (split_char "/" s))) in
  if rooted then String "/" out else if String.eqb out "" then "." else out.
(** What precedes the last slash, and the slash. *)
Fixpoint dir_part (s : string) : string :=
  match s with "" => "" | String c t => if has_char "/" s then String c (dir_part t) else "" end.
Definition path_Dir (s : string) : string := path_Clean (dir_part s).

(** ** Requests *)

Record FileStat := mkStat { ID : Z; Path : string; Length : Z }.
Record AudioFileRequest := mkRequest {
  rq_source : string; rq_path : string; rq_id : string; rq_ns : string; CueTrack : Z; Tags : gmap string string
}.
Record ResolvedSource := mkSource { SourcePath : string; FileIndex : Z; SourceSize : Z }.
Record cueSegment := mkSegment { sg_offset : Z; sg_length : Z; sg_header : list Byte.byte }.
Record cueCatalog := mkCatalog { cc_sheets : list Sheet; cc_unread : bool }.

Definition segment_Size (s : cueSegment) : Z := len (sg_header s) +! sg_length s.

Inductive cut_error := CFlac (e : flac_error) | NoSuchTrack | NoFrame.
Inductive add_error := ErrCueSplit | ErrCueUnavailable.

(** Which failures are final. *)
Definition cutError (e : cut_error) : add_error :=
  match e with
  | CFlac ErrNotFLAC | CFlac ErrBoundaryNotFound | CFlac ErrHeaderTooLarge | NoSuchTrack => ErrCueSplit
  | CFlac ErrRead | NoFrame => ErrCueUnavailable
  end.

Section cuesplit.
Context (lower upper : string → string).

(** ** The sheet of an image *)

Definition baseName (name : string) : string :=
  lower (filepath_Base (map_char (λ c, if Ascii.eqb c "\" then "/"%char else c) name)).

Definition stem (name : string) : string :=
  String.substring 0 (String.length name - String.length (path_Ext name)) name.

Definition names_file (strip : bool) (want : string) (f : File) : bool :=
  let got := baseName (Name f) in
  String.eqb (if strip then stem got else got) (if strip then stem want else want) && negb (bool_decide (Tracks f = [])).

Definition FileFor (s : Sheet) (name : string) : option File :=
  let want := baseName name in
  match find (names_file false want) (Files s) with
  | Some f => Some f
  | None => find (names_file true want) (Files s)
  end.

Definition is_flac (p : string) : bool := String.eqb (ToLower (path_Ext p)) ".flac".

(** [sort.SliceStable] with sheets of the directory first keeps the order otherwise. *)
Definition own_first (dir : string) (sheets : list Sheet) : list Sheet :=
  (filter (λ s, Dir s = dir) sheets ++ filter (λ s, Dir s ≠ dir) sheets)%list.

Fixpoint first_match (image : string) (sheets : list Sheet) : option (Sheet * File) :=
  match sheets with
  | [] => None
  | s :: sheets => match FileFor s image with Some f => Some (s, f) | None => first_match image sheets end
  end.

(** The sheets of a directory that have one file, with tracks. *)
Definition lone (dir : string) (s : Sheet) : option (Sheet * File) :=
  if String.eqb (Dir s) dir then
    match Files s with [f] => if bool_decide (Tracks f = []) then None else Some (s, f) | _ => None end
  else None.

Definition matchCueSheet (sheets : list Sheet) (files : list FileStat) (image : string) : option (Sheet * File) :=
  let dir := path_Dir image in
  match first_match image (own_first dir sheets) with
  | Some m => Some m
  | None =>
      let images := filter (λ f, String.eqb (path_Dir (Path f)) dir && is_flac (Path f) = true) files in
      if negb (len images =? 1) then None
      else match omap (lone dir) sheets with [m] => Some m | _ => None end
  end.

Definition findCueSheet (cat : cueCatalog) (files : list FileStat) (image : string) : add_error + Sheet * File :=
  match matchCueSheet (cc_sheets cat) files image with
  | Some m => inr m
  | None => if cc_unread cat then inl ErrCueUnavailable else inl ErrCueSplit
  end.

(** ** One track *)

Definition trackTags (sheet : Sheet) (track : Track) (supplied : gmap string string) : list Tag :=
  if bool_decide (supplied = ∅) then
    let performer := if String.eqb (Performer track) "" then s_performer sheet else Performer track in
    filter (λ t, Value t ≠ "")
      [mkTag "TITLE" (Title track); mkTag "ARTIST" performer; mkTag "ALBUM" (s_title sheet);
       mkTag "TRACKNUMBER" (itoa (Number track))]
  else
    (λ k, mkTag (upper k) (default "" (supplied !! k))) <$>
      insertion_sort String.ltb (map_to_list supplied).*1.

(** The boundaries found so far, and the number of searches. *)
Definition memo : Type := gmap Z (Z * Z) * nat.

(** [memoBoundary] around a search; [None] is a panic of it. *)
Definition memoBoundary (search : nat → Z → option (flac_error + Z * Z)) (sample : Z) (m : memo)
    : option ((flac_error + Z * Z) * memo) :=
  match m.1 !! sample with
  | Some p => Some (inr p, m)
  | None =>
      r ← search m.2 sample;
      Some (match r with
            | inl e => (inl e, (m.1, S m.2))
            | inr p => (inr p, (<[sample := p]> m.1, S m.2))
            end)
  end.

Definition end_sample (im : Image) (rest : list Track) : Z :=
  match rest with [] => TotalSamples (Info im) | t :: _ => StartSample t (Rate (Info im)) end.

(** The track of a number and those after it. *)
Fixpoint tracks_from (number : Z) (ts : list Track) : option (Track * list Track) :=
  match ts with
  | [] => None
  | t :: ts => if Number t =? number then Some (t, ts) else tracks_from number ts
  end.

Definition cutTrack (im : Image) (search : nat → Z → option (flac_error + Z * Z)) (sheet : Sheet) (file : File)
    (req : AudioFileRequest) (m : memo) : option ((cut_error + cueSegment) * memo) :=
  match tracks_from (CueTrack req) (Tracks file) with
  | None => Some (inl NoSuchTrack, m)
  | Some (t, rest) =>
      '(r1, m) ← memoBoundary search (StartSample t (Rate (Info im))) m;
      match r1 with
      | inl e => Some (inl (CFlac e), m)
      | inr (startOff, startAt) =>
          '(r2, m) ← memoBoundary search (end_sample im rest) m;
          match r2 with
          | inl e => Some (inl (CFlac e), m)
          | inr (endOff, endAt) =>
              if (endOff <=? startOff) || (endAt <=? startAt) then Some (inl NoFrame, m)
              else match Header im (endAt -! startAt) (trackTags sheet t (Tags req)) with
                   | inl e => Some (inl (CFlac e), m)
                   | inr h => Some (inr (mkSegment startOff (endOff -! startOff) h), m)
                   end
          end
      end
  end.

(** ** The tracks of a request *)

Record image := mkCut { i_im : Image; i_memo : memo; i_sheet : Sheet; i_file : File }.

Context (cat : cueCatalog) (files : list FileStat).
(** How the file of an index is read when it is opened, and by each search. *)
Context (opening : Z → ReaderAt) (searching : Z → nat → ReaderAt).
Context `{GoRuntime}.

Definition image_search (index : Z) (im : Image) (n : nat) (sample : Z) : option (flac_error + Z * Z) :=
  Boundary im (searching index n) sample.

Definition open_image (src : ResolvedSource) : option (add_error + image) :=
  match findCueSheet cat files (SourcePath src) with
  | inl e => Some (inl e)
  | inr (sheet, file) =>
      r ← Open (opening (FileIndex src)) (SourceSize src);
      Some (match r with
            | inl e => inl (cutError (CFlac e))
            | inr im => inr (mkCut im (∅, 0%nat) sheet file)
            end)
  end.

Definition cut_state : Type := gmap Z image * list (nat * cueSegment).

(** One request: the image is opened once, its boundaries are shared. *)
Definition cut_one (i : nat) (req : AudioFileRequest) (src : ResolvedSource) (st : cut_state)
    : option (add_error + cut_state) :=
  if CueTrack req =? 0 then Some (inr st)
  else
    r ← match st.1 !! FileIndex src with Some img => Some (inr img) | None => open_image src end;
    match r with
    | inl e => Some (inl e)
    | inr img =>
        '(res, m) ← cutTrack (i_im img) (image_search (FileIndex src) (i_im img)) (i_sheet img) (i_file img) req (i_memo img);
        Some (match res with
              | inl e => inl (cutError e)
              | inr seg => inr (<[FileIndex src := mkCut (i_im img) m (i_sheet img) (i_file img)]> st.1,
                                (st.2 ++ [(i, seg)])%list)
              end)
    end.

Fixpoint cut_all (i : nat) (reqs : list (AudioFileRequest * ResolvedSource)) (st : cut_state)
    : option (add_error + cut_state) :=
  match reqs with
  | [] => Some (inr st)
  | (req, src) :: reqs =>
      r ← cut_one i req src st;
      match r with inl e => Some (inl e) | inr st => cut_all (S i) reqs st end
  end.

(** [cueSegments]: the segments by the index of their request. *)
Definition cueSegments (reqs : list (AudioFileRequest * ResolvedSource)) : option (add_error + list (nat * cueSegment)) :=
  r ← cut_all 0 reqs (∅, []);
  Some (match r with inl e => inl e | inr st => inr st.2 end).
End cuesplit.

(** ** Tracks that follow each other share their boundary *)

Lemma memoBoundary_spec search s m r m' :
  memoBoundary search s m = Some (r, m') →
  m.1 ⊆ m'.1 ∧ (∀ p, r = inr p → m'.1 !! s = Some p) ∧
  (∀ x p, m'.1 !! x = Some p → m.1 !! x = Some p ∨ ∃ n, search n x = Some (inr p)).
Proof.
  unfold memoBoundary. destruct (m.1 !! s) as [p|] eqn:E.
  { intros [= <- <-]. split_and!; [done|by intros ? [= <-]|by left]. }
  destruct (search m.2 s) as [[e|p]|] eqn:Es; simpl; [| |done]; intros [= <- <-]; simpl.
  - split_and!; [done|done|by left].
  - split_and!; [by apply insert_subseteq|intros ? [= <-]; by rewrite lookup_insert_eq|].
    intros x p' [[-> ->]|[_ Hx]]%lookup_insert_Some; [right; by exists m.2|by left].
Qed.

Section cuts.
Context (upper : string → string) (im : Image) (sheet : Sheet) (file : File).

(** What a segment is: the track of the request, cut at remembered boundaries. *)
Definition segment_of (found : gmap Z (Z * Z)) (req : AudioFileRequest) (seg : cueSegment) : Prop :=
  ∃ t rest endOff startAt endAt,
    tracks_from (CueTrack req) (Tracks file) = Some (t, rest) ∧
    found !! StartSample t (Rate (Info im)) = Some (sg_offset seg, startAt) ∧
    found !! end_sample im rest = Some (endOff, endAt) ∧
    sg_offset seg < endOff ∧ startAt < endAt ∧ sg_length seg = endOff -! sg_offset seg ∧
    Header im (endAt -! startAt) (trackTags upper sheet t (Tags req)) = inr (sg_header seg).

Lemma segment_of_mono found found' req seg : found ⊆ found' → segment_of found req seg → segment_of found' req seg.
Proof.
  intros Hs (t & rest & eo & sa & ea & H1 & H2 & H3 & H4). exists t, rest, eo, sa, ea.
  split_and!; try apply H4; [done|by eapply lookup_weaken|by eapply lookup_weaken].
Qed.

Lemma cutTrack_spec search req m res m' :
  cutTrack upper im search sheet file req m = Some (res, m') →
  m.1 ⊆ m'.1 ∧ (∀ x p, m'.1 !! x = Some p → m.1 !! x = Some p ∨ ∃ n, search n x = Some (inr p)) ∧
  (∀ seg, res = inr seg → segment_of m'.1 req seg).
Proof.
  unfold cutTrack. destruct (tracks_from _ _) as [[t rest]|] eqn:Et; [|intros [= <- <-]; split_and!; [done|by left|done]].
  destruct (memoBoundary search _ m) as [[r1 m1]|] eqn:E1; simpl; [|done].
  destruct (memoBoundary_spec _ _ _ _ _ E1) as (A1 & A2 & A3).
  destruct r1 as [e|[so sa]]; [intros [= <- <-]; by split_and!|].
  destruct (memoBoundary search _ m1) as [[r2 m2]|] eqn:E2; simpl; [|done].
  destruct (memoBoundary_spec _ _ _ _ _ E2) as (B1 & B2 & B3).
  assert (Hm : m.1 ⊆ m2.1) by (by etrans).
  assert (Hp : ∀ x p, m2.1 !! x = Some p → m.1 !! x = Some p ∨ ∃ n, search n x = Some (inr p)).
  { intros x p Hx. destruct (B3 x p Hx) as [Hy|Hy]; [by apply A3|by right]. }
  destruct r2 as [e|[eo ea]]; [intros [= <- <-]; by split_and!|].
  destruct (_ || _) eqn:Eb; [intros [= <- <-]; by split_and!|]. bool_simpl.
  destruct (Header _ _ _) as [e|h] eqn:Eh; intros [= <- <-]; [by split_and!|]. split_and!; [done|done|].
  intros seg [= <-]. exists t, rest, eo, sa, ea. simpl. split_and!; try done.
  - eapply lookup_weaken; [by apply A2|done].
  - by apply B2.
Qed.
End cuts.

Section segments.
Context (lower upper : string → string) (cat : cueCatalog) (files : list FileStat).
Context (opening : Z → ReaderAt) (searching : Z → nat → ReaderAt) `{GoRuntime}.
Context (reqs : list (AudioFileRequest * ResolvedSource)).

Local Abbreviation cut_all' := (cut_all lower upper cat files opening searching).
Local Abbreviation open_image' := (open_image lower cat files opening).

Definition image_inv (index : Z) (img : image) : Prop :=
  (∃ req src, (req, src) ∈ reqs ∧ FileIndex src = index ∧
     open_image' src = Some (inr (mkCut (i_im img) (∅, 0%nat) (i_sheet img) (i_file img)))) ∧
  ∀ x p, (i_memo img).1 !! x = Some p → ∃ n, image_search searching index (i_im img) n x = Some (inr p).

Definition cut_inv (st : cut_state) : Prop :=
  (∀ index img, st.1 !! index = Some img → image_inv index img) ∧
  ∀ i seg, (i, seg) ∈ st.2 → ∃ req src img, reqs !! i = Some (req, src) ∧ st.1 !! FileIndex src = Some img ∧
    segment_of upper (i_im img) (i_sheet img) (i_file img) (i_memo img).1 req seg.

Lemma cut_one_inv i req src st st' :
  reqs !! i = Some (req, src) → cut_inv st →
  cut_one lower upper cat files opening searching i req src st = Some (inr st') → cut_inv st'.
Proof.
  intros Hi [H1 H2]. unfold cut_one. destruct (CueTrack req =? 0); [by intros [= <-]|].
  set (found := match st.1 !! FileIndex src with Some img => Some (inr img) | None => open_image' src end).
  assert (Hf : ∀ img, found = Some (inr img) → image_inv (FileIndex src) img ∧
    (∀ old, st.1 !! FileIndex src = Some old → old = img)).
  { intros img E. unfold found in E. destruct (st.1 !! FileIndex src) as [old|] eqn:Eo.
    - injection E as ->. split; [by apply H1|by intros ? [= <-]].
    - split; [|done]. assert (Hm : i_memo img = (∅, 0%nat) ∧
        open_image' src = Some (inr (mkCut (i_im img) (∅, 0%nat) (i_sheet img) (i_file img)))).
      { rewrite E. unfold open_image in E. destruct (findCueSheet _ _ _ _) as [|[sh fl]]; [done|].
        destruct (Open _ _) as [[e|im]|]; simpl in E; [done| |done]. by injection E as <-. }
      destruct Hm as [Hm Ho]. split.
      + exists req, src. split; [by eapply list_elem_of_lookup_2|done].
      + intros x p. rewrite Hm. simpl. by rewrite lookup_empty. }
  destruct found as [[e|img]|]; simpl; [done| |done]. destruct (Hf img eq_refl) as [[Ho Hs] Hold].
  destruct (cutTrack _ _ _ _ _ _ _) as [[res m]|] eqn:Ec; simpl; [|done].
  destruct (cutTrack_spec _ _ _ _ _ _ _ _ _ Ec) as (C1 & C2 & C3).
  destruct res as [e|seg]; [done|]. intros [= <-]. set (img' := mkCut (i_im img) m (i_sheet img) (i_file img)). split; simpl.
  - intros index img2 [[<- <-]|[_ Hx]]%lookup_insert_Some; [|by apply H1]. split; [done|]. simpl.
    intros x p Hx. destruct (C2 x p Hx) as [Hy|Hy]; [by apply Hs|done].
  - intros j sj [Hj|Hj%list_elem_of_singleton]%elem_of_app.
    + destruct (H2 j sj Hj) as (rq & sr & im' & E1 & E2 & E3). destruct (decide (FileIndex sr = FileIndex src)) as [Eq|Hne].
      * rewrite Eq in E2. apply Hold in E2 as ->. exists rq, sr, img'. rewrite Eq, lookup_insert_eq. split_and!; try done.
        by eapply segment_of_mono.
      * exists rq, sr, im'. rewrite lookup_insert_ne by done. done.
    + injection Hj as -> ->. exists req, src, img'. rewrite lookup_insert_eq. split_and!; try done. by apply C3.
Qed.

Lemma cut_all_inv i rs st st' :
  (∀ k x, rs !! k = Some x → reqs !! (i + k)%nat = Some x) → cut_inv st →
  cut_all' i rs st = Some (inr st') → cut_inv st'.
Proof.
  revert i st. induction rs as [|[req src] rs IH]; intros i st Hr Hi; simpl; [by intros [= <-]|].
  destruct (cut_one _ _ _ _ _ _ i req src st) as [[e|st1]|] eqn:E; simpl; [done| |done]. apply IH.
  - intros k x Hk. rewrite <-(Hr (S k) x Hk). f_equal. lia.
  - eapply cut_one_inv; [|done|done]. rewrite <-(Hr 0%nat (req, src) eq_refl). f_equal. lia.
Qed.

Lemma cueSegments_inv segs :
  cueSegments lower upper cat files opening searching reqs = Some (inr segs) →
  ∃ images, cut_inv (images, segs).
Proof.
  unfold cueSegments. destruct (cut_all' 0 reqs (∅, [])) as [[e|[images out]]|] eqn:E; simpl; [done| |done].
  intros [= <-]. exists images. apply (cut_all_inv 0 reqs (∅, []) (images, out)); [done| |done].
  split; simpl; [intros index img; by rewrite lookup_empty|intros i seg Hi; by apply elem_of_nil in Hi].
Qed.
End segments.

Lemma tracks_from_split n ts t rest : tracks_from n ts = Some (t, rest) → ∃ l, ts = (l ++ t :: rest)%list.
Proof.
  induction ts as [|x ts IH]; simpl; [done|]. destruct (Number x =? n); [intros [= -> ->]; by exists []|].
  intros [l ->]%IH. by exists (x :: l).
Qed.

Lemma opened_rate im : opened im → 0 ≤ Rate (Info im).
Proof.
  intros Ho. rewrite (op_info im Ho). simpl. apply Z.shiftr_nonneg. apply (be_uint_range (take 8 (drop 10 (Raw (Info im))))).
Qed.

(** Starts in samples grow with starts in CD frames. *)
Lemma StartSample_mono t t' rate :
  0 ≤ rate → 0 ≤ Start t → Start t * rate ≤ 2 ^ 60 → Start t' * rate ≤ 2 ^ 60 → Start t < Start t' →
  StartSample t rate ≤ StartSample t' rate.
Proof.
  intros Hr H0 H1 H2 Hlt. unfold StartSample, FramesPerSecond. assert (Start t * rate ≤ Start t' * rate) by nia.
  rewrite (i64_id (Start t * rate)), (i64_id (Start t' * rate)) by (unfold in_i64; nia).
  assert (Hq : Z.quot (Start t * rate) 75 ≤ Z.quot (Start t' * rate) 75) by (apply quot_mono; nia).
  pose proof (quot_nonneg (Start t * rate) 75 ltac:(nia) ltac:(lia)). pose proof (quot_nonneg (Start t' * rate) 75 ltac:(nia) ltac:(lia)).
  rewrite !i64_id by (unfold in_i64; lia). done.
Qed.

Lemma sorted_next {A} (R : A → A → Prop) l x y l' : StronglySorted R (l ++ x :: y :: l')%list → R x y.
Proof.
  induction l as [|z l IH]; simpl; intros [Hs Hf]%StronglySorted_inv; [|by apply IH].
  rewrite list.Forall_cons in Hf. apply Hf.
Qed.

Lemma boundary_past im content fs : image_ok im content fs → ∀ s, TotalSamples (Info im) ≤ s →
  boundary_of im fs s = (Size im, TotalSamples (Info im)).
Proof.
  intros Hok s Hs. eapply boundary_none. intros x Hx. destruct (frame_range im content fs Hok x Hx) as (_ & _ & ? & _). lia.
Qed.

Section claims.
Context (lower upper : string → string) (cat : cueCatalog) (files : list FileStat).
Context (opening : Z → ReaderAt) (searching : Z → nat → ReaderAt) `{GoRuntime}.
Context (reqs : list (AudioFileRequest * ResolvedSource)) (segs : list (nat * cueSegment)).
Context (index : Z) (sheet : Sheet) (file : File) (content : list Byte.byte).

(** The requests for the image of the index: its sheet, its size, how it opens. *)
Record requests_ok : Prop := {
  rk_sheet : ∀ req src, (req, src) ∈ reqs → FileIndex src = index →
    findCueSheet lower cat files (SourcePath src) = inr (sheet, file) ∧ SourceSize src = len content;
  rk_open : faithful (opening index) content;
  rk_size : len content < 2 ^ 59
}.

Context (Hrk : requests_ok).
Context (Hcut : cueSegments lower upper cat files opening searching reqs = Some (inr segs)).

(** Every segment of the image is cut from it by the sheet at boundaries found in it. *)
Lemma segment_facts :
  ∃ found, ∀ i req src seg, reqs !! i = Some (req, src) → FileIndex src = index → (i, seg) ∈ segs →
    ∃ im, Open (opening index) (len content) = Some (inr im) ∧ opened im ∧ Size im = len content ∧
      0 ≤ AudioStart im < 2 ^ 61 ∧ segment_of upper im sheet file found req seg ∧
      ∀ x p, found !! x = Some p → ∃ n, Boundary im (searching index n) x = Some (inr p).
Proof.
  destruct (cueSegments_inv lower upper cat files opening searching reqs segs Hcut) as (images & Hi1 & Hi2). simpl in *.
  exists (match images !! index with Some img => (i_memo img).1 | None => ∅ end).
  intros i req src seg Hr Hx Hs. destruct (Hi2 i seg Hs) as (req' & src' & img & E1 & E2 & E3).
  rewrite Hr in E1. injection E1 as <- <-. rewrite Hx in E2. rewrite E2. destruct (Hi1 index img E2) as [(rq & sr & Hin & Hsr & Ho) Hm].
  destruct (rk_sheet Hrk rq sr Hin Hsr) as [Hsh Hsz]. unfold open_image in Ho. rewrite Hsh, Hsr, Hsz in Ho.
  destruct (Open_ends (opening index) content (len content) (rk_open Hrk)) as (res & Eo & Hres).
  { pose proof (len_nonneg content). pose proof (rk_size Hrk). lia. }
  rewrite Eo in Ho. simpl in Ho. destruct res as [e|im]; [done|]. injection Ho as Ei Es Ef.
  exists im. destruct Hres as (H1 & H2 & H3). rewrite <-Ei, <-Es, <-Ef in E3. unfold image_search in Hm. rewrite <-Ei in Hm.
  split_and!; try done; lia.
Qed.

(** C21: The segments of two tracks that follow each other in the sheet are adjacent:
    the second starts where the first ends, even when the search of a boundary would
    answer differently at another time. *)
Theorem cue_tracks_contiguous i j qi srci si qj srcj sj ti tj rest :
  reqs !! i = Some (qi, srci) → FileIndex srci = index → (i, si) ∈ segs →
  reqs !! j = Some (qj, srcj) → FileIndex srcj = index → (j, sj) ∈ segs →
  tracks_from (CueTrack qi) (Tracks file) = Some (ti, tj :: rest) →
  tracks_from (CueTrack qj) (Tracks file) = Some (tj, rest) →
  sg_offset sj = sg_offset si +! sg_length si.
Proof.
  intros Hi Hxi Hsi Hj Hxj Hsj Hti Htj. destruct segment_facts as [found Hf].
  destruct (Hf i qi srci si Hi Hxi Hsi) as (im & Eo & _ & Hsz & Hau & Ci & Hb).
  destruct (Hf j qj srcj sj Hj Hxj Hsj) as (im' & Eo' & _ & _ & _ & Cj & _). rewrite Eo in Eo'. injection Eo' as <-.
  destruct Ci as (t1 & r1 & e1 & a1 & b1 & T1 & S1 & E1 & _ & _ & L1 & _).
  destruct Cj as (t2 & r2 & e2 & a2 & b2 & T2 & S2 & _). rewrite Hti in T1. injection T1 as <- <-.
  rewrite Htj in T2. injection T2 as <- <-. simpl in E1. rewrite S2 in E1. injection E1 as <- <-.
  destruct (Hb _ _ S2) as [n Hn]. pose proof (rk_size Hrk). pose proof (len_nonneg content).
  assert (Hr : in_i64 (sg_offset sj)) by (eapply Boundary_range; [| |exact Hn]; unfold in_i64; lia).
  rewrite L1. unfold i64, wrap_s in *. change (2 ^ (64 - 1)) with 9223372036854775808.
  change (2 ^ 64) with 18446744073709551616. unfold in_i64 in Hr.
  set (x := sg_offset si) in *. set (y := sg_offset sj) in *.
  replace (x + ((y - x + 9223372036854775808) mod 18446744073709551616 - 9223372036854775808) + 9223372036854775808)
    with (x + (y - x + 9223372036854775808) mod 18446744073709551616) by lia.
  rewrite Z.add_mod_idemp_r by lia. rewrite Z.mod_small by lia. lia.
Qed.

End claims.

(** ** Sharing the image and its boundaries changes no answer *)

Section reference.
Context (lower upper : string → string) (cat : cueCatalog) (files : list FileStat).
Context (opening : Z → ReaderAt) (searching : Z → nat → ReaderAt) `{GoRuntime}.

(** The cut of a track by plain searches. *)
Definition cut_plain (im : Image) (search : Z → option (flac_error + Z * Z)) (sheet : Sheet) (file : File)
    (req : AudioFileRequest) : option (cut_error + cueSegment) :=
  match tracks_from (CueTrack req) (Tracks file) with
  | None => Some (inl NoSuchTrack)
  | Some (t, rest) =>
      r1 ← search (StartSample t (Rate (Info im)));
      match r1 with
      | inl e => Some (inl (CFlac e))
      | inr (startOff, startAt) =>
          r2 ← search (end_sample im rest);
          match r2 with
          | inl e => Some (inl (CFlac e))
          | inr (endOff, endAt) =>
              if (endOff <=? startOff) || (endAt <=? startAt) then Some (inl NoFrame)
              else match Header im (endAt -! startAt) (trackTags upper sheet t (Tags req)) with
                   | inl e => Some (inl (CFlac e))
                   | inr h => Some (inr (mkSegment startOff (endOff -! startOff) h))
                   end
          end
      end
  end.

(** A request on its own: the image is opened for it, nothing is remembered. *)
Definition cut_alone (req : AudioFileRequest) (src : ResolvedSource) : option (add_error + option cueSegment) :=
  if CueTrack req =? 0 then Some (inr None)
  else
    r ← open_image lower cat files opening src;
    match r with
    | inl e => Some (inl e)
    | inr img =>
        res ← cut_plain (i_im img) (image_search searching (FileIndex src) (i_im img) 0) (i_sheet img) (i_file img) req;
        Some (match res with inl e => inl (cutError e) | inr seg => inr (Some seg) end)
    end.

Fixpoint cut_each (i : nat) (reqs : list (AudioFileRequest * ResolvedSource))
    : option (add_error + list (nat * cueSegment)) :=
  match reqs with
  | [] => Some (inr [])
  | (req, src) :: reqs =>
      r ← cut_alone req src;
      match r with
      | inl e => Some (inl e)
      | inr seg =>
          rest ← cut_each (S i) reqs;
          Some (match rest with
                | inl e => inl e
                | inr l => inr (match seg with Some s => (i, s) :: l | None => l end)
                end)
      end
  end.

(** The remembered boundaries are those the search finds. *)
Definition sound (search : nat → Z → option (flac_error + Z * Z)) (m : memo) : Prop :=
  ∀ x p, m.1 !! x = Some p → search 0%nat x = Some (inr p).

Lemma memoBoundary_plain search s m :
  (∀ n x, search n x = search 0%nat x) → sound search m →
  match search 0%nat s with
  | None => memoBoundary search s m = None
  | Some r => ∃ m', memoBoundary search s m = Some (r, m') ∧ sound search m'
  end.
Proof.
  intros Hd Hm. unfold memoBoundary. destruct (m.1 !! s) as [p|] eqn:E; [rewrite (Hm s p E); by exists m|].
  rewrite (Hd m.2 s). destruct (search 0%nat s) as [[e|p]|] eqn:Es; simpl; [| |done]; (eexists; split; [done|]); [done|].
  intros x p'. simpl. intros [[-> ->]|[_ Hx]]%lookup_insert_Some; [done|by apply Hm].
Qed.

Lemma cutTrack_plain im search sheet file req m :
  (∀ n x, search n x = search 0%nat x) → sound search m →
  match cut_plain im (search 0%nat) sheet file req with
  | None => cutTrack upper im search sheet file req m = None
  | Some r => ∃ m', cutTrack upper im search sheet file req m = Some (r, m') ∧ sound search m'
  end.
Proof.
  intros Hd Hm. unfold cut_plain, cutTrack. destruct (tracks_from _ _) as [[t rest]|]; [|by exists m].
  pose proof (memoBoundary_plain search (StartSample t (Rate (Info im))) m Hd Hm) as H1.
  destruct (search 0%nat (StartSample _ _)) as [r1|]; [destruct H1 as (m1 & -> & Hm1)|by rewrite H1].
  simpl. destruct r1 as [e|[so sa]]; [by exists m1|].
  pose proof (memoBoundary_plain search (end_sample im rest) m1 Hd Hm1) as H2.
  destruct (search 0%nat (end_sample _ _)) as [r2|]; [destruct H2 as (m2 & -> & Hm2)|by rewrite H2].
  simpl. destruct r2 as [e|[eo ea]]; [by exists m2|]. destruct (_ || _); [by exists m2|].
  destruct (Header _ _ _); by exists m2.
Qed.

Context (Hdet : ∀ index n, searching index n = searching index 0%nat).

Definition shared (st : cut_state) (reqs : list (AudioFileRequest * ResolvedSource)) : Prop :=
  ∀ req src img, (req, src) ∈ reqs → st.1 !! FileIndex src = Some img →
    open_image lower cat files opening src = Some (inr (mkCut (i_im img) (∅, 0%nat) (i_sheet img) (i_file img))) ∧
    sound (image_search searching (FileIndex src) (i_im img)) (i_memo img).

Lemma search_det index im n x : image_search searching index im n x = image_search searching index im 0 x.
Proof. unfold image_search. by rewrite Hdet. Qed.

(** One request on a state whose images are as they open. *)
Lemma cut_one_alone i req src reqs st :
  (∀ req' src', (req', src') ∈ reqs → FileIndex src' = FileIndex src → src' = src) →
  shared st ((req, src) :: reqs) →
  match cut_alone req src with
  | None => cut_one lower upper cat files opening searching i req src st = None
  | Some (inl e) => cut_one lower upper cat files opening searching i req src st = Some (inl e)
  | Some (inr seg) => ∃ st', cut_one lower upper cat files opening searching i req src st = Some (inr st') ∧
      st'.2 = (st.2 ++ match seg with Some s => [(i, s)] | None => [] end)%list ∧ shared st' reqs
  end.
Proof.
  intros Hu Hs. unfold cut_alone, cut_one.
  destruct (CueTrack req =? 0).
  { exists st. split; [done|]. split; [by rewrite app_nil_r|]. intros rq sr img Hin. apply (Hs rq). by right. }
  assert (Hopen : match open_image lower cat files opening src with
    | Some (inr img) => ∃ m, sound (image_search searching (FileIndex src) (i_im img)) m ∧ i_memo img = (∅, 0%nat) ∧
        match st.1 !! FileIndex src with Some img => Some (inr img) | None => open_image lower cat files opening src end =
        Some (inr (mkCut (i_im img) m (i_sheet img) (i_file img)))
    | o => match st.1 !! FileIndex src with Some img => Some (inr img) | None => open_image lower cat files opening src end = o
    end).
  { destruct (st.1 !! FileIndex src) as [img|] eqn:E.
    - destruct (Hs req src img (list_elem_of_here _ _) E) as [-> Hm]. exists (i_memo img). split_and!; [done|done|by destruct img].
    - unfold open_image. destruct (findCueSheet _ _ _ _) as [e|[sh fl]]; [done|].
      destruct (Open _ _) as [[e|im]|]; simpl; [done| |done]. exists (∅, 0%nat). split_and!; [|done|done].
      intros x p. simpl. by rewrite lookup_empty. }
  destruct (open_image lower cat files opening src) as [[e|img]|] eqn:Eo; [by rewrite Hopen| |by rewrite Hopen].
  destruct Hopen as (m & Hm & Hi & Hl). rewrite Hl. cbn [mbind option_bind i_im i_memo i_sheet i_file].
  pose proof (cutTrack_plain (i_im img) (image_search searching (FileIndex src) (i_im img)) (i_sheet img) (i_file img) req m
    (search_det _ _) Hm) as Hc.
  destruct (cut_plain _ _ _ _ _) as [[e|seg]|]; cbn [mbind option_bind];
    [destruct Hc as (m' & -> & _); done|destruct Hc as (m' & -> & Hm')|by rewrite Hc].
  cbn [mbind option_bind]. eexists. split; [done|]. split; [done|]. intros rq sr im' Hin. simpl.
  intros [[Ex <-]|[_ Hx]]%lookup_insert_Some; [|apply (Hs rq); [by right|done]].
  rewrite (Hu rq sr Hin) by done. simpl. split; [|done]. rewrite Eo. destruct img. simpl in *. by rewrite Hi.
Qed.

Lemma cut_all_each i reqs st :
  (∀ a b, a ∈ reqs → b ∈ reqs → FileIndex a.2 = FileIndex b.2 → a.2 = b.2) → shared st reqs →
  (r ← cut_all lower upper cat files opening searching i reqs st;
   Some (match r with inl e => inl e | inr st => inr st.2 end)) =
  (r ← cut_each i reqs; Some (match r with inl e => inl e | inr l => inr (st.2 ++ l)%list end)).
Proof.
  revert i st. induction reqs as [|[req src] reqs IH]; intros i st Hu Hs; [simpl; by rewrite app_nil_r|].
  cbn [cut_all cut_each]. pose proof (cut_one_alone i req src reqs st) as Hc.
  destruct (cut_alone req src) as [[e|seg]|];
    [rewrite Hc; [done| |done]|destruct Hc as (st' & -> & E2 & Hs'); [|done|]|rewrite Hc; [done| |done]].
  1-2,4: intros rq sr Hin Hx; apply (Hu (rq, sr) (req, src)); [by right|by left|done].
  cbn [mbind option_bind]. rewrite IH; [|intros a b Ha Hb; apply Hu; by right|done].
  destruct (cut_each (S i) reqs) as [[e|l]|]; [done| |done]. cbn [mbind option_bind]. rewrite E2. destruct seg as [s|].
  - by rewrite <-app_assoc.
  - by rewrite app_nil_r.
Qed.

End reference.

(** ** A sample album *)

Module SampleAlbum.
Definition first_track : Track := mkTrack 1 "One" "" 0.
Definition second_track : Track := mkTrack 2 "Two" "" 8.
Definition album_file : File := mkFile "album.wav" [first_track; second_track].
Definition album_sheet : Sheet := mkSheet "Album" "Band" [album_file] "disc".
Definition catalog : cueCatalog := mkCatalog [album_sheet] false.
Definition content : list Byte.byte := sample_content loud.
Definition disc : ResolvedSource := mkSource "disc/album.flac" 7 (len content).
Definition disc_files : list FileStat := [mkStat 7 "disc/album.flac" (len content)].
Definition want (k : Z) : AudioFileRequest * ResolvedSource := (mkRequest "disc/album.flac" "out" "" "" k ∅, disc).
Definition requests : list (AudioFileRequest * ResolvedSource) := [want 1; want 2].
Definition same (s : string) : string := s.
Definition album_opening : Z → ReaderAt := λ _, bytes_reader content.
Definition album_searching : Z → nat → ReaderAt := λ _ _, bytes_reader content.
Definition album_cut : option (add_error + list (nat * cueSegment)) :=
  cueSegments same same catalog disc_files album_opening album_searching requests.
Definition segments : list (nat * cueSegment) := Eval vm_compute in match album_cut with Some (inr l) => l | _ => [] end.
Definition segment (k : nat) : cueSegment := match segments !! k with Some (_, s) => s | None => mkSegment 0 0 [] end.

Lemma album_ok : requests_ok same catalog disc_files album_opening requests 7 album_sheet album_file content.
Proof.
  split; [|apply bytes_reader_faithful|by vm_compute].
  intros req src Hin Hx. unfold requests, want in Hin. rewrite !elem_of_cons in Hin.
  destruct Hin as [[= -> ->]|[[= -> ->]|[]%elem_of_nil]]; by vm_compute.
Qed.

Lemma album_segments :
  cueSegments same same catalog disc_files album_opening album_searching requests = Some (inr segments).
Proof. by vm_compute. Qed.

Lemma in_segments : (0%nat, segment 0) ∈ segments ∧ (1%nat, segment 1) ∈ segments.
Proof. split; [left|right; left]. Qed.

(** The cut tracks: a header each, and adjacent runs of frames. *)
Example album_ranges :
  (λ p : nat * cueSegment, (p.1, sg_offset p.2, sg_length p.2)) <$> segments = [(0%nat, 42, 40); (1%nat, 82, 46)].
Proof. by vm_compute. Qed.

(** The shared boundary of the two sample tracks. *)
Lemma cue_tracks_contiguous_witness : sg_offset (segment 1) = sg_offset (segment 0) +! sg_length (segment 0).
Proof.
  destruct in_segments as [H0 H1].
  exact (cue_tracks_contiguous same same catalog disc_files album_opening album_searching requests segments 7 album_sheet
    album_file content album_ok album_segments 0 1 (want 1).1 disc (segment 0) (want 2).1 disc (segment 1)
    first_track second_track [] eq_refl eq_refl H0 eq_refl eq_refl H1 eq_refl eq_refl).
Defined.



(** A track that starts inside the last frame holds no frame, on every attempt, and yet
    its failure is the one callers may retry. *)
Lemma empty_track_retried :
  let late := mkFile "album.wav" [first_track; mkTrack 2 "Two" "" 22] in
  let sheet := mkSheet "Album" "Band" [late] "disc" in
  cueSegments same same (mkCatalog [sheet] false) disc_files album_opening album_searching [want 2] =
  Some (inl ErrCueUnavailable).
Proof. by vm_compute. Qed.
End SampleAlbum.
