(* ===== verification/Paths.v ===== *)
(** * Names and sources of projections (internal/library/pathvalidation.go, audio.go,
    sourceresolve.go, containment.go)

    [validatePathSyntax] decides which destination paths a caller may name,
    [SafeComponent] and [KeepComponent] make accepted components of titles and of the
    names of a torrent, [ResolveSources] binds the source paths of a request to the
    files of its torrent.

    Unicode normalization is golang.org/x/text and the case tables are Go's: [nfc],
    [fold] and [upper] are arguments, and what the code relies on is stated in
    [Normalization].  A string is its bytes; runes are decoded as [range] does, an
    invalid byte being U+FFFD. *)

From Stdlib Require Import Ascii String.
From S2P Require Import Prelude GoFloat GoStrings Flac Cue CueSplit.
Local Open Scope string_scope.
Local Open Scope Z_scope.
Local Open Scope go_scope.

(** ** Runes *)

Definition RuneError : Z := 65533.

(** A rune and the number of its bytes at the front of a text. *)
Definition decode_rune (l : list Z) : Z * nat :=
  match l with
  | [] => (RuneError, 0%nat)
  | a :: t =>
      if a <? 128 then (a, 1%nat)
      else match t with
           | b :: t1 =>
               if (194 <=? a) && (a <=? 223) then
                 if cont b then ((a - 192) * 64 + (b - 128), 2%nat) else (RuneError, 1%nat)
               else match t1 with
                    | c :: t2 =>
                        if (224 <=? a) && (a <=? 239) then
                          if (if a =? 224 then (160 <=? b) && (b <=? 191)
                              else if a =? 237 then (128 <=? b) && (b <=? 159) else cont b) && cont c
                          then ((a - 224) * 4096 + (b - 128) * 64 + (c - 128), 3%nat) else (RuneError, 1%nat)
                        else match t2 with
                             | d :: _ =>
                                 if ((240 <=? a) && (a <=? 244)) &&
                                    (if a =? 240 then (144 <=? b) && (b <=? 191)
                                     else if a =? 244 then (128 <=? b) && (b <=? 143) else cont b) && cont c && cont d
                                 then ((a - 240) * 262144 + (b - 128) * 4096 + (c - 128) * 64 + (d - 128), 4%nat)
                                 else (RuneError, 1%nat)
                             | [] => (RuneError, 1%nat)
                             end
                    | [] => (RuneError, 1%nat)
                    end
           | [] => (RuneError, 1%nat)
           end
  end.

(** The runes of a text; a rune takes a byte at least. *)
Fixpoint runes (fuel : nat) (l : list Z) : list Z :=
  match fuel, l with
  | S fuel, _ :: _ => let '(r, n) := decode_rune l in r :: runes fuel (drop n l)
  | _, _ => []
  end.

(** [utf8.AppendRune] *)
Definition encode_rune (r : Z) : list Z :=
  if r <? 128 then [r]
  else if r <? 2048 then [192 + r / 64; 128 + r mod 64]
  else if r <? 65536 then [224 + r / 4096; 128 + r / 64 mod 64; 128 + r mod 64]
  else [240 + r / 262144; 128 + r / 4096 mod 64; 128 + r / 64 mod 64; 128 + r mod 64].

Definition bytes_of (s : string) : list Z := code <$> list_ascii_of_string s.
Definition text_of (l : list Z) : string := string_of_list_ascii ((λ z, ascii_of_N (Z.to_N z)) <$> l).
Definition runes_of (s : string) : list Z := runes (String.length s) (bytes_of s).
Definition valid_utf8 (s : string) : bool := utf8_valid (String.length s) (bytes_of s).

(** ** Text *)

Definition HasPrefix_char (c : ascii) (s : string) : bool := match s with String d _ => Ascii.eqb c d | "" => false end.
Definition HasSuffix_char (c : ascii) (s : string) : bool :=
  match rev (list_ascii_of_string s) with d :: _ => Ascii.eqb c d | [] => false end.
(** [strings.TrimRight] of the characters that satisfy the predicate. *)
Fixpoint trim_right_by (p : ascii → bool) (s : string) : string :=
  match s with
  | "" => ""
  | String c t => match trim_right_by p t with
                  | "" => if p c then "" else String c ""
                  | t' => String c t'
                  end
  end.
(** [strings.Cut] at the first dot: what is before it. *)
Definition before_dot (s : string) : string := (break_at (λ c, Ascii.eqb c ".") s).1.

(** [strings.Fields] *)
Fixpoint fields (fuel : nat) (l cur : list ascii) : list (list ascii) :=
  let emit := match cur with [] => [] | _ => [rev cur] end in
  match fuel, l with
  | S fuel, c :: t =>
      match space_prefix (code <$> take 3 l) with
      | O => fields fuel t (c :: cur)
      | k => (emit ++ fields fuel (drop k l) [])%list
      end
  | _, _ => emit
  end.
Definition Fields (s : string) : list string :=
  string_of_list_ascii <$> fields (String.length s) (list_ascii_of_string s) [].
Fixpoint join_space (l : list string) : string :=
  match l with [] => "" | [x] => x | x :: l => x +:+ String " " (join_space l) end.

(** ** Rules *)

Definition maxPathComponents : Z := 16.
Definition maxComponentBytes : Z := 255.
Definition maxPathBytes : Z := 4096.

(** The characters of [forbiddenPathChars]: backslash, colon, star, question mark,
    quote, less, greater and bar. *)
Definition forbiddenPathChars : list Z := [92; 58; 42; 63; 34; 60; 62; 124].
Definition reservedDeviceNames : list string :=
  ["CON"; "PRN"; "AUX"; "NUL"; "COM1"; "COM2"; "COM3"; "COM4"; "COM5"; "COM6"; "COM7"; "COM8"; "COM9";
   "LPT1"; "LPT2"; "LPT3"; "LPT4"; "LPT5"; "LPT6"; "LPT7"; "LPT8"; "LPT9"].

Definition control_rune (r : Z) : bool := (r <=? 31) || ((128 <=? r) && (r <=? 159)).
Definition forbidden_rune (r : Z) : bool := existsb (Z.eqb r) forbiddenPathChars.
Definition rune_ok (r : Z) : bool := negb (control_rune r || forbidden_rune r).
Definition slen (s : string) : Z := Z.of_nat (String.length s).

Section rules.
Context (upper : string → string).

Definition reserved (stem : string) : bool := existsb (String.eqb (upper stem)) reservedDeviceNames.

(** [validatePathComponent]: no error. *)
Definition validatePathComponent (component : string) : bool :=
  negb (String.eqb component "") && (slen component <=? maxComponentBytes)
  && negb (String.eqb component "." || String.eqb component "..")
  && negb (HasPrefix_char "." component)
  && negb (HasSuffix_char "." component || HasSuffix_char " " component)
  && forallb rune_ok (runes_of component)
  && negb (reserved (before_dot component)).

Context (nfc fold : string → string).

(** [norm.NFC.IsNormalString] *)
Definition is_nfc (s : string) : bool := String.eqb (nfc s) s.

Definition validatePathSyntax (virtualPath : string) : bool :=
  valid_utf8 virtualPath && (slen virtualPath <=? maxPathBytes) && is_nfc virtualPath
  && (len (split_char "/" virtualPath) <=? maxPathComponents)
  && forallb validatePathComponent (split_char "/" virtualPath).

(** [checkRel] of containment.go: no error. *)
Definition checkRel (rel : string) : bool :=
  negb (String.eqb rel "" || HasPrefix_char "/" rel)
  && forallb (λ part, negb (String.eqb part "" || String.eqb part "." || String.eqb part "..")) (split_char "/" rel).

(** [PortablePathKey] *)
Definition PortablePathKey (virtualPath : string) : string :=
  join_slash ((λ part, nfc (fold (nfc part))) <$> split_char "/" virtualPath).

(** ** Components made of titles *)

Definition clean_rune (r : Z) : list Z :=
  if r =? 58 then [32; 45]
  else if (r =? 47) || (r =? 92) then [45]
  else if control_rune r || forbidden_rune r then []
  else encode_rune r.
Definition cleanRunes (name : string) : string :=
  nfc (text_of (concat (clean_rune <$> runes_of (nfc name)))).

Definition trim (suffix s : string) : string :=
  let s := trim_left_by (λ c, Ascii.eqb c ".") s in
  if String.eqb suffix "" then trim_right_by (λ c, Ascii.eqb c "." || Ascii.eqb c " ") s else s.

Definition RuneStart (c : ascii) : bool := negb (cont (code c)).
(** From a place back to the start of a rune. *)
Fixpoint cut_back (s : string) (cut : nat) : nat :=
  match cut with
  | O => O
  | S n => match String.get cut s with Some c => if RuneStart c then cut else cut_back s n | None => cut_back s n end
  end.

(** Shortening to the limit; [None] when the turns do not suffice. *)
Fixpoint shorten (fuel : nat) (suffix : string) (limit : nat) (out : string) : option string :=
  if (String.length out <=? limit)%nat then Some out
  else match fuel with
       | O => None
       | S fuel => shorten fuel suffix limit (trim suffix (nfc (String.substring 0 (cut_back out limit) out)))
       end.

Definition mark_reserved (suffix out : string) : string :=
  let stem := before_dot (out +:+ suffix) in
  if reserved stem && (String.length stem <=? String.length out)%nat
  then String.substring 0 (String.length stem) out +:+
       String "_" (String.substring (String.length stem) (String.length out - String.length stem) out)
  else out.

Definition fitComponent (out suffix : string) : option string :=
  let out := mark_reserved suffix (trim suffix out) in
  shorten (String.length out) suffix (Z.to_nat (Z.max (maxComponentBytes - slen suffix) 0)) out.

Definition SafeComponent (name : string) : option string :=
  out ← fitComponent (join_space (Fields (cleanRunes name))) "";
  Some (if String.eqb out "" then "Untitled" else out).

Definition KeepComponent (name suffix : string) : option string :=
  out ← fitComponent (cleanRunes name) suffix;
  Some ((if String.eqb out "" && negb (String.eqb name "") then "Untitled" else out) +:+ suffix).
End rules.

(** A name that truncation turns into a device name. *)
Definition long_con : string := "CON" +:+ text_of (concat (replicate 130 [32; 46])) +:+ " x".
Lemma truncation_exposes_reserved :
  SafeComponent (λ s, s) (λ s, s) long_con = Some "CON" ∧ validatePathComponent (λ s, s) "CON" = false.
Proof. by vm_compute. Qed.

(** ** Runes at the level of bytes *)

Definition byte_ok (a : Z) : bool := (128 <=? a) || rune_ok a.
(** No control or forbidden byte, and no encoding of U+0080 to U+009F. *)
Fixpoint plain_bytes (l : list Z) : bool :=
  match l with
  | [] => true
  | a :: t => byte_ok a && negb ((a =? 194) && match t with b :: _ => (128 <=? b) && (b <=? 159) | [] => false end)
              && plain_bytes t
  end.

Lemma rune_ok_high r : 160 ≤ r → rune_ok r = true.
Proof.
  intros Hr. unfold rune_ok, control_rune, forbidden_rune. simpl.
  rewrite (proj2 (Z.leb_gt r 31)), (proj2 (Z.leb_gt r 159)) by lia. rewrite andb_false_r. simpl.
  repeat (rewrite (proj2 (Z.eqb_neq r _)) by lia; simpl). done.
Qed.

Lemma rune_ok_c1 r : 128 ≤ r → rune_ok r = negb (r <=? 159).
Proof.
  intros Hr. destruct (Z.leb_spec r 159); [|apply rune_ok_high; lia].
  unfold rune_ok, control_rune. rewrite (proj2 (Z.leb_le 128 r)), (proj2 (Z.leb_le r 159)) by lia.
  by rewrite orb_true_r.
Qed.

Lemma plain_cont b t : cont b = true → plain_bytes (b :: t) = plain_bytes t.
Proof.
  unfold cont. intros [H1 H2]%andb_true_iff. apply Z.leb_le in H1, H2. simpl. unfold byte_ok.
  rewrite (proj2 (Z.leb_le 128 b)), (proj2 (Z.eqb_neq b 194)) by lia. done.
Qed.

Lemma plain_lead a b t : 128 ≤ a → cont b = false ∨ a ≠ 194 → plain_bytes (a :: b :: t) = plain_bytes (b :: t).
Proof.
  intros Ha Hb. change (plain_bytes (a :: b :: t)) with
    (byte_ok a && negb ((a =? 194) && ((128 <=? b) && (b <=? 159))) && plain_bytes (b :: t)).
  unfold byte_ok. rewrite (proj2 (Z.leb_le 128 a)) by lia. cbn [orb andb].
  replace ((a =? 194) && ((128 <=? b) && (b <=? 159))) with false; [done|]. symmetry. unfold cont in Hb. lia.
Qed.


(** A text has a bad rune exactly when its bytes show one. *)
Lemma runes_plain fuel l : (length l ≤ fuel)%nat → forallb rune_ok (runes fuel l) = plain_bytes l.
Proof.
  revert l. induction fuel as [|fuel IH]; intros [|a t] Hl; simpl in Hl; [done|lia|done|].
  assert (Herr : ∀ t', (length t' ≤ fuel)%nat → 128 ≤ a → plain_bytes (a :: t') = plain_bytes t' →
    forallb rune_ok (RuneError :: runes fuel (drop 1 (a :: t'))) = plain_bytes (a :: t')).
  { intros t' Ht' Ha ->. simpl. rewrite IH by done. by destruct t'. }
  cbn [runes]. unfold decode_rune. destruct (Z.ltb_spec a 128) as [Ha|Ha].
  { cbn [forallb skipn]; rewrite ?drop_0. rewrite IH by lia. simpl. unfold byte_ok. rewrite (proj2 (Z.leb_gt 128 a)) by lia.
    rewrite (proj2 (Z.eqb_neq a 194)) by lia. simpl. by rewrite andb_true_r. }
  destruct t as [|b t1]; [apply Herr; [simpl; lia|done|]; simpl; unfold byte_ok; by rewrite (proj2 (Z.leb_le 128 a)), andb_false_r by lia|].
  simpl in Hl. destruct ((194 <=? a) && (a <=? 223)) eqn:E2.
  { destruct (cont b) eqn:Eb; [|apply Herr; [simpl; lia|done|apply plain_lead; auto]].
    cbn [forallb skipn]; rewrite ?drop_0. rewrite IH by (simpl; lia). assert (Hb := Eb). unfold cont in Hb.
    rewrite rune_ok_c1 by lia. change (plain_bytes (a :: b :: t1)) with
      (byte_ok a && negb ((a =? 194) && ((128 <=? b) && (b <=? 159))) && plain_bytes (b :: t1)).
    rewrite plain_cont by done. f_equal. unfold byte_ok. rewrite (proj2 (Z.leb_le 128 a)) by lia. cbn [orb andb].
    f_equal. destruct (Z.eqb_spec a 194); lia. }
  assert (Hn : a ≠ 194) by lia. destruct t1 as [|c t2]; [apply Herr; [simpl; lia|done|apply plain_lead; auto]|].
  simpl in Hl. destruct ((224 <=? a) && (a <=? 239)) eqn:E3.
  { match goal with |- context [if ?x && cont c then _ else _] => destruct x eqn:Eb end;
      [|apply Herr; [simpl; lia|done|apply plain_lead; auto]].
    destruct (cont c) eqn:Ec; [|apply Herr; [simpl; lia|done|apply plain_lead; auto]].
    assert (Hb : cont b = true ∧ 160 ≤ (a - 224) * 4096 + (b - 128) * 64 + (c - 128)).
    { unfold cont in *. destruct (a =? 224) eqn:?, (a =? 237) eqn:?; lia. }
    cbn [andb forallb skipn]; rewrite ?drop_0. rewrite IH by (simpl; lia). rewrite rune_ok_high by lia.
    rewrite plain_lead by (auto; lia). by rewrite !plain_cont by (apply Hb || done). }
  destruct t2 as [|d t3]; [apply Herr; [simpl; lia|done|apply plain_lead; auto]|]. simpl in Hl.
  match goal with |- context [if ?x && cont c && cont d then _ else _] => destruct x eqn:Eb end;
    [|apply Herr; [simpl; lia|done|apply plain_lead; auto]].
  destruct (cont c) eqn:Ec; [|apply Herr; [simpl; lia|done|apply plain_lead; auto]].
  destruct (cont d) eqn:Ed; [|apply Herr; [simpl; lia|done|apply plain_lead; auto]].
  assert (Hb : cont b = true ∧ 160 ≤ (a - 240) * 262144 + (b - 128) * 4096 + (c - 128) * 64 + (d - 128)).
  { unfold cont in *. destruct (a =? 240) eqn:?, (a =? 244) eqn:?; lia. }
  cbn [andb forallb skipn]; rewrite ?drop_0. rewrite IH by (simpl; lia). rewrite rune_ok_high by lia.
  rewrite plain_lead by (auto; lia). by rewrite !plain_cont by (apply Hb || done).
Qed.

(** ** What the code relies on of Unicode normalization and upper-casing *)

Definition ascii_text (s : string) : bool := all_chars (λ c, code c <? 128) s.

Class Normalization (upper nfc : string → string) : Prop := {
  nfc_idem s : nfc (nfc s) = nfc s;
  (** Normal forms are closed under substrings. *)
  nfc_sub a b : nfc (a +:+ b) = a +:+ b → nfc a = a ∧ nfc b = b;
  (** A space and an underscore compose with nothing. *)
  nfc_around c a b : c = " "%char ∨ c = "_"%char → nfc a = a → nfc b = b → nfc (a +:+ String c b) = a +:+ String c b;
  (** Composition yields no control and no forbidden character. *)
  nfc_plain s : forallb rune_ok (runes_of s) = true → forallb rune_ok (runes_of (nfc s)) = true;
  nfc_ascii s : ascii_text s = true → nfc s = s;
  upper_ascii s : ascii_text s = true → upper s = map_char upper_char s;
  upper_around a b : upper (a +:+ String "_" b) = upper a +:+ String "_" (upper b)
}.

(** ** Pieces of a text *)

Definition plain (s : string) : bool := plain_bytes (bytes_of s).

Lemma bytes_app a b : bytes_of (a +:+ b) = (bytes_of a ++ bytes_of b)%list.
Proof. unfold bytes_of. by rewrite list_ascii_app, fmap_app. Qed.

Lemma bytes_length s : length (bytes_of s) = String.length s.
Proof. unfold bytes_of. rewrite length_fmap. by induction s; simpl; f_equal. Qed.

Lemma runes_of_plain s : forallb rune_ok (runes_of s) = plain s.
Proof. apply runes_plain. by rewrite bytes_length. Qed.

Lemma plain_bytes_tail l1 l2 : plain_bytes (l1 ++ l2) = true → plain_bytes l1 = true ∧ plain_bytes l2 = true.
Proof.
  induction l1 as [|a l1 IH]; [done|]. cbn [app plain_bytes]. intros [[H1 H2]%andb_true_iff H3]%andb_true_iff.
  destruct (IH H3) as [H4 H5]. split; [|done]. rewrite H1, H4. destruct l1 as [|b l1]; simpl in H2 |- *; [by rewrite andb_false_r|by rewrite H2].
Qed.

Lemma plain_bytes_app l1 l2 :
  plain_bytes l1 = true → plain_bytes l2 = true → list.last l1 ≠ Some 194 ∨ match l2 with b :: _ => b < 128 | [] => True end →
  plain_bytes (l1 ++ l2) = true.
Proof.
  intros H1 H2 Hb. induction l1 as [|a l1 IH]; [done|]. cbn [app plain_bytes] in H1 |- *.
  apply andb_true_iff in H1 as [[Ha Hp]%andb_true_iff Hr]. rewrite Ha. destruct l1 as [|b l1].
  - simpl. rewrite H2, andb_true_r. destruct l2 as [|b l2]; [by rewrite andb_false_r|].
    destruct (Z.eqb_spec a 194) as [->|]; [|done]. destruct Hb as [Hb|Hb]; [done|].
    by rewrite (proj2 (Z.leb_gt 128 b)) by lia.
  - simpl in Hp |- *. rewrite Hp. apply IH; [done|]. destruct Hb as [Hb|Hb]; [left|by right]. simpl in Hb |- *. done.
Qed.

Lemma plain_app a b : plain (a +:+ b) = true → plain a = true ∧ plain b = true.
Proof. unfold plain. rewrite bytes_app. apply plain_bytes_tail. Qed.

Lemma code_range c : 0 ≤ code c < 256.
Proof. unfold code. pose proof (N_ascii_bounded c). lia. Qed.

Lemma plain_join a c b : plain a = true → plain b = true → code c < 128 → rune_ok (code c) = true → plain (a +:+ String c b) = true.
Proof.
  intros Ha Hb Hc Hr. unfold plain in *. rewrite bytes_app. apply plain_bytes_app; [done| |by right]. simpl.
  unfold byte_ok. rewrite Hr, orb_true_r, (proj2 (Z.eqb_neq (code c) 194)) by lia. done.
Qed.

Lemma trim_left_split p s : ∃ a, s = a +:+ trim_left_by p s.
Proof.
  induction s as [|c s [a IH]]; [by exists ""|]. simpl. destruct (p c); [|by exists ""].
  exists (String c a). change (String c a +:+ ?t) with (String c (a +:+ t)). by rewrite <-IH.
Qed.

Lemma trim_left_head p s : match trim_left_by p s with String c _ => p c = false | "" => True end.
Proof. induction s as [|c s IH]; [done|]. simpl. destruct (p c) eqn:E; [done|]. by simpl. Qed.

Lemma trim_right_split p s : ∃ b, s = trim_right_by p s +:+ b.
Proof.
  induction s as [|c s [b IH]]; [by exists ""|]. simpl. destruct (trim_right_by p s) as [|d t] eqn:E.
  - destruct (p c); [by exists (String c s)|]. exists s. done.
  - exists b. rewrite IH at 1. done.
Qed.

Lemma suffix_app c a b : HasSuffix_char c (a +:+ b) = if String.eqb b "" then HasSuffix_char c a else HasSuffix_char c b.
Proof.
  unfold HasSuffix_char. rewrite list_ascii_app, rev_app_distr. destruct b as [|d b]; [done|]. simpl.
  by destruct (rev (list_ascii_of_string b)).
Qed.

Lemma trim_right_end p s c : p c = true → HasSuffix_char c (trim_right_by p s) = false.
Proof.
  intros Hc. induction s as [|d s IH]; [done|]. simpl. destruct (trim_right_by p s) as [|e t] eqn:E.
  - destruct (p d) eqn:Ed; [done|]. unfold HasSuffix_char. simpl. destruct (Ascii.eqb_spec c d); [congruence|done].
  - change (String d (String e t)) with (String d "" +:+ String e t). rewrite suffix_app. done.
Qed.

Lemma substring_split n s : s = String.substring 0 n s +:+ String.substring n (String.length s - n) s.
Proof.
  revert n. induction s as [|c s IH]; intros [|n]; simpl; try done.
  - change ("" +:+ ?t) with t. f_equal. clear IH. induction s as [|d s IH]; simpl; by f_equal.
  - change (String c ?t +:+ ?u) with (String c (t +:+ u)). f_equal. apply IH.
Qed.

Lemma substring_length n s : (String.length (String.substring 0 n s) ≤ n)%nat.
Proof. revert n. induction s as [|c s IH]; intros [|n]; simpl; try lia. specialize (IH n). lia. Qed.

Lemma slen_app a b : String.length (a +:+ b) = (String.length a + String.length b)%nat.
Proof. induction a as [|c a IH]; simpl; [done|]. by f_equal. Qed.

Lemma substring_pre a b : String.substring 0 (String.length a) (a +:+ b) = a.
Proof. induction a as [|c a IH]; simpl; [by destruct b|]. by f_equal. Qed.

Lemma substring_post a b : String.substring (String.length a) (String.length (a +:+ b) - String.length a) (a +:+ b) = b.
Proof.
  induction a as [|c a IH]; [|done]. change ("" +:+ b) with b. simpl. rewrite Nat.sub_0_r.
  induction b as [|d b IH]; simpl; [done|]. by f_equal.
Qed.

Lemma before_dot_app a b : before_dot (a +:+ b) = if has_char "." a then before_dot a else a +:+ before_dot b.
Proof.
  unfold before_dot. induction a as [|c a IH]; [done|]. simpl. destruct (Ascii.eqb c ".") eqn:E; simpl; [done|].
  destruct (break_at _ (a +:+ b)) as [x y] eqn:E1. destruct (break_at _ a) as [x' y'] eqn:E2. simpl in *. rewrite IH. by destruct (has_char "." a).
Qed.

Lemma before_dot_none a : has_char "." a = false → before_dot a = a.
Proof. intros H. rewrite <-(append_nil_r a) at 1. rewrite before_dot_app, H. apply append_nil_r. Qed.

(** ** Cleaning a name *)

Lemma decode_range l r n :
  Forall (λ z, 0 ≤ z < 256) l → decode_rune l = (r, n) → 0 ≤ r < 1114112.
Proof.
  intros Hl. unfold decode_rune, RuneError, cont.
  destruct l as [|a [|b [|c [|d l]]]]; rewrite ?list.Forall_cons in Hl; repeat case_match; intros [= <- <-]; bool_simpl; lia.
Qed.

Lemma runes_range fuel l : Forall (λ z, 0 ≤ z < 256) l → Forall (λ r, 0 ≤ r < 1114112) (runes fuel l).
Proof.
  revert l. induction fuel as [|fuel IH]; intros [|a t] Hl; cbn [runes]; try (by constructor).
  destruct (decode_rune (a :: t)) as [r n] eqn:E. constructor; [by eapply decode_range|]. apply IH. by apply Forall_drop.
Qed.

Lemma bytes_range s : Forall (λ z, 0 ≤ z < 256) (bytes_of s).
Proof. unfold bytes_of. apply list.Forall_forall. intros z Hz. apply list_elem_of_fmap in Hz as (c & -> & _). apply code_range. Qed.

Lemma bytes_text l : Forall (λ z, 0 ≤ z < 256) l → bytes_of (text_of l) = l.
Proof.
  intros Hl. unfold bytes_of, text_of. rewrite list_ascii_of_string_of_list_ascii. induction Hl as [|z l Hz Hl IH]; [done|].
  simpl. f_equal; [|done]. unfold code. rewrite N_ascii_embedding by lia. lia.
Qed.

(** What one rune leaves behind is plain and does not end in a lead byte. *)
Lemma clean_rune_plain r : 0 ≤ r < 1114112 →
  plain_bytes (clean_rune r) = true ∧ Forall (λ z, 0 ≤ z < 256) (clean_rune r) ∧ list.last (clean_rune r) ≠ Some 194.
Proof.
  intros Hr. unfold clean_rune. destruct (Z.eqb_spec r 58); [by repeat constructor|].
  destruct ((r =? 47) || (r =? 92)) eqn:E1; [by repeat constructor|].
  destruct (control_rune r || forbidden_rune r) eqn:E2; [by repeat constructor|].
  assert (Hok : rune_ok r = true) by (unfold rune_ok; by rewrite E2). unfold encode_rune.
  pose proof (Z.mod_pos_bound r 64 ltac:(lia)). pose proof (Z.mod_pos_bound (r / 64) 64 ltac:(lia)).
  pose proof (Z.mod_pos_bound (r / 4096) 64 ltac:(lia)).
  assert (Hcont : ∀ k, 0 ≤ k < 64 → cont (128 + k) = true) by (intros k Hk; unfold cont; lia).
  destruct (Z.ltb_spec r 128).
  { simpl. unfold byte_ok. rewrite Hok, orb_true_r. rewrite (proj2 (Z.eqb_neq r 194)) by lia.
    split; [done|]. split; [repeat constructor; lia|]. intros [= ->]. lia. }
  rewrite rune_ok_c1 in Hok by lia. apply negb_true_iff, Z.leb_gt in Hok.
  destruct (Z.ltb_spec r 2048).
  { assert (2 ≤ r / 64 < 32) by (Z.to_euclidean_division_equations; lia). split; [|split; [repeat constructor; lia|intros [= ?]; lia]].
    destruct (Z.eq_dec (r / 64) 2) as [E|E].
    - rewrite E. assert (32 ≤ r mod 64) by (pose proof (Z.div_mod r 64); lia). simpl. unfold byte_ok.
      rewrite (proj2 (Z.leb_gt (128 + r mod 64) 159)) by lia.
      rewrite (proj2 (Z.leb_le 128 (128 + r mod 64))), (proj2 (Z.eqb_neq (128 + r mod 64) 194)) by lia. done.
    - rewrite plain_lead by (lia || right; lia). rewrite plain_cont by (apply Hcont; lia). done. }
  destruct (Z.ltb_spec r 65536).
  { assert (0 ≤ r / 4096 < 16) by (Z.to_euclidean_division_equations; lia). split; [|split; [repeat constructor; lia|intros [= ?]; lia]].
    rewrite plain_lead by (lia || right; lia). by rewrite !plain_cont by (apply Hcont; lia). }
  assert (0 ≤ r / 262144 < 5) by (Z.to_euclidean_division_equations; lia). split; [|split; [repeat constructor; lia|intros [= ?]; lia]].
  rewrite plain_lead by (lia || right; lia). by rewrite !plain_cont by (apply Hcont; lia).
Qed.

Section components.
Context (upper nfc : string → string) `{!Normalization upper nfc}.

Lemma cleanRunes_plain name : plain (cleanRunes nfc name) = true ∧ nfc (cleanRunes nfc name) = cleanRunes nfc name.
Proof.
  unfold cleanRunes. split; [|apply nfc_idem]. rewrite <-runes_of_plain. apply nfc_plain. rewrite runes_of_plain. unfold plain.
  pose proof (runes_range (String.length (nfc name)) _ (bytes_range (nfc name))) as Hr. fold (runes_of (nfc name)) in Hr.
  assert (Hc : plain_bytes (concat (clean_rune <$> runes_of (nfc name))) = true ∧
    Forall (λ z, 0 ≤ z < 256) (concat (clean_rune <$> runes_of (nfc name)))).
  { induction Hr as [|r rs Hr _ [IH1 IH2]]; [by split|]. destruct (clean_rune_plain r Hr) as (H1 & H2 & H3). simpl. split.
    - apply plain_bytes_app; [done|done|by left].
    - by apply list.Forall_app. }
  destruct Hc as [Hc1 Hc2]. by rewrite bytes_text.
Qed.

(** ** Fitting a component *)

Definition well_formed (suffix out : string) : Prop :=
  plain out = true ∧ nfc out = out ∧ HasPrefix_char "." out = false ∧
  (suffix = "" → HasSuffix_char "." out = false ∧ HasSuffix_char " " out = false).

Lemma piece_ok a b : plain (a +:+ b) = true → nfc (a +:+ b) = a +:+ b →
  (plain a = true ∧ nfc a = a) ∧ (plain b = true ∧ nfc b = b).
Proof. intros Hp Hn. destruct (plain_app _ _ Hp). destruct (nfc_sub a b Hn). done. Qed.

Lemma trim_well_formed suffix s : plain s = true → nfc s = s → well_formed suffix (trim suffix s).
Proof.
  intros Hp Hn. unfold trim. set (p := λ c, Ascii.eqb c "."). set (q := λ c, Ascii.eqb c "." || Ascii.eqb c " ").
  destruct (trim_left_split p s) as [a Ea]. set (t := trim_left_by p s) in *. rewrite Ea in Hp, Hn.
  destruct (piece_ok _ _ Hp Hn) as [_ [Hp' Hn']].
  assert (Hh : HasPrefix_char "." t = false).
  { pose proof (trim_left_head p s) as Hh. fold t in Hh. destruct t as [|c t']; [done|]. simpl. unfold p in Hh.
    destruct (Ascii.eqb_spec "." c) as [<-|]; done. }
  destruct (String.eqb_spec suffix "") as [->|Hs]; [|split_and!; done].
  destruct (trim_right_split q t) as [b Eb]. set (u := trim_right_by q t) in *. rewrite Eb in Hp', Hn', Hh.
  destruct (piece_ok _ _ Hp' Hn') as [[Hp'' Hn''] _]. split_and!; [done|done| |].
  - destruct u as [|c u']; [done|]. done.
  - intros _. split; apply trim_right_end; done.
Qed.

Lemma mark_well_formed suffix s : well_formed suffix s → well_formed suffix (mark_reserved upper suffix s).
Proof.
  intros (Hp & Hn & Hh & Hs). unfold mark_reserved. set (stem := before_dot (s +:+ suffix)).
  destruct (reserved upper stem && _); [|by split_and!]. set (n := String.length stem).
  pose proof (substring_split n s) as E. set (a := String.substring 0 n s) in *. set (b := String.substring n _ s) in *.
  rewrite E in Hp, Hn. destruct (piece_ok _ _ Hp Hn) as [[Ha1 Ha2] [Hb1 Hb2]]. split_and!.
  - by apply plain_join.
  - by apply nfc_around; [right|..].
  - destruct a as [|c a']; [done|]. rewrite E in Hh. done.
  - intros ->. rewrite !suffix_app. simpl. destruct (Hs eq_refl) as [Hs1 Hs2]. rewrite E, !suffix_app in Hs1, Hs2.
    destruct b as [|d b']; [done|]. simpl in Hs1, Hs2. change (String "_" (String d b')) with (String "_" "" +:+ String d b').
    rewrite !suffix_app. done.
Qed.

(** Shortening takes one turn at most and keeps a front part. *)
Lemma shorten_fits fuel suffix limit out :
  well_formed suffix out → (String.length out ≤ fuel)%nat →
  ∃ out' rest, shorten nfc fuel suffix limit out = Some out' ∧ well_formed suffix out' ∧ out = out' +:+ rest ∧
    (String.length out' ≤ limit)%nat ∧ (rest ≠ "" → (limit < String.length out)%nat).
Proof.
  intros Hw Hf. destruct (Nat.leb_spec (String.length out) limit) as [Hl|Hl].
  { exists out, "". rewrite append_nil_r. split_and!; try done.
    destruct fuel; simpl; by rewrite (proj2 (Nat.leb_le _ _)) by done. }
  destruct fuel as [|fuel]; [lia|]. cbn [shorten]. rewrite (proj2 (Nat.leb_gt _ _)) by done.
  assert (Hcut : (cut_back out limit ≤ limit)%nat).
  { clear. induction limit as [|n IH]; simpl; [done|]. destruct (String.get (S n) out); [case_match|]; lia. }
  pose proof (substring_split (cut_back out limit) out) as E. pose proof (substring_length (cut_back out limit) out) as Hsl.
  set (p := String.substring 0 (cut_back out limit) out) in *. set (r := String.substring (cut_back out limit) _ out) in *.
  destruct Hw as (Hp & Hn & Hh & Hs). rewrite E in Hp, Hn. destruct (piece_ok _ _ Hp Hn) as [[Hp1 Hn1] _]. rewrite Hn1.
  pose proof (trim_well_formed suffix p Hp1 Hn1) as Hw'.
  assert (Hpre : ∃ b, p = trim suffix p +:+ b).
  { unfold trim. assert (Hid : trim_left_by (λ c, Ascii.eqb c ".") p = p).
    { destruct p as [|c p']; [done|]. rewrite E in Hh. change (HasPrefix_char "." (String c p' +:+ r)) with (Ascii.eqb "." c) in Hh.
      cbn [trim_left_by]. by rewrite Ascii.eqb_sym, Hh. }
    rewrite Hid. destruct (String.eqb suffix ""); [apply trim_right_split|exists ""; by rewrite append_nil_r]. }
  destruct Hpre as [b Eb]. assert (Hlen : (String.length (trim suffix p) ≤ limit)%nat).
  { apply (f_equal String.length) in Eb. rewrite slen_app in Eb. lia. }
  exists (trim suffix p), (b +:+ r). split_and!.
  - destruct fuel; simpl; by rewrite (proj2 (Nat.leb_le _ _)) by done.
  - done.
  - rewrite E, Eb at 1. apply append_assoc.
  - done.
  - done.
Qed.

Lemma reserved_underscore s : has_char "_" (upper s) = true → reserved upper s = false.
Proof.
  intros Hs. unfold reserved. apply not_true_is_false. intros (n & Hn & E)%existsb_exists. apply String.eqb_eq in E. subst n.
  simpl in Hn. repeat (destruct Hn as [Hn|Hn]; [by rewrite <-Hn in Hs|]). done.
Qed.

Lemma upper_underscore a b : has_char "_" (upper (a +:+ String "_" b)) = true.
Proof. rewrite upper_around, has_char_append. simpl. apply orb_true_r. Qed.

(** After the mark, the stem of a component is no device name. *)
Lemma mark_stem suffix out :
  (suffix = "" ∨ HasPrefix_char "_" suffix = true) →
  suffix = "" ∨ has_char "." (mark_reserved upper suffix out) = true →
  reserved upper (before_dot (mark_reserved upper suffix out)) = false.
Proof.
  intros Hsuf Hdot. unfold mark_reserved in *. set (stem := before_dot (out +:+ suffix)) in *.
  assert (Hstem : reserved upper stem = true → stem = before_dot out ∧ ∃ b, out = stem +:+ b ∧ (b = "" ∨ HasPrefix_char "." b = true)).
  { intros Hres. assert (Hb : stem = before_dot out).
    { unfold stem in *. rewrite before_dot_app in Hres |- *. destruct (has_char "." out) eqn:Ed; [done|].
      destruct Hsuf as [->|Hs]; [rewrite (before_dot_none out) by done; apply append_nil_r|].
      destruct suffix as [|c suf]; [done|]. change (Ascii.eqb "_" c = true) in Hs. apply Ascii.eqb_eq in Hs. subst c.
      change (before_dot (String "_" suf)) with (before_dot (String "_" "" +:+ suf)) in Hres. rewrite before_dot_app in Hres. simpl in Hres.
      rewrite reserved_underscore in Hres; [done|]. apply upper_underscore. }
    split; [done|]. rewrite Hb. clear. unfold before_dot. induction out as [|c out IH]; [exists ""; auto|]. simpl.
    destruct (Ascii.eqb c ".") eqn:E; [exists (String c out); split; [done|right; cbn [HasPrefix_char]; by rewrite Ascii.eqb_sym]|].
    destruct IH as (b & Eb & Hb). destruct (break_at _ out) as [x y]. simpl in *. exists b. split; [|done].
    change (String c x +:+ b) with (String c (x +:+ b)). by f_equal. }
  destruct (reserved upper stem) eqn:Eres; cbn [andb] in *.
  - destruct (Hstem eq_refl) as (Hb & b & Eb & Hbd). rewrite (proj2 (Nat.leb_le _ _)).
    2:{ rewrite Eb. rewrite slen_app. lia. }
    rewrite Eb. rewrite substring_pre, substring_post.
    assert (Hnd : has_char "." stem = false).
    { rewrite Hb. clear. unfold before_dot. induction out as [|c out IH]; [done|]. simpl. destruct (Ascii.eqb c ".") eqn:E; [done|].
      destruct (break_at _ out). simpl in *. by rewrite E, IH. }
    rewrite before_dot_app, Hnd. apply reserved_underscore.
    change (String "_" b) with (String "_" "" +:+ b). rewrite before_dot_app. simpl.
    change (stem +:+ (String "_" "" +:+ before_dot b)) with (stem +:+ String "_" (before_dot b)). apply upper_underscore.
  - destruct Hdot as [->|Hd]; [|]; unfold stem in Eres; rewrite before_dot_app in Eres; destruct (has_char "." out) eqn:Ed; try done.
    rewrite before_dot_none by done. rewrite append_nil_r in Eres. done.
Qed.

Lemma fit_facts out suffix :
  plain out = true → nfc out = out →
  ∃ marked out' rest, marked = mark_reserved upper suffix (trim suffix out) ∧ fitComponent upper nfc out suffix = Some out' ∧
    well_formed suffix out' ∧ marked = out' +:+ rest ∧ (slen out' ≤ Z.max (255 - slen suffix) 0) ∧
    (rest ≠ "" → Z.max (255 - slen suffix) 0 < slen marked).
Proof.
  intros Hp Hn. unfold fitComponent. pose proof (mark_well_formed suffix _ (trim_well_formed suffix out Hp Hn)) as Hw.
  set (marked := mark_reserved upper suffix (trim suffix out)) in *.
  destruct (shorten_fits (String.length marked) suffix (Z.to_nat (Z.max (maxComponentBytes - slen suffix) 0)) marked Hw (Nat.le_refl _))
    as (out' & rest & E & Hw' & Er & Hl & Hr).
  exists marked, out', rest. unfold slen, maxComponentBytes in *. split_and!; try done; [lia|intros H; specialize (Hr H); lia].
Qed.
End components.

Lemma string_ascii_app l1 l2 : string_of_list_ascii (l1 ++ l2) = string_of_list_ascii l1 +:+ string_of_list_ascii l2.
Proof. induction l1 as [|c l1 IH]; [done|]. simpl. by rewrite IH. Qed.

Section accepted.
Context (upper nfc : string → string) `{!Normalization upper nfc}.

(** The suffix of a leaf: an underscore, the end of a hash and an extension. *)
Record leaf_suffix (suffix : string) : Prop := {
  ls_underscore : HasPrefix_char "_" suffix = true;
  ls_plain : plain suffix = true;
  ls_nfc : nfc suffix = suffix;
  ls_end : HasSuffix_char "." suffix = false ∧ HasSuffix_char " " suffix = false;
  ls_length : slen suffix ≤ 247
}.

Lemma component_ok c :
  c ≠ "" → slen c ≤ 255 → HasPrefix_char "." c = false → HasSuffix_char "." c = false → HasSuffix_char " " c = false →
  plain c = true → reserved upper (before_dot c) = false → validatePathComponent upper c = true.
Proof.
  intros H1 H2 H3 H4 H5 H6 H7. unfold validatePathComponent. rewrite runes_of_plain, H3, H4, H5, H6, H7.
  destruct (String.eqb_spec c "") as [|_]; [done|]. unfold maxComponentBytes. rewrite (proj2 (Z.leb_le _ _)) by done.
  destruct (String.eqb_spec c ".") as [->|_]; [done|]. destruct (String.eqb_spec c "..") as [->|_]; done.
Qed.

(** Whatever the name, [KeepComponent] with the suffix of a leaf ends and gives a
    component in normal form that the validator of paths accepts. *)
Theorem KeepComponent_accepted name suffix :
  leaf_suffix suffix →
  ∃ c, KeepComponent upper nfc name suffix = Some c ∧ validatePathComponent upper c = true ∧ nfc c = c.
Proof.
  intros [Hu Hp Hn [He1 He2] Hl]. destruct (cleanRunes_plain upper nfc name) as [Hp0 Hn0].
  destruct (fit_facts upper nfc (cleanRunes nfc name) suffix Hp0 Hn0) as (marked & out & rest & Em & E & Hw & Er & Hlen & _).
  unfold KeepComponent. rewrite E. cbn [mbind option_bind]. eexists. split; [done|].
  destruct suffix as [|d suf]; [done|]. change (Ascii.eqb "_" d = true) in Hu. apply Ascii.eqb_eq in Hu. subst d.
  assert (Hsuf : plain suf = true ∧ nfc suf = suf) by (by apply (piece_ok upper nfc (String "_" "") suf)).
  assert (Hfin : ∀ x, plain x = true → nfc x = x → HasPrefix_char "." x = false → slen x + slen (String "_" suf) ≤ 255 →
    (has_char "." x = true → reserved upper (before_dot x) = false) →
    validatePathComponent upper (x +:+ String "_" suf) = true ∧ nfc (x +:+ String "_" suf) = x +:+ String "_" suf).
  { intros x Hx1 Hx2 Hx3 Hx4 Hx5. split; [|by apply nfc_around; [right|..|apply Hsuf]]. apply component_ok.
    - by destruct x.
    - unfold slen in *. rewrite slen_app. lia.
    - by destruct x.
    - by rewrite suffix_app.
    - by rewrite suffix_app.
    - by apply plain_join; [|apply Hsuf|..].
    - rewrite before_dot_app. destruct (has_char "." x); [by apply Hx5|].
      apply reserved_underscore. change (String "_" suf) with (String "_" "" +:+ suf). rewrite before_dot_app. simpl.
      apply (upper_underscore upper nfc). }
  destruct Hw as (Hw1 & Hw2 & Hw3 & _).
  destruct (String.eqb_spec out "") as [->|Ho]; cbn [andb].
  - destruct (String.eqb_spec name "") as [|_]; cbn [negb].
    + apply Hfin; try done. unfold slen in *. simpl in *. lia.
    + apply Hfin; try done; [by apply nfc_ascii|]. unfold slen in *. simpl in *. lia.
  - apply Hfin; try done; [unfold slen in *; simpl in *; lia|]. intros Hd.
    assert (Hd' : has_char "." marked = true) by (rewrite Er, has_char_append, Hd; done).
    pose proof (mark_stem upper nfc (String "_" suf) (trim (String "_" suf) (cleanRunes nfc name)) ltac:(right; done)) as Hm.
    rewrite <-Em in Hm. specialize (Hm (or_intror Hd')). rewrite Er, before_dot_app, Hd in Hm. done.
Qed.

(** ** Titles *)

Lemma fields_pieces (P : string → Prop) fuel l cur :
  (∀ a b, P (a +:+ b) → P a ∧ P b) → P (string_of_list_ascii (rev cur ++ l)) →
  Forall (λ w, P (string_of_list_ascii w)) (fields fuel l cur).
Proof.
  intros Hsub. assert (Hemit : ∀ l cur, P (string_of_list_ascii (rev cur ++ l)) →
    Forall (λ w, P (string_of_list_ascii w)) (match cur with [] => [] | _ => [rev cur] end)).
  { intros l' [|c cur'] Hp; [constructor|]. constructor; [|constructor]. rewrite string_ascii_app in Hp. by apply Hsub in Hp as [? _]. }
  revert l cur. induction fuel as [|fuel IH]; intros [|c t] cur Hp; cbn [fields]; 
    [exact (Hemit [] cur Hp)|exact (Hemit (c :: t) cur Hp)|exact (Hemit [] cur Hp)|].
  destruct (space_prefix _) as [|k].
  - apply IH. simpl. by rewrite <-app_assoc.
  - apply list.Forall_app. split; [exact (Hemit (c :: t) cur Hp)|]. apply IH. simpl.
    rewrite <-(take_drop (S k) (c :: t)) in Hp. rewrite !string_ascii_app in Hp. apply Hsub in Hp as [_ Hp]. by apply Hsub in Hp as [_ ?].
Qed.

Lemma Fields_join s : plain s = true → nfc s = s → plain (join_space (Fields s)) = true ∧ nfc (join_space (Fields s)) = join_space (Fields s).
Proof.
  intros Hp Hn. assert (Hf : Forall (λ w, plain w = true ∧ nfc w = w) (Fields s)).
  { unfold Fields. apply Forall_fmap. eapply Forall_impl; [|apply (fields_pieces (λ w, plain w = true ∧ nfc w = w))].
    - done.
    - intros a b [H1 H2]. destruct (piece_ok upper nfc a b H1 H2). done.
    - simpl. by rewrite string_of_list_ascii_of_string. }
  induction Hf as [|x l [Hx1 Hx2] Hl [IH1 IH2]]; [by split; [|apply nfc_ascii]|].
  destruct l as [|y l]; [done|]. change (join_space (x :: y :: l)) with (x +:+ String " " (join_space (y :: l))).
  split; [by apply plain_join|by apply nfc_around; [left|..]].
Qed.

(** Whatever the title, [SafeComponent] ends and gives a component in normal form
    that the validator accepts, unless cutting it to 255 bytes left a device name. *)
Theorem SafeComponent_accepted name :
  ∃ c, SafeComponent upper nfc name = Some c ∧ nfc c = c ∧
    (validatePathComponent upper c = true ∨
     reserved upper (before_dot c) = true ∧
     255 < slen (mark_reserved upper "" (trim "" (join_space (Fields (cleanRunes nfc name)))))).
Proof.
  destruct (cleanRunes_plain upper nfc name) as [Hp0 Hn0]. destruct (Fields_join _ Hp0 Hn0) as [Hp1 Hn1].
  destruct (fit_facts upper nfc _ "" Hp1 Hn1) as (marked & out & rest & Em & E & Hw & Er & Hlen & Hcut).
  unfold SafeComponent. rewrite E. cbn [mbind option_bind]. eexists. split; [done|].
  destruct Hw as (Hw1 & Hw2 & Hw3 & Hw4). destruct (Hw4 eq_refl) as [Hw5 Hw6].
  change (Z.max (255 - slen "") 0) with 255 in *. destruct (String.eqb_spec out "") as [->|Ho].
  - split; [by apply nfc_ascii|]. left. apply component_ok; try done. unfold reserved. by rewrite (upper_ascii (nfc := nfc)).
  - split; [done|]. destruct (reserved upper (before_dot out)) eqn:Hres; [right|left; by apply component_ok].
    split; [done|]. rewrite <-Em. destruct (String.eqb_spec rest "") as [->|Hr]; [exfalso|by apply Hcut].
    pose proof (mark_stem upper nfc "" (trim "" (join_space (Fields (cleanRunes nfc name)))) ltac:(by left) ltac:(by left)) as Hm.
    rewrite <-Em, Er, append_nil_r in Hm. congruence.
Qed.
End accepted.

(** ** Paths stay below their root *)

Lemma split_nonempty c s : split_char c s ≠ [].
Proof. induction s as [|d s IH]; simpl; [done|]. destruct (Ascii.eqb d c); [done|]. by destruct (split_char c s). Qed.

Lemma split_app c a b : split_char c (a +:+ String c b) = (split_char c a ++ split_char c b)%list.
Proof.
  induction a as [|d a IH]; [simpl; by rewrite Ascii.eqb_refl|].
  change (String d a +:+ String c b) with (String d (a +:+ String c b)). cbn [split_char]. rewrite IH.
  destruct (Ascii.eqb d c); [done|]. pose proof (split_nonempty c a). by destruct (split_char c a).
Qed.

Lemma join_split s : join_slash (split_char "/" s) = s.
Proof.
  induction s as [|d s IH]; [done|]. cbn [split_char]. pose proof (split_nonempty "/" s) as Hn.
  destruct (Ascii.eqb_spec d "/") as [->|_].
  - destruct (split_char "/" s) as [|x l] eqn:E; [done|].
    change (join_slash ("" :: x :: l)) with (String "/" (join_slash (x :: l))). by rewrite IH.
  - destruct (split_char "/" s) as [|x [|y l]] eqn:E; [done|simpl in *; by rewrite IH|].
    change (join_slash (String d x :: y :: l)) with (String d (join_slash (x :: y :: l))). by rewrite IH.
Qed.

Lemma join_app l1 l2 : l1 ≠ [] → l2 ≠ [] → join_slash (l1 ++ l2) = join_slash l1 +:+ String "/" (join_slash l2).
Proof.
  intros H1 H2. induction l1 as [|x l1 IH]; [done|]. destruct l1 as [|y l1].
  - simpl. by destruct l2.
  - change (join_slash ((x :: y :: l1) ++ l2)) with (x +:+ String "/" (join_slash ((y :: l1) ++ l2))). rewrite IH by done.
    change (join_slash (x :: y :: l1)) with (x +:+ String "/" (join_slash (y :: l1))). by rewrite append_assoc.
Qed.

Definition proper (c : string) : Prop := c ≠ "" ∧ c ≠ "." ∧ c ≠ "..".

Lemma clean_proper rooted acc l : Forall proper l → foldl (clean_step rooted) acc l = (rev l ++ acc)%list.
Proof.
  revert acc. induction l as [|c l IH]; intros acc Hl; [done|]. apply list.Forall_cons in Hl as [(H1 & H2 & H3) Hl]. simpl.
  unfold clean_step at 2. destruct (String.eqb_spec c ""); [done|]. destruct (String.eqb_spec c "."); [done|].
  destruct (String.eqb_spec c ".."); [done|]. simpl. rewrite IH by done. by rewrite <-app_assoc.
Qed.

(** Joining proper components to a root that does not clean to nothing appends them. *)
Lemma Clean_join root path :
  Forall proper (split_char "/" path) → path_Clean root ≠ "/" → path_Clean root ≠ "." → root ≠ "" →
  path_Clean (root +:+ String "/" path) = path_Clean root +:+ String "/" path.
Proof.
  intros Hp H1 H2 Hr. unfold path_Clean in *. cbv zeta in *.
  assert (Hroot : match root +:+ String "/" path with String c _ => Ascii.eqb c "/" | "" => false end =
    match root with String c _ => Ascii.eqb c "/" | "" => false end) by (by destruct root).
  rewrite Hroot. set (rooted := match root with String c _ => _ | "" => _ end) in *.
  rewrite split_app, foldl_app, clean_proper by done. set (acc := foldl _ _ (split_char "/" root)) in *.
  rewrite rev_app_distr, rev_involutive.
  assert (Ha : rev acc ≠ []) by (intros E; rewrite E in H1, H2; by destruct rooted).
  assert (Hs := split_nonempty "/" path). rewrite join_app, join_split by done. destruct rooted; [done|].
  destruct (String.eqb_spec (join_slash (rev acc)) "") as [E|_]; [done|].
  by destruct (join_slash (rev acc)).
Qed.

Lemma component_proper upper c : validatePathComponent upper c = true → proper c ∧ HasPrefix_char "." c = false.
Proof.
  unfold validatePathComponent. intros H. bool_simpl. split; [|done].
  split_and!; intros ->; done.
Qed.

(** C28: An accepted path has one to sixteen components, none of them empty, [.], [..]
    or hidden: the contained writer takes it, joining it to a root appends it to the
    cleaned root, and it names no file of the hidden staging namespace. *)
Theorem validated_path_contained upper nfc root path :
  validatePathSyntax upper nfc path = true → root ≠ "" → path_Clean root ≠ "/" → path_Clean root ≠ "." →
  checkRel path = true ∧ path_Clean (root +:+ String "/" path) = path_Clean root +:+ String "/" path ∧
  Forall (λ c, HasPrefix_char "." c = false) (split_char "/" path) ∧ 1 ≤ len (split_char "/" path) ≤ 16.
Proof.
  intros Hv Hr H1 H2. unfold validatePathSyntax in Hv. bool_simpl.
  assert (Hp : Forall (λ c, proper c ∧ HasPrefix_char "." c = false) (split_char "/" path)).
  { apply list.Forall_forall. intros c Hc. apply (component_proper upper).
    match goal with H : forallb _ _ = true |- _ => rewrite forallb_forall in H; by apply H, list_elem_of_In end. }
  assert (Hpr : Forall proper (split_char "/" path)) by (eapply Forall_impl; [|exact Hp]; by intros c [? _]).
  split; [|split; [|split]].
  - unfold checkRel. apply andb_true_iff. split.
    + apply negb_true_iff, orb_false_iff. split.
      * apply not_true_is_false. intros ->%String.eqb_eq. apply list.Forall_cons in Hpr as [(? & _) _]. done.
      * destruct path as [|c p]; [done|]. cbn [HasPrefix_char]. destruct (Ascii.eqb_spec "/" c) as [<-|]; [|done].
        apply list.Forall_cons in Hpr as [(? & _) _]. done.
    + apply forallb_forall. intros c Hc%list_elem_of_In. rewrite list.Forall_forall in Hpr. destruct (Hpr c Hc) as (A & B & C).
      destruct (String.eqb_spec c ""); [done|]. destruct (String.eqb_spec c "."); [done|]. by destruct (String.eqb_spec c "..").
  - by apply Clean_join.
  - eapply Forall_impl; [|exact Hp]; by intros c [_ ?].
  - pose proof (split_nonempty "/" path). unfold len, maxPathComponents in *. destruct (split_char "/" path); [done|]. simpl in *. lia.
Qed.

(** ** Sample names *)

#[export] Instance ascii_normalization : Normalization (map_char upper_char) (λ s, s).
Proof.
  split; try done. intros a b. induction a as [|c a IH]; [done|]. change (String c a +:+ ?t) with (String c (a +:+ t)). simpl.
  by rewrite IH.
Qed.

Definition sample_suffix : string := "_0123abcd.flac".

Lemma sample_leaf : leaf_suffix (λ s, s) sample_suffix.
Proof. split; by vm_compute. Qed.

Lemma KeepComponent_accepted_witness :
  KeepComponent (map_char upper_char) (λ s, s) "a:b/c?" sample_suffix = Some "a -b-c_0123abcd.flac" ∧
  validatePathComponent (map_char upper_char) "a -b-c_0123abcd.flac" = true.
Proof.
  destruct (KeepComponent_accepted (map_char upper_char) (λ s, s) "a:b/c?" sample_suffix sample_leaf) as (c & E & Hv & _).
  assert (E' : KeepComponent (map_char upper_char) (λ s, s) "a:b/c?" sample_suffix = Some "a -b-c_0123abcd.flac") by (vm_compute; reflexivity).
  rewrite E' in E. injection E as <-. split; [exact E'|exact Hv].
Defined.

Lemma SafeComponent_accepted_witness : SafeComponent (map_char upper_char) (λ s, s) "  Nul.  " = Some "Nul_".
Proof.
  destruct (SafeComponent_accepted (map_char upper_char) (λ s, s) "  Nul.  ") as (c & E & _).
  assert (E' : SafeComponent (map_char upper_char) (λ s, s) "  Nul.  " = Some "Nul_") by (vm_compute; reflexivity). exact E'.
Defined.

Lemma validated_path_contained_witness :
  path_Clean "/srv/music/Artist/Album_0123abcd.flac" = "/srv/music/Artist/Album_0123abcd.flac".
Proof.
  apply (validated_path_contained (map_char upper_char) (λ s, s) "/srv/music" "Artist/Album_0123abcd.flac"); vm_compute; congruence.
Defined.
