(* ===== verification/Naming.v ===== *)
(** * Names of the video library (internal/library/naming.go; the release tags of
    manager.go)

    A movie is one file below the movies directory, named after its title, year, tags and
    the end of its info hash; an episode is a file in the directory of its season, named
    after its show, number and the start of the hash, and a row of the registry under a
    key made of the letters of the show and the number.

    The regular expressions are modelled by what they match: the tags as patterns over
    runes, with the folding of case of Go ([ſ] is an [s] and the Kelvin sign a [k]); the
    ones that rewrite a name by what is left of it.  [strings.ToLower] takes two letters
    beyond ASCII into it, and no other. *)

From Stdlib Require Import Ascii String.
From S2P Require Import Prelude GoFloat GoStrings Flac Cue CueSplit Paths.
Local Open Scope string_scope.
Local Open Scope Z_scope.

(** ** Patterns *)

Definition digit_rune (r : Z) : bool := (48 <=? r) && (r <=? 57).
Definition letter_rune (r : Z) : bool := ((65 <=? r) && (r <=? 90)) || ((97 <=? r) && (r <=? 122)).
Definition word_rune (r : Z) : bool := digit_rune r || letter_rune r || (r =? 95).
(** [[^A-Za-z0-9]] without case. *)
Definition outside (r : Z) : bool := negb (digit_rune r || letter_rune r || (r =? 383) || (r =? 8490)).
(** A lower-case letter, or another character, without case. *)
Definition folds (c : ascii) (r : Z) : bool :=
  (r =? code c) || (letter_rune (code c) && (r =? code c - 32)) || (Ascii.eqb c "s" && (r =? 383)) || (Ascii.eqb c "k" && (r =? 8490)).

Inductive atom :=
  | One (p : Z → bool)
  | Maybe (p : Z → bool)
  | Begin (p : Z → bool)      (* [(?:^|p)] *)
  | Finish (p : Z → bool)     (* [(?:$|p)] *)
  | Edge.                     (* [\b] *)

Definition word_at (o : option Z) : bool := match o with Some r => word_rune r | None => false end.
(** Whether a pattern matches here; [prev] is the rune before. *)
Fixpoint match_here (pat : list atom) (prev : option Z) (l : list Z) : bool :=
  match pat with
  | [] => true
  | a :: pat =>
      let eat p := match l with r :: t => p r && match_here pat (Some r) t | [] => false end in
      match a with
      | One p => eat p
      | Maybe p => eat p || match_here pat prev l
      | Begin p => (bool_decide (prev = None) && match_here pat prev l) || eat p
      | Finish p => (bool_decide (l = []) && match_here pat prev l) || eat p
      | Edge => negb (eqb (word_at prev) (word_at (head l))) && match_here pat prev l
      end
  end.
Fixpoint found (pat : list atom) (prev : option Z) (l : list Z) : bool :=
  match_here pat prev l || match l with [] => false | r :: t => found pat (Some r) t end.
Definition MatchString (pats : list (list atom)) (s : string) : bool := existsb (λ pat, found pat None (runes_of s)) pats.

Definition lit (s : string) : list atom := (λ c, One (folds c)) <$> list_ascii_of_string s.
Definition not_newline (r : Z) : bool := negb (r =? 10).

Definition reHDR : list (list atom) := [(Begin outside :: lit "hdr" ++ [Finish outside])%list; lit "hdr10"].
Definition reDV : list (list atom) :=
  [(Begin outside :: lit "dv" ++ [Finish outside])%list; lit "dovi"; (lit "dolby" ++ Maybe not_newline :: lit "vision")%list].
Definition reAtmos : list (list atom) := [lit "atmos"].
Definition re51 : list (list atom) := lit <$> ["5.1"; "dts"; "ddp5"; "ddp"; "dd+"; "eac3"; "ac3"].
Definition reRemux : list (list atom) := [(lit "remux" ++ [Finish outside])%list].
Definition reIs4K : list (list atom) := [lit "2160p"; (Edge :: lit "uhd" ++ [Edge])%list; (Edge :: lit "4k" ++ [Edge])%list].

(** [reTitleYear]: a separator, perhaps a parenthesis, and a year of this or the last
    century, after at least one character of the same line. *)
Definition year_sep (c : ascii) : bool :=
  Ascii.eqb c "." || Ascii.eqb c "_" || Ascii.eqb c " " || Ascii.eqb c "009" || Ascii.eqb c "010" || Ascii.eqb c "012" || Ascii.eqb c "013".
Definition year_here (s : string) : option string :=
  match s with
  | String a (String b (String c (String d _))) =>
      if ((Ascii.eqb a "1" && Ascii.eqb b "9") || (Ascii.eqb a "2" && Ascii.eqb b "0")) && is_digit c && is_digit d
      then Some (String a (String b (String c (String d "")))) else None
  | _ => None
  end.
Definition year_after (s : string) : option string :=
  match s with String p t => if Ascii.eqb p "(" then year_here t else year_here s | "" => None end.
(** The shortest match that starts with the character before [s]. *)
Fixpoint year_from (s : string) : option string :=
  match s with
  | "" => None
  | String c t =>
      match (if year_sep c then year_after t else None) with
      | Some y => Some y
      | None => if Ascii.eqb c "010" then None else year_from t
      end
  end.
Fixpoint title_year (s : string) : option string :=
  match s with
  | "" => None
  | String c t => match (if Ascii.eqb c "010" then None else year_from t) with Some y => Some y | None => title_year t end
  end.

(** ** Names *)

Fixpoint map_chars (f : ascii → option ascii) (s : string) : string :=
  match s with "" => "" | String c t => match f c with Some d => String d (map_chars f t) | None => map_chars f t end end.
Fixpoint single_underscores (s : string) : string :=
  match s with
  | "" => ""
  | String c t => if Ascii.eqb c "_" && HasPrefix_char "_" t then single_underscores t else String c (single_underscores t)
  end.
Definition underscore (c : ascii) : bool := Ascii.eqb c "_".
Definition trim_underscores (s : string) : string := trim_right_by underscore (trim_left_by underscore s).

Definition movie_safe (c : ascii) : bool :=
  digit_rune (code c) || letter_rune (code c) || Ascii.eqb c "." || Ascii.eqb c "_" || Ascii.eqb c "-".
(** A rune that is replaced may be several bytes; so may the underscores that are folded. *)
Definition SanitizeMovieName (s : string) : string :=
  trim_underscores (single_underscores (map_chars (λ c, Some (if movie_safe c then c else "_"%char)) s)).

Definition HashSuffix (hash : string) : string :=
  if (String.length hash <=? 8)%nat then hash else String.substring (String.length hash - 8) 8 hash.
Definition HashPrefix (hash : string) : string :=
  if (String.length hash <=? 8)%nat then hash else String.substring 0 8 hash.

Record MovieName := mkMovieName { mn_title : string; mn_date : string; mn_release : string; mn_4k : bool; mn_hash : string }.
Definition movie_year (n : MovieName) : string :=
  if (4 <=? String.length (mn_date n))%nat then String.substring 0 4 (mn_date n) else default "" (title_year (mn_title n)).
Definition movie_tags (n : MovieName) : string :=
  (if mn_4k n then "_2160p" else "_1080p")
  +:+ (if MatchString reDV (mn_release n) then "_DV" else if MatchString reHDR (mn_release n) then "_HDR" else "")
  +:+ (if MatchString reAtmos (mn_release n) then "_Atmos" else if MatchString re51 (mn_release n) then "_5.1" else "")
  +:+ (if MatchString reRemux (mn_release n) then "_REMUX" else "").
Definition BuildMovieFilename (n : MovieName) : string :=
  SanitizeMovieName (mn_title n) +:+ (if String.eqb (movie_year n) "" then "" else "_" +:+ movie_year n)
  +:+ movie_tags n +:+ "_" +:+ HashSuffix (mn_hash n) +:+ ".mkv".

Definition show_unsafe (c : ascii) : bool :=
  existsb (Ascii.eqb c) ["<"; ">"; ":"; "034"; "/"; "\"; "|"; "?"; "*"; "'"; "&"]%char.
Definition re_space (c : ascii) : bool :=
  Ascii.eqb c " " || Ascii.eqb c "009" || Ascii.eqb c "010" || Ascii.eqb c "012" || Ascii.eqb c "013".
Definition SanitizeShowName (name : string) : string :=
  let clean := map_chars (λ c, if show_unsafe c then None else Some (if re_space c then "_"%char else c)) name in
  let clean := trim_left_by (Ascii.eqb ".") (trim_underscores (single_underscores clean)) in
  if String.eqb clean "" then "untitled" else clean.

Definition ShowFolderName (showName firstAirDate : string) : string :=
  if (4 <=? String.length firstAirDate)%nat
  then SanitizeShowName showName +:+ " (" +:+ String.substring 0 4 firstAirDate +:+ ")"
  else SanitizeShowName showName.
(** [%02d] *)
Definition pad2 (n : Z) : string := let s := itoa n in if (String.length s <? 2)%nat then "0" +:+ s else s.
Definition EpisodeFilename (show : string) (season episode : Z) (hash8 : string) : string :=
  SanitizeShowName show +:+ "_S" +:+ pad2 season +:+ "E" +:+ pad2 episode +:+ "_" +:+ hash8 +:+ ".mkv".

Definition lower_rune (r : Z) : Z :=
  if (65 <=? r) && (r <=? 90) then r + 32 else if r =? 8490 then 107 else if r =? 304 then 105 else r.
Definition lower_runes (s : string) : list Z := lower_rune <$> runes_of s.
Definition key_rune (r : Z) : bool := digit_rune r || ((97 <=? r) && (r <=? 122)).
Definition show_key (show : string) : string := text_of (filter (λ r, key_rune r = true) (lower_runes show)).
Definition EpisodeKey (show : string) (season episode : Z) : string :=
  show_key show +:+ "_s" +:+ pad2 season +:+ "e" +:+ pad2 episode.

(** A number too big is the biggest one: the error of [Atoi] is not looked at. *)
Definition digits_value (ds : string) : Z := match Atoi ds with Some n => n | None => max_i64 end.
Definition not_digit (c : ascii) : bool := negb (is_digit c).
(** Digits, one of [sep], digits. *)
Definition numbers_at (sep : ascii → bool) (s : string) : option (Z * Z) :=
  let '(d1, r) := break_at not_digit s in
  match r with
  | String x u =>
      let d2 := (break_at not_digit u).1 in
      if negb (String.eqb d1 "") && sep x && negb (String.eqb d2 "") then Some (digits_value d1, digits_value d2) else None
  | "" => None
  end.
Definition sxe_at (s : string) : option (Z * Z) :=
  match s with
  | String c t => if Ascii.eqb c "S" || Ascii.eqb c "s" then numbers_at (λ x, Ascii.eqb x "E" || Ascii.eqb x "e") t else None
  | "" => None
  end.
Definition nxn_at (s : string) : option (Z * Z) := numbers_at (Ascii.eqb "x") s.
Fixpoint first_match (here : string → option (Z * Z)) (s : string) : option (Z * Z) :=
  match here s with Some m => Some m | None => match s with "" => None | String _ t => first_match here t end end.
Definition ParseSeasonEpisode (filename : string) : Z * Z :=
  match first_match sxe_at filename with
  | Some m => m
  | None => default (0, 0) (first_match nxn_at filename)
  end.

Definition IsVideoFile (path : string) : bool :=
  existsb (λ e, bool_decide (lower_runes (path_Ext path) = bytes_of e)) [".mkv"; ".mp4"; ".avi"; ".mov"; ".m4v"].

Example movie_sample :
  BuildMovieFilename (mkMovieName "Blade Runner: 2049" "2017-10-04" "Blade.Runner.2049.2160p.UHD.BDRemux.HDR10+.DTS-HD" true "0123456789abcdef0123456789abcdef01234567")
  = "Blade_Runner_2049_2017_2160p_HDR_5.1_REMUX_01234567.mkv".
Proof. vm_compute. reflexivity. Qed.
Example show_sample : ShowFolderName "../Law & Order: SVU" "1999-09-20" = "Law_Order_SVU (1999)" ∧
  EpisodeFilename "Law & Order: SVU" 3 12 "01234567" = "Law_Order_SVU_S03E12_01234567.mkv" ∧
  EpisodeKey "Law & Order: SVU" 3 12 = "lawordersvu_s03e12" ∧
  ParseSeasonEpisode "The.Show.3x07.mkv" = (3, 7) ∧ title_year "Movie (1987) (2001)" = Some "1987" ∧
  IsVideoFile "a/b.MKV" = true ∧ MatchString reIs4K "Show 4K x" = true ∧ MatchString reIs4K "x4kx" = false.
Proof. vm_compute. repeat split. Qed.

(** ** Numbers in names *)

Lemma split_first_inj c a b a' b' : has_char c a = false → has_char c a' = false →
  a +:+ String c b = a' +:+ String c b' → a = a' ∧ b = b'.
Proof.
  revert a'. induction a as [|x a IH]; intros [|y a'] Ha Ha' E.
  - by injection E as ->.
  - injection E as <- _. cbn [has_char] in Ha'. by rewrite Ascii.eqb_refl in Ha'.
  - injection E as -> _. cbn [has_char] in Ha. by rewrite Ascii.eqb_refl in Ha.
  - injection E as -> E. cbn [has_char] in Ha, Ha'. apply orb_false_iff in Ha as [_ Ha], Ha' as [_ Ha'].
    by destruct (IH a' Ha Ha' E) as [-> ->].
Qed.

Lemma itoa_all_digits z : 0 ≤ z → itoa z ≠ "" ∧ all_chars is_digit (itoa z) = true.
Proof. intros Hz. destruct (itoa_digits z Hz) as (c & w & -> & Hc & Hw). split; [done|]. cbn [all_chars]. by rewrite Hc. Qed.

Lemma all_chars_has p c s : all_chars p s = true → p c = false → has_char c s = false.
Proof.
  induction s as [|d s IH]; [done|]. cbn [all_chars has_char]. intros [Hd Hs]%andb_true_iff Hc. rewrite IH by done. rewrite orb_false_r.
  destruct (Ascii.eqb_spec d c) as [->|]; [congruence|done].
Qed.

Lemma pad2_digits n : 0 ≤ n → pad2 n ≠ "" ∧ all_chars is_digit (pad2 n) = true.
Proof. intros Hn. destruct (itoa_all_digits n Hn) as [Hne Hd]. unfold pad2. case_match; [|done]. split; [done|]. exact Hd. Qed.

Lemma Atoi_zero_digit c : is_digit c = true → Atoi (String "0" (String c "")) = Atoi (String c "").
Proof.
  intros Hc. pose proof (check_char (λ x, negb (is_digit x) || bool_decide (Atoi (String "0" (String x "")) = Atoi (String x ""))) ltac:(by vm_compute) c) as H.
  cbv beta in H. rewrite Hc in H. by apply bool_decide_eq_true in H.
Qed.

Lemma Atoi_pad2 n : 0 ≤ n → in_i64 n → Atoi (pad2 n) = Some n.
Proof.
  intros Hn Hr. unfold pad2. destruct (Nat.ltb_spec (String.length (itoa n)) 2) as [Hl|]; [|by apply Atoi_itoa].
  destruct (itoa_digits n Hn) as (c & w & E & Hc & _). rewrite E in Hl. destruct w as [|d w]; [|simpl in Hl; lia].
  rewrite E. change ("0" +:+ String c "") with (String "0" (String c "")). rewrite Atoi_zero_digit by done. rewrite <-E. by apply Atoi_itoa.
Qed.

Lemma pad2_inj n m : 0 ≤ n → in_i64 n → 0 ≤ m → in_i64 m → pad2 n = pad2 m → n = m.
Proof. intros H1 H2 H3 H4 E. pose proof (Atoi_pad2 n H1 H2) as A. rewrite E, Atoi_pad2 in A by done. congruence. Qed.

(** ** The keys of the registry *)

Lemma text_of_cons z l : text_of (z :: l) = String (ascii_of_N (Z.to_N z)) (text_of l).
Proof. done. Qed.

Lemma show_key_no_underscore show : has_char "_" (show_key show) = false.
Proof.
  unfold show_key. induction (lower_runes show) as [|r l IH]; [done|]. rewrite filter_cons. case_decide as Hr; [|done].
  rewrite text_of_cons. cbn [has_char]. rewrite IH, orb_false_r. unfold key_rune, digit_rune in Hr.
  assert (Hb : 48 ≤ r < 123) by (rewrite orb_true_iff, !andb_true_iff, !Z.leb_le in Hr; lia).
  apply negb_true_iff. revert Hr. clear -Hb. intros Hr.
  pose proof (check_byte (λ r, negb (digit_rune r || ((97 <=? r) && (r <=? 122))) || negb (Ascii.eqb (ascii_of_N (Z.to_N r)) "_")) 48 123 r
    ltac:(by vm_compute) Hb) as H. cbv beta in H. unfold digit_rune in H. by rewrite Hr in H.
Qed.

(** Two episodes share a key of the registry exactly when their numbers are the same and
    the letters and digits of their shows are, as [ToLower] leaves them. *)
Lemma EpisodeKey_inj show season episode show' season' episode' :
  0 ≤ season → in_i64 season → 0 ≤ episode → in_i64 episode → 0 ≤ season' → in_i64 season' → 0 ≤ episode' → in_i64 episode' →
  EpisodeKey show season episode = EpisodeKey show' season' episode' ↔ show_key show = show_key show' ∧ season = season' ∧ episode = episode'.
Proof.
  intros. split; [|by intros (E & -> & ->); unfold EpisodeKey; rewrite E]. unfold EpisodeKey. intros E.
  apply (split_first_inj "_") in E as [-> E]; [|apply show_key_no_underscore..].
  injection E as E. apply (split_first_inj "e") in E as [E1 E2]; [|by eapply all_chars_has; [apply pad2_digits|]..].
  split_and!; [done|by apply pad2_inj|by apply pad2_inj].
Qed.

(** A title without a letter or digit of ASCII has no letters in its key: all such shows
    share their keys. *)
Lemma titles_without_letters_collide :
  "進撃" ≠ "鬼滅" ∧ SanitizeShowName "進撃" ≠ SanitizeShowName "鬼滅" ∧ EpisodeKey "進撃" 1 1 = "_s01e01" ∧ EpisodeKey "鬼滅" 1 1 = "_s01e01".
Proof. split_and!; [discriminate|vm_compute; discriminate|vm_compute; reflexivity..]. Qed.

(** ** Reading the number back *)

Lemma break_at_split p s : ∃ a b, break_at p s = (a, b) ∧ s = a +:+ b ∧ all_chars (λ c, negb (p c)) a = true ∧
  match b with "" => True | String c _ => p c = true end.
Proof.
  induction s as [|c s IH]; [by exists "", ""|]. cbn [break_at]. destruct (p c) eqn:Hc; [by exists "", (String c s)|].
  destruct IH as (a & b & -> & -> & Ha & Hb). exists (String c a), b. split_and!; [done|done| |done]. cbn [all_chars]. by rewrite Hc.
Qed.

(** An underscore ends every number. *)
Lemma break_underscore a b : ∃ d r, break_at not_digit a = (d, r) ∧ break_at not_digit (a +:+ String "_" b) = (d, r +:+ String "_" b).
Proof.
  destruct (break_at_split not_digit a) as (d & r & E & -> & Hd & Hr). exists d, r. split; [done|]. rewrite append_assoc.
  destruct r as [|c r]; [by apply break_at_app|]. change (String c r +:+ ?t) with (String c (r +:+ t)). by apply break_at_app.
Qed.

Lemma numbers_underscore sep a b : sep "_"%char = false → numbers_at sep (a +:+ String "_" b) = numbers_at sep a.
Proof.
  intros Hs. unfold numbers_at. destruct (break_underscore a b) as (d & r & -> & ->). destruct r as [|c r].
  - change ("" +:+ String "_" b) with (String "_" b). cbv iota. rewrite Hs, andb_false_r. done.
  - change (String c r +:+ ?t) with (String c (r +:+ t)). cbv iota. destruct (break_underscore r b) as (d' & r' & -> & ->). done.
Qed.

Lemma sxe_underscore a b : sxe_at (a +:+ String "_" b) = sxe_at a.
Proof. destruct a as [|c a]; [done|]. change (String c a +:+ ?t) with (String c (a +:+ t)). cbn [sxe_at]. case_match; [|done]. by apply numbers_underscore. Qed.

Lemma first_sxe a b : first_match sxe_at (a +:+ String "_" b) = match first_match sxe_at a with Some m => Some m | None => first_match sxe_at b end.
Proof.
  induction a as [|c a IH]; [done|]. pose proof (sxe_underscore (String c a) b) as E.
  change (String c a +:+ ?t) with (String c (a +:+ t)) in *. cbn [first_match]. rewrite E. destruct (sxe_at (String c a)); [done|apply IH].
Qed.

Lemma pad2_break n c t : 0 ≤ n → not_digit c = true → break_at not_digit (pad2 n +:+ String c t) = (pad2 n, String c t).
Proof.
  intros Hn Hc. apply break_at_app; [|done]. destruct (pad2_digits n Hn) as [_ H].
  eapply all_chars_impl; [|exact H]. intros d Hd. unfold not_digit. by rewrite Hd.
Qed.

(** The name of an episode tells its season and number, whatever the show, unless the
    name of the show has the form of a number itself: then it tells that. *)
Theorem ParseSeasonEpisode_EpisodeFilename show season episode hash8 :
  0 ≤ season → in_i64 season → 0 ≤ episode → in_i64 episode →
  ParseSeasonEpisode (EpisodeFilename show season episode hash8) = default (season, episode) (first_match sxe_at (SanitizeShowName show)).
Proof.
  intros H1 H2 H3 H4. unfold ParseSeasonEpisode, EpisodeFilename. change ("_S" +:+ ?t) with (String "_" (String "S" t)). rewrite first_sxe.
  destruct (first_match sxe_at (SanitizeShowName show)) as [m|]; [done|]. set (tail := "_" +:+ hash8 +:+ ".mkv").
  assert (E : sxe_at (String "S" (pad2 season +:+ "E" +:+ pad2 episode +:+ tail)) = Some (season, episode)); [|cbn [first_match]; by rewrite E].
  cbn [sxe_at Ascii.eqb Bool.eqb orb]. unfold numbers_at. change ("E" +:+ ?t) with (String "E" t). rewrite pad2_break by done.
  change tail with (String "_" (hash8 +:+ ".mkv")). rewrite pad2_break by done. cbn [fst].
  destruct (pad2_digits season H1) as [Hs _], (pad2_digits episode H3) as [He _].
  destruct (String.eqb_spec (pad2 season) ""); [done|]. destruct (String.eqb_spec (pad2 episode) ""); [done|].
  unfold digits_value. by rewrite !Atoi_pad2.
Qed.

(** ** Where the names lead *)

Definition rooted (s : string) : bool := HasPrefix_char "/" s.
(** The components of a cleaned path. *)
Definition comps (s : string) : list string := rev (foldl (clean_step (rooted s)) [] (split_char "/" s)).
(** [filepath.Join] *)
Definition path_Join (l : list string) : string :=
  let l := filter (λ s, s ≠ "") l in if bool_decide (l = []) then "" else path_Clean (join_slash l).

Definition season_dir (season : Z) : string := "Season." +:+ pad2 season.
(** Where [addEpisodes] puts an episode. *)
Definition episode_path (dir title firstAirDate : string) (season episode : Z) (hash : string) : string :=
  path_Join [path_Join [path_Join [dir; ShowFolderName title firstAirDate]; season_dir season];
             EpisodeFilename title season episode (String.substring 0 8 hash)].

Lemma has_char_proper c s : has_char c s = true → Ascii.eqb c "." = false → proper s.
Proof.
  intros Hs Hc. split_and!; intros ->; [done|..]; cbn [has_char] in Hs; rewrite (Ascii.eqb_sym "." c), Hc in Hs; done.
Qed.

Definition stays (base res : list string) : Prop := ∃ l, Forall proper l ∧ res = (l ++ base)%list.

Lemma clean_stays l0 base mid : Forall proper l0 → (length (filter (λ c, c = "..") mid) ≤ length l0)%nat →
  stays base (foldl (clean_step true) (l0 ++ base)%list mid).
Proof.
  revert l0. induction mid as [|c mid IH]; intros l0 Hl Hn; [by exists l0|]. cbn [foldl]. rewrite filter_cons in Hn. unfold clean_step at 2.
  case_decide as Hc.
  - subst c. cbn [String.eqb Ascii.eqb Bool.eqb orb]. destruct l0 as [|x l0]; simpl in Hn; [lia|].
    apply list.Forall_cons in Hl as [(_ & _ & Hx) Hl]. change ((x :: l0) ++ base)%list with (x :: (l0 ++ base)%list). cbv iota.
    destruct (String.eqb_spec x ".."); [done|]. apply IH; [done|lia].
  - destruct (String.eqb_spec c "") as [|H1]; [by apply IH|]. destruct (String.eqb_spec c ".") as [|H2]; [by apply IH|].
    destruct (String.eqb_spec c ".."); [done|]. cbn [orb]. apply (IH (c :: l0)); [by constructor|simpl; lia].
Qed.

Lemma rooted_app a b : rooted a = true → rooted (a +:+ b) = true.
Proof. by destruct a. Qed.

Lemma comps_proper s : rooted s = true → Forall proper (comps s).
Proof.
  intros Hs. unfold comps. rewrite Hs. apply Forall_rev.
  assert (H : ∀ l acc, Forall proper acc → Forall proper (foldl (clean_step true) acc l)).
  { induction l as [|c l IH]; intros acc Ha; [done|]. cbn [foldl]. apply IH. unfold clean_step.
    destruct (String.eqb_spec c "") as [|H1]; [done|]. destruct (String.eqb_spec c ".") as [|H2]; [done|]. cbn [orb].
    destruct (String.eqb_spec c ".."); [|by constructor]. destruct acc as [|x acc]; [done|].
    apply list.Forall_cons in Ha as [(_ & _ & Hx) Ha]. destruct (String.eqb_spec x ".."); done. }
  by apply H.
Qed.

Lemma split_no_slash c s : Forall (λ x, has_char c x = false) (split_char c s).
Proof.
  induction s as [|d s IH]; [by repeat constructor|]. cbn [split_char]. destruct (Ascii.eqb_spec d c) as [->|Hd]; [by constructor|].
  destruct (split_char c s) as [|x l]; [by repeat constructor; cbn; destruct (Ascii.eqb_spec d c)|].
  apply list.Forall_cons in IH as [Hx Hl]. constructor; [|done]. cbn [has_char]. rewrite Hx. by destruct (Ascii.eqb_spec d c).
Qed.

Lemma comps_no_slash s : rooted s = true → Forall (λ x, has_char "/" x = false) (comps s).
Proof.
  intros Hs. unfold comps. rewrite Hs. apply Forall_rev.
  assert (H : ∀ l acc, Forall (λ x, has_char "/" x = false) l → Forall (λ x, has_char "/" x = false) acc →
    Forall (λ x, has_char "/" x = false) (foldl (clean_step true) acc l)).
  { induction l as [|c l IH]; intros acc Hl Ha; [done|]. apply list.Forall_cons in Hl as [Hc Hl]. cbn [foldl]. apply IH; [done|].
    unfold clean_step. case_match; [done|]. case_match; [|by constructor]. destruct acc as [|x acc]; [done|].
    case_match; [by constructor|]. by apply list.Forall_cons in Ha as [_ Ha]. }
  apply H; [apply split_no_slash|constructor].
Qed.

Lemma split_joined l : l ≠ [] → Forall (λ x, has_char "/" x = false) l → split_char "/" (join_slash l) = l.
Proof.
  induction l as [|x l IH]; [done|]. intros _ [Hx Hl]%list.Forall_cons. destruct l as [|y l]; [by apply split_char_one|].
  change (join_slash (x :: y :: l)) with (x +:+ String "/" (join_slash (y :: l))). rewrite split_char_app by done. by rewrite IH.
Qed.

Lemma Clean_comps s : rooted s = true → path_Clean s = String "/" (join_slash (comps s)).
Proof. intros Hs. unfold path_Clean, comps. destruct s as [|c s]; [done|]. unfold rooted, HasPrefix_char in *. rewrite Ascii.eqb_sym. by rewrite Hs. Qed.

Lemma comps_Clean s : rooted s = true → comps (path_Clean s) = comps s.
Proof.
  intros Hs. rewrite Clean_comps by done. pose proof (comps_proper s Hs) as Hp. pose proof (comps_no_slash s Hs) as Hn.
  generalize dependent (comps s). intros l Hp Hn. unfold comps. change (rooted (String "/" (join_slash l))) with true.
  change (split_char "/" (String "/" ?t)) with ("" :: split_char "/" t). cbn [foldl]. change (clean_step true [] "") with (@nil string).
  destruct l as [|x l]; [done|]. rewrite split_joined by done. by rewrite clean_proper, app_nil_r, rev_involutive.
Qed.

Lemma comps_app dir name : rooted dir = true →
  comps (dir +:+ String "/" name) = rev (foldl (clean_step true) (rev (comps dir)) (split_char "/" name)).
Proof.
  intros Hd. unfold comps. rewrite rooted_app, Hd by done. by rewrite split_app, foldl_app, rev_involutive.
Qed.

Lemma comps_join dir name : rooted dir = true → name ≠ "" →
  comps (path_Join [dir; name]) = rev (foldl (clean_step true) (rev (comps dir)) (split_char "/" name)) ∧ rooted (path_Join [dir; name]) = true.
Proof.
  intros Hd Hn. unfold path_Join. rewrite !filter_cons, filter_nil, !decide_True by (done || by intros ->). rewrite bool_decide_eq_false_2 by done.
  change (join_slash [dir; name]) with (dir +:+ String "/" name).
  rewrite comps_Clean, comps_app by (done || by apply rooted_app). split; [done|]. by rewrite Clean_comps by (by apply rooted_app).
Qed.

Lemma split_lengths c s : (foldr (λ x n, String.length x + n) 0 (split_char c s) + length (split_char c s) = String.length s + 1)%nat.
Proof.
  induction s as [|d s IH]; [done|]. cbn [split_char]. destruct (Ascii.eqb d c); [simpl in *; lia|].
  pose proof (split_nonempty c s). destruct (split_char c s) as [|x l]; [done|]. simpl in *. lia.
Qed.

Lemma dots_short l : (2 * length (filter (λ c, c = "..") l) ≤ foldr (λ x n, String.length x + n) 0 l)%nat.
Proof. induction l as [|c l IH]; [done|]. rewrite filter_cons. case_decide as Hc; [subst|]; simpl in *; lia. Qed.

Lemma join_last mid x b : join_slash (mid ++ [x])%list +:+ b = join_slash (mid ++ [x +:+ b])%list.
Proof.
  induction mid as [|y mid IH]; [done|]. destruct mid as [|z mid].
  - change (join_slash ([y] ++ [?t])) with (y +:+ String "/" t). by rewrite append_assoc.
  - change (join_slash ((y :: z :: mid) ++ [?t])) with (y +:+ String "/" (join_slash ((z :: mid) ++ [t]))). rewrite append_assoc. by rewrite <-IH.
Qed.

(** Four bytes of anybody's between two texts with a character of their own stay where
    the texts are: they can leave a directory only once, and have entered one before. *)
Lemma slot_stays base a d b : has_char "/" a = false → has_char "/" b = false →
  (∃ c, has_char c a = true ∧ Ascii.eqb c "." = false) → (∃ c, has_char c b = true ∧ Ascii.eqb c "." = false) → (String.length d ≤ 4)%nat →
  ∃ x l, Forall proper ((x +:+ b) :: l) ∧ foldl (clean_step true) base (split_char "/" (a +:+ d +:+ b)) = (((x +:+ b) :: l) ++ base)%list.
Proof.
  intros Ha Hb (ca & Hca & Hca') (cb & Hcb & Hcb') Hd.
  assert (Hlast : ∀ x, proper (x +:+ b)) by (intros x; apply (has_char_proper cb); [rewrite has_char_append, Hcb; apply orb_true_r|done]).
  assert (Hfirst : ∀ x, proper (a +:+ x)) by (intros x; apply (has_char_proper ca); [by rewrite has_char_append, Hca|done]).
  pose proof (split_lengths "/" d) as Hlen. pose proof (join_split d) as Hj. pose proof (split_no_slash "/" d) as Hns.
  destruct (split_char "/" d) as [|d0 rest] eqn:Es; [by apply split_nonempty in Es|]. apply list.Forall_cons in Hns as [Hd0 Hns].
  assert (Hone : ∀ x, proper x → Forall proper [x]) by (intros x Hx; by constructor).
  destruct rest as [|dk mid _] using rev_ind.
  - change (join_slash [d0]) with d0 in Hj. subst d0. rewrite split_char_one by (by rewrite !has_char_append, Ha, Hd0, Hb).
    exists (a +:+ d), []. rewrite append_assoc. split; [by apply Hone|]. by rewrite (clean_proper true base [a +:+ d +:+ b]) by (by apply Hone).
  - apply list.Forall_app in Hns as [Hmid [Hdk _]%list.Forall_cons].
    assert (E : split_char "/" (a +:+ d +:+ b) = (((a +:+ d0) :: mid) ++ [dk +:+ b])%list).
    { change (d0 :: mid ++ [dk])%list with ([d0] ++ (mid ++ [dk]))%list in Hj. rewrite <-Hj, (join_app [d0] (mid ++ [dk])%list) by (done || by destruct mid). change (join_slash [d0]) with d0.
      rewrite append_assoc. change (String "/" ?t +:+ b) with (String "/" (t +:+ b)). rewrite join_last.
      rewrite <-append_assoc, split_char_app by (by rewrite has_char_append, Ha, Hd0). rewrite split_joined; [done|by destruct mid|].
      apply list.Forall_app. split; [done|]. repeat constructor. by rewrite has_char_append, Hdk, Hb. }
    assert (Hpush : ∀ acc x, proper x → clean_step true acc x = x :: acc) by (intros acc x Hx; exact (clean_proper true acc [x] (Hone x Hx))).
    rewrite E, foldl_app. cbn [foldl]. rewrite !Hpush by done.
    change ((a +:+ d0) :: base) with ([a +:+ d0] ++ base)%list.
    destruct (clean_stays [a +:+ d0] base mid) as (l & Hl & ->); [by apply Hone| |].
    { pose proof (dots_short mid) as Hm. cbn [foldr length] in Hlen. rewrite length_app, foldr_app in Hlen. cbn [foldr length] in Hlen.
      assert (Hmono : ∀ m n, (foldr (λ x n, String.length x + n) 0 m ≤ foldr (λ x n, String.length x + n) n m)%nat)
        by (clear; induction m as [|x m IH]; intros n; simpl; [lia|]; specialize (IH n); lia).
      specialize (Hmono mid (String.length dk + 0)%nat).
      assert ((length (filter (λ c, c = "..") mid) ≤ length mid)%nat) by apply length_filter. simpl. lia. }
    exists dk, l. split; [by constructor|done].
Qed.

(** *** The texts around the dates *)

Lemma map_chars_has c f s : (∀ x, f x ≠ Some c) → has_char c (map_chars f s) = false.
Proof.
  intros Hf. induction s as [|x s IH]; [done|]. cbn [map_chars]. specialize (Hf x). destruct (f x) as [y|]; [|done]. cbn [has_char].
  rewrite IH, orb_false_r. apply Ascii.eqb_neq. congruence.
Qed.

Lemma single_has c s : has_char c s = false → has_char c (single_underscores s) = false.
Proof.
  induction s as [|x s IH]; [done|]. cbn [has_char single_underscores]. intros [Hx Hs]%orb_false_iff. case_match; [auto|].
  cbn [has_char]. by rewrite Hx, IH.
Qed.

Lemma trim_has c s : has_char c s = false → has_char c (trim_underscores s) = false.
Proof.
  intros Hs. unfold trim_underscores. destruct (trim_left_split underscore s) as [a Ea]. rewrite Ea in Hs.
  destruct (trim_right_split underscore (trim_left_by underscore s)) as [b Eb]. rewrite has_char_append in Hs. apply orb_false_iff in Hs as [_ Hs].
  rewrite Eb, has_char_append in Hs. by apply orb_false_iff in Hs as [Hs _].
Qed.

Lemma movie_name_slash s : has_char "/" (SanitizeMovieName s) = false.
Proof. apply trim_has, single_has, map_chars_has. intros x. destruct (movie_safe x) eqn:E; [|done]. intros [= ->]. discriminate E. Qed.

Lemma show_name_slash s : has_char "/" (SanitizeShowName s) = false.
Proof.
  unfold SanitizeShowName. set (t := trim_underscores _). assert (Ht : has_char "/" t = false).
  { apply trim_has, single_has, map_chars_has. intros x. destruct (show_unsafe x) eqn:E; [done|]. case_match; [done|]. intros [= ->]. discriminate E. }
  case_match; [done|]. destruct (trim_left_split (Ascii.eqb ".") t) as [a Ea]. rewrite Ea, has_char_append in Ht. by apply orb_false_iff in Ht as [_ Ht].
Qed.

(** The name of a show is one component, not hidden. *)
Lemma show_name_component s : SanitizeShowName s ≠ "" ∧ HasPrefix_char "." (SanitizeShowName s) = false.
Proof.
  unfold SanitizeShowName. set (t := trim_underscores _). pose proof (trim_left_head (Ascii.eqb ".") t) as Hh.
  destruct (String.eqb_spec (trim_left_by (Ascii.eqb ".") t) ""); [done|]. split; [done|]. by destruct (trim_left_by (Ascii.eqb ".") t).
Qed.

Lemma tags_slash n : has_char "/" (movie_tags n) = false ∧ has_char "_" (movie_tags n) = true.
Proof. unfold movie_tags. by repeat case_match. Qed.

Lemma substring_has c n m s : has_char c s = false → has_char c (String.substring n m s) = false.
Proof.
  revert n m. induction s as [|x s IH]; intros n m; [by destruct n, m|]. cbn [has_char]. intros [Hx Hs]%orb_false_iff.
  destruct n as [|n]; [|by apply IH]. destruct m as [|m]; [done|]. cbn [String.substring has_char]. rewrite Hx. by apply IH.
Qed.

Lemma year_length n : (String.length (movie_year n) ≤ 4)%nat.
Proof.
  assert (Hh : ∀ s y, year_here s = Some y → String.length y = 4%nat).
  { intros s y. unfold year_here. repeat (case_match; try done). by intros [= <-]. }
  assert (Ha : ∀ s y, year_after s = Some y → String.length y = 4%nat) by (intros [|c s] y; cbn [year_after]; [done|case_match; apply Hh]).
  assert (Hf : ∀ s y, year_from s = Some y → String.length y = 4%nat).
  { induction s as [|c s IH]; intros y; [done|]. cbn [year_from]. destruct (if year_sep c then year_after s else None) as [y'|] eqn:E.
    - intros [= ->]. destruct (year_sep c); [by eapply Ha|done].
    - destruct (Ascii.eqb c "010"); [done|apply IH]. }
  assert (Ht : ∀ s y, title_year s = Some y → String.length y = 4%nat).
  { induction s as [|c s IH]; intros y; [done|]. cbn [title_year]. destruct (if Ascii.eqb c "010" then None else year_from s) as [y'|] eqn:E.
    - intros [= ->]. destruct (Ascii.eqb c "010"); [done|by eapply Hf].
    - apply IH. }
  unfold movie_year. case_match; [apply substring_length|]. destruct (title_year (mn_title n)) as [y|] eqn:E; simpl; [|lia]. by rewrite (Ht _ _ E).
Qed.

(** Tags, hash and extension end the last component. *)
Definition movie_end (n : MovieName) : string := movie_tags n +:+ "_" +:+ HashSuffix (mn_hash n) +:+ ".mkv".

Lemma movie_stays base n : has_char "/" (mn_hash n) = false →
  ∃ x l, Forall proper ((x +:+ movie_end n) :: l) ∧
    foldl (clean_step true) base (split_char "/" (BuildMovieFilename n)) = (((x +:+ movie_end n) :: l) ++ base)%list.
Proof.
  intros Hh. unfold BuildMovieFilename. fold (movie_end n). set (b := movie_end n). pose proof (movie_name_slash (mn_title n)) as Hn.
  assert (Hb : has_char "/" b = false ∧ has_char "_" b = true).
  { destruct (tags_slash n) as [H1 H2]. unfold b, movie_end, HashSuffix. rewrite !has_char_append, H1, H2. split; [|done].
    case_match; [by rewrite Hh|by rewrite substring_has]. }
  destruct Hb as [Hb1 Hb2]. destruct (String.eqb (movie_year n) "").
  - change ("" +:+ b) with b. rewrite split_char_one by (by rewrite has_char_append, Hn, Hb1). exists (SanitizeMovieName (mn_title n)), [].
    assert (Hp : Forall proper [SanitizeMovieName (mn_title n) +:+ b]).
    { constructor; [|constructor]. apply (has_char_proper "_"); [by rewrite has_char_append, Hb2, orb_true_r|done]. }
    split; [done|]. by rewrite clean_proper by done.
  - rewrite append_assoc, <-append_assoc. apply slot_stays; [by rewrite has_char_append, Hn|done| | |apply year_length].
    + exists "_"%char. by rewrite has_char_append, orb_true_r.
    + by exists "_"%char.
Qed.

Lemma folder_stays base title date :
  ∃ l, l ≠ [] ∧ Forall proper l ∧ foldl (clean_step true) base (split_char "/" (ShowFolderName title date)) = (l ++ base)%list.
Proof.
  unfold ShowFolderName. pose proof (show_name_slash title) as Hn. case_match.
  - rewrite <-append_assoc. destruct (slot_stays base (SanitizeShowName title +:+ " (") (String.substring 0 4 date) ")") as (x & l & Hl & E);
      [by rewrite has_char_append, Hn|done| |by exists ")"%char|apply substring_length|exists ((x +:+ ")") :: l); by split_and!].
    exists " "%char. by rewrite has_char_append, orb_true_r.
  - destruct (show_name_component title) as [H1 H2]. rewrite split_char_one by done. exists [SanitizeShowName title].
    assert (Hp : Forall proper [SanitizeShowName title]) by (constructor; [|constructor]; split_and!; [done|..]; by intros E; rewrite E in H2).
    split_and!; [done|done|]. by rewrite clean_proper by done.
Qed.

Lemma movie_name_some n : BuildMovieFilename n ≠ "".
Proof.
  unfold BuildMovieFilename. intros H. assert (Hx : has_char "_" "" = true); [|done]. rewrite <-H, !has_char_append.
  destruct (tags_slash n) as [_ ->]. by rewrite orb_true_l, !orb_true_r.
Qed.

(** A joined path is clean: it ends in its last component. *)
Lemma join_ends dir name l c : rooted dir = true → name ≠ "" → comps (path_Join [dir; name]) = (l ++ [c])%list → ∃ a, path_Join [dir; name] = a +:+ c.
Proof.
  intros Hd Hn E. destruct (comps_join dir name Hd Hn) as [_ R]. unfold path_Join in *.
  rewrite !filter_cons, filter_nil, !decide_True in * by (done || by intros ->). rewrite bool_decide_eq_false_2 in * by done.
  set (s := join_slash [dir; name]) in *. assert (Hs : rooted s = true) by (by apply rooted_app). rewrite comps_Clean in E by done.
  rewrite Clean_comps, E by done. destruct l as [|x l]; [by exists "/"|].
  rewrite (join_app (x :: l) [c]) by done. exists (String "/" (join_slash (x :: l)) +:+ "/"). by rewrite append_assoc.
Qed.

Lemma plain_component s : has_char "/" s = false → has_char "S" s = true ∨ has_char "_" s = true → proper s.
Proof. intros _ [H|H]; by apply (has_char_proper _ _ H). Qed.

Lemma season_component season : 0 ≤ season → has_char "/" (season_dir season) = false ∧ proper (season_dir season).
Proof.
  intros Hs. assert (H : has_char "/" (season_dir season) = false).
  { unfold season_dir. rewrite has_char_append. destruct (pad2_digits season Hs) as [_ Hd]. by rewrite (all_chars_has _ "/" _ Hd). }
  split; [done|]. apply plain_component; [done|by left].
Qed.

Lemma episode_component show season episode hash8 : 0 ≤ season → 0 ≤ episode → has_char "/" hash8 = false →
  has_char "/" (EpisodeFilename show season episode hash8) = false ∧ proper (EpisodeFilename show season episode hash8).
Proof.
  intros Hs He Hh. destruct (pad2_digits season Hs) as [_ H1]. destruct (pad2_digits episode He) as [_ H2].
  assert (H : has_char "/" (EpisodeFilename show season episode hash8) = false).
  { unfold EpisodeFilename. by rewrite !has_char_append, show_name_slash, (all_chars_has _ "/" _ H1), (all_chars_has _ "/" _ H2), Hh. }
  split; [done|]. apply plain_component; [done|]. right. unfold EpisodeFilename. rewrite has_char_append. apply orb_true_r.
Qed.

Lemma folder_some title date : ShowFolderName title date ≠ "".
Proof. destruct (show_name_component title) as [H _]. unfold ShowFolderName. case_match; [|done]. by destruct (SanitizeShowName title). Qed.

(** The components of a path of an episode. *)
Lemma episode_path_comps dir title date season episode hash :
  rooted dir = true → 0 ≤ season → 0 ≤ episode → has_char "/" hash = false →
  ∃ l, l ≠ [] ∧ Forall proper l ∧ comps (episode_path dir title date season episode hash) =
    (comps dir ++ l ++ [season_dir season; EpisodeFilename title season episode (String.substring 0 8 hash)])%list ∧
    rooted (episode_path dir title date season episode hash) = true.
Proof.
  intros Hd Hs He Hh. unfold episode_path. destruct (folder_stays (rev (comps dir)) title date) as (l & Hl & Hp & E).
  destruct (season_component season Hs) as [Hs1 Hs2].
  destruct (episode_component title season episode (String.substring 0 8 hash) Hs He) as [He1 He2]; [by apply substring_has|].
  destruct (comps_join dir _ Hd (folder_some title date)) as [E1 R1].
  destruct (comps_join _ _ R1 (proj1 Hs2)) as [E2 R2]. destruct (comps_join _ _ R2 (proj1 He2)) as [E3 R3].
  exists (rev l). split_and!; [by intros ?%(f_equal (@rev string)); rewrite rev_involutive in *|by apply Forall_rev| |done].
  rewrite E3, E2, E1, E, !split_char_one by done. rewrite !rev_involutive.
  rewrite (clean_proper true _ [season_dir season]) by (by constructor).
  rewrite (clean_proper true _ [EpisodeFilename _ _ _ _]) by (by constructor). cbn [rev app].
  by rewrite !rev_app_distr, !rev_involutive, <-!app_assoc.
Qed.

(** C27: Whatever the title and the dates of a request, the file of a movie and of an
    episode is strictly below its media directory: of the dates only the length is
    checked, and the four bytes that are used may hold slashes and dots. *)
Theorem video_paths_contained dir title date release is4K hash season episode :
  rooted dir = true → has_char "/" hash = false → 0 ≤ season → 0 ≤ episode →
  (∃ l, l ≠ [] ∧ Forall proper l ∧
     comps (path_Join [dir; BuildMovieFilename (mkMovieName title date release is4K hash)]) = (comps dir ++ l)%list) ∧
  (∃ l, l ≠ [] ∧ Forall proper l ∧ comps (episode_path dir title date season episode hash) = (comps dir ++ l)%list).
Proof.
  intros Hd Hh Hs He. split.
  - set (n := mkMovieName title date release is4K hash). destruct (movie_stays (rev (comps dir)) n) as (x & l & Hp & E); [done|].
    pose proof (movie_name_some n) as Hne.
    destruct (comps_join dir _ Hd Hne) as [E1 _]. exists (rev ((x +:+ movie_end n) :: l)). split_and!; [|by apply Forall_rev|].
    + cbn [rev]. by destruct (rev l).
    + by rewrite E1, E, rev_app_distr, rev_involutive.
  - destruct (episode_path_comps dir title date season episode hash Hd Hs He Hh) as (l & Hl & Hp & E & _).
    exists (l ++ [season_dir season; EpisodeFilename title season episode (String.substring 0 8 hash)])%list. split_and!; [by destruct l| |done].
    destruct (season_component season Hs) as [_ Hs2].
    destruct (episode_component title season episode (String.substring 0 8 hash) Hs He) as [_ He2]; [by apply substring_has|].
    apply list.Forall_app. split; [done|]. by repeat constructor; try apply Hs2; try apply He2.
Qed.

(** The first four bytes of a date can name a directory of their own. *)
Lemma date_makes_directory : path_Join ["/media/tv"; ShowFolderName "Show" "/../2020"] = "/media/tv/)" ∧
  path_Join ["/media/movies"; BuildMovieFilename (mkMovieName "A" "x/y/" "" false "0123456789abcdef0123456789abcdef01234567")] =
    "/media/movies/A_x/y/_1080p_01234567.mkv".
Proof. split; vm_compute; reflexivity. Qed.

Lemma ParseSeasonEpisode_EpisodeFilename_witness : ParseSeasonEpisode (EpisodeFilename "The Show" 3 107 "0123abcd") = (3, 107).
Proof.
  rewrite (ParseSeasonEpisode_EpisodeFilename "The Show" 3 107 "0123abcd"); [|unfold in_i64, min_i64, max_i64; lia..].
  vm_compute. reflexivity.
Defined.

Lemma video_paths_contained_witness : ∃ l, l ≠ [] ∧ Forall proper l ∧
  comps (episode_path "/media/tv" "../x" "/../" 1 2 "0123456789abcdef0123456789abcdef01234567") = (comps "/media/tv" ++ l)%list.
Proof.
  apply (video_paths_contained "/media/tv" "../x" "/../" "" false "0123456789abcdef0123456789abcdef01234567" 1 2); (reflexivity || lia).
Defined.

(** ** Runes of a text that ends in ASCII *)

Lemma decode_append l1 b : l1 ≠ [] → Forall (λ z, z < 128) b → decode_rune (l1 ++ b) = decode_rune l1.
Proof.
  intros Hne Hb. assert (Hc : ∀ z, z < 128 → cont z = false) by (intros z Hz; unfold cont; lia).
  destruct l1 as [|x1 [|x2 [|x3 [|x4 l1]]]]; [done|..]; try done.
  - destruct b as [|y1 b]; [done|]. apply list.Forall_cons in Hb as [H1 Hb]. cbn [app]. unfold decode_rune. rewrite (Hc y1 H1).
    assert (E : ((160 <=? y1) && (y1 <=? 191)) = false ∧ ((128 <=? y1) && (y1 <=? 159)) = false ∧ ((144 <=? y1) && (y1 <=? 191)) = false ∧
      ((128 <=? y1) && (y1 <=? 143)) = false) by (split_and!; lia). destruct E as (-> & -> & -> & ->).
    destruct b as [|y2 [|y3 b]]; destruct (x1 =? 224), (x1 =? 237), (x1 =? 240), (x1 =? 244); cbn [andb]; rewrite ?andb_false_r; cbn [andb]; by repeat case_match.
  - destruct b as [|y1 b]; [done|]. apply list.Forall_cons in Hb as [H1 Hb]. cbn [app]. unfold decode_rune. rewrite (Hc y1 H1), !andb_false_r. cbn [andb].
    destruct b; by repeat case_match.
  - destruct b as [|y1 b]; [done|]. apply list.Forall_cons in Hb as [H1 Hb]. cbn [app]. unfold decode_rune. rewrite (Hc y1 H1), !andb_false_r. by repeat case_match.
Qed.

Lemma decode_width l r n : l ≠ [] → decode_rune l = (r, n) → (1 ≤ n ≤ length l)%nat.
Proof. intros Hne. unfold decode_rune. destruct l as [|a [|b [|c [|d l]]]]; [done|..]; repeat case_match; intros [= <- <-]; simpl; lia. Qed.

Lemma runes_append fuel l1 b : Forall (λ z, z < 128) b → (length l1 + length b ≤ fuel)%nat → runes fuel (l1 ++ b) = (runes fuel l1 ++ b)%list.
Proof.
  intros Hb. revert l1. induction fuel as [|fuel IH]; intros l1 Hl.
  { destruct l1; [|simpl in Hl; lia]. destruct b; [done|simpl in Hl; lia]. }
  destruct l1 as [|x l1].
  - clear IH. cbn [app]. change (runes (S fuel) []) with (@nil Z). cbn [app]. simpl in Hl. clear -Hb Hl.
    revert fuel Hl. induction Hb as [|y b Hy Hb IH]; intros fuel Hl; [done|]. cbn [runes]. unfold decode_rune. rewrite (proj2 (Z.ltb_lt y 128)) by done.
    cbn [skipn]. rewrite drop_0. simpl in Hl. destruct fuel as [|fuel]; [destruct b; [done|simpl in Hl; lia]|]. rewrite IH by lia. done.
  - change ((x :: l1) ++ b)%list with (x :: (l1 ++ b)%list). cbn [runes]. pose proof (decode_append (x :: l1) b ltac:(done) Hb) as E.
    change ((x :: l1) ++ b)%list with (x :: (l1 ++ b)%list) in E. rewrite E.
    destruct (decode_rune (x :: l1)) as [r n] eqn:Er. pose proof (decode_width (x :: l1) r n ltac:(done) Er) as Hn.
    change (x :: (l1 ++ b)%list) with ((x :: l1) ++ b)%list. rewrite drop_app_le by lia. cbn [app]. f_equal. apply IH. rewrite length_drop. simpl in *. lia.
Qed.

Lemma runes_fuel f f' l : (length l ≤ f)%nat → (length l ≤ f')%nat → runes f l = runes f' l.
Proof.
  revert f' l. induction f as [|f IH]; intros [|f'] l H1 H2; [done|destruct l; [done|simpl in *; lia]..|].
  destruct l as [|x l]; [done|]. cbn [runes]. destruct (decode_rune (x :: l)) as [r n] eqn:E.
  pose proof (decode_width (x :: l) r n ltac:(done) E). f_equal. apply IH; rewrite length_drop; simpl in *; lia.
Qed.

Lemma lower_runes_tail a b : Forall (λ z, z < 128) (bytes_of b) → lower_runes (a +:+ b) = (lower_runes a ++ (lower_rune <$> bytes_of b))%list.
Proof.
  intros Hb. unfold lower_runes, runes_of. rewrite bytes_app, slen_app, runes_append by (done || rewrite !bytes_length; lia).
  rewrite fmap_app. f_equal. f_equal. apply runes_fuel; rewrite bytes_length; lia.
Qed.
