(* ===== verification/Sources.v ===== *)
(** * The files a request names (internal/library/sourceresolve.go, audio.go)

    [ResolveSources] binds the source paths of a request to the files of its torrent,
    [ValidateProjectionPath] checks a destination against its section, its source and
    the hash of the torrent. *)

From Stdlib Require Import Ascii String.
From S2P Require Import Prelude GoFloat GoStrings Flac Cue CueSplit Paths.
Local Open Scope string_scope.
Local Open Scope Z_scope.
Local Open Scope go_scope.

(** ** Sections and extensions *)

Definition SectionMovies : string := "movies".
Definition SectionTV : string := "tv".
Definition SectionMusic : string := "music".
Definition SectionAudiobooks : string := "audiobooks".

Definition sectionExtensions (s : string) : list string :=
  if String.eqb s SectionMovies then [".mkv"]
  else if String.eqb s SectionTV then [".mkv"]
  else if String.eqb s SectionMusic then [".flac"]
  else if String.eqb s SectionAudiobooks then [".m4b"; ".m4a"; ".mp3"]
  else [].

Definition SectionForType (apiType : string) : option string :=
  if String.eqb apiType "movie" then Some SectionMovies
  else if String.eqb apiType "tv" then Some SectionTV
  else if String.eqb apiType "music" then Some SectionMusic
  else if String.eqb apiType "audiobook" then Some SectionAudiobooks
  else None.

Definition IsAudioSection (s : string) : bool := String.eqb s SectionMusic || String.eqb s SectionAudiobooks.

(** The stem and the extension of the final component. *)
Definition splitStub (name : string) : option (string * string) :=
  let base := pathBase name in
  match from_dot base with
  | None => None
  | Some ext => if (String.length ext =? 1)%nat || (String.length ext =? String.length base)%nat then None
                else Some (String.substring 0 (String.length base - String.length ext) base, ext)
  end.

Definition sectionAdmits (s ext : string) : bool := existsb (String.eqb ext) (sectionExtensions s).

Definition ExtensionAllowed (s name : string) : bool :=
  match splitStub name with None => false | Some (_, ext) => sectionAdmits s (ToLower ext) end.

Definition is_hex (c : ascii) : bool :=
  let k := code c in ((48 <=? k) && (k <=? 57)) || ((97 <=? k) && (k <=? 102)) || ((65 <=? k) && (k <=? 70)).

Definition HashSuffixToken (hash : string) : option string :=
  if negb (String.length hash =? 40)%nat then None
  else if negb (forallb is_hex (list_ascii_of_string hash)) then None
  else Some (ToLower (String.substring 32 8 hash)).

(** The token is hexadecimal: folding it is lower-casing ASCII. *)
Definition HasHashSuffix (name hash : string) : bool :=
  match HashSuffixToken hash, splitStub name with
  | Some token, Some (stem, _) =>
      if (String.length stem <? String.length token + 1)%nat then false
      else bool_decide (String.get (String.length stem - String.length token - 1) stem = Some "_"%char)
           && String.eqb (ToLower (String.substring (String.length stem - String.length token) (String.length token) stem)) token
  | _, _ => false
  end.

Definition IsVirtualStub (s name : string) : bool :=
  match splitStub name with
  | None => false
  | Some (stem, ext) =>
      if negb (IsAudioSection s) then sectionAdmits s ext
      else if HasPrefix_char "." stem then false else sectionAdmits s (ToLower ext)
  end.

Inductive path_error := ErrPathInvalid | ErrExtensionMismatch | ErrExtensionUnsupported | ErrHashSuffixInvalid.
Record ValidatedPath := mkValidated { vp_path : string; vp_key : string; vp_section : string }.

Section validate.
Context (upper nfc fold : string → string).
(** [strings.EqualFold] *)
Context (equal_fold : string → string → bool).

Definition ExtensionsAgree (sourcePath virtualPath : string) : bool :=
  match splitStub sourcePath, splitStub virtualPath with
  | Some (_, source), Some (_, virtual) => equal_fold source virtual
  | _, _ => false
  end.

Definition ValidateProjectionPath (sec virtualPath sourcePath hash : string) : path_error + ValidatedPath :=
  if negb (validatePathSyntax upper nfc virtualPath) then inl ErrPathInvalid
  else if negb (ExtensionsAgree sourcePath virtualPath) then inl ErrExtensionMismatch
  else if negb (IsAudioSection sec) then inl ErrExtensionUnsupported
  else if negb (ExtensionAllowed sec virtualPath) then inl ErrExtensionUnsupported
  else if negb (HasHashSuffix virtualPath hash) then inl ErrHashSuffixInvalid
  else inr (mkValidated virtualPath (PortablePathKey nfc fold virtualPath) sec).
End validate.

(** ** Sources *)

Inductive source_error := ErrSourceNotFound | ErrSourceDuplicate | ErrSourceAmbiguous | ErrSourceDrift.

Definition matchEntry (files : list FileStat) (sourcePath : string) : source_error + FileStat :=
  if String.eqb sourcePath "" then inl ErrSourceNotFound
  else match filter (λ f, Path f = sourcePath) files with
       | [] => inl ErrSourceNotFound
       | [f] => inr f
       | _ => inl ErrSourceAmbiguous
       end.

Definition checkEntry (files : list FileStat) (f : FileStat) : bool :=
  (0 <? ID f) && (0 <=? Length f) && (len (filter (λ g, ID g = ID f) files) <=? 1).

Definition bind_source (sourcePath : string) (f : FileStat) : ResolvedSource := mkSource sourcePath (ID f) (Length f).

Definition ResolveSource (files : list FileStat) (sourcePath : string) : source_error + ResolvedSource :=
  match matchEntry files sourcePath with
  | inl e => inl e
  | inr f => if checkEntry files f then inr (bind_source sourcePath f) else inl ErrSourceAmbiguous
  end.

(** The first loop: a path requested twice. *)
Fixpoint repeated {A} `{EqDecision A} (seen : list A) (l : list A) : bool :=
  match l with [] => false | x :: l => bool_decide (x ∈ seen) || repeated (x :: seen) l end.

Fixpoint check_all (files : list FileStat) (l : list (string * FileStat)) : source_error + list ResolvedSource :=
  match l with
  | [] => inr []
  | (p, f) :: l => if checkEntry files f
                   then match check_all files l with inl e => inl e | inr rs => inr (bind_source p f :: rs) end
                   else inl ErrSourceAmbiguous
  end.

Definition found (r : source_error + FileStat) : option FileStat := match r with inr f => Some f | inl _ => None end.
Fixpoint first_error (l : list (source_error + FileStat)) : option source_error :=
  match l with [] => None | inl e :: _ => Some e | inr _ :: l => first_error l end.

Definition ResolveSources (files : list FileStat) (sourcePaths : list string) : source_error + list ResolvedSource :=
  if repeated [] sourcePaths then inl ErrSourceDuplicate
  else
    let matches := matchEntry files <$> sourcePaths in
    if repeated [] (ID <$> omap found matches) then inl ErrSourceDuplicate
    else match first_error matches with
         | Some e => inl e
         | None => check_all files (zip sourcePaths (omap found matches))
         end.

Definition VerifyResolvedSource (files : list FileStat) (prior : ResolvedSource) : option source_error :=
  match ResolveSource files (SourcePath prior) with
  | inl e => Some e
  | inr current =>
      if negb (FileIndex current =? FileIndex prior) then Some ErrSourceDrift
      else if negb (SourceSize current =? SourceSize prior) then Some ErrSourceDrift
      else None
  end.

(** ** A resolved source is the one file that carries its path and its index *)

Lemma repeated_spec {A} `{EqDecision A} (seen l : list A) :
  repeated seen l = false ↔ NoDup l ∧ ∀ x, x ∈ l → x ∉ seen.
Proof.
  revert seen. induction l as [|x l IH]; intros seen; simpl.
  { split; [|done]. intros _. split; [constructor|]. intros x Hx. by apply elem_of_nil in Hx. }
  rewrite orb_false_iff, bool_decide_eq_false, IH, list.NoDup_cons. split.
  - intros (Hx & Hn & Hl). split; [split; [|done]|].
    + intros Hin. apply (Hl x Hin). left.
    + intros y [->|Hy]%elem_of_cons; [done|]. intros Hin. apply (Hl y Hy). by right.
  - intros [[Hx Hn] Hl]. split; [apply Hl; left|]. split; [done|]. intros y Hy [->|Hin]%elem_of_cons; [done|].
    apply (Hl y); [by right|done].
Qed.

(** What a path names: the only entry with the path, which no other shares its index with. *)
Definition names (files : list FileStat) (path : string) (r : ResolvedSource) : Prop :=
  ∃ f, path ≠ "" ∧ f ∈ files ∧ Path f = path ∧ 0 < ID f ∧ 0 ≤ Length f ∧ r = mkSource path (ID f) (Length f) ∧
    filter (λ g, Path g = path) files = [f] ∧ filter (λ g, ID g = ID f) files = [f].

Lemma filter_one {A} (P : A → Prop) `{!∀ x, Decision (P x)} (l : list A) x :
  x ∈ l → P x → len (filter P l) ≤ 1 → filter P l = [x].
Proof.
  intros Hx Hp Hl. assert (Hin : x ∈ filter P l) by (by apply list_elem_of_filter). unfold len in Hl.
  destruct (filter P l) as [|y [|z l']]; simpl in *; [by apply elem_of_nil in Hin| |lia].
  apply list_elem_of_singleton in Hin. by subst.
Qed.

Lemma matchEntry_spec files path f :
  matchEntry files path = inr f ↔ path ≠ "" ∧ f ∈ files ∧ Path f = path ∧ filter (λ g, Path g = path) files = [f].
Proof.
  unfold matchEntry. destruct (String.eqb_spec path "") as [->|Hp]; [split; [done|by intros [? _]]|].
  destruct (filter _ files) as [|g [|h l]] eqn:E; split; try done.
  - by intros (_ & _ & _ & ?).
  - intros [= ->]. assert (Hin : f ∈ filter (λ g, Path g = path) files) by (rewrite E; left).
    apply list_elem_of_filter in Hin as [? ?]. done.
  - by intros (_ & _ & _ & [= ->]).
  - by intros (_ & _ & _ & ?).
Qed.

Lemma check_names files path f r :
  matchEntry files path = inr f → checkEntry files f = true ∧ r = bind_source path f ↔ names files path r.
Proof.
  intros Hm. assert (Hs := Hm). apply matchEntry_spec in Hs as (Hp & Hin & Hpath & Hf). unfold checkEntry, names. split.
  - intros [Hc ->]. bool_simpl. exists f. split_and!; try done. by apply filter_one.
  - intros (g & _ & Hg & Hgp & H1 & H2 & -> & H3 & H4). rewrite Hf in H3. injection H3 as ->. split; [|done].
    rewrite H4. change (len [g]) with 1. rewrite (proj2 (Z.ltb_lt 0 (ID g))), (proj2 (Z.leb_le 0 (Length g))) by done. done.
Qed.

Lemma check_all_names files ps fs rs :
  Forall2 (λ p f, matchEntry files p = inr f) ps fs → check_all files (zip ps fs) = inr rs ↔ Forall2 (names files) ps rs.
Proof.
  intros H. revert rs. induction H as [|p f ps fs Hm Hall IH]; intros rs; simpl.
  { split; [intros [= <-]; constructor|intros Hr; by inversion Hr]. }
  split.
  - destruct (checkEntry files f) eqn:Ec; [|done]. destruct (check_all files _) as [e|rs'] eqn:Er; [done|]. intros [= <-].
    constructor; [apply (check_names files p f); [done|by split]|by apply IH].
  - intros Hr. inversion Hr as [|? r ? rs' H1 H2]; subst. apply (check_names files p f) in H1 as [-> ->]; [|done].
    apply IH in H2. by rewrite H2.
Qed.

Lemma matches_found files ps :
  first_error (matchEntry files <$> ps) = None → Forall2 (λ p f, matchEntry files p = inr f) ps (omap found (matchEntry files <$> ps)).
Proof.
  induction ps as [|p ps IH]; simpl; [constructor|]. destruct (matchEntry files p) as [e|f] eqn:E; [done|].
  intros H. simpl. constructor; [done|by apply IH].
Qed.

Lemma names_match files ps rs :
  Forall2 (names files) ps rs →
  first_error (matchEntry files <$> ps) = None ∧ (ID <$> omap found (matchEntry files <$> ps)) = (FileIndex <$> rs).
Proof.
  induction 1 as [|p r ps rs Hn _ [IH1 IH2]]; simpl; [done|]. destruct Hn as (f & Hp & Hin & Hpath & _ & _ & -> & Hf & _).
  assert (E : matchEntry files p = inr f) by (by apply matchEntry_spec). rewrite E. simpl. split; [done|]. by f_equal.
Qed.

(** Different paths name files with different indices. *)
Lemma names_indices files ps rs : NoDup ps → Forall2 (names files) ps rs → NoDup (FileIndex <$> rs).
Proof.
  intros Hd H. induction H as [|p r ps rs Hn Hall IH]; simpl; [constructor|]. apply list.NoDup_cons in Hd as [Hp Hd].
  apply list.NoDup_cons. split; [|by apply IH]. intros (r' & E & Hr')%list_elem_of_fmap.
  apply list_elem_of_lookup_1 in Hr' as [i Hi]. destruct (Forall2_lookup_r _ _ _ _ _ Hall Hi) as (p' & Hp' & Hn').
  destruct Hn as (f & _ & _ & Hf & _ & _ & -> & _ & H1). destruct Hn' as (g & _ & _ & Hg & _ & _ & -> & _ & H2). simpl in E.
  rewrite E, H2 in H1. injection H1 as ->. apply Hp. rewrite <-Hf, Hg. by eapply list_elem_of_lookup_2.
Qed.

(** C29: A request resolves exactly when its paths are distinct and each is carried by
    one file of the torrent, whose index no other file has, and then to these files in
    the order of the request: the index a stream is opened by serves the named file. *)
Theorem ResolveSources_exact files paths rs :
  ResolveSources files paths = inr rs ↔ NoDup paths ∧ Forall2 (names files) paths rs.
Proof.
  unfold ResolveSources. split.
  - destruct (repeated [] paths) eqn:E1; [done|]. apply repeated_spec in E1 as [Hd _].
    destruct (repeated [] (ID <$> _)); [done|]. destruct (first_error _) eqn:E2; [done|]. intros H. split; [done|].
    eapply check_all_names; [by apply matches_found|done].
  - intros [Hd Hn]. destruct (names_match _ _ _ Hn) as [E1 E2].
    rewrite (proj2 (repeated_spec [] paths)) by (split; [done|intros x _ []%elem_of_nil]).
    rewrite E2, (proj2 (repeated_spec [] (FileIndex <$> rs))), E1.
    + apply check_all_names; [by apply matches_found|done].
    + split; [by eapply names_indices|intros x _ []%elem_of_nil].
Qed.

Definition sample_files : list FileStat := [mkStat 1 "a.flac" 10; mkStat 2 "b.flac" 20].
Example resolve_sample : ResolveSources sample_files ["b.flac"; "a.flac"] = inr [mkSource "b.flac" 2 20; mkSource "a.flac" 1 10].
Proof. by vm_compute. Qed.
