(* ===== verification/AudioRegistry.v ===== *)
(** * The registry of audio projections (internal/metadb/audio.go, audiopage.go,
    audioprefix.go; internal/library/idempotency.go and the rows of atomicadd.go)

    The table audio_projections is a map from a section and a virtual path to a row:
    its first UNIQUE constraint.  The other two, and the CHECK constraints, are tested
    by the insertion.  [PlanAudioProjections] decides what an add would create through
    the interface [AudioProjectionLookup]; [audio_rows] are the rows it then stages.

    A SQL statement either fails and changes nothing or has the effect modelled here;
    the failures are outcomes of the steps that call it.  The row id is not modelled. *)

From Stdlib Require Import Ascii String.
From S2P Require Import Prelude GoFloat GoStrings Flac Cue CueSplit Paths Sources.
Local Open Scope string_scope.
Local Open Scope Z_scope.
Local Open Scope go_scope.

(** ** Rows *)

Inductive AudioProjectionState := AudioStaged | AudioCommitted | AudioRemoving.

#[export] Instance state_eq_dec : EqDecision AudioProjectionState.
Proof. solve_decision. Defined.

Record AudioProjection := mkRow {
  row_section : string;
  VirtualPath : string;
  row_key : string;                 (* PortablePathKey *)
  row_hash : string;
  row_index : Z;
  row_source : string;
  row_size : Z;
  MtimeNS : Z;
  row_title : string;
  row_magnet : string;
  ExternalID : string;
  ExternalIDNamespace : string;
  row_track : Z;
  ByteOffset : Z;
  row_header : list Byte.byte;
  State : AudioProjectionState;
  TxnID : string;
  StagingName : string;
  CreatedAtNS : Z;
  UpdatedAtNS : Z
}.

#[export] Instance row_eq_dec : EqDecision AudioProjection.
Proof. solve_decision. Defined.

Abbreviation AudioPath := (string * string)%type.
Abbreviation registry := (gmap (string * string) AudioProjection).

Definition row_path (r : AudioProjection) : AudioPath := (row_section r, VirtualPath r).
Definition row_from (r : AudioProjection) : string * Z * Z := (row_hash r, row_index r, row_track r).

Definition with_state (s : AudioProjectionState) (now : Z) (r : AudioProjection) : AudioProjection :=
  mkRow (row_section r) (VirtualPath r) (row_key r) (row_hash r) (row_index r) (row_source r) (row_size r) (MtimeNS r)
    (row_title r) (row_magnet r) (ExternalID r) (ExternalIDNamespace r) (row_track r) (ByteOffset r) (row_header r)
    s (TxnID r) (StagingName r) (CreatedAtNS r) now.
Definition staged_by (txn : string) (r : AudioProjection) : AudioProjection :=
  mkRow (row_section r) (VirtualPath r) (row_key r) (row_hash r) (row_index r) (row_source r) (row_size r) (MtimeNS r)
    (row_title r) (row_magnet r) (ExternalID r) (ExternalIDNamespace r) (row_track r) (ByteOffset r) (row_header r)
    AudioStaged txn (StagingName r) (CreatedAtNS r) (UpdatedAtNS r).

(** ** Queries *)

Definition row_less (a b : AudioProjection) : bool :=
  if String.eqb (row_section a) (row_section b) then String.ltb (VirtualPath a) (VirtualPath b)
  else String.ltb (row_section a) (row_section b).
Definition path_less (a b : AudioProjection) : bool := String.ltb (VirtualPath a) (VirtualPath b).
(** The rows that satisfy a condition, in an order; by section and path where no other
    order is given, also where the statement leaves it open. *)
Definition rows_by (less : AudioProjection → AudioProjection → bool) (P : AudioProjection → bool) (reg : registry) : list AudioProjection :=
  insertion_sort less (filter (λ r, P r = true) (map_to_list reg).*2).
Abbreviation rows_where := (rows_by row_less).

Definition GetAudioProjection (reg : registry) (sec p : string) : option AudioProjection := reg !! (sec, p).
Definition AudioProjectionByPortableKey (reg : registry) (sec key : string) : option AudioProjection :=
  head (rows_where (λ r, String.eqb (row_section r) sec && String.eqb (row_key r) key) reg).
Definition AudioProjectionBySource (reg : registry) (hash : string) (index track : Z) : option AudioProjection :=
  head (rows_where (λ r, bool_decide (row_from r = (hash, index, track))) reg).
Definition AudioProjectionsByHash (reg : registry) (hash : string) : list AudioProjection :=
  rows_where (λ r, String.eqb (row_hash r) hash) reg.
Definition AudioProjectionsByState (reg : registry) (s : AudioProjectionState) : list AudioProjection :=
  rows_where (λ r, bool_decide (State r = s)) reg.
Definition CommittedAudioProjections (reg : registry) (sec : string) : list AudioProjection :=
  rows_by path_less (λ r, bool_decide (State r = AudioCommitted) && (String.eqb sec "" || String.eqb (row_section r) sec)) reg.
Definition any_row (P : AudioProjection → bool) (reg : registry) : bool := existsb P (map_to_list reg).*2.
Definition AudioHashReferenced (reg : registry) (hash : string) : bool := any_row (λ r, String.eqb (row_hash r) hash) reg.

(** The prefix itself, or anything below it as a whole component. *)
Definition below (prefix p : string) : bool := String.eqb p prefix || String.prefix (prefix +:+ "/") p.
Definition AudioProjectionsByPrefix (reg : registry) (sec prefix : string) : list AudioProjection :=
  rows_where (λ r, String.eqb (row_section r) sec && negb (bool_decide (State r = AudioStaged)) && below prefix (VirtualPath r)) reg.

Definition DefaultAudioProjectionPageLimit : Z := 200.
Definition MaxAudioProjectionPageLimit : Z := 1000.
Definition AudioProjectionPage (reg : registry) (sec pathPrefix afterPath : string) (limit : Z) : list AudioProjection :=
  let limit := if limit <=? 0 then DefaultAudioProjectionPageLimit
               else if limit >? MaxAudioProjectionPageLimit then MaxAudioProjectionPageLimit else limit in
  take (Z.to_nat limit)
    (rows_where (λ r, String.eqb (row_section r) sec && bool_decide (State r = AudioCommitted)
       && (String.eqb pathPrefix "" || String.prefix pathPrefix (VirtualPath r))
       && (String.eqb afterPath "" || String.ltb afterPath (VirtualPath r))) reg).

(** ** Updates *)

Inductive audio_error := ErrAudioPathConflict | ErrAudioSourceConflict | ErrAudioIdentityIncomplete | ErrDatabase.

Definition path_taken (r : AudioProjection) (reg : registry) : bool :=
  bool_decide (is_Some (reg !! row_path r)) ||
  any_row (λ s, String.eqb (row_section s) (row_section r) && String.eqb (row_key s) (row_key r)) reg.
Definition source_taken (r : AudioProjection) (reg : registry) : bool :=
  any_row (λ s, bool_decide (row_from s = row_from r)) reg.
(** The CHECK constraints. *)
Definition row_checks (r : AudioProjection) : bool :=
  (String.eqb (row_section r) "music" || String.eqb (row_section r) "audiobooks")
  && (0 <? row_index r) && (0 <? row_size r) && (0 <=? row_track r) && (0 <=? ByteOffset r).

Definition insert_row (txn : string) (r : AudioProjection) (reg : registry) : audio_error + registry :=
  if path_taken r reg then inl ErrAudioPathConflict
  else if source_taken r reg then inl ErrAudioSourceConflict
  else if negb (row_checks r) then inl ErrDatabase
  else inr (<[row_path r := staged_by txn r]> reg).

Fixpoint insert_rows (txn : string) (ps : list AudioProjection) (reg : registry) : audio_error + registry :=
  match ps with
  | [] => inr reg
  | r :: ps => match insert_row txn r reg with inl e => inl e | inr reg => insert_rows txn ps reg end
  end.

Definition half_identity (r : AudioProjection) : bool :=
  negb (Bool.eqb (String.eqb (ExternalID r) "") (String.eqb (ExternalIDNamespace r) "")).

Definition StageAudioProjections (txn : string) (ps : list AudioProjection) (reg : registry) : audio_error + registry :=
  if bool_decide (ps = []) then inr reg
  else if existsb half_identity ps then inl ErrAudioIdentityIncomplete
  else insert_rows txn ps reg.

Definition in_txn (txn : string) (r : AudioProjection) : bool :=
  String.eqb (TxnID r) txn && bool_decide (State r = AudioStaged).

Definition CommitAudioProjections (txn : string) (now : Z) (reg : registry) : registry * Z :=
  ((λ r, if in_txn txn r then with_state AudioCommitted now r else r) <$> reg, len (rows_where (in_txn txn) reg)).
Definition RollbackAudioProjections (txn : string) (reg : registry) : registry :=
  filter (λ kr, in_txn txn kr.2 = false) reg.
Definition MarkAudioProjectionRemoving (sec p : string) (now : Z) (reg : registry) : registry * bool :=
  match reg !! (sec, p) with
  | Some r => if bool_decide (State r = AudioCommitted) then (<[(sec, p) := with_state AudioRemoving now r]> reg, true) else (reg, false)
  | None => (reg, false)
  end.
Fixpoint MarkAudioProjectionsRemovingPaths (sec : string) (ps : list string) (now : Z) (reg : registry) : registry :=
  match ps with [] => reg | p :: ps => MarkAudioProjectionsRemovingPaths sec ps now (MarkAudioProjectionRemoving sec p now reg).1 end.
Definition DeleteAudioProjection (sec p : string) (reg : registry) : registry := delete (sec, p) reg.

(** ** Planning an add *)

(** The interface through which an add reads the registry; [None] is a failed read. *)
Record AudioProjectionLookup := mkLookup {
  lk_path : string → string → option (option AudioProjection);
  lk_source : string → Z → Z → option (option AudioProjection);
  lk_key : string → string → option (option AudioProjection)
}.
Definition registry_lookup (reg : registry) : AudioProjectionLookup :=
  mkLookup (λ s p, Some (GetAudioProjection reg s p)) (λ h i t, Some (AudioProjectionBySource reg h i t))
    (λ s k, Some (AudioProjectionByPortableKey reg s k)).

Inductive plan_error := PlanLookup | PlanPathConflict | PlanSourceConflict | PlanLengths.
(** [Existing] is the row of a projection that is already present. *)
Record AudioProjectionPlan := mkPlan { pl_path : string; pl_source : ResolvedSource; Existing : option AudioProjection }.

Definition is_present (sec hash virtualPath : string) (source : ResolvedSource) (cueTrack : Z) (e : AudioProjection) : bool :=
  bool_decide (State e = AudioCommitted) && String.eqb (row_hash e) hash && (row_index e =? FileIndex source)
  && (row_track e =? cueTrack) && String.eqb (row_source e) (SourcePath source) && (row_size e =? SourceSize source).

Section planning.
Context (portable : string → string).   (* PortablePathKey *)

Definition ClassifyAudioProjection (lookup : AudioProjectionLookup) (sec hash virtualPath : string)
    (source : ResolvedSource) (cueTrack : Z) : plan_error + AudioProjectionPlan :=
  match lk_path lookup sec virtualPath with
  | None => inl PlanLookup
  | Some (Some e) =>
      if is_present sec hash virtualPath source cueTrack e then inr (mkPlan virtualPath source (Some e))
      else inl PlanPathConflict
  | Some None =>
      match lk_key lookup sec (portable virtualPath) with
      | None => inl PlanLookup
      | Some (Some _) => inl PlanPathConflict
      | Some None =>
          match lk_source lookup hash (FileIndex source) cueTrack with
          | None => inl PlanLookup
          | Some (Some _) => inl PlanSourceConflict
          | Some None => inr (mkPlan virtualPath source None)
          end
      end
  end.

(** The requests in order, with the keys and sources claimed before them. *)
Fixpoint plan_each (lookup : AudioProjectionLookup) (sec hash : string) (keys : list string) (claimed : list (Z * Z))
    (l : list (AudioFileRequest * ResolvedSource)) : plan_error + list AudioProjectionPlan :=
  match l with
  | [] => inr []
  | (req, src) :: l =>
      match ClassifyAudioProjection lookup sec hash (rq_path req) src (CueTrack req) with
      | inl e => inl e
      | inr plan =>
          if bool_decide (portable (rq_path req) ∈ keys) then inl PlanPathConflict
          else if bool_decide ((FileIndex src, CueTrack req) ∈ claimed) then inl PlanSourceConflict
          else match plan_each lookup sec hash (portable (rq_path req) :: keys) ((FileIndex src, CueTrack req) :: claimed) l with
               | inl e => inl e
               | inr plans => inr (plan :: plans)
               end
      end
  end.

Definition PlanAudioProjections (lookup : AudioProjectionLookup) (sec hash : string)
    (requests : list AudioFileRequest) (sources : list ResolvedSource) : plan_error + list AudioProjectionPlan :=
  if negb (length requests =? length sources)%nat then inl PlanLengths
  else plan_each lookup sec hash [] [] (zip requests sources).

(** ** The rows an add stages *)

Definition staging_name (txn : string) (i : nat) : string := ".tiramisu-" +:+ txn +:+ "-" +:+ itoa (Z.of_nat i).

(** Where a cue track lives, by the index of its request. *)
Definition audio_row (txn : string) (now : Z) (sec hash title magnet : string) (segments : nat → option cueSegment)
    (i : nat) (req : AudioFileRequest) (plan : AudioProjectionPlan) : AudioProjection :=
  mkRow sec (pl_path plan) (portable (pl_path plan)) hash (FileIndex (pl_source plan)) (SourcePath (pl_source plan))
    (SourceSize (pl_source plan)) now title magnet (rq_id req) (rq_ns req) (CueTrack req)
    (match segments i with Some s => sg_offset s | None => 0 end) (match segments i with Some s => sg_header s | None => [] end)
    AudioStaged "" (staging_name txn i) now now.

Fixpoint audio_rows (txn : string) (now : Z) (sec hash title magnet : string) (segments : nat → option cueSegment)
    (i : nat) (l : list (AudioFileRequest * AudioProjectionPlan)) : list AudioProjection :=
  match l with
  | [] => []
  | (req, plan) :: l =>
      let rest := audio_rows txn now sec hash title magnet segments (S i) l in
      match Existing plan with Some _ => rest | None => audio_row txn now sec hash title magnet segments i req plan :: rest end
  end.
End planning.

(** ** Facts about queries *)

Lemma any_row_spec P reg : any_row P reg = true ↔ ∃ k r, reg !! k = Some r ∧ P r = true.
Proof.
  unfold any_row. rewrite existsb_exists. split.
  - intros (r & Hr%list_elem_of_In & Hp). apply list_elem_of_fmap in Hr as ([k r'] & -> & Hk). apply elem_of_map_to_list in Hk. eauto.
  - intros (k & r & Hk & Hp). exists r. split; [|done]. apply list_elem_of_In, list_elem_of_fmap. exists (k, r). split; [done|].
    by apply elem_of_map_to_list.
Qed.

Lemma rows_where_spec less P reg r : r ∈ rows_by less P reg ↔ P r = true ∧ ∃ k, reg !! k = Some r.
Proof.
  unfold rows_by. rewrite (insertion_sort_perm less), list_elem_of_filter, list_elem_of_fmap. split.
  - intros (Hp & [k r'] & -> & Hk%elem_of_map_to_list). eauto.
  - intros (Hp & k & Hk). split; [done|]. exists (k, r). by split; [|apply elem_of_map_to_list].
Qed.

Lemma head_none {A} (l : list A) : head l = None ↔ l = [].
Proof. by destruct l. Qed.

Lemma head_rows_none P reg : head (rows_where P reg) = None ↔ any_row P reg = false.
Proof.
  rewrite head_none. split.
  - intros E. apply not_true_is_false. intros (k & r & Hk & Hp)%any_row_spec.
    assert (Hin : r ∈ rows_where P reg) by (apply rows_where_spec; eauto). rewrite E in Hin. by apply elem_of_nil in Hin.
  - intros E. destruct (rows_where P reg) as [|r l] eqn:El; [done|]. exfalso.
    assert (Hin : r ∈ rows_where P reg) by (rewrite El; left). apply rows_where_spec in Hin as (Hp & k & Hk).
    assert (any_row P reg = true) by (apply any_row_spec; eauto). congruence.
Qed.

(** ** The constraints of the table *)

Record reg_ok (reg : registry) : Prop := {
  ro_path k r : reg !! k = Some r → k = row_path r;
  ro_checks k r : reg !! k = Some r → row_checks r = true;
  ro_keys k1 k2 r1 r2 : reg !! k1 = Some r1 → reg !! k2 = Some r2 →
    row_section r1 = row_section r2 → row_key r1 = row_key r2 → k1 = k2;
  ro_sources k1 k2 r1 r2 : reg !! k1 = Some r1 → reg !! k2 = Some r2 → row_from r1 = row_from r2 → k1 = k2
}.

(** A registry whose rows are those of another, up to their states. *)
Lemma reg_ok_sub reg reg' :
  reg_ok reg →
  (∀ k r', reg' !! k = Some r' → ∃ r, reg !! k = Some r ∧ row_path r' = row_path r ∧ row_key r' = row_key r ∧
     row_from r' = row_from r ∧ row_checks r' = row_checks r) →
  reg_ok reg'.
Proof.
  intros Hok Hsub. split.
  - intros k r' (r & Hr & -> & _)%Hsub. by apply (ro_path _ Hok).
  - intros k r' (r & Hr & _ & _ & _ & ->)%Hsub. by eapply ro_checks.
  - intros k1 k2 r1' r2' (r1 & H1 & P1 & K1 & _)%Hsub (r2 & H2 & P2 & K2 & _)%Hsub Es Ek.
    apply (ro_keys _ Hok k1 k2 r1 r2 H1 H2); [|congruence]. unfold row_path in P1, P2. congruence.
  - intros k1 k2 r1' r2' (r1 & H1 & _ & _ & F1 & _)%Hsub (r2 & H2 & _ & _ & F2 & _)%Hsub Ef.
    apply (ro_sources _ Hok k1 k2 r1 r2 H1 H2). congruence.
Qed.

Lemma not_any P reg : any_row P reg = false → ∀ k r, reg !! k = Some r → P r = false.
Proof. intros H k r Hk. apply not_true_is_false. intros Hp. assert (any_row P reg = true) by (apply any_row_spec; eauto). congruence. Qed.

Lemma insert_row_ok txn r reg reg' : reg_ok reg → insert_row txn r reg = inr reg' → reg_ok reg' ∧ reg !! row_path r = None ∧
  reg' = <[row_path r := staged_by txn r]> reg.
Proof.
  intros Hok. unfold insert_row. destruct (path_taken r reg) eqn:E1; [done|]. destruct (source_taken r reg) eqn:E2; [done|].
  destruct (row_checks r) eqn:E3; [|done]. intros [= <-]. unfold path_taken in E1. apply orb_false_iff in E1 as [Hp Hk].
  apply bool_decide_eq_false, eq_None_not_Some in Hp. pose proof (not_any _ _ Hk) as Hkeys. pose proof (not_any _ _ E2) as Hsrc.
  split; [|done]. split.
  - intros k s [[<- <-]|[_ Hs]]%lookup_insert_Some; [done|by eapply ro_path].
  - intros k s [[<- <-]|[_ Hs]]%lookup_insert_Some; [done|by eapply ro_checks].
  - intros k1 k2 r1 r2 [[<- <-]|[_ H1]]%lookup_insert_Some [[<- <-]|[_ H2]]%lookup_insert_Some; simpl; intros Es Ek.
    + done.
    + specialize (Hkeys _ _ H2). simpl in Hkeys. rewrite <-Es, <-Ek, !String.eqb_refl in Hkeys. done.
    + specialize (Hkeys _ _ H1). simpl in Hkeys. rewrite Es, Ek, !String.eqb_refl in Hkeys. done.
    + by eapply ro_keys.
  - intros k1 k2 r1 r2 [[<- <-]|[_ H1]]%lookup_insert_Some [[<- <-]|[_ H2]]%lookup_insert_Some; intros Ef.
    + done.
    + specialize (Hsrc _ _ H2). simpl in Hsrc. by apply bool_decide_eq_false in Hsrc.
    + specialize (Hsrc _ _ H1). simpl in Hsrc. by apply bool_decide_eq_false in Hsrc.
    + by eapply ro_sources.
Qed.

(** The rows of a batch, as they are stored. *)
Definition batch (txn : string) (ps : list AudioProjection) : registry :=
  list_to_map ((λ r, (row_path r, staged_by txn r)) <$> ps).

Lemma insert_rows_ok txn ps reg reg' :
  reg_ok reg → insert_rows txn ps reg = inr reg' →
  reg_ok reg' ∧ NoDup (row_path <$> ps) ∧ (∀ r, r ∈ ps → reg !! row_path r = None) ∧
  (∀ k, reg' !! k = match batch txn ps !! k with Some r => Some r | None => reg !! k end).
Proof.
  revert reg. induction ps as [|r ps IH]; intros reg Hok; simpl.
  { intros [= <-]. split_and!; [done|constructor|by intros r ?%elem_of_nil|done]. }
  destruct (insert_row txn r reg) as [e|reg1] eqn:E1; [done|]. intros E2.
  destruct (insert_row_ok _ _ _ _ Hok E1) as (Hok1 & Hnone & ->). destruct (IH _ Hok1 E2) as (Hok' & Hnd & Hfree & Hl).
  assert (Hnot : row_path r ∉ row_path <$> ps).
  { intros (s & Es & Hs)%list_elem_of_fmap. specialize (Hfree s Hs). apply lookup_insert_None in Hfree as [_ Hne]. by apply Hne. }
  split_and!; [done|by apply list.NoDup_cons| |].
  - intros s [->|Hs]%elem_of_cons; [done|]. specialize (Hfree s Hs). by apply lookup_insert_None in Hfree as [? _].
  - intros k. rewrite Hl. unfold batch. simpl. destruct (decide (row_path r = k)) as [<-|Hne].
    + rewrite lookup_insert_eq. replace (list_to_map _ !! row_path r) with (@None AudioProjection); [by rewrite lookup_insert_eq|].
      symmetry. apply not_elem_of_list_to_map. intros (x & Ex & Hx)%list_elem_of_fmap. apply Hnot.
      apply list_elem_of_fmap in Hx as (s & -> & Hs). simpl in Ex. rewrite Ex. apply list_elem_of_fmap. eauto.
    + by rewrite !lookup_insert_ne by done.
Qed.

(** ** The updates keep the constraints *)

Lemma lookup_commit txn now reg k :
  (CommitAudioProjections txn now reg).1 !! k = (λ r, if in_txn txn r then with_state AudioCommitted now r else r) <$> reg !! k.
Proof. apply lookup_fmap. Qed.

Lemma lookup_rollback txn reg k r : RollbackAudioProjections txn reg !! k = Some r ↔ reg !! k = Some r ∧ in_txn txn r = false.
Proof. unfold RollbackAudioProjections. by rewrite map_lookup_filter_Some. Qed.

Lemma mark_ok sec p now reg : reg_ok reg → reg_ok (MarkAudioProjectionRemoving sec p now reg).1.
Proof.
  intros Hok. apply (reg_ok_sub reg); [done|]. intros k r'. unfold MarkAudioProjectionRemoving.
  destruct (reg !! (sec, p)) as [r|] eqn:E; [|eauto 6]. destruct (bool_decide _); [|simpl; eauto 6].
  simpl. intros [[<- <-]|[_ Hk]]%lookup_insert_Some; [|eauto 6]. exists r. split_and!; done.
Qed.

(** One update of the table. *)
Inductive reg_update : registry → registry → Prop :=
  | RU_stage txn ps reg reg' : StageAudioProjections txn ps reg = inr reg' → reg_update reg reg'
  | RU_commit txn now reg : reg_update reg (CommitAudioProjections txn now reg).1
  | RU_rollback txn reg : reg_update reg (RollbackAudioProjections txn reg)
  | RU_mark sec p now reg : reg_update reg (MarkAudioProjectionRemoving sec p now reg).1
  | RU_mark_paths sec ps now reg : reg_update reg (MarkAudioProjectionsRemovingPaths sec ps now reg)
  | RU_delete sec p reg : reg_update reg (DeleteAudioProjection sec p reg).

Lemma stage_ok txn ps reg reg' :
  reg_ok reg → StageAudioProjections txn ps reg = inr reg' →
  reg_ok reg' ∧ NoDup (row_path <$> ps) ∧ (∀ r, r ∈ ps → reg !! row_path r = None) ∧
  (∀ k, reg' !! k = match batch txn ps !! k with Some r => Some r | None => reg !! k end).
Proof.
  intros Hok. unfold StageAudioProjections. destruct (bool_decide_reflect (ps = [])) as [->|Hne].
  { intros [= <-]. split_and!; [done|constructor|by intros r ?%elem_of_nil|done]. }
  destruct (existsb _ _); [done|]. by apply insert_rows_ok.
Qed.

Lemma commit_ok txn now reg : reg_ok reg → reg_ok (CommitAudioProjections txn now reg).1.
Proof.
  intros Hok. apply (reg_ok_sub reg); [done|]. intros k r'. rewrite lookup_commit.
  destruct (reg !! k) as [r|] eqn:E; [|done]. intros [= <-]. exists r. by destruct (in_txn txn r).
Qed.

Lemma rollback_ok txn reg : reg_ok reg → reg_ok (RollbackAudioProjections txn reg).
Proof. intros Hok. apply (reg_ok_sub reg); [done|]. intros k r' [Hr _]%lookup_rollback. eauto 6. Qed.

Lemma delete_ok sec p reg : reg_ok reg → reg_ok (DeleteAudioProjection sec p reg).
Proof. intros Hok. apply (reg_ok_sub reg); [done|]. unfold DeleteAudioProjection. intros k r' [_ Hr]%lookup_delete_Some. eauto 6. Qed.


(** ** A planned batch is staged *)

Section planned.
Context (portable : string → string) (txn : string) (now : Z) (sec hash title magnet : string).
Context (segments : nat → option cueSegment) (reg : registry).

Local Abbreviation rows_of := (audio_rows portable txn now sec hash title magnet segments).

(** The table after some rows of the batch: what is new has a claimed key and source. *)
Definition extends (keys : list string) (claimed : list (Z * Z)) (cur : registry) : Prop :=
  ∀ k r, cur !! k = Some r → reg !! k = Some r ∨
    (k = row_path r ∧ row_section r = sec ∧ row_key r = portable (VirtualPath r) ∧ row_key r ∈ keys ∧
     (row_index r, row_track r) ∈ claimed).

Lemma classify_created virtualPath source cueTrack plan :
  ClassifyAudioProjection portable (registry_lookup reg) sec hash virtualPath source cueTrack = inr plan →
  pl_path plan = virtualPath ∧ pl_source plan = source ∧
  (Existing plan = None →
   reg !! (sec, virtualPath) = None ∧
   any_row (λ r, String.eqb (row_section r) sec && String.eqb (row_key r) (portable virtualPath)) reg = false ∧
   any_row (λ r, bool_decide (row_from r = (hash, FileIndex source, cueTrack))) reg = false) ∧
  (∀ e, Existing plan = Some e → reg !! (sec, virtualPath) = Some e).
Proof.
  unfold ClassifyAudioProjection. simpl. unfold GetAudioProjection. destruct (reg !! (sec, virtualPath)) as [e|] eqn:E1.
  { destruct (is_present _ _ _ _ _ _); [|done]. intros [= <-]. by split_and!. }
  unfold AudioProjectionByPortableKey, AudioProjectionBySource.
  destruct (head (rows_where _ reg)) eqn:E2; [done|]. destruct (head (rows_where (λ r, bool_decide _) reg)) eqn:E3; [done|].
  intros [= <-]. apply head_rows_none in E2, E3. by split_and!.
Qed.

Lemma planned_insert i keys claimed l plans cur :
  plan_each portable (registry_lookup reg) sec hash keys claimed l = inr plans → extends keys claimed cur →
  (∀ r, r ∈ rows_of i (zip l.*1 plans) → row_checks r = true) →
  ∃ cur', insert_rows txn (rows_of i (zip l.*1 plans)) cur = inr cur'.
Proof.
  revert i keys claimed plans cur. induction l as [|[req src] l IH]; intros i keys claimed plans cur; simpl.
  { intros [= <-] _ _. by exists cur. }
  destruct (ClassifyAudioProjection _ _ _ _ _ _ _) as [e|plan] eqn:Ec; [done|].
  destruct (bool_decide_reflect (portable (rq_path req) ∈ keys)) as [|Hkey]; [done|].
  destruct (bool_decide_reflect ((FileIndex src, CueTrack req) ∈ claimed)) as [|Hsrc]; [done|].
  destruct (plan_each _ _ _ _ _ _ _) as [e|plans'] eqn:Ep; [done|]. intros [= <-] Hext Hchk.
  destruct (classify_created _ _ _ _ Ec) as (Hp & Hs & Hnew & _). simpl in Hchk |- *.
  assert (Hmore : extends (portable (rq_path req) :: keys) ((FileIndex src, CueTrack req) :: claimed) cur).
  { intros k r Hk. destruct (Hext k r Hk) as [|(H1 & H2 & H3 & H4 & H5)]; [by left|right]. split_and!; try done; by right. }
  destruct (Existing plan) as [e|]; [by eapply IH|].
  set (row := audio_row portable txn now sec hash title magnet segments i req plan) in *.
  destruct (Hnew eq_refl) as (N1 & N2 & N3). cbn [insert_rows].
  assert (Hfree : path_taken row cur = false ∧ source_taken row cur = false).
  { split.
    - unfold path_taken. apply orb_false_iff. split.
      + apply bool_decide_eq_false. intros [r Hr]. destruct (Hext _ _ Hr) as [Hr'|(H1 & H2 & H3 & H4 & H5)].
        * unfold row_path in Hr'. simpl in Hr'. rewrite Hp, N1 in Hr'. done.
        * unfold row_path in H1. simpl in H1. injection H1 as _ E. rewrite H3, <-E, Hp in H4. done.
      + apply not_true_is_false. intros (k & r & Hr & Hc)%any_row_spec. simpl in Hc. bool_simpl.
        destruct (Hext _ _ Hr) as [Hr'|(H1 & H2 & H3 & H4 & H5)].
        * pose proof (not_any _ _ N2 _ _ Hr') as Hf. simpl in Hf. rewrite Hp in *. by rewrite H, H0 in Hf.
        * apply String.eqb_eq in H0. rewrite H0, Hp in H4. done.
    - unfold source_taken. apply not_true_is_false. intros (k & r & Hr & Hc)%any_row_spec. apply bool_decide_eq_true in Hc.
      unfold row_from at 2 in Hc. simpl in Hc. rewrite Hs in Hc. destruct (Hext _ _ Hr) as [Hr'|(H1 & H2 & H3 & H4 & H5)].
      + pose proof (not_any _ _ N3 _ _ Hr') as Hf. simpl in Hf. by apply bool_decide_eq_false in Hf.
      + unfold row_from in Hc. injection Hc as _ E1 E2. rewrite E1, E2 in H5. done. }
  unfold insert_row. destruct Hfree as [-> ->]. rewrite (Hchk row) by left. cbn [negb].
  eapply IH; [done| |intros r Hr; apply Hchk; by right].
  intros k r [[<- <-]|[_ Hr]]%lookup_insert_Some; [|by apply Hmore]. right. simpl. rewrite Hp, Hs.
  split_and!; try done; by left.
Qed.

Lemma plan_lengths keys claimed l plans :
  plan_each portable (registry_lookup reg) sec hash keys claimed l = inr plans → length plans = length l.
Proof.
  revert keys claimed plans. induction l as [|[req src] l IH]; intros keys claimed plans; simpl; [by intros [= <-]|].
  destruct (ClassifyAudioProjection _ _ _ _ _ _ _); [done|]. destruct (bool_decide _); [done|]. destruct (bool_decide _); [done|].
  destruct (plan_each _ _ _ _ _ _ _) as [e|plans'] eqn:E; [done|]. intros [= <-]. simpl. f_equal. by eapply IH.
Qed.
End planned.


(** ** A sample batch *)

Definition sample_request : AudioFileRequest := mkRequest "b.flac" "Band/b_0123abcd.flac" "" "" 0 ∅.
Definition sample_plan : AudioProjectionPlan := mkPlan "Band/b_0123abcd.flac" (mkSource "b.flac" 2 20) None.
Definition sample_hash : string := "0123456789abcdef0123456789ABCDEF01234567".
Definition sample_row : AudioProjection :=
  audio_row (λ s, s) "t1" 5 "music" sample_hash "Album" "magnet" (λ _, None) 0 sample_request sample_plan.

Lemma empty_reg_ok : reg_ok ∅.
Proof. split; intros *; rewrite lookup_empty; done. Qed.



(** A source of no bytes is resolved and planned; the table then refuses its row. *)
Lemma empty_source_fails_late :
  ResolveSources [mkStat 2 "b.flac" 0] ["b.flac"] = inr [mkSource "b.flac" 2 0] ∧
  PlanAudioProjections (λ s, s) (registry_lookup ∅) "music" "0123" [sample_request] [mkSource "b.flac" 2 0] =
    inr [mkPlan "Band/b_0123abcd.flac" (mkSource "b.flac" 2 0) None] ∧
  StageAudioProjections "t1" [audio_row (λ s, s) "t1" 5 "music" "0123" "Album" "magnet" (λ _, None) 0 sample_request
    (mkPlan "Band/b_0123abcd.flac" (mkSource "b.flac" 2 0) None)] ∅ = inl ErrDatabase.
Proof. split_and!; vm_compute; reflexivity. Qed.
