(* ===== verification/Stub.v ===== *)
(** * Stub files (internal/vfs/metadata.go, internal/library/bootstrap.go; the comparison
    of ReconcileAudio in internal/vfs/reconcile.go and ExtractHashAndIndex of inodemap.go)

    A projection is a small JSON file: the URL to stream from, the size to report, the
    magnet and the identity of the track.  The writer marshals a map, the reader
    unmarshals a struct; texts are lists of bytes.  encoding/json is modelled as far as
    the two use it: strings with their escapes and invalid UTF-8, numbers as literals,
    nested values up to the depth the package allows, keys compared without case.

    The text of a cue track is unmarshalled and marshalled again, which takes its size
    through a float64: [AudioCueStubBytes] is defined up to 2^53. *)

From Stdlib Require Import Ascii String DecimalString DecimalPos DecimalFacts DecimalZ.
From S2P Require Import Prelude GoFloat GoStrings Flac Cue CueSplit Paths Sources AudioRegistry.
Local Open Scope string_scope.
Local Open Scope Z_scope.

(** ** Writing JSON *)

Definition hex_digit (d : Z) : Z := if d <? 10 then 48 + d else 87 + d.
Definition unicode_escape (r : Z) : list Z :=
  [92; 117; hex_digit (r / 4096); hex_digit (r / 256 mod 16); hex_digit (r / 16 mod 16); hex_digit (r mod 16)].
(** A byte below 128; the characters of HTML are escaped. *)
Definition escape (b : Z) : list Z :=
  if (b =? 34) || (b =? 92) then [92; b]
  else if b =? 8 then [92; 98] else if b =? 12 then [92; 102] else if b =? 10 then [92; 110]
  else if b =? 13 then [92; 114] else if b =? 9 then [92; 116]
  else if (b <? 32) || (b =? 60) || (b =? 62) || (b =? 38) then unicode_escape b
  else [b].
Fixpoint encode_string (fuel : nat) (l : list Z) : list Z :=
  match fuel, l with
  | S fuel, b :: t =>
      if b <? 128 then (escape b ++ encode_string fuel t)%list
      else let '(r, n) := decode_rune l in
           ((if ((r =? RuneError) && (n =? 1)%nat) || (r =? 8232) || (r =? 8233) then unicode_escape r else take n l)
            ++ encode_string fuel (drop n l))%list
  | _, _ => []
  end.
Definition quote (s : string) : list Z := (34 :: encode_string (String.length s) (bytes_of s) ++ [34])%list.

Inductive out_value := OStr (s : string) | ONum (n : Z).
Definition print_value (v : out_value) : list Z := match v with OStr s => quote s | ONum n => bytes_of (itoa n) end.
Definition print_member (m : string * out_value) : list Z := (quote m.1 ++ 58 :: print_value m.2)%list.
Fixpoint print_members (ms : list (string * out_value)) : list Z :=
  match ms with [] => [] | [m] => print_member m | m :: ms => (print_member m ++ 44 :: print_members ms)%list end.
(** [json.Marshal] of a map: the members in the order of their keys. *)
Definition print_object (ms : list (string * out_value)) : list Z := (123 :: print_members ms ++ [125])%list.

Definition identity_members (externalID externalIDNS : string) : list (string * out_value) :=
  if String.eqb externalID "" && String.eqb externalIDNS "" then []
  else [("external_id", OStr externalID); ("external_id_ns", OStr externalIDNS)].
Definition AudioStubBytes (streamURL : string) (size : Z) (magnet externalID externalIDNS : string) : list Z :=
  print_object (identity_members externalID externalIDNS ++ [("magnet", OStr magnet); ("size", ONum size); ("url", OStr streamURL)])%list.

(** ** Reading JSON *)

Definition ws (b : Z) : bool := (b =? 32) || (b =? 9) || (b =? 10) || (b =? 13).
Fixpoint skip_ws (l : list Z) : list Z := match l with b :: t => if ws b then skip_ws t else l | [] => [] end.

Definition hex_value (b : Z) : option Z :=
  if (48 <=? b) && (b <=? 57) then Some (b - 48)
  else if (97 <=? b) && (b <=? 102) then Some (b - 87)
  else if (65 <=? b) && (b <=? 70) then Some (b - 55) else None.
Definition hex4 (l : list Z) : option (Z * list Z) :=
  match l with
  | a :: b :: c :: d :: t =>
      a ← hex_value a; b ← hex_value b; c ← hex_value c; d ← hex_value d; Some (a * 4096 + b * 256 + c * 16 + d, t)
  | _ => None
  end.
Definition short_escape (e : Z) : option Z :=
  if (e =? 34) || (e =? 92) || (e =? 47) then Some e
  else if e =? 98 then Some 8 else if e =? 102 then Some 12 else if e =? 110 then Some 10
  else if e =? 114 then Some 13 else if e =? 116 then Some 9 else None.
(** The rune of an escape, and what follows it: a pair of surrogates is one rune, a lone
    surrogate is replaced. *)
Definition escaped_rune (r : Z) (t : list Z) : Z * list Z :=
  if (55296 <=? r) && (r <=? 57343) then
    match t with
    | 92 :: 117 :: t1 =>
        match hex4 t1 with
        | Some (r2, t2) =>
            if (r <=? 56319) && (56320 <=? r2) && (r2 <=? 57343) then ((r - 55296) * 1024 + (r2 - 56320) + 65536, t2)
            else (RuneError, t)
        | None => (RuneError, t)
        end
    | _ => (RuneError, t)
    end
  else (r, t).

Definition prepend (a : list Z) (o : option (list Z * list Z)) : option (list Z * list Z) :=
  '(s, r) ← o; Some ((a ++ s)%list, r).
(** The content of a string, from behind its opening quote. *)
Fixpoint unquote (fuel : nat) (l : list Z) : option (list Z * list Z) :=
  match fuel with
  | O => None
  | S fuel =>
      match l with
      | [] => None
      | b :: t =>
          if b =? 34 then Some ([], t)
          else if b =? 92 then
            match t with
            | [] => None
            | e :: t =>
                if e =? 117 then '(r, t) ← hex4 t; let '(r, t) := escaped_rune r t in prepend (encode_rune r) (unquote fuel t)
                else e ← short_escape e; prepend [e] (unquote fuel t)
            end
          else if b <? 32 then None
          else if b <? 128 then prepend [b] (unquote fuel t)
          else let '(r, n) := decode_rune l in prepend (encode_rune r) (unquote fuel (drop n l))
      end
  end.

Definition digit (b : Z) : bool := (48 <=? b) && (b <=? 57).
Fixpoint span_digits (l : list Z) : list Z * list Z :=
  match l with b :: t => if digit b then let '(a, r) := span_digits t in (b :: a, r) else ([], l) | [] => ([], []) end.
Definition some_digits (l : list Z) : option (list Z * list Z) :=
  match span_digits l with ([], _) => None | p => Some p end.
Definition integer_part (l : list Z) : option (list Z * list Z) :=
  match l with 48 :: t => Some ([48], t) | _ => some_digits l end.
Definition fraction_part (l : list Z) : option (list Z * list Z) :=
  match l with 46 :: t => prepend [46] (some_digits t) | _ => Some ([], l) end.
Definition exponent_part (l : list Z) : option (list Z * list Z) :=
  match l with
  | e :: t =>
      if (e =? 101) || (e =? 69) then
        match t with
        | s :: t1 => if (s =? 43) || (s =? 45) then prepend [e; s] (some_digits t1) else prepend [e] (some_digits t)
        | [] => None
        end
      else Some ([], l)
  | [] => Some ([], [])
  end.
Definition number (l : list Z) : option (list Z * list Z) :=
  let '(sign, l) := match l with 45 :: t => ([45], t) | _ => ([], l) end in
  '(i, l) ← integer_part l; '(f, l) ← fraction_part l; '(e, l) ← exponent_part l; Some ((sign ++ i ++ f ++ e)%list, l).

Inductive json := JNull | JBool (b : bool) | JNum (lit : list Z) | JStr (s : list Z) | JArr (l : list json) | JObj (ms : list (list Z * json)).

Definition maxNestingDepth : Z := 10000.
(** The text of [null] and the like. *)
Definition literal (word : string) (l : list Z) : option (list Z) :=
  let w := bytes_of word in if bool_decide (take (length w) l = w) then Some (drop (length w) l) else None.

Fixpoint parse_value (fuel : nat) (depth : Z) (l : list Z) : option (json * list Z) :=
  match fuel with
  | O => None
  | S fuel =>
      match skip_ws l with
      | [] => None
      | b :: t =>
          if b =? 34 then '(s, r) ← unquote (S (length t)) t; Some (JStr s, r)
          else if b =? 123 then
            if maxNestingDepth <? depth + 1 then None
            else match skip_ws t with
                 | 125 :: r => Some (JObj [], r)
                 | _ => '(ms, r) ← parse_members fuel (depth + 1) t; Some (JObj ms, r)
                 end
          else if b =? 91 then
            if maxNestingDepth <? depth + 1 then None
            else match skip_ws t with
                 | 93 :: r => Some (JArr [], r)
                 | _ => '(vs, r) ← parse_elements fuel (depth + 1) t; Some (JArr vs, r)
                 end
          else match literal "null" (b :: t), literal "true" (b :: t), literal "false" (b :: t) with
               | Some r, _, _ => Some (JNull, r)
               | _, Some r, _ => Some (JBool true, r)
               | _, _, Some r => Some (JBool false, r)
               | _, _, _ => '(n, r) ← number (b :: t); Some (JNum n, r)
               end
      end
  end
with parse_members (fuel : nat) (depth : Z) (l : list Z) : option (list (list Z * json) * list Z) :=
  match fuel with
  | O => None
  | S fuel =>
      match skip_ws l with
      | 34 :: t =>
          '(k, r) ← unquote (S (length t)) t;
          match skip_ws r with
          | 58 :: r =>
              '(v, r) ← parse_value fuel depth r;
              match skip_ws r with
              | 44 :: r => '(ms, r) ← parse_members fuel depth r; Some ((k, v) :: ms, r)
              | 125 :: r => Some ([(k, v)], r)
              | _ => None
              end
          | _ => None
          end
      | _ => None
      end
  end
with parse_elements (fuel : nat) (depth : Z) (l : list Z) : option (list json * list Z) :=
  match fuel with
  | O => None
  | S fuel =>
      '(v, r) ← parse_value fuel depth l;
      match skip_ws r with
      | 44 :: r => '(vs, r) ← parse_elements fuel depth r; Some (v :: vs, r)
      | 93 :: r => Some ([v], r)
      | _ => None
      end
  end.

(** A whole text; the fuel covers every value, member and element in it. *)
Definition parse_json (l : list Z) : option json :=
  '(v, r) ← parse_value (2 * length l + 2) 0 l; if bool_decide (skip_ws r = []) then Some v else None.

(** ** The struct a stub is read into *)

Record MkvJSON := mkMkv { j_url : string; j_size : Z; j_magnet : string; j_imdb : string; j_id : string; j_ns : string }.
Definition zero_mkv : MkvJSON := mkMkv "" 0 "" "" "" "".

(** Keys are compared without case; outside ASCII only the long s folds to a letter of
    the names. *)
Fixpoint fold_key (l : list Z) : list Z :=
  match l with
  | 197 :: (191 :: t) => 115 :: fold_key t
  | b :: t => (if (65 <=? b) && (b <=? 90) then b + 32 else b) :: fold_key t
  | [] => []
  end.

Definition with_text (v : json) (set : string → MkvJSON → MkvJSON) (j : MkvJSON) : MkvJSON * bool :=
  match v with JStr s => (set (text_of s) j, true) | JNull => (j, true) | _ => (j, false) end.
Definition with_int (v : json) (set : Z → MkvJSON → MkvJSON) (j : MkvJSON) : MkvJSON * bool :=
  match v with
  | JNum lit => match Atoi (text_of lit) with Some n => (set n j, true) | None => (j, false) end
  | JNull => (j, true)
  | _ => (j, false)
  end.
(** One member; [false] is a value of the wrong type, which leaves the field alone. *)
Definition set_field (k : list Z) (v : json) (j : MkvJSON) : MkvJSON * bool :=
  let named name := bool_decide (fold_key k = bytes_of name) in
  if named "url" then with_text v (λ s j, mkMkv s (j_size j) (j_magnet j) (j_imdb j) (j_id j) (j_ns j)) j
  else if named "size" then with_int v (λ n j, mkMkv (j_url j) n (j_magnet j) (j_imdb j) (j_id j) (j_ns j)) j
  else if named "magnet" then with_text v (λ s j, mkMkv (j_url j) (j_size j) s (j_imdb j) (j_id j) (j_ns j)) j
  else if named "imdb" then with_text v (λ s j, mkMkv (j_url j) (j_size j) (j_magnet j) s (j_id j) (j_ns j)) j
  else if named "external_id" then with_text v (λ s j, mkMkv (j_url j) (j_size j) (j_magnet j) (j_imdb j) s (j_ns j)) j
  else if named "external_id_ns" then with_text v (λ s j, mkMkv (j_url j) (j_size j) (j_magnet j) (j_imdb j) (j_id j) s) j
  else (j, true).
(** [json.Unmarshal]: a wrong type is an error at the end. *)
Definition fill (ms : list (list Z * json)) : option MkvJSON :=
  let '(j, ok) := foldl (λ s m, let '(j, ok) := set_field m.1 m.2 s.1 in (j, s.2 && ok)) (zero_mkv, true) ms in
  if ok then Some j else None.
Definition unmarshal (l : list Z) : option MkvJSON :=
  match parse_json l with Some (JObj ms) => fill ms | Some JNull => Some zero_mkv | _ => None end.

(** ** Reading a stub *)

Record SizeLimits := mkLimits { Min : Z; Max : Z }.
Definition MinFileSize : Z := 100 * 1024 * 1024.
Definition MaxFileSize : Z := 100 * 1024 * 1024 * 1024.
Definition VideoSizeLimits : SizeLimits := mkLimits MinFileSize MaxFileSize.
Definition AudioSizeLimits : SizeLimits := mkLimits 1 MaxFileSize.

Inductive stub_error := ErrJSON | ErrInvalidURL | ErrInvalidSize | ErrInvalidFormat | ErrParseSize | ErrNotExist.
Record FileMetadata := mkMeta { m_url : string; m_size : Z; m_imdb : string; m_id : string; m_ns : string }.

Definition is_http (url : string) : bool := String.prefix "http://" url || String.prefix "https://" url.
Definition in_limits (lim : SizeLimits) (size : Z) : bool := negb ((size <? Min lim) || (Max lim <? size)).

Definition digit_char (c : ascii) : bool := (48 <=? code c) && (code c <=? 57).
(** At most [n] digits at the front. *)
Fixpoint leading_digits (n : nat) (s : string) : string :=
  match n, s with S n, String c t => if digit_char c then String c (leading_digits n t) else "" | _, _ => "" end.
(** The first match of [tt\d{7,10}], the longest there. *)
Fixpoint find_imdb (s : string) : string :=
  match s with
  | "" => ""
  | String c t =>
      match s with
      | String "t" (String "t" u) =>
          let ds := leading_digits 10 u in if (7 <=? String.length ds)%nat then "tt" +:+ ds else find_imdb t
      | _ => find_imdb t
      end
  end.

Definition parseJSONFormat (content : string) (lim : SizeLimits) : stub_error + FileMetadata :=
  match unmarshal (bytes_of content) with
  | None => inl ErrJSON
  | Some j =>
      let url := TrimSpace (j_url j) in
      if negb (is_http url) then inl ErrInvalidURL
      else if negb (in_limits lim (j_size j)) then inl ErrInvalidSize
      else inr (mkMeta url (j_size j) (if String.eqb (j_imdb j) "" then find_imdb content else j_imdb j) (j_id j) (j_ns j))
  end.

Definition newline : ascii := "010".
Definition parseLineFormat (content : string) (lim : SizeLimits) : stub_error + FileMetadata :=
  match split_char newline content with
  | l0 :: l1 :: rest =>
      let url := TrimSpace l0 in
      if negb (is_http url) then inl ErrInvalidURL
      else match Atoi (TrimSpace l1) with
           | None => inl ErrParseSize
           | Some size =>
               if negb (in_limits lim size) then inl ErrInvalidSize
               else
                 let candidate := match rest with _ :: l3 :: _ => let c := TrimSpace l3 in if String.prefix "tt" c then c else "" | _ => "" end in
                 inr (mkMeta url size (if String.eqb candidate "" then find_imdb content else candidate) "" "")
           end
  | _ => inl ErrInvalidFormat
  end.

(** The time of the file and its path are not modelled. *)
Definition readMetadata (data : list Byte.byte) (lim : SizeLimits) : stub_error + FileMetadata :=
  let content := string_of_list_byte data in
  if HasPrefix_char "{" (TrimSpace content) then parseJSONFormat (TrimSpace content) lim else parseLineFormat content lim.

(** [ExtractHashAndIndex]: the first match of each pattern. *)
Fixpoint all_hex (s : string) : bool := match s with "" => true | String c t => is_hex c && all_hex t end.
Fixpoint find_link (s : string) : string :=
  match s with
  | "" => ""
  | String _ t =>
      let h := String.substring 5 40 s in
      if String.prefix "link=" s && (String.length h =? 40)%nat && all_hex h then ToLower h else find_link t
  end.
Fixpoint find_index (s : string) : Z :=
  match s with
  | "" => 0
  | String _ t =>
      let ds := leading_digits (String.length s) (String.substring 6 (String.length s) s) in
      if String.prefix "index=" s && negb (String.eqb ds "") then match Atoi ds with Some n => n | None => 0 end else find_index t
  end.
Definition ExtractHashAndIndex (url : string) : string * Z := (find_link url, find_index url).

(** What [ReconcileAudio] asks of the stub of a row. *)
Definition stub_matches (data : list Byte.byte) (r : AudioProjection) : bool :=
  match readMetadata data AudioSizeLimits with
  | inl _ => false
  | inr meta =>
      let '(hash, index) := ExtractHashAndIndex (m_url meta) in
      (String.eqb hash "" || (String.eqb (ToLower hash) (ToLower (row_hash r)) && (index =? row_index r))) && (m_size meta =? row_size r)
  end.

(** ** Writing a stub *)

Definition streamURL (base hash : string) (fileID : Z) : string :=
  base +:+ "/stream?link=" +:+ hash +:+ "&index=" +:+ itoa fileID +:+ "&play".

(** A number that went through a float64. *)
Definition refloat (lit : list Z) : option Z :=
  match Atoi (text_of lit) with Some n => if Z.abs n <=? 2 ^ 53 then Some n else None | None => None end.
Definition out_again (v : json) : option out_value :=
  match v with JStr s => Some (OStr (text_of s)) | JNum lit => n ← refloat lit; Some (ONum n) | _ => None end.
Fixpoint members_again (ms : list (list Z * json)) : option (list (string * out_value)) :=
  match ms with
  | [] => Some []
  | (k, v) :: ms => v ← out_again v; ms ← members_again ms; Some ((text_of k, v) :: ms)
  end.
(** A member is put where its key sorts. *)
Fixpoint put_member (k : string) (v : out_value) (ms : list (string * out_value)) : list (string * out_value) :=
  match ms with
  | [] => [(k, v)]
  | (k', v') :: rest => if String.eqb k k' then (k, v) :: rest else if String.ltb k k' then (k, v) :: ms else (k', v') :: put_member k v rest
  end.
Definition AudioCueStubBytes (url : string) (size : Z) (magnet externalID externalIDNS : string) (cueTrack offset : Z) : option (list Z) :=
  let data := AudioStubBytes url size magnet externalID externalIDNS in
  if cueTrack =? 0 then Some data
  else match parse_json data with
       | Some (JObj ms) => ms ← members_again ms; Some (print_object (put_member "offset" (ONum offset) (put_member "cue_track" (ONum cueTrack) ms)))
       | _ => None
       end.

(** The stub of a row. *)
Definition row_stub (base hash : string) (index size : Z) (magnet id space : string) (track offset : Z) : list Byte.byte :=
  match AudioCueStubBytes (streamURL base hash index) size magnet id space track offset with
  | Some l => list_byte_of_string (text_of l)
  | None => []
  end.

Definition sample_base : string := "http://127.0.0.1:8090".
Definition sample_url : string := streamURL sample_base sample_hash 3.
Example sample_read : readMetadata (row_stub sample_base sample_hash 3 1000 "magnet:?a<b" "id" "ns" 2 55) AudioSizeLimits =
  inr (mkMeta sample_url 1000 "" "id" "ns").
Proof. vm_compute. reflexivity. Qed.
Example sample_extract : ExtractHashAndIndex sample_url = ("0123456789abcdef0123456789abcdef01234567", 3).
Proof. vm_compute. reflexivity. Qed.

(** ** Strings *)

Lemma prepend_some a s r : prepend a (Some (s, r)) = Some ((a ++ s)%list, r).
Proof. done. Qed.

Lemma hex_value_digit d : 0 ≤ d < 16 → hex_value (hex_digit d) = Some d.
Proof.
  intros Hd. unfold hex_digit, hex_value. destruct (Z.ltb_spec d 10).
  - rewrite (proj2 (Z.leb_le 48 _)), (proj2 (Z.leb_le _ 57)) by lia. simpl. f_equal. lia.
  - rewrite (proj2 (Z.leb_gt _ 57)), andb_false_r by lia.
    rewrite (proj2 (Z.leb_le 97 _)), (proj2 (Z.leb_le _ 102)) by lia. simpl. f_equal. lia.
Qed.

Lemma hex4_escape r X : 0 ≤ r < 65536 → hex4 (drop 2 (unicode_escape r) ++ X) = Some (r, X).
Proof.
  intros Hr. cbn [unicode_escape drop app hex4].
  rewrite !hex_value_digit by (Z.to_euclidean_division_equations; lia). cbn [mbind option_bind]. do 2 f_equal.
  Z.to_euclidean_division_equations; lia.
Qed.

Lemma unquote_unicode fuel r X : 0 ≤ r < 55296 ∨ r = RuneError →
  unquote (S fuel) (unicode_escape r ++ X) = prepend (encode_rune r) (unquote fuel X).
Proof.
  intros Hr. assert (Hr' : 0 ≤ r < 65536) by (unfold RuneError in Hr; lia).
  change (unicode_escape r ++ X)%list with (92 :: 117 :: (drop 2 (unicode_escape r) ++ X))%list. cbn [unquote].
  change (92 =? 34) with false. change (92 =? 92) with true. change (117 =? 117) with true. cbv iota.
  rewrite (hex4_escape r X Hr'). cbn [mbind option_bind]. unfold escaped_rune.
  destruct (Z.leb_spec 55296 r); [|done]. destruct (Z.leb_spec r 57343); [|done]. unfold RuneError in Hr. lia.
Qed.

Lemma unquote_escape fuel b X : 0 ≤ b < 128 → unquote (S fuel) (escape b ++ X) = prepend [b] (unquote fuel X).
Proof.
  intros Hb. unfold escape.
  destruct (Z.eqb_spec b 34) as [->|H34]; [done|]. destruct (Z.eqb_spec b 92) as [->|H92]; [done|]. cbn [orb].
  destruct (Z.eqb_spec b 8) as [->|_]; [done|]. destruct (Z.eqb_spec b 12) as [->|_]; [done|].
  destruct (Z.eqb_spec b 10) as [->|_]; [done|]. destruct (Z.eqb_spec b 13) as [->|_]; [done|].
  destruct (Z.eqb_spec b 9) as [->|_]; [done|].
  destruct ((b <? 32) || (b =? 60) || (b =? 62) || (b =? 38)) eqn:E.
  - rewrite unquote_unicode by lia. f_equal. unfold encode_rune. by rewrite (proj2 (Z.ltb_lt b 128)) by lia.
  - rewrite !orb_false_iff in E. destruct E as [[[E _] _] _]. cbn [app unquote].
    rewrite (proj2 (Z.eqb_neq b 34)), (proj2 (Z.eqb_neq b 92)), E, (proj2 (Z.ltb_lt b 128)) by lia. done.
Qed.

(** The bytes of a rune, and the rune of these bytes. *)
Lemma encode_two a b : 194 ≤ a ≤ 223 → 128 ≤ b ≤ 191 → encode_rune ((a - 192) * 64 + (b - 128)) = [a; b].
Proof.
  intros Ha Hb. unfold encode_rune. rewrite (proj2 (Z.ltb_ge _ 128)), (proj2 (Z.ltb_lt _ 2048)) by lia.
  repeat f_equal; Z.to_euclidean_division_equations; lia.
Qed.
Lemma encode_three a b c : 224 ≤ a ≤ 239 → 128 ≤ b ≤ 191 → 128 ≤ c ≤ 191 → (a = 224 → 160 ≤ b) →
  encode_rune ((a - 224) * 4096 + (b - 128) * 64 + (c - 128)) = [a; b; c].
Proof.
  intros Ha Hb Hc Hlow. unfold encode_rune.
  rewrite (proj2 (Z.ltb_ge _ 128)), (proj2 (Z.ltb_ge _ 2048)), (proj2 (Z.ltb_lt _ 65536)) by lia.
  repeat f_equal; Z.to_euclidean_division_equations; lia.
Qed.
Lemma encode_four a b c d : 240 ≤ a ≤ 244 → 128 ≤ b ≤ 191 → 128 ≤ c ≤ 191 → 128 ≤ d ≤ 191 → (a = 240 → 144 ≤ b) →
  encode_rune ((a - 240) * 262144 + (b - 128) * 4096 + (c - 128) * 64 + (d - 128)) = [a; b; c; d].
Proof.
  intros Ha Hb Hc Hd Hlow. unfold encode_rune.
  rewrite (proj2 (Z.ltb_ge _ 128)), (proj2 (Z.ltb_ge _ 2048)), (proj2 (Z.ltb_ge _ 65536)) by lia.
  repeat f_equal; Z.to_euclidean_division_equations; lia.
Qed.

(** A rune of more than one byte is read back from its own bytes. *)
Lemma valid_rune fuel a t :
  128 ≤ a → utf8_valid (S fuel) (a :: t) = true →
  ∃ r n, (2 ≤ n)%nat ∧ (∀ X, decode_rune (take n (a :: t) ++ X) = (r, n)) ∧ decode_rune (a :: t) = (r, n) ∧
    encode_rune r = take n (a :: t) ∧ utf8_valid fuel (drop n (a :: t)) = true ∧ (n ≤ length (a :: t))%nat.
Proof.
  intros Ha. cbn [utf8_valid]. rewrite (proj2 (Z.ltb_ge a 128)) by done. destruct t as [|b t]; [done|].
  destruct ((194 <=? a) && (a <=? 223)) eqn:E2.
  { intros [Hb Hv]%andb_true_iff. exists ((a - 192) * 64 + (b - 128)), 2%nat. pose proof Hb as Hb'. unfold cont in Hb'. bool_simpl.
    split_and!; [done| | |simpl; apply encode_two; lia|done|simpl; lia].
    - intros X. cbn [take app decode_rune]. by rewrite (proj2 (Z.ltb_ge a 128)), Hb, (proj2 (Z.leb_le 194 a)), (proj2 (Z.leb_le a 223)) by lia.
    - cbn [decode_rune]. by rewrite (proj2 (Z.ltb_ge a 128)), Hb, (proj2 (Z.leb_le 194 a)), (proj2 (Z.leb_le a 223)) by lia. }
  destruct t as [|c t]; [done|]. destruct ((224 <=? a) && (a <=? 239)) eqn:E3.
  { intros [H Hv]%andb_true_iff. exists ((a - 224) * 4096 + (b - 128) * 64 + (c - 128)), 3%nat.
    assert (Hd : ∀ X, decode_rune (a :: b :: c :: X) = ((a - 224) * 4096 + (b - 128) * 64 + (c - 128), 3%nat)).
    { intros X. cbn [decode_rune]. by rewrite (proj2 (Z.ltb_ge a 128)), E2, E3, H by done. }
    split_and!; [lia|intros X; apply Hd|apply Hd| |done|simpl; lia]. simpl. unfold cont in H.
    assert (128 ≤ b ≤ 191 ∧ 128 ≤ c ≤ 191 ∧ (a = 224 → 160 ≤ b)) as (Hb & Hc & Hlow).
    { destruct (Z.eqb_spec a 224), (Z.eqb_spec a 237); rewrite !andb_true_iff, !Z.leb_le in H; lia. }
    rewrite andb_true_iff, !Z.leb_le in E3. by apply encode_three. }
  destruct t as [|d t]; [done|]. intros [H Hv]%andb_true_iff.
  exists ((a - 240) * 262144 + (b - 128) * 4096 + (c - 128) * 64 + (d - 128)), 4%nat.
  assert (Hd : ∀ X, decode_rune (a :: b :: c :: d :: X) = ((a - 240) * 262144 + (b - 128) * 4096 + (c - 128) * 64 + (d - 128), 4%nat)).
  { intros X. cbn [decode_rune]. by rewrite (proj2 (Z.ltb_ge a 128)), E2, E3, H by done. }
  split_and!; [lia|intros X; apply Hd|apply Hd| |done|simpl; lia]. simpl. unfold cont in H.
  assert (240 ≤ a ≤ 244 ∧ 128 ≤ b ≤ 191 ∧ 128 ≤ c ≤ 191 ∧ 128 ≤ d ≤ 191 ∧ (a = 240 → 144 ≤ b)) as (Ha' & Hb & Hc & Hdd & Hlow).
  { destruct (Z.eqb_spec a 240), (Z.eqb_spec a 244); rewrite !andb_true_iff, !Z.leb_le in H; lia. }
  by apply encode_four.
Qed.

(** What is written is read back. *)
Lemma unquote_encode fuel l X n :
  Forall (λ z, 0 ≤ z < 256) l → (length l ≤ fuel)%nat → utf8_valid fuel l = true → (length l < n)%nat →
  unquote n (encode_string fuel l ++ 34 :: X) = Some (l, X).
Proof.
  revert l n. induction fuel as [|fuel IH]; intros [|a t] n Hl Hf Hv Hn; simpl in Hf; try lia.
  { destruct n as [|n]; [simpl in Hn; lia|done]. }
  { destruct n as [|n]; [simpl in Hn; lia|done]. }
  destruct n as [|n]; [lia|]. simpl in Hn. apply list.Forall_cons in Hl as [Ha Hl]. destruct (Z.ltb_spec a 128) as [Hlt|Hge].
  - cbn [encode_string]. rewrite (proj2 (Z.ltb_lt a 128)) by done. rewrite <-app_assoc, unquote_escape by lia.
    cbn [utf8_valid] in Hv. rewrite (proj2 (Z.ltb_lt a 128)) in Hv by done. by rewrite IH by (done || lia).
  - destruct (valid_rune fuel a t Hge Hv) as (r & k & Hk & Hd & Hd0 & He & Hv' & Hlen).
    cbn [encode_string]. rewrite (proj2 (Z.ltb_ge a 128)) by done. rewrite Hd0.
    assert (Hdl : (length (drop k (a :: t)) ≤ fuel)%nat) by (rewrite length_drop; simpl; simpl in Hlen; lia).
    assert (Hfd : Forall (λ z, 0 ≤ z < 256) (drop k (a :: t))) by (apply Forall_drop; by constructor).
    assert (Htd : (take k (a :: t) ++ drop k (a :: t))%list = a :: t) by apply take_drop.
    assert (Hnext : unquote n (encode_string fuel (drop k (a :: t)) ++ 34 :: X) = Some (drop k (a :: t), X)).
    { apply IH; try done. rewrite length_drop. simpl. simpl in Hlen. lia. }
    destruct (((r =? RuneError) && (k =? 1)%nat) || (r =? 8232) || (r =? 8233)) eqn:E.
    + assert (Hr : r = 8232 ∨ r = 8233).
      { apply orb_true_iff in E as [E|E%Z.eqb_eq]; [|lia]. apply orb_true_iff in E as [E|E%Z.eqb_eq]; [|lia].
        apply andb_true_iff in E as [_ E%Nat.eqb_eq]. lia. }
      rewrite <-app_assoc, unquote_unicode by lia. by rewrite Hnext, prepend_some, He, Htd.
    + rewrite <-app_assoc. destruct k as [|k]; [lia|]. cbn [take app unquote].
      rewrite (proj2 (Z.eqb_neq a 34)), (proj2 (Z.eqb_neq a 92)), (proj2 (Z.ltb_ge a 32)), (proj2 (Z.ltb_ge a 128)) by lia.
      specialize (Hd (encode_string fuel (drop (S k) (a :: t)) ++ 34 :: X)%list). cbn [take app] in Hd. rewrite Hd.
      replace (drop (S k) (a :: (take k t ++ encode_string fuel (drop (S k) (a :: t)) ++ 34 :: X))%list)
        with (encode_string fuel (drop (S k) (a :: t)) ++ 34 :: X)%list.
      * by rewrite Hnext, prepend_some, He, Htd.
      * cbn [drop]. rewrite drop_app_length'; [done|]. simpl in Hlen. rewrite length_take. lia.
Qed.

(** ** Numbers *)

Lemma to_uint_no_zero p d : Pos.to_uint p ≠ Decimal.D0 d.
Proof.
  intros E. pose proof (DecimalPos.Unsigned.of_to p) as H1. pose proof (DecimalPos.Unsigned.to_of (Pos.to_uint p)) as H2.
  rewrite H1 in H2. simpl in H2. rewrite E in H2. unfold Decimal.unorm in H2. cbn [Decimal.nzhead] in H2.
  destruct (Decimal.nzhead d) eqn:En; try discriminate H2.
  - injection H2 as ->. rewrite E in H1. discriminate H1.
  - by apply (DecimalFacts.nzhead_nonzero d u).
Qed.

Lemma span_digits_uint u c X : digit c = false →
  span_digits (bytes_of (NilEmpty.string_of_uint u) ++ c :: X)%list = (bytes_of (NilEmpty.string_of_uint u), c :: X).
Proof.
  intros Hc. induction u as [|u IH|u IH|u IH|u IH|u IH|u IH|u IH|u IH|u IH|u IH]; cbn [NilEmpty.string_of_uint];
    [cbn [bytes_of list_ascii_of_string fmap list_fmap app span_digits]; by rewrite Hc|..];
    change (bytes_of (String ?x ?s)) with (code x :: bytes_of s); cbn [app span_digits]; rewrite IH; done.
Qed.

Definition ends_number (c : Z) : Prop := digit c = false ∧ c ≠ 46 ∧ c ≠ 101 ∧ c ≠ 69.

Lemma number_rest c X : ends_number c → fraction_part (c :: X) = Some ([], c :: X) ∧ exponent_part (c :: X) = Some ([], c :: X).
Proof.
  intros (_ & H1 & H2 & H3). split.
  - unfold fraction_part. destruct (decide (c = 46)) as [->|]; [done|]. destruct c as [|p|p]; try done.
    repeat (destruct p as [p|p|]; try done).
  - unfold exponent_part. by rewrite (proj2 (Z.eqb_neq c 101)), (proj2 (Z.eqb_neq c 69)) by done.
Qed.

(** The literal of a natural number begins with a digit and is read whole. *)
Lemma number_itoa n c X : 0 ≤ n → ends_number c →
  (∃ b t, bytes_of (itoa n) = b :: t ∧ digit b = true) ∧ number (bytes_of (itoa n) ++ c :: X)%list = Some (bytes_of (itoa n), c :: X).
Proof.
  intros Hn Hc. destruct (number_rest c X Hc) as [Hf He]. destruct Hc as (Hd & _). unfold itoa. destruct n as [|p|p]; [|cbn [Z.to_int NilZero.string_of_int]|lia].
  - split; [by eexists _, _|]. unfold number. change (bytes_of _) with [48]. cbn [app integer_part mbind option_bind].
    by rewrite Hf; cbn [mbind option_bind]; rewrite He.
  - pose proof (to_uint_no_zero p) as Hz. pose proof (Unsigned.to_uint_nonnil p) as Hnil. pose proof (span_digits_uint (Pos.to_uint p) c X Hd) as Hs.
    assert (E : NilZero.string_of_uint (Pos.to_uint p) = NilEmpty.string_of_uint (Pos.to_uint p)) by (by destruct (Pos.to_uint p)).
    rewrite E. destruct (Pos.to_uint p) as [|u|u|u|u|u|u|u|u|u|u]; try done; try (by destruct (Hz u));
      (split; [by eexists _, _|]); cbn [NilEmpty.string_of_uint] in *;
      change (bytes_of (String ?x ?s)) with (code x :: bytes_of s) in *; unfold number; cbn [app] in *;
      unfold integer_part, some_digits;
      match goal with |- context [code ?x] => change (code x) with ltac:(let v := eval vm_compute in (code x) in exact v) in * end;
      cbv beta iota; rewrite Hs; cbn [mbind option_bind]; rewrite Hf; cbn [mbind option_bind]; rewrite He; cbn [mbind option_bind];
      by rewrite !app_nil_r.
Qed.

(** ** Objects *)

Lemma skip_ws_id b t : ws b = false → skip_ws (b :: t) = b :: t.
Proof. intros H. cbn [skip_ws]. by rewrite H. Qed.

Lemma literal_no w b t : hd 0 (bytes_of w) ≠ b → w ≠ "" → literal w (b :: t) = None.
Proof.
  intros Hb Hw. unfold literal. destruct w as [|c w]; [done|]. change (bytes_of (String c w)) with (code c :: bytes_of w) in *. simpl in Hb.
  rewrite bool_decide_eq_false_2; [done|]. simpl. congruence.
Qed.

Definition to_json (v : out_value) : json := match v with OStr s => JStr (bytes_of s) | ONum n => JNum (bytes_of (itoa n)) end.
Definition ok_value (v : out_value) : Prop := match v with OStr s => valid_utf8 s = true | ONum n => 0 ≤ n end.
Definition ok_member (m : string * out_value) : Prop := valid_utf8 m.1 = true ∧ ok_value m.2.

Lemma unquote_quote s X n : valid_utf8 s = true → (String.length s < n)%nat →
  unquote n (drop 1 (quote s) ++ X) = Some (bytes_of s, X).
Proof.
  intros Hv Hn. unfold quote. rewrite skipn_cons, drop_0, <-app_assoc. change ([34] ++ X)%list with (34 :: X).
  apply unquote_encode; [apply bytes_range|by rewrite bytes_length|done|by rewrite bytes_length].
Qed.

Lemma quote_length s : valid_utf8 s = true → (String.length s < S (length (drop 1 (quote s))))%nat.
Proof.
  intros Hv. unfold quote. rewrite skipn_cons, drop_0, length_app. simpl. pose proof (bytes_range s) as Hr.
  assert (H : ∀ fuel l, Forall (λ z, 0 ≤ z < 256) l → (length l ≤ fuel)%nat → utf8_valid fuel l = true → (length l ≤ length (encode_string fuel l))%nat).
  { induction fuel as [|fuel IH]; intros [|a t] Hl Hf Hu; simpl in Hf; try (simpl; lia). apply list.Forall_cons in Hl as [Ha Hl].
    cbn [encode_string]. destruct (Z.ltb_spec a 128) as [Hlt|Hge].
    - cbn [utf8_valid] in Hu. rewrite (proj2 (Z.ltb_lt a 128)) in Hu by done. specialize (IH t Hl ltac:(lia) Hu). rewrite length_app.
      assert (1 ≤ length (escape a))%nat by (unfold escape; repeat case_match; simpl; lia). simpl. lia.
    - destruct (valid_rune fuel a t Hge Hu) as (r & k & Hk & _ & Hd0 & He & Hv' & Hlen). rewrite Hd0.
      assert (Hrest : (length (drop k (a :: t)) ≤ length (encode_string fuel (drop k (a :: t))))%nat).
      { apply IH; [apply Forall_drop; by constructor|rewrite length_drop; simpl in *; lia|done]. }
      rewrite length_app. rewrite length_drop in Hrest.
      assert (Hk4 : (length (encode_rune r) ≤ 4)%nat) by (unfold encode_rune; repeat case_match; simpl; lia).
      rewrite He, length_take in Hk4. case_match; [simpl in *; lia|]. rewrite length_take. simpl in *. lia. }
  specialize (H (String.length s) (bytes_of s) Hr). rewrite bytes_length in H. specialize (H ltac:(lia) Hv). lia.
Qed.

Lemma parse_string_value f d s X : valid_utf8 s = true → parse_value (S f) d (quote s ++ X) = Some (JStr (bytes_of s), X).
Proof.
  intros Hv. change (quote s ++ X)%list with (34 :: (drop 1 (quote s) ++ X))%list. cbn [parse_value]. rewrite skip_ws_id by done.
  change (34 =? 34) with true. cbv iota. rewrite unquote_quote; [done|done|].
  pose proof (quote_length s Hv). rewrite length_app. lia.
Qed.

Lemma parse_number_value f d n c X : 0 ≤ n → ends_number c →
  parse_value (S f) d (bytes_of (itoa n) ++ c :: X) = Some (JNum (bytes_of (itoa n)), c :: X).
Proof.
  intros Hn Hc. destruct (number_itoa n c X Hn Hc) as [(b & t & E & Hb) Hnum]. rewrite E in *. cbn [app] in *. cbn [parse_value].
  assert (Hr : 48 ≤ b ≤ 57) by (unfold digit in Hb; rewrite andb_true_iff, !Z.leb_le in Hb; lia).
  rewrite skip_ws_id by (unfold ws; rewrite !orb_false_iff, !Z.eqb_neq; lia).
  rewrite (proj2 (Z.eqb_neq b 34)), (proj2 (Z.eqb_neq b 123)), (proj2 (Z.eqb_neq b 91)) by lia.
  rewrite !literal_no by (done || (vm_compute; lia)). by rewrite Hnum.
Qed.

Lemma parse_out f d v c X : ok_value v → ends_number c → parse_value (S f) d (print_value v ++ c :: X) = Some (to_json v, c :: X).
Proof. destruct v; [intros Hv _; by apply parse_string_value|intros Hn Hc; by apply parse_number_value]. Qed.

Lemma comma_ends : ends_number 44 ∧ ends_number 125.
Proof. unfold ends_number. split_and!; done. Qed.

Lemma members_print ms f d X :
  ms ≠ [] → Forall ok_member ms → (length ms < f)%nat →
  parse_members f d (print_members ms ++ 125 :: X) = Some ((λ m, (bytes_of m.1, to_json m.2)) <$> ms, X).
Proof.
  intros Hne Hms. revert f. induction Hms as [|[k v] ms [Hk Hv] Hms IH]; [done|]. intros f Hf. simpl in Hk, Hv.
  destruct f as [|f]; [simpl in Hf; lia|]. destruct f as [|f]; [simpl in Hf; destruct ms; simpl in Hf; lia|].
  assert (Hmem : ∀ c Y, ends_number c → parse_members (S (S f)) d (print_member (k, v) ++ c :: Y) =
    match skip_ws (c :: Y) with
    | 44 :: r => '(ms, r) ← parse_members (S f) d r; Some ((bytes_of k, to_json v) :: ms, r)
    | 125 :: r => Some ([(bytes_of k, to_json v)], r)
    | _ => None
    end).
  { intros c Y Hc. unfold print_member. cbn [fst snd]. rewrite <-app_assoc.
    change (quote k ++ ?x)%list with (34 :: (drop 1 (quote k) ++ x))%list. cbn [parse_members]. rewrite skip_ws_id by done.
    rewrite unquote_quote; [|done|pose proof (quote_length k Hk); rewrite length_app; lia]. cbn [mbind option_bind].
    rewrite <-app_comm_cons. rewrite (skip_ws_id 58) by done. by rewrite parse_out. }
  destruct ms as [|m ms].
  - cbn [print_members]. rewrite Hmem by apply comma_ends. done.
  - cbn [print_members]. rewrite <-app_assoc, <-app_comm_cons. rewrite Hmem by apply comma_ends. rewrite skip_ws_id by done.
    rewrite IH; [done|done|]. simpl in *. lia.
Qed.

Lemma print_members_head m ms : ∃ t, print_members (m :: ms) = 34 :: t.
Proof. destruct ms; by eexists. Qed.

Lemma print_members_length ms : (length ms ≤ length (print_members ms))%nat.
Proof.
  induction ms as [|m ms IH]; [done|]. destruct ms as [|m' ms]; [simpl; unfold print_member; rewrite length_app; simpl; lia|].
  cbn [print_members]. rewrite length_app. simpl in *. lia.
Qed.

(** A printed object is read back. *)
Lemma parse_print ms : ms ≠ [] → Forall ok_member ms → parse_json (print_object ms) = Some (JObj ((λ m, (bytes_of m.1, to_json m.2)) <$> ms)).
Proof.
  intros Hne Hms. unfold parse_json, print_object. set (fuel := (2 * _ + 2)%nat).
  assert (Hfuel : ∃ f, fuel = S f ∧ (length ms < f)%nat).
  { exists (fuel - 1)%nat. pose proof (print_members_length ms). unfold fuel. simpl. rewrite length_app. simpl. lia. }
  destruct Hfuel as (f & -> & Hf). cbn [parse_value]. rewrite skip_ws_id by done.
  change (123 =? 34) with false. change (123 =? 123) with true. change (maxNestingDepth <? 0 + 1) with false. cbv iota.
  pose proof (members_print ms f (0 + 1) [] Hne Hms Hf) as Hp. destruct ms as [|m ms]; [done|].
  destruct (print_members_head m ms) as [t Et]. rewrite Et in *. cbn [app] in *. rewrite skip_ws_id by done.
  rewrite Hp. done.
Qed.

(** ** A stub is read back *)

Lemma text_bytes s : text_of (bytes_of s) = s.
Proof.
  unfold text_of, bytes_of. rewrite <-list_fmap_compose. rewrite <-(string_of_list_ascii_of_string s) at 2. f_equal.
  rewrite <-(list_fmap_id (list_ascii_of_string s)) at 2. apply list_fmap_ext. intros i c _. simpl. unfold code.
  rewrite N2Z.id. apply ascii_N_embedding.
Qed.

Definition small_value (v : out_value) : Prop := match v with OStr _ => True | ONum n => n ≤ 2 ^ 53 end.

Lemma members_again_id ms : Forall ok_member ms → Forall (λ m, small_value m.2) ms →
  members_again ((λ m, (bytes_of m.1, to_json m.2)) <$> ms) = Some ms.
Proof.
  intros Hok Hsm. induction ms as [|[k v] ms IH]; [done|]. apply list.Forall_cons in Hok as [[_ Hv] Hok]. apply list.Forall_cons in Hsm as [Hs Hsm].
  rewrite fmap_cons. cbn [members_again fst snd]. assert (E : out_again (to_json v) = Some v).
  { destruct v as [s|n]; simpl in *; [by rewrite text_bytes|]. unfold refloat. rewrite text_bytes, Atoi_itoa by (unfold in_i64, min_i64, max_i64; lia).
    by rewrite (proj2 (Z.leb_le _ _)) by lia. }
  rewrite E. cbn [mbind option_bind]. rewrite IH by done. cbn [mbind option_bind]. by rewrite text_bytes.
Qed.

(** The members of the stub of a row. *)
Definition stub_members (url : string) (size : Z) (magnet id space : string) (track offset : Z) : list (string * out_value) :=
  let base := (identity_members id space ++ [("magnet", OStr magnet); ("size", ONum size); ("url", OStr url)])%list in
  if track =? 0 then base else put_member "offset" (ONum offset) (put_member "cue_track" (ONum track) base).

Section stub.
Context (url : string) (size : Z) (magnet id space : string) (track offset : Z).
Context (Hu : valid_utf8 url = true) (Hm : valid_utf8 magnet = true) (Hi : valid_utf8 id = true) (Hs : valid_utf8 space = true).
Context (Hz : 0 ≤ size ≤ 2 ^ 53) (Ht : 0 ≤ track) (Ho : 0 ≤ offset).

Local Abbreviation ms := (stub_members url size magnet id space track offset).

Lemma base_members : Forall ok_member (identity_members id space ++ [("magnet", OStr magnet); ("size", ONum size); ("url", OStr url)])%list.
Proof.
  apply list.Forall_app. split.
  - unfold identity_members. case_match; [constructor|]. repeat constructor; done.
  - repeat constructor; simpl; done || lia.
Qed.

Lemma members_ok : Forall ok_member ms ∧ ms ≠ [].
Proof.
  unfold stub_members, identity_members. destruct (String.eqb id "" && String.eqb space ""), (track =? 0);
    (split; [repeat constructor; simpl; done || lia|done]).
Qed.

Lemma cue_text : AudioCueStubBytes url size magnet id space track offset = Some (print_object ms).
Proof.
  unfold AudioCueStubBytes, stub_members. destruct (track =? 0); [done|]. unfold AudioStubBytes.
  rewrite parse_print; [|by destruct (identity_members id space)|apply base_members].
  rewrite members_again_id; [done|apply base_members|].
  apply list.Forall_app. split; [unfold identity_members; case_match; repeat constructor|repeat constructor]; simpl; lia.
Qed.

Lemma members_shape : ms = ((if track =? 0 then [] else [("cue_track", ONum track)]) ++ identity_members id space ++ [("magnet", OStr magnet)] ++
  (if track =? 0 then [] else [("offset", ONum offset)]) ++ [("size", ONum size); ("url", OStr url)])%list.
Proof. unfold stub_members, identity_members. by destruct (track =? 0), (String.eqb id "" && String.eqb space ""). Qed.
End stub.

(** ** The fields of the struct *)

Definition fill_from (s : MkvJSON * bool) (ms : list (list Z * json)) : MkvJSON * bool :=
  foldl (λ s m, let '(j, ok) := set_field m.1 m.2 s.1 in (j, s.2 && ok)) s ms.

Lemma fill_from_app s ms1 ms2 : fill_from s (ms1 ++ ms2) = fill_from (fill_from s ms1) ms2.
Proof. apply foldl_app. Qed.

Lemma set_url s j : set_field (bytes_of "url") (JStr s) j = (mkMkv (text_of s) (j_size j) (j_magnet j) (j_imdb j) (j_id j) (j_ns j), true).
Proof. reflexivity. Qed.
Lemma set_magnet s j : set_field (bytes_of "magnet") (JStr s) j = (mkMkv (j_url j) (j_size j) (text_of s) (j_imdb j) (j_id j) (j_ns j), true).
Proof. reflexivity. Qed.
Lemma set_id s j : set_field (bytes_of "external_id") (JStr s) j = (mkMkv (j_url j) (j_size j) (j_magnet j) (j_imdb j) (text_of s) (j_ns j), true).
Proof. reflexivity. Qed.
Lemma set_ns s j : set_field (bytes_of "external_id_ns") (JStr s) j = (mkMkv (j_url j) (j_size j) (j_magnet j) (j_imdb j) (j_id j) (text_of s), true).
Proof. reflexivity. Qed.
Lemma set_size lit j : set_field (bytes_of "size") (JNum lit) j =
  match Atoi (text_of lit) with Some n => (mkMkv (j_url j) n (j_magnet j) (j_imdb j) (j_id j) (j_ns j), true) | None => (j, false) end.
Proof. reflexivity. Qed.
Lemma set_other v j : set_field (bytes_of "cue_track") v j = (j, true) ∧ set_field (bytes_of "offset") v j = (j, true).
Proof. split; reflexivity. Qed.

Lemma fill_one k v s : fill_from s [(k, v)] = (let '(j, ok) := set_field k v s.1 in (j, s.2 && ok)).
Proof. done. Qed.

Lemma fill_members url size magnet id space track offset :
  0 ≤ size ≤ 2 ^ 53 →
  fill ((λ m, (bytes_of m.1, to_json m.2)) <$> stub_members url size magnet id space track offset) = Some (mkMkv url size magnet "" id space).
Proof.
  intros Hz. assert (Hn : Atoi (itoa size) = Some size) by (apply Atoi_itoa; unfold in_i64, min_i64, max_i64; lia).
  rewrite members_shape, !fmap_app. unfold fill. fold (fill_from (zero_mkv, true)
    (((λ m : string * out_value, (bytes_of m.1, to_json m.2)) <$> (if track =? 0 then [] else [("cue_track", ONum track)])) ++
     ((λ m, (bytes_of m.1, to_json m.2)) <$> identity_members id space) ++ ((λ m, (bytes_of m.1, to_json m.2)) <$> [("magnet", OStr magnet)]) ++
     ((λ m, (bytes_of m.1, to_json m.2)) <$> (if track =? 0 then [] else [("offset", ONum offset)])) ++
     ((λ m, (bytes_of m.1, to_json m.2)) <$> [("size", ONum size); ("url", OStr url)]))%list).
  rewrite !fill_from_app.
  assert (E1 : ∀ s, fill_from s ((λ m : string * out_value, (bytes_of m.1, to_json m.2)) <$> (if track =? 0 then [] else [("cue_track", ONum track)])) = s).
  { intros [j ok]. destruct (track =? 0); [done|]. simpl fmap. rewrite fill_one. cbn [fst]. rewrite (proj1 (set_other _ _)). simpl. by rewrite andb_true_r. }
  assert (E2 : ∀ s, fill_from s ((λ m : string * out_value, (bytes_of m.1, to_json m.2)) <$> (if track =? 0 then [] else [("offset", ONum offset)])) = s).
  { intros [j ok]. destruct (track =? 0); [done|]. simpl fmap. rewrite fill_one. cbn [fst]. rewrite (proj2 (set_other _ _)). simpl. by rewrite andb_true_r. }
  rewrite E1, E2. clear E1 E2.
  assert (E3 : fill_from (zero_mkv, true) ((λ m : string * out_value, (bytes_of m.1, to_json m.2)) <$> identity_members id space) = (mkMkv "" 0 "" "" id space, true)).
  { unfold identity_members. destruct (String.eqb_spec id "") as [->|], (String.eqb_spec space "") as [->|]; cbn [andb]; try done;
      change (fill_from ?s (?f <$> [?a; ?b])) with (fill_from (fill_from s [f a]) [f b]); cbn [fst snd to_json];
      rewrite !fill_one; cbn [fst snd]; rewrite set_id, set_ns; cbn [fst snd]; by rewrite !text_bytes. }
  rewrite E3. change (fill_from ?s (?f <$> [?a; ?b])) with (fill_from (fill_from s [f a]) [f b]). change (?f <$> [("magnet", OStr magnet)]) with [f ("magnet", OStr magnet)].
  cbn [fst snd to_json]. rewrite !fill_one. cbn [fst snd]. rewrite set_magnet. cbn [fst snd]. rewrite set_size, text_bytes, Hn. cbn [fst snd].
  rewrite set_url. cbn [fst snd]. by rewrite !text_bytes.
Qed.

Lemma trim_braces s : TrimSpace (String "{" (s +:+ String "}" "")) = String "{" (s +:+ String "}" "").
Proof.
  pose proof (trim_solid "{" s "}" eq_refl eq_refl) as H. rewrite <-H at 2. f_equal. unfold TrimSuffix_char.
  change (String "{" (s +:+ String "}" "")) with (String "{" s +:+ String "}" "") at 2. by rewrite list_ascii_app, rev_app_distr.
Qed.

Lemma text_app a b : text_of (a ++ b) = text_of a +:+ text_of b.
Proof. unfold text_of. by rewrite fmap_app, string_ascii_app. Qed.

Local Abbreviation bytes := (Forall (λ z, 0 ≤ z < 256)).

Lemma hex_range d : 0 ≤ d < 16 → 0 ≤ hex_digit d < 256.
Proof. intros Hd. unfold hex_digit. case_match; lia. Qed.

Lemma unicode_escape_range r : 0 ≤ r < 65536 → bytes (unicode_escape r).
Proof.
  intros Hr. unfold unicode_escape. repeat (constructor; [try lia|]); try constructor;
    apply hex_range; Z.to_euclidean_division_equations; lia.
Qed.

Lemma escape_range b : 0 ≤ b < 128 → bytes (escape b).
Proof. intros Hb. unfold escape. repeat case_match; try (by repeat constructor; lia). apply unicode_escape_range. lia. Qed.

Lemma encode_string_range fuel l : bytes l → bytes (encode_string fuel l).
Proof.
  revert l. induction fuel as [|fuel IH]; intros [|a t] Hl; try (by constructor). cbn [encode_string].
  pose proof Hl as Hat. apply list.Forall_cons in Hat as [Ha Ht]. destruct (Z.ltb_spec a 128).
  - apply list.Forall_app. split; [apply escape_range; lia|by apply IH].
  - destruct (decode_rune (a :: t)) as [r n] eqn:Ed. apply list.Forall_app. split; [|apply IH; by apply Forall_drop].
    case_match eqn:E; [|by apply Forall_take]. apply unicode_escape_range. unfold RuneError in E.
    rewrite !orb_true_iff, andb_true_iff, !Z.eqb_eq in E. lia.
Qed.

Lemma quote_range s : bytes (quote s).
Proof. unfold quote. constructor; [lia|]. apply list.Forall_app. split; [apply encode_string_range, bytes_range|by repeat constructor]. Qed.

Lemma print_range ms : bytes (print_object ms).
Proof.
  assert (Hm : ∀ m, bytes (print_member m)).
  { intros [k v]. unfold print_member. apply list.Forall_app. split; [apply quote_range|]. constructor; [lia|].
    destruct v; [apply quote_range|apply bytes_range]. }
  unfold print_object. constructor; [lia|]. apply list.Forall_app. split; [|by repeat constructor].
  induction ms as [|m ms IH]; [constructor|]. destruct ms as [|m' ms]; [apply Hm|]. cbn [print_members].
  apply list.Forall_app. split; [apply Hm|]. by constructor; [lia|].
Qed.

Lemma object_text ms : text_of (print_object ms) = String "{" (text_of (print_members ms) +:+ String "}" "").
Proof. unfold print_object. change (123 :: ?l ++ [125])%list with ((123 :: l) ++ [125])%list. by rewrite text_app. Qed.

Lemma read_stub url size magnet id space track offset lim :
  valid_utf8 url = true → valid_utf8 magnet = true → valid_utf8 id = true → valid_utf8 space = true →
  TrimSpace url = url → is_http url = true → in_limits lim size = true → 0 ≤ size ≤ 2 ^ 53 → 0 ≤ track → 0 ≤ offset →
  ∃ l, AudioCueStubBytes url size magnet id space track offset = Some l ∧
    readMetadata (list_byte_of_string (text_of l)) lim = inr (mkMeta url size (find_imdb (text_of l)) id space).
Proof.
  intros Hu Hm Hi Hs Htr Hh Hl Hz Ht Ho. rewrite cue_text by done. eexists. split; [done|]. unfold readMetadata.
  rewrite string_of_list_byte_of_string. set (ms := stub_members url size magnet id space track offset).
  pose proof (bytes_text _ (print_range ms)) as Hb. rewrite object_text in *. rewrite trim_braces.
  change (HasPrefix_char "{" (String "{" ?x)) with true. cbv iota. unfold parseJSONFormat. rewrite Hb. unfold unmarshal.
  destruct (members_ok url size magnet id space track offset) as [Hok Hne]; try done.
  rewrite parse_print by done. unfold ms. rewrite fill_members by done. cbn [j_url j_size j_imdb j_id j_ns].
  rewrite Htr, Hh, Hl. cbn [negb]. done.
Qed.

(** C13: What the library writes for a row, the file system reads: the URL, the size and
    the identity of the projection, for a plain file and for a cue track, whatever
    characters the magnet and the identity hold.  A stub has no IMDb number; one that its
    text happens to contain is reported. *)
Theorem stub_roundtrip url size magnet id space track offset lim :
  valid_utf8 url = true → valid_utf8 magnet = true → valid_utf8 id = true → valid_utf8 space = true →
  TrimSpace url = url → is_http url = true → in_limits lim size = true → 0 ≤ size ≤ 2 ^ 53 → 0 ≤ track → 0 ≤ offset →
  ∃ l, AudioCueStubBytes url size magnet id space track offset = Some l ∧
    readMetadata (list_byte_of_string (text_of l)) lim = inr (mkMeta url size (find_imdb (text_of l)) id space).
Proof. apply read_stub. Qed.

(** ** The URL of a projection *)

Lemma find_link_skip a X : has_char "=" a = false → find_link (a +:+ "link=" +:+ X) = find_link ("link=" +:+ X).
Proof.
  induction a as [|c a IH]; [done|]. intros Hc. cbn [has_char] in Hc. apply orb_false_iff in Hc as [_ Ha]. rewrite <-(IH Ha).
  change (String c a +:+ ?t) with (String c (a +:+ t)). cbn [find_link].
  assert (Hp : String.prefix "link=" (String c (a +:+ "link=" +:+ X)) = false); [|by rewrite Hp].
  apply not_true_is_false. intros Hp. apply prefix_correct in Hp.
  destruct a as [|c1 [|c2 [|c3 [|c4 a]]]]; cbn in Hp; try discriminate Hp. injection Hp; intros; subst; discriminate Ha.
Qed.

Lemma find_index_skip a X : has_char "=" a = false → find_index (a +:+ "link=" +:+ X) = find_index ("link=" +:+ X).
Proof.
  induction a as [|c a IH]; [done|]. intros Hc. cbn [has_char] in Hc. apply orb_false_iff in Hc as [_ Ha]. rewrite <-(IH Ha).
  change (String c a +:+ ?t) with (String c (a +:+ t)). cbn [find_index].
  assert (Hp : String.prefix "index=" (String c (a +:+ "link=" +:+ X)) = false); [|by rewrite Hp].
  apply not_true_is_false. intros Hp. apply prefix_correct in Hp.
  destruct a as [|c1 [|c2 [|c3 [|c4 [|c5 a]]]]]; cbn in Hp; try discriminate Hp. injection Hp; intros; subst; discriminate Ha.
Qed.

Lemma find_index_hex h X : all_hex h = true → find_index (h +:+ X) = find_index X.
Proof.
  induction h as [|c h IH]; [done|]. intros [Hc Hh]%andb_true_iff. rewrite <-(IH Hh). change (String c h +:+ ?t) with (String c (h +:+ t)). cbn [find_index].
  assert (Hp : String.prefix "index=" (String c (h +:+ X)) = false); [|by rewrite Hp].
  apply not_true_is_false. intros Hp. apply prefix_correct in Hp. cbn in Hp. injection Hp as ->. discriminate Hc.
Qed.

Lemma leading_digits_uint u n X : (String.length (NilEmpty.string_of_uint u) < n)%nat →
  leading_digits n (NilEmpty.string_of_uint u +:+ String "&" X) = NilEmpty.string_of_uint u.
Proof.
  revert n. induction u as [|u IH|u IH|u IH|u IH|u IH|u IH|u IH|u IH|u IH|u IH]; intros [|n] Hn; simpl in Hn; try lia; [done|..];
    cbn [NilEmpty.string_of_uint]; change (String ?c ?a +:+ ?t) with (String c (a +:+ t)); cbn [leading_digits];
    (match goal with |- context [digit_char ?c] => change (digit_char c) with true end); cbv iota; by rewrite IH by lia.
Qed.

Lemma leading_digits_itoa i n X : 0 ≤ i → (String.length (itoa i) < n)%nat →
  leading_digits n (itoa i +:+ String "&" X) = itoa i ∧ itoa i ≠ "".
Proof.
  intros Hi Hn. unfold itoa in *. destruct i as [|p|p]; [|cbn [Z.to_int NilZero.string_of_int] in *|lia].
  - split; [|done]. destruct n as [|[|n]]; simpl in Hn; [lia|lia|done].
  - assert (E : NilZero.string_of_uint (Pos.to_uint p) = NilEmpty.string_of_uint (Pos.to_uint p)).
    { pose proof (Unsigned.to_uint_nonnil p). by destruct (Pos.to_uint p). }
    rewrite E in *. split; [by apply leading_digits_uint|]. pose proof (Unsigned.to_uint_nonnil p). by destruct (Pos.to_uint p).
Qed.

Lemma substring_tail n a b : (String.length b ≤ n)%nat → String.substring (String.length a) n (a +:+ b) = b.
Proof.
  revert n. induction a as [|c a IH]; intros n Hn; [|simpl; by apply IH]. simpl. revert n Hn.
  induction b as [|d b IH]; intros [|n] Hn; simpl in *; try done; [lia|]. f_equal. apply IH. lia.
Qed.

Lemma substring_middle a b c : String.substring (String.length a) (String.length b) (a +:+ b +:+ c) = b.
Proof. induction a as [|x a IH]; [|done]. change ("" +:+ ?t) with t. apply substring_pre. Qed.

Lemma find_link_hit h X : String.length h = 40%nat → all_hex h = true → find_link ("link=" +:+ h +:+ X) = ToLower h.
Proof.
  intros Hl Hh. pose proof (substring_middle "link=" h X) as Hs. rewrite Hl in Hs. change (String.length "link=") with 5%nat in Hs.
  change ("link=" +:+ h +:+ X) with (String "l" ("ink=" +:+ h +:+ X)) in *. cbn [find_link]. rewrite Hs, Hl, Hh.
  by destruct (h +:+ X).
Qed.

Lemma find_index_hit i X : 0 ≤ i → in_i64 i → find_index ("index=" +:+ itoa i +:+ String "&" X) = i.
Proof.
  intros Hi Hr. set (t := itoa i +:+ String "&" X). pose proof (substring_tail (String.length ("index=" +:+ t)) "index=" t) as Hs.
  change (String.length "index=") with 6%nat in Hs. change ("index=" +:+ t) with (String "i" ("ndex=" +:+ t)) in *. cbn [find_index].
  rewrite Hs by (change (String.length (String "i" ("ndex=" +:+ t))) with (6 + String.length t)%nat; lia).
  assert (Hp : String.prefix "index=" (String "i" ("ndex=" +:+ t)) = true) by (by destruct t). rewrite Hp. clear Hp.
  destruct (leading_digits_itoa i (String.length (String "i" ("ndex=" +:+ t))) X Hi) as [Hd Hne].
  { change (String.length (String "i" ("ndex=" +:+ t))) with (6 + String.length t)%nat. unfold t. rewrite slen_app. lia. }
  fold t in Hd. rewrite Hd. destruct (String.eqb_spec (itoa i) ""); [done|]. simpl. by rewrite Atoi_itoa.
Qed.

(** The identity a stub declares is that of its row. *)
Lemma extract_stream base hash i :
  has_char "=" base = false → String.length hash = 40%nat → all_hex hash = true → 0 ≤ i → in_i64 i →
  ExtractHashAndIndex (streamURL base hash i) = (ToLower hash, i).
Proof.
  intros Hb Hl Hh Hi Hr. unfold ExtractHashAndIndex, streamURL.
  assert (E : base +:+ "/stream?link=" +:+ hash +:+ "&index=" +:+ itoa i +:+ "&play" =
    (base +:+ "/stream?") +:+ "link=" +:+ hash +:+ "&index=" +:+ itoa i +:+ "&play") by (by rewrite append_assoc).
  assert (Hb' : has_char "=" (base +:+ "/stream?") = false) by (by rewrite has_char_append, Hb).
  rewrite E, find_link_skip, find_index_skip by done. rewrite find_link_hit by done. f_equal.
  change (find_index ("link=" +:+ ?t)) with (find_index t). rewrite find_index_hex by done.
  change (find_index ("&index=" +:+ ?t)) with (find_index ("index=" +:+ t)). by apply find_index_hit.
Qed.

(** ** The stub of a row agrees with it *)

Definition ascii_only (s : string) : bool := forallb (λ z, z <? 128) (bytes_of s).

Lemma ascii_only_valid s : ascii_only s = true → valid_utf8 s = true.
Proof.
  unfold ascii_only, valid_utf8. rewrite <-(bytes_length s). generalize (bytes_of s). intros l. 
  generalize (length l) as n. induction l as [|b l IH]; intros [|n] H; try done. cbn [forallb] in H. apply andb_true_iff in H as [Hb H].
  cbn [utf8_valid]. rewrite Hb. by apply IH.
Qed.

Lemma ascii_only_app a b : ascii_only (a +:+ b) = ascii_only a && ascii_only b.
Proof. unfold ascii_only. by rewrite bytes_app, forallb_app. Qed.

Lemma hex_ascii h : all_hex h = true → ascii_only h = true.
Proof.
  induction h as [|c h IH]; [done|]. intros [Hc Hh]%andb_true_iff. change (ascii_only (String c h)) with ((code c <? 128) && ascii_only h).
  rewrite IH by done. rewrite andb_true_r. unfold is_hex in Hc. destruct (code c <? 128) eqn:E; [done|]. exfalso. revert Hc E. clear.
  unfold code. destruct c as [[] [] [] [] [] [] [] []]; vm_compute; congruence.
Qed.

Lemma itoa_ascii i : 0 ≤ i → ascii_only (itoa i) = true.
Proof.
  intros Hi. unfold itoa. destruct i as [|p|p]; [done|cbn [Z.to_int NilZero.string_of_int]|lia].
  assert (H : ∀ u, ascii_only (NilEmpty.string_of_uint u) = true).
  { induction u; [done|..]; cbn [NilEmpty.string_of_uint]; change (ascii_only (String ?c ?h)) with ((code c <? 128) && ascii_only h); by rewrite IHu. }
  pose proof (Unsigned.to_uint_nonnil p). destruct (Pos.to_uint p) eqn:E; try done; rewrite <-E;
    replace (NilZero.string_of_uint (Pos.to_uint p)) with (NilEmpty.string_of_uint (Pos.to_uint p)) by (by rewrite E); apply H.
Qed.

Definition base_ok (base : string) : bool := is_http base && negb (has_char "=" base) && ascii_only base.
(** What the library's own requests make of a row. *)
Definition row_writable (r : AudioProjection) : bool :=
  (String.length (row_hash r) =? 40)%nat && all_hex (row_hash r) && (0 <=? row_index r) && (row_index r <=? max_i64)
  && (1 <=? row_size r) && (row_size r <=? MaxFileSize) && (0 <=? row_track r) && (0 <=? ByteOffset r)
  && valid_utf8 (row_magnet r) && valid_utf8 (ExternalID r) && valid_utf8 (ExternalIDNamespace r).

Lemma http_split s : is_http s = true → ∃ t, s = String "h" t.
Proof.
  unfold is_http. intros [H|H]%orb_true_iff; apply prefix_correct in H; destruct s as [|c t]; try discriminate H; cbn in H; injection H as -> _; eauto.
Qed.

Lemma http_app a b : is_http a = true → is_http (a +:+ b) = true.
Proof.
  assert (H : ∀ p a b, String.prefix p a = true → String.prefix p (a +:+ b) = true).
  { induction p as [|c p IH]; intros x y; [by destruct x, y|]. destruct x as [|d x]; [done|]. change (String d x +:+ y) with (String d (x +:+ y)).
    cbn [String.prefix]. destruct (ascii_dec c d); [apply IH|done]. }
  unfold is_http. rewrite !orb_true_iff. intros [Ha|Ha]; [left|right]; by apply H.
Qed.

Lemma stream_trim base hash i : is_http base = true → TrimSpace (streamURL base hash i) = streamURL base hash i.
Proof.
  intros [t ->]%http_split. unfold streamURL.
  assert (E : String "h" t +:+ "/stream?link=" +:+ hash +:+ "&index=" +:+ itoa i +:+ "&play" =
    String "h" ((t +:+ "/stream?link=" +:+ hash +:+ "&index=" +:+ itoa i +:+ "&pla") +:+ String "y" "")).
  { rewrite !append_assoc. done. }
  rewrite E. set (mid := t +:+ _). pose proof (trim_solid "h" mid "y" eq_refl eq_refl) as H. rewrite <-H at 2. f_equal. unfold TrimSuffix_char.
  change (String "h" (mid +:+ String "y" "")) with (String "h" mid +:+ String "y" "") at 2. by rewrite list_ascii_app, rev_app_distr.
Qed.

Lemma stream_valid base hash i : ascii_only base = true → all_hex hash = true → 0 ≤ i → valid_utf8 (streamURL base hash i) = true.
Proof. intros Hb Hh Hi. apply ascii_only_valid. unfold streamURL. rewrite !ascii_only_app, Hb, (hex_ascii _ Hh), itoa_ascii by done. done. Qed.

Lemma row_stub_matches base r :
  base_ok base = true → row_writable r = true →
  stub_matches (row_stub base (row_hash r) (row_index r) (row_size r) (row_magnet r) (ExternalID r) (ExternalIDNamespace r) (row_track r) (ByteOffset r)) r = true.
Proof.
  unfold base_ok, row_writable. intros Hb Hr. rewrite !andb_true_iff, ?Z.leb_le, ?Nat.eqb_eq, ?negb_true_iff in *.
  destruct Hb as [[Hb1 Hb2] Hb3]. destruct Hr as [[[[[[[[[[H1 H2] H3] H4] H5] H6] H7] H8] H9] H10] H11].
  pose proof (stream_valid base (row_hash r) (row_index r) Hb3 H2 H3) as Hurl.
  destruct (read_stub (streamURL base (row_hash r) (row_index r)) (row_size r) (row_magnet r) (ExternalID r) (ExternalIDNamespace r)
    (row_track r) (ByteOffset r) AudioSizeLimits) as (l & E & Hm); try done.
  - by apply stream_trim.
  - unfold streamURL. by apply http_app.
  - unfold in_limits. simpl. rewrite (proj2 (Z.ltb_ge _ _)), (proj2 (Z.ltb_ge _ _)) by lia. done.
  - unfold MaxFileSize in H6. lia.
  - unfold stub_matches, row_stub. rewrite E, Hm. cbn [m_url m_size]. rewrite extract_stream by (done || (unfold in_i64, min_i64, max_i64 in *; lia)).
    rewrite ToLower_idem, String.eqb_refl, !Z.eqb_refl. cbn [andb]. by rewrite orb_true_r.
Qed.

Lemma stub_roundtrip_witness : ∃ l, AudioCueStubBytes sample_url 1000 "magnet:?a<b" "id" "ns" 2 55 = Some l ∧
  readMetadata (list_byte_of_string (text_of l)) AudioSizeLimits = inr (mkMeta sample_url 1000 (find_imdb (text_of l)) "id" "ns").
Proof. apply stub_roundtrip; (reflexivity || lia). Defined.
