(* ===== verification/AudioNamespace.v ===== *)
(** * The committed audio namespace (internal/library/audio.go)

    The file system answers for audio paths from an in-memory view of the registry.
    The view is a state machine: until a reconciliation publishes it, readers wait on
    a channel; a publication, the absence of a registry and a failure release them.

    Channels are numbered; closing one wakes every reader that waits on it.  Methods
    are atomic (they hold the mutex); a reader is between two of its sections. *)

From Stdlib Require Import Ascii String.
From S2P Require Import Prelude GoFloat GoStrings Flac Cue CueSplit Paths Sources AudioRegistry.
Local Open Scope string_scope.
Local Open Scope Z_scope.

(** [AudioProjection] of package library: what the file system needs of a row. *)
Record NsProjection := mkNs {
  ns_section : string; ns_path : string; ns_hash : string; ns_index : Z; ns_size : Z; ns_mtime : Z; ns_updated : Z;
  ns_id : string; ns_ns : string; ns_track : Z; ns_offset : Z; ns_header : list Byte.byte
}.
Definition proj_path (p : NsProjection) : AudioPath := (ns_section p, ns_path p).

Inductive NamespaceState := Unreconciled | Ready | Unavailable | Failed.

#[export] Instance ns_state_eq_dec : EqDecision NamespaceState.
Proof. solve_decision. Defined.

Record AudioNamespace := mkNamespace {
  entries : gmap AudioPath NsProjection;
  live : gmap AudioPath NsProjection;
  state : NamespaceState;
  wake : option nat;
  closed : gset nat;        (* the channels that are closed *)
  fresh : nat               (* the next channel *)
}.
Definition NewAudioNamespace : AudioNamespace := mkNamespace ∅ ∅ Unreconciled None ∅ 0.

Definition with_entries (e l : gmap AudioPath NsProjection) (n : AudioNamespace) : AudioNamespace :=
  mkNamespace e l (state n) (wake n) (closed n) (fresh n).

(** Closing a channel that is closed already would panic: the select avoids it. *)
Definition transitionLocked (s : NamespaceState) (n : AudioNamespace) : AudioNamespace :=
  mkNamespace (entries n) (live n) s (wake n)
    (match wake n with
     | Some c => if bool_decide (c ∈ closed n) then closed n else {[ c ]} ∪ closed n
     | None => closed n
     end) (fresh n).
Definition blockLocked (n : AudioNamespace) : AudioNamespace :=
  mkNamespace (entries n) (live n) Unreconciled (Some (fresh n)) (closed n) (S (fresh n)).

Definition MarkUnavailable (n : AudioNamespace) : AudioNamespace := transitionLocked Unavailable (with_entries ∅ (live n) n).
Definition MarkFailed (n : AudioNamespace) : AudioNamespace := transitionLocked Failed (with_entries ∅ (live n) n).
Definition MarkUnready (n : AudioNamespace) : AudioNamespace := blockLocked (with_entries ∅ (live n) n).

Definition bare (p : AudioPath) : NsProjection := mkNs p.1 p.2 "" 0 0 0 0 "" "" 0 0 [].
Definition by_path (ps : list NsProjection) : gmap AudioPath NsProjection :=
  foldl (λ m p, <[proj_path p := p]> m) ∅ ps.

Definition Replace (paths : list AudioPath) (n : AudioNamespace) : AudioNamespace :=
  transitionLocked Ready (with_entries (foldl (λ m p, <[p := bare p]> m) ∅ paths) ∅ n).
Definition Ns_Add (p : AudioPath) (n : AudioNamespace) : AudioNamespace := with_entries (<[p := bare p]> (entries n)) (live n) n.
Definition Ns_Remove (p : AudioPath) (n : AudioNamespace) : AudioNamespace := with_entries (delete p (entries n)) (delete p (live n)) n.
Definition HasProjection (n : AudioNamespace) (sec p : string) : bool := bool_decide (is_Some (entries n !! (sec, p))).
Definition Ns_Lookup (n : AudioNamespace) (sec p : string) : option NsProjection := entries n !! (sec, p).
Definition Publish (ps : list NsProjection) (n : AudioNamespace) : AudioNamespace :=
  transitionLocked Ready (with_entries (by_path ps) ∅ n).
Definition PublishMerged (ps : list NsProjection) (n : AudioNamespace) : AudioNamespace :=
  transitionLocked Ready (with_entries (live n ∪ by_path ps) ∅ n).
Definition AddProjections (ps : list NsProjection) (n : AudioNamespace) : AudioNamespace :=
  if bool_decide (ps = []) then n
  else with_entries (foldl (λ m p, <[proj_path p := p]> m) (entries n) ps) (foldl (λ m p, <[proj_path p := p]> m) (live n) ps) n.

(** The newest commit below a directory. *)
Definition DirMtime (n : AudioNamespace) (sec dirRel : string) : option Z :=
  let prefix := if String.eqb dirRel "" || String.eqb dirRel "." then "" else dirRel +:+ "/" in
  foldr (λ kp newest, let '(k, p) := kp in
           if negb (String.eqb k.1 sec) || (ns_updated p =? 0) || negb (String.eqb prefix "" || String.prefix prefix k.2) then newest
           else match newest with None => Some (ns_updated p) | Some m => Some (Z.max (ns_updated p) m) end)
        None (map_to_list (entries n)).

(** ** Waiting *)

(** A reader in [WaitServable]: about to read the state, about to install a channel, or
    waiting on one. *)
Inductive reader := AtStart | Installing | WaitingOn (c : nat).
Inductive wait_result := Served | Refused.

(** Reading the state under the read lock. *)
Definition wait_read (n : AudioNamespace) : wait_result + reader :=
  match state n with
  | Ready | Unavailable => inl Served
  | Failed => inl Refused
  | Unreconciled => match wake n with Some c => inr (WaitingOn c) | None => inr Installing end
  end.
(** Installing a channel under the lock, unless there is one, and checking the state again. *)
Definition wait_install (n : AudioNamespace) : AudioNamespace * reader :=
  let n := match wake n with
           | Some _ => n
           | None => mkNamespace (entries n) (live n) (state n) (Some (fresh n)) (closed n) (S (fresh n))
           end in
  (n, if bool_decide (state n = Unreconciled) then match wake n with Some c => WaitingOn c | None => AtStart end else AtStart).

Record ns_world := mkNsWorld { space : AudioNamespace; readers : gmap nat reader }.

Inductive ns_step : ns_world → ns_world → Prop :=
  | NS_update f w : f ∈ [MarkUnavailable; MarkFailed] → ns_step w (mkNsWorld (f (space w)) (readers w))
  | NS_replace ps w : ns_step w (mkNsWorld (Replace ps (space w)) (readers w))
  | NS_publish ps w : ns_step w (mkNsWorld (Publish ps (space w)) (readers w))
  | NS_merge ps w : ns_step w (mkNsWorld (PublishMerged ps (space w)) (readers w))
  | NS_add ps w : ns_step w (mkNsWorld (AddProjections ps (space w)) (readers w))
  | NS_insert p w : ns_step w (mkNsWorld (Ns_Add p (space w)) (readers w))
  | NS_remove p w : ns_step w (mkNsWorld (Ns_Remove p (space w)) (readers w))
  | NS_unready w : state (space w) ≠ Unreconciled → ns_step w (mkNsWorld (MarkUnready (space w)) (readers w))
  | NS_arrive i w : readers w !! i = None → ns_step w (mkNsWorld (space w) (<[i := AtStart]> (readers w)))
  | NS_answer i r w : readers w !! i = Some AtStart → wait_read (space w) = inl r →
      ns_step w (mkNsWorld (space w) (delete i (readers w)))
  | NS_read i r w : readers w !! i = Some AtStart → wait_read (space w) = inr r →
      ns_step w (mkNsWorld (space w) (<[i := r]> (readers w)))
  | NS_install i w : readers w !! i = Some Installing →
      ns_step w (mkNsWorld (wait_install (space w)).1 (<[i := (wait_install (space w)).2]> (readers w)))
  | NS_wake i c w : readers w !! i = Some (WaitingOn c) → c ∈ closed (space w) →
      ns_step w (mkNsWorld (space w) (<[i := AtStart]> (readers w)))
  | NS_cancel i c w : readers w !! i = Some (WaitingOn c) → ns_step w (mkNsWorld (space w) (delete i (readers w))).

(** Nobody waits on a channel that will not be closed. *)
Record ns_inv (w : ns_world) : Prop := {
  ni_waiting i c : readers w !! i = Some (WaitingOn c) → c ∉ closed (space w) → state (space w) = Unreconciled ∧ wake (space w) = Some c;
  ni_wake c : wake (space w) = Some c → state (space w) = Unreconciled → c ∉ closed (space w);
  ni_fresh c : (c ∈ closed (space w) ∨ wake (space w) = Some c) → (c < fresh (space w))%nat
}.

Lemma transition_inv s n rd :
  ns_inv (mkNsWorld n rd) → s ≠ Unreconciled → ns_inv (mkNsWorld (transitionLocked s n) rd).
Proof.
  intros [H1 H2 H3] Hs. simpl in *. split; simpl.
  - intros i c Hi Hc. exfalso. destruct (wake n) as [d|] eqn:Ew.
    + destruct (bool_decide_reflect (d ∈ closed n)) as [Hd|Hd].
      * destruct (H1 i c Hi Hc) as [_ [= ->]]. done.
      * assert (Hc' : c ∉ closed n) by set_solver. destruct (H1 i c Hi Hc') as [_ [= ->]]. set_solver.
    + destruct (H1 i c Hi Hc) as [_ ?]. done.
  - intros c _ ?. done.
  - intros c [Hc|Hc]; [|by apply H3; right]. destruct (wake n) as [d|] eqn:Ew; [|by apply H3; left].
    destruct (bool_decide_reflect (d ∈ closed n)); [by apply H3; left|].
    apply elem_of_union in Hc as [->%elem_of_singleton|Hc]; [by apply H3; right|by apply H3; left].
Qed.

Lemma entries_inv e l n rd : ns_inv (mkNsWorld n rd) → ns_inv (mkNsWorld (with_entries e l n) rd).
Proof. intros [H1 H2 H3]. by split. Qed.

Lemma reader_inv n rd i r :
  ns_inv (mkNsWorld n rd) → (∀ c, r = WaitingOn c → state n = Unreconciled ∧ wake n = Some c) →
  ns_inv (mkNsWorld n (<[i := r]> rd)).
Proof.
  intros [H1 H2 H3] Hr. split; simpl in *; [|done|done]. intros j c [[<- ->]|[_ Hj]]%lookup_insert_Some Hc; [by apply Hr|by eapply H1].
Qed.

Lemma leave_inv n rd i : ns_inv (mkNsWorld n rd) → ns_inv (mkNsWorld n (delete i rd)).
Proof. intros [H1 H2 H3]. split; simpl in *; [|done|done]. intros j c [_ Hj]%lookup_delete_Some Hc. by eapply H1. Qed.

Create HintDb namespace.
#[export] Hint Resolve transition_inv entries_inv reader_inv leave_inv : namespace.

Lemma ns_step_inv w w' : ns_step w w' → ns_inv w → ns_inv w'.
Proof.
  destruct 1 as [f w Hf|ps w|ps w|ps w|ps w|p w|p w|w Hs|i w Hi|i r w Hi Hr|i r w Hi Hr|i w Hi|i c w Hi Hc|i c w Hi]; intros Hw; destruct w as [n rd]; simpl in *;
    unfold Replace, Publish, PublishMerged, AddProjections, Ns_Add, Ns_Remove; auto with namespace;
    try (by apply reader_inv).
  - rewrite !elem_of_cons, elem_of_nil in Hf. destruct Hf as [->|[->|[]]]; unfold MarkUnavailable, MarkFailed; auto with namespace.
  - case_bool_decide; auto with namespace.
  - destruct Hw as [H1 H2 H3]. split; simpl in *.
    + intros i c Hi Hc. by destruct (H1 i c Hi Hc).
    + intros c [= <-] _ Hc. specialize (H3 _ (or_introl Hc)). lia.
    + intros c [Hc|[= <-]]; [specialize (H3 _ (or_introl Hc)); lia|lia].
  - apply reader_inv; [done|]. intros c ->. unfold wait_read in Hr. destruct (state n) eqn:Es; try done.
    destruct (wake n) eqn:Ew; by simplify_eq.
  - unfold wait_install. destruct (wake n) as [c|] eqn:Ew; simpl.
    + apply reader_inv; [done|]. intros d. case_bool_decide; [|done]. rewrite Ew. by intros [= ->].
    + assert (Hw' : ns_inv (mkNsWorld (mkNamespace (entries n) (live n) (state n) (Some (fresh n)) (closed n) (S (fresh n))) rd)).
      { destruct Hw as [H1 H2 H3]. split; simpl in *.
        - intros j c Hj Hc. destruct (H1 j c Hj Hc) as [_ ?]. congruence.
        - intros c [= <-] _ Hc. specialize (H3 _ (or_introl Hc)). lia.
        - intros c [Hc|[= <-]]; [specialize (H3 _ (or_introl Hc)); lia|lia]. }
      apply reader_inv; [done|]. simpl. intros c. case_bool_decide; [|done]. by intros [= ->].
Qed.

(** C25: While authority is dropped only from a namespace that has it, no reader is left
    behind: whenever a reader waits on a channel that is open, it is the channel the
    next publication, failure or lack of a registry closes, and after these no reader
    waits on an open channel at all. *)
Theorem waiters_released w i c :
  rtc ns_step (mkNsWorld NewAudioNamespace ∅) w → readers w !! i = Some (WaitingOn c) → c ∉ closed (space w) →
  state (space w) = Unreconciled ∧ ∀ s, s ≠ Unreconciled → c ∈ closed (transitionLocked s (space w)).
Proof.
  intros Hr Hi Hc. assert (Hw : ns_inv w).
  { assert (H0 : ns_inv (mkNsWorld NewAudioNamespace ∅)).
    { split; simpl; [intros j d; by rewrite lookup_empty|done|]. intros d [Hd|Hd]; [set_solver|done]. }
    revert H0. induction Hr as [|w w1 w2 Hs _ IH]; [done|]. intros H0. apply IH; [done|done|]. by eapply ns_step_inv. }
  destruct (ni_waiting w Hw i c Hi Hc) as [Hs Hk]. split; [done|]. intros s _. unfold transitionLocked. simpl. rewrite Hk.
  rewrite bool_decide_eq_false_2 by done. set_solver.
Qed.

Definition one_waiting : ns_world := mkNsWorld (wait_install NewAudioNamespace).1 {[ 0%nat := WaitingOn 0 ]}.

Lemma waiters_released_witness : 0%nat ∈ closed (transitionLocked Ready (space one_waiting)).
Proof.
  apply (waiters_released one_waiting 0 0); [|reflexivity|vm_compute; intros H; inversion H|discriminate].
  eapply rtc_l; [apply (NS_arrive 0); reflexivity|]. eapply rtc_l; [eapply (NS_read 0); reflexivity|].
  eapply rtc_l; [apply (NS_install 0); reflexivity|]. apply rtc_refl.
Defined.

(** Dropping authority while readers wait leaves them on a channel nobody closes. *)
Lemma unready_strands_waiters :
  let n := MarkUnready (space one_waiting) in
  let n := Publish [] n in
  state n = Ready ∧ readers one_waiting !! 0%nat = Some (WaitingOn 0) ∧ 0%nat ∉ closed n.
Proof. split_and!; [done|done|]. vm_compute. intros H. inversion H. Qed.

(** ** Publishing *)

Lemma by_path_app ps p : by_path (ps ++ [p]) = <[proj_path p := p]> (by_path ps).
Proof. unfold by_path. by rewrite foldl_app. Qed.

Lemma fold_paths_lookup (ps : list NsProjection) (k : AudioPath) (m : gmap AudioPath NsProjection) :
  foldl (λ m p, <[proj_path p := p]> m) m ps !! k = match by_path ps !! k with Some p => Some p | None => m !! k end.
Proof.
  induction ps as [|p ps IH] using rev_ind; [done|]. rewrite foldl_app, by_path_app. simpl.
  destruct (decide (proj_path p = k)) as [<-|]; [by rewrite !lookup_insert_eq|]. by rewrite !lookup_insert_ne by done.
Qed.

(** A merge keeps what was added while the pass ran, and takes the rest from the pass. *)
Lemma merge_keeps_live (ps added : list NsProjection) (n : AudioNamespace) (k : AudioPath) :
  entries (PublishMerged ps (AddProjections added n)) !! k =
  match by_path added !! k with Some p => Some p | None => match live n !! k with Some p => Some p | None => by_path ps !! k end end.
Proof.
  unfold PublishMerged, AddProjections. case_bool_decide as Ha; simpl.
  - subst. simpl. rewrite lookup_union. destruct (live n !! k); [by destruct (by_path ps !! k)|by destruct (by_path ps !! k)].
  - rewrite lookup_union, fold_paths_lookup. destruct (by_path added !! k), (live n !! k), (by_path ps !! k); done.
Qed.

(** A path removed while a pass runs comes back with the rows the pass has read. *)
Lemma pass_resurrects_removed :
  let p := mkNs "music" "a.flac" "h" 1 10 5 5 "" "" 0 0 [] in
  entries (PublishMerged [p] (Ns_Remove ("music", "a.flac") NewAudioNamespace)) !! ("music", "a.flac") = Some p.
Proof. by vm_compute. Qed.
