(* ===== verification/AudioTxn.v ===== *)
(** * Adding and removing audio projections (internal/library/atomicadd.go, removal.go,
    recovery.go, containment_linux.go; reconcileAudio of startup.go)

    An add stages its rows in the registry, writes one stub per row under a hidden
    staging name, renames every stub to its final name, commits the rows and only then
    publishes them; any failure unwinds it.  A removal marks rows, unpublishes them,
    unlinks their stubs and deletes the rows.  A crash loses every request in progress
    and the namespace; the next boot rolls back what was staged, finishes what was being
    removed and publishes what is committed.

    Requests interleave: a step is one call to the registry, the file system or the
    namespace.  Every call may fail; a failed call changes nothing, except the rename
    that happens before the failing fsync.  The unlink of a write that failed is taken
    to work.  Directories are left out: they are created on demand and pruned when
    empty, and hold no data.  Every object of the file system has an identity no other
    live object has; identities may be reused.  [fo_owner] is ghost state: the
    transaction that wrote a file, [None] for everybody else.

    The steps are the same for every text of a stub ([stub_bytes]) and every comparison
    of a stub with its row ([stub_agrees]); those of the code are [row_stub] and
    [stub_matches] of Stub.v.

    The theorems are about the runs in which removals of one path do not overlap each
    other or the publication of an add of it, and the recovery of a boot, one step here,
    is done before requests are taken ([calm]).  The code enforces neither; the end of
    TxnRuns.v shows what other runs do. *)

From Stdlib Require Import Ascii String.
From S2P Require Import Prelude GoFloat GoStrings Flac Cue CueSplit Paths Sources AudioRegistry AudioNamespace.
Local Open Scope string_scope.
Local Open Scope Z_scope.

(** ** The file system *)

Definition FileIdentity : Type := Z * Z.
Record file_obj := mkObj { fo_id : FileIdentity; fo_data : list Byte.byte; fo_owner : option string }.
Abbreviation files := (gmap (string * string) file_obj).

(** The staging name is beside the destination. *)
Definition stagingRelPath (r : AudioProjection) : string := dir_part (VirtualPath r) +:+ StagingName r.
Definition stage_path (r : AudioProjection) : AudioPath := (row_section r, stagingRelPath r).

Definition RemoveStagedIfIdentity (p : AudioPath) (want : FileIdentity) (fs : files) : files * bool :=
  match fs !! p with
  | Some o => if bool_decide (fo_id o = want) then (delete p fs, true) else (fs, false)
  | None => (fs, false)
  end.
Definition rename_noreplace (from to : AudioPath) (fs : files) : option files :=
  match fs !! from, fs !! to with
  | Some o, None => Some (<[to := o]> (delete from fs))
  | _, _ => None
  end.
Definition id_free (id : FileIdentity) (fs : files) : Prop := ∀ p o, fs !! p = Some o → fo_id o ≠ id.

(** ** Requests in progress *)

Inductive add_pc :=
  | Writing                                   (* the next stub *)
  | Created (id : FileIdentity)               (* its file exists and is not written *)
  | Publishing (k : nat)                      (* the next rename *)
  | Committing
  | Announcing
  | Unwinding (k : nat) (failed : bool).      (* the next object to remove *)
Record add_job := mkAdd {
  aj_rows : list AudioProjection;
  aj_objects : list (AudioPath * FileIdentity);
  aj_pc : add_pc;
  aj_now : Z
}.
Definition at_pc (pc : add_pc) (j : add_job) : add_job := mkAdd (aj_rows j) (aj_objects j) pc (aj_now j).
Definition with_objects (l : list (AudioPath * FileIdentity)) (pc : add_pc) (j : add_job) : add_job := mkAdd (aj_rows j) l pc (aj_now j).

Inductive rm_pc := Claim (prefix : bool) | Unpublish | Stat | Unlink (id : FileIdentity) | Forget.
(** The rows to remove, the current one first. *)
Record rm_job := mkRemoval { rm_rows : list AudioProjection; rm_at : rm_pc }.

Record world := mkWorld {
  reg : registry;
  fs : files;
  ns : AudioNamespace;
  adds : gmap string add_job;
  removals : gmap nat rm_job;
  up : bool
}.
Definition on_reg (r : registry) (w : world) : world := mkWorld r (fs w) (ns w) (adds w) (removals w) (up w).
Definition on_fs (f : files) (w : world) : world := mkWorld (reg w) f (ns w) (adds w) (removals w) (up w).
Definition on_ns (n : AudioNamespace) (w : world) : world := mkWorld (reg w) (fs w) n (adds w) (removals w) (up w).
Definition on_add (txn : string) (j : add_job) (w : world) : world := mkWorld (reg w) (fs w) (ns w) (<[txn := j]> (adds w)) (removals w) (up w).
Definition end_add (txn : string) (w : world) : world := mkWorld (reg w) (fs w) (ns w) (delete txn (adds w)) (removals w) (up w).
Definition on_rm (i : nat) (j : rm_job) (w : world) : world := mkWorld (reg w) (fs w) (ns w) (adds w) (<[i := j]> (removals w)) (up w).
Definition end_rm (i : nat) (w : world) : world := mkWorld (reg w) (fs w) (ns w) (adds w) (delete i (removals w)) (up w).

(** What the namespace keeps of a row. *)
Definition projection_of (r : AudioProjection) : NsProjection :=
  mkNs (row_section r) (VirtualPath r) (row_hash r) (row_index r) (row_size r) (MtimeNS r) (UpdatedAtNS r)
    (ExternalID r) (ExternalIDNamespace r) (row_track r) (ByteOffset r) (row_header r).

(** A path without hidden components, and a staging name of the transaction. *)
Definition open_path (p : string) : Prop := Forall (λ c, HasPrefix_char "." c = false) (split_char "/" p).
Definition row_shaped (txn : string) (r : AudioProjection) : Prop :=
  open_path (VirtualPath r) ∧ ∃ i, StagingName r = staging_name txn i.

Section transactions.
Context (stub_bytes : string → Z → Z → string → string → string → Z → Z → list Byte.byte).
Context (stub_agrees : list Byte.byte → AudioProjection → bool).

Definition stub (r : AudioProjection) : list Byte.byte :=
  stub_bytes (row_hash r) (row_index r) (row_size r) (row_magnet r) (ExternalID r) (ExternalIDNamespace r) (row_track r) (ByteOffset r).

(** ** Recovery at boot *)

(** [RemoveStaged]: a name that is not there is no error; [ok] says which removals work. *)
Definition RemoveStaged (ok : AudioPath → bool) (p : AudioPath) (fs : files) : option files :=
  if ok p then Some (delete p fs) else None.

(** The names of the rows of a transaction, up to the first failure. *)
Fixpoint remove_names (ok : AudioPath → bool) (rows : list AudioProjection) (fs : files) : files * bool :=
  match rows with
  | [] => (fs, true)
  | r :: rows =>
      match RemoveStaged ok (row_path r) fs with
      | None => (fs, false)
      | Some fs1 =>
          match (if String.eqb (StagingName r) "" then Some fs1 else RemoveStaged ok (stage_path r) fs1) with
          | None => (fs1, false)
          | Some fs2 => remove_names ok rows fs2
          end
      end
  end.

Definition recoverStagedTransaction (ok : AudioPath → bool) (txn : string) (rows : list AudioProjection) (s : registry * files) : registry * files :=
  let '(f, done) := remove_names ok rows s.2 in
  (if done then RollbackAudioProjections txn s.1 else s.1, f).

(** The transactions that left rows, in the order of their rows. *)
Definition staged_rows (r : registry) : list AudioProjection :=
  filter (λ x, TxnID x ≠ "") (AudioProjectionsByState r AudioStaged).
Definition transactions (r : registry) : list string := remove_dups (TxnID <$> staged_rows r).

Definition RecoverStagedAudioTransactions (ok : AudioPath → bool) (s : registry * files) : registry * files :=
  foldl (λ s' txn, recoverStagedTransaction ok txn (filter (λ x, TxnID x = txn) (staged_rows s.1)) s') s (transactions s.1).

Definition recover_removing (ok : AudioPath → bool) (r : AudioProjection) (s : registry * files) : registry * files :=
  match RemoveStaged ok (row_path r) s.2 with
  | Some f => (DeleteAudioProjection (row_section r) (VirtualPath r) s.1, f)
  | None => s
  end.
Definition RecoverRemovingAudioProjections (ok : AudioPath → bool) (s : registry * files) : registry * files :=
  foldl (λ s' r, recover_removing ok r s') s (AudioProjectionsByState s.1 AudioRemoving).

(** [reconcileAudio] publishes the committed rows whose stub is there and agrees. *)
Definition healthy (f : files) (r : AudioProjection) : bool :=
  match f !! row_path r with Some o => stub_agrees (fo_data o) r | None => false end.
Definition reconciled (r : registry) (f : files) : list NsProjection :=
  projection_of <$> filter (λ x, healthy f x = true)
    (CommittedAudioProjections r "music" ++ CommittedAudioProjections r "audiobooks")%list.

Definition boot (ok : AudioPath → bool) (w : world) : world :=
  let s := RecoverRemovingAudioProjections ok (RecoverStagedAudioTransactions ok (reg w, fs w)) in
  mkWorld s.1 s.2 (PublishMerged (reconciled s.1 s.2) (ns w)) (adds w) (removals w) true.

(** ** Steps *)

(** Nobody else removes the path, and no add is about to publish it. *)
Definition quiet (w : world) (p : AudioPath) : Prop :=
  (∀ i j, removals w !! i = Some j → p ∉ (row_path <$> rm_rows j)) ∧
  (∀ t j, adds w !! t = Some j → aj_pc j = Announcing → p ∉ (row_path <$> aj_rows j)).

Inductive label := Add (txn : string) | Removal (i : nat) | Outside | Crash | Boot.

(** [AddAudio], from the staging of its rows on. *)
Inductive add_step : string → world → world → Prop :=
  | T_stage txn rows now reg' w :
      adds w !! txn = None → (∀ p r, reg w !! p = Some r → TxnID r ≠ txn) →
      (∀ p o, fs w !! p = Some o → fo_owner o ≠ Some txn) → txn ≠ "" → rows ≠ [] → Forall (row_shaped txn) rows →
      StageAudioProjections txn rows (reg w) = inr reg' →
      add_step txn w (on_add txn (mkAdd rows [] Writing now) (on_reg reg' w))
  | T_create txn j r id w :
      adds w !! txn = Some j → aj_pc j = Writing → aj_rows j !! length (aj_objects j) = Some r →
      fs w !! stage_path r = None → id_free id (fs w) →
      add_step txn w (on_add txn (at_pc (Created id) j) (on_fs (<[stage_path r := mkObj id [] (Some txn)]> (fs w)) w))
  | T_create_fail txn j w :
      adds w !! txn = Some j → aj_pc j = Writing → add_step txn w (on_add txn (at_pc (Unwinding 0 false) j) w)
  | T_write txn j r id w :
      adds w !! txn = Some j → aj_pc j = Created id → aj_rows j !! length (aj_objects j) = Some r →
      add_step txn w (on_add txn (with_objects (aj_objects j ++ [(stage_path r, id)])%list Writing j)
        (on_fs (<[stage_path r := mkObj id (stub r) (Some txn)]> (fs w)) w))
  | T_write_fail txn j r id w :
      adds w !! txn = Some j → aj_pc j = Created id → aj_rows j !! length (aj_objects j) = Some r →
      add_step txn w (on_add txn (at_pc (Unwinding 0 false) j) (on_fs (delete (stage_path r) (fs w)) w))
  | T_written txn j w :
      adds w !! txn = Some j → aj_pc j = Writing → length (aj_objects j) = length (aj_rows j) →
      add_step txn w (on_add txn (at_pc (Publishing 0) j) w)
  | T_publish txn j k r rel id fs' w :
      adds w !! txn = Some j → aj_pc j = Publishing k → aj_rows j !! k = Some r → aj_objects j !! k = Some (rel, id) →
      rename_noreplace rel (row_path r) (fs w) = Some fs' →
      add_step txn w (on_add txn (with_objects (<[k := (row_path r, id)]> (aj_objects j)) (Publishing (S k)) j) (on_fs fs' w))
  | T_publish_fail txn j k w :
      adds w !! txn = Some j → aj_pc j = Publishing k → add_step txn w (on_add txn (at_pc (Unwinding 0 false) j) w)
  | T_publish_sync txn j k r rel id fs' w :
      adds w !! txn = Some j → aj_pc j = Publishing k → aj_rows j !! k = Some r → aj_objects j !! k = Some (rel, id) →
      rename_noreplace rel (row_path r) (fs w) = Some fs' →
      add_step txn w (on_add txn (at_pc (Unwinding 0 false) j) (on_fs fs' w))
  | T_published txn j w :
      adds w !! txn = Some j → aj_pc j = Publishing (length (aj_rows j)) → add_step txn w (on_add txn (at_pc Committing j) w)
  | T_commit txn j w :
      adds w !! txn = Some j → aj_pc j = Committing → (CommitAudioProjections txn (aj_now j) (reg w)).2 = len (aj_rows j) →
      add_step txn w (on_add txn (at_pc Announcing j) (on_reg (CommitAudioProjections txn (aj_now j) (reg w)).1 w))
  | T_commit_short txn j w :
      adds w !! txn = Some j → aj_pc j = Committing → (CommitAudioProjections txn (aj_now j) (reg w)).2 ≠ len (aj_rows j) →
      add_step txn w (on_add txn (at_pc (Unwinding 0 false) j) (on_reg (CommitAudioProjections txn (aj_now j) (reg w)).1 w))
  | T_commit_fail txn j w :
      adds w !! txn = Some j → aj_pc j = Committing → add_step txn w (on_add txn (at_pc (Unwinding 0 false) j) w)
  | T_announce txn j w :
      adds w !! txn = Some j → aj_pc j = Announcing →
      add_step txn w (end_add txn (on_ns (AddProjections (projection_of <$> aj_rows j) (ns w)) w))
  | T_unwind txn j k failed rel id w :
      adds w !! txn = Some j → aj_pc j = Unwinding k failed → aj_objects j !! k = Some (rel, id) →
      add_step txn w (on_add txn (at_pc (Unwinding (S k) (failed || negb (RemoveStagedIfIdentity rel id (fs w)).2)) j)
        (on_fs (RemoveStagedIfIdentity rel id (fs w)).1 w))
  | T_unwind_error txn j k failed w :
      adds w !! txn = Some j → aj_pc j = Unwinding k failed → (k < length (aj_objects j))%nat →
      add_step txn w (on_add txn (at_pc (Unwinding (S k) true) j) w)
  | T_unwound txn j w :
      adds w !! txn = Some j → aj_pc j = Unwinding (length (aj_objects j)) false →
      add_step txn w (end_add txn (on_reg (RollbackAudioProjections txn (reg w)) w))
  | T_unwound_fail txn j k failed w :
      adds w !! txn = Some j → aj_pc j = Unwinding k failed → k = length (aj_objects j) → add_step txn w (end_add txn w).

(** [RemoveAudio] and [RemoveAudioPrefix]. *)
Inductive removal_step : nat → world → world → Prop :=
  | R_read i p r w :
      removals w !! i = None → reg w !! p = Some r → State r ≠ AudioStaged →
      removal_step i w (on_rm i (mkRemoval [r] (if bool_decide (State r = AudioCommitted) then Claim false else Unpublish)) w)
  | R_read_prefix i sec pfx w :
      removals w !! i = None → AudioProjectionsByPrefix (reg w) sec pfx ≠ [] →
      (∀ r s, r ∈ AudioProjectionsByPrefix (reg w) sec pfx → s ∈ AudioProjectionsByPrefix (reg w) sec pfx → row_hash r = row_hash s) →
      removal_step i w (on_rm i (mkRemoval (AudioProjectionsByPrefix (reg w) sec pfx) (Claim true)) w)
  | R_claim i r now w :
      removals w !! i = Some (mkRemoval [r] (Claim false)) → (MarkAudioProjectionRemoving (row_section r) (VirtualPath r) now (reg w)).2 = true →
      removal_step i w (on_rm i (mkRemoval [r] Unpublish)
        (on_reg (MarkAudioProjectionRemoving (row_section r) (VirtualPath r) now (reg w)).1 w))
  | R_claim_prefix i rows r now w :
      removals w !! i = Some (mkRemoval rows (Claim true)) → head rows = Some r →
      removal_step i w (on_rm i (mkRemoval rows Unpublish)
        (on_reg (MarkAudioProjectionsRemovingPaths (row_section r) (VirtualPath <$> rows) now (reg w)) w))
  | R_unpublish i r rows w :
      removals w !! i = Some (mkRemoval (r :: rows) Unpublish) →
      removal_step i w (on_rm i (mkRemoval (r :: rows) Stat) (on_ns (Ns_Remove (row_path r) (ns w)) w))
  | R_stat i r rows o w :
      removals w !! i = Some (mkRemoval (r :: rows) Stat) → fs w !! row_path r = Some o →
      removal_step i w (on_rm i (mkRemoval (r :: rows) (Unlink (fo_id o))) w)
  | R_gone i r rows w :
      removals w !! i = Some (mkRemoval (r :: rows) Stat) → fs w !! row_path r = None →
      removal_step i w (on_rm i (mkRemoval (r :: rows) Forget) w)
  | R_unlink i r rows id w :
      removals w !! i = Some (mkRemoval (r :: rows) (Unlink id)) →
      removal_step i w (on_rm i (mkRemoval (r :: rows) Forget) (on_fs (RemoveStagedIfIdentity (row_path r) id (fs w)).1 w))
  | R_forget i r rows w :
      removals w !! i = Some (mkRemoval (r :: rows) Forget) →
      removal_step i w (on_rm i (mkRemoval rows Unpublish) (on_reg (DeleteAudioProjection (row_section r) (VirtualPath r) (reg w)) w))
  (* the end, a claim that is lost, or a failure *)
  | R_end i j w : removals w !! i = Some j → removal_step i w (end_rm i w).

Inductive step : label → world → world → Prop :=
  | S_add txn w w' : add_step txn w w' → step (Add txn) w w'
  | S_removal i w w' : removal_step i w w' → step (Removal i) w w'
  (* everybody else *)
  | E_put p o w : fs w !! p = None → id_free (fo_id o) (fs w) → fo_owner o = None → step Outside w (on_fs (<[p := o]> (fs w)) w)
  | E_drop p o w : fs w !! p = Some o → fo_owner o = None → step Outside w (on_fs (delete p (fs w)) w)
  | E_crash w : step Crash w (mkWorld (reg w) (fs w) NewAudioNamespace ∅ ∅ false)
  | E_boot ok w : step Boot w (boot ok w).

(** Recovery is done before requests are taken, and a removal starts on quiet paths. *)
Definition calm (l : label) (w w' : world) : Prop :=
  match l with
  | Boot => up w = false
  | Add t => adds w !! t = None → up w = true
  | Removal i => removals w !! i = None → up w = true ∧ ∀ j p, removals w' !! i = Some j → p ∈ (row_path <$> rm_rows j) → quiet w p
  | _ => True
  end.
Definition steps (w w' : world) : Prop := ∃ l, step l w w' ∧ calm l w w'.

(** An audio root with files of others, and an empty registry. *)
Definition start (f : files) : world := mkWorld ∅ f NewAudioNamespace ∅ ∅ false.
Definition foreign_files (f : files) : Prop :=
  (∀ p o, f !! p = Some o → fo_owner o = None) ∧
  (∀ p q o o', f !! p = Some o → f !! q = Some o' → fo_id o = fo_id o' → p = q).
End transactions.
