(* ===== verification/TxnInv.v ===== *)
(** * The invariant of the audio transactions

    What holds between the registry, the files, the namespace and the requests in
    progress ([inv]), frame lemmas for the steps of one request, and the preservation
    of the invariant by every step of AudioTxn.v. *)

From Stdlib Require Import Ascii String.
From S2P Require Import Prelude GoFloat GoStrings Flac Cue CueSplit Paths Sources AudioRegistry AudioNamespace AudioTxn.
Local Open Scope string_scope.
Local Open Scope Z_scope.

(** ** Names *)

Lemma dir_part_spec s : dir_part s = "" ∨ ∃ d, dir_part s = d +:+ "/".
Proof.
  induction s as [|c s IH]; [by left|]. cbn [dir_part]. destruct (has_char "/" (String c s)) eqn:E; [|by left]. right.
  destruct IH as [IH|[d IH]]; rewrite IH.
  - exists "". simpl in E. destruct (Ascii.eqb_spec c "/") as [->|_]; [done|]. simpl in E. exfalso.
    destruct s as [|e s]; [done|]. cbn [dir_part] in IH. by rewrite E in IH.
  - by exists (String c d).
Qed.

(** A staging name is hidden: no accepted path is one. *)
Lemma staging_hidden txn r : row_shaped txn r → ¬ open_path (stagingRelPath r).
Proof.
  intros [_ [i Hi]] Ho. unfold stagingRelPath in Ho. rewrite Hi in Ho. unfold open_path in Ho.
  assert (Hh : ¬ Forall (λ c, HasPrefix_char "." c = false) (split_char "/" (staging_name txn i))).
  { unfold staging_name. change (".tiramisu-" +:+ ?x) with (String "." ("tiramisu-" +:+ x)). cbn [split_char].
    change (Ascii.eqb "." "/") with false. cbv iota.
    match goal with |- context [split_char "/" ?x] => destruct (split_char "/" x) end; intros H; apply Forall_inv in H; discriminate H. }
  destruct (dir_part_spec (VirtualPath r)) as [E|[d E]]; rewrite E in Ho; [done|].
  rewrite append_assoc in Ho. change ("/" +:+ ?x) with (String "/" x) in Ho. rewrite split_app in Ho.
  apply list.Forall_app in Ho as [_ Ho]. done.
Qed.

(** A query finds a path once. *)
Lemma rows_where_paths P r0 : reg_ok r0 → NoDup (row_path <$> rows_where P r0).
Proof.
  intros Hok. unfold rows_by. rewrite (insertion_sort_perm row_less). eapply sublist_NoDup; [|apply fmap_sublist, sublist_filter].
  replace (row_path <$> (map_to_list r0).*2) with ((map_to_list r0).*1); [apply NoDup_fst_map_to_list|].
  rewrite <-list_fmap_compose. apply list_fmap_ext. intros i [k r] Hi. simpl. apply (ro_path _ Hok).
  apply elem_of_map_to_list. by eapply list_elem_of_lookup_2.
Qed.

(** ** The invariant *)

Section invariant.
Context (stub_bytes : string → Z → Z → string → string → string → Z → Z → list Byte.byte).
Context (stub_agrees : list Byte.byte → AudioProjection → bool).
Local Abbreviation stub' := (stub stub_bytes).

Definition published (j : add_job) : nat :=
  match aj_pc j with Publishing k => k | Committing => length (aj_rows j) | _ => 0 end.
Definition forward (pc : add_pc) : bool := match pc with Announcing | Unwinding _ _ => false | _ => true end.

(** The objects an add still has to answer for. *)
Definition held (j : add_job) (id : FileIdentity) : Prop :=
  match aj_pc j with
  | Announcing => True
  | Unwinding k failed => failed = true ∨ id ∈ (drop k (aj_objects j)).*2
  | Created id' => id = id' ∨ id ∈ (aj_objects j).*2
  | _ => id ∈ (aj_objects j).*2
  end.

Record job_inv (r0 : registry) (f : files) (t : string) (j : add_job) : Prop := {
  ji_rows : NoDup (row_path <$> aj_rows j);
  ji_reg r : r ∈ aj_rows j → r0 !! row_path r =
    Some (match aj_pc j with Announcing => with_state AudioCommitted (aj_now j) (staged_by t r) | _ => staged_by t r end);
  ji_only p r : r0 !! p = Some r → TxnID r = t → ∃ r', r' ∈ aj_rows j ∧ p = row_path r';
  ji_length : (length (aj_objects j) ≤ length (aj_rows j))%nat ∧
    match aj_pc j with Publishing _ | Committing => length (aj_objects j) = length (aj_rows j) | _ => True end;
  ji_objects i rel id r : forward (aj_pc j) = true → aj_objects j !! i = Some (rel, id) → aj_rows j !! i = Some r →
    rel = (if (i <? published j)%nat then row_path r else stage_path r) ∧ f !! rel = Some (mkObj id (stub' r) (Some t));
  ji_created id : aj_pc j = Created id → ∃ r d, aj_rows j !! length (aj_objects j) = Some r ∧ f !! stage_path r = Some (mkObj id d (Some t));
  ji_ids : NoDup (aj_objects j).*2 ∧ (∀ id, aj_pc j = Created id → id ∉ (aj_objects j).*2);
  ji_files p o : f !! p = Some o → fo_owner o = Some t → held j (fo_id o);
  ji_live k failed i rel id : aj_pc j = Unwinding k failed → (k ≤ i)%nat → aj_objects j !! i = Some (rel, id) → ∃ p d, f !! p = Some (mkObj id d (Some t))
}.

Record rm_inv (r0 : registry) (f : files) (e : gmap AudioPath NsProjection) (j : rm_job) : Prop := {
  ri_rows : NoDup (row_path <$> rm_rows j);
  ri_section r s : r ∈ rm_rows j → s ∈ rm_rows j → row_section r = row_section s;
  ri_reg r : r ∈ rm_rows j → ∃ r', r0 !! row_path r = Some r' ∧
    match rm_at j with Claim _ => State r' ≠ AudioStaged | _ => State r' = AudioRemoving end;
  ri_silent r : head (rm_rows j) = Some r → match rm_at j with Claim _ | Unpublish => True | _ => e !! row_path r = None end;
  ri_file r o : head (rm_rows j) = Some r → f !! row_path r = Some o → is_Some (fo_owner o) →
    match rm_at j with Unlink id => fo_id o = id | Forget => False | _ => True end
}.

Definition accounted (r0 : registry) (t : string) (p : AudioPath) : Prop :=
  ∃ k r, r0 !! k = Some r ∧ TxnID r = t ∧ (p = k ∨ p = stage_path r ∧ State r = AudioStaged).
Definition ids_unique (f : files) : Prop := ∀ p q o o', f !! p = Some o → f !! q = Some o' → fo_id o = fo_id o' → p = q.
Definition has_stub (f : files) (p : AudioPath) (r : AudioProjection) : Prop := ∃ id, f !! p = Some (mkObj id (stub' r) (Some (TxnID r))).

Record inv (w : world) : Prop := {
  wi_reg : reg_ok (reg w);
  wi_shape p r : reg w !! p = Some r → row_shaped (TxnID r) r ∧ TxnID r ≠ "";
  wi_ids : ids_unique (fs w);
  wi_committed p r : reg w !! p = Some r → State r = AudioCommitted → has_stub (fs w) p r;
  wi_owned p o t : fs w !! p = Some o → fo_owner o = Some t → accounted (reg w) t p;
  wi_names p x : entries (ns w) !! p = Some x → ∃ r, reg w !! p = Some r ∧ State r ≠ AudioStaged;
  wi_adds t j : adds w !! t = Some j → job_inv (reg w) (fs w) t j;
  wi_removals i j : removals w !! i = Some j → rm_inv (reg w) (fs w) (entries (ns w)) j;
  wi_disjoint i i' j j' r : removals w !! i = Some j → removals w !! i' = Some j' → r ∈ (row_path <$> rm_rows j) → r ∈ (row_path <$> rm_rows j') → i = i';
  wi_quiet i jr t j p : removals w !! i = Some jr → adds w !! t = Some j → aj_pc j = Announcing →
    p ∈ (row_path <$> rm_rows jr) → p ∉ (row_path <$> aj_rows j);
  wi_down : up w = false → adds w = ∅ ∧ removals w = ∅ ∧ ns w = NewAudioNamespace
}.

(** ** Frames *)

(** The same but for what belongs to a transaction. *)
Definition same_rows (t : string) (a b : registry) : Prop := ∀ p r, TxnID r ≠ t → a !! p = Some r ↔ b !! p = Some r.
Definition same_files (t : string) (a b : files) : Prop := ∀ p o, fo_owner o ≠ Some t → a !! p = Some o ↔ b !! p = Some o.

Lemma job_frame (t : string) (j : add_job) (r0 r1 : registry) (f0 f1 : files) :
  job_inv r0 f0 t j → (∀ p r, TxnID r = t → r0 !! p = Some r ↔ r1 !! p = Some r) →
  (∀ p o, fo_owner o = Some t → f0 !! p = Some o ↔ f1 !! p = Some o) → job_inv r1 f1 t j.
Proof.
  intros [H1 H2 H3 H4 H5 H6 Hnd H7 H8] Hr Hf. split.
  - done.
  - intros r Hin. apply Hr; [by destruct (aj_pc j)|by apply H2].
  - intros p r Hp Ht. apply (H3 p r); [by apply Hr|done].
  - done.
  - intros i rel id r Hfw Ho Hi. destruct (H5 i rel id r Hfw Ho Hi) as [E Hl]. split; [done|]. by apply Hf.
  - intros id Hpc. destruct (H6 id Hpc) as (r & d & Hi & Hl). exists r, d. split; [done|]. by apply Hf.
  - done.
  - intros p o Hp Ho. apply (H7 p o); [by apply Hf|done].
  - intros k failed i rel id Hpc Hk Hi. destruct (H8 k failed i rel id Hpc Hk Hi) as (p & d & Hp). exists p, d. by apply Hf.
Qed.

Lemma job_not_removing r0 f t j p r : job_inv r0 f t j → r0 !! p = Some r → TxnID r = t → State r ≠ AudioRemoving.
Proof.
  intros Hj Hp Ht. destruct (ji_only _ _ _ _ Hj p r Hp Ht) as (r' & Hin & ->). rewrite (ji_reg _ _ _ _ Hj r' Hin) in Hp.
  injection Hp as <-. by destruct (aj_pc j).
Qed.

(** The rows of an add in progress are not being removed. *)
Lemma job_free w t j i jr p r :
  inv w → adds w !! t = Some j → removals w !! i = Some jr → p ∈ (row_path <$> rm_rows jr) → reg w !! p = Some r → TxnID r ≠ t.
Proof.
  intros Hw Hj Hi Hp Hr Ht. pose proof (wi_adds _ Hw t j Hj) as Hji.
  destruct (ji_only _ _ _ _ Hji p r Hr Ht) as (r' & Hin & E). pose proof (ji_reg _ _ _ _ Hji r' Hin) as Hreg. rewrite <-E, Hr in Hreg.
  assert (Hst : State r ≠ AudioStaged).
  { apply list_elem_of_fmap in Hp as (s & -> & Hs). destruct (ri_reg _ _ _ _ (wi_removals _ Hw i jr Hi) s Hs) as (r2 & E2 & H2).
    rewrite Hr in E2. injection E2 as <-. destruct (rm_at jr); [done|..]; by rewrite H2. }
  injection Hreg as ->. destruct (aj_pc j) eqn:Epc; try done.
  apply (wi_quiet _ Hw i jr t j p Hi Hj Epc Hp). rewrite E. apply list_elem_of_fmap. by exists r'.
Qed.

Lemma rm_frame (r0 r1 : registry) (f0 f1 : files) (e0 e1 : gmap AudioPath NsProjection) (j : rm_job) :
  rm_inv r0 f0 e0 j →
  (∀ r, r ∈ rm_rows j → r0 !! row_path r = r1 !! row_path r) →
  (∀ r, r ∈ rm_rows j → e0 !! row_path r = None → e1 !! row_path r = None) →
  (∀ r o, r ∈ rm_rows j → f1 !! row_path r = Some o → is_Some (fo_owner o) → f0 !! row_path r = Some o) →
  rm_inv r1 f1 e1 j.
Proof.
  intros [H1 H2 H3 H4 H5] Hr He Hf. assert (Hhd : ∀ r, head (rm_rows j) = Some r → r ∈ rm_rows j).
  { intros r. destruct (rm_rows j); [done|]. intros [= ->]. left. }
  split; [done|done| | |].
  - intros r Hin. rewrite <-Hr by done. by apply H3.
  - intros r Hh. specialize (H4 r Hh). destruct (rm_at j); auto.
  - intros r o Hh Ho Hs. apply (H5 r o); auto.
Qed.

Lemma add_frame w w' t :
  inv w → up w' = true → removals w' = removals w →
  (∀ i jr p r, removals w !! i = Some jr → p ∈ (row_path <$> rm_rows jr) → reg w !! p = Some r → TxnID r ≠ t) →
  reg_ok (reg w') → (∀ p r, reg w' !! p = Some r → TxnID r = t → row_shaped t r ∧ t ≠ "") →
  same_rows t (reg w) (reg w') → same_files t (fs w) (fs w') → ids_unique (fs w') →
  (∀ p r, reg w' !! p = Some r → TxnID r = t → State r = AudioCommitted → has_stub (fs w') p r) →
  (∀ p o, fs w' !! p = Some o → fo_owner o = Some t → accounted (reg w') t p) →
  (∀ p x, entries (ns w') !! p = Some x → is_Some (entries (ns w) !! p) ∨ ∃ r, reg w' !! p = Some r ∧ TxnID r = t ∧ State r ≠ AudioStaged) →
  (∀ p r, reg w !! p = Some r → TxnID r = t → State r ≠ AudioStaged → ∃ r', reg w' !! p = Some r' ∧ State r' ≠ AudioStaged) →
  (∀ t' j', t' ≠ t → adds w' !! t' = Some j' → adds w !! t' = Some j') →
  (∀ j, adds w' !! t = Some j → job_inv (reg w') (fs w') t j) →
  (∀ j, adds w' !! t = Some j → aj_pc j = Announcing → ∀ r, r ∈ aj_rows j → ∃ r', reg w !! row_path r = Some r' ∧ TxnID r' = t) →
  inv w'.
Proof.
  intros Hw Hup Hrm Hfree Hok Hshape Hrows Hfiles Hids Hstub Hown Hnames Hkeep Hother Hjob Hann.
  assert (Hrmrow : ∀ i jr r, removals w !! i = Some jr → r ∈ rm_rows jr →
    ∃ r', reg w !! row_path r = Some r' ∧ reg w' !! row_path r = Some r' ∧ TxnID r' ≠ t).
  { intros i jr r Hi Hr. destruct (ri_reg _ _ _ _ (wi_removals _ Hw i jr Hi) r Hr) as (r' & E & _).
    assert (Ht : TxnID r' ≠ t) by (eapply Hfree; [done|apply list_elem_of_fmap; by exists r|done]).
    exists r'. split_and!; [done|by apply Hrows|done]. }
  split.
  - done.
  - intros p r Hp. destruct (decide (TxnID r = t)) as [<-|Ht]; [by eapply Hshape|]. apply (wi_shape _ Hw p). by apply Hrows.
  - done.
  - intros p r Hp Hc. destruct (decide (TxnID r = t)) as [Ht|Ht]; [by apply Hstub|].
    destruct (wi_committed _ Hw p r) as [id Hid]; [by apply Hrows|done|]. exists id. apply Hfiles; [simpl; congruence|done].
  - intros p o t' Ho Hot. destruct (decide (t' = t)) as [->|Ht]; [by eapply Hown|].
    destruct (wi_owned _ Hw p o t') as (k & r & Hk & Htx & Hpos); [apply Hfiles; [congruence|done]|done|].
    exists k, r. split_and!; [apply Hrows; [congruence|done]|done|done].
  - intros p x Hx. destruct (Hnames p x Hx) as [[y Hy]|(r & Hr & _ & Hs)]; [|eauto].
    destruct (wi_names _ Hw p y Hy) as (r & Hr & Hs). destruct (decide (TxnID r = t)) as [Ht|Ht]; [by eapply Hkeep|].
    exists r. split; [by apply Hrows|done].
  - intros t' j' Hj. destruct (decide (t' = t)) as [->|Ht]; [by apply Hjob|].
    apply (job_frame t' j' (reg w) _ (fs w)); [by apply (wi_adds _ Hw), Hother| |].
    + intros p r Htx. apply Hrows. congruence.
    + intros p o Ho. apply Hfiles. congruence.
  - rewrite Hrm. intros i jr Hi. apply (rm_frame (reg w) _ (fs w) _ (entries (ns w))); [by apply (wi_removals _ Hw i)| | |].
    + intros r Hr. destruct (Hrmrow i jr r Hi Hr) as (r' & -> & -> & _). done.
    + intros r Hr He. destruct (entries (ns w') !! row_path r) as [x|] eqn:Ex; [exfalso|done].
      destruct (Hnames _ _ Ex) as [[y Hy]|(r2 & E2 & Ht & _)]; [congruence|].
      destruct (Hrmrow i jr r Hi Hr) as (r' & _ & E3 & Hne). congruence.
    + intros r o Hr Ho [t' Ht']. destruct (decide (t' = t)) as [->|Hne]; [exfalso|apply Hfiles; [congruence|done]].
      destruct (Hown _ _ Ho Ht') as (k & r2 & Hk & Htx & Hpos). destruct (Hrmrow i jr r Hi Hr) as (r' & E1 & E3 & Hne).
      destruct Hpos as [Ek|[E _]]; [congruence|]. destruct (Hshape k r2 Hk Htx) as [Hsh _].
      apply (staging_hidden t r2 Hsh). destruct (wi_shape _ Hw _ _ E1) as [[Hop _] _].
      pose proof (ro_path _ (wi_reg _ Hw) _ _ E1) as Ep. rewrite E in Ep. unfold stage_path, row_path in Ep. injection Ep as _ ->. done.
  - rewrite Hrm. apply (wi_disjoint _ Hw).
  - rewrite Hrm. intros i jr t' j p Hi Hj Hpc Hp Hin. destruct (decide (t' = t)) as [->|Hne].
    + apply list_elem_of_fmap in Hin as (r & -> & Hr). destruct (Hann j Hj Hpc r Hr) as (r' & E & Ht). by eapply Hfree.
    + eapply (wi_quiet _ Hw i jr t' j p); [done|by apply Hother|done|done|done].
  - congruence.
Qed.
End invariant.

(** ** Files of one transaction *)

Lemma same_files_insert (t : string) (f : files) (p : AudioPath) (o : file_obj) :
  fo_owner o = Some t → (∀ o', f !! p = Some o' → fo_owner o' = Some t) → same_files t f (<[p := o]> f).
Proof.
  intros Ho Hp q x Hx. destruct (decide (p = q)) as [<-|Hne]; [|by rewrite lookup_insert_ne].
  rewrite lookup_insert_eq. split; [intros E; by rewrite (Hp x E) in Hx|by intros [= ->]].
Qed.

Lemma same_files_delete (t : string) (f : files) (p : AudioPath) :
  (∀ o', f !! p = Some o' → fo_owner o' = Some t) → same_files t f (delete p f).
Proof.
  intros Hp q x Hx. destruct (decide (p = q)) as [<-|Hne]; [|by rewrite lookup_delete_ne].
  rewrite lookup_delete_eq. split; [intros E; by rewrite (Hp x E) in Hx|done].
Qed.

Lemma same_files_trans (t : string) (f g h : files) : same_files t f g → same_files t g h → same_files t f h.
Proof. intros H1 H2 p o Ho. rewrite (H1 p o Ho). by apply H2. Qed.

Lemma ids_insert (f : files) (p : AudioPath) (o : file_obj) : ids_unique f → (∀ q x, q ≠ p → f !! q = Some x → fo_id x ≠ fo_id o) → ids_unique (<[p := o]> f).
Proof.
  intros Hu Hid a b x y [[<- <-]|[Ha Hx]]%lookup_insert_Some [[<- <-]|[Hb Hy]]%lookup_insert_Some E.
  - done.
  - destruct (Hid b y); congruence.
  - destruct (Hid a x); congruence.
  - by eapply Hu.
Qed.

Lemma ids_delete (f : files) (p : AudioPath) : ids_unique f → ids_unique (delete p f).
Proof. intros Hu a b x y [_ Ha]%lookup_delete_Some [_ Hb]%lookup_delete_Some. by apply Hu. Qed.

Section creating.
Context (stub_bytes : string → Z → Z → string → string → string → Z → Z → list Byte.byte).
Local Abbreviation stub' := (stub stub_bytes).
Local Abbreviation inv' := (inv stub_bytes).
Local Abbreviation job_inv' := (job_inv stub_bytes).

Lemma add_up w t j : inv' w → adds w !! t = Some j → up w = true.
Proof. intros Hw Hj. destruct (up w) eqn:E; [done|]. destruct (wi_down _ _ Hw E) as [Ha _]. by rewrite Ha, lookup_empty in Hj. Qed.

(** Before the commit every row of the transaction is staged. *)
Lemma job_staged r0 f t j p r : job_inv' r0 f t j → aj_pc j ≠ Announcing → r0 !! p = Some r → TxnID r = t → State r = AudioStaged.
Proof.
  intros Hj Hpc Hp Ht. destruct (ji_only _ _ _ _ _ Hj p r Hp Ht) as (r' & Hin & ->). rewrite (ji_reg _ _ _ _ _ Hj r' Hin) in Hp.
  injection Hp as <-. by destruct (aj_pc j).
Qed.

(** A step on the files of an add. *)
Lemma fs_step w t j j' f :
  inv' w → adds w !! t = Some j → aj_pc j ≠ Announcing → aj_pc j' ≠ Announcing →
  same_files t (fs w) f → ids_unique f → (∀ p o, f !! p = Some o → fo_owner o = Some t → accounted (reg w) t p) →
  job_inv' (reg w) f t j' → inv' (on_add t j' (on_fs f w)).
Proof.
  intros Hw Hj Hpc Hpc' Hsame Hids Hown Hji. pose proof (wi_adds _ _ Hw t j Hj) as Hj0.
  assert (Hstaged : ∀ p r, reg w !! p = Some r → TxnID r = t → State r = AudioStaged) by (intros; by eapply job_staged).
  apply (add_frame stub_bytes w _ t); simpl; try done.
  - by eapply add_up.
  - intros. by eapply job_free.
  - apply (wi_reg _ _ Hw).
  - intros p r Hp <-. by apply (wi_shape _ _ Hw p).
  - intros p r Hp Ht Hc. rewrite (Hstaged p r Hp Ht) in Hc. done.
  - intros p x Hx. left. by exists x.
  - intros p r Hp Ht. rewrite (Hstaged p r Hp Ht). done.
  - intros t' jx Hne Hx. by rewrite lookup_insert_ne in Hx.
  - intros jx. rewrite lookup_insert_eq. by intros [= <-].
  - intros jx. rewrite lookup_insert_eq. intros [= <-]. done.
Qed.

(** A step of its program counter. *)
Lemma pc_step w t j j' :
  inv' w → adds w !! t = Some j → aj_pc j ≠ Announcing → aj_pc j' ≠ Announcing →
  job_inv' (reg w) (fs w) t j' → inv' (on_add t j' w).
Proof.
  intros Hw Hj Hpc Hpc' Hji. change (on_add t j' w) with (on_add t j' (on_fs (fs w) w)).
  apply (fs_step w t j); try done; [apply (wi_ids _ _ Hw)|]. intros p o Hp Ho. by eapply wi_owned.
Qed.

Lemma object_file r0 f t j i rel id :
  job_inv' r0 f t j → forward (aj_pc j) = true → aj_objects j !! i = Some (rel, id) →
  ∃ r, aj_rows j !! i = Some r ∧ f !! rel = Some (mkObj id (stub' r) (Some t)).
Proof.
  intros Hj Hfw Hi. destruct (lookup_lt_is_Some_2 (aj_rows j) i) as [r Hr].
  { apply lookup_lt_Some in Hi. destruct (ji_length _ _ _ _ _ Hj) as [? _]. lia. }
  exists r. split; [done|]. by destruct (ji_objects _ _ _ _ _ Hj i rel id r Hfw Hi Hr).
Qed.

(** Turning to unwind keeps the rows and the objects. *)
Lemma job_unwind r0 f t j :
  job_inv' r0 f t j → aj_pc j ≠ Announcing → (∀ id, aj_pc j ≠ Created id) → forward (aj_pc j) = true →
  job_inv' r0 f t (at_pc (Unwinding 0 false) j).
Proof.
  intros Hj Hpc Hcr Hfw. pose proof (λ i rel id, object_file _ _ _ _ i rel id Hj Hfw) as Hobj.
  destruct Hj as [H1 H2 H3 H4 H5 H6 [Hnd _] H7 H8]. split; simpl; try done.
  - intros r Hr. rewrite (H2 r Hr). by destruct (aj_pc j).
  - split; [apply H4|done].
  - intros p o Hp Ho. specialize (H7 p o Hp Ho). unfold held in *. simpl. right. rewrite drop_0. destruct (aj_pc j); try done.
    by destruct (Hcr id).
  - intros k failed i rel id _ _ Hi. destruct (Hobj i rel id Hi) as (r & _ & Hl). eauto.
Qed.

Lemma job_row_reg r0 f t j i r :
  job_inv' r0 f t j → aj_pc j ≠ Announcing → aj_rows j !! i = Some r → r0 !! row_path r = Some (staged_by t r).
Proof. intros Hj Hpc Hi. rewrite (ji_reg _ _ _ _ _ Hj r) by (by eapply list_elem_of_lookup_2). by destruct (aj_pc j). Qed.

Lemma accounted_row r0 f t j i r p :
  job_inv' r0 f t j → aj_pc j ≠ Announcing → aj_rows j !! i = Some r → p = row_path r ∨ p = stage_path r → accounted r0 t p.
Proof.
  intros Hj Hpc Hi Hp. exists (row_path r), (staged_by t r). split_and!; [by eapply job_row_reg|done|].
  destruct Hp as [->| ->]; [by left|right; by split].
Qed.

Lemma T_create_inv w t j r id :
  inv' w → adds w !! t = Some j → aj_pc j = Writing → aj_rows j !! length (aj_objects j) = Some r →
  fs w !! stage_path r = None → id_free id (fs w) →
  inv' (on_add t (at_pc (Created id) j) (on_fs (<[stage_path r := mkObj id [] (Some t)]> (fs w)) w)).
Proof.
  intros Hw Hj Hpc Hr Hnone Hid. pose proof (wi_adds _ _ Hw t j Hj) as Hji. assert (Hna : aj_pc j ≠ Announcing) by (by rewrite Hpc).
  apply (fs_step w t j); try done.
  - apply same_files_insert; [done|]. intros o E. congruence.
  - apply ids_insert; [apply (wi_ids _ _ Hw)|]. intros q x _ Hx. by apply Hid in Hx.
  - intros p o [[<- <-]|[_ Hp]]%lookup_insert_Some Ho; [|by eapply wi_owned]. eapply accounted_row; eauto.
  - assert (Hobj := λ i rel id, object_file _ _ _ _ i rel id Hji). destruct Hji as [H1 H2 H3 H4 H5 H6 [Hnd _] H7 H8].
    destruct j as [rows objs pc now]; simpl in *; subst pc; simpl in *. split; simpl; try done.
    + intros i rel id' r' Hfw Ho Hi. destruct (H5 i rel id' r' eq_refl Ho Hi) as [E Hl]. split; [done|].
      rewrite lookup_insert_ne; [done|]. congruence.
    + intros id' [= <-]. exists r, []. split; [done|]. apply lookup_insert_eq.
    + split; [done|]. intros id' [= <-]. intros ([rel id'] & E & Ho)%list_elem_of_fmap. simpl in E. subst id'.
      apply list_elem_of_lookup_1 in Ho as [i Hi]. destruct (Hobj i rel id eq_refl Hi) as (r' & _ & Hl). by apply Hid in Hl.
    + intros p o [[<- <-]|[_ Hp]]%lookup_insert_Some Ho; unfold held; simpl; [by left|]. right. by apply (H7 p o).
Qed.

(** The file an add has created and not yet written. *)
Lemma created_facts w t j r id :
  inv' w → adds w !! t = Some j → aj_pc j = Created id → aj_rows j !! length (aj_objects j) = Some r →
  (∃ d, fs w !! stage_path r = Some (mkObj id d (Some t))) ∧
  (∀ i rel id' r', aj_objects j !! i = Some (rel, id') → aj_rows j !! i = Some r' → rel = stage_path r' ∧ rel ≠ stage_path r ∧
     fs w !! rel = Some (mkObj id' (stub' r') (Some t))) ∧
  ids_unique (fs w).
Proof.
  intros Hw Hj Hpc Hr. pose proof (wi_adds _ _ Hw t j Hj) as Hji. pose proof (wi_ids _ _ Hw) as Hids.
  destruct (ji_created _ _ _ _ _ Hji id Hpc) as (r0 & d & E & Hd). rewrite Hr in E. injection E as <-.
  split; [by exists d|]. split; [|done]. intros i rel id' r' Ho Hi.
  destruct (ji_objects _ _ _ _ _ Hji i rel id' r') as [E Hl]; [by rewrite Hpc|done|done|]. unfold published in E. rewrite Hpc in E.
  simpl in E. split_and!; try done. intros ->. rewrite Hd in Hl. injection Hl as <- _.
  destruct (ji_ids _ _ _ _ _ Hji) as [_ Hni]. apply (Hni id Hpc). apply list_elem_of_fmap. exists (stage_path r, id).
  split; [done|]. by eapply list_elem_of_lookup_2.
Qed.
End creating.

Section publishing_files.
Context (stub_bytes : string → Z → Z → string → string → string → Z → Z → list Byte.byte).
Local Abbreviation stub' := (stub stub_bytes).
Local Abbreviation inv' := (inv stub_bytes).
Local Abbreviation job_inv' := (job_inv stub_bytes).

(** The file names of an add before it turns to unwind: staging names and published paths. *)
Lemma T_write_inv w t j r id :
  inv' w → adds w !! t = Some j → aj_pc j = Created id → aj_rows j !! length (aj_objects j) = Some r →
  inv' (on_add t (with_objects (aj_objects j ++ [(stage_path r, id)])%list Writing j) (on_fs (<[stage_path r := mkObj id (stub' r) (Some t)]> (fs w)) w)).
Proof.
  intros Hw Hj Hpc Hr. pose proof (wi_adds _ _ Hw t j Hj) as Hji. assert (Hna : aj_pc j ≠ Announcing) by (by rewrite Hpc).
  destruct (created_facts _ w t j r id Hw Hj Hpc Hr) as ([d Hd] & Hobjs & Hids).
  apply (fs_step _ w t j); try done.
  - apply same_files_insert; [done|]. intros o E. rewrite Hd in E. by injection E as <-.
  - apply ids_insert; [done|]. intros q x Hne Hx E. by apply Hne, (Hids q (stage_path r) x _ Hx Hd).
  - intros p o [[<- <-]|[_ Hp]]%lookup_insert_Some Ho; [|by eapply wi_owned]. eapply accounted_row; eauto.
  - destruct Hji as [H1 H2 H3 H4 H5 H6 [Hnd Hni] H7 H8]. destruct j as [rows objs pc now]; simpl in *; subst pc; simpl in *.
    apply lookup_lt_Some in Hr as Hlt. split; simpl; try done.
    + rewrite length_app; simpl. split; [lia|done].
    + intros i rel id' r' _ Ho Hi. apply lookup_app_Some in Ho as [Ho|[Hge Ho]].
      * destruct (Hobjs i rel id' r' Ho Hi) as (-> & Hne & Hl). split; [done|]. by rewrite lookup_insert_ne.
      * apply list_lookup_singleton_Some in Ho as [Hi0 [= <- <-]]. assert (i = length objs) as -> by lia.
        rewrite Hr in Hi. injection Hi as <-. split; [done|]. apply lookup_insert_eq.
    + split; [|done]. rewrite fmap_app. apply list.NoDup_app. split_and!; [done| |apply list.NoDup_singleton].
      intros x Hx Hx'. apply list_elem_of_singleton in Hx' as ->. by apply (Hni id).
    + intros p o [[<- <-]|[_ Hp]]%lookup_insert_Some Ho; unfold held; simpl; rewrite fmap_app; apply list.elem_of_app.
      * right. left.
      * destruct (H7 p o Hp Ho) as [->|Hin]; [right; left|by left].
Qed.

Lemma T_write_fail_inv w t j r id :
  inv' w → adds w !! t = Some j → aj_pc j = Created id → aj_rows j !! length (aj_objects j) = Some r →
  inv' (on_add t (at_pc (Unwinding 0 false) j) (on_fs (delete (stage_path r) (fs w)) w)).
Proof.
  intros Hw Hj Hpc Hr. pose proof (wi_adds _ _ Hw t j Hj) as Hji. assert (Hna : aj_pc j ≠ Announcing) by (by rewrite Hpc).
  destruct (created_facts _ w t j r id Hw Hj Hpc Hr) as ([d Hd] & Hobjs & Hids).
  apply (fs_step _ w t j); try done.
  - apply same_files_delete. intros o E. rewrite Hd in E. by injection E as <-.
  - by apply ids_delete.
  - intros p o [_ Hp]%lookup_delete_Some Ho. by eapply wi_owned.
  - pose proof (λ i rel id, object_file _ _ _ _ _ i rel id Hji ltac:(by rewrite Hpc)) as Hobj.
    destruct Hji as [H1 H2 H3 H4 H5 H6 [Hnd Hni] H7 H8]. destruct j as [rows objs pc now]; simpl in *; subst pc; simpl in *.
    split; simpl; try done; last first.
    { intros k failed i rel id' _ _ Hi. destruct (Hobj i rel id' Hi) as (r' & Hr' & _).
      destruct (Hobjs i rel id' r' Hi Hr') as (_ & Hne & Hl). exists rel, (stub' r'). by rewrite lookup_delete_ne. }
    intros p o [Hne Hp]%lookup_delete_Some Ho. right. simpl. rewrite drop_0.
    destruct (H7 p o Hp Ho) as [E|Hin]; [|done]. destruct Hne. by apply (Hids _ p _ o Hd Hp).
Qed.

Lemma T_written_inv w t j :
  inv' w → adds w !! t = Some j → aj_pc j = Writing → length (aj_objects j) = length (aj_rows j) →
  inv' (on_add t (at_pc (Publishing 0) j) w).
Proof.
  intros Hw Hj Hpc Hlen. pose proof (wi_adds _ _ Hw t j Hj) as Hji.
  apply (pc_step _ w t j); [done|done|by rewrite Hpc|done|].
  destruct Hji as [H1 H2 H3 H4 H5 H6 [Hnd Hni] H7 H8]. destruct j as [rows objs pc now]; simpl in *; subst pc; simpl in *.
  split; simpl; try done. split; [lia|done].
Qed.

Lemma T_published_inv w t j :
  inv' w → adds w !! t = Some j → aj_pc j = Publishing (length (aj_rows j)) → inv' (on_add t (at_pc Committing j) w).
Proof.
  intros Hw Hj Hpc. pose proof (wi_adds _ _ Hw t j Hj) as Hji.
  apply (pc_step _ w t j); [done|done|by rewrite Hpc|done|].
  destruct Hji as [H1 H2 H3 H4 H5 H6 [Hnd Hni] H7 H8]. destruct j as [rows objs pc now]; simpl in *; subst pc; simpl in *.
  split; simpl; done.
Qed.

(** What a rename does to the files of an add. *)
Lemma publish_facts w t j k r rel id f :
  inv' w → adds w !! t = Some j → aj_pc j = Publishing k → aj_rows j !! k = Some r → aj_objects j !! k = Some (rel, id) →
  rename_noreplace rel (row_path r) (fs w) = Some f →
  rel = stage_path r ∧ fs w !! rel = Some (mkObj id (stub' r) (Some t)) ∧ fs w !! row_path r = None ∧
  f = <[row_path r := mkObj id (stub' r) (Some t)]> (delete rel (fs w)) ∧
  same_files t (fs w) f ∧ ids_unique f ∧ (∀ p o, f !! p = Some o → fo_owner o = Some t → accounted (reg w) t p).
Proof.
  intros Hw Hj Hpc Hr Ho Hren. pose proof (wi_adds _ _ Hw t j Hj) as Hji. pose proof (wi_ids _ _ Hw) as Hids.
  destruct (ji_objects _ _ _ _ _ Hji k rel id r) as [E Hl]; [by rewrite Hpc|done|done|].
  unfold published in E. rewrite Hpc in E. rewrite Nat.ltb_irrefl in E. unfold rename_noreplace in Hren. rewrite Hl in Hren.
  destruct (fs w !! row_path r) eqn:Hn; [done|]. injection Hren as <-. split_and!; try done.
  - eapply same_files_trans; [apply (same_files_delete t _ rel); intros o; rewrite Hl; by intros [= <-]|].
    apply same_files_insert; [done|]. intros o [_ Ho']%lookup_delete_Some. congruence.
  - apply ids_insert; [by apply ids_delete|]. intros q x _ [Hne Hx]%lookup_delete_Some Heq. by apply Hne, (Hids rel q _ x Hl Hx).
  - intros p o [[<- <-]|[_ [_ Hp]%lookup_delete_Some]]%lookup_insert_Some Hot; [|by eapply wi_owned].
    eapply (accounted_row _ _ _ _ j k r); [done|by rewrite Hpc|done|by left].
Qed.

(** Published paths and staging names of different rows are different. *)
Lemma job_names r0 f t j a b ra rb :
  job_inv' r0 f t j → aj_rows j !! a = Some ra → aj_rows j !! b = Some rb → row_path ra = row_path rb → a = b.
Proof.
  intros Hj Ha Hb E. apply (list.NoDup_lookup (row_path <$> aj_rows j) a b (row_path ra)); [by apply (ji_rows _ _ _ _ _ Hj)| |].
  - by rewrite list_lookup_fmap, Ha.
  - by rewrite list_lookup_fmap, Hb, E.
Qed.

Lemma T_publish_inv w t j k r rel id f :
  inv' w → adds w !! t = Some j → aj_pc j = Publishing k → aj_rows j !! k = Some r → aj_objects j !! k = Some (rel, id) →
  rename_noreplace rel (row_path r) (fs w) = Some f →
  inv' (on_add t (with_objects (<[k := (row_path r, id)]> (aj_objects j)) (Publishing (S k)) j) (on_fs f w)).
Proof.
  intros Hw Hj Hpc Hr Ho Hren. pose proof (wi_adds _ _ Hw t j Hj) as Hji.
  destruct (publish_facts w t j k r rel id f Hw Hj Hpc Hr Ho Hren) as (Erel & Hl & Hn & -> & Hsame & Hids & Hown).
  apply (fs_step _ w t j); try done; [by rewrite Hpc|].
  assert (Hsnd : (<[k := (row_path r, id)]> (aj_objects j)).*2 = (aj_objects j).*2).
  { rewrite list_fmap_insert. apply list_insert_id. by rewrite list_lookup_fmap, Ho. }
  destruct Hji as [H1 H2 H3 H4 H5 H6 [Hnd Hni] H7 H8]. destruct j as [rows objs pc now]; simpl in *; subst pc; simpl in *.
  split; simpl; try done.
  - by rewrite length_insert.
  - intros i rel' id' r' _ Hi Hr'. destruct (decide (i = k)) as [->|Hne].
    + rewrite list_lookup_insert_eq in Hi by (by apply lookup_lt_Some in Ho). injection Hi as <- <-.
      rewrite Hr in Hr'. injection Hr' as <-. unfold published; simpl.
      destruct (Nat.ltb_spec k (S k)); [|lia]. split; [done|]. apply lookup_insert_eq.
    + rewrite list_lookup_insert_ne in Hi by done. destruct (H5 i rel' id' r' eq_refl Hi Hr') as [E Hl']. split.
      * rewrite E. unfold published; simpl. destruct (Nat.ltb_spec i k), (Nat.ltb_spec i (S k)); try done; lia.
      * assert (rel' ≠ rel).
        { intros ->. rewrite Hl in Hl'. injection Hl' as <- _. apply Hne.
          apply (list.NoDup_lookup objs.*2 i k id); [done|by rewrite list_lookup_fmap, Hi|by rewrite list_lookup_fmap, Ho]. }
        rewrite lookup_insert_ne; [by rewrite lookup_delete_ne|]. congruence.
  - rewrite Hsnd. split; [done|done].
  - intros p o [[<- <-]|[_ [_ Hp]%lookup_delete_Some]]%lookup_insert_Some Hot; unfold held; simpl; rewrite Hsnd.
    + apply list_elem_of_fmap. exists (rel, id). split; [done|]. by eapply list_elem_of_lookup_2.
    + by apply (H7 p o).
Qed.

Lemma T_publish_sync_inv w t j k r rel id f :
  inv' w → adds w !! t = Some j → aj_pc j = Publishing k → aj_rows j !! k = Some r → aj_objects j !! k = Some (rel, id) →
  rename_noreplace rel (row_path r) (fs w) = Some f →
  inv' (on_add t (at_pc (Unwinding 0 false) j) (on_fs f w)).
Proof.
  intros Hw Hj Hpc Hr Ho Hren. pose proof (wi_adds _ _ Hw t j Hj) as Hji.
  destruct (publish_facts w t j k r rel id f Hw Hj Hpc Hr Ho Hren) as (Erel & Hl & Hn & -> & Hsame & Hids & Hown).
  apply (fs_step _ w t j); try done; [by rewrite Hpc|].
  pose proof (λ i rel id, object_file _ _ _ _ _ i rel id Hji ltac:(by rewrite Hpc)) as Hobj.
  destruct Hji as [H1 H2 H3 H4 H5 H6 [Hnd Hni] H7 H8]. destruct j as [rows objs pc now]; simpl in *; subst pc; simpl in *.
  split; simpl; try done; [by split; [lia|]| |].
  2: { intros k' failed i rel' id' _ _ Hi. destruct (Hobj i rel' id' Hi) as (r' & Hr' & Hl').
    destruct (decide (rel' = rel)) as [->|Hne].
    - rewrite Hl in Hl'. injection Hl' as <- _. exists (row_path r), (stub' r). apply lookup_insert_eq.
    - exists rel', (stub' r'). rewrite lookup_insert_ne; [by rewrite lookup_delete_ne|congruence]. }
  intros p o [[<- <-]|[_ [_ Hp]%lookup_delete_Some]]%lookup_insert_Some Hot; right; simpl; rewrite drop_0.
  - apply list_elem_of_fmap. exists (rel, id). split; [done|]. by eapply list_elem_of_lookup_2.
  - by apply (H7 p o).
Qed.

(** Turning to unwind where no file is affected. *)
Lemma turn_inv w t j : inv' w → adds w !! t = Some j → (∀ id, aj_pc j ≠ Created id) → forward (aj_pc j) = true → inv' (on_add t (at_pc (Unwinding 0 false) j) w).
Proof.
  intros Hw Hj Hc Hf. assert (aj_pc j ≠ Announcing) by (by destruct (aj_pc j)).
  apply (pc_step _ w t j); try done. apply job_unwind; try done. by apply (wi_adds _ _ Hw).
Qed.
End publishing_files.

Section unwinding.
Context (stub_bytes : string → Z → Z → string → string → string → Z → Z → list Byte.byte).
Local Abbreviation stub' := (stub stub_bytes).
Local Abbreviation inv' := (inv stub_bytes).
Local Abbreviation job_inv' := (job_inv stub_bytes).

(** Unwinding removes only files of the transaction. *)
Lemma unwind_target w t j k failed i rel id o :
  inv' w → adds w !! t = Some j → aj_pc j = Unwinding k failed → (k ≤ i)%nat → aj_objects j !! i = Some (rel, id) →
  fs w !! rel = Some o → fo_id o = id → fo_owner o = Some t.
Proof.
  intros Hw Hj Hpc Hk Hi Ho Hid. destruct (ji_live _ _ _ _ _ (wi_adds _ _ Hw t j Hj) k failed i rel id Hpc Hk Hi) as (p & d & Hp).
  assert (p = rel) as -> by (by apply (wi_ids _ _ Hw p rel _ o Hp Ho)). rewrite Ho in Hp. by injection Hp as ->.
Qed.

Lemma T_unwind_inv w t j k failed rel id :
  inv' w → adds w !! t = Some j → aj_pc j = Unwinding k failed → aj_objects j !! k = Some (rel, id) →
  inv' (on_add t (at_pc (Unwinding (S k) (failed || negb (RemoveStagedIfIdentity rel id (fs w)).2)) j)
        (on_fs (RemoveStagedIfIdentity rel id (fs w)).1 w)).
Proof.
  intros Hw Hj Hpc Hk. pose proof (wi_adds _ _ Hw t j Hj) as Hji. pose proof (wi_ids _ _ Hw) as Hids.
  pose proof (λ o, unwind_target w t j k failed k rel id o Hw Hj Hpc (le_n k) Hk) as Hmine.
  assert (Hdrop : drop k (aj_objects j) = (rel, id) :: drop (S k) (aj_objects j)) by (by apply drop_S).
  unfold RemoveStagedIfIdentity. destruct (fs w !! rel) as [o|] eqn:Ho; [destruct (bool_decide_reflect (fo_id o = id)) as [Eid|Hne]|]; simpl.
  - rewrite orb_false_r. assert (Hot : fo_owner o = Some t) by (by apply Hmine). apply (fs_step _ w t j); try done; [by rewrite Hpc| | | |].
    + apply same_files_delete. intros o' E. congruence.
    + by apply ids_delete.
    + intros p o' [_ Hp]%lookup_delete_Some Ho'. by eapply wi_owned.
    + destruct Hji as [H1 H2 H3 H4 H5 H6 [Hnd Hni] H7 H8]. destruct j as [rows objs pc now]; simpl in *; subst pc; simpl in *.
      split; simpl; try done.
      * intros p o' [Hne Hp]%lookup_delete_Some Ho'. destruct (H7 p o' Hp Ho') as [->|Hin]; [by left|]. simpl in Hin.
        rewrite Hdrop in Hin. apply elem_of_cons in Hin as [E|Hin]; [|by right]. simpl in E. destruct Hne. apply (Hids rel p o o' Ho Hp). congruence.
      * intros k' f' i rel' id' [= <- <-] Hi Hi'. destruct (H8 k failed i rel' id' eq_refl ltac:(lia) Hi') as (p & d & Hp).
        exists p, d. rewrite lookup_delete_ne; [done|]. intros <-. rewrite Ho in Hp. injection Hp as ->. simpl in Eid. subst id'.
        enough (i = k) by lia. apply (list.NoDup_lookup objs.*2 i k id); [done|by rewrite list_lookup_fmap, Hi'|by rewrite list_lookup_fmap, Hk].
  - rewrite orb_true_r. apply (fs_step _ w t j); try done; [by rewrite Hpc|intros p o' Hp Ho'; by eapply wi_owned|].
    destruct Hji as [H1 H2 H3 H4 H5 H6 [Hnd Hni] H7 H8]. destruct j as [rows objs pc now]; simpl in *; subst pc; simpl in *.
    split; simpl; try done; [by left|]. intros k' f' i rel' id' [= <- <-] Hi Hi'. apply (H8 k failed i rel' id'); [done|lia|done].
  - rewrite orb_true_r. apply (fs_step _ w t j); try done; [by rewrite Hpc|intros p o' Hp Ho'; by eapply wi_owned|].
    destruct Hji as [H1 H2 H3 H4 H5 H6 [Hnd Hni] H7 H8]. destruct j as [rows objs pc now]; simpl in *; subst pc; simpl in *.
    split; simpl; try done; [by left|]. intros k' f' i rel' id' [= <- <-] Hi Hi'. apply (H8 k failed i rel' id'); [done|lia|done].
Qed.

Lemma T_unwind_error_inv w t j k failed :
  inv' w → adds w !! t = Some j → aj_pc j = Unwinding k failed → inv' (on_add t (at_pc (Unwinding (S k) true) j) w).
Proof.
  intros Hw Hj Hpc. pose proof (wi_adds _ _ Hw t j Hj) as Hji. apply (pc_step _ w t j); try done; [by rewrite Hpc|].
  destruct Hji as [H1 H2 H3 H4 H5 H6 [Hnd Hni] H7 H8]. destruct j as [rows objs pc now]; simpl in *; subst pc; simpl in *.
  split; simpl; try done; [by left|]. intros k' f' i rel' id' [= <- <-] Hi Hi'. apply (H8 k failed i rel' id'); [done|lia|done].
Qed.

(** An add that ends leaves the registry and the files as they are, or rolls its rows back. *)
Lemma T_unwound_fail_inv w t j k failed : inv' w → adds w !! t = Some j → aj_pc j = Unwinding k failed → inv' (end_add t w).
Proof.
  intros Hw Hj Hpc. assert (Hna : aj_pc j ≠ Announcing) by (by rewrite Hpc). pose proof (wi_adds _ _ Hw t j Hj) as Hj0.
  assert (Hstaged : ∀ p r, reg w !! p = Some r → TxnID r = t → State r = AudioStaged) by (intros; by eapply job_staged).
  apply (add_frame stub_bytes w _ t); simpl; try done.
  - by eapply add_up.
  - intros. by eapply job_free.
  - apply (wi_reg _ _ Hw).
  - intros p r Hp <-. by apply (wi_shape _ _ Hw p).
  - apply (wi_ids _ _ Hw).
  - intros p r Hp Ht Hc. rewrite (Hstaged p r Hp Ht) in Hc. done.
  - intros p o Hp Ho. by eapply wi_owned.
  - intros p x Hx. left. by exists x.
  - intros p r Hp Ht. rewrite (Hstaged p r Hp Ht). done.
  - intros t' jx Hne Hx. by rewrite lookup_delete_ne in Hx.
  - intros jx. by rewrite lookup_delete_eq.
  - intros jx. by rewrite lookup_delete_eq.
Qed.

Lemma T_unwound_inv w t j :
  inv' w → adds w !! t = Some j → aj_pc j = Unwinding (length (aj_objects j)) false →
  inv' (end_add t (on_reg (RollbackAudioProjections t (reg w)) w)).
Proof.
  intros Hw Hj Hpc. assert (Hna : aj_pc j ≠ Announcing) by (by rewrite Hpc). pose proof (wi_adds _ _ Hw t j Hj) as Hj0.
  assert (Hstaged : ∀ p r, reg w !! p = Some r → TxnID r = t → State r = AudioStaged) by (intros; by eapply job_staged).
  assert (Hgone : ∀ p r, RollbackAudioProjections t (reg w) !! p = Some r → TxnID r ≠ t).
  { intros p r [Hp Hn]%lookup_rollback Ht. unfold in_txn in Hn. by rewrite Ht, String.eqb_refl, (Hstaged p r Hp Ht) in Hn. }
  assert (Hnone : ∀ p o, fs w !! p = Some o → fo_owner o ≠ Some t).
  { intros p o Hp Ho. pose proof (ji_files _ _ _ _ _ Hj0 p o Hp Ho) as Hh. unfold held in Hh. rewrite Hpc, drop_all in Hh.
    destruct Hh as [Hh|Hh]; [done|]. by apply elem_of_nil in Hh. }
  apply (add_frame stub_bytes w _ t); simpl; try done.
  - by eapply add_up.
  - intros. by eapply job_free.
  - by apply rollback_ok, (wi_reg _ _ Hw).
  - intros p r Hp Ht. by apply Hgone in Hp.
  - intros p r Ht. rewrite lookup_rollback. unfold in_txn. destruct (String.eqb_spec (TxnID r) t); [done|]. simpl. naive_solver.
  - apply (wi_ids _ _ Hw).
  - intros p r Hp Ht. by apply Hgone in Hp.
  - intros p o Hp Ho. by apply Hnone in Hp.
  - intros p x Hx. left. by exists x.
  - intros p r Hp Ht. rewrite (Hstaged p r Hp Ht). done.
  - intros t' jx Hne Hx. by rewrite lookup_delete_ne in Hx.
  - intros jx. by rewrite lookup_delete_eq.
  - intros jx. by rewrite lookup_delete_eq.
Qed.

(** ** Commit *)

(** The rows the commit finds are the rows of the add. *)
Lemma commit_count r0 f t j : reg_ok r0 → job_inv' r0 f t j → aj_pc j ≠ Announcing → len (rows_where (in_txn t) r0) = len (aj_rows j).
Proof.
  intros Hok Hj Hpc. unfold len. f_equal. rewrite <-(length_fmap row_path (aj_rows j)), <-(length_fmap row_path (rows_where _ _)).
  apply Permutation_length, list.NoDup_Permutation.
  - by apply rows_where_paths.
  - apply (ji_rows _ _ _ _ _ Hj).
  - intros p. rewrite !list_elem_of_fmap. split.
    + intros (r & -> & (Hin & k & Hk)%rows_where_spec). unfold in_txn in Hin. apply andb_true_iff in Hin as [Ht%String.eqb_eq _].
      destruct (ji_only _ _ _ _ _ Hj k r Hk Ht) as (r' & Hr' & E). exists r'. by rewrite <-(ro_path _ Hok k r Hk).
    + intros (r & -> & Hr). exists (staged_by t r). split; [done|]. apply rows_where_spec. split.
      * unfold in_txn. simpl. by rewrite String.eqb_refl.
      * exists (row_path r). rewrite (ji_reg _ _ _ _ _ Hj r Hr). by destruct (aj_pc j).
Qed.

Lemma T_commit_inv w t j :
  inv' w → adds w !! t = Some j → aj_pc j = Committing →
  inv' (on_add t (at_pc Announcing j) (on_reg (CommitAudioProjections t (aj_now j) (reg w)).1 w)).
Proof.
  intros Hw Hj Hpc. assert (Hna : aj_pc j ≠ Announcing) by (by rewrite Hpc). pose proof (wi_adds _ _ Hw t j Hj) as Hj0.
  pose proof (wi_reg _ _ Hw) as Hok.
  assert (Hstaged : ∀ p r, reg w !! p = Some r → TxnID r = t → State r = AudioStaged) by (intros; by eapply job_staged).
  assert (Hmine : ∀ p r, (CommitAudioProjections t (aj_now j) (reg w)).1 !! p = Some r → TxnID r = t →
    ∃ s, reg w !! p = Some s ∧ TxnID s = t ∧ r = with_state AudioCommitted (aj_now j) s).
  { intros p r Hp Ht. rewrite lookup_commit in Hp. destruct (reg w !! p) as [s|] eqn:Es; [|done]. injection Hp as <-.
    destruct (in_txn t s) eqn:Ei.
    - exists s. split_and!; [done| |done]. unfold in_txn in Ei. by apply andb_true_iff in Ei as [?%String.eqb_eq _].
    - unfold in_txn in Ei. by rewrite Ht, String.eqb_refl, (Hstaged p s Es Ht) in Ei. }
  assert (Hfile : ∀ p s, reg w !! p = Some s → TxnID s = t → ∃ id, fs w !! p = Some (mkObj id (stub' s) (Some t))).
  { intros p s Hs Ht. destruct (ji_only _ _ _ _ _ Hj0 p s Hs Ht) as (r & Hr & ->).
    pose proof (ji_reg _ _ _ _ _ Hj0 r Hr) as E. rewrite Hs in E. apply list_elem_of_lookup_1 in Hr as [i Hi].
    destruct (ji_length _ _ _ _ _ Hj0) as [_ Hlen]. rewrite Hpc in Hlen, E. injection E as ->.
    destruct (lookup_lt_is_Some_2 (aj_objects j) i) as [[rel id] Hobj]; [apply lookup_lt_Some in Hi; lia|].
    destruct (ji_objects _ _ _ _ _ Hj0 i rel id r) as [E Hl]; [by rewrite Hpc|done|done|]. unfold published in E. rewrite Hpc in E.
    apply lookup_lt_Some in Hi as Hlt. destruct (Nat.ltb_spec i (length (aj_rows j))); [|lia]. subst rel. by exists id. }
  apply (add_frame stub_bytes w _ t); cbn [reg fs ns adds removals up on_reg on_add]; try done.
  - by eapply add_up.
  - intros. by eapply job_free.
  - by apply commit_ok.
  - intros p r Hp Ht. destruct (Hmine p r Hp Ht) as (s & Hs & Hst & ->).
    destruct (wi_shape _ _ Hw p s Hs) as [Hsh Hne]. rewrite Hst in Hsh, Hne. split; [exact Hsh|done].
  - intros p r Ht. rewrite lookup_commit. split.
    + intros ->. simpl. unfold in_txn. by destruct (String.eqb_spec (TxnID r) t).
    + destruct (reg w !! p) as [s|] eqn:Es; [|done]. intros [= <-]. destruct (in_txn t s) eqn:Ei; [|done].
      unfold in_txn in Ei. apply andb_true_iff in Ei as [Ei%String.eqb_eq _]. done.
  - apply (wi_ids _ _ Hw).
  - intros p r Hp Ht _. destruct (Hmine p r Hp Ht) as (s & Hs & Hst & ->). destruct (Hfile p s Hs Hst) as [id Hid]. exists id.
    rewrite Ht. done.
  - intros p o Hp Ho. destruct (wi_owned _ _ Hw p o t Hp Ho) as (k & r & Hk & Hrt & Hpos).
    exists k, (with_state AudioCommitted (aj_now j) r). split_and!; [|done|].
    + rewrite lookup_commit, Hk. simpl. unfold in_txn. by rewrite Hrt, String.eqb_refl, (Hstaged k r Hk Hrt).
    + left. destruct (Hfile k r Hk Hrt) as [id Hid]. destruct Hpos as [->|[-> _]]; [done|].
      pose proof (ji_files _ _ _ _ _ Hj0 _ _ Hp Ho) as Hh. unfold held in Hh. rewrite Hpc in Hh.
      apply list_elem_of_fmap in Hh as ([rel id'] & E & Hobj). simpl in E. apply list_elem_of_lookup_1 in Hobj as [i Hi].
      destruct (object_file _ _ _ _ _ i rel id' Hj0) as (r' & Hr' & Hl); [by rewrite Hpc|done|].
      destruct (ji_objects _ _ _ _ _ Hj0 i rel id' r') as [Erel _]; [by rewrite Hpc|done|done|]. unfold published in Erel. rewrite Hpc in Erel.
      apply lookup_lt_Some in Hr' as Hlt. destruct (Nat.ltb_spec i (length (aj_rows j))); [|lia].
      assert (Ep : stage_path r = rel) by (by apply (wi_ids _ _ Hw _ _ o _ Hp Hl)). exfalso.
      destruct (wi_shape _ _ Hw k r Hk) as [Hsh _]. apply (staging_hidden _ r Hsh).
      pose proof (job_row_reg _ _ _ _ _ i r' Hj0 Hna Hr') as Hrr. destruct (wi_shape _ _ Hw _ _ Hrr) as [[Hop _] _].
      rewrite Erel in Ep. unfold stage_path, row_path in Ep. injection Ep as _ ->. done.
  - intros p x Hx. left. by exists x.
  - intros p r Hp Ht. rewrite (Hstaged p r Hp Ht). done.
  - intros t' jx Hne Hx. by rewrite lookup_insert_ne in Hx.
  - intros jx. rewrite lookup_insert_eq. intros [= <-].
    destruct Hj0 as [H1 H2 H3 H4 H5 H6 [Hnd Hni] H7 H8]. destruct j as [rows objs pc now]; simpl in *; subst pc; simpl in *.
    split; simpl; try done.
    + intros r Hr. rewrite lookup_fmap, (H2 r Hr). simpl. unfold in_txn. simpl. by rewrite String.eqb_refl.
    + intros p r Hp Ht. destruct (Hmine p r Hp Ht) as (s & Hs & Hst & ->). by apply (H3 p s).
    + split; [lia|done].
  - intros jx. rewrite lookup_insert_eq. intros [= <-] _ r Hr. exists (staged_by t r). split; [|done].
    rewrite (ji_reg _ _ _ _ _ Hj0 r Hr). by rewrite Hpc.
Qed.
End unwinding.

(** ** Announcing and staging *)

Lemma announced (rows : list AudioProjection) (n : AudioNamespace) (p : AudioPath) (x : NsProjection) :
  entries (AddProjections (projection_of <$> rows) n) !! p = Some x → is_Some (entries n !! p) ∨ ∃ r, r ∈ rows ∧ p = row_path r.
Proof.
  unfold AddProjections. case_bool_decide; [by left|]. simpl. rewrite fold_paths_lookup.
  destruct (by_path (projection_of <$> rows) !! p) as [y|] eqn:E; [|by left]. intros _. right. clear -E. revert y E.
  induction rows as [|r rows IH] using rev_ind; [done|]. intros y. rewrite fmap_app. change (projection_of <$> [r]) with [projection_of r]. rewrite by_path_app.
  intros [[<- _]|[_ H]]%lookup_insert_Some.
  - exists r. split; [apply list.elem_of_app; right; left|done].
  - destruct (IH y H) as (s & Hs & ->). exists s. split; [apply list.elem_of_app; by left|done].
Qed.

Section announcing.
Context (stub_bytes : string → Z → Z → string → string → string → Z → Z → list Byte.byte).
Local Abbreviation stub' := (stub stub_bytes).
Local Abbreviation inv' := (inv stub_bytes).

Lemma T_announce_inv w t j :
  inv' w → adds w !! t = Some j → aj_pc j = Announcing →
  inv' (end_add t (on_ns (AddProjections (projection_of <$> aj_rows j) (ns w)) w)).
Proof.
  intros Hw Hj Hpc. pose proof (wi_adds _ _ Hw t j Hj) as Hj0.
  apply (add_frame stub_bytes w _ t); cbn [reg fs ns adds removals up on_ns end_add]; try done.
  - by eapply add_up.
  - intros. by eapply job_free.
  - apply (wi_reg _ _ Hw).
  - intros p r Hp <-. by apply (wi_shape _ _ Hw p).
  - apply (wi_ids _ _ Hw).
  - intros p r Hp Ht Hc. by apply (wi_committed _ _ Hw).
  - intros p o Hp Ho. by eapply wi_owned.
  - intros p x [Hx|(r & Hr & ->)]%announced; [by left|]. right. rewrite (ji_reg _ _ _ _ _ Hj0 r Hr), Hpc. by eexists.
  - intros p r Hp Ht Hs. by exists r.
  - intros t' jx Hne Hx. by rewrite lookup_delete_ne in Hx.
  - intros jx. by rewrite lookup_delete_eq.
  - intros jx. by rewrite lookup_delete_eq.
Qed.

Lemma batch_lookup t rows p r : batch t rows !! p = Some r → ∃ s, s ∈ rows ∧ p = row_path s ∧ r = staged_by t s.
Proof. intros E%elem_of_list_to_map_2. apply list_elem_of_fmap in E as (s & [= -> ->] & Hs). by exists s. Qed.

Lemma T_stage_inv w t rows now reg' :
  inv' w → up w = true → adds w !! t = None → (∀ p r, reg w !! p = Some r → TxnID r ≠ t) →
  (∀ p o, fs w !! p = Some o → fo_owner o ≠ Some t) → t ≠ "" → Forall (row_shaped t) rows →
  StageAudioProjections t rows (reg w) = inr reg' →
  inv' (on_add t (mkAdd rows [] Writing now) (on_reg reg' w)).
Proof.
  intros Hw Hup Hj Hrows Hfiles Hne Hshape Hst. destruct (stage_ok _ _ _ _ (wi_reg _ _ Hw) Hst) as (Hok & Hnd & Hfree & Hl).
  assert (Hin : ∀ r, r ∈ rows → reg' !! row_path r = Some (staged_by t r)).
  { intros r Hr. rewrite Hl. unfold batch. erewrite elem_of_list_to_map_1; [done| |apply list_elem_of_fmap; by exists r].
    rewrite <-list_fmap_compose. done. }
  assert (Hmine : ∀ p r, reg' !! p = Some r → TxnID r = t → ∃ s, s ∈ rows ∧ p = row_path s ∧ r = staged_by t s).
  { intros p r Hp Ht. rewrite Hl in Hp. destruct (batch t rows !! p) as [s|] eqn:E; [|by apply Hrows in Hp].
    injection Hp as ->. by apply batch_lookup. }
  apply (add_frame stub_bytes w _ t); cbn [reg fs ns adds removals up on_reg on_add]; try done.
  - intros i jr p r _ _ Hp. by apply (Hrows p).
  - intros p r Hp Ht. destruct (Hmine p r Hp Ht) as (s & Hs & -> & ->). split; [|done].
    rewrite list.Forall_forall in Hshape. exact (Hshape s Hs).
  - intros p r Ht. rewrite Hl. destruct (batch t rows !! p) as [s|] eqn:E; [|done].
    apply batch_lookup in E as (x & Hx & -> & ->). rewrite (Hfree x Hx). split; [done|]. intros [= <-]. done.
  - apply (wi_ids _ _ Hw).
  - intros p r Hp Ht Hc. destruct (Hmine p r Hp Ht) as (s & Hs & -> & ->). done.
  - intros p o Hp Ho. by apply Hfiles in Hp.
  - intros p x Hx. left. by exists x.
  - intros p r Hp Ht. by apply Hrows in Hp.
  - intros t' jx Hn Hx. by rewrite lookup_insert_ne in Hx.
  - intros jx. rewrite lookup_insert_eq. intros [= <-]. split; simpl; try done.
    + intros p r Hp Ht. destruct (Hmine p r Hp Ht) as (s & Hs & -> & _). by exists s.
    + split; [lia|done].
    + split; [constructor|done].
    + intros p o Hp Ho. by apply Hfiles in Hp.
  - intros jx. rewrite lookup_insert_eq. by intros [= <-].
Qed.
End announcing.

(** ** Removals *)

Section removing.
Context (stub_bytes : string → Z → Z → string → string → string → Z → Z → list Byte.byte).
Local Abbreviation inv' := (inv stub_bytes).

(** The owner of a file at the path of a row is the row's transaction. *)
Lemma owner_of_row w p r o t : inv' w → reg w !! p = Some r → fs w !! p = Some o → fo_owner o = Some t → TxnID r = t.
Proof.
  intros Hw Hr Ho Ht. destruct (wi_owned _ _ Hw p o t Ho Ht) as (k & s & Hk & Hst & [<-|[-> _]]); [congruence|].
  exfalso. destruct (wi_shape _ _ Hw k s Hk) as [Hsh _]. apply (staging_hidden _ s Hsh).
  destruct (wi_shape _ _ Hw _ _ Hr) as [[Hop _] _]. pose proof (ro_path _ (wi_reg _ _ Hw) _ _ Hr) as Ep.
  unfold stage_path, row_path in Ep. injection Ep as _ ->. done.
Qed.

Lemma removal_frame w w' i jr :
  let P := row_path <$> rm_rows jr in
  inv' w → removals w !! i = Some jr → up w' = up w → adds w' = adds w →
  (∀ i', i' ≠ i → removals w' !! i' = removals w !! i') →
  (∀ j', removals w' !! i = Some j' → rm_rows j' ⊆ rm_rows jr ∧ rm_inv (reg w') (fs w') (entries (ns w')) j') →
  reg_ok (reg w') → ids_unique (fs w') →
  (∀ p, p ∉ P → reg w' !! p = reg w !! p ∧ fs w' !! p = fs w !! p ∧ entries (ns w') !! p = entries (ns w) !! p) →
  (∀ p r', p ∈ P → reg w' !! p = Some r' → ∃ r, reg w !! p = Some r ∧ VirtualPath r' = VirtualPath r ∧ StagingName r' = StagingName r ∧
     TxnID r' = TxnID r ∧ State r' ≠ AudioStaged ∧ (State r' = AudioCommitted → r' = r ∧ fs w' !! p = fs w !! p)) →
  (∀ p o, p ∈ P → fs w' !! p = Some o → fs w !! p = Some o ∧ (is_Some (fo_owner o) → is_Some (reg w' !! p))) →
  (∀ p x, p ∈ P → entries (ns w') !! p = Some x → is_Some (reg w' !! p)) →
  inv' w'.
Proof.
  intros P Hw Hi Hup Hadds Hother Hmine Hok Hids Hframe Hrow Hfile Hname.
  assert (Hup' : up w = true).
  { destruct (up w) eqn:E; [done|]. destruct (wi_down _ _ Hw E) as (_ & H & _). by rewrite H, lookup_empty in Hi. }
  assert (HP : ∀ p, p ∈ P → ∃ r, reg w !! p = Some r ∧ State r ≠ AudioStaged).
  { intros p (s & -> & Hs)%list_elem_of_fmap. destruct (ri_reg _ _ _ _ (wi_removals _ _ Hw i jr Hi) s Hs) as (r & E & H).
    exists r. split; [done|]. destruct (rm_at jr); [done|..]; by rewrite H. }
  assert (Hsub : ∀ i' j', removals w' !! i' = Some j' → ∃ j0, removals w !! i' = Some j0 ∧ rm_rows j' ⊆ rm_rows j0).
  { intros i' j' Hj. destruct (decide (i' = i)) as [->|Hne].
    - exists jr. split; [done|]. by apply Hmine.
    - exists j'. split; [by rewrite <-Hother|done]. }
  assert (Hback : ∀ p o, fs w' !! p = Some o → fs w !! p = Some o).
  { intros p o Hp. destruct (decide (p ∈ P)) as [HpP|HpP]; [by apply Hfile|]. by destruct (Hframe p HpP) as (_ & <- & _). }
  split.
  - done.
  - intros p r' Hr. destruct (decide (p ∈ P)) as [Hp|Hp].
    + destruct (Hrow p r' Hp Hr) as (r & E & Ev & Es & Et & _). destruct (wi_shape _ _ Hw p r E) as [[Ho (k & Hk)] Hne].
      split; [|congruence]. split; [by rewrite Ev|]. exists k. congruence.
    + destruct (Hframe p Hp) as (E & _). rewrite E in Hr. by apply (wi_shape _ _ Hw p).
  - done.
  - intros p r' Hr Hc. destruct (decide (p ∈ P)) as [Hp|Hp].
    + destruct (Hrow p r' Hp Hr) as (r & E & _ & _ & _ & _ & Hcc). destruct (Hcc Hc) as [-> Ef].
      destruct (wi_committed _ _ Hw p r E Hc) as [id Hid]. exists id. by rewrite Ef.
    + destruct (Hframe p Hp) as (E & Ef & _). rewrite E in Hr. destruct (wi_committed _ _ Hw p r' Hr Hc) as [id Hid]. exists id. by rewrite Ef.
  - intros p o t Ho Ht. pose proof (Hback p o Ho) as Ho0. destruct (wi_owned _ _ Hw p o t Ho0 Ht) as (k & r & Hk & Hrt & Hpos).
    destruct (decide (k ∈ P)) as [HkP|HkP].
    + destruct (HP k HkP) as (r2 & E2 & Hs2). rewrite Hk in E2. injection E2 as <-.
      destruct Hpos as [->|[_ Hs]]; [|done]. destruct (Hfile k o HkP Ho) as [_ Hsome]. destruct Hsome as [r' Hr']; [by exists t|].
      destruct (Hrow k r' HkP Hr') as (r2 & E2 & _ & _ & Et & _). exists k, r'. split_and!; [done|congruence|by left].
    + destruct (Hframe k HkP) as (E & _). exists k, r. by rewrite E.
  - intros p x Hx. destruct (decide (p ∈ P)) as [HpP|HpP].
    + destruct (Hname p x HpP Hx) as [r' Hr']. destruct (Hrow p r' HpP Hr') as (_ & _ & _ & _ & _ & Hs & _). by exists r'.
    + destruct (Hframe p HpP) as (E & _ & En). rewrite En in Hx. rewrite E. by apply (wi_names _ _ Hw p x).
  - intros t j Hj. rewrite Hadds in Hj. apply (job_frame _ _ _ (reg w) _ (fs w)); [by apply (wi_adds _ _ Hw)| |].
    + intros p r Ht. destruct (decide (p ∈ P)) as [HpP|HpP]; [|by destruct (Hframe p HpP) as (-> & _)].
      split; intros Hr; exfalso; [by apply (job_free _ w t j i jr p r Hw Hj Hi HpP Hr)|].
      destruct (Hrow p r HpP Hr) as (r2 & E2 & _ & _ & Et & _). apply (job_free _ w t j i jr p r2 Hw Hj Hi HpP E2). congruence.
    + intros p o Ht. destruct (decide (p ∈ P)) as [HpP|HpP]; [|by destruct (Hframe p HpP) as (_ & -> & _)].
      destruct (HP p HpP) as (r & Hr & _). split; intros Ho; exfalso; apply (job_free _ w t j i jr p r Hw Hj Hi HpP Hr);
        eapply owner_of_row; eauto.
  - intros i' j' Hj'. destruct (decide (i' = i)) as [->|Hne]; [by apply Hmine|]. rewrite Hother in Hj' by done.
    assert (Hout : ∀ r, r ∈ rm_rows j' → row_path r ∉ P).
    { intros r Hr HrP. apply Hne. apply (wi_disjoint _ _ Hw i' i j' jr (row_path r)); try done. apply list_elem_of_fmap. by exists r. }
    apply (rm_frame (reg w) _ (fs w) _ (entries (ns w))); [by apply (wi_removals _ _ Hw i')| | |].
    + intros r Hr. by destruct (Hframe _ (Hout r Hr)) as (-> & _).
    + intros r Hr He. by destruct (Hframe _ (Hout r Hr)) as (_ & _ & ->).
    + intros r o Hr Ho _. by apply Hback.
  - intros i1 i2 j1 j2 p H1 H2 P1 P2. destruct (Hsub i1 j1 H1) as (k1 & E1 & S1). destruct (Hsub i2 j2 H2) as (k2 & E2 & S2).
    apply (wi_disjoint _ _ Hw i1 i2 k1 k2 p E1 E2); [apply list_elem_of_fmap in P1 as (s & -> & Hs)|apply list_elem_of_fmap in P2 as (s & -> & Hs)];
      apply list_elem_of_fmap; exists s; auto.
  - intros i1 j1 t j p H1 Hj Hpc Hp. rewrite Hadds in Hj. destruct (Hsub i1 j1 H1) as (k1 & E1 & S1).
    apply (wi_quiet _ _ Hw i1 k1 t j p E1 Hj Hpc). apply list_elem_of_fmap in Hp as (s & -> & Hs). apply list_elem_of_fmap. exists s. auto.
  - congruence.
Qed.
End removing.

(** ** The steps of a removal *)

Definition marked (now : Z) (r : AudioProjection) : AudioProjection :=
  if bool_decide (State r = AudioCommitted) then with_state AudioRemoving now r else r.

Lemma mark_lookup (sec p : string) (now : Z) (r0 : registry) (k : AudioPath) :
  (MarkAudioProjectionRemoving sec p now r0).1 !! k = if decide (k = (sec, p)) then marked now <$> r0 !! k else r0 !! k.
Proof.
  unfold MarkAudioProjectionRemoving, marked. case_decide as Ek.
  - subst k. destruct (r0 !! (sec, p)) as [r|] eqn:E; simpl; [|by rewrite E].
    case_bool_decide; simpl; [by rewrite lookup_insert_eq|by rewrite E].
  - destruct (r0 !! (sec, p)) as [r|]; [|done]. case_bool_decide; simpl; [|done]. by rewrite lookup_insert_ne.
Qed.

Lemma mark_paths_lookup (sec : string) (ps : list string) (now : Z) (r0 : registry) (k : AudioPath) :
  MarkAudioProjectionsRemovingPaths sec ps now r0 !! k = if decide (k ∈ (pair sec <$> ps)) then marked now <$> r0 !! k else r0 !! k.
Proof.
  assert (Hid : ∀ r, marked now (marked now r) = marked now r).
  { intros r. unfold marked. destruct (bool_decide_reflect (State r = AudioCommitted)); [done|]. by rewrite bool_decide_eq_false_2. }
  revert r0. induction ps as [|p ps IH]; intros r0; [done|]. cbn [MarkAudioProjectionsRemovingPaths]. rewrite IH, mark_lookup, fmap_cons.
  destruct (decide (k ∈ pair sec <$> ps)) as [H1|H1], (decide (k = (sec, p))) as [H2|H2], (decide (k ∈ (sec, p) :: (pair sec <$> ps))) as [H3|H3];
    try done; try (by destruct H3; apply elem_of_cons; auto); try (by apply elem_of_cons in H3 as [|]).
  destruct (r0 !! k); simpl; [by rewrite Hid|done].
Qed.

Lemma mark_paths_ok sec ps now r0 : reg_ok r0 → reg_ok (MarkAudioProjectionsRemovingPaths sec ps now r0).
Proof. revert r0. induction ps as [|p ps IH]; intros r0 Hok; simpl; [done|]. by apply IH, mark_ok. Qed.

Section removal_steps.
Context (stub_bytes : string → Z → Z → string → string → string → Z → Z → list Byte.byte).
Local Abbreviation inv' := (inv stub_bytes).

Definition claiming (pc : rm_pc) : bool := match pc with Claim _ => true | _ => false end.

Lemma start_removal_inv w i rows pc :
  inv' w → up w = true → removals w !! i = None → (∀ p, p ∈ row_path <$> rows → quiet w p) →
  NoDup (row_path <$> rows) → (∀ r s, r ∈ rows → s ∈ rows → row_section r = row_section s) →
  match pc with Claim _ | Unpublish => True | _ => False end →
  (∀ r, r ∈ rows → reg w !! row_path r = Some r ∧ match pc with Claim _ => State r ≠ AudioStaged | _ => State r = AudioRemoving end) →
  inv' (on_rm i (mkRemoval rows pc) w).
Proof.
  intros Hw Hup Hi Hq Hnd Hsec Hpc Hrows. destruct Hw as [W1 W2 W3 W4 W5 W6 W7 W8 W9 W10 W11]. split; simpl; try done.
  - intros i' j [[<- <-]|[_ Hj]]%lookup_insert_Some; [|by apply (W8 i')]. split; simpl; try done.
    + intros r Hr. destruct (Hrows r Hr). by exists r.
    + by destruct pc.
    + by destruct pc.
  - intros i1 i2 j1 j2 p [[<- <-]|[N1 H1]]%lookup_insert_Some [[<- <-]|[N2 H2]]%lookup_insert_Some; simpl; intros P1 P2.
    + done.
    + destruct (Hq p P1) as [Ha _]. by destruct (Ha i2 j2 H2).
    + destruct (Hq p P2) as [Ha _]. by destruct (Ha i1 j1 H1).
    + by eapply W9.
  - intros i' jr t j p [[<- <-]|[_ Hj]]%lookup_insert_Some; simpl; intros Ht Hann Hp.
    + destruct (Hq p Hp) as [_ Hb]. by apply (Hb t).
    + by eapply (W10 i').
  - congruence.
Qed.

Lemma removal_rows w i rows pc r : inv' w → removals w !! i = Some (mkRemoval rows pc) → r ∈ rows →
  ∃ r', reg w !! row_path r = Some r' ∧ match pc with Claim _ => State r' ≠ AudioStaged | _ => State r' = AudioRemoving end.
Proof. intros Hw Hi Hr. apply (ri_reg _ _ _ _ (wi_removals _ _ Hw i _ Hi) r Hr). Qed.

(** The rows of a removal that has marked them. *)
Lemma removing_rows w i rows pc p r' : inv' w → removals w !! i = Some (mkRemoval rows pc) → claiming pc = false → p ∈ row_path <$> rows →
  reg w !! p = Some r' → State r' = AudioRemoving.
Proof.
  intros Hw Hi Hpc (r & -> & Hr)%list_elem_of_fmap Hp. destruct (removal_rows w i rows pc r Hw Hi Hr) as (s & E & Hs).
  rewrite Hp in E. injection E as <-. by destruct pc.
Qed.

Lemma R_claim_inv w i rows r now b :
  inv' w → removals w !! i = Some (mkRemoval rows (Claim b)) → head rows = Some r →
  inv' (on_rm i (mkRemoval rows Unpublish) (on_reg (MarkAudioProjectionsRemovingPaths (row_section r) (VirtualPath <$> rows) now (reg w)) w)).
Proof.
  intros Hw Hi Hhd. pose proof (wi_removals _ _ Hw i _ Hi) as [R1 R2 R3 R4 R5]. simpl in *.
  assert (Hr : r ∈ rows) by (destruct rows; [done|]; injection Hhd as ->; left).
  assert (Hpaths : pair (row_section r) <$> (VirtualPath <$> rows) = row_path <$> rows).
  { rewrite <-list_fmap_compose. apply list_fmap_ext. intros n s Hs. simpl. unfold row_path. f_equal. apply R2; [done|]. by eapply list_elem_of_lookup_2. }
  assert (Hl : ∀ k, MarkAudioProjectionsRemovingPaths (row_section r) (VirtualPath <$> rows) now (reg w) !! k =
    if decide (k ∈ row_path <$> rows) then marked now <$> reg w !! k else reg w !! k).
  { intros k. by rewrite mark_paths_lookup, Hpaths. }
  assert (Hm : ∀ s, s ∈ rows → ∃ s', reg w !! row_path s = Some s' ∧ State (marked now s') = AudioRemoving).
  { intros s Hs. destruct (R3 s Hs) as (s' & E & H). exists s'. split; [done|]. unfold marked. case_bool_decide; [done|]. by destruct (State s'). }
  apply (removal_frame stub_bytes w _ i (mkRemoval rows (Claim b))); cbn [reg fs ns adds removals up on_reg on_rm rm_rows]; try done.
  - intros i' Hne. by rewrite lookup_insert_ne.
  - intros j'. rewrite lookup_insert_eq. intros [= <-]. split; [done|]. split; simpl; try done.
    intros s Hs. destruct (Hm s Hs) as (s' & E & H). exists (marked now s'). split; [|done]. rewrite Hl, E.
    rewrite decide_True; [done|]. apply list_elem_of_fmap. by exists s.
  - by apply mark_paths_ok, (wi_reg _ _ Hw).
  - apply (wi_ids _ _ Hw).
  - intros p Hp. rewrite Hl, decide_False; done.
  - intros p r' Hp. rewrite Hl, decide_True by done. pose proof Hp as (s & -> & Hs)%list_elem_of_fmap. destruct (Hm s Hs) as (s' & E & H).
    rewrite E. simpl. intros [= <-]. exists s'. rewrite H. split_and!; try done; unfold marked; by case_bool_decide.
  - intros p o Hp Ho. split; [done|]. intros _. rewrite Hl, decide_True by done. pose proof Hp as (s & -> & Hs)%list_elem_of_fmap.
    destruct (Hm s Hs) as (s' & -> & _). by eexists.
  - intros p x Hp Hx. rewrite Hl, decide_True by done. pose proof Hp as (s & -> & Hs)%list_elem_of_fmap.
    destruct (Hm s Hs) as (s' & -> & _). by eexists.
Qed.

(** A step of a removal that leaves the registry alone. *)
Lemma removal_fs_step w i r rows pc pc' f n :
  inv' w → removals w !! i = Some (mkRemoval (r :: rows) pc) → claiming pc = false →
  (∀ p, p ≠ row_path r → f !! p = fs w !! p ∧ entries n !! p = entries (ns w) !! p) →
  (∀ o, f !! row_path r = Some o → fs w !! row_path r = Some o) →
  (∀ x, entries n !! row_path r = Some x → is_Some (entries (ns w) !! row_path r)) →
  rm_inv (reg w) f (entries n) (mkRemoval (r :: rows) pc') →
  inv' (on_rm i (mkRemoval (r :: rows) pc') (on_ns n (on_fs f w))).
Proof.
  intros Hw Hi Hpc Hout Hf Hn Hri. pose proof (wi_removals _ _ Hw i _ Hi) as Hri0.
  assert (Hback : ∀ p o, f !! p = Some o → fs w !! p = Some o).
  { intros p o Hp. destruct (decide (p = row_path r)) as [->|Hne]; [auto|]. by destruct (Hout p Hne) as [<- _]. }
  assert (Hrow : ∀ p, p ∈ row_path <$> (r :: rows) → is_Some (reg w !! p)).
  { intros p (s & -> & Hs)%list_elem_of_fmap. destruct (removal_rows w i _ pc s Hw Hi Hs) as (s' & -> & _). by exists s'. }
  apply (removal_frame stub_bytes w _ i (mkRemoval (r :: rows) pc)); cbn [reg fs ns adds removals up on_ns on_fs on_rm rm_rows]; try done.
  - intros i' Hne. by rewrite lookup_insert_ne.
  - intros j'. rewrite lookup_insert_eq. intros [= <-]. done.
  - apply (wi_reg _ _ Hw).
  - intros p q o o' Hp Hq. apply (wi_ids _ _ Hw); by apply Hback.
  - intros p Hp. split; [done|]. apply Hout. intros ->. apply Hp. left.
  - intros p r' Hp Hr'. exists r'. rewrite (removing_rows w i _ pc p r' Hw Hi Hpc Hp Hr'). by split_and!.
  - intros p o Hp Ho. split; [by apply Hback|]. intros _. by apply Hrow.
  - intros p x Hp Hx. by apply Hrow.
Qed.

Lemma R_unpublish_inv w i r rows :
  inv' w → removals w !! i = Some (mkRemoval (r :: rows) Unpublish) →
  inv' (on_rm i (mkRemoval (r :: rows) Stat) (on_ns (Ns_Remove (row_path r) (ns w)) w)).
Proof.
  intros Hw Hi. pose proof (wi_removals _ _ Hw i _ Hi) as [R1 R2 R3 R4 R5].
  change (on_ns ?n w) with (on_ns n (on_fs (fs w) w)). apply (removal_fs_step w i r rows Unpublish); try done.
  - intros p Hp. split; [done|]. simpl. by rewrite lookup_delete_ne.
  - intros x. simpl. by rewrite lookup_delete_eq.
  - split; simpl in *; try done. intros s [= <-]. apply lookup_delete_eq.
Qed.

Lemma removal_pc_step w i r rows pc pc' :
  inv' w → removals w !! i = Some (mkRemoval (r :: rows) pc) → claiming pc = false → pc ≠ Unpublish → claiming pc' = false →
  (∀ o, fs w !! row_path r = Some o → is_Some (fo_owner o) → match pc' with Unlink id => fo_id o = id | Forget => False | _ => True end) →
  inv' (on_rm i (mkRemoval (r :: rows) pc') w).
Proof.
  intros Hw Hi Hpc Hpu Hpc' Hfile. pose proof (wi_removals _ _ Hw i _ Hi) as [R1 R2 R3 R4 R5].
  change (on_rm i ?j w) with (on_rm i j (on_ns (ns w) (on_fs (fs w) w))). apply (removal_fs_step w i r rows pc); try done.
  split; simpl in *; try done.
  - intros s Hs. destruct (R3 s Hs) as (s' & E & H). exists s'. split; [done|]. by destruct pc, pc'.
  - intros s Hs. specialize (R4 s Hs). by destruct pc, pc'.
  - intros s o [= <-]. apply Hfile.
Qed.

Lemma R_unlink_inv w i r rows id :
  inv' w → removals w !! i = Some (mkRemoval (r :: rows) (Unlink id)) →
  inv' (on_rm i (mkRemoval (r :: rows) Forget) (on_fs (RemoveStagedIfIdentity (row_path r) id (fs w)).1 w)).
Proof.
  intros Hw Hi. pose proof (wi_removals _ _ Hw i _ Hi) as [R1 R2 R3 R4 R5]. simpl in *.
  assert (Hl : ∀ o, (RemoveStagedIfIdentity (row_path r) id (fs w)).1 !! row_path r = Some o → fs w !! row_path r = Some o ∧ fo_owner o = None).
  { intros o. unfold RemoveStagedIfIdentity. destruct (fs w !! row_path r) as [o'|] eqn:E; [|by simpl; rewrite E].
    case_bool_decide as Eid; simpl; [by rewrite lookup_delete_eq|]. rewrite E. intros [= ->]. split; [done|].
    destruct (fo_owner o) eqn:Eo; [|done]. destruct Eid. apply (R5 r o); [done|done|by rewrite Eo]. }
  change (on_fs ?f w) with (on_ns (ns w) (on_fs f w)). apply (removal_fs_step w i r rows (Unlink id)); try done.
  - intros p Hp. split; [|done]. unfold RemoveStagedIfIdentity. destruct (fs w !! row_path r); [|done].
    case_bool_decide; [|done]. simpl. by rewrite lookup_delete_ne.
  - intros o Ho. by apply Hl.
  - split; simpl; try done. intros s o [= <-] Ho [t Ht]. destruct (Hl o Ho) as [_ H]. congruence.
Qed.

Lemma R_forget_inv w i r rows :
  inv' w → removals w !! i = Some (mkRemoval (r :: rows) Forget) →
  inv' (on_rm i (mkRemoval rows Unpublish) (on_reg (DeleteAudioProjection (row_section r) (VirtualPath r) (reg w)) w)).
Proof.
  intros Hw Hi. pose proof (wi_removals _ _ Hw i _ Hi) as [R1 R2 R3 R4 R5]. simpl in *.
  change (DeleteAudioProjection (row_section r) (VirtualPath r) (reg w)) with (delete (row_path r) (reg w)).
  apply list.NoDup_cons in R1 as [Rn R1].
  assert (Hrow : ∀ s, s ∈ rows → ∃ s', delete (row_path r) (reg w) !! row_path s = Some s' ∧ State s' = AudioRemoving).
  { intros s Hs. destruct (R3 s) as (s' & E & H); [by right|]. exists s'. split; [|done]. rewrite lookup_delete_ne; [done|].
    intros E'. apply Rn. rewrite E'. apply list_elem_of_fmap. by exists s. }
  assert (Hsome : ∀ p, p ∈ row_path <$> (r :: rows) → p ≠ row_path r → is_Some (delete (row_path r) (reg w) !! p)).
  { intros p (s & -> & [->|Hs]%elem_of_cons)%list_elem_of_fmap Hne; [done|]. destruct (Hrow s Hs) as (s' & -> & _). by exists s'. }
  apply (removal_frame stub_bytes w _ i (mkRemoval (r :: rows) Forget)); cbn [reg fs ns adds removals up on_reg on_rm rm_rows]; try done.
  - intros i' Hne. by rewrite lookup_insert_ne.
  - intros j'. rewrite lookup_insert_eq. intros [= <-]. split; [by intros s Hs; right|]. split; simpl; try done.
    intros a b Ha Hb. apply R2; by right.
  - apply delete_ok. apply (wi_reg _ _ Hw).
  - apply (wi_ids _ _ Hw).
  - intros p Hp. split; [|done]. rewrite lookup_delete_ne; [done|]. intros <-. apply Hp. left.
  - intros p r' Hp [_ Hr']%lookup_delete_Some. exists r'. rewrite (removing_rows w i _ Forget p r' Hw Hi ltac:(done) Hp Hr'). by split_and!.
  - intros p o Hp Ho. split; [done|]. intros Hs. apply Hsome; [done|]. intros ->. by apply (R5 r o).
  - intros p x Hp Hx. apply Hsome; [done|]. intros ->. rewrite (R4 r eq_refl) in Hx. done.
Qed.

Lemma R_end_inv w i j : inv' w → removals w !! i = Some j → inv' (end_rm i w).
Proof.
  intros [W1 W2 W3 W4 W5 W6 W7 W8 W9 W10 W11] Hi. split; simpl; try done.
  - intros i' j' [_ Hj]%lookup_delete_Some. by apply (W8 i').
  - intros i1 i2 j1 j2 p [_ H1]%lookup_delete_Some [_ H2]%lookup_delete_Some. by eapply W9.
  - intros i' jr t jx p [_ Hj]%lookup_delete_Some. by apply (W10 i').
  - intros E. destruct (W11 E) as (-> & E2 & ->). rewrite E2. by rewrite delete_empty.
Qed.

(** ** Everybody else *)

Lemma outside_inv w f :
  inv' w → ids_unique f → (∀ p o, is_Some (fo_owner o) → f !! p = Some o ↔ fs w !! p = Some o) → inv' (on_fs f w).
Proof.
  intros [W1 W2 W3 W4 W5 W6 W7 W8 W9 W10 W11] Hids Hf. split; simpl; try done.
  - intros p r Hp Hc. destruct (W4 p r Hp Hc) as [id Hid]. exists id. by apply Hf.
  - intros p o t Hp Ho. apply (W5 p o); [apply Hf; [by exists t|done]|done].
  - intros t j Hj. apply (job_frame _ _ _ (reg w) _ (fs w)); [by apply W7|done|]. intros p o Ho. symmetry. apply Hf. by exists t.
  - intros i j Hj. apply (rm_frame (reg w) _ (fs w) _ (entries (ns w))); [by apply (W8 i)|done|done|]. intros r o _ Ho Hs. by apply Hf.
Qed.

Lemma E_put_inv w p o : inv' w → fs w !! p = None → id_free (fo_id o) (fs w) → fo_owner o = None → inv' (on_fs (<[p := o]> (fs w)) w).
Proof.
  intros Hw Hp Hid Ho. apply outside_inv; [done| |].
  - apply ids_insert; [apply (wi_ids _ _ Hw)|]. intros q x _ Hx. by apply Hid in Hx.
  - intros q x [t Ht]. destruct (decide (p = q)) as [<-|Hne]; [|by rewrite lookup_insert_ne].
    rewrite lookup_insert_eq, Hp. split; [intros [= <-]; congruence|done].
Qed.

Lemma E_drop_inv w p o : inv' w → fs w !! p = Some o → fo_owner o = None → inv' (on_fs (delete p (fs w)) w).
Proof.
  intros Hw Hp Ho. apply outside_inv; [done|by apply ids_delete, (wi_ids _ _ Hw)|].
  intros q x [t Ht]. destruct (decide (p = q)) as [<-|Hne]; [|by rewrite lookup_delete_ne].
  rewrite lookup_delete_eq, Hp. split; [done|intros [= <-]; congruence].
Qed.

Lemma E_crash_inv w : inv' w → inv' (mkWorld (reg w) (fs w) NewAudioNamespace ∅ ∅ false).
Proof. intros [W1 W2 W3 W4 W5 W6 W7 W8 W9 W10 W11]. by split. Qed.
End removal_steps.

(** ** Recovery *)

Lemma remove_names_spec (ok : AudioPath → bool) (rows : list AudioProjection) (f : files) :
  (remove_names ok rows f).1 ⊆ f ∧
  (∀ p, (∀ x, x ∈ rows → p ≠ row_path x ∧ p ≠ stage_path x) → (remove_names ok rows f).1 !! p = f !! p) ∧
  ((remove_names ok rows f).2 = true → ∀ x, x ∈ rows → StagingName x ≠ "" →
     (remove_names ok rows f).1 !! row_path x = None ∧ (remove_names ok rows f).1 !! stage_path x = None) ∧
  ((∀ p, ok p = true) → (remove_names ok rows f).2 = true).
Proof.
  revert f. induction rows as [|r rows IH]; intros f.
  { split_and!; [done|done|by intros _ x ?%elem_of_nil|done]. }
  set (f1 := delete (row_path r) f).
  set (o2 := if String.eqb (StagingName r) "" then Some f1 else RemoveStaged ok (stage_path r) f1).
  assert (remove_names ok (r :: rows) f =
    if ok (row_path r) then match o2 with None => (f1, false) | Some f2 => remove_names ok rows f2 end else (f, false)) as ->.
  { cbn [remove_names]. unfold RemoveStaged at 1. by destruct (ok (row_path r)). }
  destruct (ok (row_path r)) eqn:E1; cbn [fst snd]; last first.
  { split_and!; [done|done|done|]. intros H. by rewrite H in E1. }
  assert (Ho2 : match o2 with
                | None => ¬ (∀ p, ok p = true)
                | Some f2 => f2 ⊆ f1 ∧ (∀ p, p ≠ stage_path r → f2 !! p = f1 !! p) ∧ (StagingName r ≠ "" → f2 !! stage_path r = None)
                end).
  { unfold o2. destruct (String.eqb_spec (StagingName r) "") as [Es|Es]; [by split_and!|]. unfold RemoveStaged.
    destruct (ok (stage_path r)) eqn:E2; [|intros H; by rewrite H in E2].
    split_and!; [apply delete_subseteq|by intros; rewrite lookup_delete_ne|intros _; apply lookup_delete_eq]. }
  destruct o2 as [f2|]; cbn [fst snd]; last first.
  { split_and!; [apply delete_subseteq| |done|done]. intros p Hp. unfold f1. rewrite lookup_delete_ne; [done|].
    destruct (Hp r) as [H _]; [left|]. congruence. }
  destruct Ho2 as (Hs2 & Hk2 & Hn2). destruct (IH f2) as (I1 & I2 & I3 & I4).
  split_and!; [|intros p Hp|intros Hd x [->|Hx]%elem_of_cons Hne; [|by apply I3]|done].
  - etrans; [done|]. etrans; [done|]. apply delete_subseteq.
  - destruct (Hp r) as [H1 H2]; [left|]. rewrite I2, Hk2 by (done || (intros x Hx; apply Hp; by right)). unfold f1.
    rewrite lookup_delete_ne; congruence.
  - rewrite map_subseteq_spec in I1. assert (Hnone : ∀ p, f2 !! p = None → (remove_names ok rows f2).1 !! p = None).
    { intros p Hp. destruct ((remove_names ok rows f2).1 !! p) as [o|] eqn:E; [|done]. apply I1 in E. congruence. }
    split; [|by apply Hnone, Hn2]. apply Hnone. destruct (f2 !! row_path r) as [o|] eqn:E; [|done].
    rewrite map_subseteq_spec in Hs2. apply Hs2 in E. unfold f1 in E. by rewrite lookup_delete_eq in E.
Qed.

Section recovering.
Context (stub_bytes : string → Z → Z → string → string → string → Z → Z → list Byte.byte).
Context (stub_agrees : list Byte.byte → AudioProjection → bool).
Local Abbreviation has_stub' := (has_stub stub_bytes).
Local Abbreviation inv' := (inv stub_bytes).

(** The part of the invariant that survives a crash. *)
Record kept (s : registry * files) : Prop := {
  k_reg : reg_ok s.1;
  k_shape p r : s.1 !! p = Some r → row_shaped (TxnID r) r ∧ TxnID r ≠ "";
  k_ids : ids_unique s.2;
  k_committed p r : s.1 !! p = Some r → State r = AudioCommitted → has_stub' s.2 p r;
  k_owned p o t : s.2 !! p = Some o → fo_owner o = Some t → accounted s.1 t p
}.

(** What recovery has done so far. *)
Record recovered (s0 s : registry * files) : Prop := {
  rv_kept : kept s;
  rv_rows : s.1 ⊆ s0.1;
  rv_committed p r : s0.1 !! p = Some r → State r = AudioCommitted → s.1 !! p = Some r
}.

Lemma recovered_trans s0 s1 s2 : recovered s0 s1 → recovered s1 s2 → recovered s0 s2.
Proof. intros [K1 R1 C1] [K2 R2 C2]. split; [done|by etrans|]. intros p r Hp Hc. by apply C2; [apply C1|]. Qed.

(** Names of staged rows are not the paths of other rows. *)
Lemma staged_names s x p r : kept s → s.1 !! p = Some r → s.1 !! row_path x = Some x ∨ s.1 !! row_path x = None →
  row_shaped (TxnID x) x → State r ≠ State x → p ≠ row_path x ∧ p ≠ stage_path x.
Proof.
  intros Hk Hp Hx Hsh Hs. split.
  - intros ->. destruct Hx as [Hx|Hx]; rewrite Hp in Hx; [|done]. by injection Hx as ->.
  - intros ->. apply (staging_hidden _ x Hsh). destruct (k_shape _ Hk _ _ Hp) as [[Hop _] _].
    pose proof (ro_path _ (k_reg _ Hk) _ _ Hp) as Ep. unfold stage_path, row_path in Ep. injection Ep as _ ->. done.
Qed.

Lemma below_lookup (s0 s : registry) p x : reg_ok s0 → s ⊆ s0 → s0 !! p = Some x → s !! p = Some x ∨ s !! p = None.
Proof.
  intros Hok Hs Hx. rewrite map_subseteq_spec in Hs. destruct (s !! p) as [y|] eqn:E; [left|by right]. apply Hs in E. congruence.
Qed.

Lemma recover_txn_step (ok : AudioPath → bool) (t : string) (s0 s : registry * files) :
  kept s0 → recovered s0 s →
  let s' := recoverStagedTransaction ok t (filter (λ x, TxnID x = t) (staged_rows s0.1)) s in
  recovered s s' ∧ ((∀ p, ok p = true) → ∀ p r, s'.1 !! p = Some r → ¬ (TxnID r = t ∧ State r = AudioStaged)).
Proof.
  intros Hk0 [Hk Hsub _]. set (rows := filter _ _). unfold recoverStagedTransaction.
  destruct (remove_names_spec ok rows s.2) as (N1 & N2 & N3 & N4). destruct (remove_names ok rows s.2) as [f done]. simpl in *.
  assert (Hrows : ∀ x, x ∈ rows ↔ ∃ p, s0.1 !! p = Some x ∧ TxnID x = t ∧ State x = AudioStaged).
  { intros x. unfold rows, staged_rows, AudioProjectionsByState. rewrite !list_elem_of_filter, rows_where_spec, bool_decide_eq_true. split.
    - intros (Ht & _ & Hs & p & Hp). by exists p.
    - intros (p & Hp & Ht & Hs). split_and!; [done|by apply (k_shape _ Hk0 p)|done|by exists p]. }
  assert (Hcur : ∀ p r, s.1 !! p = Some r → TxnID r = t → State r = AudioStaged → r ∈ rows ∧ StagingName r ≠ "").
  { intros p r Hp Ht Hs. rewrite map_subseteq_spec in Hsub. apply Hsub in Hp. split; [apply Hrows; by exists p|].
    destruct (k_shape _ Hk0 p r Hp) as [[_ [i ->]] _]. done. }
  assert (Hrow : ∀ k r, (if done then RollbackAudioProjections t s.1 else s.1) !! k = Some r → s.1 !! k = Some r ∧
    (done = true → ¬ (TxnID r = t ∧ State r = AudioStaged))).
  { intros k r. destruct done; [|done]. intros [Hr Hn]%lookup_rollback. split; [done|]. intros _ [Ht Hs].
    unfold in_txn in Hn. by rewrite Ht, Hs, String.eqb_refl in Hn. }
  assert (Hkeep : ∀ p r, s.1 !! p = Some r → State r = AudioCommitted → (if done then RollbackAudioProjections t s.1 else s.1) !! p = Some r ∧ f !! p = s.2 !! p).
  { intros p r Hp Hc. split.
    - destruct done; [|done]. apply lookup_rollback. split; [done|]. unfold in_txn. rewrite Hc. apply andb_false_r.
    - apply N2. intros x Hx. apply Hrows in Hx as (q & Hq & Ht & Hs). pose proof (ro_path _ (k_reg _ Hk0) _ _ Hq) as ->.
      apply (staged_names s x p r); [done|done| |by destruct (k_shape _ Hk0 _ _ Hq)|congruence].
      apply (below_lookup s0.1); [apply (k_reg _ Hk0)|done|done]. }
  rewrite map_subseteq_spec in N1. split; [|intros Hok; intros p r Hp; destruct (Hrow p r Hp) as [_ H]; by apply H, N4].
  split; [split; simpl| |].
  - destruct done; [by apply rollback_ok, k_reg|by apply k_reg].
  - intros p r Hp. apply (k_shape _ Hk p). by apply Hrow.
  - intros p q o o' Hp Hq. apply (k_ids _ Hk); by apply N1.
  - intros p r Hp Hc. destruct (Hrow p r Hp) as [Hp0 _]. destruct (k_committed _ Hk p r Hp0 Hc) as [id Hid]. exists id.
    by destruct (Hkeep p r Hp0 Hc) as [_ ->].
  - intros p o t' Hp Ho. destruct (k_owned _ Hk p o t' (N1 _ _ Hp) Ho) as (k & r & Hr & Ht & Hpos). destruct done; [|by exists k, r].
    exists k, r. split_and!; [|done|done]. apply lookup_rollback. split; [done|]. apply not_true_is_false. intros Hin.
    unfold in_txn in Hin. apply andb_true_iff in Hin as [Hin%String.eqb_eq Hs%bool_decide_eq_true].
    destruct (Hcur k r Hr Hin Hs) as [Hx Hne]. destruct (N3 eq_refl r Hx Hne) as [E1 E2].
    pose proof (ro_path _ (k_reg _ Hk) _ _ Hr) as ->. destruct Hpos as [->|[-> _]]; congruence.
  - simpl. apply map_subseteq_spec. intros p r Hp. by apply Hrow.
  - intros p r Hp Hc. by apply Hkeep.
Qed.

Lemma recovered_refl s : kept s → recovered s s.
Proof. by split. Qed.

Lemma recover_staged ok s0 :
  kept s0 → recovered s0 (RecoverStagedAudioTransactions ok s0) ∧
  ((∀ p, ok p = true) → ∀ p r, (RecoverStagedAudioTransactions ok s0).1 !! p = Some r → State r ≠ AudioStaged).
Proof.
  intros Hk. unfold RecoverStagedAudioTransactions.
  enough (Hl : ∀ l s, recovered s0 s → let s' := foldl (λ s' t, recoverStagedTransaction ok t (filter (λ x, TxnID x = t) (staged_rows s0.1)) s') s l in
    recovered s0 s' ∧ s'.1 ⊆ s.1 ∧ ((∀ p, ok p = true) → ∀ p r, s'.1 !! p = Some r → State r = AudioStaged → TxnID r ∉ l)).
  { destruct (Hl (transactions s0.1) s0 (recovered_refl _ Hk)) as (H1 & H2 & H3). split; [done|]. intros Hok p r Hp Hs.
    apply (H3 Hok p r Hp Hs). pose proof (rv_rows _ _ H1) as Hsub. rewrite map_subseteq_spec in Hsub. apply Hsub in Hp.
    unfold transactions. apply elem_of_remove_dups, list_elem_of_fmap. exists r. split; [done|]. unfold staged_rows.
    apply list_elem_of_filter. split; [by apply (k_shape _ Hk p)|]. apply rows_where_spec. rewrite bool_decide_eq_true. eauto. }
  induction l as [|t l IH]; intros s Hs; simpl; [split_and!; [done|done|intros _ p r _ _ H; by apply elem_of_nil in H]|].
  destruct (recover_txn_step ok t s0 s Hk Hs) as [Hr Hgone].
  destruct (IH _ (recovered_trans _ _ _ Hs Hr)) as (I1 & I2 & I3). split_and!; [done|etrans; [done|apply (rv_rows _ _ Hr)]|].
  intros Hok p r Hp Hst [Et|Hin]%elem_of_cons; [|by apply (I3 Hok p r)].
  rewrite map_subseteq_spec in I2. apply I2 in Hp. by apply (Hgone Hok p r Hp).
Qed.

Lemma recover_removing_step (ok : AudioPath → bool) (x : AudioProjection) (s0 s : registry * files) :
  kept s0 → recovered s0 s → s0.1 !! row_path x = Some x → State x = AudioRemoving →
  recovered s (recover_removing ok x s) ∧ ((∀ p, ok p = true) → (recover_removing ok x s).1 !! row_path x = None).
Proof.
  intros Hk0 [Hk Hsub _] Hx Hst. unfold recover_removing, RemoveStaged. destruct (ok (row_path x)) eqn:Eok; last first.
  { split; [by apply recovered_refl|]. intros H. by rewrite H in Eok. }
  change (DeleteAudioProjection (row_section x) (VirtualPath x) s.1) with (delete (row_path x) s.1).
  pose proof (below_lookup _ _ _ _ (k_reg _ Hk0) Hsub Hx) as Hcur.
  assert (Hne : ∀ p r, s.1 !! p = Some r → State r ≠ AudioRemoving → row_path x ≠ p).
  { intros p r Hp Hs <-. destruct Hcur as [E|E]; rewrite Hp in E; [|done]. by injection E as ->. }
  split; [|intros _; apply lookup_delete_eq]. split; [split; cbn [fst snd]| |].
  - by apply delete_ok, k_reg.
  - intros p r [_ Hp]%lookup_delete_Some. by apply (k_shape _ Hk p).
  - by apply ids_delete, k_ids.
  - intros p r [Hn Hp]%lookup_delete_Some Hc. destruct (k_committed _ Hk p r Hp Hc) as [id Hid]. exists id. by rewrite lookup_delete_ne.
  - intros p o t [Hn Hp]%lookup_delete_Some Ho. destruct (k_owned _ Hk p o t Hp Ho) as (k & r & Hr & Ht & Hpos).
    exists k, r. split_and!; [|done|done]. rewrite lookup_delete_ne; [done|]. intros E. subst k.
    destruct Hcur as [E|E]; rewrite Hr in E; [|done]. injection E as ->. destruct Hpos as [->|[_ Hs]]; [done|congruence].
  - apply delete_subseteq.
  - intros p r Hp Hc. cbn [fst]. rewrite lookup_delete_ne; [done|]. apply (Hne p r Hp). congruence.
Qed.

Lemma recover_removed ok s0 :
  kept s0 → recovered s0 (RecoverRemovingAudioProjections ok s0) ∧
  ((∀ p, ok p = true) → ∀ p r, (RecoverRemovingAudioProjections ok s0).1 !! p = Some r → State r ≠ AudioRemoving).
Proof.
  intros Hk. unfold RecoverRemovingAudioProjections.
  assert (Hrows : ∀ x, x ∈ AudioProjectionsByState s0.1 AudioRemoving → s0.1 !! row_path x = Some x ∧ State x = AudioRemoving).
  { intros x (Hs%bool_decide_eq_true & k & Hx)%rows_where_spec. split; [|done]. by rewrite <-(ro_path _ (k_reg _ Hk) _ _ Hx). }
  enough (Hl : ∀ l s, recovered s0 s → (∀ x, x ∈ l → s0.1 !! row_path x = Some x ∧ State x = AudioRemoving) →
    let s' := foldl (λ s' r, recover_removing ok r s') s l in
    recovered s0 s' ∧ s'.1 ⊆ s.1 ∧ ((∀ p, ok p = true) → ∀ x, x ∈ l → s'.1 !! row_path x = None)).
  { destruct (Hl _ s0 (recovered_refl _ Hk) Hrows) as (H1 & H2 & H3). split; [done|]. intros Hok p r Hp Hs.
    pose proof Hp as Hp0. rewrite map_subseteq_spec in H2. apply H2 in Hp0. pose proof (ro_path _ (k_reg _ Hk) _ _ Hp0) as Ep.
    rewrite Ep in Hp. rewrite (H3 Hok r) in Hp; [done|]. apply rows_where_spec. rewrite bool_decide_eq_true. eauto. }
  induction l as [|x l IH]; intros s Hs Hx; simpl; [split_and!; [done|done|intros _ y H; by apply elem_of_nil in H]|].
  destruct (Hx x) as [Hxx Hxs]; [left|]. destruct (recover_removing_step ok x s0 s Hk Hs Hxx Hxs) as [Hr Hgone].
  destruct (IH _ (recovered_trans _ _ _ Hs Hr)) as (I1 & I2 & I3); [intros y Hy; apply Hx; by right|].
  split_and!; [done|etrans; [done|apply (rv_rows _ _ Hr)]|].
  intros Hok y [->|Hy]%elem_of_cons; [|by apply I3]. rewrite map_subseteq_spec in I2.
  match goal with |- ?m !! _ = _ => destruct (m !! row_path x) as [z|] eqn:E; [|done] end. apply I2 in E. by rewrite (Hgone Hok) in E.
Qed.

(** Reconciliation publishes committed rows. *)
Lemma reconciled_entries r0 f p x : reg_ok r0 → by_path (reconciled stub_agrees r0 f) !! p = Some x ↔
  ∃ r, r0 !! p = Some r ∧ State r = AudioCommitted ∧ healthy stub_agrees f r = true ∧ x = projection_of r.
Proof.
  intros Hok. unfold reconciled. set (l := filter _ _).
  assert (Hin : ∀ r, r ∈ l ↔ r0 !! row_path r = Some r ∧ State r = AudioCommitted ∧ healthy stub_agrees f r = true).
  { intros r. unfold l, CommittedAudioProjections. rewrite list_elem_of_filter, list.elem_of_app, !rows_where_spec. simpl. split.
    - intros (Hh & [(Hs & k & Hr)|(Hs & k & Hr)]); apply andb_true_iff in Hs as [Hs%bool_decide_eq_true _];
        by rewrite <-(ro_path _ Hok _ _ Hr).
    - intros (Hr & Hs & Hh). split; [done|]. pose proof (ro_checks _ Hok _ _ Hr) as Hc. unfold row_checks in Hc.
      rewrite !andb_true_iff, orb_true_iff in Hc. rewrite bool_decide_eq_true_2 by done. simpl.
      destruct Hc as [[[[[Hc|Hc] _] _] _] _]; [left|right]; rewrite Hc; eauto. }
  assert (Hlook : ∀ l', (∀ r, r ∈ l' → r0 !! row_path r = Some r) → by_path (projection_of <$> l') !! p = Some x ↔ ∃ r, r ∈ l' ∧ p = row_path r ∧ x = projection_of r).
  { clear l Hin. induction l' as [|r l' IH] using rev_ind; intros Hl.
    { split; [done|]. intros (r & H & _). by apply elem_of_nil in H. }
    rewrite fmap_app. change (projection_of <$> [r]) with [projection_of r]. rewrite by_path_app. change (proj_path (projection_of r)) with (row_path r).
    assert (Hl' : ∀ y, y ∈ l' → r0 !! row_path y = Some y) by (intros y Hy; apply Hl, list.elem_of_app; by left).
    assert (Hr : r0 !! row_path r = Some r) by (apply Hl, list.elem_of_app; right; left).
    destruct (decide (row_path r = p)) as [<-|Hne].
    - rewrite lookup_insert_eq. split.
      + intros [= <-]. exists r. split_and!; [apply list.elem_of_app; right; left|done|done].
      + intros (y & Hy & E & ->). apply Hl in Hy. rewrite <-E, Hr in Hy. by injection Hy as ->.
    - rewrite lookup_insert_ne, (IH Hl') by done. split.
      + intros (y & Hy & H). exists y. split; [apply list.elem_of_app; by left|done].
      + intros (y & [Hy| ->%list_elem_of_singleton]%list.elem_of_app & E & H); [by exists y|congruence]. }
  rewrite Hlook by (intros r Hr; by apply Hin). split.
  - intros (r & (H1 & H2 & H3)%Hin & -> & ->). by exists r.
  - intros (r & H1 & H2 & H3 & ->). pose proof (ro_path _ Hok _ _ H1) as ->. exists r. split; [|done]. by apply Hin.
Qed.

(** A boot, as a whole. *)
Lemma boot_spec ok w :
  inv' w → up w = false →
  let w' := boot stub_agrees ok w in
  recovered (reg w, fs w) (reg w', fs w') ∧ adds w' = ∅ ∧ removals w' = ∅ ∧ up w' = true ∧
  (∀ p x, entries (ns w') !! p = Some x ↔ ∃ r, reg w' !! p = Some r ∧ State r = AudioCommitted ∧ healthy stub_agrees (fs w') r = true ∧ x = projection_of r) ∧
  ((∀ p, ok p = true) → ∀ p r, reg w' !! p = Some r → State r = AudioCommitted).
Proof.
  intros Hw Hup. destruct (wi_down _ _ Hw Hup) as (Ha & Hr & Hn).
  assert (Hk : kept (reg w, fs w)) by (destruct Hw; by split).
  destruct (recover_staged ok _ Hk) as [R1 G1]. destruct (recover_removed ok _ (rv_kept _ _ R1)) as [R2 G2].
  pose proof (recovered_trans _ _ _ R1 R2) as R. unfold boot. cbn zeta.
  destruct (RecoverRemovingAudioProjections ok _) as [r' f'] eqn:E. simpl in *.
  assert (Hent : ∀ p, (∅ ∪ by_path (reconciled stub_agrees r' f')) !! p = by_path (reconciled stub_agrees r' f') !! p) by (intros p; by rewrite (left_id_L ∅ (∪))).
  split_and!; [done|done|done|done| |].
  - intros p x. rewrite Hn. simpl. rewrite Hent. apply reconciled_entries, (k_reg _ (rv_kept _ _ R)).
  - intros Hok p r Hp. specialize (G2 Hok p r Hp). pose proof (rv_rows _ _ R2) as Hsub. rewrite map_subseteq_spec in Hsub.
    apply Hsub in Hp. specialize (G1 Hok p r Hp). by destruct (State r).
Qed.

Lemma E_boot_inv ok w : inv' w → up w = false → inv' (boot stub_agrees ok w).
Proof.
  intros Hw Hup. destruct (boot_spec ok w Hw Hup) as (R & Ha & Hr & Hu & He & _). destruct (rv_kept _ _ R) as [K1 K2 K3 K4 K5].
  set (w' := boot stub_agrees ok w) in *. split; try done.
  - intros p x Hx. apply He in Hx as (r & Hr' & Hc & _). exists r. split; [done|]. by rewrite Hc.
  - rewrite Ha. intros t j. by rewrite lookup_empty.
  - rewrite Hr. intros t j. by rewrite lookup_empty.
  - rewrite Hr. intros i i' j j' r. by rewrite lookup_empty.
  - rewrite Hr. intros i jr t j p. by rewrite lookup_empty.
Qed.
End recovering.
