(* ===== verification/TxnRuns.v ===== *)
(** * Runs of the audio transactions

    The theorems about every calm run, a sample run that shows they apply, and what the
    code leaves to chance. *)

From Stdlib Require Import Ascii String.
From S2P Require Import Prelude GoFloat GoStrings Flac Cue CueSplit Paths Sources AudioRegistry Stub AudioNamespace AudioTxn TxnInv.
Local Open Scope string_scope.
Local Open Scope Z_scope.

(** ** What every run keeps *)

Section runs.
Context (stub_bytes : string → Z → Z → string → string → string → Z → Z → list Byte.byte).
Context (stub_agrees : list Byte.byte → AudioProjection → bool).
Local Abbreviation inv' := (inv stub_bytes).

Lemma start_inv f : foreign_files f → inv' (start f).
Proof.
  intros [Hf Hids]. split; simpl; try done.
  intros p o t Hp Ho. rewrite (Hf p o Hp) in Ho. done.
Qed.

Lemma add_step_inv t w w' : inv' w → add_step stub_bytes t w w' → calm (Add t) w w' → inv' w'.
Proof.
  intros Hw Hs Hc. inversion Hs; subst; simpl in Hc.
  - apply T_stage_inv; auto.
  - by apply T_create_inv.
  - apply turn_inv; try done; match goal with H : aj_pc _ = _ |- _ => by rewrite H end.
  - by apply T_write_inv.
  - by eapply T_write_fail_inv.
  - by apply T_written_inv.
  - by eapply T_publish_inv.
  - apply turn_inv; try done; match goal with H : aj_pc _ = _ |- _ => by rewrite H end.
  - by eapply T_publish_sync_inv.
  - by apply T_published_inv.
  - by apply T_commit_inv.
  - exfalso. match goal with H : _ ≠ len _ |- _ => apply H end. simpl.
    eapply commit_count; [apply (wi_reg _ _ Hw)|by apply (wi_adds _ _ Hw)|]. match goal with H : aj_pc _ = _ |- _ => by rewrite H end.
  - apply turn_inv; try done; match goal with H : aj_pc _ = _ |- _ => by rewrite H end.
  - by apply T_announce_inv.
  - by eapply T_unwind_inv.
  - by eapply T_unwind_error_inv.
  - by eapply T_unwound_inv.
  - by eapply T_unwound_fail_inv.
Qed.

Lemma read_facts w i rows pc : inv' w → removals w !! i = None → calm (Removal i) w (on_rm i (mkRemoval rows pc) w) →
  up w = true ∧ ∀ p, p ∈ row_path <$> rows → quiet w p.
Proof.
  intros Hw Hi Hc. destruct (Hc Hi) as [Hu Hq]. split; [done|]. intros p Hp.
  apply (Hq (mkRemoval rows pc)); [apply lookup_insert_eq|done].
Qed.

Lemma removal_step_inv i w w' : inv' w → removal_step i w w' → calm (Removal i) w w' → inv' w'.
Proof.
  intros Hw Hs Hc. pose proof (wi_reg _ _ Hw) as Hok. inversion Hs; subst.
  - destruct (read_facts w i _ _ Hw ltac:(done) Hc) as [Hu Hq]. apply start_removal_inv; try done.
    + apply list.NoDup_singleton.
    + intros a b Ha Hb. apply list_elem_of_singleton in Ha, Hb. congruence.
    + by case_bool_decide.
    + intros a Ha. apply list_elem_of_singleton in Ha as ->.
      match goal with H : reg w !! p = Some r |- _ => rewrite <-(ro_path _ Hok _ _ H); split; [done|] end.
      case_bool_decide; [done|]. by destruct (State r).
  - destruct (read_facts w i _ _ Hw ltac:(done) Hc) as [Hu Hq].
    assert (Hr : ∀ r, r ∈ AudioProjectionsByPrefix (reg w) sec pfx → reg w !! row_path r = Some r ∧ State r ≠ AudioStaged ∧ row_section r = sec).
    { intros r (Hb & k & Hk)%rows_where_spec. rewrite !andb_true_iff, negb_true_iff in Hb. destruct Hb as [[Hb1%String.eqb_eq Hb2%bool_decide_eq_false] _].
      by rewrite <-(ro_path _ Hok _ _ Hk). }
    apply start_removal_inv; try done.
    + by apply rows_where_paths.
    + intros a b Ha Hb. destruct (Hr a Ha) as (_ & _ & ->). by destruct (Hr b Hb) as (_ & _ & ->).
    + intros a Ha. destruct (Hr a Ha) as (Ha1 & Ha2 & _). done.
  - change ((MarkAudioProjectionRemoving (row_section r) (VirtualPath r) now (reg w)).1) with
      (MarkAudioProjectionsRemovingPaths (row_section r) (VirtualPath <$> [r]) now (reg w)). by eapply R_claim_inv.
  - by eapply R_claim_inv.
  - by apply R_unpublish_inv.
  - eapply (removal_pc_step _ w i r rows Stat); try done. intros o' Ho' _. congruence.
  - eapply (removal_pc_step _ w i r rows Stat); try done. intros o' Ho' _. congruence.
  - by apply R_unlink_inv.
  - by apply R_forget_inv.
  - by eapply R_end_inv.
Qed.

Lemma steps_inv w w' : inv' w → steps stub_bytes stub_agrees w w' → inv' w'.
Proof.
  intros Hw (l & Hs & Hc). destruct l as [t|i| | |].
  - inversion Hs; subst. by eapply add_step_inv.
  - inversion Hs; subst. by eapply removal_step_inv.
  - inversion Hs; subst; [by apply E_put_inv|by eapply E_drop_inv].
  - inversion Hs; subst. by apply E_crash_inv.
  - inversion Hs; subst. by apply E_boot_inv.
Qed.

Lemma reachable_inv f w : foreign_files f → rtc (steps stub_bytes stub_agrees) (start f) w → inv' w.
Proof.
  intros Hf Hs. assert (Hw : inv' (start f)) by (by apply start_inv). revert Hw. generalize (start f) as w0, w, Hs.
  clear. induction 1 as [|w1 w2 w3 H1 _ IH]; [done|]. intros Hw. apply IH. by eapply steps_inv.
Qed.

(** C5: At any moment of a calm run, whatever interleaves, fails or crashes: a committed
    row has its stub, with the right text, at its path; every file the library has
    written is at the path of a row of its transaction or at the staging name of a staged
    one; and what the namespace answers for is in the registry and not merely staged. *)
Theorem registry_and_files_agree f w :
  foreign_files f → rtc (steps stub_bytes stub_agrees) (start f) w →
  (∀ p r, reg w !! p = Some r → State r = AudioCommitted → ∃ id, fs w !! p = Some (mkObj id (stub stub_bytes r) (Some (TxnID r)))) ∧
  (∀ p o t, fs w !! p = Some o → fo_owner o = Some t →
     ∃ k r, reg w !! k = Some r ∧ TxnID r = t ∧ (p = k ∨ p = stage_path r ∧ State r = AudioStaged)) ∧
  (∀ p x, entries (ns w) !! p = Some x → ∃ r, reg w !! p = Some r ∧ State r ≠ AudioStaged).
Proof.
  intros Hf Hs. pose proof (reachable_inv f w Hf Hs) as Hw. split_and!; [apply (wi_committed _ _ Hw)|apply (wi_owned _ _ Hw)|apply (wi_names _ _ Hw)].
Qed.

(** When every unlink of the recovery works and the text of every stub agrees with its row,
    a boot leaves the committed rows, their stubs and an entry for each, and nothing else. *)
Lemma boot_exact f w :
  foreign_files f → rtc (steps stub_bytes stub_agrees) (start f) w → up w = false →
  (∀ p r, reg w !! p = Some r → stub_agrees (stub stub_bytes r) r = true) →
  let w' := boot stub_agrees (λ _, true) w in
  (∀ p r, reg w' !! p = Some r ↔ reg w !! p = Some r ∧ State r = AudioCommitted) ∧
  (∀ p o, fs w' !! p = Some o → is_Some (fo_owner o) → ∃ r, reg w' !! p = Some r ∧ o = mkObj (fo_id o) (stub stub_bytes r) (Some (TxnID r))) ∧
  (∀ p r, reg w' !! p = Some r → ∃ id, fs w' !! p = Some (mkObj id (stub stub_bytes r) (Some (TxnID r)))) ∧
  (∀ p x, entries (ns w') !! p = Some x ↔ ∃ r, reg w' !! p = Some r ∧ x = projection_of r).
Proof.
  intros Hf Hs Hup Hsize. pose proof (reachable_inv f w Hf Hs) as Hw.
  destruct (boot_spec stub_bytes stub_agrees (λ _, true) w Hw Hup) as (R & _ & _ & _ & He & Hall). cbn zeta.
  set (w' := boot stub_agrees (λ _, true) w) in *. specialize (Hall (λ _, eq_refl)). destruct (rv_kept _ _ _ R) as [K1 K2 K3 K4 K5].
  assert (Hstub : ∀ p r, reg w' !! p = Some r → ∃ id, fs w' !! p = Some (mkObj id (stub stub_bytes r) (Some (TxnID r)))).
  { intros p r Hp. apply (K4 p r Hp). by eapply Hall. }
  split_and!; [intros p r; split| |done|intros p x; rewrite He; split].
  - intros Hp. split; [|by eapply Hall]. pose proof (rv_rows _ _ _ R) as Hsub. rewrite map_subseteq_spec in Hsub. by apply Hsub.
  - intros [Hp Hc]. by apply (rv_committed _ _ _ R).
  - intros p o Hp [t Ho]. destruct (K5 p o t Hp Ho) as (k & r & Hr & Ht & Hpos). simpl in Hr. pose proof (Hall k r Hr) as Hc.
    destruct Hpos as [->|[_ H]]; [|congruence]. exists r. split; [done|]. destruct (Hstub k r Hr) as [id Hid]. pose proof (eq_trans (eq_sym Hp) Hid) as E.
    by injection E as ->.
  - intros (r & Hr & _ & _ & ->). by exists r.
  - intros (r & Hr & ->). exists r. split_and!; [done|by eapply Hall| |done]. unfold healthy.
    pose proof (ro_path _ K1 _ _ Hr) as <-. destruct (Hstub p r Hr) as [id ->]. apply (Hsize p). pose proof (rv_rows _ _ _ R) as Hsub. rewrite map_subseteq_spec in Hsub. by apply Hsub.
Qed.

(** C7: An add touches no file but its own: a file that another transaction, or anybody
    else, has written is after each of its steps where it was, and no other appears. *)
Theorem add_touches_its_own f w w' t :
  foreign_files f → rtc (steps stub_bytes stub_agrees) (start f) w → add_step stub_bytes t w w' →
  ∀ p o, fo_owner o ≠ Some t → fs w !! p = Some o ↔ fs w' !! p = Some o.
Proof.
  intros Hf Hr Hs. pose proof (reachable_inv f w Hf Hr) as Hw. change (same_files t (fs w) (fs w')).
  inversion Hs; subst; simpl; try done.
  - apply same_files_insert; [done|]. congruence.
  - destruct (created_facts stub_bytes w t j r id) as ([d Hd] & _ & _); try done. apply same_files_insert; [done|]. intros o E. rewrite Hd in E. by injection E as <-.
  - destruct (created_facts stub_bytes w t j r id) as ([d Hd] & _ & _); try done. apply same_files_delete. intros o E. rewrite Hd in E. by injection E as <-.
  - by eapply (publish_facts stub_bytes).
  - by eapply (publish_facts stub_bytes).
  - unfold RemoveStagedIfIdentity. destruct (fs w !! rel) as [o|] eqn:Eo; [|done]. case_bool_decide as Eid; [|done]. simpl.
    apply same_files_delete. intros o' E. rewrite Eo in E. injection E as <-. by eapply (unwind_target stub_bytes w t j k failed k).
Qed.
End runs.


(** ** The rows of an accepted request *)

Lemma validated_open upper nfc path : validatePathSyntax upper nfc path = true → open_path path.
Proof.
  intros Hv. unfold validatePathSyntax in Hv. bool_simpl. apply list.Forall_forall. intros c Hc. apply (component_proper upper).
  match goal with H : forallb _ _ = true |- _ => rewrite forallb_forall in H; by apply H, list_elem_of_In end.
Qed.

(** The rows an add builds from accepted paths are as the first step requires. *)
Lemma audio_rows_shaped upper nfc portable txn now sec hash title magnet segments i l :
  (∀ req plan, (req, plan) ∈ l → validatePathSyntax upper nfc (pl_path plan) = true) →
  Forall (row_shaped txn) (audio_rows portable txn now sec hash title magnet segments i l).
Proof.
  revert i. induction l as [|[req plan] l IH]; intros i Hl; simpl; [constructor|].
  assert (Hrest : Forall (row_shaped txn) (audio_rows portable txn now sec hash title magnet segments (S i) l)).
  { apply IH. intros q p Hin. apply (Hl q p). by right. }
  destruct (Existing plan); [done|]. constructor; [|done]. split; [|by exists i].
  apply (validated_open upper nfc), (Hl req). left.
Qed.

(** ** A sample run *)

Local Abbreviation sample_stub := (row_stub sample_base).
Local Abbreviation sample_agrees := stub_matches.
Definition a_path : AudioPath := ("music", "Band/b_0123abcd.flac").
Definition note : AudioPath := ("music", "note.txt").
Definition note_obj : file_obj := mkObj (1, 1) [] None.

Definition v0 : world := start {[ note := note_obj ]}.
Definition v1 : world := boot sample_agrees (λ _, true) v0.
Definition at_step (pc : add_pc) (l : list (AudioPath * FileIdentity)) : add_job := mkAdd [sample_row] l pc 9.
Definition v2 : world := on_add "t1" (at_step Writing []) (on_reg (<[a_path := staged_by "t1" sample_row]> (reg v1)) v1).
Definition v3 : world := on_add "t1" (at_step (Created (1, 2)) []) (on_fs (<[stage_path sample_row := mkObj (1, 2) [] (Some "t1")]> (fs v2)) v2).
Definition v4 : world := on_add "t1" (at_step Writing [(stage_path sample_row, (1, 2))])
  (on_fs (<[stage_path sample_row := mkObj (1, 2) (stub sample_stub sample_row) (Some "t1")]> (fs v3)) v3).
Definition v5 : world := on_add "t1" (at_step (Publishing 0) [(stage_path sample_row, (1, 2))]) v4.
Definition renamed : files := <[a_path := mkObj (1, 2) (stub sample_stub sample_row) (Some "t1")]> (delete (stage_path sample_row) (fs v5)).
Definition v6 : world := on_add "t1" (with_objects (<[0%nat := (row_path sample_row, (1, 2))]> [(stage_path sample_row, (1, 2))]) (Publishing 1)
  (at_step (Publishing 0) [(stage_path sample_row, (1, 2))])) (on_fs renamed v5).
Definition v7 : world := on_add "t1" (at_step Committing [(a_path, (1, 2))]) v6.
Definition v8 : world := on_add "t1" (at_step Announcing [(a_path, (1, 2))]) (on_reg (CommitAudioProjections "t1" 9 (reg v7)).1 v7).
Definition v9 : world := end_add "t1" (on_ns (AddProjections [projection_of sample_row] (ns v8)) v8).
Definition v10 : world := mkWorld (reg v9) (fs v9) NewAudioNamespace ∅ ∅ false.

Local Abbreviation sample_steps := (steps sample_stub sample_agrees).

Lemma sample_foreign : foreign_files {[ note := note_obj ]}.
Proof.
  split.
  - intros p o [<- <-]%lookup_singleton_Some. done.
  - intros p q o o' [<- _]%lookup_singleton_Some [<- _]%lookup_singleton_Some. done.
Qed.

Lemma sample_shaped : Forall (row_shaped "t1") [sample_row].
Proof. constructor; [|constructor]. split; [|by exists 0%nat]. repeat constructor. Qed.

Lemma v1_step : sample_steps v0 v1.
Proof. exists Boot. split; [apply E_boot|done]. Qed.

Lemma v2_add : add_step sample_stub "t1" v1 v2.
Proof.
  apply (T_stage _ "t1" [sample_row] 9 (reg v2)); try done.
  - intros p o H. change (fs v1) with ({[ note := note_obj ]} : files) in H. by apply lookup_singleton_Some in H as [_ <-].
  - apply sample_shaped.
Qed.

Lemma v2_step : sample_steps v1 v2.
Proof. exists (Add "t1"). split; [apply S_add, v2_add|done]. Qed.

Lemma v6_steps : rtc sample_steps v2 v7.
Proof.
  eapply (rtc_l _ _ v3).
  { exists (Add "t1"). split; [|done]. apply S_add, (T_create _ "t1" (at_step Writing []) sample_row (1, 2) v2); try (vm_compute; reflexivity).
    intros p o H. change (fs v2) with ({[ note := note_obj ]} : files) in H. by apply lookup_singleton_Some in H as [_ <-]. }
  eapply (rtc_l _ _ v4).
  { exists (Add "t1"). split; [|done]. by apply S_add, (T_write _ "t1" (at_step (Created (1, 2)) []) sample_row (1, 2) v3). }
  eapply (rtc_l _ _ v5).
  { exists (Add "t1"). split; [|done]. by apply S_add, (T_written _ "t1" (at_step Writing [(stage_path sample_row, (1, 2))]) v4). }
  eapply (rtc_l _ _ v6).
  { exists (Add "t1"). split; [|done].
    apply S_add, (T_publish _ "t1" (at_step (Publishing 0) [(stage_path sample_row, (1, 2))]) 0 sample_row (stage_path sample_row) (1, 2) renamed v5);
      [reflexivity|reflexivity|reflexivity|reflexivity|]. unfold rename_noreplace, renamed.
    replace (fs v5 !! stage_path sample_row) with (Some (mkObj (1, 2) (stub sample_stub sample_row) (Some "t1"))) by (vm_compute; reflexivity).
    by replace (fs v5 !! row_path sample_row) with (@None file_obj) by (vm_compute; reflexivity). }
  apply rtc_once. exists (Add "t1"). split; [|done]. by apply S_add, (T_published _ "t1" (at_step (Publishing 1) [(a_path, (1, 2))]) v6).
Qed.

Lemma v9_steps : rtc sample_steps v0 v9.
Proof.
  eapply rtc_l; [apply v1_step|]. eapply rtc_l; [apply v2_step|]. etrans; [apply v6_steps|].
  eapply (rtc_l _ _ v8).
  { exists (Add "t1"). split; [|done]. apply S_add, (T_commit _ "t1" (at_step Committing [(a_path, (1, 2))]) v7); vm_compute; reflexivity. }
  apply rtc_once. exists (Add "t1"). split; [|done]. by apply S_add, (T_announce _ "t1" (at_step Announcing [(a_path, (1, 2))]) v8).
Qed.

Lemma registry_and_files_agree_witness : ∃ id, fs v9 !! a_path = Some (mkObj id (stub sample_stub sample_row) (Some "t1")).
Proof.
  destruct (registry_and_files_agree sample_stub sample_agrees _ v9 sample_foreign v9_steps) as (H & _ & _).
  apply (H a_path (with_state AudioCommitted 9 (staged_by "t1" sample_row))); vm_compute; reflexivity.
Defined.

Lemma v10_steps : rtc sample_steps v0 v10.
Proof. etrans; [apply v9_steps|]. apply rtc_once. exists Crash. split; [apply E_crash|done]. Qed.

Lemma only_row p r : reg v10 !! p = Some r → r = with_state AudioCommitted 9 (staged_by "t1" sample_row).
Proof.
  change (reg v10) with (CommitAudioProjections "t1" 9 (<[a_path := staged_by "t1" sample_row]> ∅)).1. rewrite lookup_commit, fmap_Some.
  intros (x & [_ <-]%lookup_singleton_Some & ->). reflexivity.
Qed.


Lemma add_touches_its_own_witness : fs v2 !! note = Some note_obj.
Proof.
  apply (add_touches_its_own sample_stub sample_agrees _ v1 v2 "t1" sample_foreign).
  - apply rtc_once, v1_step.
  - apply v2_add.
  - discriminate.
  - vm_compute. reflexivity.
Defined.

(** ** What the registry does not guard *)

(** Recovery removes whatever is at the path of a staged row: here a file of somebody
    else that was there before the add began. *)
Definition u0 : world := start {[ a_path := note_obj ]}.
Definition u1 : world := boot sample_agrees (λ _, true) u0.
Definition u2 : world := on_add "t1" (at_step Writing []) (on_reg (<[a_path := staged_by "t1" sample_row]> (reg u1)) u1).
Definition u3 : world := mkWorld (reg u2) (fs u2) NewAudioNamespace ∅ ∅ false.

Lemma recovery_deletes_foreign :
  rtc sample_steps u0 u3 ∧ fs u3 !! a_path = Some note_obj ∧ fo_owner note_obj = None ∧
  sample_steps u3 (boot sample_agrees (λ _, true) u3) ∧ fs (boot sample_agrees (λ _, true) u3) !! a_path = None.
Proof.
  split_and!; [|reflexivity|reflexivity|exists Boot; split; [apply E_boot|done]|vm_compute; reflexivity].
  eapply (rtc_l _ _ u1); [exists Boot; split; [apply E_boot|done]|].
  eapply (rtc_l _ _ u2).
  { exists (Add "t1"). split; [|done]. apply S_add, (T_stage _ "t1" [sample_row] 9 (reg u2)); try done; [|apply sample_shaped].
    intros p o H. change (fs u1) with ({[ a_path := note_obj ]} : files) in H. by apply lookup_singleton_Some in H as [_ <-]. }
  apply rtc_once. exists Crash. split; [apply E_crash|done].
Qed.

(** A recovery that overlaps an add removes the stub it has published and may leave its
    rows, which the add then commits. *)
Lemma live_recovery_loses_stub :
  let w := boot sample_agrees (λ p, negb (bool_decide (p = stage_path sample_row))) v7 in
  let w' := on_add "t1" (at_step Announcing [(a_path, (1, 2))]) (on_reg (CommitAudioProjections "t1" 9 (reg w)).1 w) in
  rtc sample_steps v0 v7 ∧ step sample_stub sample_agrees Boot v7 w ∧ step sample_stub sample_agrees (Add "t1") w w' ∧
  (State <$> reg w' !! a_path) = Some AudioCommitted ∧ fs w' !! a_path = None.
Proof.
  cbv zeta. split_and!; [|apply E_boot| |vm_compute; reflexivity|vm_compute; reflexivity].
  - eapply rtc_l; [apply v1_step|]. eapply rtc_l; [apply v2_step|]. apply v6_steps.
  - apply S_add, (T_commit _ "t1" (at_step Committing [(a_path, (1, 2))])); vm_compute; reflexivity.
Qed.

(** A removal between the commit and the announcement of an add leaves the namespace
    answering for a path that has neither row nor file. *)
Local Abbreviation committed_row := (with_state AudioCommitted 9 (staged_by "t1" sample_row)).

Definition x0 : world := on_rm 0 (mkRemoval [committed_row] (Claim false)) v8.
Definition x1 : world := on_rm 0 (mkRemoval [committed_row] Unpublish) (on_reg (<[a_path := with_state AudioRemoving 10 committed_row]> (reg v8)) v8).
Definition x2 : world := on_rm 0 (mkRemoval [committed_row] Stat) (on_ns (Ns_Remove a_path (ns v8)) x1).
Definition x3 : world := on_rm 0 (mkRemoval [committed_row] (Unlink (1, 2))) x2.
Definition x4 : world := on_rm 0 (mkRemoval [committed_row] Forget) (on_fs (delete a_path (fs x3)) x3).
Definition x5 : world := on_rm 0 (mkRemoval [] Unpublish) (on_reg (delete a_path (reg x4)) x4).
Definition x6 : world := end_rm 0 x5.
Definition x7 : world := end_add "t1" (on_ns (AddProjections [projection_of sample_row] (ns x6)) x6).

Lemma late_announcement :
  rtc (λ w w', ∃ l, step sample_stub sample_agrees l w w') v8 x7 ∧
  is_Some (entries (ns x7) !! a_path) ∧ reg x7 !! a_path = None ∧ fs x7 !! a_path = None.
Proof.
  split_and!; [|vm_compute; by eexists|vm_compute; reflexivity|vm_compute; reflexivity].
  eapply (rtc_l _ _ x0); [exists (Removal 0); apply S_removal, (R_read 0 a_path committed_row); [done|vm_compute; reflexivity|done]|].
  eapply (rtc_l _ _ x1).
  { exists (Removal 0). apply S_removal, (R_claim 0 committed_row 10 x0); vm_compute; reflexivity. }
  eapply (rtc_l _ _ x2); [exists (Removal 0); by apply S_removal, (R_unpublish 0 committed_row [] x1)|].
  eapply (rtc_l _ _ x3).
  { exists (Removal 0). apply S_removal, (R_stat 0 committed_row [] (mkObj (1, 2) (stub sample_stub sample_row) (Some "t1")) x2); vm_compute; reflexivity. }
  eapply (rtc_l _ _ x4); [exists (Removal 0); by apply S_removal, (R_unlink 0 committed_row [] (1, 2) x3)|].
  eapply (rtc_l _ _ x5); [exists (Removal 0); by apply S_removal, (R_forget 0 committed_row [] x4)|].
  eapply (rtc_l _ _ x6); [exists (Removal 0); by apply S_removal, (R_end 0 (mkRemoval [] Unpublish) x5)|].
  apply rtc_once. exists (Add "t1"). by apply S_add, (T_announce _ "t1" (at_step Announcing [(a_path, (1, 2))]) x6).
Qed.

(** When a row of an add is gone at its commit, the others are committed, the add is
    unwound, and their stubs go: the rollback only drops staged rows. *)
Definition b_row : AudioProjection :=
  audio_row (λ s, s) "t1" 5 "music" sample_hash "Album" "magnet" (λ _, None) 1 (mkRequest "c.flac" "Band/c_0123abcd.flac" "" "" 0 ∅)
    (mkPlan "Band/c_0123abcd.flac" (mkSource "c.flac" 3 30) None).
Definition b_path : AudioPath := ("music", "Band/c_0123abcd.flac").
Definition both (pc : add_pc) : add_job := mkAdd [sample_row; b_row] [(a_path, (1, 2)); (b_path, (1, 3))] pc 9.
Definition y0 : world :=
  mkWorld {[ b_path := staged_by "t1" b_row ]}
    {[ a_path := mkObj (1, 2) (stub sample_stub sample_row) (Some "t1"); b_path := mkObj (1, 3) (stub sample_stub b_row) (Some "t1") ]}
    NewAudioNamespace {[ "t1" := both Committing ]} ∅ true.
Definition y1 : world := on_add "t1" (both (Unwinding 0 false)) (on_reg (CommitAudioProjections "t1" 9 (reg y0)).1 y0).
Definition y2 : world := on_add "t1" (both (Unwinding 1 false)) (on_fs (delete a_path (fs y1)) y1).
Definition y3 : world := on_add "t1" (both (Unwinding 2 false)) (on_fs (delete b_path (fs y2)) y2).
Definition y4 : world := end_add "t1" (on_reg (RollbackAudioProjections "t1" (reg y3)) y3).

Lemma short_commit_unwinds_committed :
  rtc (λ w w', step sample_stub sample_agrees (Add "t1") w w') y0 y4 ∧
  (State <$> reg y4 !! b_path) = Some AudioCommitted ∧ fs y4 !! b_path = None.
Proof.
  split_and!; [|vm_compute; reflexivity|vm_compute; reflexivity].
  eapply (rtc_l _ _ y1); [apply S_add, (T_commit_short _ "t1" (both Committing) y0); [done|done|vm_compute; discriminate]|].
  eapply (rtc_l _ _ y2); [by apply S_add, (T_unwind _ "t1" (both (Unwinding 0 false)) 0 false a_path (1, 2) y1)|].
  eapply (rtc_l _ _ y3); [by apply S_add, (T_unwind _ "t1" (both (Unwinding 1 false)) 1 false b_path (1, 3) y2)|].
  apply rtc_once. by apply S_add, (T_unwound _ "t1" (both (Unwinding 2 false)) y3).
Qed.
