(* ===== verification/Videos.v ===== *)
(** * Adding and removing videos (internal/library/manager.go, WriteStub of naming.go,
    magnet.go; the trackers of torrentsource.go, canonicalHashKey of atomicadd.go and the
    rows of metadb/episodes.go)

    An add checks the request, hands the torrent to the engine, waits for its file list
    and writes one stub for a movie or one for each episode, with a row of the registry
    for each; a failure undoes what was written, and torrents nobody uses any more are
    dropped on the way out.  A removal deletes stubs, their rows and their torrents.

    A request is one step here: two requests for the same torrent or episode exclude each
    other by the locks of Locks.v.  [disk] holds regular files under their cleaned
    absolute path; a directory is there when a file is below it, and none has the name of a
    stub; the media directories are absolute.  The engine holds torrents under
    their hash in hex.  Calls that can fail are answered by [faults], the engine's replies
    are [answers].  The .torrent a request may carry is parsed by a library: [trackers]
    and its hash are what that says.  The time of the rows is [now].  The counters of failed
    torrents, which a drop clears, are left out. *)

From Stdlib Require Import Ascii String.
From S2P Require Import Prelude GoFloat GoStrings Flac Cue CueSplit Paths Naming Sources AudioRegistry Stub.
Local Open Scope string_scope.
Local Open Scope Z_scope.

(** ** Hashes and magnets *)

(** Text beyond ASCII is no hash, whatever it is. *)
Definition hash_text (l : list Z) : string := if forallb (λ r, r <? 128) l then text_of l else "?".
Definition lower_hash (s : string) : string := hash_text (lower_runes (TrimSpace s)).
Definition hex_lower (c : ascii) : bool := is_digit c || ((97 <=? code c) && (code c <=? 102)).
Definition base32_char (c : ascii) : bool := ((97 <=? code c) && (code c <=? 122)) || ((50 <=? code c) && (code c <=? 55)).
Definition reInfoHash (s : string) : bool :=
  ((String.length s =? 40)%nat && all_chars hex_lower s) || ((String.length s =? 32)%nat && all_chars base32_char s).

(** [[a-z0-9]] without case. *)
Definition hash_rune (r : Z) : bool := negb (outside r).
Fixpoint hash_run (n : nat) (l : list Z) : list Z :=
  match n, l with S n, r :: t => if hash_rune r then r :: hash_run n t else [] | _, _ => [] end.
(** [reMagnetHash]: the first place where at least 32 characters follow the marker. *)
Fixpoint magnet_hash (l : list Z) : option (list Z) :=
  let marker := lit "xt=urn:btih:" in
  let run := hash_run 40 (drop (length marker) l) in
  if match_here marker None l && (32 <=? length run)%nat then Some run
  else match l with [] => None | _ :: t => magnet_hash t end.
Definition HashFromMagnet (magnet : string) : string :=
  match magnet_hash (runes_of magnet) with Some l => hash_text (lower_rune <$> l) | None => "" end.

(** [url.QueryEscape] *)
Definition unreserved (c : ascii) : bool :=
  word_rune (code c) || Ascii.eqb c "-" || Ascii.eqb c "." || Ascii.eqb c "~".
Definition upper_hex (d : Z) : ascii := ascii_of_N (Z.to_N (if d <? 10 then 48 + d else 55 + d)).
Fixpoint QueryEscape (s : string) : string :=
  match s with
  | "" => ""
  | String c t =>
      if unreserved c then String c (QueryEscape t)
      else if Ascii.eqb c " " then String "+" (QueryEscape t)
      else String "%" (String (upper_hex (code c / 16)) (String (upper_hex (code c mod 16)) (QueryEscape t)))
  end.
Fixpoint merge_trackers (seen l : list string) : list string :=
  match l with
  | [] => []
  | tr :: l =>
      let tr := TrimSpace tr in
      if String.eqb tr "" || bool_decide (tr ∈ seen) then merge_trackers seen l else tr :: merge_trackers (tr :: seen) l
  end.
Definition MergeTrackers (lists : list (list string)) : list string := merge_trackers [] (concat lists).
Definition DefaultTrackers : list string :=
  ["udp://tracker.opentrackr.org:1337/announce"; "udp://open.stealth.si:80/announce"; "udp://tracker.torrent.eu.org:451/announce";
   "udp://exodus.desync.com:6969/announce"; "udp://tracker.openbittorrent.com:6969/announce"].
Definition BuildMagnet (infoHash name : string) (trackers : list string) : string :=
  "magnet:?xt=urn:btih:" +:+ infoHash +:+ (if String.eqb name "" then "" else "&dn=" +:+ QueryEscape name)
  +:+ foldr (λ tr acc, "&tr=" +:+ QueryEscape tr +:+ acc) "" trackers.

(** The hex spelling of a hash in base32. *)
Definition base32_value (c : ascii) : Z := if code c <? 97 then code c - 24 else code c - 97.
Definition hex_char (d : Z) : ascii := ascii_of_N (Z.to_N (hex_digit d)).
Fixpoint hex_digits (n : nat) (v : Z) (acc : string) : string :=
  match n with O => acc | S n => hex_digits n (v / 16) (String (hex_char (v mod 16)) acc) end.
Definition canonicalHashKey (hash : string) : string :=
  let h := lower_hash hash in
  if (String.length h =? 32)%nat && all_chars base32_char h
  then hex_digits 40 (foldl (λ v c, 32 * v + base32_value c) 0 (list_ascii_of_string h)) ""
  else h.

(** ** Stubs *)

Definition video_stub (url : string) (size : Z) (magnet imdb : string) : list Byte.byte :=
  list_byte_of_string (text_of (print_object [("imdb", OStr imdb); ("magnet", OStr magnet); ("size", ONum size); ("url", OStr url)])).

Record vstub := mkVstub { vs_size : Z; vs_hash : string; vs_imdb : string; vs_index : Z }.
Definition no_stub : vstub := mkVstub 0 "" "" 0.

(** The struct of [readStub] has three of the fields. *)
Definition set_known (k : list Z) (v : json) (j : MkvJSON) : MkvJSON * bool :=
  if existsb (λ n, bool_decide (fold_key k = bytes_of n)) ["url"; "size"; "imdb"] then set_field k v j else (j, true).
Definition fill_known (ms : list (list Z * json)) : option MkvJSON :=
  let '(j, ok) := foldl (λ s m, let '(j, ok) := set_known m.1 m.2 s.1 in (j, s.2 && ok)) (zero_mkv, true) ms in
  if ok then Some j else None.
Definition unmarshal_known (l : list Z) : option MkvJSON :=
  match parse_json l with Some (JObj ms) => fill_known ms | Some JNull => Some zero_mkv | _ => None end.

(** [ParseInt] without its error: nothing for what is no number, the nearest for what is
    out of range. *)
Definition parse_int (s : string) : Z :=
  let r := match s with
           | String c s' => if Ascii.eqb c "+" then Z.of_uint <$> DecimalString.NilZero.uint_of_string s'
                            else Z.of_int <$> DecimalString.NilZero.int_of_string s
           | "" => None
           end in
  match r with Some z => Z.max min_i64 (Z.min max_i64 z) | None => 0 end.
Fixpoint stub_index (s : string) : Z :=
  match s with
  | "" => 0
  | String _ t =>
      let ds := leading_digits (String.length s) (String.substring 6 (String.length s) s) in
      if String.prefix "index=" s && negb (String.eqb ds "") then digits_value ds else stub_index t
  end.

Definition readStub (data : list Byte.byte) : vstub :=
  let text := string_of_list_byte data in
  let content := TrimSpace text in
  let with_url url size imdb := mkVstub size (find_link url) imdb (stub_index url) in
  if HasPrefix_char "{" content then
    match unmarshal_known (bytes_of text) with
    | Some j => with_url (j_url j) (j_size j) (j_imdb j)
    | None => no_stub
    end
  else
    let lines := split_char newline content in
    let fourth := match lines with _ :: _ :: _ :: l :: _ => TrimSpace l | _ => "" end in
    with_url (TrimSpace (hd "" lines)) (match lines with _ :: l :: _ => parse_int (TrimSpace l) | _ => 0 end)
      (if String.prefix "tt" fourth then fourth else find_imdb content).

(** ** The library *)

Record EpisodeEntry := mkEpisode {
  ee_key : string; QualityScore : Z; ee_hash : string; FilePath : string; Source : string; Created : Z; ShowIMDB : string
}.
Abbreviation disk_files := (gmap string (list Byte.byte)).
Record video_lib := mkLib {
  disk : disk_files;
  episodes : gmap string EpisodeEntry;
  open_gaps : gset string;
  engine : gset string
}.
Definition on_disk (d : disk_files) (w : video_lib) : video_lib := mkLib d (episodes w) (open_gaps w) (engine w).
Definition on_rows (e : gmap string EpisodeEntry) (w : video_lib) : video_lib := mkLib (disk w) e (open_gaps w) (engine w).
Definition on_gaps (g : gset string) (w : video_lib) : video_lib := mkLib (disk w) (episodes w) g (engine w).
Definition on_engine (t : gset string) (w : video_lib) : video_lib := mkLib (disk w) (episodes w) (open_gaps w) t.

Record Config := mkConfig { MoviesDir : string; TVDir : string; GoStormURL : string; has_registry : bool }.

(** How a write of a stub ends: done, nothing written, or a file with part of the text. *)
Inductive write_end := Wrote | NotWritten | PartWritten (l : list Byte.byte).
Record faults := mkFaults {
  get_ok : string → bool;            (* GetEpisode of a key *)
  write_to : string → write_end;     (* WriteStub of a path *)
  put_ok : string → bool;            (* UpsertEpisode of a key *)
  gap_ok : string → bool;            (* ClearEpisodeGap *)
  undo_file_ok : string → bool;      (* the deletions of a rollback *)
  undo_row_ok : string → bool;       (* its rows *)
  remove_ok : string → bool;         (* os.Remove of a replaced or unwanted stub *)
  walk_ok : bool → bool;             (* the walk of the tv directory, or of the movies *)
  audio_uses : string → option bool; (* AudioHashReferenced; [None] is an error *)
  drop_ok : string → bool;           (* RemoveTorrent *)
  rows_ok : string → bool;           (* EpisodesByFilePath *)
  delete_ok : string → bool          (* DeleteEpisode *)
}.
Definition no_faults : faults :=
  mkFaults (λ _, true) (λ _, Wrote) (λ _, true) (λ _, true) (λ _, true) (λ _, true) (λ _, true) (λ _, true) (λ _, Some false) (λ _, true) (λ _, true) (λ _, true).

(** ** Directories *)

Definition path_prefix (dir p : string) : bool := bool_decide (comps dir `prefix_of` comps p).
Fixpoint comps_le (a b : list string) : bool :=
  match a, b with
  | [], _ => true
  | _ :: _, [] => false
  | x :: a, y :: b => if String.eqb x y then comps_le a b else String.ltb x y
  end.
Definition walk_before (a b : string * list Byte.byte) : Prop := comps_le (comps a.1) (comps b.1) = true.
#[export] Instance walk_before_dec a b : Decision (walk_before a b).
Proof. unfold walk_before. apply _. Defined.
(** [filepath.Walk]: the files below a directory, each directory in order of its names;
    a directory that is not there, or not configured, is empty. *)
Definition walk (dir : string) (d : disk_files) : list (string * list Byte.byte) :=
  if String.eqb dir "" then []
  else merge_sort walk_before (filter (λ f, path_prefix dir f.1 = true) (map_to_list d)).

(** [filepath.Rel] *)
Fixpoint strip_common (a b : list string) : list string * list string :=
  match a, b with
  | x :: a', y :: b' => if String.eqb x y then strip_common a' b' else (a, b)
  | _, _ => (a, b)
  end.
Definition path_Rel (base target : string) : option string :=
  if negb (eqb (rooted base) (rooted target)) then None
  else
    let '(b, t) := strip_common (comps base) (comps target) in
    if bool_decide (head b = Some "..") then None
    else let l := (replicate (length b) ".." ++ t)%list in Some (if bool_decide (l = []) then "." else join_slash l).

Definition mediaDirs (cfg : Config) : list string :=
  path_Clean <$> filter (λ d, d ≠ "") [MoviesDir cfg; TVDir cfg].
Definition dotdot (s : string) : bool := String.prefix ".." s.
Fixpoint fuse_in (dirs : list string) (path : string) : string :=
  match dirs with
  | [] => path
  | dir :: dirs =>
      match path_Rel dir path with
      | Some rel => if dotdot rel then fuse_in dirs path else path_Join [filepath_Base dir; rel]
      | None => fuse_in dirs path
      end
  end.
Definition fusePath (cfg : Config) (path : string) : string := fuse_in (mediaDirs cfg) path.

Record AddedFile := mkAdded { af_path : string; af_fuse : string; af_size : Z; af_index : Z; af_season : Z; af_episode : Z }.

(** The name of a stub ends in a part of its hash. *)
Definition named_by (suffix path : string) : bool :=
  bool_decide (bytes_of ("_" +:+ suffix +:+ ".mkv") `suffix_of` lower_runes path).
Definition findByHash (cfg : Config) (fl : faults) (tv : bool) (hash : string) (w : video_lib) : Z + list AddedFile :=
  let dir := if tv then TVDir cfg else MoviesDir cfg in
  let suffix := ToLower (if tv then HashPrefix hash else HashSuffix hash) in
  if negb (walk_ok fl tv) then inl 500
  else inr ((λ f : string * list Byte.byte,
         let st := readStub f.2 in
         let '(season, episode) := ParseSeasonEpisode (filepath_Base f.1) in
         mkAdded f.1 (fusePath cfg f.1) (vs_size st) (vs_index st) season episode)
       <$> filter (λ f, named_by suffix f.1 = true) (walk dir (disk w))).

(** ** Torrents nobody uses *)

Definition dropTorrent (fl : faults) (hash : string) (w : video_lib) : video_lib :=
  if drop_ok fl hash then on_engine (engine w ∖ {[ hash ]}) w else w.
Definition dropTorrentIfUnused (cfg : Config) (fl : faults) (hash : string) (w : video_lib) : video_lib :=
  if String.eqb hash "" then w
  else match findByHash cfg fl false hash w, findByHash cfg fl true hash w with
       | inr [], inr [] => match audio_uses fl hash with Some false => dropTorrent fl hash w | _ => w end
       | _, _ => w
       end.
Definition drop_all (cfg : Config) (fl : faults) (hashes : list string) (w : video_lib) : video_lib :=
  foldl (λ w h, dropTorrentIfUnused cfg fl h w) w hashes.

Definition deleteStub (ok : string → bool) (path : string) (w : video_lib) : video_lib * bool :=
  if ok path then (on_disk (delete path (disk w)) w, true) else (w, false).

(** ** Requests *)

Record AddRequest := mkAddRequest {
  ar_type : string; ar_hash : string; ar_magnet : string; ar_title : string; ar_release : string; ar_date : string; ar_year : Z;
  ar_imdb : string; ar_4k : option bool; ar_season : Z; ar_episode : Z; ar_first : string; ar_index : Z; ar_score : Z;
  ar_file : option (option (string * list string));  (* a .torrent: unreadable, or its hash and trackers *)
  ar_accept : list string → bool                     (* AcceptFiles, or no objection *)
}.
(** What [validate] makes of a request. *)
Definition normalised (title : string) (req : AddRequest) : AddRequest :=
  mkAddRequest (ar_type req) (ar_hash req) (ar_magnet req) title (if String.eqb (ar_release req) "" then title else ar_release req)
    (if String.eqb (ar_date req) "" && (0 <? ar_year req) then itoa (ar_year req) else ar_date req) (ar_year req)
    (ar_imdb req) (ar_4k req) (ar_season req) (ar_episode req) (ar_first req) (ar_index req) (ar_score req) (ar_file req) (ar_accept req).
Definition kind_of (type : string) : option bool :=
  let named := existsb (λ w, bool_decide (lower_runes (TrimSpace type) = bytes_of w)) in
  if named [""; "movie"; "movies"; "film"] then Some false
  else if named ["tv"; "show"; "series"; "episode"] then Some true else None.
Definition request_hash (req : AddRequest) : Z + string :=
  let own := lower_hash (ar_hash req) in
  let hash := if String.eqb (ar_magnet req) "" then inr own
              else let h := HashFromMagnet (ar_magnet req) in
                   if negb (String.eqb h "") then inr h else if String.eqb own "" then inl 400 else inr own in
  match hash with
  | inl st => inl st
  | inr h => if String.eqb h "" || negb (reInfoHash h) then inl 400 else inr h
  end.
Definition validate (cfg : Config) (req : AddRequest) : Z + bool * string * AddRequest :=
  match kind_of (ar_type req) with
  | None => inl 400
  | Some tv =>
      let title := TrimSpace (ar_title req) in
      if String.eqb title "" then inl 400
      else match request_hash req with
           | inl st => inl st
           | inr hash =>
               if tv then
                 if (ar_episode req <=? 0) && (0 <? ar_index req) then inl 400
                 else if ar_season req <=? 0 then inl 400
                 else if negb (has_registry cfg) then inl 503
                 else if String.eqb (TVDir cfg) "" then inl 503
                 else inr (tv, hash, normalised title req)
               else if String.eqb (MoviesDir cfg) "" then inl 503
               else inr (tv, hash, normalised title req)
           end
  end.

(** ** Choosing files *)

Definition largest_video (files : list FileStat) : option FileStat :=
  foldl (λ best f, if IsVideoFile (Path f) && match best with Some b => Length b <? Length f | None => true end then Some f else best) None files.
Definition pickFile (index : Z) (files : list FileStat) : Z + FileStat :=
  if 0 <? index then
    match list_find (λ f, ID f = index) files with
    | Some (_, f) => if IsVideoFile (Path f) then inr f else inl 400
    | None => inl 400
    end
  else match largest_video files with Some f => inr f | None => inl 422 end.
Definition names_episode (req : AddRequest) (f : FileStat) : bool :=
  let '(season, episode) := ParseSeasonEpisode (filepath_Base (Path f)) in
  IsVideoFile (Path f) && (episode =? ar_episode req) && ((season =? ar_season req) || (season =? 0)).
Definition pickFileForEpisode (req : AddRequest) (files : list FileStat) : Z + FileStat :=
  if 0 <? ar_index req then pickFile (ar_index req) files
  else match list_find (λ f, names_episode req f = true) files with Some (_, f) => inr f | None => pickFile 0 files end.

(** The episodes of a pack: the files that name one. *)
Definition pack_file (req : AddRequest) (f : FileStat) : option (Z * Z * FileStat) :=
  let '(season, episode) := ParseSeasonEpisode (filepath_Base (Path f)) in
  if negb (IsVideoFile (Path f)) || (episode =? 0) then None else Some (if season =? 0 then ar_season req else season, episode, f).
Definition candidates (req : AddRequest) (files : list FileStat) : Z + list (Z * Z * FileStat) :=
  if 0 <? ar_episode req then
    match pickFileForEpisode req files with inl st => inl st | inr f => inr [(ar_season req, ar_episode req, f)] end
  else match omap (pack_file req) files with [] => inl 422 | l => inr l end.
(** One file for an episode: the first of the longest. *)
Definition keep_longest (best : gmap (Z * Z) FileStat) (c : Z * Z * FileStat) : gmap (Z * Z) FileStat :=
  let '(k, f) := c in
  match best !! k with Some cur => if Length cur <? Length f then <[k := f]> best else best | None => <[k := f]> best end.
Definition episode_before (a b : Z * Z * FileStat) : Prop := a.1.1 < b.1.1 ∨ (a.1.1 = b.1.1 ∧ a.1.2 ≤ b.1.2).
#[export] Instance episode_before_dec a b : Decision (episode_before a b).
Proof. unfold episode_before. apply _. Defined.
Definition one_each (l : list (Z * Z * FileStat)) : list (Z * Z * FileStat) :=
  merge_sort episode_before (map_to_list (foldl keep_longest ∅ l)).

(** ** Episodes *)

Record prior := mkPrior { pr_entry : option EpisodeEntry; pr_had_stub : bool; pr_path : string }.
Definition row_key (req : AddRequest) (f : AddedFile) : string := EpisodeKey (ar_title req) (af_season f) (af_episode f).

Definition undo_file (fl : faults) (a : AddedFile * prior) (w : video_lib) : video_lib :=
  if pr_had_stub a.2 then w else (deleteStub (undo_file_ok fl) (af_path a.1) w).1.
Definition undo_row (fl : faults) (req : AddRequest) (a : AddedFile * prior) (w : video_lib) : video_lib :=
  let key := row_key req a.1 in
  if undo_row_ok fl key then
    match pr_entry a.2 with Some e => on_rows (<[key := e]> (episodes w)) w | None => on_rows (delete key (episodes w)) w end
  else w.
Definition rollback (fl : faults) (req : AddRequest) (done : list (AddedFile * prior)) (w : video_lib) : video_lib :=
  foldl (λ w a, undo_row fl req a (undo_file fl a w)) w done.

(** The stubs and rows of the episodes, one after the other. *)
Fixpoint file_episodes (cfg : Config) (fl : faults) (now : Z) (req : AddRequest) (hash magnet : string)
    (l : list (Z * Z * FileStat)) (done : list (AddedFile * prior)) (w : video_lib) : video_lib * (Z + list (AddedFile * prior)) :=
  match l with
  | [] => (w, inr done)
  | (season, episode, f) :: l =>
      let path := episode_path (TVDir cfg) (ar_title req) (ar_first req) season episode hash in
      let key := EpisodeKey (ar_title req) season episode in
      if negb (get_ok fl key) then (rollback fl req done w, inl 503)
      else
        let p := mkPrior (episodes w !! key) (bool_decide (is_Some (disk w !! path))) path in
        match write_to fl path with
        | NotWritten => (rollback fl req done w, inl 500)
        | PartWritten part => (rollback fl req done (on_disk (<[path := part]> (disk w)) w), inl 500)
        | Wrote =>
            let w1 := on_disk (<[path := video_stub (streamURL (GoStormURL cfg) hash (ID f)) (Length f) magnet ""]> (disk w)) w in
            let done := (done ++ [(mkAdded path (fusePath cfg path) (Length f) (ID f) season episode, p)])%list in
            if negb (put_ok fl key) then (rollback fl req done w1, inl 500)
            else
              let imdb := match pr_entry p with Some e => ShowIMDB e | None => "" end in
              let w2 := on_rows (<[key := mkEpisode key (ar_score req) hash path "api" now imdb]> (episodes w1)) w1 in
              let w3 := if gap_ok fl key then on_gaps (open_gaps w2 ∖ {[ key ]}) w2 else w2 in
              file_episodes cfg fl now req hash magnet l done w3
        end
  end.

(** The releases a pack replaces: their stubs go, their torrents may. *)
Definition replaced (p : prior) : option EpisodeEntry :=
  e ← pr_entry p; if String.eqb (FilePath e) "" || String.eqb (FilePath e) (pr_path p) then None else Some e.
Definition remove_replaced (fl : faults) (hash : string) (p : prior) (s : video_lib * list string) : video_lib * list string :=
  match replaced p with
  | None => s
  | Some e =>
      let '(w, ok) := deleteStub (remove_ok fl) (FilePath e) s.1 in
      (w, if ok && negb (String.eqb (ee_hash e) "") && negb (String.eqb (ee_hash e) hash) then (s.2 ++ [ee_hash e])%list else s.2)
  end.

Definition addEpisodes (cfg : Config) (fl : faults) (now : Z) (req : AddRequest) (hash magnet : string) (files : list FileStat)
    (w : video_lib) : video_lib * list string * (Z + list AddedFile) :=
  match candidates req files with
  | inl st => (w, [], inl st)
  | inr l =>
      match file_episodes cfg fl now req hash magnet (one_each l) [] w with
      | (w, inl st) => (w, [], inl st)
      | (w, inr done) =>
          let '(w, drops) := foldl (λ s p, remove_replaced fl hash p s) (w, []) done.*2 in
          (w, drops, inr done.*1)
      end
  end.

(** ** Movies *)

Definition movie_path (cfg : Config) (req : AddRequest) (hash : string) : string :=
  path_Join [MoviesDir cfg; BuildMovieFilename (mkMovieName (ar_title req) (ar_date req) (ar_release req)
    (match ar_4k req with Some b => b | None => MatchString reIs4K (ar_release req) end) hash)].
Definition addMovie (cfg : Config) (fl : faults) (req : AddRequest) (hash magnet : string) (files : list FileStat) (w : video_lib) :
    video_lib * (Z + list AddedFile) :=
  match pickFile (ar_index req) files with
  | inl st => (w, inl st)
  | inr f =>
      let path := movie_path cfg req hash in
      match write_to fl path with
      | NotWritten => (w, inl 500)
      | PartWritten part => (on_disk (<[path := part]> (disk w)) w, inl 500)
      | Wrote => (on_disk (<[path := video_stub (streamURL (GoStormURL cfg) hash (ID f)) (Length f) magnet (ar_imdb req)]> (disk w)) w,
                  inr [mkAdded path (fusePath cfg path) (Length f) (ID f) 0 0])
      end
  end.

(** ** Add *)

Record answers := mkAnswers {
  an_cancelled : bool;                   (* the request, before it began *)
  an_reply : option string;              (* what AddTorrent says *)
  an_taken : option string;              (* the torrent the engine has taken, even if it said nothing *)
  an_info : option (list FileStat)       (* GetTorrentInfo *)
}.
Definition alreadyPresent (cfg : Config) (fl : faults) (tv : bool) (hash : string) (req : AddRequest) (w : video_lib) : Z + list AddedFile :=
  if negb tv then findByHash cfg fl false hash w
  else if ar_episode req <=? 0 then inr []
  else
    let path := path_Join [TVDir cfg; ShowFolderName (ar_title req) (ar_first req); season_dir (ar_season req);
                           EpisodeFilename (ar_title req) (ar_season req) (ar_episode req) (String.substring 0 8 hash)] in
    match disk w !! path with
    | None => inr []
    | Some d => inr [mkAdded path (fusePath cfg path) (vs_size (readStub d)) (vs_index (readStub d)) (ar_season req) (ar_episode req)]
    end.
Definition releaseFile (req : AddRequest) (hash : string) : Z + list string :=
  match ar_file req with
  | None => inr []
  | Some None => inl 400
  | Some (Some (h, trackers)) => if String.eqb (canonicalHashKey h) (canonicalHashKey hash) then inr trackers else inl 400
  end.

Record AddResponse := mkResponse { rs_hash : string; rs_files : list AddedFile; AlreadyPresent : bool }.

(** Once the engine has named the torrent; the second part is what is to be dropped. *)
Definition add_named (cfg : Config) (fl : faults) (ans : answers) (now : Z) (req : AddRequest) (tv : bool) (hash magnet : string)
    (w : video_lib) : video_lib * list string * (Z + AddResponse) :=
  match an_info ans with
  | None => (w, [hash], inl 504)
  | Some files =>
      if negb (ar_accept req (Path <$> files)) then (w, [hash], inl 422)
      else
        let '(w, drops, r) := if tv then addEpisodes cfg fl now req hash magnet files w
                              else let '(w, r) := addMovie cfg fl req hash magnet files w in (w, [], r) in
        match r with
        | inl st => (w, (drops ++ [hash])%list, inl st)
        | inr l => (w, drops, inr (mkResponse hash l false))
        end
  end.
Definition add_files (cfg : Config) (fl : faults) (ans : answers) (now : Z) (req : AddRequest) (tv : bool) (requested magnet : string)
    (w : video_lib) : video_lib * list string * (Z + AddResponse) :=
  match an_reply ans with
  | None => (w, [requested], inl 502)
  | Some reply =>
      if String.eqb reply "" || negb (reInfoHash (lower_hash reply)) then (w, [requested], inl 502)
      else add_named cfg fl ans now req tv (lower_hash reply) magnet w
  end.

Definition Add (cfg : Config) (fl : faults) (ans : answers) (now : Z) (req : AddRequest) (w : video_lib) : video_lib * (Z + AddResponse) :=
  if an_cancelled ans then (w, inl 408)
  else match validate cfg req with
       | inl st => (w, inl st)
       | inr (tv, hash, req) =>
           match alreadyPresent cfg fl tv hash req w with
           | inl st => (w, inl st)
           | inr (f :: l) => (w, inr (mkResponse hash (f :: l) true))
           | inr [] =>
               match releaseFile req hash with
               | inl st => (w, inl st)
               | inr trackers =>
                   let magnet := if String.eqb (ar_magnet req) "" then BuildMagnet hash (ar_title req) (MergeTrackers [DefaultTrackers; trackers])
                                 else ar_magnet req in
                   let w := match an_taken ans with Some h => on_engine ({[ h ]} ∪ engine w) w | None => w end in
                   let '(w, drops, r) := add_files cfg fl ans now req tv hash magnet w in
                   (drop_all cfg fl (remove_dups (canonicalHashKey <$> drops)) w, r)
               end
           end
       end.

(** ** Remove *)

Definition insideMediaDirs (cfg : Config) (clean : string) : bool :=
  existsb (λ dir, match path_Rel dir clean with
                  | Some rel => negb (String.eqb rel "..") && negb (String.prefix "../" rel)
                  | None => false
                  end) (mediaDirs cfg).
Definition is_mkv (path : string) : bool := bool_decide (bytes_of ".mkv" `suffix_of` lower_runes path).
Definition path_candidates (cfg : Config) (path : string) : list string :=
  path :: if rooted path then [] else mediaDirs cfg ≫= λ dir, [path_Join [path_Dir dir; path]; path_Join [dir; path]].
Definition dir_there (d : disk_files) (p : string) : bool :=
  existsb (λ f, path_prefix p f.1 && negb (String.eqb f.1 p)) (map_to_list d).
Fixpoint first_stub (cfg : Config) (d : disk_files) (in_bounds : bool) (l : list string) : Z + string :=
  match l with
  | [] => inl (if in_bounds then 404 else 400)
  | c :: l =>
      let clean := path_Clean c in
      if negb (rooted clean) || negb (insideMediaDirs cfg clean) then first_stub cfg d in_bounds l
      else match d !! clean with
           | Some _ => if is_mkv clean then inr clean else inl 400
           | None => if dir_there d clean then inl 400 else first_stub cfg d true l
           end
  end.
Definition resolveInsideMediaDirs (cfg : Config) (path : string) (w : video_lib) : Z + string :=
  if String.eqb (TrimSpace path) "" then inl 400 else first_stub cfg (disk w) false (path_candidates cfg path).

Definition forgetEpisode (cfg : Config) (fl : faults) (path : string) (w : video_lib) : video_lib :=
  if has_registry cfg && rows_ok fl path
  then on_rows (filter (λ kr, ¬ (FilePath kr.2 = path ∧ delete_ok fl kr.1 = true)) (episodes w)) w else w.

Definition remove_target (cfg : Config) (fl : faults) (path : string) (s : video_lib * list string * list string * list string) :
    video_lib * list string * list string * list string :=
  let '(w, removed, failed, hashes) := s in
  let hash := match disk w !! path with Some d => vs_hash (readStub d) | None => "" end in
  let '(w, ok) := deleteStub (remove_ok fl) path w in
  if negb ok then (w, removed, (failed ++ [path])%list, hashes)
  else (forgetEpisode cfg fl path w, (removed ++ [path])%list, failed, if String.eqb hash "" then hashes else (hashes ++ [hash])%list).

Definition remove_targets (cfg : Config) (fl : faults) (rq_path rq_hash : string) (w : video_lib) : Z + list string :=
  if negb (String.eqb rq_path "") then
    match resolveInsideMediaDirs cfg rq_path w with inl st => inl st | inr p => inr [p] end
  else if negb (String.eqb rq_hash "") then
    let hash := lower_hash rq_hash in
    if negb (reInfoHash hash) then inl 400
    else match findByHash cfg fl false hash w, findByHash cfg fl true hash w with
         | inl st, _ => inl st
         | _, inl st => inl st
         | inr a, inr b => match (a ++ b)%list with [] => inl 404 | l => inr (af_path <$> l) end
         end
  else inl 400.
Definition Remove (cfg : Config) (fl : faults) (rq_path rq_hash : string) (w : video_lib) : video_lib * (Z + list string) :=
  match remove_targets cfg fl rq_path rq_hash w with
  | inl st => (w, inl st)
  | inr targets =>
      let '(w, removed, failed, hashes) := foldl (λ s p, remove_target cfg fl p s) (w, [], [], []) targets in
      (drop_all cfg fl (remove_dups hashes) w, if bool_decide (failed = []) then inr removed else inl 500)
  end.
