(* ===== verification/VideoStubs.v ===== *)
(** * The stubs of videos and their torrents

    What a stub says of its torrent, in its text and in its name, and the invariant that
    no request takes the torrent of a stub away. *)

From Stdlib Require Import Ascii String.
From S2P Require Import Prelude GoFloat GoStrings Flac Cue CueSplit Paths Naming Sources AudioRegistry Stub Videos.
Local Open Scope string_scope.
Local Open Scope Z_scope.

(** ** A stub tells its torrent *)

Lemma known_imdb s j : set_known (bytes_of "imdb") (JStr s) j = (mkMkv (j_url j) (j_size j) (j_magnet j) (text_of s) (j_id j) (j_ns j), true).
Proof. reflexivity. Qed.
Lemma known_magnet v j : set_known (bytes_of "magnet") v j = (j, true).
Proof. reflexivity. Qed.
Lemma known_size lit j : set_known (bytes_of "size") (JNum lit) j =
  match Atoi (text_of lit) with Some n => (mkMkv (j_url j) n (j_magnet j) (j_imdb j) (j_id j) (j_ns j), true) | None => (j, false) end.
Proof. reflexivity. Qed.
Lemma known_url s j : set_known (bytes_of "url") (JStr s) j = (mkMkv (text_of s) (j_size j) (j_magnet j) (j_imdb j) (j_id j) (j_ns j), true).
Proof. reflexivity. Qed.

Definition video_members (url : string) (size : Z) (magnet imdb : string) : list (string * out_value) :=
  [("imdb", OStr imdb); ("magnet", OStr magnet); ("size", ONum size); ("url", OStr url)].

Lemma fill_video url size magnet imdb : in_i64 size →
  fill_known ((λ m, (bytes_of m.1, to_json m.2)) <$> video_members url size magnet imdb) = Some (mkMkv url size "" imdb "" "").
Proof.
  intros Hs. unfold fill_known, video_members. cbn [fmap list_fmap foldl fst snd to_json].
  rewrite known_imdb. cbn [fst snd]. rewrite known_magnet. cbn [fst snd]. rewrite known_size, text_bytes, Atoi_itoa by done. cbn [fst snd].
  rewrite known_url, !text_bytes. reflexivity.
Qed.

Lemma readStub_video url size magnet imdb :
  valid_utf8 url = true → valid_utf8 magnet = true → valid_utf8 imdb = true → 0 ≤ size → in_i64 size →
  readStub (video_stub url size magnet imdb) = mkVstub size (find_link url) imdb (stub_index url).
Proof.
  intros Hu Hm Hi Hs Hr. unfold readStub, video_stub. rewrite string_of_list_byte_of_string. fold (video_members url size magnet imdb).
  set (ms := video_members url size magnet imdb).
  pose proof (bytes_text _ (print_range ms)) as Hb. rewrite object_text in *. rewrite trim_braces.
  change (HasPrefix_char "{" (String "{" ?x)) with true. cbv iota. rewrite Hb. unfold unmarshal_known.
  rewrite parse_print; [|done|by repeat constructor]. unfold ms. by rewrite fill_video.
Qed.

Definition texts_ok (cfg : Config) (hash : string) : Prop :=
  ascii_only (GoStormURL cfg) = true ∧ has_char "=" (GoStormURL cfg) = false ∧ String.length hash = 40%nat ∧ all_chars hex_lower hash = true.

Lemma hex_lower_hex c : hex_lower c = true → is_hex c = true ∧ lower_char c = c ∧ code c < 128 ∧ c ≠ "/"%char.
Proof.
  intros Hc. pose proof (check_char (λ x, negb (hex_lower x) || (is_hex x && Ascii.eqb (lower_char x) x && (code x <? 128) && negb (Ascii.eqb x "/")))
    ltac:(by vm_compute) c) as H. cbv beta in H. rewrite Hc in H. cbn [negb orb] in H.
  rewrite !andb_true_iff, negb_true_iff, Ascii.eqb_eq, Ascii.eqb_neq, Z.ltb_lt in H. naive_solver.
Qed.

Lemma hex_facts hash : all_chars hex_lower hash = true →
  all_hex hash = true ∧ ToLower hash = hash ∧ Forall (λ z, z < 128) (bytes_of hash) ∧ has_char "/" hash = false.
Proof.
  induction hash as [|c h IH]; [by repeat constructor|]. cbn [all_chars]. intros [Hc Hh]%andb_true_iff.
  destruct (hex_lower_hex c Hc) as (H1 & H2 & H3 & H4). destruct (IH Hh) as (I1 & I2 & I3 & I4). cbn [all_hex ToLower has_char].
  rewrite H1, I1, H2, I2, I4, orb_false_r. split_and!; [done|done| |by apply Ascii.eqb_neq]. change (bytes_of (String c h)) with (code c :: bytes_of h). by constructor.
Qed.

(** The hash of a stub is that of its torrent. *)
Lemma video_stub_hash cfg hash i size magnet imdb :
  texts_ok cfg hash → valid_utf8 magnet = true → valid_utf8 imdb = true → 0 ≤ i → in_i64 i → 0 ≤ size → in_i64 size →
  vs_hash (readStub (video_stub (streamURL (GoStormURL cfg) hash i) size magnet imdb)) = hash.
Proof.
  intros (Ha & He & Hl & Hh) Hm Hi H1 H2 H3 H4. destruct (hex_facts hash Hh) as (Hx & Hlow & _ & _).
  rewrite readStub_video by (done || by apply stream_valid). cbn [vs_hash].
  pose proof (extract_stream (GoStormURL cfg) hash i He Hl Hx H1 H2) as E. unfold ExtractHashAndIndex in E. injection E as E _. by rewrite E.
Qed.

(** ** The name of a stub tells its torrent *)

Lemma lower_rune_id z : z < 128 → ¬ 65 ≤ z ≤ 90 → lower_rune z = z.
Proof. intros H1 H2. unfold lower_rune. repeat case_match; lia. Qed.

Lemma named_tail a suffix : all_chars hex_lower suffix = true → named_by suffix (a +:+ "_" +:+ suffix +:+ ".mkv") = true.
Proof.
  intros Hs. unfold named_by. apply bool_decide_eq_true. set (b := "_" +:+ suffix +:+ ".mkv").
  assert (Hb : Forall (λ z, z < 128 ∧ ¬ 65 ≤ z ≤ 90) (bytes_of b)).
  { unfold b. rewrite !bytes_app. apply list.Forall_app. split; [repeat constructor; vm_compute; intuition congruence|].
    apply list.Forall_app. split; [|repeat constructor; vm_compute; intuition congruence].
    clear b. induction suffix as [|c s IH]; [constructor|]. cbn [all_chars] in Hs. apply andb_true_iff in Hs as [Hc Hs].
    change (bytes_of (String c s)) with (code c :: bytes_of s). constructor; [|by apply IH].
    unfold hex_lower, is_digit in Hc. lia. }
  rewrite lower_runes_tail by (eapply list.Forall_impl; [exact Hb|]; by intros z [? _]). exists (lower_runes a). f_equal.
  induction Hb as [|z l [H1 H2] _ IH]; [done|]. cbn. f_equal; [by rewrite lower_rune_id|done].
Qed.

Lemma substring_all p n m s : all_chars p s = true → all_chars p (String.substring n m s) = true.
Proof.
  revert n m. induction s as [|c s IH]; intros [|n] [|m] H; try done; cbn [all_chars] in H; apply andb_true_iff in H as [Hc Hs].
  - cbn [String.substring all_chars]. rewrite Hc. by apply IH.
  - cbn [String.substring]. by apply IH.
  - cbn [String.substring]. by apply IH.
Qed.

Lemma hex_suffix hash : String.length hash = 40%nat → all_chars hex_lower hash = true →
  all_chars hex_lower (HashSuffix hash) = true ∧ ToLower (HashSuffix hash) = HashSuffix hash ∧
  all_chars hex_lower (HashPrefix hash) = true ∧ ToLower (HashPrefix hash) = HashPrefix hash ∧ HashPrefix hash = String.substring 0 8 hash.
Proof.
  intros Hl Hh. unfold HashSuffix, HashPrefix. rewrite Hl. change (40 <=? 8)%nat with false. cbv iota.
  split_and!; try (by apply substring_all); try (by apply hex_facts, substring_all). done.
Qed.

(** The file of a movie or an episode is found by the hash of its torrent. *)
Lemma movie_path_found cfg req hash : rooted (MoviesDir cfg) = true → String.length hash = 40%nat → all_chars hex_lower hash = true →
  path_prefix (MoviesDir cfg) (movie_path cfg req hash) = true ∧ named_by (ToLower (HashSuffix hash)) (movie_path cfg req hash) = true.
Proof.
  intros Hd Hl Hh. destruct (hex_facts hash Hh) as (_ & _ & _ & Hslash). destruct (hex_suffix hash Hl Hh) as (Hs & -> & _ & _ & _).
  unfold movie_path. set (n := mkMovieName _ _ _ _ _). destruct (movie_stays (rev (comps (MoviesDir cfg))) n Hslash) as (x & l & Hp & E).
  destruct (comps_join (MoviesDir cfg) _ Hd (movie_name_some n)) as [E1 _]. rewrite E, rev_app_distr, rev_involutive in E1. cbn [rev] in E1.
  rewrite app_assoc in E1. split.
  - unfold path_prefix. apply bool_decide_eq_true. rewrite E1, <-app_assoc. by exists (rev l ++ [x +:+ movie_end n])%list.
  - destruct (join_ends _ _ _ _ Hd (movie_name_some n) E1) as [a ->]. unfold movie_end. rewrite <-!(append_assoc a), <-!append_assoc.
    rewrite (append_assoc _ "_" _), (append_assoc _ ("_" +:+ _) ".mkv"), (append_assoc "_"). by apply named_tail.
Qed.

Lemma episode_path_found cfg req hash season episode : rooted (TVDir cfg) = true → String.length hash = 40%nat → all_chars hex_lower hash = true →
  0 ≤ season → 0 ≤ episode → let path := episode_path (TVDir cfg) (ar_title req) (ar_first req) season episode hash in
  path_prefix (TVDir cfg) path = true ∧ named_by (ToLower (HashPrefix hash)) path = true.
Proof.
  intros Hd Hl Hh Hs He path. destruct (hex_facts hash Hh) as (_ & _ & _ & Hslash). destruct (hex_suffix hash Hl Hh) as (_ & _ & Hx & -> & Hpre).
  destruct (episode_path_comps (TVDir cfg) (ar_title req) (ar_first req) season episode hash Hd Hs He Hslash) as (l & _ & _ & E & _). fold path in E. split.
  - unfold path_prefix. apply bool_decide_eq_true. rewrite E. by eexists.
  - unfold path, episode_path in *. change [season_dir season; ?f] with ([season_dir season] ++ [f])%list in E. rewrite !app_assoc in E.
    set (d1 := path_Join [path_Join [TVDir cfg; _]; _]) in *. 
    assert (Hd1 : rooted d1 = true). { unfold d1. apply comps_join; [apply comps_join; [done|apply folder_some]|]. by apply season_component. }
    destruct (join_ends d1 _ _ _ Hd1 (proj1 (proj2 (episode_component _ _ _ _ Hs He (substring_has _ 0 8 _ Hslash)))) E) as [a ->].
    unfold EpisodeFilename. rewrite <-Hpre, <-!append_assoc.
    rewrite (append_assoc _ "_" _), (append_assoc _ ("_" +:+ _) ".mkv"), (append_assoc "_"). by apply named_tail.
Qed.

(** ** Every stub keeps its torrent *)

Definition found_by (cfg : Config) (p h : string) : Prop :=
  (MoviesDir cfg ≠ "" ∧ path_prefix (MoviesDir cfg) p = true ∧ named_by (ToLower (HashSuffix h)) p = true) ∨
  (TVDir cfg ≠ "" ∧ path_prefix (TVDir cfg) p = true ∧ named_by (ToLower (HashPrefix h)) p = true).
(** A stub that names a torrent is found by its hash, and the engine has the torrent. *)
Definition lib_ok (cfg : Config) (w : video_lib) : Prop :=
  ∀ p d, disk w !! p = Some d → vs_hash (readStub d) ≠ "" → found_by cfg p (vs_hash (readStub d)) ∧ vs_hash (readStub d) ∈ engine w.

Lemma walk_elem dir p d (dk : disk_files) : dir ≠ "" → (p, d) ∈ walk dir dk ↔ dk !! p = Some d ∧ path_prefix dir p = true.
Proof.
  intros Hd. unfold walk. destruct (String.eqb_spec dir ""); [done|]. rewrite merge_sort_Permutation, list_elem_of_filter, elem_of_map_to_list.
  simpl. tauto.
Qed.

Lemma findByHash_none cfg fl tv h w p d : findByHash cfg fl tv h w = inr [] → disk w !! p = Some d →
  let dir := if tv then TVDir cfg else MoviesDir cfg in
  dir ≠ "" → path_prefix dir p = true → named_by (ToLower (if tv then HashPrefix h else HashSuffix h)) p = true → False.
Proof.
  intros Hf Hp dir Hd Hpre Hn. unfold findByHash in Hf. destruct (walk_ok fl tv); [|done]. injection Hf as Hf. apply (f_equal length) in Hf. rewrite length_fmap in Hf. apply nil_length_inv in Hf.
  assert (Hin : (p, d) ∈ filter (λ f : string * list Byte.byte, named_by (ToLower (if tv then HashPrefix h else HashSuffix h)) f.1 = true) (walk dir (disk w)));
    [|unfold dir in Hin; rewrite Hf in Hin; by apply elem_of_nil in Hin].
  apply list_elem_of_filter. split; [done|]. by apply walk_elem.
Qed.

Lemma unused_not_found cfg fl h w p d :
  findByHash cfg fl false h w = inr [] → findByHash cfg fl true h w = inr [] → disk w !! p = Some d → ¬ found_by cfg p h.
Proof.
  intros H1 H2 Hp [(Ha & Hb & Hc)|(Ha & Hb & Hc)].
  - by apply (findByHash_none cfg fl false h w p d H1 Hp).
  - by apply (findByHash_none cfg fl true h w p d H2 Hp).
Qed.

(** What a drop does: nothing, or it removes a torrent no file is found by. *)
Lemma drop_cases cfg fl h w : dropTorrentIfUnused cfg fl h w = w ∨
  (dropTorrentIfUnused cfg fl h w = on_engine (engine w ∖ {[ h ]}) w ∧ ∀ p d, disk w !! p = Some d → ¬ found_by cfg p h).
Proof.
  unfold dropTorrentIfUnused. destruct (String.eqb h ""); [by left|].
  destruct (findByHash cfg fl false h w) as [|[|]] eqn:E1; [by left| |by left].
  destruct (findByHash cfg fl true h w) as [|[|]] eqn:E2; [by left| |by left].
  destruct (audio_uses fl h) as [[]|]; [by left| |by left]. unfold dropTorrent. destruct (drop_ok fl h); [|by left]. right. split; [done|].
  intros p d Hp. by eapply unused_not_found.
Qed.

Lemma drop_ok_inv cfg fl h w : lib_ok cfg w → lib_ok cfg (dropTorrentIfUnused cfg fl h w).
Proof.
  intros Hw. destruct (drop_cases cfg fl h w) as [->|[-> Hn]]; [done|]. intros p d Hp Hne. cbn [disk on_engine] in Hp. destruct (Hw p d Hp Hne) as [Hf He].
  split; [done|]. cbn [engine on_engine]. apply elem_of_difference. split; [done|]. rewrite elem_of_singleton. intros E. rewrite E in Hf. by apply (Hn p d).
Qed.

Lemma drop_all_inv cfg fl l w : lib_ok cfg w → lib_ok cfg (drop_all cfg fl l w).
Proof. revert w. induction l as [|h l IH]; intros w Hw; [done|]. by apply IH, drop_ok_inv. Qed.

(** *** Writes and deletions *)

(** A file that may be at a path: no stub, or one of the torrent the path is found by. *)
Definition stub_for (cfg : Config) (w : video_lib) (h p : string) (d : list Byte.byte) : Prop :=
  vs_hash (readStub d) = "" ∨ (vs_hash (readStub d) = h ∧ found_by cfg p h ∧ h ∈ engine w).

Lemma write_inv cfg h p d w : lib_ok cfg w → stub_for cfg w h p d → lib_ok cfg (on_disk (<[p := d]> (disk w)) w).
Proof.
  intros Hw Hd q d' Hq Hne. cbn [disk on_disk engine] in *. apply lookup_insert_Some in Hq as [[<- <-]|[_ Hq]]; [|by apply Hw].
  destruct Hd as [E|(-> & Hf & He)]; [done|]. done.
Qed.

Lemma delete_inv cfg p w : lib_ok cfg w → lib_ok cfg (on_disk (delete p (disk w)) w).
Proof. intros Hw q d Hq Hne. cbn [disk on_disk engine] in *. apply lookup_delete_Some in Hq as [_ Hq]. by apply Hw. Qed.

Lemma deleteStub_inv cfg ok p w : lib_ok cfg w → lib_ok cfg (deleteStub ok p w).1 ∧ engine (deleteStub ok p w).1 = engine w.
Proof. intros Hw. unfold deleteStub. destruct (ok p); [|done]. split; [by apply delete_inv|done]. Qed.

Lemma rollback_inv cfg fl req l w : lib_ok cfg w → lib_ok cfg (rollback fl req l w) ∧ engine (rollback fl req l w) = engine w.
Proof.
  revert w. induction l as [|a l IH]; intros w Hw; [done|]. change (rollback fl req (a :: l) w) with (rollback fl req l (undo_row fl req a (undo_file fl a w))).
  assert (H : lib_ok cfg (undo_row fl req a (undo_file fl a w)) ∧ engine (undo_row fl req a (undo_file fl a w)) = engine w).
  { assert (H1 : lib_ok cfg (undo_file fl a w) ∧ engine (undo_file fl a w) = engine w) by (unfold undo_file; case_match; [done|by apply deleteStub_inv]).
    unfold undo_row. case_match; [|done]. case_match; done. }
  destruct (IH _ (proj1 H)) as [H1 H2]. split; [done|]. rewrite H2. apply H.
Qed.

Definition faults_ok (fl : faults) : Prop := ∀ p l, write_to fl p = PartWritten l → vs_hash (readStub l) = "".
Definition stat_ok (f : FileStat) : Prop := 0 ≤ ID f ∧ in_i64 (ID f) ∧ 0 ≤ Length f ∧ in_i64 (Length f).
Definition dir_ok (dir : string) : Prop := dir = "" ∨ rooted dir = true.
Definition cfg_ok (cfg : Config) : Prop :=
  dir_ok (MoviesDir cfg) ∧ dir_ok (TVDir cfg) ∧ ascii_only (GoStormURL cfg) = true ∧ has_char "=" (GoStormURL cfg) = false.
Definition hex_hash (h : string) : Prop := String.length h = 40%nat ∧ all_chars hex_lower h = true.

Lemma rooted_some dir : rooted dir = true → dir ≠ "".
Proof. by intros H ->. Qed.

Lemma file_episodes_inv cfg fl now req hash magnet l acc w :
  cfg_ok cfg → rooted (TVDir cfg) = true → faults_ok fl → hex_hash hash → valid_utf8 magnet = true → hash ∈ engine w →
  Forall (λ c : Z * Z * FileStat, 0 ≤ c.1.1 ∧ 0 ≤ c.1.2 ∧ stat_ok c.2) l → lib_ok cfg w →
  lib_ok cfg (file_episodes cfg fl now req hash magnet l acc w).1 ∧ engine (file_episodes cfg fl now req hash magnet l acc w).1 = engine w.
Proof.
  intros (_ & _ & Ha & Heq) Hr Hfl [Hlen Hhex] Hm He Hl. revert acc w He. induction Hl as [|[[season episode] f] l (Hs & Hep & Hf) Hl IH]; intros acc w He Hw; [done|].
  cbn [file_episodes]. cbn [fst snd] in *. set (path := episode_path _ _ _ _ _ _). set (key := EpisodeKey _ _ _).
  assert (Hfound : found_by cfg path hash).
  { right. destruct (episode_path_found cfg req hash season episode Hr Hlen Hhex Hs Hep) as [H1 H2]. split_and!; [by apply rooted_some|done|done]. }
  destruct (get_ok fl key); cbn [negb]; [|by apply (rollback_inv cfg fl req acc w Hw)]. destruct (write_to fl path) as [| |part] eqn:Ew.
  - set (w1 := on_disk _ w). assert (Hw1 : lib_ok cfg w1).
    { apply (write_inv cfg hash); [done|]. right. destruct Hf as (F1 & F2 & F3 & F4). split_and!; [by apply video_stub_hash|done|done]. }
    destruct (put_ok fl key); cbn [negb]; [|by apply (rollback_inv cfg fl req _ w1 Hw1)].
    match goal with |- context [file_episodes _ _ _ _ _ _ _ ?d ?w] => destruct (IH d w) as [I1 I2] end.
    + by case_match.
    + by case_match.
    + split; [done|]. rewrite I2. by case_match.
  - by apply (rollback_inv cfg fl req acc w Hw).
  - apply (rollback_inv cfg fl req acc (on_disk (<[path := part]> (disk w)) w)). apply (write_inv cfg hash); [done|]. left. by apply (Hfl path).
Qed.

Lemma replaced_inv cfg fl hash l s : lib_ok cfg s.1 → lib_ok cfg (foldl (λ s p, remove_replaced fl hash p s) s l).1.
Proof.
  revert s. induction l as [|p l IH]; intros s Hs; [done|]. apply IH. unfold remove_replaced. destruct (replaced p) as [e|]; [|done].
  destruct (deleteStub_inv cfg (remove_ok fl) (FilePath e) s.1 Hs) as [H _]. by destruct (deleteStub _ _ _).
Qed.

(** *** The files of a request *)

Lemma Atoi_digits ds n : all_chars is_digit ds = true → Atoi ds = Some n → 0 ≤ n ∧ in_i64 n.
Proof.
  intros Hd. unfold Atoi. destruct ds as [|c s]; [done|]. cbn [all_chars] in Hd. apply andb_true_iff in Hd as [Hc _].
  assert (Hne : Ascii.eqb c "-" = false ∧ Ascii.eqb c "+" = false).
  { pose proof (check_char (λ x, negb (is_digit x) || (negb (Ascii.eqb x "-") && negb (Ascii.eqb x "+"))) ltac:(by vm_compute) c) as H.
    cbv beta in H. rewrite Hc in H. cbn [negb orb] in H. by rewrite andb_true_iff, !negb_true_iff in H. }
  destruct Hne as [Hm ->]. unfold DecimalString.NilZero.int_of_string. rewrite Hm.
  destruct (DecimalString.NilZero.uint_of_string (String c s)) as [u|]; [|done]. cbn [option_map fmap option_fmap option_map mbind option_bind Z.of_int].
  destruct ((min_i64 <=? Z.of_uint u) && (Z.of_uint u <=? max_i64)) eqn:E; [|done]. intros [= <-].
  apply andb_true_iff in E as [E1 E2]. apply Z.leb_le in E1, E2. unfold Z.of_uint in *. unfold in_i64, min_i64, max_i64 in *. split; lia.
Qed.

Lemma digits_value_range ds : all_chars is_digit ds = true → 0 ≤ digits_value ds ∧ in_i64 (digits_value ds).
Proof.
  intros Hd. unfold digits_value. destruct (Atoi ds) as [n|] eqn:E; [by eapply Atoi_digits|]. unfold in_i64, max_i64. lia.
Qed.

Definition number_ok (k : Z * Z) : Prop := 0 ≤ k.1 ∧ in_i64 k.1 ∧ 0 ≤ k.2 ∧ in_i64 k.2.

Lemma numbers_range sep s k : numbers_at sep s = Some k → number_ok k.
Proof.
  unfold numbers_at. assert (Hb : ∀ t, all_chars is_digit (break_at not_digit t).1 = true).
  { intros t. destruct (break_at_split not_digit t) as (a & b & -> & _ & Ha & _). cbn [fst]. eapply all_chars_impl; [|exact Ha].
    intros c. unfold not_digit. by rewrite negb_involutive. }
  pose proof (Hb s) as H1. destruct (break_at not_digit s) as [d1 [|x u]]; [done|]. case_match; [|done]. intros [= <-].
  destruct (digits_value_range d1 H1), (digits_value_range _ (Hb u)). by split_and!.
Qed.

Lemma Parse_range s : number_ok (ParseSeasonEpisode s).
Proof.
  assert (Hf : ∀ here, (∀ t k, here t = Some k → number_ok k) → ∀ t k, first_match here t = Some k → number_ok k).
  { intros here Hh. induction t as [|c t IH]; intros k; cbn [first_match]; case_match eqn:E; [by intros [= <-]; eapply Hh|done|by intros [= <-]; eapply Hh|apply IH]. }
  assert (H0 : number_ok (0, 0)) by (unfold number_ok, in_i64; cbn; lia).
  unfold ParseSeasonEpisode. destruct (first_match sxe_at s) as [k|] eqn:E1.
  - eapply (Hf sxe_at); [|exact E1]. intros [|c t] k'; cbn [sxe_at]; [done|]. case_match; [|done]. apply numbers_range.
  - destruct (first_match nxn_at s) as [k|] eqn:E2; [|done]. eapply (Hf nxn_at); [|exact E2]. intros t k'. apply numbers_range.
Qed.

Lemma largest_elem files f : largest_video files = Some f → f ∈ files.
Proof.
  unfold largest_video. assert (H : ∀ l best, foldl (λ best f, if IsVideoFile (Path f) && match best with Some b => Length b <? Length f | None => true end then Some f else best) best l = Some f →
    best = Some f ∨ f ∈ l).
  { induction l as [|x l IH]; intros best E; [by left|]. cbn [foldl] in E. apply IH in E as [E|E]; [|right; by right].
    case_match; [injection E as ->; right; by left|by left]. }
  intros E. apply H in E as [E|E]; done.
Qed.

Lemma pickFile_elem i files f : pickFile i files = inr f → f ∈ files.
Proof.
  unfold pickFile. case_match.
  - destruct (list_find _ files) as [[n g]|] eqn:E; [|done]. case_match; [|done]. intros [= <-]. apply list_find_Some in E as (E & _ & _).
    by eapply list_elem_of_lookup_2.
  - case_match eqn:E; [|done]. intros [= <-]. by apply largest_elem.
Qed.

Lemma pickForEpisode_elem req files f : pickFileForEpisode req files = inr f → f ∈ files.
Proof.
  unfold pickFileForEpisode. case_match; [apply pickFile_elem|]. destruct (list_find _ files) as [[n g]|] eqn:E; [|apply pickFile_elem].
  intros [= <-]. apply list_find_Some in E as (E & _ & _). by eapply list_elem_of_lookup_2.
Qed.

(** The episodes of a request: numbers a registry takes, files of the torrent. *)
Definition episode_ok (files : list FileStat) (c : Z * Z * FileStat) : Prop := number_ok c.1 ∧ c.2 ∈ files.

Lemma candidates_ok req files l : 0 < ar_season req → in_i64 (ar_season req) → in_i64 (ar_episode req) →
  candidates req files = inr l → Forall (episode_ok files) l.
Proof.
  intros Hs Hs' He. unfold candidates. destruct (Z.ltb_spec 0 (ar_episode req)).
  - destruct (pickFileForEpisode req files) as [|f] eqn:E; [done|]. intros [= <-]. constructor; [|constructor].
    split; [unfold number_ok; cbn [fst snd]; split_and!; (done || lia)|by apply pickForEpisode_elem in E].
  - intros E. assert (Hl : l = omap (pack_file req) files) by (by destruct (omap (pack_file req) files); [|injection E as <-]). subst l. clear E.
    apply list.Forall_forall. intros c Hc. apply list_elem_of_omap in Hc as (f & Hf & Hc). unfold pack_file in Hc.
    pose proof (Parse_range (filepath_Base (Path f))) as (P1 & P2 & P3 & P4). destruct (ParseSeasonEpisode _) as [s e]. case_match; [done|].
    injection Hc as <-. split; [|done]. unfold number_ok. cbn [fst snd] in *. case_match; split_and!; (done || lia).
Qed.

Lemma keep_longest_elem l best k f : foldl keep_longest best l !! k = Some f → best !! k = Some f ∨ (k, f) ∈ l.
Proof.
  revert best. induction l as [|[k' f'] l IH]; intros best; [by left|]. cbn [foldl]. intros E. apply IH in E as [E|E]; [|right; by right].
  unfold keep_longest in E. assert (Hi : ∀ m : gmap (Z * Z) FileStat, <[k' := f']> m !! k = Some f → m !! k = Some f ∨ (k, f) ∈ (k', f') :: l).
  { intros m [[<- <-]|[_ ?]]%lookup_insert_Some; [right; by left|by left]. }
  destruct (best !! k') as [cur|]; [case_match; [by apply Hi in E|by left]|by apply Hi in E].
Qed.

Lemma one_each_elem l c : c ∈ one_each l → c ∈ l.
Proof.
  unfold one_each. rewrite merge_sort_Permutation. destruct c as [k f]. rewrite elem_of_map_to_list. intros E.
  apply keep_longest_elem in E as [E|E]; [by rewrite lookup_empty in E|done].
Qed.

Lemma one_each_ok files l : Forall (episode_ok files) l → Forall (episode_ok files) (one_each l).
Proof. rewrite !list.Forall_forall. intros H c Hc. by apply H, one_each_elem. Qed.

(** *** The invariant *)

Lemma QueryEscape_ascii s : ascii_only (QueryEscape s) = true.
Proof.
  induction s as [|c s IH]; [done|]. cbn [QueryEscape].
  pose proof (check_char (λ x, (negb (unreserved x) || (code x <? 128)) && (code (upper_hex (code x / 16)) <? 128) && (code (upper_hex (code x mod 16)) <? 128))
    ltac:(by vm_compute) c) as H. cbv beta in H. rewrite !andb_true_iff in H. destruct H as [[H1 H2] H3].
  assert (Hc : ∀ x t, ascii_only (String x t) = (code x <? 128) && ascii_only t) by done.
  destruct (unreserved c); [cbn [negb orb] in H1; by rewrite Hc, IH, H1|]. destruct (Ascii.eqb c " "); [by rewrite Hc, IH|]. by rewrite !Hc, IH, H2, H3.
Qed.

Lemma BuildMagnet_valid hash name trackers : all_hex hash = true ∨ all_chars base32_char hash = true → valid_utf8 (BuildMagnet hash name trackers) = true.
Proof.
  intros Hh. apply ascii_only_valid. unfold BuildMagnet. rewrite !ascii_only_app.
  assert (Ha : ascii_only hash = true).
  { destruct Hh as [Hh|Hh]; [by apply hex_ascii|]. clear -Hh. induction hash as [|c h IH]; [done|]. cbn [all_chars] in Hh. apply andb_true_iff in Hh as [Hc Hh].
    change (ascii_only (String c h)) with ((code c <? 128) && ascii_only h). rewrite IH by done. unfold base32_char in Hc. rewrite andb_true_r. lia. }
  assert (Ht : ascii_only (foldr (λ tr acc, "&tr=" +:+ QueryEscape tr +:+ acc) "" trackers) = true).
  { induction trackers as [|t l IH]; [done|]. cbn [foldr]. by rewrite !ascii_only_app, QueryEscape_ascii, IH. }
  rewrite Ha, Ht. case_match; [done|]. by rewrite ascii_only_app, QueryEscape_ascii.
Qed.

(** What the engine promises: a well-formed answer is the hash, in hex, of the torrent it
    has taken; its files have proper numbers. *)
Record honest (ans : answers) : Prop := {
  ho_reply r : an_reply ans = Some r → reInfoHash (lower_hash r) = true → hex_hash (lower_hash r) ∧ an_taken ans = Some (lower_hash r);
  ho_files l : an_info ans = Some l → Forall stat_ok l
}.
(** The texts of a request come out of a JSON decoder. *)
Definition request_ok (req : AddRequest) : Prop :=
  valid_utf8 (ar_magnet req) = true ∧ valid_utf8 (ar_imdb req) = true ∧ in_i64 (ar_season req) ∧ in_i64 (ar_episode req).

Lemma validate_facts cfg req tv hash req' : validate cfg req = inr (tv, hash, req') →
  reInfoHash hash = true ∧ req' = normalised (TrimSpace (ar_title req)) req ∧
  (if tv then TVDir cfg ≠ "" ∧ 0 < ar_season req else MoviesDir cfg ≠ "").
Proof.
  unfold validate. destruct (kind_of _) as [k|]; [|done]. case_match; [done|]. destruct (request_hash req) as [|h] eqn:Eh; [done|].
  assert (Hh : reInfoHash h = true).
  { unfold request_hash in Eh. repeat case_match; try done; injection Eh as <-; match goal with H : _ || _ = false |- _ => apply orb_false_iff in H as [_ H]; by apply negb_false_iff in H end. }
  destruct k.
  - case_match; [done|]. destruct (Z.leb_spec (ar_season req) 0); [done|]. case_match; [done|]. destruct (String.eqb_spec (TVDir cfg) ""); [done|].
    intros [= <- <- <-]. split_and!; (done || lia).
  - destruct (String.eqb_spec (MoviesDir cfg) ""); [done|]. intros [= <- <- <-]. done.
Qed.

Lemma addEpisodes_inv cfg fl now req hash magnet files w :
  cfg_ok cfg → rooted (TVDir cfg) = true → faults_ok fl → hex_hash hash → valid_utf8 magnet = true → hash ∈ engine w → Forall stat_ok files →
  0 < ar_season req → in_i64 (ar_season req) → in_i64 (ar_episode req) → lib_ok cfg w →
  lib_ok cfg (addEpisodes cfg fl now req hash magnet files w).1.1.
Proof.
  intros Hc Hr Hfl Hh Hm He Hst Hs Hs' Hep Hw. unfold addEpisodes. destruct (candidates req files) as [|l] eqn:El; [done|].
  pose proof (one_each_ok files l (candidates_ok req files l Hs Hs' Hep El)) as Hok.
  assert (Hl : Forall (λ c : Z * Z * FileStat, 0 ≤ c.1.1 ∧ 0 ≤ c.1.2 ∧ stat_ok c.2) (one_each l)).
  { eapply list.Forall_impl; [exact Hok|]. intros c [(? & _ & ? & _) Hin]. split_and!; try done. by eapply list.Forall_forall in Hst. }
  destruct (file_episodes_inv cfg fl now req hash magnet (one_each l) [] w Hc Hr Hfl Hh Hm He Hl Hw) as [H _].
  destruct (file_episodes cfg fl now req hash magnet (one_each l) [] w) as [w1 [st|acc]]; [done|]. cbn [fst] in H.
  pose proof (replaced_inv cfg fl hash acc.*2 (w1, []) H) as H2. by destruct (foldl _ (w1, []) acc.*2).
Qed.

Lemma addMovie_inv cfg fl req hash magnet files w :
  cfg_ok cfg → rooted (MoviesDir cfg) = true → faults_ok fl → hex_hash hash → valid_utf8 magnet = true → valid_utf8 (ar_imdb req) = true →
  hash ∈ engine w → Forall stat_ok files → lib_ok cfg w → lib_ok cfg (addMovie cfg fl req hash magnet files w).1.
Proof.
  intros (_ & _ & Ha & Heq) Hr Hfl [Hlen Hhex] Hm Hi He Hst Hw. unfold addMovie. destruct (pickFile _ _) as [|f] eqn:Ef; [done|].
  apply pickFile_elem in Ef. eapply list.Forall_forall in Hst as (F1 & F2 & F3 & F4); [|exact Ef].
  set (path := movie_path cfg req hash). destruct (write_to fl path) as [| |part] eqn:Ew; [|done|].
  - apply (write_inv cfg hash); [done|]. right. split_and!; [by apply video_stub_hash| |done]. left.
    destruct (movie_path_found cfg req hash Hr Hlen Hhex). split_and!; [by apply rooted_some|done|done].
  - apply (write_inv cfg hash); [done|]. left. by apply (Hfl path).
Qed.

Lemma dir_rooted dir : dir_ok dir → dir ≠ "" → rooted dir = true.
Proof. by intros [?|?]. Qed.

Lemma more_engine cfg h w : lib_ok cfg w → lib_ok cfg (on_engine ({[ h ]} ∪ engine w) w).
Proof. intros Hw p d Hp Hne. destruct (Hw p d Hp Hne) as [H1 H2]. split; [done|]. cbn [engine on_engine]. set_solver. Qed.

Lemma info_hash_text h : reInfoHash h = true → all_hex h = true ∨ all_chars base32_char h = true.
Proof. unfold reInfoHash. intros [[_ H]%andb_true_iff|[_ H]%andb_true_iff]%orb_true_iff; [left|by right]. by apply hex_facts. Qed.

Lemma Add_inv cfg fl ans now req w : cfg_ok cfg → faults_ok fl → honest ans → request_ok req → lib_ok cfg w → lib_ok cfg (Add cfg fl ans now req w).1.
Proof.
  intros Hc Hfl [Hrep Hfiles] (Hm & Hi & Hs & Hep) Hw. unfold Add. destruct (an_cancelled ans); [done|].
  destruct (validate cfg req) as [|[[tv hash] req']] eqn:Ev; [done|]. apply validate_facts in Ev as (Hh & -> & Hdir).
  set (rq := normalised _ req). destruct (alreadyPresent _ _ _ _ _ _) as [|[|]]; [done| |done]. destruct (releaseFile rq hash) as [|trackers]; [done|].
  set (magnet := if String.eqb (ar_magnet rq) "" then _ else _).
  assert (Hmag : valid_utf8 magnet = true) by (unfold magnet; destruct (String.eqb (ar_magnet rq) ""); [by apply BuildMagnet_valid, info_hash_text|done]).
  set (w1 := match an_taken ans with Some h => _ | None => w end).
  assert (Hw1 : lib_ok cfg w1) by (unfold w1; destruct (an_taken ans); [by apply more_engine|done]).
  assert (H : lib_ok cfg (add_files cfg fl ans now rq tv hash magnet w1).1.1).
  { unfold add_files. destruct (an_reply ans) as [r|]; [|done]. destruct (String.eqb r ""); [done|]. cbn [orb].
    destruct (reInfoHash (lower_hash r)) eqn:Er; [|done]. cbn [negb]. destruct (Hrep r eq_refl Er) as [Hx Ht]. unfold add_named.
    destruct (an_info ans) as [files|]; [|done]. destruct (negb _); [done|]. specialize (Hfiles files eq_refl).
    assert (He : lower_hash r ∈ engine w1) by (unfold w1; rewrite Ht; cbn [engine on_engine]; set_solver).
    destruct tv.
    - destruct Hdir as [Hd Hsea]. assert (HA : lib_ok cfg (addEpisodes cfg fl now rq (lower_hash r) magnet files w1).1.1).
      { apply addEpisodes_inv; try done. apply dir_rooted; [apply Hc|done]. }
      destruct (addEpisodes _ _ _ _ _ _ _ _) as [[w2 drops] [|]]; done.
    - assert (HA : lib_ok cfg (addMovie cfg fl rq (lower_hash r) magnet files w1).1).
      { apply addMovie_inv; try done. apply dir_rooted; [apply Hc|done]. }
      destruct (addMovie _ _ _ _ _ _ _) as [w2 [|]]; done. }
  destruct (add_files _ _ _ _ _ _ _ _ _) as [[w2 drops] r]. by apply drop_all_inv.
Qed.

Lemma remove_target_inv cfg fl p s : lib_ok cfg s.1.1.1 → lib_ok cfg (remove_target cfg fl p s).1.1.1.
Proof.
  destruct s as [[[w removed] failed] hashes]. cbn [fst]. intros Hw. unfold remove_target.
  destruct (deleteStub_inv cfg (remove_ok fl) p w Hw) as [H _]. destruct (deleteStub _ p w) as [w1 ok]. cbn [fst] in H.
  destruct ok; cbn [negb fst]; [|done]. unfold forgetEpisode. by case_match.
Qed.

Lemma Remove_inv cfg fl path hash w : lib_ok cfg w → lib_ok cfg (Remove cfg fl path hash w).1.
Proof.
  intros Hw. unfold Remove. destruct (remove_targets _ _ _ _ _) as [|targets]; [done|].
  assert (H : ∀ l s, lib_ok cfg s.1.1.1 → lib_ok cfg (foldl (λ s p, remove_target cfg fl p s) s l).1.1.1).
  { induction l as [|p l IH]; intros s Hs; [done|]. by apply IH, remove_target_inv. }
  specialize (H targets (w, [], [], []) Hw). destruct (foldl _ _ targets) as [[[w1 a] b] c]. by apply drop_all_inv.
Qed.

(** The requests of clients, and torrents others give the engine. *)
Inductive video_step (cfg : Config) : video_lib → video_lib → Prop :=
  | V_add fl ans now req w : faults_ok fl → honest ans → request_ok req → video_step cfg w (Add cfg fl ans now req w).1
  | V_remove fl path hash w : video_step cfg w (Remove cfg fl path hash w).1
  | V_other h w : video_step cfg w (on_engine ({[ h ]} ∪ engine w) w).

(** C8: No request takes the torrent of a stub away: through any sequence of adds and
    removals, whatever fails in them, a stub that names a torrent is found by its hash
    and the engine has the torrent. *)
Theorem stubs_keep_torrents cfg w w' : cfg_ok cfg → lib_ok cfg w → rtc (video_step cfg) w w' → lib_ok cfg w'.
Proof.
  intros Hc Hw Hs. revert Hw. induction Hs as [|a b c H1 _ IH]; [done|]. intros Hw. apply IH. destruct H1.
  - by apply Add_inv.
  - by apply Remove_inv.
  - by apply more_engine.
Qed.

(** ** Samples *)

Definition hash_a : string := "0123456789abcdef0123456789abcdef01234567".
Definition hash_b : string := "89abcdef0123456789abcdef0123456789abcdef".
Definition sample_cfg : Config := mkConfig "/m/movies" "/m/tv" "http://127.0.0.1:8090" true.
Definition empty_lib : video_lib := mkLib ∅ ∅ ∅ ∅.
Definition all_files (l : list string) : bool := true.
Definition movie_req : AddRequest := mkAddRequest "movie" hash_a "" "A Film" "A.Film.2160p" "2020-01-01" 0 "tt0000001" None 0 0 "" 0 0 None all_files.
Definition pack_req (title hash : string) : AddRequest := mkAddRequest "tv" hash "" title "" "" 0 "" None 1 0 "2013-04-07" 0 7 None all_files.
Definition says (hash : string) (files : list FileStat) : answers := mkAnswers false (Some hash) (Some hash) (Some files).
Definition movie_files : list FileStat := [mkStat 1 "A Film/sample.mkv" 9; mkStat 2 "A Film/film.mkv" 4000; mkStat 3 "readme.txt" 5000].
Definition pack_files : list FileStat := [mkStat 1 "S/x.S01E01.mkv" 400; mkStat 2 "S/x.S01E02.mkv" 500; mkStat 3 "S/x.S01E02.PROPER.mkv" 600].

Lemma sample_cfg_ok : cfg_ok sample_cfg.
Proof. split_and!; (by right) || done. Qed.
Lemma no_faults_ok : faults_ok no_faults.
Proof. intros p l H. discriminate H. Qed.
Lemma says_honest hash files : hex_hash hash → lower_hash hash = hash → Forall stat_ok files → honest (says hash files).
Proof. intros Hh Hl Hf. split; [intros r [= <-] _; by rewrite Hl|by intros l [= <-]]. Qed.
Lemma files_ok : Forall stat_ok movie_files ∧ Forall stat_ok pack_files.
Proof. split; repeat constructor; cbn; lia. Qed.
Lemma hash_a_hex : hex_hash hash_a.
Proof. by split. Qed.

Definition film_path : string := "/m/movies/A_Film_2020_2160p_01234567.mkv".
Example film_added :
  let r := Add sample_cfg no_faults (says hash_a movie_files) 5 movie_req empty_lib in
  r.2 = inr (mkResponse hash_a [mkAdded film_path "movies/A_Film_2020_2160p_01234567.mkv" 4000 2 0 0] false) ∧
  vs_hash <$> (readStub <$> disk r.1 !! film_path) = Some hash_a ∧
  (Add sample_cfg no_faults (says hash_a movie_files) 6 movie_req r.1).2 =
    inr (mkResponse hash_a [mkAdded film_path "movies/A_Film_2020_2160p_01234567.mkv" 4000 2 0 0] true).
Proof. vm_compute. repeat split. Qed.

Lemma stubs_keep_torrents_witness : lib_ok sample_cfg (Add sample_cfg no_faults (says hash_a movie_files) 5 movie_req empty_lib).1.
Proof.
  apply (stubs_keep_torrents sample_cfg empty_lib); [apply sample_cfg_ok|intros p d H; cbn [disk empty_lib] in H; by rewrite lookup_empty in H|].
  apply rtc_once, V_add; [apply no_faults_ok|apply says_honest; [apply hash_a_hex|by vm_compute|apply files_ok]|].
  split_and!; [by vm_compute|by vm_compute|..]; unfold in_i64; cbn; lia.
Defined.

