(* ===== verification/VideoPacks.v ===== *)
(** * Filing a pack of episodes

    What an add of episodes does when it succeeds and when it fails, and on sample
    requests what it does beside. *)

From Stdlib Require Import Ascii String.
From S2P Require Import Prelude GoFloat GoStrings Flac Cue CueSplit Paths Naming Sources AudioRegistry Stub Videos VideoStubs.
Local Open Scope string_scope.
Local Open Scope Z_scope.

(** ** Filing a pack, and undoing it *)

Lemma append_inj_l a b c : a +:+ b = a +:+ c → b = c.
Proof. induction a as [|x a IH]; [done|]. intros E. injection E as E. by apply IH. Qed.

Lemma EpisodeFilename_inj show s e s' e' h : number_ok (s, e) → number_ok (s', e') → EpisodeFilename show s e h = EpisodeFilename show s' e' h → (s, e) = (s', e').
Proof.
  intros (A1 & A2 & A3 & A4) (B1 & B2 & B3 & B4) E. cbn [fst snd] in *. unfold EpisodeFilename in E. apply append_inj_l in E. injection E as E.
  apply (split_first_inj "E") in E as [E1 E]; [|by eapply all_chars_has; [apply pad2_digits|]..].
  apply (split_first_inj "_") in E as [E2 _]; [|by eapply all_chars_has; [apply pad2_digits|]..].
  f_equal; by apply pad2_inj.
Qed.

Section pack.
Context (cfg : Config) (fl : faults) (now : Z) (req : AddRequest) (hash magnet : string).
Context (Hdir : rooted (TVDir cfg) = true) (Hhash : hex_hash hash).

Definition key_of (c : Z * Z * FileStat) : string := EpisodeKey (ar_title req) c.1.1 c.1.2.
Definition path_of (c : Z * Z * FileStat) : string := episode_path (TVDir cfg) (ar_title req) (ar_first req) c.1.1 c.1.2 hash.
Definition stub_of (c : Z * Z * FileStat) : list Byte.byte := video_stub (streamURL (GoStormURL cfg) hash (ID c.2)) (Length c.2) magnet "".
Definition row_of (w0 : video_lib) (c : Z * Z * FileStat) : EpisodeEntry :=
  mkEpisode (key_of c) (ar_score req) hash (path_of c) "api" now (match episodes w0 !! key_of c with Some e => ShowIMDB e | None => "" end).
Definition entry_of (w0 : video_lib) (c : Z * Z * FileStat) : AddedFile * prior :=
  (mkAdded (path_of c) (fusePath cfg (path_of c)) (Length c.2) (ID c.2) c.1.1 c.1.2,
   mkPrior (episodes w0 !! key_of c) (bool_decide (is_Some (disk w0 !! path_of c))) (path_of c)).

Lemma key_of_inj c c' : number_ok c.1 → number_ok c'.1 → key_of c = key_of c' → c.1 = c'.1.
Proof.
  destruct c as [[s e] f], c' as [[s' e'] f']. intros (A1 & A2 & A3 & A4) (B1 & B2 & B3 & B4) E. cbn [fst snd] in *.
  unfold key_of in E. cbn [fst snd] in E. apply EpisodeKey_inj in E as (_ & -> & ->); done.
Qed.

Lemma path_of_inj c c' : number_ok c.1 → number_ok c'.1 → path_of c = path_of c' → c.1 = c'.1.
Proof.
  destruct c as [[s e] f], c' as [[s' e'] f']. intros Hc Hc' E. pose proof Hc as (A1 & A2 & A3 & A4). pose proof Hc' as (B1 & B2 & B3 & B4).
  cbn [fst snd] in *. destruct Hhash as [_ Hx]. destruct (hex_facts hash Hx) as (_ & _ & _ & Hs). unfold path_of in E. cbn [fst snd] in E.
  destruct (episode_path_comps (TVDir cfg) (ar_title req) (ar_first req) s e hash Hdir A1 A3 Hs) as (l & _ & _ & E1 & _).
  destruct (episode_path_comps (TVDir cfg) (ar_title req) (ar_first req) s' e' hash Hdir B1 B3 Hs) as (l' & _ & _ & E2 & _).
  rewrite E, E2 in E1. change [season_dir ?a; ?b] with ([season_dir a] ++ [b])%list in E1. rewrite !app_assoc in E1.
  apply app_inj_tail in E1 as [_ E1]. symmetry in E1. by apply EpisodeFilename_inj in E1.
Qed.

(** The state once the episodes [P] are filed. *)
Record filed (w0 : video_lib) (P : list (Z * Z * FileStat)) (w : video_lib) : Prop := {
  fd_row c : c ∈ P → episodes w !! key_of c = Some (row_of w0 c);
  fd_rows k : (∀ c, c ∈ P → key_of c ≠ k) → episodes w !! k = episodes w0 !! k;
  fd_stub c : c ∈ P → disk w !! path_of c = Some (stub_of c);
  fd_disk p : (∀ c, c ∈ P → path_of c ≠ p) → disk w !! p = disk w0 !! p;
  fd_engine : engine w = engine w0
}.

(** The state a rollback should leave: the old rows, and files where there were files,
    the others untouched. *)
Record undone (w0 : video_lib) (P : list (Z * Z * FileStat)) (w : video_lib) : Prop := {
  un_rows : episodes w = episodes w0;
  un_files p : is_Some (disk w !! p) ↔ is_Some (disk w0 !! p);
  un_disk p : (∀ c, c ∈ P → path_of c ≠ p) → disk w !! p = disk w0 !! p;
  un_engine : engine w = engine w0
}.

Definition distinct (P : list (Z * Z * FileStat)) : Prop := NoDup P.*1 ∧ Forall (λ c, number_ok c.1) P.

Lemma distinct_cons c P : distinct (c :: P) →
  distinct P ∧ (∀ c', c' ∈ P → key_of c' ≠ key_of c ∧ path_of c' ≠ path_of c).
Proof.
  intros [Hn Hf]. cbn in Hn. apply list.NoDup_cons in Hn as [Hc Hn]. apply list.Forall_cons in Hf as [Hc' Hf]. split; [done|].
  intros c' Hin. assert (H' : number_ok c'.1) by (by eapply list.Forall_forall in Hf).
  assert (Hne : c'.1 ≠ c.1) by (intros E; apply Hc; rewrite <-E; apply list_elem_of_fmap; eauto).
  split; intros E; apply Hne; [by apply key_of_inj|by apply path_of_inj].
Qed.

Lemma rollback_spec w0 P w :
  distinct P → (∀ k, undo_row_ok fl k = true) → (∀ p, undo_file_ok fl p = true) →
  let w' := rollback fl req (entry_of w0 <$> P) w in
  (∀ c, c ∈ P → episodes w' !! key_of c = episodes w0 !! key_of c) ∧ (∀ k, (∀ c, c ∈ P → key_of c ≠ k) → episodes w' !! k = episodes w !! k) ∧
  (∀ c, c ∈ P → disk w' !! path_of c = if bool_decide (is_Some (disk w0 !! path_of c)) then disk w !! path_of c else None) ∧
  (∀ p, (∀ c, c ∈ P → path_of c ≠ p) → disk w' !! p = disk w !! p) ∧ engine w' = engine w.
Proof.
  intros HP Hr Hu. revert w. induction P as [|c P IH]; intros w w'.
  { split_and!; try done; by intros c ?%elem_of_nil. }
  destruct (distinct_cons c P HP) as [HP' Hne]. set (w1 := undo_row fl req (entry_of w0 c) (undo_file fl (entry_of w0 c) w)).
  assert (E1 : episodes w1 = match episodes w0 !! key_of c with Some e => <[key_of c := e]> (episodes w) | None => delete (key_of c) (episodes w) end).
  { unfold w1, undo_row, entry_of, row_key. cbn [fst snd af_season af_episode pr_entry]. fold (key_of c). rewrite Hr.
    unfold undo_file, deleteStub. cbn [fst snd pr_had_stub af_path]. rewrite Hu. destruct (episodes w0 !! key_of c), (bool_decide _); done. }
  assert (E2 : disk w1 = if bool_decide (is_Some (disk w0 !! path_of c)) then disk w else delete (path_of c) (disk w)).
  { unfold w1, undo_row, entry_of, row_key. cbn [fst snd af_season af_episode pr_entry]. fold (key_of c). rewrite Hr.
    unfold undo_file, deleteStub. cbn [fst snd pr_had_stub af_path]. rewrite Hu. destruct (episodes w0 !! key_of c), (bool_decide _); done. }
  assert (E3 : engine w1 = engine w).
  { unfold w1, undo_row, undo_file, deleteStub. rewrite Hu. by repeat case_match. }
  destruct (IH HP' w1) as (I1 & I2 & I3 & I4 & I5). change (rollback fl req (entry_of w0 <$> P) w1) with w' in *.
  assert (Hck : ∀ k, k ≠ key_of c → episodes w1 !! k = episodes w !! k) by (intros k Hk; rewrite E1; destruct (episodes w0 !! key_of c); [by rewrite lookup_insert_ne by congruence|by rewrite lookup_delete_ne by congruence]).
  assert (Hcp : ∀ p, p ≠ path_of c → disk w1 !! p = disk w !! p) by (intros p Hp; rewrite E2; destruct (bool_decide _); [done|by rewrite lookup_delete_ne by congruence]).
  split_and!.
  - intros c' [->|Hin]%elem_of_cons; [|by apply I1]. rewrite I2 by (intros c' Hin; by apply Hne). rewrite E1.
    destruct (episodes w0 !! key_of c); [by rewrite lookup_insert_eq|by rewrite lookup_delete_eq].
  - intros k Hk. rewrite I2 by (intros c' Hin; apply Hk; by right). apply Hck. intros ->. by apply (Hk c (list_elem_of_here _ _)).
  - intros c' [->|Hin]%elem_of_cons.
    + rewrite I4 by (intros c' Hin; by apply Hne). rewrite E2. destruct (bool_decide _); [done|by rewrite lookup_delete_eq].
    + rewrite I3 by done. rewrite Hcp by (by apply Hne). done.
  - intros p Hp. rewrite I4 by (intros c' Hin; apply Hp; by right). apply Hcp. intros ->. by apply (Hp c (list_elem_of_here _ _)).
  - by rewrite I5.
Qed.

(** Nothing but the rows and files of [P] has changed, and their files are there. *)
Definition touched (w0 : video_lib) (P : list (Z * Z * FileStat)) (w : video_lib) : Prop :=
  (∀ k, (∀ c, c ∈ P → key_of c ≠ k) → episodes w !! k = episodes w0 !! k) ∧
  (∀ p, (∀ c, c ∈ P → path_of c ≠ p) → disk w !! p = disk w0 !! p) ∧ (∀ c, c ∈ P → is_Some (disk w !! path_of c)) ∧ engine w = engine w0.

Lemma filed_touched w0 P w : filed w0 P w → touched w0 P w.
Proof. intros [H1 H2 H3 H4 H5]. split_and!; try done. intros c Hc. rewrite H3 by done. eauto. Qed.

Lemma in_or_out {A} (f : A → string) (P : list A) k : (∃ c, c ∈ P ∧ f c = k) ∨ (∀ c, c ∈ P → f c ≠ k).
Proof.
  destruct (decide (k ∈ f <$> P)) as [Hk|Hk].
  - left. apply list_elem_of_fmap in Hk as (c & -> & Hc). eauto.
  - right. intros c Hc <-. apply Hk, list_elem_of_fmap. eauto.
Qed.

Lemma rollback_undoes w0 P Q w : distinct P → (∀ k, undo_row_ok fl k = true) → (∀ p, undo_file_ok fl p = true) → (∀ c, c ∈ P → c ∈ Q) →
  touched w0 P w → undone w0 Q (rollback fl req (entry_of w0 <$> P) w).
Proof.
  intros HP Hr Hu HQ (T1 & T2 & T3 & T4). destruct (rollback_spec w0 P w HP Hr Hu) as (R1 & R2 & R3 & R4 & R5). split.
  - apply map_eq. intros k. destruct (in_or_out key_of P k) as [(c & Hc & <-)|Hk]; [by apply R1|]. rewrite R2 by done. by apply T1.
  - intros p. destruct (in_or_out path_of P p) as [(c & Hc & <-)|Hp]; [|by rewrite R4, T2]. rewrite R3 by done.
    case_bool_decide as Hd; [split; [done|intros _; by apply T3]|]. split; [by intros [? ?]|done].
  - intros p Hp. rewrite R4 by (intros c Hc; by apply Hp, HQ). apply T2. intros c Hc. by apply Hp, HQ.
  - by rewrite R5.
Qed.

Lemma touched_stub w0 P c w : touched w0 P w → touched w0 (P ++ [c]) (on_disk (<[path_of c := stub_of c]> (disk w)) w).
Proof.
  intros (T1 & T2 & T3 & T4). split_and!; [| | |done].
  - intros k Hk. apply T1. intros c' Hc'. apply Hk, elem_of_app. by left.
  - intros p Hp. cbn [disk on_disk]. rewrite lookup_insert_ne by (apply Hp, elem_of_app; right; by left).
    apply T2. intros c' Hc'. apply Hp, elem_of_app. by left.
  - intros c' [Hc'|Hc']%elem_of_app; cbn [disk on_disk].
    + destruct (decide (path_of c = path_of c')) as [->|Hne]; [rewrite lookup_insert_eq; eauto|]. rewrite lookup_insert_ne by done. by apply T3.
    + apply list_elem_of_singleton in Hc' as ->. rewrite lookup_insert_eq. eauto.
Qed.

Lemma distinct_app_l P Q : distinct (P ++ Q) → distinct P.
Proof. intros [H1 H2]. rewrite fmap_app in H1. apply list.NoDup_app in H1 as (H1 & _ & _). apply list.Forall_app in H2 as [H2 _]. done. Qed.

Lemma distinct_mid P c l : distinct (P ++ c :: l) → ∀ c', c' ∈ P → key_of c' ≠ key_of c ∧ path_of c' ≠ path_of c.
Proof.
  intros [H1 H2] c' Hc'. rewrite fmap_app in H1. apply list.NoDup_app in H1 as (_ & H1 & _). apply list.Forall_app in H2 as [H2 H3].
  apply list.Forall_cons in H3 as [Hc _]. assert (Hok : number_ok c'.1) by (by eapply list.Forall_forall in H2).
  assert (Hne : c'.1 ≠ c.1). { intros E. apply (H1 c'.1); [apply list_elem_of_fmap; eauto|]. rewrite E. by left. }
  split; intros E; apply Hne; [by apply key_of_inj|by apply path_of_inj].
Qed.

Lemma filed_next w0 P c w : (∀ c', c' ∈ P → key_of c' ≠ key_of c ∧ path_of c' ≠ path_of c) → filed w0 P w →
  let w1 := on_disk (<[path_of c := stub_of c]> (disk w)) w in
  let w2 := on_rows (<[key_of c := row_of w0 c]> (episodes w1)) w1 in
  filed w0 (P ++ [c]) (if gap_ok fl (key_of c) then on_gaps (open_gaps w2 ∖ {[ key_of c ]}) w2 else w2).
Proof.
  intros Hne [H1 H2 H3 H4 H5] w1 w2. set (w3 := if gap_ok fl (key_of c) then on_gaps (open_gaps w2 ∖ {[ key_of c ]}) w2 else w2).
  assert (E : episodes w3 = <[key_of c := row_of w0 c]> (episodes w) ∧ disk w3 = <[path_of c := stub_of c]> (disk w) ∧ engine w3 = engine w) by (unfold w3; by case_match).
  destruct E as (E1 & E2 & E3). split; rewrite ?E1, ?E2, ?E3; try done.
  - intros c' [Hc'|Hc']%elem_of_app; [rewrite lookup_insert_ne by (apply not_eq_sym; by apply Hne); by apply H1|].
    apply list_elem_of_singleton in Hc' as ->. by rewrite lookup_insert_eq.
  - intros k Hk. rewrite lookup_insert_ne by (apply Hk, elem_of_app; right; by left). apply H2. intros c' Hc'. apply Hk, elem_of_app. by left.
  - intros c' [Hc'|Hc']%elem_of_app; [rewrite lookup_insert_ne by (apply not_eq_sym; by apply Hne); by apply H3|].
    apply list_elem_of_singleton in Hc' as ->. by rewrite lookup_insert_eq.
  - intros p Hp. rewrite lookup_insert_ne by (apply Hp, elem_of_app; right; by left). apply H4. intros c' Hc'. apply Hp, elem_of_app. by left.
Qed.

Lemma file_episodes_spec w0 l P w : distinct (P ++ l) → filed w0 P w →
  match file_episodes cfg fl now req hash magnet l (entry_of w0 <$> P) w with
  | (w', inr acc) => acc = entry_of w0 <$> (P ++ l)%list ∧ filed w0 (P ++ l) w'
  | (w', inl _) => (∀ k, undo_row_ok fl k = true) → (∀ p, undo_file_ok fl p = true) → (∀ p part, write_to fl p ≠ PartWritten part) → undone w0 (P ++ l) w'
  end.
Proof.
  revert P w. induction l as [|[[s e] f] l IH]; intros P w Hd Hw; [by rewrite app_nil_r|].
  cbn [file_episodes].
  assert (Ek : EpisodeKey (ar_title req) s e = key_of (s, e, f)) by (unfold key_of; cbn [fst snd]; reflexivity).
  assert (Ep : episode_path (TVDir cfg) (ar_title req) (ar_first req) s e hash = path_of (s, e, f)) by (unfold path_of; cbn [fst snd]; reflexivity).
  assert (Es : video_stub (streamURL (GoStormURL cfg) hash (ID f)) (Length f) magnet "" = stub_of (s, e, f)) by (unfold stub_of; cbn [fst snd]; reflexivity).
  assert (Ee : (mkAdded (path_of (s, e, f)) (fusePath cfg (path_of (s, e, f))) (Length f) (ID f) s e,
    mkPrior (episodes w0 !! key_of (s, e, f)) (bool_decide (is_Some (disk w0 !! path_of (s, e, f)))) (path_of (s, e, f))) = entry_of w0 (s, e, f))
    by (unfold entry_of; cbn [fst snd]; reflexivity).
  rewrite Ek, Ep, Es. clear Ek Ep Es. set (c := (s, e, f)) in *.
  assert (HP : distinct P) by (by eapply distinct_app_l). pose proof (distinct_mid P c l Hd) as Hne.
  assert (Hk : episodes w !! key_of c = episodes w0 !! key_of c) by (apply (fd_rows _ _ _ Hw); intros c' Hc'; by apply Hne).
  assert (Hp : disk w !! path_of c = disk w0 !! path_of c) by (apply (fd_disk _ _ _ Hw); intros c' Hc'; by apply Hne).
  rewrite Hk, Hp, Ee. clear Ee.
  assert (Hundo : (∀ k, undo_row_ok fl k = true) → (∀ p, undo_file_ok fl p = true) → undone w0 (P ++ c :: l) (rollback fl req (entry_of w0 <$> P) w)).
  { intros Hr Hu. apply rollback_undoes; [done..| |by apply filed_touched]. intros c' Hc'. apply elem_of_app. by left. }
  destruct (get_ok fl (key_of c)); cbn [negb]; [|by intros ? ? ?; apply Hundo].
  destruct (write_to fl (path_of c)) as [| |part] eqn:Ew; [|by intros ? ? ?; apply Hundo|by intros _ _ Hpart; apply Hpart in Ew].
  assert (Hsnoc : ((entry_of w0 <$> P) ++ [entry_of w0 c])%list = entry_of w0 <$> (P ++ [c])%list) by (by rewrite fmap_app). rewrite Hsnoc.
  assert (Happ : (P ++ c :: l = (P ++ [c]) ++ l)%list) by (by rewrite <-app_assoc). rewrite Happ in *.
  destruct (put_ok fl (key_of c)); cbn [negb].
  - apply IH; [done|]. by apply filed_next.
  - intros Hr Hu _. apply rollback_undoes; [by eapply distinct_app_l|done|done| |by apply touched_stub, filed_touched].
    intros c' Hc'. apply elem_of_app. by left.
Qed.
End pack.

(** *** Hashes in hex are their own spelling *)

Lemma trim_all_solid s : all_chars solid s = true → TrimSpace s = s.
Proof.
  intros Hs. assert (Hl : Forall (λ c, solid c = true) (list_ascii_of_string s)).
  { induction s as [|c s IH]; [constructor|]. cbn [all_chars] in Hs. apply andb_true_iff in Hs as [? ?]. constructor; auto. }
  unfold TrimSpace. assert (H1 : drop_spaces (length (list_ascii_of_string s)) space_prefix (list_ascii_of_string s) = list_ascii_of_string s).
  { destruct (list_ascii_of_string s) as [|c l]; [done|]. apply drop_spaces_id. apply list.Forall_cons in Hl as [Hc _]. by apply space_prefix_solid. }
  rewrite H1. assert (H2 : drop_spaces (length (list_ascii_of_string s)) space_suffix (rev (list_ascii_of_string s)) = rev (list_ascii_of_string s)).
  { apply Forall_rev in Hl. destruct (rev (list_ascii_of_string s)) as [|c l]; [by destruct (length _)|]. apply drop_spaces_id.
    apply list.Forall_cons in Hl as [Hc _]. by apply space_suffix_solid. }
  by rewrite H2, rev_involutive, string_of_list_ascii_of_string.
Qed.

Lemma canonical_hex h : hex_hash h → canonicalHashKey h = h.
Proof.
  intros [Hl Hh]. destruct (hex_facts h Hh) as (_ & _ & Ha & _).
  assert (Ht : TrimSpace h = h).
  { apply trim_all_solid. eapply all_chars_impl; [|exact Hh]. intros c Hc.
    pose proof (check_char (λ x, negb (hex_lower x) || solid x) ltac:(by vm_compute) c) as H. cbv beta in H. by rewrite Hc in H. }
  assert (Hr : lower_runes h = bytes_of h).
  { change h with ("" +:+ h) at 1. rewrite lower_runes_tail by done. cbn. clear -Hh. induction h as [|c h IH]; [done|].
    cbn [all_chars] in Hh. apply andb_true_iff in Hh as [Hc Hh]. change (bytes_of (String c h)) with (code c :: bytes_of h). cbn.
    f_equal; [|by apply IH]. unfold hex_lower, is_digit in Hc. apply lower_rune_id; lia. }
  assert (Hlow : lower_hash h = h).
  { unfold lower_hash, hash_text. rewrite Ht, Hr. assert (forallb (λ r, r <? 128) (bytes_of h) = true) as ->; [|apply text_bytes].
    apply forallb_forall. intros z Hz. apply Z.ltb_lt. rewrite list.Forall_forall in Ha. by apply Ha, list_elem_of_In. }
  unfold canonicalHashKey. rewrite Hlow, Hl. done.
Qed.

(** *** What a drop leaves *)

Definition drops_work (fl : faults) : Prop :=
  (∀ tv, walk_ok fl tv = true) ∧ (∀ h, audio_uses fl h = Some false) ∧ (∀ h, drop_ok fl h = true).

Lemma findByHash_some cfg fl tv h w f l : findByHash cfg fl tv h w = inr (f :: l) → ∃ p d, disk w !! p = Some d ∧ found_by cfg p h.
Proof.
  unfold findByHash. set (dir := if tv then TVDir cfg else MoviesDir cfg). set (x := ToLower _). destruct (negb (walk_ok fl tv)); [done|]. intros Hf. injection Hf as Hf.
  destruct (filter (λ f : string * list Byte.byte, named_by x f.1 = true) (walk dir (disk w))) as [|[p d] rest] eqn:E; [done|].
  assert (Hin : (p, d) ∈ filter (λ f : string * list Byte.byte, named_by x f.1 = true) (walk dir (disk w))) by (rewrite E; by left).
  apply list_elem_of_filter in Hin as [Hn Hin]. cbn [fst] in Hn.
  assert (Hd : dir ≠ "") by (intros Hd; unfold walk in Hin; rewrite Hd in Hin; by apply elem_of_nil in Hin).
  apply walk_elem in Hin as [Hp Hpre]; [|done]. exists p, d. split; [done|]. destruct tv; [right|left]; done.
Qed.

Lemma drop_effect cfg fl h w : drops_work fl → h ≠ "" →
  h ∉ engine (dropTorrentIfUnused cfg fl h w) ∨ ∃ p d, disk w !! p = Some d ∧ found_by cfg p h.
Proof.
  intros (Hw & Ha & Hd) Hne. unfold dropTorrentIfUnused. destruct (String.eqb_spec h ""); [done|].
  assert (Hinr : ∀ tv, ∃ l, findByHash cfg fl tv h w = inr l) by (intros tv; unfold findByHash; rewrite Hw; by eexists).
  destruct (Hinr false) as [l1 E1], (Hinr true) as [l2 E2]. rewrite E1, E2.
  destruct l1; [|right; by eapply findByHash_some]. destruct l2; [|right; by eapply findByHash_some].
  rewrite Ha. unfold dropTorrent. rewrite Hd. left. cbn [engine on_engine]. set_solver.
Qed.

Lemma drop_same cfg fl h w : disk (dropTorrentIfUnused cfg fl h w) = disk w ∧ episodes (dropTorrentIfUnused cfg fl h w) = episodes w ∧
  engine (dropTorrentIfUnused cfg fl h w) ⊆ engine w.
Proof. destruct (drop_cases cfg fl h w) as [->|[-> _]]; [done|]. cbn. split_and!; [done|done|set_solver]. Qed.

(** *** A failed add *)

Definition undo_works (fl : faults) : Prop :=
  (∀ k, undo_row_ok fl k = true) ∧ (∀ p, undo_file_ok fl p = true) ∧ (∀ p part, write_to fl p ≠ PartWritten part).

(** The rows of before, and files where there were files. *)
Definition restored (w w' : video_lib) : Prop :=
  episodes w' = episodes w ∧ (∀ p, is_Some (disk w' !! p) ↔ is_Some (disk w !! p)) ∧ engine w' = engine w.

Lemma NoDup_one_each l : NoDup (one_each l).*1.
Proof. unfold one_each. rewrite merge_sort_Permutation. apply NoDup_fst_map_to_list. Qed.

Lemma one_each_distinct files l : Forall (episode_ok files) l → distinct (one_each l).
Proof. intros H. split; [apply NoDup_one_each|]. eapply list.Forall_impl; [by apply (one_each_ok files)|]. by intros c [? _]. Qed.

Lemma addEpisodes_fails cfg fl now req hash magnet files w w' drops st :
  rooted (TVDir cfg) = true → hex_hash hash → 0 < ar_season req → in_i64 (ar_season req) → in_i64 (ar_episode req) → undo_works fl →
  addEpisodes cfg fl now req hash magnet files w = (w', drops, inl st) → drops = [] ∧ restored w w'.
Proof.
  intros Hr Hh Hs Hs' He (U1 & U2 & U3). unfold addEpisodes. destruct (candidates req files) as [|l] eqn:El; [by intros [= <- <- <-]|].
  pose proof (one_each_distinct files l (candidates_ok req files l Hs Hs' He El)) as Hd.
  pose proof (file_episodes_spec cfg fl now req hash magnet Hr Hh w (one_each l) [] w) as H.
  destruct (file_episodes _ _ _ _ _ _ _ _ _) as [w1 [st'|acc]].
  - intros [= <- <- <-]. destruct H as [H1 H2 _ H4]; try done. by split; try (intros c Hc; by apply elem_of_nil in Hc).
  - by destruct (foldl _ _ _).
Qed.

Lemma add_files_fails cfg fl ans now req (tv : bool) hash magnet w w' drops st :
  (if tv then rooted (TVDir cfg) = true ∧ 0 < ar_season req else True) → in_i64 (ar_season req) → in_i64 (ar_episode req) → undo_works fl → honest ans →
  add_files cfg fl ans now req tv hash magnet w = (w', drops, inl st) →
  restored w w' ∧ (drops = [hash] ∨ ∃ h, hex_hash h ∧ an_taken ans = Some h ∧ drops = [h]).
Proof.
  intros Htv Hs He Hu Hho. assert (Hsame : restored w w) by done. unfold add_files. destruct (an_reply ans) as [r|] eqn:Er; [|by intros [= <- <- <-]; auto].
  destruct (String.eqb r ""); cbn [orb]; [by intros [= <- <- <-]; auto|].
  destruct (reInfoHash (lower_hash r)) eqn:Ei; cbn [negb]; [|by intros [= <- <- <-]; auto].
  destruct (ho_reply _ Hho r Er Ei) as [Hx Ht]. unfold add_named.
  assert (Hright : ∀ l, l = [lower_hash r] → l = [hash] ∨ ∃ h, hex_hash h ∧ an_taken ans = Some h ∧ l = [h]) by (intros l ->; right; eauto).
  destruct (an_info ans) as [files|]; [|by intros [= <- <- <-]; auto]. destruct (negb _); [by intros [= <- <- <-]; auto|]. destruct tv.
  - destruct (addEpisodes _ _ _ _ _ _ _ _) as [[w1 d1] [st1|out]] eqn:Ea; [|done]. intros [= <- <- <-].
    destruct Htv as [Hr Hsea]. apply addEpisodes_fails in Ea as [-> H]; auto.
  - unfold addMovie. destruct (pickFile _ _) as [st1|f]; [by intros [= <- <- <-]; auto|]. destruct (write_to _ _) as [| |part] eqn:Ew; [done| |].
    + intros [= <- <- <-]. auto.
    + exfalso. by apply (proj2 (proj2 Hu)) in Ew.
Qed.


(** *** A pack that is filed *)

Lemma replaced_effect fl hash l s :
  let s' := foldl (λ s p, remove_replaced fl hash p s) s l in
  episodes s'.1 = episodes s.1 ∧ engine s'.1 = engine s.1 ∧
  (∀ p, (∀ q e, q ∈ l → replaced q = Some e → FilePath e ≠ p) → disk s'.1 !! p = disk s.1 !! p) ∧
  (∀ q e, q ∈ l → replaced q = Some e → remove_ok fl (FilePath e) = true → disk s'.1 !! FilePath e = None) ∧
  (∀ p, disk s.1 !! p = None → disk s'.1 !! p = None).
Proof.
  revert s. induction l as [|q l IH]; intros s; [split_and!; try done; by intros q e ?%elem_of_nil|]. cbn [foldl].
  set (s1 := remove_replaced fl hash q s). destruct (IH s1) as (I1 & I2 & I3 & I4 & I5).
  assert (Hs1 : episodes s1.1 = episodes s.1 ∧ engine s1.1 = engine s.1 ∧
    disk s1.1 = match replaced q with Some e => if remove_ok fl (FilePath e) then delete (FilePath e) (disk s.1) else disk s.1 | None => disk s.1 end).
  { unfold s1, remove_replaced, deleteStub. destruct (replaced q) as [e|]; [|done]. by destruct (remove_ok fl (FilePath e)). }
  destruct Hs1 as (E1 & E2 & E3). split_and!; [by rewrite I1|by rewrite I2| | |].
  - intros p Hp. rewrite I3 by (intros q' e Hq; apply (Hp q'); by right). rewrite E3. destruct (replaced q) as [e|] eqn:Eq; [|done].
    case_match; [|done]. rewrite lookup_delete_ne; [done|]. apply (Hp q e); [by left|done].
  - intros q' e [->|Hq']%elem_of_cons Hr Hok; [|by apply I4 with q']. apply I5. rewrite E3, Hr, Hok. apply lookup_delete_eq.
  - intros p Hp. apply I5. rewrite E3. destruct (replaced q) as [e|]; [|done]. destruct (remove_ok fl (FilePath e)); [|done]. by apply lookup_delete_None; right.
Qed.

Lemma keep_longest_best l best k f : (k, f) ∈ l → ∃ f', foldl keep_longest best l !! k = Some f' ∧ Length f ≤ Length f'.
Proof.
  assert (Hmono : ∀ l best (f0 : FileStat), best !! k = Some f0 → ∃ f', foldl keep_longest best l !! k = Some f' ∧ Length f0 ≤ Length f').
  { intros l0. induction l0 as [|[k2 f2] l' IH]; intros b f0 Hb; [by exists f0|]. cbn [foldl].
    assert (H : ∃ f1, keep_longest b (k2, f2) !! k = Some f1 ∧ Length f0 ≤ Length f1).
    { unfold keep_longest. destruct (decide (k2 = k)) as [->|Hne].
      - rewrite Hb. destruct (Z.ltb_spec (Length f0) (Length f2)); [rewrite lookup_insert_eq; exists f2; split; [done|lia]|by exists f0].
      - assert (Hi : <[k2 := f2]> b !! k = Some f0) by (by rewrite lookup_insert_ne). destruct (b !! k2); [case_match|]; by exists f0. }
    destruct H as (f1 & H1 & H2). destruct (IH _ f1 H1) as (f' & H3 & H4). exists f'. split; [done|lia]. }
  revert best. induction l as [|[k2 f2] l IH]; intros best; [by intros ?%elem_of_nil|]. intros [E|Hin]%elem_of_cons; [|by apply IH].
  injection E as <- <-. cbn [foldl].
  assert (H : ∃ f1, keep_longest best (k, f) !! k = Some f1 ∧ Length f ≤ Length f1).
  { unfold keep_longest. destruct (best !! k) as [cur|] eqn:Eb; [|exists f; by rewrite lookup_insert_eq].
    destruct (Z.ltb_spec (Length cur) (Length f)); [exists f; by rewrite lookup_insert_eq|exists cur; split; [done|lia]]. }
  destruct H as (f1 & H1 & H2). destruct (Hmono l _ f1 H1) as (f' & H3 & H4). exists f'. split; [done|lia].
Qed.


(** ** Samples *)

Definition refused_write : faults :=
  mkFaults (λ _, true) (λ _, NotWritten) (λ _, true) (λ _, true) (λ _, true) (λ _, true) (λ _, true) (λ _, true) (λ _, Some false) (λ _, true) (λ _, true) (λ _, true).


Definition pack : AddRequest := normalised "Show" (pack_req "Show" hash_a).

(** ** What the code does not mean to do *)

(** Shows whose titles have no letter of ASCII share their keys: an episode of one takes
    the row, the stub and the torrent of the other. *)
Lemma other_show_removed :
  let w1 := (Add sample_cfg no_faults (says hash_a pack_files) 5 (pack_req "進撃" hash_a) empty_lib).1 in
  let w2 := (Add sample_cfg no_faults (says hash_b pack_files) 6 (pack_req "鬼滅" hash_b) w1).1 in
  let p := episode_path "/m/tv" "進撃" "2013-04-07" 1 1 hash_a in
  bool_decide (is_Some (disk w1 !! p)) && bool_decide (hash_a ∈ engine w1) = true ∧
  bool_decide (disk w2 !! p = None) && bool_decide (hash_a ∉ engine w2) = true.
Proof. vm_compute. split; reflexivity. Qed.

(** A write that fails after it has begun leaves a stub nobody undoes: the torrent stays,
    and the next request for the film is told that it is there. *)
Definition cut_write : faults :=
  mkFaults (λ _, true) (λ _, PartWritten []) (λ _, true) (λ _, true) (λ _, true) (λ _, true) (λ _, true) (λ _, true) (λ _, Some false) (λ _, true) (λ _, true) (λ _, true).
Lemma cut_write_stays :
  let r := Add sample_cfg cut_write (says hash_a movie_files) 5 movie_req empty_lib in
  r.2 = inl 500 ∧ disk r.1 !! film_path = Some [] ∧ bool_decide (hash_a ∈ engine r.1) = true ∧
  (Add sample_cfg no_faults (says hash_a movie_files) 6 movie_req r.1).2 =
    inr (mkResponse hash_a [mkAdded film_path "movies/A_Film_2020_2160p_01234567.mkv" 0 0 0 0] true).
Proof. vm_compute. repeat split. Qed.

(** An add that is undone has closed the gaps of the episodes it had filed. *)
Definition second_row_fails : faults :=
  mkFaults (λ _, true) (λ _, Wrote) (λ k, negb (String.eqb k "show_s01e02")) (λ _, true) (λ _, true) (λ _, true) (λ _, true) (λ _, true) (λ _, Some false) (λ _, true) (λ _, true) (λ _, true).
Lemma undone_add_closes_gaps :
  let r := Add sample_cfg second_row_fails (says hash_a pack_files) 5 (pack_req "Show" hash_a) (mkLib ∅ ∅ {[ "show_s01e01" ]} ∅) in
  r.2 = inl 500 ∧ episodes r.1 !! "show_s01e01" = None ∧ disk r.1 !! episode_path "/m/tv" "Show" "2013-04-07" 1 1 hash_a = None ∧
  bool_decide ("show_s01e01" ∈ open_gaps r.1) = false.
Proof. vm_compute. repeat split. Qed.
