(* ===== verification/VideoPaths.v ===== *)
(** * The paths a client is told

    The answer to an add names each stub by its path below the mount, with the name of the
    media directory first; a remove takes that path back.  The file relates [fusePath] and
    [resolveInsideMediaDirs] of internal/library/manager.go. *)

From Stdlib Require Import Ascii String.
From S2P Require Import Prelude GoFloat GoStrings Flac Cue CueSplit Paths Naming Sources AudioRegistry Stub Videos VideoStubs VideoPacks.
Local Open Scope string_scope.
Local Open Scope Z_scope.

(** ** Names that are not blank *)

Lemma cut_not_solid spaces : spaces = space_prefix ∨ spaces = space_suffix →
  ∀ l, Forall (λ c, solid c = false) (take (spaces (code <$> take 3 l)) l).
Proof.
  assert (Ha : ∀ c, ascii_space (code c) = true → solid c = false) by (intros c; unfold ascii_space, solid; lia).
  assert (H2 : ∀ a b, space2 (code a) (code b) = true → solid a = false ∧ solid b = false) by (intros a b; unfold space2, solid; lia).
  assert (H3 : ∀ a b c, space3 (code a) (code b) (code c) = true → solid a = false ∧ solid b = false ∧ solid c = false).
  { intros a b c. unfold space3, solid. lia. }
  intros [->| ->] l; destruct l as [|a [|b [|c l]]]; cbn; repeat case_match; cbn; repeat constructor; eauto;
    match goal with H : space2 _ _ = true |- _ => by apply H2 in H as [? ?] | H : space3 _ _ _ = true |- _ => by apply H3 in H as (? & ? & ?) | _ => idtac end.
Qed.

Lemma drop_keeps_solid n spaces l : spaces = space_prefix ∨ spaces = space_suffix →
  (∃ c, c ∈ l ∧ solid c = true) → ∃ c, c ∈ drop_spaces n spaces l ∧ solid c = true.
Proof.
  intros Hs. revert l. induction n as [|n IH]; intros l Hl; [done|]. cbn [drop_spaces].
  pose proof (cut_not_solid spaces Hs l) as Hc. destruct (spaces _) as [|k]; [done|]. apply IH. destruct Hl as (c & Hl & Hsol). exists c. split; [|done].
  rewrite <-(take_drop (S k) l), elem_of_app in Hl. destruct Hl as [Hl|Hl]; [|done]. exfalso.
  rewrite list.Forall_forall in Hc. specialize (Hc c Hl). cbv beta in Hc. congruence.
Qed.

Lemma TrimSpace_some s c : solid c = true → TrimSpace (s +:+ String c "") ≠ "".
Proof.
  intros Hc. unfold TrimSpace. set (l := list_ascii_of_string (s +:+ String c "")).
  assert (Hl : ∃ c, c ∈ l ∧ solid c = true) by (exists c; split; [unfold l; rewrite list_ascii_app, elem_of_app; right; constructor|done]).
  apply (drop_keeps_solid (length l) space_prefix) in Hl; [|by left]. set (l1 := drop_spaces (length l) space_prefix l) in *.
  assert (Hr : ∃ c, c ∈ rev l1 ∧ solid c = true).
  { destruct Hl as (x & Hx & Hs). exists x. split; [|done]. rewrite list_elem_of_In. apply in_rev. rewrite rev_involutive. by apply list_elem_of_In. }
  apply (drop_keeps_solid (length l1) space_suffix) in Hr; [|by right].
  intros E. destruct (drop_spaces (length l1) space_suffix (rev l1)) as [|x t]; [destruct Hr as (y & Hy & _); by apply elem_of_nil in Hy|]. cbn [rev] in E.
  rewrite string_ascii_app in E. by destruct (string_of_list_ascii (rev t)).
Qed.

(** A path whose last component is [m]. *)
Lemma dir_part_last pre m : has_char "/" m = false → dir_part (pre +:+ String "/" m) = pre +:+ "/".
Proof.
  intros Hm. induction pre as [|c pre IH].
  - change ("" +:+ String "/" m) with (String "/" m). change (dir_part (String "/" m)) with (String "/" (dir_part m)). destruct m as [|x m]; [done|].
    cbn [dir_part]. by rewrite Hm.
  - change (String c pre +:+ String "/" m) with (String c (pre +:+ String "/" m)). cbn [dir_part].
    assert (E : has_char "/" (String c (pre +:+ String "/" m)) = true) by (cbn [has_char]; rewrite has_char_append; cbn [has_char Ascii.eqb Bool.eqb orb]; by rewrite !orb_true_r).
    by rewrite E, IH.
Qed.
Lemma pathBase_last pre m : has_char "/" m = false → pathBase (pre +:+ String "/" m) = m.
Proof.
  intros Hm. induction pre as [|c pre IH]; [change ("" +:+ String "/" m) with (String "/" m); cbn [pathBase]; by rewrite Hm|].
  change (String c pre +:+ String "/" m) with (String c (pre +:+ String "/" m)). cbn [pathBase].
  assert (E : has_char "/" (pre +:+ String "/" m) = true) by (rewrite has_char_append; cbn; by rewrite orb_true_r). by rewrite E.
Qed.
Lemma trim_slashes_none m : has_char "/" m = false → trim_slashes m = m.
Proof. induction m as [|c m IH]; [done|]. cbn. intros [Hc Hm]%orb_false_iff. rewrite IH by done. rewrite Hc. by destruct m. Qed.
Lemma trim_slashes_last pre m : has_char "/" m = false → m ≠ "" → trim_slashes (pre +:+ String "/" m) = pre +:+ String "/" m.
Proof.
  intros Hm Hn. induction pre as [|c pre IH].
  - change ("" +:+ String "/" m) with (String "/" m). cbn [trim_slashes]. rewrite trim_slashes_none by exact Hm. by destruct m.
  - change (String c pre +:+ String "/" m) with (String c (pre +:+ String "/" m)). cbn [trim_slashes]. rewrite IH. by destruct pre.
Qed.
Lemma Base_last pre m : has_char "/" m = false → m ≠ "" → filepath_Base (pre +:+ String "/" m) = m.
Proof.
  intros Hm Hn. unfold filepath_Base. rewrite trim_slashes_last, pathBase_last by done. destruct m; [done|]. by destruct pre.
Qed.

Lemma comps_join_slash l : Forall proper l → Forall (λ x, has_char "/" x = false) l → comps (String "/" (join_slash l)) = l.
Proof.
  intros Hp Hn. unfold comps. change (rooted (String "/" (join_slash l))) with true.
  change (split_char "/" (String "/" ?t)) with ("" :: split_char "/" t). cbn [foldl]. change (clean_step true [] "") with (@nil string).
  destruct l as [|x l]; [done|]. rewrite split_joined by done. by rewrite clean_proper, app_nil_r, rev_involutive.
Qed.

Section media_dir.
Context (D m : string) (par : list string) (HD : rooted D = true) (Hc : comps D = (par ++ [m])%list).

Lemma media_proper : Forall proper par ∧ proper m ∧ Forall (λ x, has_char "/" x = false) par ∧ has_char "/" m = false.
Proof.
  pose proof (comps_proper D HD) as H1. pose proof (comps_no_slash D HD) as H2. rewrite Hc in H1, H2.
  apply Forall_app in H1 as [H1 [H3 _]%list.Forall_cons]. apply Forall_app in H2 as [H2 [H4 _]%list.Forall_cons]. done.
Qed.

Lemma media_split : ∃ pre, path_Clean D = pre +:+ String "/" m ∧ rooted (pre +:+ "/") = true ∧ comps (pre +:+ "/") = par.
Proof.
  destruct media_proper as (P1 & P2 & P3 & P4). rewrite Clean_comps, Hc by done. destruct (decide (par = [])) as [->|Hp]; [by exists ""|].
  exists (String "/" (join_slash par)). split_and!; [by rewrite join_app|done|].
  change (String "/" (join_slash par) +:+ "/") with (String "/" (join_slash par) +:+ String "/" ""). rewrite comps_app by done.
  rewrite comps_join_slash by done. cbn. by rewrite rev_involutive.
Qed.

Lemma media_base : filepath_Base (path_Clean D) = m.
Proof. destruct media_split as (pre & -> & _). destruct media_proper as (_ & (? & _) & _ & ?). by apply Base_last. Qed.
Lemma media_parent : rooted (path_Dir (path_Clean D)) = true ∧ comps (path_Dir (path_Clean D)) = par.
Proof.
  destruct media_split as (pre & -> & H1 & H2). destruct media_proper as (_ & _ & _ & ?). unfold path_Dir. rewrite dir_part_last by done.
  split; [by rewrite Clean_comps|by rewrite comps_Clean].
Qed.
Lemma strip_shared a x y l : strip_common (a ++ [x]) (a ++ y :: l) = if String.eqb x y then ([], l) else ([x], y :: l).
Proof. induction a as [|z a IH]; cbn; [by destruct (String.eqb x y), l|]. by rewrite String.eqb_refl. Qed.
Lemma media_rel p x rest : rooted p = true → comps p = (par ++ x :: rest)%list → rest ≠ [] →
  path_Rel (path_Clean D) p = Some (if String.eqb m x then join_slash rest else "../" +:+ join_slash (x :: rest)).
Proof.
  intros Hp Hcp Hr. destruct media_proper as (_ & (_ & _ & Hm) & _). unfold path_Rel. rewrite comps_Clean, Hc, Hcp by done.
  assert (E : rooted (path_Clean D) = true) by (by rewrite Clean_comps). rewrite E, Hp. cbn [negb Bool.eqb]. rewrite strip_shared.
  destruct (String.eqb m x).
  - rewrite bool_decide_eq_false_2 by done. cbn [length replicate app]. by rewrite bool_decide_eq_false_2.
  - rewrite bool_decide_eq_false_2 by (intros E2; injection E2 as E2; done). cbn [length replicate app]. by rewrite bool_decide_eq_false_2.
Qed.
Lemma media_join x rest : Forall proper (x :: rest) → Forall (λ y, has_char "/" y = false) (x :: rest) →
  path_Join [path_Dir (path_Clean D); join_slash (x :: rest)] = String "/" (join_slash (par ++ x :: rest)).
Proof.
  intros Hx Hn. destruct media_parent as [H1 H2]. assert (Hj : join_slash (x :: rest) ≠ "").
  { apply list.Forall_cons in Hx as [(Hx & _) _]. destruct rest; [done|]. cbn. by destruct x. }
  destruct (comps_join (path_Dir (path_Clean D)) (join_slash (x :: rest)) H1 Hj) as [H3 H4].
  rewrite H2, split_joined, clean_proper, rev_app_distr, !rev_involutive in H3 by done.
  rewrite <-H3, <-Clean_comps by done. unfold path_Join in *. rewrite !filter_cons, filter_nil, !decide_True in * by (done || by intros E; rewrite E in H1).
  rewrite bool_decide_eq_false_2 in * by done. set (q := join_slash [path_Dir (path_Clean D); _]) in *.
  assert (Hq : rooted q = true) by (unfold q; by apply rooted_app). by rewrite (Clean_comps (path_Clean q)), comps_Clean, Clean_comps by (done || by rewrite Clean_comps).
Qed.
End media_dir.

Lemma media_inside y rest : proper y → has_char "/" y = false →
  negb (String.eqb (join_slash (y :: rest)) "..") && negb (String.prefix "../" (join_slash (y :: rest))) = true.
Proof.
  intros (H0 & H1 & H2) Hs. assert (Hp : ∀ t, t = "" ∨ (∃ t', t = String "/" t') → y +:+ t ≠ ".." ∧ String.prefix "../" (y +:+ t) = false).
  { intros t Ht. destruct y as [|c1 [|c2 [|c3 y]]]; [done|..]; cbn in Hs; destruct Ht as [->|[t' ->]].
    all: split; [intros E; by simplify_eq/=|]; cbv [String.append String.prefix]; repeat (destruct (ascii_dec _ _); try done; subst); by simplify_eq/=. }
  apply andb_true_iff. rewrite !negb_true_iff. destruct rest as [|z rest].
  - destruct (Hp "") as [Ha Hb]; [by left|]. rewrite append_nil_r in Ha, Hb. split; [by apply String.eqb_neq|done].
  - destruct (Hp (String "/" (join_slash (z :: rest)))) as [Ha Hb]; [right; by eexists|]. split; [by apply String.eqb_neq|done].
Qed.

Lemma join_some x rest : x ≠ "" → join_slash (x :: rest) ≠ "".
Proof. intros Hx. destruct rest; [done|]. by destruct x. Qed.

Lemma relative_clean x rest : Forall proper (x :: rest) → Forall (λ y, has_char "/" y = false) (x :: rest) →
  rooted (join_slash (x :: rest)) = false ∧ path_Clean (join_slash (x :: rest)) = join_slash (x :: rest).
Proof.
  intros Hp Hn. pose proof Hp as [(Hx & _) _]%list.Forall_cons. pose proof Hn as [Hs _]%list.Forall_cons.
  assert (Hr : rooted (join_slash (x :: rest)) = false).
  { destruct x as [|c x]; [done|]. cbn [has_char] in Hs. apply orb_false_iff in Hs as [Hs _]. rewrite Ascii.eqb_sym in Hs. by destruct rest. }
  split; [done|]. unfold path_Clean. rewrite split_joined by done. pose proof (join_some x rest Hx) as Hj.
  assert (E : match join_slash (x :: rest) with "" => false | String c _ => Ascii.eqb c "/" end = false).
  { destruct (join_slash (x :: rest)); [done|]. unfold rooted, HasPrefix_char in Hr. by rewrite Ascii.eqb_sym. }
  rewrite E, clean_proper, app_nil_r, rev_involutive by done. cbv zeta. by apply String.eqb_neq in Hj as ->.
Qed.

Lemma last_char a c pre s : a +:+ String c "" = pre +:+ s → s ≠ "" → ∃ b, s = b +:+ String c "".
Proof.
  intros E Hs. assert (Hl : list_ascii_of_string s ≠ []) by (by destruct s).
  apply (f_equal list_ascii_of_string) in E. rewrite !list_ascii_app in E.
  destruct (exists_last Hl) as (l & d & Hd). rewrite Hd, (app_assoc _ l) in E. apply app_inj_tail in E as [_ E].
  exists (string_of_list_ascii l). subst d. rewrite <-(string_of_list_ascii_of_string s), Hd. apply string_ascii_app.
Qed.

Section siblings.
Context (cfg : Config) (w : video_lib) (par : list string) (m t x : string) (rest : list string) (p : string).
Context (HM : rooted (MoviesDir cfg) = true) (HMc : comps (MoviesDir cfg) = (par ++ [m])%list).
Context (HT : rooted (TVDir cfg) = true) (HTc : comps (TVDir cfg) = (par ++ [t])%list).
Context (Hp : rooted p = true) (Hcp : comps p = (par ++ x :: rest)%list) (Hx : x = m ∨ x = t) (Hr : rest ≠ []).

Lemma sibling_dirs : mediaDirs cfg = [path_Clean (MoviesDir cfg); path_Clean (TVDir cfg)].
Proof. unfold mediaDirs. rewrite !filter_cons, filter_nil, !decide_True; [done|by intros E; rewrite E in HT|by intros E; rewrite E in HM]. Qed.
Lemma sibling_parts : Forall proper (x :: rest) ∧ Forall (λ y, has_char "/" y = false) (x :: rest).
Proof.
  pose proof (comps_proper p Hp) as H1. pose proof (comps_no_slash p Hp) as H2. rewrite Hcp in H1, H2.
  by apply Forall_app in H1 as [_ H1], H2 as [_ H2].
Qed.

Lemma sibling_fuse : fusePath cfg p = if dotdot (join_slash rest) then p else join_slash (x :: rest).
Proof.
  assert (HJ : path_Join [x; join_slash rest] = join_slash (x :: rest)).
  { destruct sibling_parts as [H1 H2]. pose proof H1 as [(Hx0 & _) Hr1]%list.Forall_cons. unfold path_Join.
    assert (Hj : join_slash rest ≠ "") by (destruct rest as [|y l]; [done|]; apply list.Forall_cons in Hr1 as [(Hy & _) _]; by apply join_some).
    rewrite !filter_cons, filter_nil, !decide_True by done. rewrite bool_decide_eq_false_2 by done.
    assert (E : join_slash [x; join_slash rest] = join_slash (x :: rest)) by (by destruct rest). rewrite E. by apply relative_clean. }
  assert (Hdd : dotdot ("../" +:+ join_slash (x :: rest)) = true) by done.
  unfold fusePath. rewrite sibling_dirs. cbn [fuse_in].
  rewrite (media_rel _ m par HM HMc p x rest Hp Hcp Hr), (media_rel _ t par HT HTc p x rest Hp Hcp Hr).
  rewrite (media_base _ m par HM HMc), (media_base _ t par HT HTc).
  destruct (String.eqb_spec m x) as [->|Hmx].
  - destruct (dotdot (join_slash rest)) eqn:E; [|done]. destruct (String.eqb t x); [by rewrite E|by rewrite Hdd].
  - rewrite Hdd. destruct Hx as [|<-]; [done|]. rewrite String.eqb_refl. destruct (dotdot (join_slash rest)) eqn:E; done.
Qed.

Lemma sibling_inside : insideMediaDirs cfg p = true.
Proof.
  unfold insideMediaDirs. rewrite sibling_dirs. cbn [existsb].
  rewrite (media_rel _ m par HM HMc p x rest Hp Hcp Hr), (media_rel _ t par HT HTc p x rest Hp Hcp Hr).
  assert (E : negb (String.eqb (join_slash rest) "..") && negb (String.prefix "../" (join_slash rest)) = true).
  { destruct sibling_parts as [[_ H1]%list.Forall_cons [_ H2]%list.Forall_cons]. destruct rest as [|y l]; [done|].
    apply list.Forall_cons in H1 as [H1 _], H2 as [H2 _]. by apply media_inside. }
  destruct Hx as [->| ->]; rewrite String.eqb_refl, E; [done|by rewrite orb_true_r].
Qed.

Lemma sibling_stub a l : path_Clean p = p → p = a +:+ ".mkv" → is_Some (disk w !! p) → first_stub cfg (disk w) false (p :: l) = inr p.
Proof.
  intros Hcl Ha [d Hd]. cbn [first_stub]. rewrite Hcl, Hp, sibling_inside, Hd. cbn [negb orb].
  assert (E : is_mkv p = true); [|by rewrite E]. unfold is_mkv. apply bool_decide_eq_true_2. rewrite Ha, lower_runes_tail by (by repeat constructor).
  by eexists.
Qed.
End siblings.

Lemma first_stub_skip cfg d b c l : rooted (path_Clean c) = false → first_stub cfg d b (c :: l) = first_stub cfg d b l.
Proof. intros Hc. cbn [first_stub]. by rewrite Hc. Qed.

(** C37: The path a client is told leads back to the stub: when the two media directories
    are siblings, the [fuse_path] that an add answers for a stub in either of them is
    resolved, by the remove that is given it, to that stub. *)
Theorem fuse_path_resolves cfg w par m t x rest p a :
  rooted (MoviesDir cfg) = true → comps (MoviesDir cfg) = (par ++ [m])%list →
  rooted (TVDir cfg) = true → comps (TVDir cfg) = (par ++ [t])%list →
  rooted p = true → path_Clean p = p → comps p = (par ++ x :: rest)%list → x = m ∨ x = t → rest ≠ [] →
  p = a +:+ ".mkv" → is_Some (disk w !! p) →
  resolveInsideMediaDirs cfg (fusePath cfg p) w = inr p.
Proof.
  intros HM HMc HT HTc Hp Hcl Hcp Hx Hr Ha Hd. destruct (sibling_parts par x rest p Hp Hcp) as [Q1 Q2].
  assert (Hv : TrimSpace (fusePath cfg p) ≠ "").
  { rewrite (sibling_fuse cfg par m t x rest p) by done. destruct (dotdot _).
    - rewrite Ha. change ".mkv" with (".mk" +:+ String "v" ""). rewrite <-append_assoc. by apply TrimSpace_some.
    - pose proof Q1 as [(Hx0 & _) _]%list.Forall_cons.
      destruct (last_char (a +:+ ".mk") "v" (if bool_decide (par = []) then "/" else String "/" (join_slash par) +:+ "/") (join_slash (x :: rest))) as [b ->];
        [|by apply join_some|by apply TrimSpace_some].
      rewrite append_assoc. change (".mk" +:+ String "v" "") with ".mkv". rewrite <-Ha, <-Hcl, Clean_comps, Hcp by done.
      case_bool_decide as Hpar; [by rewrite Hpar|]. rewrite join_app by done. by rewrite append_assoc. }
  unfold resolveInsideMediaDirs. apply String.eqb_neq in Hv as ->. rewrite (sibling_fuse cfg par m t x rest p) by done.
  destruct (dotdot _); unfold path_candidates.
  - rewrite Hp. by eapply sibling_stub.
  - destruct (relative_clean x rest Q1 Q2) as [R1 R2]. rewrite R1, sibling_dirs by done. cbn [mbind list_bind app].
    rewrite first_stub_skip by (by rewrite R2). rewrite (media_join _ m par HM HMc) by done. rewrite <-Hcp, <-Clean_comps, Hcl by done. by eapply sibling_stub.
Qed.

Lemma fuse_path_resolves_witness :
  let w := (Add sample_cfg no_faults (says hash_a pack_files) 5 (pack_req "Show" hash_a) empty_lib).1 in
  let p := episode_path "/m/tv" "Show" "2013-04-07" 1 1 hash_a in
  fusePath sample_cfg p = "tv/Show (2013)/Season.01/Show_S01E01_01234567.mkv" ∧ resolveInsideMediaDirs sample_cfg (fusePath sample_cfg p) w = inr p.
Proof.
  split; [vm_compute; reflexivity|].
  apply (fuse_path_resolves sample_cfg _ ["m"] "movies" "tv" "tv" ["Show (2013)"; "Season.01"; "Show_S01E01_01234567.mkv"] _
    "/m/tv/Show (2013)/Season.01/Show_S01E01_01234567"); try (vm_compute; reflexivity); [by right|done|vm_compute; by eexists].
Defined.
