(* ===== verification/TvSync.v ===== *)
(** * The passes of the TV sync that delete (internal/syncer/engines: tv_go.go,
    tv_reaper.go, dropguard.go; internal/metadb: metafail.go, gaps.go; MayDropTorrent of
    internal/library/audio.go)

    The engine of the TV sync keeps a registry of episodes in memory, loaded from the
    table once, when the engine is made.  A run first adopts stubs the registry does not
    know and drops entries whose stub is gone, then searches, gives releases that no longer
    answer a search of their own and removes what nothing could replace, and at its end
    deletes every stub and torrent the registry does not list.

    The search itself, in the middle of a run, is not modelled: what it did to the state
    and what it says of the seasons are arguments of the reaper.  The world is that of
    Videos.v, which the library API changes too; [disk] holds regular files only.  The
    engine reads hashes in hex without case.  [listed] is what it answers to a listing, hash
    and title, [None] an error.  Rows of [gap_rows] count while their key is in
    [open_gaps].  SQLite leaves open the order of rows that compare equal; here it is that
    of the map. *)

From Stdlib Require Import Ascii String.
From S2P Require Import Prelude GoFloat GoStrings Flac Cue CueSplit Paths Naming Sources AudioRegistry Stub Videos VideoStubs.
Local Open Scope string_scope.
Local Open Scope Z_scope.

(** ** The state *)

Record TVEpisodeEntry := mkTvEntry { te_score : Z; te_hash : string; te_path : string; te_source : string; te_created : Z }.
Record failure := mkFailure { fail_count : Z; first_fail : Z; last_fail : Z }.
Record EpisodeGap := mkGap { eg_imdb : string; eg_season : Z; eg_path : string; DeadHash : string; RemovedAt : Z; LastAttempt : Z }.
Record tv_world := mkTv {
  tv_lib : video_lib;
  tv_registry : gmap string TVEpisodeEntry;
  failures : gmap string failure;
  gap_rows : gmap string EpisodeGap;
  deadEpisodeKeys : gset string;
  deadPackHashes : gset string
}.
Definition on_lib (l : video_lib) (w : tv_world) : tv_world :=
  mkTv l (tv_registry w) (failures w) (gap_rows w) (deadEpisodeKeys w) (deadPackHashes w).
Definition on_registry (r : gmap string TVEpisodeEntry) (w : tv_world) : tv_world :=
  mkTv (tv_lib w) r (failures w) (gap_rows w) (deadEpisodeKeys w) (deadPackHashes w).
Definition on_failures (f : gmap string failure) (w : tv_world) : tv_world :=
  mkTv (tv_lib w) (tv_registry w) f (gap_rows w) (deadEpisodeKeys w) (deadPackHashes w).
Definition on_gap_rows (g : gmap string EpisodeGap) (w : tv_world) : tv_world :=
  mkTv (tv_lib w) (tv_registry w) (failures w) g (deadEpisodeKeys w) (deadPackHashes w).
Definition on_dead (k h : gset string) (w : tv_world) : tv_world := mkTv (tv_lib w) (tv_registry w) (failures w) (gap_rows w) k h.

(** What may fail beside the calls of [faults], and whether there is a database. *)
Record tv_faults := mkTvFaults {
  tf : faults;
  has_db : bool;
  load_ok : bool;                  (* AllEpisodes *)
  failures_ok : bool;              (* MetadataFailuresOver *)
  by_hash_ok : string → bool;      (* EpisodesByHash *)
  clear_ok : string → bool;        (* ClearMetadataFailure *)
  gap_put_ok : string → bool       (* RecordEpisodeGap *)
}.

(** ** The tables *)

Definition RecordMetadataFailure (now : Z) (hash : string) (w : tv_world) : tv_world :=
  on_failures (<[hash := match failures w !! hash with
                         | Some f => mkFailure (fail_count f + 1) (first_fail f) now
                         | None => mkFailure 1 now now
                         end]> (failures w)) w.
Definition ClearMetadataFailure (fl : tv_faults) (hash : string) (w : tv_world) : tv_world :=
  if has_db fl && clear_ok fl hash then on_failures (delete hash (failures w)) w else w.
Definition more_failures (a b : string * failure) : Prop := fail_count b.2 ≤ fail_count a.2.
#[export] Instance more_failures_dec a b : Decision (more_failures a b).
Proof. unfold more_failures. apply _. Defined.
Definition MetadataFailuresOver (minCount minSpan : Z) (w : tv_world) : list string :=
  (merge_sort more_failures
    (filter (λ f, minCount ≤ fail_count f.2 ∧ minSpan ≤ last_fail f.2 - first_fail f.2) (map_to_list (failures w)))).*1.
Definition key_before (a b : EpisodeEntry) : Prop := String.leb (ee_key a) (ee_key b) = true.
#[export] Instance key_before_dec a b : Decision (key_before a b).
Proof. unfold key_before. apply _. Defined.
Definition EpisodesByHash (hash : string) (w : tv_world) : list EpisodeEntry :=
  merge_sort key_before (filter (λ e, ee_hash e = hash) (map_to_list (episodes (tv_lib w))).*2).

(** ** What a stub says *)

(** Whether a number of JSON is one of float64: its distance to the next power of two
    above the range decides. *)
Definition digits_of (l : list Z) : Z := foldl (λ v d, 10 * v + (d - 48)) 0 l.
Definition float_fits (lit : list Z) : bool :=
  let l := match lit with 45 :: t => t | _ => lit end in
  match integer_part l with
  | Some (i, r) =>
      match fraction_part r with
      | Some (f, r) =>
          let e := match r with _ :: 43 :: ds => digits_of ds | _ :: 45 :: ds => - digits_of ds | _ :: ds => digits_of ds | [] => 0 end in
          let f := tail f in
          let m := digits_of (i ++ f) in
          let x := e - len f in
          let bound := (2 ^ 54 - 1) * 2 ^ 970 in
          if 0 <=? x then m * 10 ^ x <? bound else m <? bound * 10 ^ (- x)
      | None => false
      end
  | None => false
  end.
Fixpoint numbers_fit (j : json) : bool :=
  match j with
  | JNum l => float_fits l
  | JArr l => forallb numbers_fit l
  | JObj ms => forallb (λ m, numbers_fit m.2) ms
  | _ => true
  end.
(** The url of an object unmarshalled into a map. *)
Definition map_url (l : list Z) : option string :=
  match parse_json l with
  | Some (JObj ms) =>
      if numbers_fit (JObj ms)
      then Some match head (rev (filter (λ m, m.1 = bytes_of "url") ms)) with Some (_, JStr s) => text_of s | _ => "" end
      else None
  | Some JNull => Some ""
  | _ => None
  end.

(** [reTVHashURL] *)
Definition hex_rune (r : Z) : bool := digit_rune r || ((97 <=? r) && (r <=? 102)) || ((65 <=? r) && (r <=? 70)).
Fixpoint tv_link (l : list Z) : string :=
  match l with
  | [] => ""
  | _ :: t =>
      let h := take 40 (drop 5 l) in
      if match_here (lit "link=") None l && (length h =? 40)%nat && forallb hex_rune h then text_of (lower_rune <$> h) else tv_link t
  end.
Definition readHashFromMKV (data : list Byte.byte) : string :=
  let content := TrimSpace (string_of_list_byte data) in
  if (10240 <? len data) || negb (HasPrefix_char "{" content) then ""
  else match map_url (bytes_of content) with Some url => tv_link (runes_of url) | None => "" end.

(** [reTVFileName], read from the end of a name. *)
Definition rev_digits (l : list Z) : list Z * list Z := let ds := list_find (λ r, digit_rune r = false) l in
  match ds with Some (n, _) => (take n l, drop n l) | None => (l, []) end.
Definition tv_file_name (name : string) : option (list Z * Z * Z * string) :=
  let l := rev (runes_of name) in
  if negb (match_here (lit "vkm.") None l && forallb hex_rune (take 8 (drop 4 l)) && (12 <=? length l)%nat) then None
  else
    let hash8 := text_of (lower_rune <$> rev (take 8 (drop 4 l))) in
    match drop 12 l with
    | 95 :: l =>
        let '(ep, l) := rev_digits l in
        match l with
        | e :: l =>
            let '(sn, l) := rev_digits l in
            match l with
            | s :: 95 :: l =>
                let show := rev (match list_find (λ r, r = 10) l with Some (n, _) => take n l | None => l end) in
                if folds "e" e && folds "s" s && negb (bool_decide (ep = [])) && negb (bool_decide (sn = [])) && negb (bool_decide (show = []))
                then Some (show, digits_value (text_of (rev sn)), digits_value (text_of (rev ep)), hash8) else None
            | _ => None
            end
        | [] => None
        end
    | _ => None
    end.
Definition runes_key (show : list Z) (season episode : Z) : string :=
  text_of (filter (λ r, key_rune r = true) (lower_rune <$> show)) +:+ "_s" +:+ pad2 season +:+ "e" +:+ pad2 episode.

Example tv_name_sample : tv_file_name "Law_Order_S03E12_89aBcdef.mkv" = Some (bytes_of "Law_Order", 3, 12, "89abcdef") ∧
  runes_key (bytes_of "Law_Order") 3 12 = "laworder_s03e12" ∧ tv_file_name "_S03E12_89aBcdef.mkv" = None ∧
  float_fits (bytes_of "1.5e308") = true ∧ float_fits (bytes_of "1.8e308") = false.
Proof. vm_compute. repeat split. Qed.

(** ** The start of a run *)

Definition loadRegistry (fl : tv_faults) (saved : gmap string TVEpisodeEntry) (l : video_lib) : gmap string TVEpisodeEntry :=
  if has_db fl && load_ok fl
  then (λ e, mkTvEntry (QualityScore e) (ee_hash e) (FilePath e) (Source e) (Created e)) <$> episodes l
  else saved.
Definition registryByPath (path : string) (reg : gmap string TVEpisodeEntry) : bool :=
  existsb (λ e, String.eqb (te_path e.2) path) (map_to_list reg).
(** The full hash of a stub: from its text, from the engine, or what its name tells. *)
Definition full_hash (listed : option (list (string * string))) (hash8 : string) (data : list Byte.byte) : string :=
  let own := readHashFromMKV data in
  if negb (String.eqb own "") then own
  else match list_find (λ t : string * string, bytes_of hash8 `prefix_of` lower_runes t.1) (default [] listed) with
       | Some (_, t) => hash_text (lower_runes t.1)
       | None => hash8
       end.
Definition populate_one (listed : option (list (string * string))) (mtime : string → Z) (reg : gmap string TVEpisodeEntry)
    (f : string * list Byte.byte) : gmap string TVEpisodeEntry :=
  if negb (is_mkv f.1) || registryByPath f.1 reg then reg
  else match tv_file_name (filepath_Base f.1) with
       | Some (show, season, episode, hash8) =>
           let key := runes_key show season episode in
           match reg !! key with
           | Some _ => reg
           | None => <[key := mkTvEntry 1 (full_hash listed hash8 f.2) f.1 "existing" (mtime f.1)]> reg
           end
       | None => reg
       end.
Definition populateRegistryFromExisting (cfg : Config) (listed : option (list (string * string))) (mtime : string → Z) (w : tv_world) : tv_world :=
  on_registry (foldl (populate_one listed mtime) (tv_registry w) (walk (TVDir cfg) (disk (tv_lib w)))) w.

(** Entries whose stub is not there, each on its own. *)
Definition ghost (d : disk_files) (e : TVEpisodeEntry) : bool := negb (bool_decide (is_Some (d !! te_path e)) || dir_there d (te_path e)).
Definition ghost_key (w : tv_world) (k : string) : bool :=
  match tv_registry w !! k with Some e => ghost (disk (tv_lib w)) e | None => false end.
Definition reconcileRegistry (fl : tv_faults) (w : tv_world) : tv_world :=
  let l := tv_lib w in
  on_registry (filter (λ ke, ghost (disk l) ke.2 = false) (tv_registry w))
    (on_lib (on_rows (filter (λ kr, ¬ (has_db fl = true ∧ ghost_key w kr.1 = true ∧ delete_ok (tf fl) kr.1 = true)) (episodes l)) l) w).

Definition registerEpisode (fl : tv_faults) (now : Z) (key : string) (score : Z) (hash path source showIMDB : string) (w : tv_world) : tv_world :=
  let w := on_dead (deadEpisodeKeys w ∖ {[ key ]}) (deadPackHashes w)
             (on_registry (<[key := mkTvEntry score hash path source now]> (tv_registry w)) w) in
  if negb (has_db fl) then w
  else
    let l := tv_lib w in
    let l := if put_ok (tf fl) key then on_rows (<[key := mkEpisode key score hash path source now showIMDB]> (episodes l)) l else l in
    on_lib (if gap_ok (tf fl) key then on_gaps (open_gaps l ∖ {[ key ]}) l else l) w.

(** ** Dropping *)

Definition MayDropTorrent (fl : faults) (hash : string) : option bool :=
  if String.eqb hash "" then Some false else negb <$> audio_uses fl hash.
Definition dropTorrentGuarded (fl : faults) (hash : string) (l : video_lib) : video_lib :=
  match MayDropTorrent fl hash with
  | Some true => if drop_ok fl hash then on_engine (engine l ∖ {[ ToLower hash ]}) l else l
  | _ => l
  end.
Definition removeStubFile (fl : tv_faults) (path : string) (w : tv_world) : tv_world :=
  on_lib (deleteStub (remove_ok (tf fl)) path (tv_lib w)).1 w.
Definition removeStub (fl : tv_faults) (path hash : string) (w : tv_world) : tv_world :=
  removeStubFile fl path
    (if String.eqb hash "" then w else ClearMetadataFailure fl hash (on_lib (dropTorrentGuarded (tf fl) hash (tv_lib w)) w)).

(** ** The end of a run *)

Definition cleanup_one (fl : tv_faults) (regPaths : list string) (w : tv_world) (f : string * list Byte.byte) : tv_world :=
  if negb (is_mkv f.1) || bool_decide (f.1 ∈ regPaths) then w else removeStub fl f.1 (readHashFromMKV f.2) w.
Definition cleanupOrphanedFiles (cfg : Config) (fl : tv_faults) (w : tv_world) : tv_world :=
  let regPaths := te_path <$> (map_to_list (tv_registry w)).*2 in
  foldl (cleanup_one fl regPaths) w (walk (TVDir cfg) (disk (tv_lib w))).

(** The hash a stub names, in either of its formats. *)
Definition disk_hash (data : list Byte.byte) : string :=
  let text := string_of_list_byte data in
  let content := TrimSpace text in
  if HasPrefix_char "{" content
  then match map_url (bytes_of text) with Some url => tv_link (runes_of url) | None => "" end
  else tv_link (runes_of (hd "" (split_char newline content))).
(** [reTVSeries]: a number of an episode, or one of the words. *)
Definition digit_run (l : list Z) : list Z := (rev_digits l).1.
Fixpoint names_number (l : list Z) : bool :=
  match l with
  | [] => false
  | s :: t =>
      let '(d1, r) := rev_digits t in
      (folds "s" s && negb (bool_decide (d1 = [])) && match r with e :: u => folds "e" e && negb (bool_decide (digit_run u = [])) | [] => false end)
      || names_number t
  end.
Definition reTVSeries (title : string) : bool := names_number (runes_of title) || MatchString [lit "season"; lit "episode"] title.
Definition orphan_torrent (fl : faults) (registryHashes diskHashes : list string) (l : video_lib) (t : string * string) : video_lib :=
  let h := hash_text (lower_runes t.1) in
  if String.eqb h "" || negb (reTVSeries t.2) || bool_decide (h ∈ registryHashes) || bool_decide (h ∈ diskHashes) then l
  else dropTorrentGuarded fl h l.
Definition cleanupOrphanedTorrents (cfg : Config) (fl : tv_faults) (listed : option (list (string * string))) (w : tv_world) : tv_world :=
  match listed with
  | None => w
  | Some torrents =>
      let registryHashes := ToLower <$> (te_hash <$> (map_to_list (tv_registry w)).*2) in
      let diskHashes := filter (λ h, h ≠ "")
        (disk_hash <$> (filter (λ f, is_mkv f.1 = true) (walk (TVDir cfg) (disk (tv_lib w)))).*2) in
      on_lib (foldl (orphan_torrent (tf fl) registryHashes diskHashes) (tv_lib w) torrents) w
  end.

Definition sync_start (cfg : Config) (fl : tv_faults) (listed : option (list (string * string))) (mtime : string → Z) (w : tv_world) : tv_world :=
  reconcileRegistry fl (populateRegistryFromExisting cfg listed mtime w).
Definition sync_end (cfg : Config) (fl : tv_faults) (listed : option (list (string * string))) (w : tv_world) : tv_world :=
  cleanupOrphanedTorrents cfg fl listed (cleanupOrphanedFiles cfg fl w).

(** ** Releases that stopped answering *)

Fixpoint after_last (s : string) : option string :=
  match s with
  | "" => None
  | String _ t =>
      match after_last t with
      | Some r => Some r
      | None => if String.prefix "_s" s then Some (String.substring 2 (String.length s) s) else None
      end
  end.
Definition seasonFromEpisodeKey (key : string) : Z :=
  match after_last key with
  | Some rest =>
      let '(d, r) := break_at (Ascii.eqb "e") rest in
      if (String.length rest <? 3)%nat || String.eqb r "" || String.eqb d "" then 0 else default 0 (Atoi d)
  | None => 0
  end.

Definition deadReleaseFailures : Z := 3.
Definition deadReleaseSpan : Z := 86400.
Record deadPack := mkPack { dp_hash : string; dp_episodes : list EpisodeEntry; dp_seasons : list Z }.
Definition pack_of (hash : string) (eps : list EpisodeEntry) : deadPack :=
  mkPack hash eps (merge_sort Z.le (filter (λ s, 0 < s) (remove_dups ((λ e, seasonFromEpisodeKey (ee_key e)) <$> eps)))).
Definition flag_one (fl : tv_faults) (s : tv_world * list deadPack) (hash : string) : tv_world * list deadPack :=
  let '(w, packs) := s in
  let eps := EpisodesByHash hash w in
  if negb (by_hash_ok fl hash) || bool_decide (eps = []) then (w, packs)
  else (on_dead (list_to_set (ee_key <$> eps) ∪ deadEpisodeKeys w) ({[ ToLower hash ]} ∪ deadPackHashes w) w, (packs ++ [pack_of hash eps])%list).
Definition flagDeadPacks (fl : tv_faults) (w : tv_world) : tv_world * list deadPack :=
  if negb (has_db fl) || negb (failures_ok fl) then (w, [])
  else foldl (flag_one fl) (w, []) (MetadataFailuresOver deadReleaseFailures deadReleaseSpan w).

Record seasonSearch := mkSearch { Complete : bool; RawSeen : bool }.
Definition not_searched : seasonSearch := mkSearch false false.
(** Every season of the pack was searched to the end and something was found. *)
Definition conclusive (searched : gmap Z seasonSearch) (seasons : list Z) : bool :=
  negb (bool_decide (seasons = [])) && forallb (λ s, let got := default not_searched (searched !! s) in Complete got && RawSeen got) seasons.
(** The hashes compared are ASCII. *)
Definition EqualFold (a b : string) : bool := String.eqb (ToLower a) (ToLower b).
Definition still_dead (pack : deadPack) (reg : gmap string TVEpisodeEntry) (e : EpisodeEntry) : option TVEpisodeEntry :=
  cur ← reg !! ee_key e; if EqualFold (te_hash cur) (dp_hash pack) then Some cur else None.
(** The row of an episode, and the record of the hole it leaves. *)
Definition forget_row (fl : tv_faults) (now : Z) (pack : deadPack) (e : EpisodeEntry) (cur : TVEpisodeEntry) (w : tv_world) : tv_world :=
  if negb (has_db fl) then w
  else
    let k := ee_key e in
    let w := if delete_ok (tf fl) k then on_lib (on_rows (delete k (episodes (tv_lib w))) (tv_lib w)) w else w in
    if gap_put_ok fl k
    then on_gap_rows (<[k := mkGap (ShowIMDB e) (seasonFromEpisodeKey k) (te_path cur) (dp_hash pack) now 0]> (gap_rows w))
           (on_lib (on_gaps ({[ k ]} ∪ open_gaps (tv_lib w)) (tv_lib w)) w)
    else w.
Definition reap_episode (fl : tv_faults) (now : Z) (pack : deadPack) (s : tv_world * Z * Z) (e : EpisodeEntry) : tv_world * Z * Z :=
  let '(w, removed, kept) := s in
  if negb (bool_decide (seasonFromEpisodeKey (ee_key e) ∈ dp_seasons pack)) then (w, removed, kept + 1)
  else match still_dead pack (tv_registry w) e with
       | None => s
       | Some cur =>
           let w := removeStubFile fl (te_path cur) w in
           let w := on_registry (delete (ee_key e) (tv_registry w)) w in
           (forget_row fl now pack e cur w, removed + 1, kept)
       end.
Definition dropReplacedPack (fl : tv_faults) (now : Z) (pack : deadPack) (searched : gmap Z seasonSearch) (w : tv_world) : tv_world :=
  if negb (conclusive searched (dp_seasons pack)) then w
  else
    let '(w, removed, kept) := foldl (reap_episode fl now pack) (w, 0, 0) (dp_episodes pack) in
    ClearMetadataFailure fl (dp_hash pack)
      (if (0 <? removed) && (kept =? 0) then on_lib (dropTorrentGuarded (tf fl) (dp_hash pack) (tv_lib w)) w else w).

(** What a pack meets: the run was stopped, its show could not be told, or a search that
    did what it did. *)
Record pack_turn := mkTurn {
  stopped : bool; resolving : tv_world → tv_world * bool; searching : tv_world → tv_world * gmap Z seasonSearch
}.
Fixpoint reapDeadPacks (fl : tv_faults) (now : Z) (turns : list (deadPack * pack_turn)) (w : tv_world) : tv_world :=
  match turns with
  | [] => w
  | (pack, t) :: turns =>
      if stopped t then w
      else if bool_decide (dp_seasons pack = []) then reapDeadPacks fl now turns w
      else
        let '(w, ok) := resolving t w in
        if negb ok then reapDeadPacks fl now turns w
        else let '(w, searched) := searching t w in reapDeadPacks fl now turns (dropReplacedPack fl now pack searched w)
  end.

(** The season of a key is the one it was made with. *)
Lemma after_last_none s : has_char "_" s = false → after_last s = None.
Proof.
  induction s as [|c s IH]; [done|]. cbn [has_char after_last]. intros [Hc Hs]%orb_false_iff. rewrite IH by done.
  cbn [String.prefix]. destruct (ascii_dec "_" c) as [<-|]; [done|done].
Qed.
Lemma after_last_app a b : has_char "_" b = false → after_last (a +:+ "_s" +:+ b) = Some b.
Proof.
  intros Hb. induction a as [|c a IH].
  - change ("" +:+ "_s" +:+ b) with (String "_" (String "s" b)). cbn [after_last]. rewrite after_last_none by done.
    assert (E : String.prefix "_s" (String "s" b) = false) by done. rewrite E. change (String.prefix "_s" (String "_" (String "s" b))) with (String.prefix "" b).
    assert (E2 : String.prefix "" b = true) by (by destruct b). rewrite E2. f_equal. apply (substring_tail _ "_s" b). simpl. lia.
  - change (String c a +:+ "_s" +:+ b) with (String c (a +:+ "_s" +:+ b)). cbn [after_last]. by rewrite IH.
Qed.
Lemma season_of_key show season episode : 0 ≤ season → in_i64 season → 0 ≤ episode → seasonFromEpisodeKey (EpisodeKey show season episode) = season.
Proof.
  intros H1 H2 H3. unfold seasonFromEpisodeKey, EpisodeKey. destruct (pad2_digits season H1) as [A1 A2], (pad2_digits episode H3) as [B1 B2].
  rewrite after_last_app.
  2: { rewrite !has_char_append, (all_chars_has is_digit "_" (pad2 season)), (all_chars_has is_digit "_" (pad2 episode)) by done. done. }
  change ("e" +:+ pad2 episode) with (String "e" (pad2 episode)). rewrite break_at_app; [| |done].
  2: { eapply all_chars_impl; [|exact A2]. intros d Hd. destruct (Ascii.eqb_spec "e" d) as [<-|]; done. }
  assert (Hl : (String.length (pad2 season +:+ String "e" (pad2 episode)) <? 3)%nat = false).
  { apply Nat.ltb_ge. rewrite slen_app. cbn [String.length]. destruct (pad2 season); [done|]. destruct (pad2 episode); [done|]. cbn [String.length]. lia. }
  rewrite Hl. destruct (String.eqb_spec (pad2 season) ""); [done|]. cbn [orb String.eqb]. by rewrite Atoi_pad2.
Qed.

(** ** The reaper removes what it should, and nothing else *)

Section reaper.
Context (fl : tv_faults) (now : Z) (pack : deadPack).

(** The entries of [w] the reaper is to remove: of the pack, in one of its seasons, and
    still standing for its torrent. *)
Definition doomed (eps : list EpisodeEntry) (w : tv_world) (k : string) (cur : TVEpisodeEntry) : Prop :=
  tv_registry w !! k = Some cur ∧ EqualFold (te_hash cur) (dp_hash pack) = true ∧
  seasonFromEpisodeKey k ∈ dp_seasons pack ∧ k ∈ ee_key <$> eps.

Record reaped (w w' : tv_world) (D : string → TVEpisodeEntry → Prop) : Prop := {
  rp_from : ∀ k cur, D k cur → tv_registry w !! k = Some cur;
  rp_entry : ∀ k cur, D k cur → tv_registry w' !! k = None;
  rp_stub : ∀ k cur, D k cur → remove_ok (tf fl) (te_path cur) = true → disk (tv_lib w') !! te_path cur = None;
  rp_row : ∀ k cur, D k cur → has_db fl = true → delete_ok (tf fl) k = true → episodes (tv_lib w') !! k = None;
  rp_gap : ∀ k cur, D k cur → has_db fl = true → gap_put_ok fl k = true → k ∈ open_gaps (tv_lib w') ∧
    ∃ g, gap_rows w' !! k = Some g ∧ eg_path g = te_path cur ∧ eg_season g = seasonFromEpisodeKey k ∧ DeadHash g = dp_hash pack;
  rp_other : ∀ k, (∀ cur, ¬ D k cur) → tv_registry w' !! k = tv_registry w !! k ∧ episodes (tv_lib w') !! k = episodes (tv_lib w) !! k ∧
    (k ∈ open_gaps (tv_lib w') ↔ k ∈ open_gaps (tv_lib w)) ∧ gap_rows w' !! k = gap_rows w !! k;
  rp_files : ∀ p, (∀ k cur, D k cur → te_path cur ≠ p) → disk (tv_lib w') !! p = disk (tv_lib w) !! p;
  rp_fewer : ∀ p, disk (tv_lib w) !! p = None → disk (tv_lib w') !! p = None
}.

Lemma reaped_none w D : (∀ k cur, ¬ D k cur) → reaped w w D.
Proof. intros H. split; intros; try done; by exfalso; eapply H. Qed.

Lemma reaped_trans w w1 w' D1 D2 D : reaped w w1 D1 → reaped w1 w' D2 → (∀ k cur, D k cur ↔ D1 k cur ∨ D2 k cur) → reaped w w' D.
Proof.
  intros H1 H2 HD.
  assert (Hx : ∀ k c1 c2, D1 k c1 → ¬ D2 k c2) by (intros k c1 c2 A%(rp_entry _ _ _ H1) B%(rp_from _ _ _ H2); congruence).
  assert (Hn : ∀ k, (∀ cur, ¬ D k cur) → (∀ cur, ¬ D1 k cur) ∧ ∀ cur, ¬ D2 k cur) by (intros k A; split; intros c B; apply (A c), HD; auto).
  assert (Hk : ∀ k c1, D1 k c1 → ∀ c2, ¬ D2 k c2) by (intros k c1 A c2; eauto).
  split.
  - intros k cur [A|A]%HD; [by apply H1|]. rewrite <-(proj1 (rp_other _ _ _ H1 k (λ c B, Hx k c cur B A))). by apply H2.
  - intros k cur [A|A]%HD; [|by eapply rp_entry]. rewrite (proj1 (rp_other _ _ _ H2 k (Hk k cur A))). by eapply rp_entry.
  - intros k cur [A|A]%HD Hr; [|by eapply rp_stub]. eapply rp_fewer; [done|]. by eapply (rp_stub _ _ _ H1).
  - intros k cur [A|A]%HD Hd Hr; [|by eapply rp_row]. destruct (rp_other _ _ _ H2 k (Hk k cur A)) as (_ & -> & _). by eapply (rp_row _ _ _ H1).
  - intros k cur [A|A]%HD Hd Hr; [|by eapply rp_gap]. destruct (rp_other _ _ _ H2 k (Hk k cur A)) as (_ & _ & E1 & E2). rewrite E1, E2. by eapply (rp_gap _ _ _ H1).
  - intros k A. destruct (Hn k A) as [A1 A2]. destruct (rp_other _ _ _ H1 k A1) as (B1 & B2 & B3 & B4), (rp_other _ _ _ H2 k A2) as (C1 & C2 & C3 & C4).
    rewrite C1, C2, C3, C4. done.
  - intros p A. rewrite (rp_files _ _ _ H2), (rp_files _ _ _ H1); [done| |]; intros k cur B; apply (A k cur), HD; auto.
  - intros p A. eapply (rp_fewer _ _ _ H2), (rp_fewer _ _ _ H1), A.
Qed.

Lemma reap_single w e cur : tv_registry w !! ee_key e = Some cur →
  reaped w (forget_row fl now pack e cur (on_registry (delete (ee_key e) (tv_registry w)) (removeStubFile fl (te_path cur) w)))
    (λ k c, k = ee_key e ∧ c = cur).
Proof.
  intros Hr. set (k0 := ee_key e).
  assert (Hdisk : ∀ p, disk (deleteStub (remove_ok (tf fl)) (te_path cur) (tv_lib w)).1 !! p =
    if decide (te_path cur = p ∧ remove_ok (tf fl) p = true) then None else disk (tv_lib w) !! p).
  { intros p. unfold deleteStub. destruct (remove_ok (tf fl) (te_path cur)) eqn:E; cbn.
    - case_decide as Hp; [destruct Hp as [<- _]; apply lookup_delete_eq|]. apply lookup_delete_ne. intros <-. by apply Hp.
    - rewrite decide_False; [done|]. intros [<- ?]. congruence. }
  assert (Hlib : ∀ A (f : video_lib → A), (∀ d l, f (on_disk d l) = f l) → f (deleteStub (remove_ok (tf fl)) (te_path cur) (tv_lib w)).1 = f (tv_lib w)).
  { intros A f Hf. unfold deleteStub. destruct (remove_ok _ _); cbn; [apply Hf|done]. }
  pose proof (Hlib _ episodes (λ _ _, eq_refl)) as He. pose proof (Hlib _ open_gaps (λ _ _, eq_refl)) as Hg. pose proof (Hlib _ engine (λ _ _, eq_refl)) as Hn.
  unfold forget_row, removeStubFile. fold k0. destruct (has_db fl) eqn:Ed, (delete_ok (tf fl) k0) eqn:E1, (gap_put_ok fl k0) eqn:E2; cbn [negb];
    split; cbn [tv_registry tv_lib gap_rows on_registry on_lib on_gap_rows on_rows on_gaps disk episodes open_gaps engine on_disk];
    try (intros k c [-> ->]); try done.
  all: try (intros _; rewrite Hdisk; by case_decide as H; [|destruct H]).
  all: try apply lookup_delete_eq; try (intros; congruence); try (intros _ _; apply lookup_delete_eq).
  all: try (intros Hrm; rewrite Hdisk; by rewrite decide_True).
  all: try (intros p Hp; rewrite Hdisk; rewrite decide_False; [done|intros [<- _]; by eapply Hp]).
  all: try (intros p Hp; rewrite Hdisk; by case_decide).
  all: try (intros _ _; split; [set_solver|eexists; rewrite lookup_insert_eq; split_and!; done]).
  all: try (intros k Hk; assert (k ≠ k0) by (intros ->; by eapply Hk); rewrite ?lookup_delete_ne, ?lookup_insert_ne, ?He, ?Hg by done; set_solver).
Qed.

Lemma forget_engine e cur w :
  engine (tv_lib (forget_row fl now pack e cur (on_registry (delete (ee_key e) (tv_registry w)) (removeStubFile fl (te_path cur) w)))) = engine (tv_lib w).
Proof. unfold forget_row, removeStubFile, deleteStub. by destruct (has_db fl), (delete_ok _ _), (gap_put_ok _ _), (remove_ok _ _). Qed.

Lemma reap_fold eps w r n : let '(w', r', n') := foldl (reap_episode fl now pack) (w, r, n) eps in
  reaped w w' (doomed eps w) ∧ engine (tv_lib w') = engine (tv_lib w) ∧ n' = n + len (filter (λ e, seasonFromEpisodeKey (ee_key e) ∉ dp_seasons pack) eps).
Proof.
  revert w r n. induction eps as [|e eps IH]; intros w r n.
  { split_and!; [|done|unfold len; simpl; lia]. apply reaped_none. intros k cur (_ & _ & _ & H). by apply elem_of_nil in H. }
  cbn [foldl]. unfold reap_episode at 2.
  assert (Hskip : ∀ w1, still_dead pack (tv_registry w) e = None ∨ seasonFromEpisodeKey (ee_key e) ∉ dp_seasons pack →
    reaped w w1 (doomed eps w) → reaped w w1 (doomed (e :: eps) w)).
  { intros w1 Hs Hw. eapply reaped_trans; [apply (reaped_none w (λ _ _, False)); auto|exact Hw|]. intros k cur. unfold doomed. rewrite fmap_cons, elem_of_cons.
    split; [|tauto]. intros (A & B & C & [->|D]); [|tauto]. exfalso. destruct Hs as [Hs|Hs]; [|done]. unfold still_dead in Hs. rewrite A in Hs. cbn in Hs. by rewrite B in Hs. }
  rewrite filter_cons. destruct (bool_decide_reflect (seasonFromEpisodeKey (ee_key e) ∈ dp_seasons pack)) as [Hs|Hs]; cbn [negb].
  2: { rewrite decide_True by done. specialize (IH w r (n + 1)). destruct (foldl _ _ eps) as [[w' r'] n']. destruct IH as (IH & Hen & ->). split_and!; [by apply Hskip; [right|]|done|]. unfold len. simpl. lia. }
  rewrite decide_False by (intros H; by apply H). destruct (still_dead pack (tv_registry w) e) as [cur|] eqn:Ed.
  2: { specialize (IH w r n). destruct (foldl _ _ eps) as [[w' r'] n']. destruct IH as (IH & Hen & ->). split_and!; [by apply Hskip; [left|]|done|done]. }
  unfold still_dead in Ed. destruct (tv_registry w !! ee_key e) as [c|] eqn:Er; [|done]. cbn in Ed. destruct (EqualFold _ _) eqn:Ef; [|done]. injection Ed as <-.
  pose proof (reap_single w e c Er) as H1. change (tv_registry (removeStubFile fl (te_path c) w)) with (tv_registry w).
  set (w1 := forget_row _ _ _ _ _ _) in *. specialize (IH w1 (r + 1) n). destruct (foldl _ _ eps) as [[w' r'] n']. destruct IH as (IH & Hen & ->). split_and!; [|by rewrite Hen; apply forget_engine|done].
  eapply reaped_trans; [exact H1|exact IH|]. intros k cur. unfold doomed. rewrite fmap_cons, elem_of_cons.
  destruct (decide (k = ee_key e)) as [->|Hk].
  - rewrite (rp_entry _ _ _ H1 (ee_key e) c) by done. split; [|intros [[_ ->]|(? & _)]; [|done]; tauto]. intros (A & _). left. split; [done|]. congruence.
  - assert (E : tv_registry w1 !! k = tv_registry w !! k) by (apply (rp_other _ _ _ H1); by intros ? [? _]). rewrite E. tauto.
Qed.
End reaper.

Lemma conclusive_spec searched seasons :
  conclusive searched seasons = true ↔ seasons ≠ [] ∧ ∀ s, s ∈ seasons → searched !! s = Some (mkSearch true true).
Proof.
  unfold conclusive. rewrite andb_true_iff, negb_true_iff, bool_decide_eq_false, forallb_forall. apply and_iff_compat_l.
  split; intros H s Hs; specialize (H s); rewrite <-list_elem_of_In in *.
  - specialize (H Hs). destruct (searched !! s) as [[c r]|]; cbn in H; [|done]. apply andb_true_iff in H as [-> ->]. done.
  - by rewrite (H Hs).
Qed.

(** C10: The reaper removes a dead release only as far as it was searched for.  Unless every
    season of the pack was searched to the end with something found, nothing changes.
    Otherwise exactly the episodes of the pack in its seasons that still stand for its
    torrent lose their entry, stub and row, and each leaves a gap that names its season,
    stub and release; every other entry, row, gap and file is as it was; and the torrent
    goes only when no audio and no episode of the pack needs it any more. *)
Theorem reaper_removes_only_dead fl now pack searched w : let w' := dropReplacedPack fl now pack searched w in
  let found_all := dp_seasons pack ≠ [] ∧ ∀ s, s ∈ dp_seasons pack → searched !! s = Some (mkSearch true true) in
  (¬ found_all → w' = w) ∧
  (found_all → reaped fl pack w w' (doomed pack (dp_episodes pack) w) ∧ engine (tv_lib w') ⊆ engine (tv_lib w) ∧
    ∀ h, h ∈ engine (tv_lib w) → h ∉ engine (tv_lib w') → h = ToLower (dp_hash pack) ∧ audio_uses (tf fl) (dp_hash pack) = Some false ∧
      ∀ e cur, e ∈ dp_episodes pack → tv_registry w' !! ee_key e = Some cur → EqualFold (te_hash cur) (dp_hash pack) = false).
Proof.
  cbv zeta. rewrite <-conclusive_spec. unfold dropReplacedPack. destruct (conclusive searched (dp_seasons pack)); cbn [negb]; [split; [by intros []|intros _]|by split].
  pose proof (reap_fold fl now pack (dp_episodes pack) w 0 0) as H. destruct (foldl _ _ _) as [[w1 r] n]. destruct H as (H & He & ->). cbv zeta.
  set (w2 := if (0 <? r) && _ then _ else w1).
  assert (Hw2 : tv_registry w2 = tv_registry w1 ∧ gap_rows w2 = gap_rows w1 ∧ ∃ en, tv_lib w2 = on_engine en (tv_lib w1) ∧ en ⊆ engine (tv_lib w1) ∧
    (∀ h, h ∈ engine (tv_lib w1) → h ∉ en → h = ToLower (dp_hash pack) ∧ audio_uses (tf fl) (dp_hash pack) = Some false ∧
       len (filter (λ e, seasonFromEpisodeKey (ee_key e) ∉ dp_seasons pack) (dp_episodes pack)) = 0)).
  { assert (Hsame : ∀ P : string → Prop, ∃ en, tv_lib w1 = on_engine en (tv_lib w1) ∧ en ⊆ engine (tv_lib w1) ∧ (∀ h, h ∈ engine (tv_lib w1) → h ∉ en → P h)).
    { intros P. exists (engine (tv_lib w1)). split_and!; [by destruct (tv_lib w1)|done|done]. }
    unfold w2. destruct (0 <? r); cbn [andb]; [|split_and!; [done|done|]; apply Hsame].
    destruct (Z.eqb_spec (0 + len (filter (λ e, seasonFromEpisodeKey (ee_key e) ∉ dp_seasons pack) (dp_episodes pack))) 0) as [E|_];
      [|split_and!; [done|done|]; apply Hsame].
    split_and!; [done|done|]. cbn [tv_lib on_lib]. unfold dropTorrentGuarded, MayDropTorrent.
    destruct (String.eqb (dp_hash pack) ""); [apply Hsame|].
    destruct (audio_uses (tf fl) (dp_hash pack)) as [[|]|] eqn:Ea; cbn; try (apply Hsame).
    destruct (drop_ok _ _); [|apply Hsame].
    exists (engine (tv_lib w1) ∖ {[ ToLower (dp_hash pack) ]}). split_and!; [done|set_solver|]. intros h H1 H2. split_and!; [|done|lia].
    destruct (decide (h = ToLower (dp_hash pack))) as [|Hne]; [done|]. destruct H2. by apply elem_of_difference, conj; [|apply not_elem_of_singleton]. }
  destruct Hw2 as (E1 & E2 & en & E3 & Hsub & Hen).
  assert (Hc : ∀ w0, tv_lib (ClearMetadataFailure fl (dp_hash pack) w0) = tv_lib w0 ∧ tv_registry (ClearMetadataFailure fl (dp_hash pack) w0) = tv_registry w0 ∧
    gap_rows (ClearMetadataFailure fl (dp_hash pack) w0) = gap_rows w0) by (intros w0; unfold ClearMetadataFailure; destruct (has_db fl && clear_ok fl (dp_hash pack)); split_and!; reflexivity).
  destruct (Hc w2) as (C1 & C2 & C3). split_and!.
  - destruct H as [A1 A2 A3 A4 A5 A6 A7 A8]. split; rewrite ?C1, ?C2, ?C3, ?E1, ?E2, ?E3; cbn [disk episodes open_gaps on_engine]; done.
  - rewrite C1, E3. cbn. by rewrite <-He.
  - intros h Hh Hh2. rewrite C1, E3 in Hh2. cbn in Hh2. rewrite <-He in Hh. destruct (Hen h Hh Hh2) as (-> & Ha & Hz). split_and!; [done|done|].
    intros e cur Hin Hcur. rewrite C2, E1 in Hcur. destruct (EqualFold (te_hash cur) (dp_hash pack)) eqn:Ef; [|done]. exfalso.
    assert (Hse : seasonFromEpisodeKey (ee_key e) ∈ dp_seasons pack).
    { destruct (decide (seasonFromEpisodeKey (ee_key e) ∈ dp_seasons pack)) as [|Hs]; [done|]. exfalso.
      assert (e ∈ filter (λ e, seasonFromEpisodeKey (ee_key e) ∉ dp_seasons pack) (dp_episodes pack)) as Hf by (by apply list_elem_of_filter).
      destruct (filter _ (dp_episodes pack)); [by apply elem_of_nil in Hf|]. unfold len in Hz. simpl in Hz. lia. }
    destruct (tv_registry w !! ee_key e) as [c|] eqn:Ew.
    + destruct (EqualFold (te_hash c) (dp_hash pack)) eqn:Ec.
      * rewrite (rp_entry _ _ _ _ _ H (ee_key e) c) in Hcur; [done|]. split_and!; try done. by apply list_elem_of_fmap_2.
      * rewrite (proj1 (rp_other _ _ _ _ _ H (ee_key e) ltac:(intros ? (A & B & _); congruence))) in Hcur. congruence.
    + rewrite (proj1 (rp_other _ _ _ _ _ H (ee_key e) ltac:(intros ? (A & B & _); congruence))) in Hcur. congruence.
Qed.

(** ** The passes keep what is registered *)

(** Every row has its entry, with the same stub, and the stub is there. *)
Definition consistent (w : tv_world) : Prop := ∀ k row, episodes (tv_lib w) !! k = Some row →
  ∃ e, tv_registry w !! k = Some e ∧ te_path e = FilePath row ∧ is_Some (disk (tv_lib w) !! FilePath row).

Lemma populate_keeps listed mtime l reg k e : reg !! k = Some e → foldl (populate_one listed mtime) reg l !! k = Some e.
Proof.
  revert reg. induction l as [|f l IH]; intros reg Hk; [done|]. cbn [foldl]. apply IH. unfold populate_one.
  destruct (negb (is_mkv f.1) || registryByPath f.1 reg); [done|]. destruct (tv_file_name _) as [[[[show season] episode] hash8]|]; [|done].
  destruct (reg !! runes_key show season episode) eqn:E; [done|]. rewrite lookup_insert_ne; [done|]. intros <-. congruence.
Qed.

Lemma start_keeps cfg fl listed mtime w : consistent w →
  let w' := sync_start cfg fl listed mtime w in tv_lib w' = tv_lib w ∧ consistent w'.
Proof.
  intros Hc. unfold sync_start, reconcileRegistry. set (w1 := populateRegistryFromExisting cfg listed mtime w).
  change (tv_lib w1) with (tv_lib w). cbn [tv_lib on_registry on_lib].
  assert (Hlive : ∀ k row, episodes (tv_lib w) !! k = Some row → ∃ e, tv_registry w1 !! k = Some e ∧ te_path e = FilePath row ∧
    is_Some (disk (tv_lib w) !! FilePath row) ∧ ghost (disk (tv_lib w)) e = false).
  { intros k row Hk. destruct (Hc k row Hk) as (e & H1 & H2 & H3). exists e. split_and!; [by apply populate_keeps|done|done|].
    unfold ghost. rewrite H2, bool_decide_eq_true_2 by done. done. }
  assert (Hrows : filter (λ kr, ¬ (has_db fl = true ∧ ghost_key w1 kr.1 = true ∧ delete_ok (tf fl) kr.1 = true)) (episodes (tv_lib w)) = episodes (tv_lib w)).
  { apply map_filter_id. intros k row Hk (_ & Hg & _). destruct (Hlive k row Hk) as (e & E & _ & _ & G). unfold ghost_key in Hg. cbn [fst] in Hg. rewrite E in Hg.
    change (tv_lib w1) with (tv_lib w) in Hg. congruence. }
  rewrite Hrows. assert (El : on_rows (episodes (tv_lib w)) (tv_lib w) = tv_lib w) by (by destruct (tv_lib w)). rewrite El. split; [done|].
  intros k row Hk. destruct (Hlive k row Hk) as (e & E & E2 & E3 & G). exists e. split_and!; [|done|done]. cbn [tv_registry on_registry].
  by apply map_lookup_filter_Some.
Qed.

Definition named_only (l l' : video_lib) (P : string → Prop) : Prop :=
  engine l' ⊆ engine l ∧ ∀ h, h ∈ engine l → h ∉ engine l' → P h.

Lemma named_trans l l1 l2 P : named_only l l1 P → named_only l1 l2 P → named_only l l2 P.
Proof.
  intros [A1 A2] [B1 B2]. split; [set_solver|]. intros h H1 H2. destruct (decide (h ∈ engine l1)) as [H|H]; [by apply B2|by apply A2].
Qed.
Lemma named_refl l P : named_only l l P.
Proof. split; [done|]. done. Qed.

Lemma guarded_effect fl h l : disk (dropTorrentGuarded fl h l) = disk l ∧ episodes (dropTorrentGuarded fl h l) = episodes l ∧
  named_only l (dropTorrentGuarded fl h l) (λ x, x = ToLower h).
Proof.
  unfold dropTorrentGuarded. destruct (MayDropTorrent fl h) as [[|]|]; [|split_and!; [done|done|apply named_refl]..].
  destruct (drop_ok fl h); [|split_and!; [done|done|apply named_refl]]. split_and!; [done|done|]. split; [cbn; set_solver|].
  intros x H1 H2. destruct (decide (x = ToLower h)) as [|Hn]; [done|]. destruct H2. cbn. by apply elem_of_difference, conj; [|apply not_elem_of_singleton].
Qed.

Lemma removeStub_effect fl p h w : let w' := removeStub fl p h w in
  tv_registry w' = tv_registry w ∧ episodes (tv_lib w') = episodes (tv_lib w) ∧
  (∀ q, disk (tv_lib w') !! q = if decide (p = q ∧ remove_ok (tf fl) p = true) then None else disk (tv_lib w) !! q) ∧
  named_only (tv_lib w) (tv_lib w') (λ x, x = ToLower h).
Proof.
  unfold removeStub, removeStubFile. set (w1 := if String.eqb h "" then w else _).
  assert (Hw1 : tv_registry w1 = tv_registry w ∧ disk (tv_lib w1) = disk (tv_lib w) ∧ episodes (tv_lib w1) = episodes (tv_lib w) ∧
    named_only (tv_lib w) (tv_lib w1) (λ x, x = ToLower h)).
  { unfold w1. destruct (String.eqb h ""); [split_and!; [done..|apply named_refl]|]. destruct (guarded_effect (tf fl) h (tv_lib w)) as (A & B & C).
    unfold ClearMetadataFailure. by destruct (has_db fl && clear_ok fl h). }
  destruct Hw1 as (E1 & E2 & E3 & E4). cbn [tv_registry tv_lib on_lib]. unfold deleteStub. destruct (remove_ok (tf fl) p) eqn:Er; cbn [fst].
  - split_and!; [done|done| |done]. intros q. cbn [disk on_disk]. rewrite E2. case_decide as Hq; [destruct Hq as [<- _]; apply lookup_delete_eq|].
    apply lookup_delete_ne. intros <-. by apply Hq.
  - split_and!; [done|done| |done]. intros q. rewrite E2, decide_False; [done|]. by intros [_ ?].
Qed.

Lemma cleanup_fold fl R L w : let w' := foldl (cleanup_one fl R) w L in
  tv_registry w' = tv_registry w ∧ episodes (tv_lib w') = episodes (tv_lib w) ∧
  (∀ q, disk (tv_lib w') !! q = None ∨ disk (tv_lib w') !! q = disk (tv_lib w) !! q) ∧
  (∀ q, q ∈ R → disk (tv_lib w') !! q = disk (tv_lib w) !! q) ∧
  (∀ q, q ∈ L.*1 → q ∉ R → is_mkv q = true → remove_ok (tf fl) q = true → disk (tv_lib w') !! q = None) ∧
  named_only (tv_lib w) (tv_lib w') (λ x, ∃ f, f ∈ L ∧ (f.1 ∉ R) ∧ x = ToLower (readHashFromMKV f.2)).
Proof.
  revert w. induction L as [|f L IH]; intros w; cbn [foldl].
  { split_and!; [done|done|by right|done| |apply named_refl]. intros q Hq. by apply elem_of_nil in Hq. }
  set (w1 := cleanup_one fl R w f).
  assert (Hw1 : tv_registry w1 = tv_registry w ∧ episodes (tv_lib w1) = episodes (tv_lib w) ∧
    (∀ q, disk (tv_lib w1) !! q = if decide (f.1 = q ∧ (f.1 ∉ R) ∧ is_mkv q = true ∧ remove_ok (tf fl) q = true) then None else disk (tv_lib w) !! q) ∧
    named_only (tv_lib w) (tv_lib w1) (λ x, (f.1 ∉ R) ∧ x = ToLower (readHashFromMKV f.2))).
  { unfold w1, cleanup_one. destruct (is_mkv f.1) eqn:Em; cbn [negb orb].
    2: { split_and!; [done|done| |apply named_refl]. intros q. rewrite decide_False; [done|]. intros (<- & _ & ? & _). congruence. }
    case_bool_decide as HR; cbn [negb].
    { split_and!; [done|done| |apply named_refl]. intros q. rewrite decide_False; [done|]. tauto. }
    destruct (removeStub_effect fl f.1 (readHashFromMKV f.2) w) as (A & B & C & D1 & D2). split_and!; [done|done| |split; [done|]; intros; split; [done|]; by apply D2].
    intros q. rewrite C. destruct (decide (f.1 = q ∧ remove_ok (tf fl) f.1 = true)) as [[<- Hr]|Hq]; [by rewrite decide_True|].
    rewrite decide_False; [done|]. intros (<- & _ & _ & Hr). by apply Hq. }
  destruct Hw1 as (A1 & A2 & A3 & A4). destruct (IH w1) as (B1 & B2 & B3 & B4 & B5 & B6). rewrite B1, B2, A1, A2. split_and!; try done.
  - intros q. destruct (B3 q) as [->|E]; [by left|]. rewrite E, (A3 q). destruct (decide (f.1 = q ∧ (f.1 ∉ R) ∧ is_mkv q = true ∧ remove_ok (tf fl) q = true)); [by left|by right].
  - intros q Hq. rewrite B4, A3 by done. rewrite decide_False; [done|]. intros (-> & ? & _). done.
  - intros q Hq HR Hm Hr. rewrite fmap_cons, elem_of_cons in Hq. destruct Hq as [->|Hq]; [|by apply B5].
    destruct (B3 f.1) as [->|E]; [done|]. rewrite E, A3. by rewrite decide_True.
  - eapply named_trans.
    + destruct A4 as [A4 A5]. split; [exact A4|]. intros h H1 H2. destruct (A5 h H1 H2) as [HR ->]. exists f. split_and!; [apply list_elem_of_here|done|done].
    + destruct B6 as [B6 B7]. split; [exact B6|]. intros h H1 H2. destruct (B7 h H1 H2) as (g & Hg & ? & ->). exists g. split_and!; [by apply list_elem_of_further|done|done].
Qed.

Lemma torrents_effect cfg fl listed w : let w' := cleanupOrphanedTorrents cfg fl listed w in
  tv_registry w' = tv_registry w ∧ episodes (tv_lib w') = episodes (tv_lib w) ∧ disk (tv_lib w') = disk (tv_lib w) ∧
  named_only (tv_lib w) (tv_lib w') (λ x, ∃ l t, listed = Some l ∧ t ∈ l ∧ reTVSeries t.2 = true ∧ x = ToLower (hash_text (lower_runes t.1)) ∧
    ∀ k e, tv_registry w !! k = Some e → ToLower (te_hash e) ≠ hash_text (lower_runes t.1)).
Proof.
  unfold cleanupOrphanedTorrents. destruct listed as [l|]; [|split_and!; [done..|apply named_refl]].
  set (RH := ToLower <$> (te_hash <$> (map_to_list (tv_registry w)).*2)). set (DH := filter _ _).
  assert (HRH : ∀ k e, tv_registry w !! k = Some e → ToLower (te_hash e) ∈ RH).
  { intros k e Hk. apply list_elem_of_fmap_2, list_elem_of_fmap_2. apply elem_of_map_to_list in Hk. by apply (list_elem_of_fmap_2 snd _ (k, e)). }
  assert (H : ∀ ts v, ts ⊆ l → let v' := foldl (orphan_torrent (tf fl) RH DH) v ts in
    episodes v' = episodes v ∧ disk v' = disk v ∧
    named_only v v' (λ x, ∃ l0 t, Some l = Some l0 ∧ t ∈ l0 ∧ reTVSeries t.2 = true ∧ x = ToLower (hash_text (lower_runes t.1)) ∧
      ∀ k e, tv_registry w !! k = Some e → ToLower (te_hash e) ≠ hash_text (lower_runes t.1))).
  { induction ts as [|t ts IH]; intros v Hl; [split_and!; [done|done|apply named_refl]|]. cbn [foldl].
    assert (Ht : t ∈ l ∧ ts ⊆ l) by (split; [apply Hl, list_elem_of_here|intros x Hx; by apply Hl, list_elem_of_further]). destruct Ht as [Ht Hts].
    set (v1 := orphan_torrent (tf fl) RH DH v t). destruct (IH v1 Hts) as (B1 & B2 & B3).
    assert (Hv : episodes v1 = episodes v ∧ disk v1 = disk v ∧ named_only v v1 (λ x, x = ToLower (hash_text (lower_runes t.1)) ∧ reTVSeries t.2 = true ∧ hash_text (lower_runes t.1) ∉ RH)).
    { unfold v1, orphan_torrent. destruct (String.eqb _ ""); [split_and!; [done|done|apply named_refl]|]. destruct (reTVSeries t.2); [|split_and!; [done|done|apply named_refl]].
      cbn [negb orb]. case_bool_decide as HR; [split_and!; [done|done|apply named_refl]|]. cbn [orb]. destruct (bool_decide _); [split_and!; [done|done|apply named_refl]|].
      destruct (guarded_effect (tf fl) (hash_text (lower_runes t.1)) v) as (C1 & C2 & C3 & C4). split_and!; [done|done|]. split; [done|]. intros h H1 H2. split_and!; [by apply C4|done|done]. }
    destruct Hv as (A1 & A2 & A3). split_and!; [by rewrite B1|by rewrite B2|]. eapply named_trans; [|exact B3]. destruct A3 as [A3 A4]. split; [done|].
    intros h H1 H2. destruct (A4 h H1 H2) as (-> & Hs & HR). exists l, t. split_and!; try done. intros k e Hk Hx. apply HR. rewrite <-Hx. by eapply HRH. }
  destruct (H l (tv_lib w) ltac:(done)) as (H1 & H2 & H3). split_and!; [done|exact H1|exact H2|exact H3].
Qed.

Lemma registry_path w k e : tv_registry w !! k = Some e → te_path e ∈ te_path <$> (map_to_list (tv_registry w)).*2.
Proof. intros Hk. apply elem_of_map_to_list in Hk. apply list_elem_of_fmap_2. by apply (list_elem_of_fmap_2 snd _ (k, e)). Qed.

(** C9: What is registered survives a run.  When every row of the table has its entry in
    the memory of the engine, with the same stub, and the stub is there, the passes at the
    start of a run change neither table nor disk, and those at its end keep every row and
    its stub.  Both leave the same agreement behind.  At the end no other stub the engine
    could delete is left below the directory, and a torrent is dropped only because a stub
    that was not registered names it, or because no entry names it and its title reads as a
    series. *)
Theorem registered_survives cfg fl listed mtime w : consistent w → TVDir cfg ≠ "" →
  (tv_lib (sync_start cfg fl listed mtime w) = tv_lib w ∧ consistent (sync_start cfg fl listed mtime w)) ∧
  let w' := sync_end cfg fl listed w in
  consistent w' ∧ episodes (tv_lib w') = episodes (tv_lib w) ∧
  (∀ k e, tv_registry w !! k = Some e → disk (tv_lib w') !! te_path e = disk (tv_lib w) !! te_path e) ∧
  (∀ p, is_Some (disk (tv_lib w') !! p) → path_prefix (TVDir cfg) p = true → is_mkv p = true → remove_ok (tf fl) p = true →
     ∃ k e, tv_registry w !! k = Some e ∧ te_path e = p) ∧
  (∀ h, h ∈ engine (tv_lib w) → h ∉ engine (tv_lib w') →
     (∃ p d, disk (tv_lib w) !! p = Some d ∧ path_prefix (TVDir cfg) p = true ∧ h = ToLower (readHashFromMKV d) ∧
        ∀ k e, tv_registry w !! k = Some e → te_path e ≠ p) ∨
     (∃ l t, listed = Some l ∧ t ∈ l ∧ reTVSeries t.2 = true ∧ h = ToLower (hash_text (lower_runes t.1)) ∧
        ∀ k e, tv_registry w !! k = Some e → ToLower (te_hash e) ≠ hash_text (lower_runes t.1))).
Proof.
  intros Hc Hdir. split; [by apply start_keeps|]. cbv zeta. unfold sync_end. set (w1 := cleanupOrphanedFiles cfg fl w).
  pose proof (cleanup_fold fl (te_path <$> (map_to_list (tv_registry w)).*2) (walk (TVDir cfg) (disk (tv_lib w))) w) as H.
  change (foldl _ _ _) with w1 in H. destruct H as (A1 & A2 & A3 & A4 & A5 & [A6 A7]).
  destruct (torrents_effect cfg fl listed w1) as (B1 & B2 & B3 & [B4 B5]). set (w2 := cleanupOrphanedTorrents cfg fl listed w1) in *.
  assert (Hkeep : ∀ k e, tv_registry w !! k = Some e → disk (tv_lib w2) !! te_path e = disk (tv_lib w) !! te_path e).
  { intros k e Hk. rewrite B3. apply A4. by eapply registry_path. }
  split_and!; [| |done| |].
  - intros k row Hk. rewrite B2, A2 in Hk. destruct (Hc k row Hk) as (e & E1 & E2 & E3). exists e. rewrite B1, A1. split_and!; [done|done|].
    rewrite <-E2, (Hkeep k e E1), E2. done.
  - by rewrite B2, A2.
  - intros p [d Hp] Hpre Hm Hr. rewrite B3 in Hp.
    destruct (decide (p ∈ te_path <$> (map_to_list (tv_registry w)).*2)) as [HR|HR].
    + apply list_elem_of_fmap in HR as (e & -> & ([k e'] & -> & Hk)%list_elem_of_fmap). apply elem_of_map_to_list in Hk. by exists k, e'.
    + exfalso. rewrite A5 in Hp; [done| |done|done|done]. destruct (A3 p) as [E|E]; [congruence|]. rewrite E in Hp.
      apply list_elem_of_fmap. exists (p, d). split; [done|]. by apply walk_elem.
  - intros h H1 H2. destruct (decide (h ∈ engine (tv_lib w1))) as [H3|H3].
    + right. destruct (B5 h H3 H2) as (l & t & E1 & E2 & E3 & E4 & E5). exists l, t. rewrite A1 in E5. done.
    + left. destruct (A7 h H1 H3) as ([p d] & E1 & E2 & E3). apply walk_elem in E1 as [E1 E4]; [|done]. exists p, d. split_and!; [done|done|done|].
      intros k e Hk <-. apply E2. by eapply registry_path.
Qed.

(** ** Samples *)

Definition no_tv_faults : tv_faults := mkTvFaults no_faults true true true (λ _, true) (λ _, true) (λ _, true).
Definition pack_lib : video_lib := (Add sample_cfg no_faults (says hash_a pack_files) 5 (pack_req "Show" hash_a) empty_lib).1.
(** The engine is made when the library holds the pack. *)
Definition made (l : video_lib) : tv_world := mkTv l (loadRegistry no_tv_faults ∅ l) ∅ ∅ ∅ ∅.
Definition whole_run (listed : option (list (string * string))) (w : tv_world) : tv_world :=
  sync_end sample_cfg no_tv_faults listed (sync_start sample_cfg no_tv_faults listed (λ _, 0) w).
Definition first_path (hash : string) : string := episode_path "/m/tv" "Show" "2013-04-07" 1 1 hash.

Definition row_there (w : tv_world) (k : string) (row : EpisodeEntry) : bool :=
  match tv_registry w !! k with
  | Some e => String.eqb (te_path e) (FilePath row) && bool_decide (is_Some (disk (tv_lib w) !! FilePath row))
  | None => false
  end.
Lemma consistent_check w : bool_decide (map_Forall (λ k row, row_there w k row = true) (episodes (tv_lib w))) = true → consistent w.
Proof.
  intros H%bool_decide_eq_true k row Hk. specialize (H k row Hk). unfold row_there in H. destruct (tv_registry w !! k) as [e|]; [|done].
  apply andb_true_iff in H as [H1 H2%bool_decide_eq_true]. exists e. split_and!; [done|by apply String.eqb_eq|done].
Qed.
Lemma pack_consistent : consistent (made pack_lib).
Proof. apply consistent_check. vm_compute. reflexivity. Qed.

Lemma registered_survives_witness :
  disk (tv_lib (sync_end sample_cfg no_tv_faults None (made pack_lib))) !! first_path hash_a = disk pack_lib !! first_path hash_a ∧ is_Some (disk pack_lib !! first_path hash_a).
Proof.
  split; [|vm_compute; by eexists].
  destruct (registered_survives sample_cfg no_tv_faults None (λ _, 0) (made pack_lib) pack_consistent) as (_ & _ & _ & H & _); [by vm_compute|].
  assert (E : tv_registry (made pack_lib) !! "show_s01e01" = Some (mkTvEntry 7 hash_a (first_path hash_a) "api" 5)) by (vm_compute; reflexivity).
  apply (H _ _ E).
Defined.

(** A pack that failed for two days is flagged; searched to the end it goes, with a gap for
    each episode, and without an answer it stays. *)
Definition failing : tv_world :=
  RecordMetadataFailure 200000 hash_a (RecordMetadataFailure 100000 hash_a (RecordMetadataFailure 20000 hash_a (made pack_lib))).
Example dead_pack_reaped :
  let '(w, packs) := flagDeadPacks no_tv_faults failing in
  let turn seen := λ p, (p, mkTurn false (λ w, (w, true)) (λ w, (w, {[ 1 := mkSearch true seen ]}))) in
  let w1 := reapDeadPacks no_tv_faults 200000 (turn true <$> packs) w in
  let w0 := reapDeadPacks no_tv_faults 200000 (turn false <$> packs) w in
  dp_seasons <$> packs = [[1]] ∧ bool_decide (disk (tv_lib w1) = ∅) = true ∧ bool_decide (open_gaps (tv_lib w1) = {[ "show_s01e01"; "show_s01e02" ]}) = true ∧
  bool_decide (hash_a ∉ engine (tv_lib w1)) = true ∧ bool_decide (size (failures w1) = 0%nat) = true ∧
  bool_decide (disk (tv_lib w0) = disk pack_lib) = true ∧ bool_decide (size (tv_registry w0) = 2%nat) = true.
Proof. vm_compute. repeat split. Qed.

(** ** What the code does not mean to do *)

(** The registry of the engine is read once.  When the library API replaces the release of
    an episode, the next run takes the entry it remembers for a ghost, deletes the row of
    the new release with it, and then the new stub and its torrent as orphans. *)
Lemma replaced_release_removed :
  let l := (Add sample_cfg no_faults (says hash_b pack_files) 6 (pack_req "Show" hash_b) pack_lib).1 in
  let w := whole_run (Some [(hash_b, "Show")]) (on_lib l (made pack_lib)) in
  (bool_decide (is_Some (disk l !! first_path hash_b)) && bool_decide (is_Some (episodes l !! "show_s01e01")) && bool_decide (hash_b ∈ engine l) = true) ∧
  (bool_decide (disk (tv_lib w) !! first_path hash_b = None) && bool_decide (episodes (tv_lib w) !! "show_s01e01" = None) && bool_decide (hash_b ∉ engine (tv_lib w)) = true).
Proof. vm_compute. split; reflexivity. Qed.

(** A film whose title has the word episode, or season, reads as a series: every run of the
    TV sync takes its torrent, since no entry and no stub of a show names it. *)
Definition star_req : AddRequest :=
  mkAddRequest "movie" hash_b "" "Star Wars: Episode IV" "" "1977-05-25" 0 "" None 0 0 "" 0 0 None all_files.
Lemma film_loses_torrent :
  let l := (Add sample_cfg no_faults (says hash_b movie_files) 6 star_req pack_lib).1 in
  let w := whole_run (Some [(hash_a, "Show"); (hash_b, "Star Wars: Episode IV")]) (on_lib l (made pack_lib)) in
  (bool_decide (disk l = disk (tv_lib w)) && bool_decide (hash_b ∈ engine l) && bool_decide (hash_b ∉ engine (tv_lib w)) && bool_decide (hash_a ∈ engine (tv_lib w)) = true) ∧
  bool_decide (is_Some (disk l !! "/m/movies/Star_Wars_Episode_IV_1977_1080p_89abcdef.mkv")) = true.
Proof. vm_compute. split; reflexivity. Qed.

(** A stub nobody registered takes the torrent of the registered ones with it. *)
Lemma orphan_takes_torrent :
  let copy := "/m/tv/Show (2013)/Season.01/copy.mkv" in
  let l := match disk pack_lib !! first_path hash_a with Some d => on_disk (<[copy := d]> (disk pack_lib)) pack_lib | None => pack_lib end in
  let w := whole_run None (on_lib l (made pack_lib)) in
  bool_decide (is_Some (disk (tv_lib w) !! first_path hash_a)) && bool_decide (hash_a ∈ engine l) && bool_decide (hash_a ∉ engine (tv_lib w)) = true.
Proof. vm_compute. reflexivity. Qed.
