(* ===== verification/Refresh.v ===== *)
(** * Refreshing the media server (internal/library/refresh.go)

    A stub is invisible to the media server until it rescans the section, and a burst of
    adds must not make it rescan once per title.  [scheduleRefresh] therefore keeps, per
    section, whether a scan is coming ([refreshPending]) and whether a request came while
    one was ([refreshDirty]); the goroutine it starts waits, scans and, if the section is
    dirty when the scan is over, schedules another.

    A step is a section under the manager's mutex, or the call of the media server, of one
    goroutine; requests and goroutines interleave freely.  The delay and the timeout of the
    call are not measured: a goroutine may stay in a phase for as long as it likes.  A scan
    that the media server refuses is logged and counts as one that was asked for. *)

From stdpp Require Import gmap list relations.
From S2P Require Import Prelude.
Local Open Scope Z_scope.

(** ** The state *)

Record refresher := mkRefresher { refreshPending : gset Z; refreshDirty : gset Z }.
(** Where a goroutine is: in its sleep, about to call the media server, inside the call,
    past it with a section that was dirty. *)
Inductive refresh_phase := Sleeping | Calling | Scanning | Again.
#[export] Instance refresh_phase_eq_dec : EqDecision refresh_phase.
Proof. solve_decision. Defined.
Local Notation "'worker'" := (prod Z refresh_phase) (only parsing).
Inductive refresh_event := Asked (section : Z) | Scanned (section : Z).
#[export] Instance refresh_event_eq_dec : EqDecision refresh_event.
Proof. solve_decision. Defined.
Record refresh_world := mkRefreshing { rstate : refresher; workers : list worker; events : list refresh_event }.
Definition refresh_start : refresh_world := mkRefreshing (mkRefresher ∅ ∅) [] [].

(** ** The operations *)

(** [scheduleRefresh] up to its [go]: the goroutine it starts, if any. *)
Definition scheduleRefresh (server : bool) (section : Z) (st : refresher) : refresher * list worker :=
  if negb server then (st, [])
  else if decide (section ∈ refreshPending st)
       then (mkRefresher (refreshPending st) ({[ section ]} ∪ refreshDirty st), [])
       else (mkRefresher ({[ section ]} ∪ refreshPending st) (refreshDirty st), [(section, Sleeping)]).
(** The goroutine after its sleep. *)
Definition refresh_woken (section : Z) (st : refresher) : refresher :=
  mkRefresher (refreshPending st) (refreshDirty st ∖ {[ section ]}).
(** The goroutine after the scan, and whether it has to schedule another. *)
Definition refresh_scanned (section : Z) (st : refresher) : refresher * bool :=
  (mkRefresher (refreshPending st ∖ {[ section ]}) (refreshDirty st ∖ {[ section ]}), bool_decide (section ∈ refreshDirty st)).

(** What a goroutine does next. *)
Inductive worker_step (server : bool) : refresh_world → refresh_world → Prop :=
  | W_wake s st (a b : list worker) ev :
      worker_step server (mkRefreshing st (a ++ (s, Sleeping) :: b) ev) (mkRefreshing (refresh_woken s st) (a ++ (s, Calling) :: b) ev)
  | W_call s st (a b : list worker) ev :
      worker_step server (mkRefreshing st (a ++ (s, Calling) :: b) ev) (mkRefreshing st (a ++ (s, Scanning) :: b) (ev ++ [Scanned s]))
  | W_end s st (a b : list worker) ev :
      worker_step server (mkRefreshing st (a ++ (s, Scanning) :: b) ev)
        (mkRefreshing (refresh_scanned s st).1 (a ++ (if (refresh_scanned s st).2 then [(s, Again)] else []) ++ b) ev)
  | W_again s st (a b : list worker) ev :
      worker_step server (mkRefreshing st (a ++ (s, Again) :: b) ev)
        (mkRefreshing (scheduleRefresh server s st).1 (a ++ (scheduleRefresh server s st).2 ++ b) ev).
(** A request for a section, from an add or a remove. *)
Inductive refresh_step (server : bool) : refresh_world → refresh_world → Prop :=
  | R_ask s st ws ev :
      refresh_step server (mkRefreshing st ws ev)
        (mkRefreshing (scheduleRefresh server s st).1 (ws ++ (scheduleRefresh server s st).2) (ev ++ [Asked s]))
  | R_worker w w' : worker_step server w w' → refresh_step server w w'.

(** ** What is promised *)

(** Whether the section was asked for after its last scan. *)
Definition note_event (s : Z) (u : bool) (e : refresh_event) : bool :=
  match e with Asked s' => if decide (s' = s) then true else u | Scanned s' => if decide (s' = s) then false else u end.
Definition unseen (s : Z) (ev : list refresh_event) : bool := fold_left (note_event s) ev false.
Definition asked (s : Z) (e : refresh_event) : nat := match e with Asked s' => if decide (s' = s) then 1 else 0 | Scanned _ => 0 end.
Definition scanned (s : Z) (e : refresh_event) : nat := match e with Asked _ => 0 | Scanned s' => if decide (s' = s) then 1 else 0 end.
Definition total {A} (f : A → nat) (l : list A) : nat := sum_list_with f l.
#[local] Arguments total : simpl never.

(** The goroutines that hold [refreshPending], and those that owe a scan. *)
Definition holds (s : Z) (x : worker) : nat := if decide (x.1 = s ∧ x.2 ≠ Again) then 1 else 0.
Definition owing (s : Z) (x : worker) : nat := if decide (x.1 = s ∧ x.2 ≠ Scanning) then 1 else 0.
Definition marked (s : Z) (l : gset Z) : nat := if decide (s ∈ l) then 1 else 0.

Record refresh_inv (w : refresh_world) : Prop := {
  ri_one : ∀ s, total (holds s) (workers w) = marked s (refreshPending (rstate w));
  ri_seen : ∀ s, unseen s (events w) = true →
    (total (owing s) (workers w) > 0 ∨ marked s (refreshDirty (rstate w)) > 0 ∧ marked s (refreshPending (rstate w)) > 0)%nat;
  ri_count : ∀ s, (total (scanned s) (events w) + total (owing s) (workers w) + marked s (refreshDirty (rstate w)) ≤ total (asked s) (events w))%nat
}.

Lemma total_app {A} (f : A → nat) l1 l2 : total f (l1 ++ l2) = (total f l1 + total f l2)%nat.
Proof. apply sum_list_with_app. Qed.
Lemma total_cons {A} (f : A → nat) x l : total f (x :: l) = (f x + total f l)%nat.
Proof. done. Qed.
Lemma total_nil {A} (f : A → nat) : total f [] = 0%nat.
Proof. done. Qed.
Lemma unseen_snoc s ev e : unseen s (ev ++ [e]) = note_event s (unseen s ev) e.
Proof. unfold unseen. by rewrite fold_left_app. Qed.
Lemma marked_empty s : marked s ∅ = 0%nat.
Proof. unfold marked. by rewrite decide_False by set_solver. Qed.
Lemma marked_mark s x l : marked s ({[ x ]} ∪ l) = if decide (x = s) then 1%nat else marked s l.
Proof. unfold marked. repeat case_decide; set_solver. Qed.
Lemma marked_clear s x l : marked s (l ∖ {[ x ]}) = if decide (x = s) then 0%nat else marked s l.
Proof. unfold marked. repeat case_decide; set_solver. Qed.
Lemma marked_in s l : s ∈ l → marked s l = 1%nat.
Proof. intros. unfold marked. by rewrite decide_True. Qed.
Lemma marked_out s l : s ∉ l → marked s l = 0%nat.
Proof. intros. unfold marked. by rewrite decide_False. Qed.
Lemma holds_eq s x ph : holds s (x, ph) = if decide (x = s) then match ph with Again => 0 | _ => 1 end%nat else 0%nat.
Proof. unfold holds. cbn. repeat case_decide; destruct ph; naive_solver. Qed.
Lemma owing_eq s x ph : owing s (x, ph) = if decide (x = s) then match ph with Scanning => 0 | _ => 1 end%nat else 0%nat.
Proof. unfold owing. cbn. repeat case_decide; destruct ph; naive_solver. Qed.
Lemma schedule_eq s st : scheduleRefresh true s st =
  if decide (s ∈ refreshPending st) then (mkRefresher (refreshPending st) ({[ s ]} ∪ refreshDirty st), [])
  else (mkRefresher ({[ s ]} ∪ refreshPending st) (refreshDirty st), [(s, Sleeping)]).
Proof. done. Qed.

Create HintDb refreshing.
#[local] Hint Rewrite @total_app @total_cons @total_nil unseen_snoc marked_empty marked_mark marked_clear holds_eq owing_eq : refreshing.

(** A step touches one section, and what it does to the counts is arithmetic. *)
Ltac counts := autorewrite with refreshing; cbn [rstate workers events refreshPending refreshDirty refresh_woken refresh_scanned note_event asked scanned fst snd]; autorewrite with refreshing; cbn [note_event asked scanned].

Lemma schedule_inv st a b ev s e :
  (∀ x, total (holds x) (a ++ b) = marked x (refreshPending st)) →
  (∀ x, x ≠ s → unseen x ev = true → total (owing x) (a ++ b) > 0 ∨ marked x (refreshDirty st) > 0 ∧ marked x (refreshPending st) > 0)%nat →
  (∀ x, total (scanned x) ev + total (owing x) (a ++ b) + marked x (refreshDirty st) + (if decide (s = x) then 1 else 0) ≤ total (asked x) (ev ++ e))%nat →
  (∀ x, total (scanned x) e = 0%nat) → (∀ x, x ≠ s → unseen x (ev ++ e) = unseen x ev) →
  refresh_inv (mkRefreshing (scheduleRefresh true s st).1 (a ++ (scheduleRefresh true s st).2 ++ b) (ev ++ e)).
Proof.
  intros H1 H2 H3 H4 H5. rewrite schedule_eq.
  destruct (decide _) as [Hp|Hp]; (split; intros x; specialize (H1 x); specialize (H2 x); specialize (H3 x); specialize (H4 x); specialize (H5 x);
    autorewrite with refreshing in H1, H2, H3; counts; destruct (decide (s = x)) as [->|Hn]).
  all: try rewrite (marked_in x) in * by done; try rewrite (marked_out x (refreshPending st)) in * by done.
  all: try (intros Hu; rewrite H5 in Hu by done; specialize (H2 (not_eq_sym Hn) Hu)); lia.
Qed.

Lemma refresh_inv_start : refresh_inv refresh_start.
Proof. split; intros s; counts; done. Qed.

Lemma worker_inv w w' : refresh_inv w → worker_step true w w' → refresh_inv w'.
Proof.
  intros [H1 H2 H3] Hs. destruct Hs as [s st a b ev|s st a b ev|s st a b ev|s st a b ev];
    cbn [rstate workers events] in H1, H2, H3.
  - split; intros x; specialize (H1 x); specialize (H2 x); specialize (H3 x); autorewrite with refreshing in H1, H2, H3; counts;
      destruct (decide (s = x)) as [->|Hn]; lia || (intros Hu; specialize (H2 Hu); lia).
  - split; intros x; specialize (H1 x); specialize (H2 x); specialize (H3 x); autorewrite with refreshing in H1, H2, H3; counts;
      destruct (decide (s = x)) as [->|Hn]; lia || done || (intros Hu; specialize (H2 Hu); lia).
  - assert (Hd : (if (refresh_scanned s st).2 then [(s, Again)] else []) = if decide (s ∈ refreshDirty st) then [(s, Again)] else @nil worker).
    { cbn. case_bool_decide; by case_decide. }
    rewrite Hd. destruct (decide _) as [Hp|Hp]; (split; intros x; specialize (H1 x); specialize (H2 x); specialize (H3 x); autorewrite with refreshing in H1, H2, H3; counts;
      destruct (decide (s = x)) as [->|Hn]); try rewrite (marked_in x) in * by done; try rewrite (marked_out x (refreshDirty st)) in * by done.
    all: try (intros Hu; specialize (H2 Hu)); try lia.
    all: assert (marked x (refreshPending st) ≤ 1)%nat as Hm by (unfold marked; case_decide; lia); lia.
  - rewrite <-(app_nil_r ev). apply schedule_inv; intros x; specialize (H1 x); specialize (H2 x); specialize (H3 x);
      autorewrite with refreshing in H1, H2, H3; rewrite ?app_nil_r; counts; [| | |done|done]; destruct (decide (s = x)) as [->|Hn]; try lia; try done.
Qed.

Lemma refresh_inv_step w w' : refresh_inv w → refresh_step true w w' → refresh_inv w'.
Proof.
  intros Hi Hs. destruct Hs as [s st ws ev|w w' Hs]; [|by eapply worker_inv]. destruct Hi as [H1 H2 H3].
  pose proof (schedule_inv st ws [] ev s [Asked s]) as H. rewrite !app_nil_r in H. apply H; [| | | |]; clear H; intros x;
    rewrite ?app_nil_r; counts; try done.
  - intros _. apply H2.
  - specialize (H3 x). cbn [rstate workers events] in H3. destruct (decide (s = x)); lia.
  - intros Hn. by rewrite decide_False.
Qed.

Lemma refresh_reachable w : rtc (refresh_step true) refresh_start w → refresh_inv w.
Proof.
  intros H. assert (Hi := refresh_inv_start). revert Hi. induction H as [|a b c Hs _ IH]; [done|]. intros Hi. apply IH. by eapply refresh_inv_step.
Qed.

(** ** The goroutines come to rest *)

Definition phase_weight (x : worker) : nat := match x.2 with Sleeping => 4 | Calling => 3 | Scanning => 2 | Again => 6 end.
Definition refresh_weight (w : refresh_world) : nat := (total phase_weight (workers w) + 5 * size (refreshDirty (rstate w)))%nat.

Lemma size_mark (x : Z) (l : gset Z) : (size ({[ x ]} ∪ l) ≤ S (size l))%nat.
Proof. rewrite size_union_alt, size_singleton. assert (size (l ∖ {[ x ]}) ≤ size l)%nat by (apply subseteq_size; set_solver). lia. Qed.
Lemma size_clear (x : Z) (l : gset Z) : (size (l ∖ {[ x ]}) ≤ size l)%nat.
Proof. apply subseteq_size. set_solver. Qed.
Lemma size_clear_in (x : Z) (l : gset Z) : x ∈ l → size l = S (size (l ∖ {[ x ]})).
Proof. intros Hx. rewrite (union_difference_singleton_L x l Hx) at 1. rewrite size_union by set_solver. by rewrite size_singleton. Qed.

Lemma worker_lighter server w w' : worker_step server w w' → (refresh_weight w' < refresh_weight w)%nat.
Proof.
  intros Hs. destruct Hs as [s st a b ev|s st a b ev|s st a b ev|s st a b ev]; unfold refresh_weight; cbn [rstate workers events];
    rewrite !total_app, total_cons; cbn [phase_weight snd fst].
  - cbn. pose proof (size_clear s (refreshDirty st)). rewrite total_cons. cbn. lia.
  - rewrite total_cons. cbn. lia.
  - cbn. case_bool_decide as Hd; rewrite ?total_cons, total_nil; cbn.
    + rewrite (size_clear_in s (refreshDirty st)) by done. lia.
    + pose proof (size_clear s (refreshDirty st)). lia.
  - unfold scheduleRefresh. destruct server; cbn; [|rewrite total_nil; lia].
    destruct (decide _); cbn; [pose proof (size_mark s (refreshDirty st))|]; rewrite ?total_cons, total_nil; cbn; lia.
Qed.

Lemma worker_runs_short server n w w' : nsteps (worker_step server) n w w' → (n + refresh_weight w' ≤ refresh_weight w)%nat.
Proof. induction 1 as [|n a b c Hs _ IH]; [lia|]. apply worker_lighter in Hs. lia. Qed.

Lemma worker_moves server w : workers w ≠ [] → ∃ w', worker_step server w w'.
Proof.
  destruct w as [st [|[s ph] b] ev]; [done|]. intros _. destruct ph; eexists.
  - apply (W_wake server s st [] b ev).
  - apply (W_call server s st [] b ev).
  - apply (W_end server s st [] b ev).
  - apply (W_again server s st [] b ev).
Qed.

Lemma unseen_app s l1 l2 : unseen s l1 = true → Scanned s ∉ l2 → unseen s (l1 ++ l2) = true.
Proof.
  intros H1. induction l2 as [|e l2 IH] using rev_ind; intros H2; [by rewrite app_nil_r|]. rewrite elem_of_app, list_elem_of_singleton in H2.
  rewrite app_assoc, unseen_snoc, IH by tauto. destruct e as [x|x]; cbn; case_decide; try done. subst. tauto.
Qed.

Lemma marked_at_most s l : (marked s l ≤ 1)%nat.
Proof. unfold marked. case_decide; lia. Qed.

(** C26: Refreshes are neither lost nor multiplied.  In every interleaving of requests and
    goroutines at most one goroutine waits for or runs a scan of a section, so scans of a
    section do not overlap, and a section is scanned at most as often as it was asked for.
    Once requests stop, the goroutines finish within a number of steps the state bounds,
    and when none is left every request was followed by a scan that began after it. *)
Theorem refreshes_follow_requests w : rtc (refresh_step true) refresh_start w →
  (∀ s, (total (holds s) (workers w) ≤ 1 ∧ total (scanned s) (events w) ≤ total (asked s) (events w))%nat) ∧
  (∀ n w', nsteps (worker_step true) n w w' → (n ≤ refresh_weight w)%nat ∧
     ((∀ w2, ¬ worker_step true w' w2) →
       workers w' = [] ∧ ∀ s l1 l2, events w' = l1 ++ Asked s :: l2 → Scanned s ∈ l2)).
Proof.
  intros Hr. pose proof (refresh_reachable w Hr) as Hi. split.
  { intros s. rewrite (ri_one w Hi s). pose proof (ri_count w Hi s). pose proof (marked_at_most s (refreshPending (rstate w))). lia. }
  intros n w' Hn. split; [apply worker_runs_short in Hn; lia|]. intros Hstop.
  assert (Hw : workers w' = []).
  { destruct (decide (workers w' = [])) as [E|E]; [done|]. destruct (worker_moves true w' E) as [w2 H2]. by destruct (Hstop w2). }
  assert (Hi' : refresh_inv w').
  { revert Hi. clear Hr Hstop Hw. induction Hn as [|n a b c Hs _ IH]; [done|]. intros Ha. apply IH. by eapply worker_inv. }
  split; [done|]. intros s l1 l2 E. destruct (decide (Scanned s ∈ l2)) as [H|H]; [done|exfalso].
  assert (Hu : unseen s (events w') = true).
  { rewrite E, cons_middle, app_assoc. apply unseen_app; [|done]. rewrite unseen_snoc. cbn. by rewrite decide_True. }
  destruct (ri_seen w' Hi' s Hu) as [Ho|[_ Hp]]; [rewrite Hw, total_nil in Ho; lia|].
  rewrite <-(ri_one w' Hi' s), Hw, total_nil in Hp. lia.
Qed.

(** ** A sample run: a request while the scan of an earlier one runs *)

Definition busy : refresh_world := mkRefreshing (mkRefresher {[ 7 ]} {[ 7 ]}) [(7, Scanning)] [Asked 7; Scanned 7; Asked 7].
Definition rested : refresh_world :=
  mkRefreshing (mkRefresher ∅ ∅) [] [Asked 7; Scanned 7; Asked 7; Scanned 7].

Lemma busy_reached : rtc (refresh_step true) refresh_start busy.
Proof.
  eapply rtc_l; [apply (R_ask true 7)|]. eapply rtc_l; [apply R_worker, (W_wake true 7 _ [] [])|].
  eapply rtc_l; [apply R_worker, (W_call true 7 _ [] [])|]. eapply rtc_l; [apply (R_ask true 7)|].
  match goal with |- rtc _ ?w _ => assert (E : w = busy) by (vm_compute; reflexivity); rewrite E end. apply rtc_refl.
Qed.

Lemma busy_rests : nsteps (worker_step true) 5 busy rested.
Proof.
  eapply nsteps_l; [apply (W_end true 7 _ [] [])|]. eapply nsteps_l; [apply (W_again true 7 _ [] [])|].
  eapply nsteps_l; [apply (W_wake true 7 _ [] [])|]. eapply nsteps_l; [apply (W_call true 7 _ [] [])|].
  eapply nsteps_l; [apply (W_end true 7 _ [] [])|].
  match goal with |- nsteps _ _ ?w _ => assert (E : w = rested) by (vm_compute; reflexivity); rewrite E end. apply nsteps_O.
Qed.

Lemma refreshes_follow_requests_witness : Scanned 7 ∈ [Scanned 7].
Proof.
  destruct (refreshes_follow_requests busy busy_reached) as [_ H]. destruct (H 5%nat rested busy_rests) as [_ H2].
  destruct H2 as [_ H3]; [|exact (H3 7 [Asked 7; Scanned 7] [Scanned 7] eq_refl)].
  intros w2 Hs. inversion Hs as [? ? a|? ? a|? ? a|? ? a]; destruct a; discriminate.
Defined.

(** Without a media server a request does nothing. *)
Lemma no_server_no_refresh w w' : workers w = [] → refresh_step false w w' → workers w' = [] ∧ rstate w' = rstate w.
Proof. intros Hw Hs. destruct Hs as [|w w' Hs]; cbn in *; [by subst|]. destruct Hs as [? ? a|? ? a|? ? a|? ? a]; by destruct a. Qed.
