(* ===== verification/Locks.v ===== *)
(** * Locks by key (internal/library/locks.go, internal/lockmgr/locks.go)

    [keyLocks] hands out a read-write lock per key, made on demand and dropped when the
    last user is gone; [LockManager] is the same idea for plain mutexes, with the count
    inside the lock.  A lock is an object with an identity: a thread that has fetched it
    goes on with that object whatever the maps say by then.

    A step is a section under the mutex of the maps, or an operation of one lock.  A
    [sync.RWMutex] is modelled by who holds it; that it makes readers wait for a waiting
    writer only removes behaviours. *)

From Stdlib Require Import Ascii String.
From S2P Require Import Prelude.
Local Open Scope string_scope.
Local Open Scope Z_scope.

(** ** The state *)

Inductive lock_mode := Exclusive | Shared | Trying.
#[export] Instance mode_eq_dec : EqDecision lock_mode.
Proof. solve_decision. Defined.
(** Where a thread is between [acquire] and the end of [done]. *)
Inductive lock_phase := Wanting (m : lock_mode) | Holding (m : lock_mode) | Leaving.
Record user := mkUser { u_key : string; u_lock : nat; u_phase : lock_phase }.

Record RWMutex := mkRW { rw_writer : option nat; rw_readers : gset nat }.
Definition free_rw : RWMutex := mkRW None ∅.

Record keyLocks := mkKeyLocks { kl_locks : gmap string nat; kl_waiters : gmap string Z }.
Definition newKeyLocks : keyLocks := mkKeyLocks ∅ ∅.

Record lock_world := mkLockWorld { kl : keyLocks; heap : gmap nat RWMutex; users : gmap nat user }.
Definition locks_start : lock_world := mkLockWorld newKeyLocks ∅ ∅.

Definition waiting_on (key : string) (k : keyLocks) : Z := match kl_waiters k !! key with Some n => n | None => 0 end.

(** [acquire]: the lock of the key, a fresh one if there is none; [l] is its identity. *)
Definition acquire (key : string) (l : nat) (k : keyLocks) : keyLocks * nat :=
  match kl_locks k !! key with
  | Some l0 => (mkKeyLocks (kl_locks k) (<[key := waiting_on key k + 1]> (kl_waiters k)), l0)
  | None => (mkKeyLocks (<[key := l]> (kl_locks k)) (<[key := waiting_on key k + 1]> (kl_waiters k)), l)
  end.
Definition lock_done (key : string) (k : keyLocks) : keyLocks :=
  if waiting_on key k - 1 <=? 0 then mkKeyLocks (delete key (kl_locks k)) (delete key (kl_waiters k))
  else mkKeyLocks (kl_locks k) (<[key := waiting_on key k - 1]> (kl_waiters k)).

Definition rw_of (l : nat) (h : gmap nat RWMutex) : RWMutex := match h !! l with Some rw => rw | None => free_rw end.
Definition is_free (rw : RWMutex) : bool := bool_decide (rw_writer rw = None) && bool_decide (rw_readers rw = ∅).
Definition rw_take (m : lock_mode) (t : nat) (rw : RWMutex) : RWMutex :=
  match m with Shared => mkRW (rw_writer rw) ({[ t ]} ∪ rw_readers rw) | _ => mkRW (Some t) (rw_readers rw) end.
Definition rw_give (m : lock_mode) (t : nat) (rw : RWMutex) : RWMutex :=
  match m with Shared => mkRW (rw_writer rw) (rw_readers rw ∖ {[ t ]}) | _ => mkRW None (rw_readers rw) end.
Definition grants (m : lock_mode) (rw : RWMutex) : bool :=
  match m with Shared => bool_decide (rw_writer rw = None) | _ => is_free rw end.

Inductive lock_step : lock_world → lock_world → Prop :=
  | L_acquire t key m l w :
      users w !! t = None → heap w !! l = None →
      lock_step w (mkLockWorld (acquire key l (kl w)).1
        (match kl_locks (kl w) !! key with Some _ => heap w | None => <[l := free_rw]> (heap w) end)
        (<[t := mkUser key (acquire key l (kl w)).2 (Wanting m)]> (users w)))
  | L_lock t key l m w :
      users w !! t = Some (mkUser key l (Wanting m)) → grants m (rw_of l (heap w)) = true →
      lock_step w (mkLockWorld (kl w) (<[l := rw_take m t (rw_of l (heap w))]> (heap w)) (<[t := mkUser key l (Holding m)]> (users w)))
  | L_try_fail t key l w :
      users w !! t = Some (mkUser key l (Wanting Trying)) → grants Trying (rw_of l (heap w)) = false →
      lock_step w (mkLockWorld (kl w) (heap w) (<[t := mkUser key l Leaving]> (users w)))
  | L_unlock t key l m w :
      users w !! t = Some (mkUser key l (Holding m)) →
      lock_step w (mkLockWorld (kl w) (<[l := rw_give m t (rw_of l (heap w))]> (heap w)) (<[t := mkUser key l Leaving]> (users w)))
  | L_done t key l w :
      users w !! t = Some (mkUser key l Leaving) →
      lock_step w (mkLockWorld (lock_done key (kl w)) (heap w) (delete t (users w))).

(** ** [LockManager] *)

Record lockEntry := mkEntry { le_holder : option nat; refCount : Z }.
Record lm_world := mkLm { lm_locks : gmap string nat; entries : gmap nat lockEntry; lm_users : gmap nat user }.
Definition NewLockManager : lm_world := mkLm ∅ ∅ ∅.
Definition entry_of (l : nat) (h : gmap nat lockEntry) : lockEntry := match h !! l with Some e => e | None => mkEntry None 0 end.

Inductive lm_step : lm_world → lm_world → Prop :=
  | M_ref t path l w :
      lm_users w !! t = None → entries w !! l = None →
      lm_step w (match lm_locks w !! path with
                 | Some l0 => mkLm (lm_locks w) (<[l0 := mkEntry (le_holder (entry_of l0 (entries w))) (refCount (entry_of l0 (entries w)) + 1)]> (entries w))
                                (<[t := mkUser path l0 (Wanting Exclusive)]> (lm_users w))
                 | None => mkLm (<[path := l]> (lm_locks w)) (<[l := mkEntry None 1]> (entries w)) (<[t := mkUser path l (Wanting Exclusive)]> (lm_users w))
                 end)
  | M_lock t path l w :
      lm_users w !! t = Some (mkUser path l (Wanting Exclusive)) → le_holder (entry_of l (entries w)) = None →
      lm_step w (mkLm (lm_locks w) (<[l := mkEntry (Some t) (refCount (entry_of l (entries w)))]> (entries w)) (<[t := mkUser path l (Holding Exclusive)]> (lm_users w)))
  | M_unlock t path l w :
      lm_users w !! t = Some (mkUser path l (Holding Exclusive)) →
      lm_step w (mkLm (lm_locks w) (<[l := mkEntry None (refCount (entry_of l (entries w)))]> (entries w)) (<[t := mkUser path l Leaving]> (lm_users w)))
  | M_unref t path l w :
      lm_users w !! t = Some (mkUser path l Leaving) →
      let n := refCount (entry_of l (entries w)) - 1 in
      lm_step w (mkLm (if n <=? 0 then delete path (lm_locks w) else lm_locks w)
        (<[l := mkEntry (le_holder (entry_of l (entries w))) n]> (entries w)) (delete t (lm_users w))).

(** [Stats] *)
Definition TotalLocks (w : lm_world) : Z := Z.of_nat (size (lm_locks w)).

(** ** Counting users *)

Definition uses (key : string) (us : gmap nat user) : nat := size (filter (λ p : nat * user, u_key p.2 = key) us).

Lemma uses_insert_new key t u us : us !! t = None → uses key (<[t := u]> us) = (if decide (u_key u = key) then S (uses key us) else uses key us).
Proof.
  intros Ht. unfold uses. case_decide as E.
  - rewrite map_filter_insert_True by done. apply map_size_insert_None. apply map_lookup_filter_None. by left.
  - rewrite map_filter_insert_not'; [done|done|]. intros y. by rewrite Ht.
Qed.

Lemma uses_delete key t u us : us !! t = Some u → uses key us = (if decide (u_key u = key) then S (uses key (delete t us)) else uses key (delete t us)).
Proof. intros Ht. rewrite <-(uses_insert_new key t u (delete t us)) by apply lookup_delete_eq. by rewrite insert_delete_id. Qed.

Lemma uses_move key t u u' us : us !! t = Some u → u_key u' = u_key u → uses key (<[t := u']> us) = uses key us.
Proof.
  intros Ht E. rewrite (uses_delete key t u us Ht). rewrite (uses_delete key t u' (<[t := u']> us)) by apply lookup_insert_eq.
  rewrite E. by rewrite delete_insert_eq.
Qed.

Lemma uses_pos key t u us : us !! t = Some u → u_key u = key → (0 < uses key us)%nat.
Proof. intros Ht E. rewrite (uses_delete key t u us Ht), decide_True by done. lia. Qed.

Lemma uses_zero key us : uses key us = 0%nat ↔ ∀ t u, us !! t = Some u → u_key u ≠ key.
Proof.
  split.
  - intros H t u Ht E. pose proof (uses_pos key t u us Ht E). lia.
  - intros H. unfold uses. apply map_size_empty_iff, map_empty. intros t. apply map_lookup_filter_None. right. intros u Ht. by apply (H t).
Qed.

(** ** The invariant *)

Record lock_inv (w : lock_world) : Prop := {
  li_waiters key : kl_waiters (kl w) !! key = if decide (uses key (users w) = 0%nat) then None else Some (Z.of_nat (uses key (users w)));
  li_locks key : kl_locks (kl w) !! key = None ↔ uses key (users w) = 0%nat;
  li_same t u : users w !! t = Some u → kl_locks (kl w) !! u_key u = Some (u_lock u);
  li_inj key key' l : kl_locks (kl w) !! key = Some l → kl_locks (kl w) !! key' = Some l → key = key';
  li_heap key l : kl_locks (kl w) !! key = Some l → is_Some (heap w !! l);
  li_writer l t : rw_writer (rw_of l (heap w)) = Some t ↔ ∃ key m, users w !! t = Some (mkUser key l (Holding m)) ∧ m ≠ Shared;
  li_reader l t : t ∈ rw_readers (rw_of l (heap w)) ↔ ∃ key, users w !! t = Some (mkUser key l (Holding Shared));
  li_excl l t : rw_writer (rw_of l (heap w)) = Some t → rw_readers (rw_of l (heap w)) = ∅
}.

Lemma waiting_on_uses w key : lock_inv w → waiting_on key (kl w) = Z.of_nat (uses key (users w)).
Proof. intros Hi. unfold waiting_on. rewrite (li_waiters _ Hi). case_decide as E; [by rewrite E|done]. Qed.

Lemma rw_of_insert l l' rw h : rw_of l' (<[l := rw]> h) = if decide (l = l') then rw else rw_of l' h.
Proof. unfold rw_of. case_decide as E; [by rewrite E, lookup_insert_eq|by rewrite lookup_insert_ne]. Qed.

Lemma rw_of_fresh l h l' : h !! l = None → rw_of l' (<[l := free_rw]> h) = rw_of l' h.
Proof. intros E. rewrite rw_of_insert. case_decide as El; [|done]. subst. unfold rw_of. by rewrite E. Qed.

(** A step that leaves the maps alone moves one user. *)
Lemma move_inv w t key l ph ph' h' :
  lock_inv w → users w !! t = Some (mkUser key l ph) →
  (∀ l0, is_Some (heap w !! l0) → is_Some (h' !! l0)) →
  (∀ l' t', rw_writer (rw_of l' h') = Some t' ↔
     ∃ k m, <[t := mkUser key l ph']> (users w) !! t' = Some (mkUser k l' (Holding m)) ∧ m ≠ Shared) →
  (∀ l' t', t' ∈ rw_readers (rw_of l' h') ↔ ∃ k, <[t := mkUser key l ph']> (users w) !! t' = Some (mkUser k l' (Holding Shared))) →
  (∀ l' t', rw_writer (rw_of l' h') = Some t' → rw_readers (rw_of l' h') = ∅) →
  lock_inv (mkLockWorld (kl w) h' (<[t := mkUser key l ph']> (users w))).
Proof.
  intros Hi Ht Hh Hw Hr He. assert (Hu : ∀ k, uses k (<[t := mkUser key l ph']> (users w)) = uses k (users w)) by (intros k; by eapply uses_move).
  split; simpl; try done.
  - intros k. rewrite Hu. apply (li_waiters _ Hi).
  - intros k. rewrite Hu. apply (li_locks _ Hi).
  - intros t' u [[<- <-]|[_ Hu']]%lookup_insert_Some; simpl; [apply (li_same _ Hi t _ Ht)|by eapply li_same].
  - apply (li_inj _ Hi).
  - intros k l0 Hk. apply Hh. by apply (li_heap _ Hi k).
Qed.

Lemma L_lock_inv w t key l m :
  lock_inv w → users w !! t = Some (mkUser key l (Wanting m)) → grants m (rw_of l (heap w)) = true →
  lock_inv (mkLockWorld (kl w) (<[l := rw_take m t (rw_of l (heap w))]> (heap w)) (<[t := mkUser key l (Holding m)]> (users w))).
Proof.
  intros Hi Ht Hg. assert (Hnw : rw_writer (rw_of l (heap w)) = None).
  { destruct m; simpl in Hg; unfold is_free in Hg; rewrite ?andb_true_iff, ?bool_decide_eq_true in Hg; naive_solver. }
  assert (Hnr : m ≠ Shared → rw_readers (rw_of l (heap w)) = ∅).
  { intros Hm. destruct m; [|done|]; simpl in Hg; unfold is_free in Hg; apply andb_true_iff in Hg as [_ Hg]; by apply bool_decide_eq_true in Hg. }
  apply (move_inv w t key l (Wanting m)); try done.
  - intros l0 Hl0. destruct (decide (l = l0)) as [->|]; [rewrite lookup_insert_eq; by eexists|by rewrite lookup_insert_ne].
  - intros l' t'. rewrite rw_of_insert. pose proof (li_writer _ Hi l' t') as Hw. destruct (decide (t = t')) as [<-|Hne].
    + rewrite lookup_insert_eq. case_decide as El.
      * subst l'. destruct m; simpl; try (split; [intros _; by eexists _, _|done]).
        rewrite Hnw. split; [done|]. by intros (k & m & [= _ <-] & ?).
      * rewrite Hw. rewrite Ht. split; [by intros (k & m' & [=] & _)|by intros (k & m' & [= _ -> _] & _)].
    + rewrite lookup_insert_ne by done. case_decide as El; [|done]. subst l'. rewrite <-Hw, Hnw.
      destruct m; simpl; rewrite ?Hnw; split; congruence.
  - intros l' t'. rewrite rw_of_insert. pose proof (li_reader _ Hi l' t') as Hr. destruct (decide (t = t')) as [<-|Hne].
    + rewrite lookup_insert_eq. case_decide as El.
      * subst l'. rewrite Ht in Hr. destruct m; simpl; [|split; [intros _; by eexists|set_solver]|];
          (rewrite Hr; split; [by intros (k & [=])|by intros (k & [=])]).
      * rewrite Hr, Ht. split; [by intros (k & [=])|by intros (k & [= _ -> _])].
    + rewrite lookup_insert_ne by done. case_decide as El; [|done]. subst l'. rewrite <-Hr. destruct m; simpl; set_solver.
  - intros l' t'. rewrite rw_of_insert. case_decide as El; [|apply (li_excl _ Hi)].
    destruct m; simpl; [intros _; by apply Hnr|congruence|intros _; by apply Hnr].
Qed.

Lemma L_unlock_inv w t key l m :
  lock_inv w → users w !! t = Some (mkUser key l (Holding m)) →
  lock_inv (mkLockWorld (kl w) (<[l := rw_give m t (rw_of l (heap w))]> (heap w)) (<[t := mkUser key l Leaving]> (users w))).
Proof.
  intros Hi Ht. apply (move_inv w t key l (Holding m)); try done.
  - intros l0 Hl0. destruct (decide (l = l0)) as [->|]; [rewrite lookup_insert_eq; by eexists|by rewrite lookup_insert_ne].
  - intros l' t'. rewrite rw_of_insert. pose proof (li_writer _ Hi l' t') as Hw. destruct (decide (t = t')) as [<-|Hne].
    + rewrite lookup_insert_eq. case_decide as El.
      * subst l'. rewrite Ht in Hw. destruct m; simpl; try (split; [done|by intros (k & m' & [=] & _)]).
        rewrite Hw. split; [by intros (k & m' & [= _ <-] & ?)|by intros (k & m' & [=] & _)].
      * rewrite Hw, Ht. split; [by intros (k & m' & [= _ -> _] & _)|by intros (k & m' & [=] & _)].
    + rewrite lookup_insert_ne by done. case_decide as El; [|done]. subst l'. rewrite <-Hw. destruct m; simpl; [|done|];
        (split; [done|]; intros E; assert (Et : rw_writer (rw_of l (heap w)) = Some t) by (apply (li_writer _ Hi); eauto); congruence).
  - intros l' t'. rewrite rw_of_insert. pose proof (li_reader _ Hi l' t') as Hr. destruct (decide (t = t')) as [<-|Hne].
    + rewrite lookup_insert_eq. case_decide as El.
      * subst l'. rewrite Ht in Hr. destruct m; simpl; [|split; [set_solver|by intros (k & [=])]|];
          (rewrite Hr; split; [by intros (k & [=])|by intros (k & [=])]).
      * rewrite Hr, Ht. split; [by intros (k & [= _ -> _])|by intros (k & [=])].
    + rewrite lookup_insert_ne by done. case_decide as El; [|done]. subst l'. rewrite <-Hr. destruct m; simpl; set_solver.
  - intros l' t'. rewrite rw_of_insert. case_decide as El; [|apply (li_excl _ Hi)].
    destruct m; simpl; [done| |done]. intros E. rewrite (li_excl _ Hi l t' E). set_solver.
Qed.

Lemma L_try_fail_inv w t key l : lock_inv w → users w !! t = Some (mkUser key l (Wanting Trying)) →
  lock_inv (mkLockWorld (kl w) (heap w) (<[t := mkUser key l Leaving]> (users w))).
Proof.
  intros Hi Ht. apply (move_inv w t key l (Wanting Trying)); try done.
  - intros l' t'. rewrite (li_writer _ Hi). destruct (decide (t = t')) as [<-|]; [|by rewrite lookup_insert_ne].
    rewrite lookup_insert_eq, Ht. split; by intros (k & m & [=] & _).
  - intros l' t'. rewrite (li_reader _ Hi). destruct (decide (t = t')) as [<-|]; [|by rewrite lookup_insert_ne].
    rewrite lookup_insert_eq, Ht. split; by intros (k & [=]).
  - apply (li_excl _ Hi).
Qed.

Lemma L_acquire_inv w t key m l : lock_inv w → users w !! t = None → heap w !! l = None →
  lock_inv (mkLockWorld (acquire key l (kl w)).1
    (match kl_locks (kl w) !! key with Some _ => heap w | None => <[l := free_rw]> (heap w) end)
    (<[t := mkUser key (acquire key l (kl w)).2 (Wanting m)]> (users w))).
Proof.
  intros Hi Ht Hl. set (h' := match _ with Some _ => heap w | None => _ end).
  assert (Hrw : ∀ l', rw_of l' h' = rw_of l' (heap w)) by (intros l'; unfold h'; destruct (kl_locks (kl w) !! key); [done|by apply rw_of_fresh]).
  pose proof (waiting_on_uses w key Hi) as Hn.
  assert (Hk : ∃ l1, (acquire key l (kl w)).2 = l1 ∧ (acquire key l (kl w)).1 = mkKeyLocks (<[key := l1]> (kl_locks (kl w))) (<[key := Z.of_nat (uses key (users w)) + 1]> (kl_waiters (kl w))) ∧
    (kl_locks (kl w) !! key = Some l1 ∧ h' = heap w ∨ kl_locks (kl w) !! key = None ∧ l1 = l ∧ h' = <[l := free_rw]> (heap w))).
  { unfold acquire, h'. destruct (kl_locks (kl w) !! key) as [l0|] eqn:E; simpl; eexists; rewrite Hn; split_and!; try done; [|by left|right; done].
    by rewrite (insert_id (kl_locks (kl w))). }
  destruct Hk as (l1 & -> & -> & Hcase). clearbody h'.
  assert (Hother : ∀ k, k ≠ key → kl_locks (kl w) !! k ≠ Some l1).
  { intros k Hne E. destruct Hcase as [[E' _]|(_ & -> & _)]; [by apply Hne, (li_inj _ Hi k key l1)|].
    destruct (li_heap _ Hi k l E). congruence. }
  split; cbn [kl heap users kl_locks kl_waiters].
  - intros k. rewrite uses_insert_new by done. simpl. destruct (decide (key = k)) as [E|E].
    + subst k. rewrite lookup_insert_eq, decide_False by lia. f_equal. lia.
    + rewrite lookup_insert_ne by done. apply (li_waiters _ Hi).
  - intros k. rewrite uses_insert_new by done. simpl. case_decide as E.
    + subst k. rewrite lookup_insert_eq. split; [done|lia].
    + rewrite lookup_insert_ne by done. apply (li_locks _ Hi).
  - intros t' u [[<- <-]|[_ Hu]]%lookup_insert_Some; simpl; [apply lookup_insert_eq|].
    pose proof (li_same _ Hi t' u Hu) as Hs. destruct (decide (key = u_key u)) as [E|]; [|by rewrite lookup_insert_ne].
    rewrite <-E, lookup_insert_eq. rewrite <-E in Hs. destruct Hcase as [[E' _]|(E' & _)]; congruence.
  - intros k k' l0 [[<- <-]|[Hk1 H1]]%lookup_insert_Some [[<- H2]|[Hk2 H2]]%lookup_insert_Some; try done.
    + by destruct (Hother k').
    + subst. by destruct (Hother k).
    + by apply (li_inj _ Hi k k' l0).
  - intros k l0 [[<- <-]|[Hne Hk]]%lookup_insert_Some.
    + destruct Hcase as [[E ->]|(_ & -> & ->)]; [by apply (li_heap _ Hi key)|rewrite lookup_insert_eq; by eexists].
    + destruct (li_heap _ Hi k l0 Hk) as [rw Hrw0]. destruct Hcase as [[_ ->]|(_ & -> & ->)]; [by exists rw|].
      rewrite lookup_insert_ne; [by exists rw|]. congruence.
  - intros l' t'. rewrite Hrw, (li_writer _ Hi). destruct (decide (t = t')) as [<-|]; [|by rewrite lookup_insert_ne].
    rewrite lookup_insert_eq, Ht. split; [by intros (k & m' & [=] & _)|by intros (k & m' & [=] & _)].
  - intros l' t'. rewrite Hrw, (li_reader _ Hi). destruct (decide (t = t')) as [<-|]; [|by rewrite lookup_insert_ne].
    rewrite lookup_insert_eq, Ht. split; by intros (k & [=]).
  - intros l' t'. rewrite Hrw. apply (li_excl _ Hi).
Qed.

Lemma L_done_inv w t key l : lock_inv w → users w !! t = Some (mkUser key l Leaving) →
  lock_inv (mkLockWorld (lock_done key (kl w)) (heap w) (delete t (users w))).
Proof.
  intros Hi Ht. pose proof (waiting_on_uses w key Hi) as Hn. pose proof (uses_delete key t _ (users w) Ht) as Hd. simpl in Hd.
  rewrite decide_True in Hd by done.
  assert (Hsame : ∀ k, k ≠ key → uses k (delete t (users w)) = uses k (users w)).
  { intros k Hne. rewrite (uses_delete k t _ (users w) Ht). simpl. by rewrite decide_False by congruence. }
  assert (Hl : ∀ k l0, kl_locks (lock_done key (kl w)) !! k = Some l0 → kl_locks (kl w) !! k = Some l0).
  { intros k l0. unfold lock_done. case_match; simpl; [|done]. by intros [_ ?]%lookup_delete_Some. }
  split; cbn [kl heap users].
  - intros k. unfold lock_done. rewrite Hn, Hd. destruct (Z.leb_spec (Z.of_nat (S (uses key (delete t (users w)))) - 1) 0); simpl.
    + destruct (decide (key = k)) as [<-|Hne]; [rewrite lookup_delete_eq, decide_True by lia; done|].
      rewrite lookup_delete_ne by done. rewrite Hsame by congruence. apply (li_waiters _ Hi).
    + destruct (decide (key = k)) as [<-|Hne]; [rewrite lookup_insert_eq, decide_False by lia; f_equal; lia|].
      rewrite lookup_insert_ne by done. rewrite Hsame by congruence. apply (li_waiters _ Hi).
  - intros k. unfold lock_done. rewrite Hn, Hd. destruct (Z.leb_spec (Z.of_nat (S (uses key (delete t (users w)))) - 1) 0); simpl.
    + destruct (decide (key = k)) as [<-|Hne]; [rewrite lookup_delete_eq; split; [lia|done]|].
      rewrite lookup_delete_ne by done. rewrite Hsame by congruence. apply (li_locks _ Hi).
    + destruct (decide (key = k)) as [<-|Hne]; [|rewrite Hsame by congruence; apply (li_locks _ Hi)].
      rewrite (li_locks _ Hi). lia.
  - intros t' u [Hne Hu]%lookup_delete_Some. pose proof (li_same _ Hi t' u Hu) as Hs. unfold lock_done. rewrite Hn, Hd.
    destruct (Z.leb_spec (Z.of_nat (S (uses key (delete t (users w)))) - 1) 0); simpl; [|done].
    rewrite lookup_delete_ne; [done|]. intros ->. pose proof (uses_pos (u_key u) t' u (delete t (users w))) as Hp.
    rewrite lookup_delete_ne in Hp by done. specialize (Hp Hu eq_refl). lia.
  - intros k k' l0 H1%Hl H2%Hl. by apply (li_inj _ Hi k k' l0).
  - intros k l0 H1%Hl. by apply (li_heap _ Hi k).
  - intros l' t'. rewrite (li_writer _ Hi). destruct (decide (t = t')) as [<-|]; [|by rewrite lookup_delete_ne].
    rewrite lookup_delete_eq, Ht. split; by intros (k & m & [=] & _).
  - intros l' t'. rewrite (li_reader _ Hi). destruct (decide (t = t')) as [<-|]; [|by rewrite lookup_delete_ne].
    rewrite lookup_delete_eq, Ht. split; by intros (k & [=]).
  - apply (li_excl _ Hi).
Qed.

Lemma lock_step_inv w w' : lock_inv w → lock_step w w' → lock_inv w'.
Proof.
  intros Hi Hs. destruct Hs.
  - by apply L_acquire_inv.
  - by apply L_lock_inv.
  - by apply L_try_fail_inv.
  - by apply L_unlock_inv.
  - by eapply L_done_inv.
Qed.

Lemma locks_start_inv : lock_inv locks_start.
Proof.
  split; simpl; try done.
  - intros l t. split; [done|]. intros (k & m & H & _). by rewrite lookup_empty in H.
  - intros l t. unfold rw_of. rewrite lookup_empty. simpl. split; [set_solver|]. intros (k & H). by rewrite lookup_empty in H.
Qed.

Lemma lock_reachable w : rtc lock_step locks_start w → lock_inv w.
Proof. intros H. assert (Hi := locks_start_inv). revert Hi. induction H as [|a b c Hs _ IH]; [done|]. intros Hi. by eapply IH, lock_step_inv. Qed.

(** C31: Locks by key exclude: of two threads that hold the same key both hold it shared,
    although the lock behind the key is dropped and made again while others wait.  A
    thread that wants a key nobody holds gets it, and a key nobody uses leaves nothing
    behind. *)
Theorem keys_exclude w :
  rtc lock_step locks_start w →
  (∀ t t' key l l' m m', users w !! t = Some (mkUser key l (Holding m)) → users w !! t' = Some (mkUser key l' (Holding m')) →
     t ≠ t' → m = Shared ∧ m' = Shared) ∧
  (∀ t key l m, users w !! t = Some (mkUser key l (Wanting m)) →
     (∀ t' u m', users w !! t' = Some u → u_key u = key → u_phase u ≠ Holding m') → grants m (rw_of l (heap w)) = true) ∧
  (∀ key, (∀ t u, users w !! t = Some u → u_key u ≠ key) → kl_locks (kl w) !! key = None ∧ kl_waiters (kl w) !! key = None).
Proof.
  intros Hr. pose proof (lock_reachable w Hr) as Hi. split_and!.
  - intros t t' key l l' m m' Ht Ht' Hne. pose proof (li_same _ Hi _ _ Ht) as E1. pose proof (li_same _ Hi _ _ Ht') as E2. simpl in *.
    rewrite E1 in E2. injection E2 as <-.
    assert (Hsh : ∀ a b ma mb, a ≠ b → users w !! a = Some (mkUser key l (Holding ma)) → users w !! b = Some (mkUser key l (Holding mb)) → ma = Shared).
    { intros a b ma mb Hab Ha Hb. destruct (decide (ma = Shared)) as [|Hma]; [done|exfalso].
      assert (Hwa : rw_writer (rw_of l (heap w)) = Some a) by (apply (li_writer _ Hi); eauto).
      destruct (decide (mb = Shared)) as [->|Hmb].
      - assert (b ∈ rw_readers (rw_of l (heap w))) by (apply (li_reader _ Hi); eauto). rewrite (li_excl _ Hi l a Hwa) in H. set_solver.
      - assert (Hwb : rw_writer (rw_of l (heap w)) = Some b) by (apply (li_writer _ Hi); eauto). congruence. }
    split; [by apply (Hsh t t' m m')|by apply (Hsh t' t m' m)].
  - intros t key l m Ht Hno. pose proof (li_same _ Hi _ _ Ht) as E1. simpl in E1.
    assert (Hk : ∀ t' k' m', users w !! t' = Some (mkUser k' l (Holding m')) → False).
    { intros t' k' m' Hu. pose proof (li_same _ Hi _ _ Hu) as E2. simpl in E2. pose proof (li_inj _ Hi _ _ _ E1 E2) as <-.
      by apply (Hno t' _ m' Hu). }
    assert (Hw : rw_writer (rw_of l (heap w)) = None).
    { destruct (rw_writer (rw_of l (heap w))) as [x|] eqn:E; [|done]. apply (li_writer _ Hi) in E as (k & m' & Hu & _). by apply Hk in Hu. }
    assert (Hrd : rw_readers (rw_of l (heap w)) = ∅).
    { apply set_eq. intros x. split; [|set_solver]. intros (k & Hu)%(li_reader _ Hi). by apply Hk in Hu. }
    destruct m; simpl; unfold is_free; rewrite ?Hw, ?Hrd; done.
  - intros key Hno. assert (E : uses key (users w) = 0%nat) by (by apply uses_zero).
    split; [by apply (li_locks _ Hi)|]. by rewrite (li_waiters _ Hi), decide_True.
Qed.

(** ** [LockManager] is the exclusive case *)

Record lm_refines (w : lm_world) (k : lock_world) : Prop := {
  lr_users : users k = lm_users w;
  lr_locks : kl_locks (kl k) = lm_locks w;
  lr_count key l : lm_locks w !! key = Some l → kl_waiters (kl k) !! key = Some (refCount (entry_of l (entries w)));
  lr_holder l : rw_writer (rw_of l (heap k)) = le_holder (entry_of l (entries w));
  lr_readers l : rw_readers (rw_of l (heap k)) = ∅;
  lr_heap l : heap k !! l = None ↔ entries w !! l = None
}.

Lemma entry_of_insert l l' e h : entry_of l' (<[l := e]> h) = if decide (l = l') then e else entry_of l' h.
Proof. unfold entry_of. case_decide as E; [by rewrite E, lookup_insert_eq|by rewrite lookup_insert_ne]. Qed.

Lemma insert_none_iff {A B} (l l' : nat) (a : A) (b : B) (h : gmap nat A) (h' : gmap nat B) :
  (∀ x, h !! x = None ↔ h' !! x = None) → <[l := a]> h !! l' = None ↔ <[l := b]> h' !! l' = None.
Proof. intros H. rewrite !lookup_insert_None, H. done. Qed.

Lemma M_ref_simulates w k t path l :
  lock_inv k → lm_refines w k → lm_users w !! t = None → entries w !! l = None →
  ∃ k', lock_step k k' ∧ lm_refines (match lm_locks w !! path with
    | Some l0 => mkLm (lm_locks w) (<[l0 := mkEntry (le_holder (entry_of l0 (entries w))) (refCount (entry_of l0 (entries w)) + 1)]> (entries w))
                   (<[t := mkUser path l0 (Wanting Exclusive)]> (lm_users w))
    | None => mkLm (<[path := l]> (lm_locks w)) (<[l := mkEntry None 1]> (entries w)) (<[t := mkUser path l (Wanting Exclusive)]> (lm_users w))
    end) k'.
Proof.
  intros Hi [R1 R2 R3 R4 R5 R6] Ht Hl. eexists. split.
  { apply (L_acquire t path Exclusive l); [by rewrite R1|by apply R6]. }
  pose proof (li_locks _ Hi path) as Hp. unfold acquire, waiting_on. rewrite R2 in *. destruct (lm_locks w !! path) as [l0|] eqn:E; simpl.
  - pose proof (R3 path l0 E) as Hc. rewrite Hc. split; cbn [users kl kl_locks kl_waiters heap lm_users lm_locks entries].
    + by rewrite R1.
    + done.
    + intros key l1 Hk. rewrite entry_of_insert. case_decide as El; simpl.
      * subst l1. assert (key = path) as ->; [|by rewrite lookup_insert_eq]. apply (li_inj _ Hi key path l0); by rewrite R2.
      * rewrite lookup_insert_ne; [by apply R3|]. intros ->. congruence.
    + intros l1. rewrite entry_of_insert. case_decide as El; [subst; simpl; apply R4|apply R4].
    + done.
    + intros l1. rewrite R6, lookup_insert_None. split; [|by intros [? _]]. intros H. split; [done|]. intros ->.
      destruct (li_heap _ Hi path l1) as [rw Hrw]; [by rewrite R2|]. apply R6 in H. congruence.
  - split; cbn [users kl kl_locks kl_waiters heap lm_users lm_locks entries].
    + by rewrite R1.
    + done.
    + assert (Hw : kl_waiters (kl k) !! path = None) by (rewrite (li_waiters _ Hi), decide_True; [done|by apply Hp]).
      rewrite Hw. intros key l1 [[<- <-]|[Hne Hk]]%lookup_insert_Some.
      * by rewrite lookup_insert_eq, entry_of_insert, decide_True.
      * rewrite lookup_insert_ne, entry_of_insert by done. rewrite decide_False; [by apply R3|]. intros <-.
        destruct (li_heap _ Hi key l) as [rw Hrw]; [by rewrite R2|]. apply R6 in Hl. congruence.
    + intros l1. rewrite rw_of_insert, entry_of_insert. case_decide; [done|apply R4].
    + intros l1. rewrite rw_of_insert. case_decide; [done|apply R5].
    + intros l1. by apply insert_none_iff.
Qed.

(** One user moves on, and the holder of its lock changes. *)
Lemma lm_move_refines w k t u l h' e :
  lm_refines w k → rw_writer h' = le_holder e → rw_readers h' = ∅ → refCount e = refCount (entry_of l (entries w)) →
  lm_refines (mkLm (lm_locks w) (<[l := e]> (entries w)) (<[t := u]> (lm_users w))) (mkLockWorld (kl k) (<[l := h']> (heap k)) (<[t := u]> (users k))).
Proof.
  intros [R1 R2 R3 R4 R5 R6] Hw Hr He. split; cbn [users kl heap lm_users lm_locks entries].
  - by rewrite R1.
  - done.
  - intros key l1 Hk. rewrite entry_of_insert. case_decide as El; [subst l1; rewrite He|]; by apply R3.
  - intros l1. rewrite rw_of_insert, entry_of_insert. case_decide; [done|apply R4].
  - intros l1. rewrite rw_of_insert. case_decide; [done|apply R5].
  - intros l1. by apply insert_none_iff.
Qed.

Lemma M_unref_simulates w k t path l :
  lock_inv k → lm_refines w k → lm_users w !! t = Some (mkUser path l Leaving) →
  let n := refCount (entry_of l (entries w)) - 1 in
  ∃ k', lock_step k k' ∧ lm_refines (mkLm (if n <=? 0 then delete path (lm_locks w) else lm_locks w)
    (<[l := mkEntry (le_holder (entry_of l (entries w))) n]> (entries w)) (delete t (lm_users w))) k'.
Proof.
  intros Hi [R1 R2 R3 R4 R5 R6] Ht n. eexists. split; [apply (L_done t path l); by rewrite R1|].
  assert (Hp : lm_locks w !! path = Some l) by (rewrite <-R2; apply (li_same _ Hi t (mkUser path l Leaving)); by rewrite R1).
  pose proof (R3 path l Hp) as Hc. unfold lock_done, waiting_on. rewrite Hc. fold n.
  assert (Hne : ∀ key l1, key ≠ path → lm_locks w !! key = Some l1 → l ≠ l1).
  { intros key l1 Hk Hl <-. apply Hk. apply (li_inj _ Hi key path l); by rewrite R2. }
  split; cbn [users kl heap lm_users lm_locks entries].
  - by rewrite R1.
  - destruct (n <=? 0); simpl; by rewrite R2.
  - intros key l1 Hk. rewrite entry_of_insert. destruct (n <=? 0); simpl.
    + apply lookup_delete_Some in Hk as [Hkp Hk]. rewrite lookup_delete_ne by done. rewrite decide_False by (by eapply Hne). by apply R3.
    + destruct (decide (key = path)) as [->|Hkp].
      * rewrite Hp in Hk. injection Hk as <-. by rewrite decide_True, lookup_insert_eq by done.
      * rewrite decide_False by (by eapply Hne). rewrite lookup_insert_ne by done. by apply R3.
  - intros l1. rewrite entry_of_insert. case_decide as El; [subst; simpl; apply R4|apply R4].
  - done.
  - intros l1. rewrite R6, lookup_insert_None. split; [|by intros [? _]]. intros H. split; [done|]. intros ->.
    destruct (li_heap _ Hi path l1) as [rw Hrw]; [by rewrite R2|]. apply R6 in H. congruence.
Qed.

Lemma lm_simulates w w' k : lock_inv k → lm_refines w k → lm_step w w' → ∃ k', lock_step k k' ∧ lm_refines w' k'.
Proof.
  intros Hi HR Hs. pose proof HR as [R1 R2 R3 R4 R5 R6]. destruct Hs as [t path l w|t path l w Ht Hn|t path l w Ht|t path l w].
  - by apply M_ref_simulates.
  - eexists. split.
    + apply (L_lock t path l Exclusive); [by rewrite R1|]. simpl. unfold is_free. by rewrite R4, Hn, R5.
    + apply lm_move_refines; [done|done|apply R5|done].
  - eexists. split; [apply (L_unlock t path l Exclusive); by rewrite R1|]. apply lm_move_refines; [done|done|apply R5|done].
  - by apply M_unref_simulates.
Qed.

(** C32: [LockManager] implements the locks by key: every run of it is a run of [keyLocks]
    with exclusive users only, in which the reference count of an entry is the number of
    waiters of its path and the entries present are the same. *)
Theorem LockManager_refines w : rtc lm_step NewLockManager w → ∃ k, rtc lock_step locks_start k ∧ lm_refines w k.
Proof.
  intros H. assert (H0 : ∃ k, rtc lock_step locks_start k ∧ lm_refines NewLockManager k).
  { exists locks_start. split; [apply rtc_refl|]. by split. }
  revert H0. induction H as [w0|a b c Hs _ IH]; [done|]. intros (k & Hk & HR). apply IH.
  destruct (lm_simulates a b k (lock_reachable k Hk) HR Hs) as (k' & Hs' & HR'). exists k'. split; [by eapply rtc_r|done].
Qed.

(** ** A sample run *)

Definition two_waiting : lock_world :=
  mkLockWorld (mkKeyLocks {[ "h" := 0%nat ]} {[ "h" := 2 ]}) {[ 0%nat := mkRW (Some 1%nat) ∅ ]}
    {[ 1%nat := mkUser "h" 0 (Holding Exclusive); 2%nat := mkUser "h" 0 (Wanting Trying) ]}.

Lemma two_waiting_reached : rtc lock_step locks_start two_waiting.
Proof.
  eapply rtc_l; [apply (L_acquire 1 "h" Exclusive 0); reflexivity|]. eapply rtc_l; [apply (L_lock 1 "h" 0 Exclusive); reflexivity|].
  eapply rtc_l; [apply (L_acquire 2 "h" Trying 1); reflexivity|]. apply rtc_refl.
Qed.

Lemma keys_exclude_witness : kl_locks (kl two_waiting) !! "other" = None.
Proof.
  destruct (keys_exclude two_waiting two_waiting_reached) as (_ & _ & H). apply H.
  intros t u Hu. cbn [users two_waiting] in Hu. apply lookup_insert_Some in Hu as [[_ <-]|[_ [_ <-]%lookup_singleton_Some]]; discriminate.
Defined.

Lemma LockManager_refines_witness : ∃ k, rtc lock_step locks_start k ∧
  lm_refines (mkLm {[ "f" := 0%nat ]} {[ 0%nat := mkEntry None 1 ]} {[ 1%nat := mkUser "f" 0 (Wanting Exclusive) ]}) k.
Proof. apply LockManager_refines. apply rtc_once, (M_ref 1 "f" 0 NewLockManager); reflexivity. Defined.
